(* ===== verification/_CoqProject ===== *)
-Q . S2P
Prelude.v
PeerColors.v
JsText.v
JsMap.v
UrlParams.v
Crypto.v
Models.v
Wire.v
Descriptors.v
CollabClient.v
ClientInvariants.v
ClientReconnect.v
ClientSession.v
ClientRecovery.v
Json.v
Jwt.v
EventEmitter.v
SyncAdapter.v
CollabEngine.v
EngineLaws.v
EngineInvariants.v
EngineProperties.v
EngineSync.v
EngineRoster.v
EngineListeners.v
EngineTypes.v
EngineEncryption.v
EngineExchange.v
StallProxy.v
Concurrency.v
Polling.v
RelayProcess.v
Relay.v
RelayInvariants.v
RelayDemo.v
RelayProperties.v
RelaySafety.v
RelayRaces.v
RelayStream.v
RelayConnections.v
RelayStreamSafety.v
IdentityRoster.v
IdentityRelay.v
Network.v
NetworkSafety.v
AppMessageSuite.v
IdentitySuite.v
TokenExpirySuite.v
SlowConsumerSuite.v
ReconnectExercise.v
AuthExercise.v
SuiteRuns.v
IdentityTrust.v
