(* ===== verification/Prelude.v ===== *)
(** * massrelay, verified: clients, engine, relay, and the drivers that try them

    massrelay lets several editors share a drawing or a text over a relay
    server: a page opens a WebSocket to the relay, joins a room, and sends and
    receives updates, which may be encrypted end to end. This development
    models the TypeScript library under [ts/src/], the core of the Go relay it
    talks to, and the TypeScript drivers under [ts/interop/] and [ts/exercise/]
    that try both, and proves what makes the parts correct, each alone and
    together.

    ** The program and its model

    A page creates a [CollabClient], which keeps one connection to the relay:
    it opens sockets, joins, keeps a roster of peers, reconnects with
    exponential backoff, and reports to its application through callbacks. A
    [CollabEngine] is such an application: it wires itself into the client's
    callbacks, keeps the state a user interface shows, and moves updates
    between the relay and a [SyncAdapter], the editor's side. Its own
    listeners subscribe through a [TypedEmitter]. At the other end the relay
    has a stream per connection, whose goroutines hand actions to a service of
    rooms and carry the rooms' events back to the socket.

    The library:

    - [Prelude]: strings as UTF-16 code units, the state and exception monad
      [M] with its notation, record update, weakest preconditions [wp], the
      assertion-keeping judgement [keeps] and its automation, shared lemmas.
    - [JsText], [JsMap]: what the sources use of the JavaScript library. UTF-8,
      base64, URL component and form encoding; insertion-ordered [Map] and [Set].
    - [PeerColors] ([peerColors.ts]), [UrlParams] ([url-params.ts]), [Crypto]
      ([crypto.ts]): the pure modules, one definition per function.
    - [Models] ([gen/massrelay/v1/models/collab_pb.ts]): the messages, as
      records and sum types with the fields of the generated types.
    - [Wire], [Descriptors] ([gen/massrelay/v1/models/collab_pb.ts] and
      [services/collab_pb.ts]): the generated modules as data. What they
      declare for each message and for the service, and their descriptors,
      base64 literals in the protobuf format, which [Wire] reads.
    - [CollabClient] ([CollabClient.ts]): the class's fields as a record, each
      method, event handler and promise continuation as a program in [M] over
      a [World]: the client, its environment (sockets, timers, pending
      promises, page listeners), the application's state, and a log of
      callbacks and effects. [Input] lists the turns of the event loop, [exec]
      runs one, [enabled] says when the platform can produce it.
    - [EventEmitter] ([EventEmitter.ts]): listener sets as objects in a store,
      iterated live as ECMAScript does.
    - [SyncAdapter] ([SyncAdapter.ts]): the adapter interface as a class.
    - [CollabEngine] ([CollabEngine.ts]): the engine as the application of the
      client, in the same world. [engine_cb] is what [_wireClient] installs;
      an [async] method runs to its first [await] and leaves a [Task] for the
      rest; [engine_exec] runs one turn of the engine or of the client below.

    The relay:

    - [Concurrency]: a goroutine's code as a [proc], a sequence of atomic steps
      on shared state each of which may wait; [schedule] lets several take
      turns. [safe] is a logic of tokens over it (who owns what nobody else
      changes), [surely] one of what every step keeps and what the code comes
      to, between the states of one run.
    - [Relay] ([services/room.go], [services/collab_service.go],
      [services/identity.go]): rooms with bounded client queues and the
      handlers of actions; a step is what a lock makes atomic.
    - [RelayStream] ([web/server/stream.go]): a connection: what it does with
      its client's actions, the bridge that carries events to its socket,
      eviction of a slow client, expiry of a token, and its end.
    - [RelayDemo]: a Go runtime to run them on.

    The drivers:

    - [Polling]: waiting with a deadline, as all drivers do.
    - [RelayProcess] ([interop/relay.ts], [interop/relay-setup.ts]): starting,
      probing, restarting and stopping a relay's process.
    - [Json], [Jwt] ([interop/jwt.ts]): [JSON.stringify] of plain data and a
      reader of its texts; the key file and the access tokens of a test relay.
    - [StallProxy] ([interop/stall-proxy.ts]): the TCP proxy the tests put
      before a relay, with its sniffer of WebSocket close frames, as a machine
      over the relay's bytes and the proxy's controls.
    - [Network]: pages with their clients, and the relay, on one [Net] with a
      clock. The client's log is carried out by its page's runtime, the
      relay's queues come out as the client's messages; pages, connections,
      clock and scripts are goroutines that take turns.
    - [AppMessageSuite], [IdentitySuite], [TokenExpirySuite],
      [SlowConsumerSuite] ([interop/*.interop.ts]), [ReconnectExercise] and
      [AuthExercise] ([exercise/*.exercise.ts]): the peers, callbacks and tests
      as scripts on a [Net]; [SuiteRuns] runs them.

    ** What the theorems show

    Of the library:

    - [ClientInvariants] proves one invariant of client and environment, under
      any application that keeps the [Observer] contract, by symbolic
      execution of every turn. [ClientSession] draws from it that connects and
      disconnects alternate, that at most one socket, timer or request is
      under way, that the roster is the map the relay's messages describe,
      that a connect joins and connects, and how sessions end. [ClientReconnect]
      has the bounds on attempts and delays, that attempts end, that a stopped
      client stays stopped, and that a rejoin never changes rooms;
      [ClientRecovery] that a dropped client is back in its room once the
      relay answers an attempt.
    - [EngineLaws] names, as classes, what an assertion has to meet for the
      engine's handlers to keep it: [Handlers], and from it [Blind], for
      assertions that see neither timers nor awaited calls, and [HostTurns],
      for those on the engine's side alone. The files below give instances
      and get every turn from the laws.
    - [EngineInvariants] shows that the engine is an [Observer], so the
      client's theorems hold of it. [EngineProperties] has the engine's phase
      against its client, its timers and its disposal, [EngineSync] the machine
      its handlers implement and who answers a scene request, [EngineRoster]
      that the peers the engine shows are the client's roster, [EngineListeners]
      that listeners know the state, and [EngineTypes] that every reachable
      engine is well formed.
    - [EngineEncryption] and [EngineExchange] compose two engines over the
      relay's messages: scene updates, text updates and the answer to a scene
      request arrive as they were sent between engines with one key, and
      stop at those without.
    - [Descriptors]: what the generated modules declare is what their
      descriptors describe, so the types the program is checked against and
      the format the library writes are of one protocol.
    - [UrlParams], [Crypto], [PeerColors], [EventEmitter]: round trips, error
      cases and exact results of the pure functions and of emissions.

    Of the relay, under every schedule unless a theorem says otherwise:

    - [RelayInvariants], [RelaySafety]: handlers never misuse a channel, rooms
      and queues stay consistent and bounded, identities come from tokens, and
      a room that no token allows stays closed. [RelayProperties]: what each
      action does when its handler runs undisturbed, on every branch.
      [RelayRaces]: one sender's messages reach a client unbroken.
    - [RelayConnections]: a connection speaks for its own client only and its
      client is told of one end of the session.

    Of both together:

    - [RelayStreamSafety], [NetworkSafety]: connections that are not
      half-closed keep the relay's invariant, and so does the whole network
      under every schedule, for scripts that drive pages and look
      ([Network.scripted]).
    - [IdentityRoster], [IdentityRelay], [IdentityTrust]: an assertion of the
      relay and one of a client, composed over the network: an identity in a
      page's roster is one that authentication found in a token, the peer's
      own; what a page is told that a peer said was asked to be sent on a
      connection let in with the identity the roster has for that peer; so a
      page that answers one subject's calls runs nobody else's.
    - [SuiteRuns]: the model of both ends passes the suites and exercises that
      the real ones are held to, under several orders of turns.

    Of the drivers: [RelayProcess], that no two relays run at a time and none
    is left behind, and what a wait for health means; [Polling], that a wait
    ends with the right verdict; [Json], [Jwt], that a reader of signed tokens
    gets back every claim and a client's URL carries a token unescaped;
    [StallProxy], that the sniffer finds exactly the close frames of a relay's
    stream however it is cut into chunks, and that the proxy forwards what each
    side sent, in order, but for what it was told to discard.

    Some theorems state behaviour that is not what the code means to do:
    joining skips the scene request ([joining_skips_scene_request]), cursor
    sharing can freeze ([cursor_updates_freeze]), a change of credentials
    strands the engine ([credentials_change_strands]), [dispose] leaves a
    reconnecting client at work ([dispose_leaves_reconnect]), owner and
    least peer both answer a scene request ([scene_request_responders]),
    encrypted texts can be applied out of order ([encrypted_texts_may_swap]),
    a scene decrypted after a reset marks the reset engine
    ([late_scene_marks_reset_engine]), the engine's owner flags are not
    updated when the owner changes ([owner_flags_go_stale]), and the proxy
    reads the HTTP answer to a second connection as frames
    ([second_connection_misread]). Of the relay's races: two senders leave a
    gap in what a slow client gets ([senders_leave_a_gap]), a join that meets
    the last leave is in a room nobody else can find ([join_meets_last_leave]),
    joins at once exceed the limit and make two owners ([joins_exceed_limit],
    [owners_race]), a gauge drifts ([peer_gauge_drifts]), a refused owner
    leaves a room behind ([refused_owner_leaves_room]), an arrival overtakes the
    answer to a join ([overtaken_join_loses_peer]), and a half-close under a
    bridge ends the relay ([close_send_panics]). Of the drivers: a [stop] that
    meets a [restart] leaves a process ([stop_during_restart_leaks]).

    ** Bounds and fuel

    Integers that JavaScript keeps to 32 bits are [Z] with the wrap-around
    written out ([PeerColors]); the sniffer's counters are doubles, of which
    it uses exact integers and rounds an 8-byte length as JavaScript does.
    Four readers and loops take fuel. [EventEmitter.emit_from]: the set may grow while
    it is iterated, and a listener that resubscribes keeps an emission from
    ending, which [resubscribing_listener_never_ends] states; the engine's
    listeners only listen, so there the length of the set is enough
    ([EngineInvariants.emit_tells]). [StallProxy.sniff_frames]: every round of
    its loop but the last takes at least two bytes off the buffer, so the
    buffer's length is enough ([sniff_frames_fuel]). The reader of JSON texts:
    it reads a character or goes down to a first element at each step, so
    twice the length is enough ([Json.parse_print]). The reader of protobuf
    fields: each takes a byte at least ([Wire.read_fields_written]).

    Loops that serve a connection or a page for as long as it lives
    ([RelayStream.bridge_loop] and [forward], and those of [Network]) have a
    number of rounds: the safety theorems hold for every number, and the runs
    of [SuiteRuns] have more than they use, as every script gets to its end.
    The waits of [Polling] and [RelayProcess] look no more often than time
    allows, which [until_verdict] and [health_wait_verdict] rely on: they give
    up only when time is over, never for want of rounds.

    ** Assumptions, and what is not modelled

    - Parameters: the page's [window], [base64Encode], and when
      [GRPCWSClient.send] throws ([CollabClient.Platform]); the WHATWG URL
      parser; the Web Crypto primitives ([Crypto.SubtleCrypto]), with the law
      that decryption undoes encryption where a theorem needs it; random IVs;
      adapters; HMAC-SHA256 and the joining of paths ([Jwt.Node]); Go's order
      of map iteration, new identifiers and its choice among ready cases
      ([Relay.GoRuntime], [RelayStream.Selector]); the protocol's JSON, what
      authentication finds for a URL at a time, and how long a write may take
      ([Network.Transport]); the rate limiter's verdict on a message.
    - [enabled] states the platform's and the relay's behaviour: messages come
      over open sockets, [roomJoined] once per connection and before
      everything but errors, timers and promises fire only while pending.
      The relay breaks the second of these in the schedule of
      [overtaken_join_loses_peer], so the theorems over [enabled] runs are
      about its other schedules; [Network] delivers what the relay queues in
      whichever order that is. [orderly] runs also call [connect] only while
      connected, where it throws, or with nothing under way.
    - Awaited cryptography has its result when the call is made, and resumes
      at any later turn. Payloads that adapters hand over are fresh objects.
    - The relay's clock for timestamps of events stands still. The network's
      proxy is a valve: flowing, held or discarding. A script that throws goes
      no further, and a timed-out wait throws.
    - Not modelled: the relay's HTTP routes, middleware and telemetry, with the
      verification of tokens itself; its listing of rooms; [GRPCWSClient] and
      [fetch], whose outcomes are the environment's; the protobuf library
      behind the generated code ([fileDesc], [messageDesc], [create]);
      configuration of the test runner; console output. *)

From Stdlib Require Export ZArith NArith Lia Bool ZifyN ZifyNat ZifyBool.
From Stdlib Require Import Ascii String.
From stdpp Require Export base tactics list list_numbers gmap sorting pretty.
From stdpp Require Import strings.

#[export] Set Default Goal Selector "!".
#[export] Set Warnings "-clear-no-such-hyp".
#[global] Arguments Nat.modulo : simpl never.
#[global] Arguments Nat.div : simpl never.
#[global] Arguments N.modulo : simpl never.
#[global] Arguments N.div : simpl never.

(** ** JavaScript strings

    A string is its sequence of UTF-16 code units ([charCodeAt]); the units of
    a string a program can build are below 2^16 ([wf_str]). *)

Abbreviation jsstr := (list N) (only parsing).

Definition js (s : String.string) : jsstr :=
  List.map N_of_ascii (String.list_ascii_of_string s).

#[global] Arguments js : simpl never.

Definition wf_unit (u : N) : Prop := (u < 65536)%N.
Definition wf_str (s : jsstr) : Prop := Forall wf_unit s.

(** The truthiness of a string, and [a || b] on strings. *)
Definition truthy (s : jsstr) : bool := match s with [] => false | _ => true end.
Definition str_or (a b : jsstr) : jsstr := if truthy a then a else b.

(** [String(n)] for a non-negative integer. *)
Definition js_number (n : N) : jsstr := js (pretty n).

(** Truthiness of an optional string: [undefined] and the empty string are falsy. *)
Definition otruthy (o : option jsstr) : bool :=
  match o with Some s => truthy s | None => false end.

(** ** Errors and the state-and-exception monad

    A call either returns or throws; what it did to the state before it threw
    stays done, as in the source. *)

Inductive jserror :=
  | Error (message : jsstr)
  | URIError
  | InvalidCharacterError
  | TypeError
  | HostError (message : jsstr).

#[export] Instance jserror_eq_dec : EqDecision jserror.
Proof. solve_decision. Defined.

Inductive outcome (A : Type) :=
  | Ok (a : A)
  | Throw (e : jserror).
Arguments Ok {A} a.
Arguments Throw {A} e.

Definition M (S A : Type) : Type := S → outcome A * S.

#[export] Instance M_ret {S} : MRet (M S) := λ A a s, (Ok a, s).
#[export] Instance M_bind {S} : MBind (M S) := λ A B f m s,
  match m s with
  | (Ok a, s') => f a s'
  | (Throw e, s') => (Throw e, s')
  end.

Definition throw {S A} (e : jserror) : M S A := λ s, (Throw e, s).
Definition gets {S A} (f : S → A) : M S A := λ s, (Ok (f s), s).
Definition modify {S} (f : S → S) : M S unit := λ s, (Ok tt, f s).
(** [p.catch(() => {})] and [try { ... } catch {}]: the exception is dropped. *)
Definition swallow {S} (m : M S unit) : M S unit := λ s, (Ok tt, (m s).2).
Definition when {S} (b : bool) (m : M S unit) : M S unit :=
  if b then m else mret tt.

(** ** Functional record update

    [r <| f := v |>] is [r] with field [f] replaced. A record that is updated
    declares its [Eta] instance, which rebuilds a value from its projections;
    the setters are derived from it. *)

Class Eta (R : Type) := eta : R → R.
Class Setter {R T : Type} (proj : R → T) := over : (T → T) → R → R.
Arguments over {R T} proj {_} _ _ /.

Ltac derive_setter proj :=
  lazymatch goal with
  | |- @Setter ?R ?T _ =>
      let s := constr:(λ (g : T → T) (r : R),
        ltac:(let e := eval hnf in (eta r) in
              lazymatch eval pattern (proj r) in e with
              | ?k _ => let e := eval cbv beta in (k (g (proj r))) in exact e
              end)) in
      exact s
  end.
#[export] Hint Extern 1 (Setter ?proj) => derive_setter proj : typeclass_instances.

Declare Scope record_scope.
Notation "r <| f := v |>" := (over f (λ _, v) r)
  (at level 1, f at level 0, v at level 200, left associativity,
   format "r <| f  :=  v |>") : record_scope.
Open Scope record_scope.

(** ** Weakest preconditions

    [wp m Q s]: running [m] from [s] ends, by return or by exception, in an
    outcome and a state that satisfy [Q]. *)

Definition wp {S A} (m : M S A) (Q : outcome A → S → Prop) (s : S) : Prop :=
  Q (m s).1 (m s).2.

Section wp_rules.
Context {S : Type}.

Lemma wp_ret {A} (a : A) Q (s : S) : Q (Ok a) s → wp (mret a) Q s.
Proof. done. Qed.

Lemma wp_bind {A B} (m : M S A) (f : A → M S B) Q s :
  wp m (λ r s', match r with Ok a => wp (f a) Q s' | Throw e => Q (Throw e) s' end) s →
  wp (m ≫= f) Q s.
Proof. unfold wp, mbind, M_bind. by destruct (m s) as [[] ?]. Qed.

Lemma wp_throw {A} e (Q : outcome A → S → Prop) s : Q (Throw e) s → wp (throw e) Q s.
Proof. done. Qed.

Lemma wp_gets {A} (f : S → A) Q s : Q (Ok (f s)) s → wp (gets f) Q s.
Proof. done. Qed.

Lemma wp_modify (f : S → S) Q s : Q (Ok tt) (f s) → wp (modify f) Q s.
Proof. done. Qed.

Lemma wp_swallow (m : M S unit) Q s : wp m (λ _ s', Q (Ok tt) s') s → wp (swallow m) Q s.
Proof. done. Qed.

Lemma wp_when (b : bool) (m : M S unit) Q s :
  (b = true → wp m Q s) → (b = false → Q (Ok tt) s) → wp (when b m) Q s.
Proof. destruct b; intros H1 H2; [by apply H1 | by apply H2]. Qed.

Lemma wp_mono {A} (m : M S A) (Q Q' : outcome A → S → Prop) s :
  wp m Q s → (∀ r s', Q r s' → Q' r s') → wp m Q' s.
Proof. unfold wp. auto. Qed.

(** A sequence that returned went through both its parts. *)
Lemma bind_returns {A B} (m : M S A) (f : A → M S B) s b :
  ((m ≫= f) s).1 = Ok b → ∃ a, (m s).1 = Ok a ∧ (f a (m s).2).1 = Ok b ∧ (m ≫= f) s = f a (m s).2.
Proof. unfold mbind, M_bind. destruct (m s) as [[a|err] s']; [by exists a|done]. Qed.
End wp_rules.

(** ** Shared lemmas *)

Lemma truthy_spec (s : jsstr) : truthy s = true ↔ s ≠ [].
Proof. by destruct s. Qed.

Lemma str_or_truthy (a b : jsstr) : a ≠ [] → str_or a b = a.
Proof. by destruct a. Qed.

(** A boolean property of the numbers below [n], checked by computation. *)
Lemma forall_below (P : N → bool) (n : nat) :
  forallb (λ i, P (N.of_nat i)) (seq 0 n) = true →
  ∀ v, (v < N.of_nat n)%N → P v = true.
Proof.
  intros H v Hv. rewrite forallb_forall in H.
  specialize (H (N.to_nat v)). rewrite N2Nat.id in H. apply H, in_seq. lia.
Qed.

(** A function with distinct values on a list tells its elements apart. *)
Lemma inj_on_NoDup {A B} (f : A → B) (l : list A) x y :
  NoDup (f <$> l) → x ∈ l → y ∈ l → f x = f y → x = y.
Proof.
  intros Hn [i Hi]%list_elem_of_lookup [j Hj]%list_elem_of_lookup E.
  assert (i = j) as ->; [|congruence].
  eapply NoDup_lookup; [exact Hn|..]; rewrite list_lookup_fmap; [by rewrite Hi|by rewrite Hj, E].
Qed.

(** [for (const x of l) body(x)]. *)
Fixpoint for_each {S A : Type} (body : A → M S unit) (l : list A) : M S unit :=
  match l with
  | [] => mret tt
  | x :: l' => body x ;; for_each body l'
  end.

(** A value, or the exception. *)
Definition or_throw {S A : Type} (o : option A) (e : jserror) : M S A :=
  match o with Some a => mret a | None => throw e end.

(** ** Programs that keep an assertion

    [keeps I m]: running [m] from a state with [I] ends in one, however it
    ends. The rules follow the program's structure, without following its
    paths. *)

Definition keeps {S A} (I : S → Prop) (m : M S A) : Prop := ∀ s, I s → I (m s).2.

Section keeps_rules.
Context {S : Type} (I : S → Prop).

Lemma keeps_ret {A} (a : A) : keeps I (mret a).
Proof. by intros s. Qed.

Lemma keeps_throw {A} e : keeps I (throw e : M S A).
Proof. by intros s. Qed.

Lemma keeps_gets {A} (f : S → A) : keeps I (gets f).
Proof. by intros s. Qed.

Lemma keeps_modify (f : S → S) : (∀ s, I s → I (f s)) → keeps I (modify f).
Proof. done. Qed.

Lemma keeps_bind {A B} (m : M S A) (f : A → M S B) :
  keeps I m → (∀ a, keeps I (f a)) → keeps I (m ≫= f).
Proof.
  intros Hm Hf s Hs. specialize (Hm s Hs). unfold mbind, M_bind.
  destruct (m s) as [[a|e] s']; [by apply Hf|done].
Qed.

Lemma keeps_swallow (m : M S unit) : keeps I m → keeps I (swallow m).
Proof. done. Qed.

Lemma keeps_when b (m : M S unit) : keeps I m → keeps I (when b m).
Proof. intros Hm. destruct b; [done|by intros s]. Qed.

Lemma keeps_for_each {A} (body : A → M S unit) l :
  (∀ x, keeps I (body x)) → keeps I (for_each body l).
Proof.
  intros Hb. induction l as [|x l IH]; [by intros s|].
  apply keeps_bind; [apply Hb|intros []; apply IH].
Qed.

Lemma keeps_or_throw {A} (o : option A) e : keeps I (or_throw o e).
Proof. by destruct o; intros s. Qed.

Lemma keeps_wp {A} (m : M S A) : (∀ s, I s → wp m (λ _ s', I s') s) → keeps I m.
Proof. done. Qed.
End keeps_rules.

(** One step down the structure of a program; [eauto with keeps] supplies the
    lemmas of the operations it calls. *)
Ltac keeps_step :=
  lazymatch goal with
  | |- keeps _ (mbind _ _) => apply keeps_bind; [|intros ?]
  | |- keeps _ (mret _) => apply keeps_ret
  | |- keeps _ (throw _) => apply keeps_throw
  | |- keeps _ (gets _) => apply keeps_gets
  | |- keeps _ (swallow _) => apply keeps_swallow
  | |- keeps _ (when _ _) => apply keeps_when
  | |- keeps _ (for_each _ _) => apply keeps_for_each; intros ?
  | |- keeps _ (or_throw _ _) => apply keeps_or_throw
  | |- keeps _ (match ?x with _ => _ end) => destruct x
  | |- keeps _ _ => solve [eauto with keeps]
  end.

Create HintDb keeps.
