(* ===== verification/PeerColors.v ===== *)
(** * Peer colours ([ts/src/peerColors.ts])

    The palette, its cyclic lookup, and the 32-bit string hash that gives a
    client id the same colour in every viewer. *)

From S2P Require Import Prelude.
Open Scope Z_scope.

(** ** Definitions *)

(** [ToInt32], which [| 0] and the operands of [<<] go through. *)
Definition to_int32 (z : Z) : Z :=
  let m := z mod 2 ^ 32 in if m <? 2 ^ 31 then m else m - 2 ^ 32.

(** [x << n] on 32-bit integers. *)
Definition shl32 (x n : Z) : Z := to_int32 (Z.shiftl x n).

Record Color := mkColor { background : jsstr; stroke : jsstr }.

Definition PEER_COLORS : list Color :=
  [ mkColor (js "#ff6b6b") (js "#c92a2a");  (* red *)
    mkColor (js "#51cf66") (js "#2b8a3e");  (* green *)
    mkColor (js "#339af0") (js "#1864ab");  (* blue *)
    mkColor (js "#fcc419") (js "#e67700");  (* yellow *)
    mkColor (js "#cc5de8") (js "#862e9c");  (* purple *)
    mkColor (js "#ff922b") (js "#d9480f");  (* orange *)
    mkColor (js "#22b8cf") (js "#0b7285");  (* teal *)
    mkColor (js "#f06595") (js "#a61e4d") ].  (* pink *)

Definition n_colors : Z := Z.of_nat (length PEER_COLORS).

(** Indexing an array with an integer: [undefined] outside [0, length). *)
Definition js_index {A} (l : list A) (i : Z) : option A :=
  if i <? 0 then None else l !! Z.to_nat i.

(** [%] takes the sign of its left operand. *)
Definition getPeerColor (index : Z) : option Color :=
  js_index PEER_COLORS (Z.rem index n_colors).

Definition js_int (z : Z) : jsstr :=
  if z <? 0 then js "-" ++ js_number (Z.to_N (- z)) else js_number (Z.to_N z).

Definition getPeerLabel (index : Z) : jsstr := js "User " ++ js_int (index + 1).

(** One iteration of the hash loop, and the loop. *)
Definition hash_step (hash : Z) (c : N) : Z :=
  to_int32 (shl32 hash 5 - hash + Z.of_N c).

Definition hash_string (s : jsstr) : Z := foldl hash_step 0 s.

Definition hashClientIdToColorIndex (clientId : jsstr) : Z :=
  let hash := hash_string clientId in
  Z.rem (Z.rem hash n_colors + n_colors) n_colors.

(** ** Reference: the polynomial hash over the integers *)

Definition poly31 (s : jsstr) : Z := foldl (λ h c, 31 * h + Z.of_N c) 0 s.

(** The alternating sum of the code units, last unit positive. *)
Definition alternating (s : jsstr) : Z := foldl (λ h c, Z.of_N c - h) 0 s.

(** ** Proofs *)

Lemma to_int32_range z : - 2 ^ 31 <= to_int32 z < 2 ^ 31.
Proof.
  unfold to_int32. pose proof (Z.mod_pos_bound z (2 ^ 32) ltac:(lia)).
  destruct (Z.ltb_spec (z mod 2 ^ 32) (2 ^ 31)); lia.
Qed.

Lemma to_int32_cong z : ∃ k, to_int32 z = z + k * 2 ^ 32.
Proof.
  unfold to_int32. pose proof (Z.div_mod z (2 ^ 32) ltac:(lia)).
  destruct (Z.ltb_spec (z mod 2 ^ 32) (2 ^ 31)).
  - exists (- (z / 2 ^ 32)). lia.
  - exists (- (z / 2 ^ 32) - 1). lia.
Qed.

(** Two 32-bit integers congruent modulo 2^32 are equal. *)
Lemma int32_unique a b k :
  - 2 ^ 31 <= a < 2 ^ 31 → - 2 ^ 31 <= b < 2 ^ 31 → a = b + k * 2 ^ 32 → a = b.
Proof. intros. assert (k = 0) by lia. lia. Qed.

Lemma hash_step_cong h p c k :
  h = p + k * 2 ^ 32 → ∃ k', hash_step h c = 31 * p + Z.of_N c + k' * 2 ^ 32.
Proof.
  intros ->. unfold hash_step, shl32.
  destruct (to_int32_cong (Z.shiftl (p + k * 2 ^ 32) 5)) as [k1 ->].
  destruct (to_int32_cong (Z.shiftl (p + k * 2 ^ 32) 5 + k1 * 2 ^ 32 - (p + k * 2 ^ 32) + Z.of_N c))
    as [k2 ->].
  rewrite Z.shiftl_mul_pow2 by lia. exists (31 * k + k1 + k2). lia.
Qed.

Lemma hash_cong s : ∃ k, hash_string s = poly31 s + k * 2 ^ 32.
Proof.
  unfold hash_string, poly31.
  induction s as [|c s [k IH]] using rev_ind; [by exists 0|].
  rewrite !foldl_app. simpl. by apply hash_step_cong with k.
Qed.

Lemma hash_range s : - 2 ^ 31 <= hash_string s < 2 ^ 31.
Proof.
  unfold hash_string. induction s as [|c s _] using rev_ind; [simpl; lia|].
  rewrite foldl_app. simpl. apply to_int32_range.
Qed.

Lemma rem_twice x n : 0 < n → Z.rem (Z.rem x n + n) n = x mod n.
Proof.
  intros Hn. pose proof (Z.rem_bound_abs x n ltac:(lia)).
  pose proof (Z.quot_rem' x n). rewrite Z.rem_mod_nonneg by lia.
  replace (Z.rem x n + n) with (x + (1 - x ÷ n) * n) by lia.
  by rewrite Z.mod_add by lia.
Qed.

Lemma poly31_mod8 s : ∃ k, poly31 s = alternating s + 8 * k.
Proof.
  unfold poly31, alternating.
  induction s as [|c s [k IH]] using rev_ind; [by exists 0|].
  rewrite !foldl_app. simpl. rewrite IH.
  exists (4 * foldl (λ h c, Z.of_N c - h) 0 s + 31 * k). lia.
Qed.

(** ** Properties *)

(** The 32-bit loop computes the polynomial hash in base 31, wrapped to a
    signed 32-bit integer: no intermediate overflow changes the result. *)
Theorem hash_is_wrapped_polynomial (s : jsstr) :
  hash_string s = to_int32 (poly31 s).
Proof.
  destruct (hash_cong s) as [k1 Hk1], (to_int32_cong (poly31 s)) as [k2 Hk2].
  apply int32_unique with (k1 - k2); [apply hash_range|apply to_int32_range|lia].
Qed.

(** The colour index is always a valid palette index, and it is the
    alternating sum of the client id's code units modulo 8: sign handling and
    32-bit wrap-around never show. *)
Theorem color_index_spec (s : jsstr) :
  hashClientIdToColorIndex s = alternating s mod 8 ∧
  0 <= hashClientIdToColorIndex s < n_colors.
Proof.
  unfold hashClientIdToColorIndex. rewrite rem_twice by done.
  change n_colors with 8.
  destruct (hash_cong s) as [k ->], (poly31_mod8 s) as [k' ->].
  split; [|apply Z.mod_pos_bound; lia].
  replace (alternating s + 8 * k' + k * 2 ^ 32)
    with (alternating s + (k' + k * 2 ^ 29) * 8) by lia.
  by rewrite Z.mod_add by lia.
Qed.

(** [getPeerColor] cycles through the palette on indices from 0 and is
    [undefined] on a negative index that is no multiple of 8. *)
Theorem getPeerColor_spec (i : Z) :
  (0 <= i → getPeerColor i = PEER_COLORS !! Z.to_nat (i mod 8) ∧ is_Some (getPeerColor i)) ∧
  (i < 0 → i mod 8 ≠ 0 → getPeerColor i = None).
Proof.
  unfold getPeerColor, js_index. change n_colors with 8. split.
  - intros Hi. rewrite Z.rem_mod_nonneg by lia.
    pose proof (Z.mod_pos_bound i 8 ltac:(lia)).
    destruct (Z.ltb_spec (i mod 8) 0); [lia|]. split; [done|].
    apply lookup_lt_is_Some. simpl. lia.
  - intros Hi Hm. pose proof (Z.quot_rem' i 8). pose proof (Z.rem_nonpos i 8 ltac:(lia) ltac:(lia)).
    destruct (Z.ltb_spec (Z.rem i 8) 0); [done|].
    exfalso. apply Hm. replace i with ((i ÷ 8) * 8) by lia. apply Z.mod_mul. lia.
Qed.

Example hash_abc : hashClientIdToColorIndex (js "abc") = 2.
Proof. reflexivity. Qed.
