(* ===== verification/JsText.v ===== *)
(** * Text encodings of the JavaScript platform

    What the sources use of the platform's text functions: [TextEncoder] and
    [TextDecoder] (UTF-8), [btoa] and [atob] (base64), [encodeURIComponent]
    and the [application/x-www-form-urlencoded] parser and serializer behind
    [URLSearchParams]. Bytes are numbers below 256, strings are UTF-16. *)

From S2P Require Import Prelude.
Open Scope N_scope.

#[local] Ltac Zify.zify_post_hook ::= Z.to_euclidean_division_equations.

(** ** UTF-16 and Unicode scalar values *)

Definition is_high (u : N) : bool := (0xD800 <=? u) && (u <? 0xDC00).
Definition is_low (u : N) : bool := (0xDC00 <=? u) && (u <? 0xE000).

Definition scalar (c : N) : Prop := c < 0xD800 ∨ 0xE000 <= c < 0x110000.

Definition join_surrogates (u v : N) : N := 0x10000 + (u - 0xD800) * 0x400 + (v - 0xDC00).

(** Conversion to a USVString: a lone surrogate becomes U+FFFD. *)
Fixpoint to_scalars (s : jsstr) : list N :=
  match s with
  | [] => []
  | u :: s' =>
      if is_high u then
        match s' with
        | v :: s'' => if is_low v then join_surrogates u v :: to_scalars s''
                      else 0xFFFD :: to_scalars s'
        | [] => [0xFFFD]
        end
      else if is_low u then 0xFFFD :: to_scalars s' else u :: to_scalars s'
  end.

(** No lone surrogate: [String.prototype.isWellFormed]. *)
Fixpoint well_formed (s : jsstr) : bool :=
  match s with
  | [] => true
  | u :: s' =>
      if is_high u then
        match s' with v :: s'' => is_low v && well_formed s'' | [] => false end
      else negb (is_low u) && well_formed s'
  end.

Definition of_scalar (c : N) : jsstr :=
  if c <? 0x10000 then [c]
  else [0xD800 + (c - 0x10000) / 0x400; 0xDC00 + (c - 0x10000) mod 0x400].

Definition of_scalars (cs : list N) : jsstr := concat (of_scalar <$> cs).

(** ** UTF-8 *)

Definition utf8_encode1 (c : N) : list N :=
  if c <? 0x80 then [c]
  else if c <? 0x800 then [0xC0 + c / 0x40; 0x80 + c mod 0x40]
  else if c <? 0x10000 then
    [0xE0 + c / 0x1000; 0x80 + (c / 0x40) mod 0x40; 0x80 + c mod 0x40]
  else
    [0xF0 + c / 0x40000; 0x80 + (c / 0x1000) mod 0x40; 0x80 + (c / 0x40) mod 0x40;
     0x80 + c mod 0x40].

Definition utf8_encode (cs : list N) : list N := concat (utf8_encode1 <$> cs).

(** The streaming decoder: the code point so far, the continuation bytes still
    needed, and the range the next one must be in. *)
Record utf8_state := mkUtf8 { cp : N; needed : nat; lower : N; upper : N }.

(** A byte with no sequence open: emitted code points, and the sequence it opens. *)
Definition utf8_start (b : N) : list N * option utf8_state :=
  if b <=? 0x7F then ([b], None)
  else if (0xC2 <=? b) && (b <=? 0xDF) then
    ([], Some (mkUtf8 (b - 0xC0) 1 0x80 0xBF))
  else if (0xE0 <=? b) && (b <=? 0xEF) then
    ([], Some (mkUtf8 (b - 0xE0) 2 (if b =? 0xE0 then 0xA0 else 0x80)
                                  (if b =? 0xED then 0x9F else 0xBF)))
  else if (0xF0 <=? b) && (b <=? 0xF4) then
    ([], Some (mkUtf8 (b - 0xF0) 3 (if b =? 0xF0 then 0x90 else 0x80)
                                  (if b =? 0xF4 then 0x8F else 0xBF)))
  else ([0xFFFD], None).

Definition utf8_step (st : option utf8_state) (b : N) : list N * option utf8_state :=
  match st with
  | None => utf8_start b
  | Some (mkUtf8 c n lo hi) =>
      if (lo <=? b) && (b <=? hi) then
        let c' := c * 0x40 + (b - 0x80) in
        match n with
        | S (S n') => ([], Some (mkUtf8 c' (S n') 0x80 0xBF))
        | _ => ([c'], None)
        end
      else let '(out, st') := utf8_start b in (0xFFFD :: out, st')
  end.

Fixpoint utf8_decode_from (st : option utf8_state) (bs : list N) : list N :=
  match bs with
  | [] => match st with None => [] | Some _ => [0xFFFD] end
  | b :: bs' => let '(out, st') := utf8_step st b in out ++ utf8_decode_from st' bs'
  end.

Definition utf8_decode (bs : list N) : list N := utf8_decode_from None bs.

(** [new TextEncoder().encode(s)] and [new TextDecoder().decode(bytes)]: the
    decoder drops one leading byte order mark. *)
Definition text_encode (s : jsstr) : list N := utf8_encode (to_scalars s).

Definition drop_bom (cs : list N) : list N :=
  match cs with c :: cs' => if c =? 0xFEFF then cs' else cs | [] => [] end.

Definition text_decode (bs : list N) : jsstr := of_scalars (drop_bom (utf8_decode bs)).

(** ** Base64 *)

Definition b64_char (v : N) : N :=
  if v <? 26 then 65 + v
  else if v <? 52 then 97 + (v - 26)
  else if v <? 62 then 48 + (v - 52)
  else if v =? 62 then 43 else 47.

Definition b64_val (c : N) : option N :=
  if (65 <=? c) && (c <=? 90) then Some (c - 65)
  else if (97 <=? c) && (c <=? 122) then Some (c - 97 + 26)
  else if (48 <=? c) && (c <=? 57) then Some (c - 48 + 52)
  else if c =? 43 then Some 62
  else if c =? 47 then Some 63
  else None.

(** The 6-bit values of a byte string, in groups of four per three bytes. *)
Fixpoint b64_sextets (bs : list N) : list N :=
  match bs with
  | [] => []
  | [a] => [a / 4; a mod 4 * 16]
  | [a; b] => [a / 4; a mod 4 * 16 + b / 16; b mod 16 * 4]
  | a :: b :: c :: bs' =>
      a / 4 :: a mod 4 * 16 + b / 16 :: b mod 16 * 4 + c / 64 :: c mod 64 :: b64_sextets bs'
  end.

Definition b64_chars (bs : list N) : jsstr := b64_char <$> b64_sextets bs.

Definition equals_sign : N := 61.

Definition b64_padding (n : nat) : jsstr :=
  match (n mod 3)%nat with 0%nat => [] | 1%nat => [equals_sign; equals_sign] | _ => [equals_sign] end.

(** [btoa]: throws unless every code unit is a byte. *)
Definition btoa (s : jsstr) : option jsstr :=
  if forallb (λ u, u <? 256) s then Some (b64_chars s ++ b64_padding (length s)) else None.

Definition ascii_whitespace (c : N) : bool :=
  (c =? 9) || (c =? 10) || (c =? 12) || (c =? 13) || (c =? 32).

(** Remove one trailing [=], or two. *)
Definition strip_padding (s : jsstr) : jsstr :=
  match reverse s with
  | a :: b :: r => if a =? equals_sign then
                     if b =? equals_sign then reverse r else reverse (b :: r)
                   else s
  | [a] => if a =? equals_sign then [] else s
  | [] => []
  end.

(** Decode groups of four 6-bit values; the unused low bits of an incomplete
    group are discarded. *)
Fixpoint b64_bytes (vs : list N) : list N :=
  match vs with
  | a :: b :: c :: d :: vs' =>
      a * 4 + b / 16 :: b mod 16 * 16 + c / 4 :: c mod 4 * 64 + d :: b64_bytes vs'
  | [a; b; c] => [a * 4 + b / 16; b mod 16 * 16 + c / 4]
  | [a; b] => [a * 4 + b / 16]
  | _ => []
  end.

(** [atob], the forgiving decoder: [None] for InvalidCharacterError. *)
Definition atob (s : jsstr) : option jsstr :=
  let s1 := List.filter (λ c, negb (ascii_whitespace c)) s in
  let s2 := if (length s1 mod 4 =? 0)%nat then strip_padding s1 else s1 in
  if (length s2 mod 4 =? 1)%nat then None
  else b64_bytes <$> mapM b64_val s2.

(** ** Percent encoding *)

Definition hex_digit (v : N) : N := if v <? 10 then 48 + v else 65 + (v - 10).

Definition hex_val (c : N) : option N :=
  if (48 <=? c) && (c <=? 57) then Some (c - 48)
  else if (65 <=? c) && (c <=? 70) then Some (c - 65 + 10)
  else if (97 <=? c) && (c <=? 102) then Some (c - 97 + 10)
  else None.

Definition percent : N := 37.

Definition percent_byte (b : N) : jsstr := [percent; hex_digit (b / 16); hex_digit (b mod 16)].

Definition is_alnum (c : N) : bool :=
  ((48 <=? c) && (c <=? 57)) || ((65 <=? c) && (c <=? 90)) || ((97 <=? c) && (c <=? 122)).

(** The characters [encodeURIComponent] leaves alone: alphanumerics and
    [- _ . ! ~ * ' ( )]. *)
Definition uri_unreserved (c : N) : bool :=
  is_alnum c || bool_decide (c ∈ [45; 95; 46; 33; 126; 42; 39; 40; 41]).

Definition encode_byte (keep : N → bool) (b : N) : jsstr :=
  if keep b then [b] else percent_byte b.

Definition encode_bytes (keep : N → bool) (bs : list N) : jsstr := concat (encode_byte keep <$> bs).

(** [encodeURIComponent]: throws URIError on a lone surrogate. *)
Definition encodeURIComponent (s : jsstr) : option jsstr :=
  if well_formed s then Some (encode_bytes uri_unreserved (text_encode s)) else None.

(** The percent-decoding a server applies to a path segment or query value. *)
Fixpoint percent_decode (s : jsstr) : list N :=
  match s with
  | [] => []
  | c :: s' =>
      if c =? percent then
        match s' with
        | h :: l :: s'' =>
            match hex_val h, hex_val l with
            | Some h, Some l => h * 16 + l :: percent_decode s''
            | _, _ => c :: percent_decode s'
            end
        | _ => c :: percent_decode s'
        end
      else c :: percent_decode s'
  end.

(** ** [application/x-www-form-urlencoded] *)

Definition ampersand : N := 38.
Definition plus_sign : N := 43.
Definition space : N := 32.

Definition form_keep (c : N) : bool := is_alnum c || bool_decide (c ∈ [42; 45; 46; 95]).

Definition form_encode_byte (b : N) : jsstr :=
  if b =? space then [plus_sign] else encode_byte form_keep b.

Definition form_encode (s : jsstr) : jsstr := concat (form_encode_byte <$> text_encode s).

Definition form_pair (p : jsstr * jsstr) : jsstr :=
  form_encode p.1 ++ [equals_sign] ++ form_encode p.2.

(** [URLSearchParams.prototype.toString]. *)
Fixpoint form_serialize (ps : list (jsstr * jsstr)) : jsstr :=
  match ps with
  | [] => []
  | [p] => form_pair p
  | p :: ps' => form_pair p ++ [ampersand] ++ form_serialize ps'
  end.

(** Strict splitting on a separator: [split_on 38 "a&b"] is ["a"; "b"]. *)
Fixpoint split_on (d : N) (s : jsstr) : list jsstr :=
  match s with
  | [] => [[]]
  | c :: s' =>
      if c =? d then [] :: split_on d s'
      else match split_on d s' with w :: ws => (c :: w) :: ws | [] => [[c]] end
  end.

(** The text before the first separator, and after it. *)
Fixpoint cut_at (d : N) (s : jsstr) : jsstr * jsstr :=
  match s with
  | [] => ([], [])
  | c :: s' => if c =? d then ([], s') else let '(a, b) := cut_at d s' in (c :: a, b)
  end.

Definition plus_to_space (c : N) : N := if c =? plus_sign then space else c.

(** Decoding one name or value: UTF-8 without byte-order-mark handling. *)
Definition form_decode (bs : list N) : jsstr :=
  of_scalars (utf8_decode (percent_decode (plus_to_space <$> bs))).

Definition form_parse_pair (bs : list N) : jsstr * jsstr :=
  let '(n, v) := cut_at equals_sign bs in (form_decode n, form_decode v).

(** The parser runs on the UTF-8 bytes of its input; empty sequences are skipped. *)
Definition form_parse (s : jsstr) : list (jsstr * jsstr) :=
  form_parse_pair <$> List.filter truthy (split_on ampersand (text_encode s)).

(** ** Proof support *)

(** Case analysis on every boolean comparison of the goal, impossible cases
    closed by [lia]. *)
Ltac split_bools :=
  repeat (match goal with
  | |- context [?x =? ?y] => destruct (N.eqb_spec x y); try lia
  | |- context [?x <=? ?y] => destruct (N.leb_spec x y); try lia
  | |- context [?x <? ?y] => destruct (N.ltb_spec x y); try lia
  end; simpl).

(** ** UTF-16 round trip *)

Lemma of_scalar_small c : c < 0x10000 → of_scalar c = [c].
Proof. intros. unfold of_scalar. by split_bools. Qed.

Lemma of_scalar_join u v :
  is_high u = true → is_low v = true → of_scalar (join_surrogates u v) = [u; v].
Proof.
  unfold is_high, is_low, of_scalar, join_surrogates. intros Hu Hv.
  apply andb_prop in Hu as [Hu1%N.leb_le Hu2%N.ltb_lt].
  apply andb_prop in Hv as [Hv1%N.leb_le Hv2%N.ltb_lt].
  split_bools. repeat f_equal; lia.
Qed.

Lemma of_scalars_cons c cs : of_scalars (c :: cs) = of_scalar c ++ of_scalars cs.
Proof. done. Qed.

(** Induction on a string two units at a time. *)
Lemma str_pair_ind (P : jsstr → Prop) :
  P [] → (∀ u s, P s → (∀ v s', s = v :: s' → P s') → P (u :: s)) → ∀ s, P s.
Proof.
  intros Hnil Hcons s. enough (P s ∧ ∀ v s', s = v :: s' → P s') by tauto.
  induction s as [|u s [IH1 IH2]]; [by split|].
  split; [by apply Hcons|]. by intros v s' [= -> ->].
Qed.

Lemma scalars_roundtrip s :
  wf_str s → well_formed s = true →
  of_scalars (to_scalars s) = s ∧ Forall scalar (to_scalars s).
Proof.
  induction s as [|u s IH IH2] using str_pair_ind; [done|].
  intros Hwf Hs. apply Forall_cons in Hwf as [Hu Hwf]. unfold wf_unit in Hu. simpl in *.
  destruct (is_high u) eqn:Eu; [destruct s as [|v s]; [done|]|].
  - apply andb_prop in Hs as [Hv Hs]. rewrite Hv. apply Forall_cons in Hwf as [_ Hwf].
    destruct (IH2 v s eq_refl Hwf Hs) as [E F]. split.
    + by rewrite of_scalars_cons, of_scalar_join, E.
    + constructor; [|done]. unfold is_high, is_low, scalar, join_surrogates in *.
      apply andb_prop in Eu as [Eu%N.leb_le Eu2%N.ltb_lt].
      apply andb_prop in Hv as [Hv%N.leb_le Hv2%N.ltb_lt]. lia.
  - apply andb_prop in Hs as [Hl Hs]. apply negb_true_iff in Hl. rewrite Hl.
    destruct (IH Hwf Hs) as [E F]. split.
    + by rewrite of_scalars_cons, of_scalar_small, E.
    + constructor; [|done]. unfold scalar, is_high, is_low in *.
      revert Eu Hl. split_bools.
Qed.

(** ** UTF-8 round trip *)

Lemma utf8_decode1 c bs :
  scalar c → utf8_decode_from None (utf8_encode1 c ++ bs) = c :: utf8_decode_from None bs.
Proof.
  unfold scalar, utf8_encode1. intros Hc.
  destruct (N.ltb_spec c 0x80); [|destruct (N.ltb_spec c 0x800);
    [|destruct (N.ltb_spec c 0x10000)]]; simpl; unfold utf8_start.
  all: split_bools; f_equal; lia.
Qed.

Lemma utf8_encode_cons c cs : utf8_encode (c :: cs) = utf8_encode1 c ++ utf8_encode cs.
Proof. done. Qed.

Lemma utf8_roundtrip cs : Forall scalar cs → utf8_decode (utf8_encode cs) = cs.
Proof.
  unfold utf8_decode. induction 1 as [|c cs Hc _ IH]; [done|].
  by rewrite utf8_encode_cons, utf8_decode1, IH.
Qed.

Lemma utf8_bytes cs : Forall scalar cs → Forall (λ b, b < 256) (utf8_encode cs).
Proof.
  induction 1 as [|c cs Hc _ IH]; [constructor|].
  rewrite utf8_encode_cons. apply Forall_app. split; [|done]. unfold utf8_encode1, scalar in *.
  split_bools; repeat constructor; lia.
Qed.

(** ** Base64 round trip *)

Lemma b64_val_char v : v < 64 → b64_val (b64_char v) = Some v.
Proof.
  intros Hv. pose (P v := bool_decide (b64_val (b64_char v) = Some v)).
  assert (P v = true) as H by by apply (forall_below P 64).
  by apply bool_decide_eq_true_1 in H.
Qed.

(** Base64 characters are no [=], whitespace, [:], [-] or [_]. *)
Lemma b64_char_not v :
  v < 64 → b64_char v ≠ equals_sign ∧ ascii_whitespace (b64_char v) = false
           ∧ b64_char v ≠ 58 ∧ b64_char v ≠ 45 ∧ b64_char v ≠ 95.
Proof.
  intros Hv.
  pose (P v := negb (b64_char v =? equals_sign) && negb (ascii_whitespace (b64_char v))
     && negb (b64_char v =? 58) && negb (b64_char v =? 45) && negb (b64_char v =? 95)).
  assert (P v = true) as H by by apply (forall_below P 64).
  unfold P in H. rewrite !andb_true_iff, !negb_true_iff, !N.eqb_neq in H. tauto.
Qed.

(** Induction on a list three elements at a time. *)
Lemma list_triple_ind {A} (P : list A → Prop) :
  P [] → (∀ a, P [a]) → (∀ a b, P [a; b]) →
  (∀ a b c l, P l → P (a :: b :: c :: l)) → ∀ l, P l.
Proof.
  intros H0 H1 H2 H3 l.
  enough (P l ∧ (∀ a, P (a :: l)) ∧ ∀ a b, P (a :: b :: l)) by tauto.
  induction l as [|x l (IH0 & IH1 & IH2)]; [done|].
  repeat split; auto.
Qed.

Lemma b64_sextets_bytes bs :
  Forall (λ b, b < 256) bs →
  b64_bytes (b64_sextets bs) = bs ∧ Forall (λ v, v < 64) (b64_sextets bs).
Proof.
  induction bs as [|a|a b|a b c bs IH] using list_triple_ind; intros Hf;
    repeat (apply Forall_cons in Hf as [? Hf]).
  - done.
  - split; [simpl; f_equal; lia|]. repeat constructor; lia.
  - split; [simpl; repeat f_equal; lia|]. repeat constructor; lia.
  - destruct (IH Hf) as [E F]. split.
    + simpl. rewrite E. repeat f_equal; lia.
    + simpl. repeat (constructor; [lia|]). done.
Qed.

Lemma b64_sextets_length bs :
  (length (b64_sextets bs) mod 4 = match length bs mod 3 with 0 => 0 | 1 => 2 | _ => 3 end)%nat ∧
  ((length (b64_sextets bs) + length (b64_padding (length bs))) mod 4 = 0)%nat.
Proof.
  unfold b64_padding.
  induction bs as [|a|a b|a b c bs IH] using list_triple_ind; [done..|].
  change (length (a :: b :: c :: bs)) with (3 + length bs)%nat.
  replace ((3 + length bs) mod 3)%nat with (length bs mod 3)%nat by lia.
  change (length (b64_sextets (a :: b :: c :: bs)))
    with (4 + length (b64_sextets bs))%nat.
  destruct (length bs mod 3)%nat as [|[|]]; simpl in *; lia.
Qed.

Lemma strip_padding_app cs k :
  Forall (λ c, c ≠ equals_sign) cs → (k ≤ 2)%nat →
  strip_padding (cs ++ replicate k equals_sign) = cs.
Proof.
  intros Hcs Hk. unfold strip_padding.
  destruct k as [|[|[|]]]; [..|lia]; simpl; rewrite ?app_nil_r.
  - destruct (reverse cs) as [|a l] eqn:E.
    { by rewrite <- (reverse_involutive cs), E. }
    assert (a ≠ equals_sign).
    { rewrite Forall_forall in Hcs. apply Hcs. apply elem_of_reverse. rewrite E. by left. }
    assert ((a =? equals_sign) = false) as -> by by apply N.eqb_neq.
    destruct l; [|done]. by rewrite <- (reverse_involutive cs), E.
  - rewrite reverse_app. simpl. destruct (reverse cs) as [|a l] eqn:E.
    { by rewrite <- (reverse_involutive cs), E. }
    assert (a ≠ equals_sign).
    { rewrite Forall_forall in Hcs. apply Hcs. apply elem_of_reverse. rewrite E. by left. }
    assert ((a =? equals_sign) = false) as -> by by apply N.eqb_neq.
    by rewrite <- E, reverse_involutive.
  - replace (reverse (cs ++ [equals_sign; equals_sign]))
      with (equals_sign :: equals_sign :: reverse cs) by (by rewrite reverse_app).
    simpl. by rewrite reverse_involutive.
Qed.

Abbreviation sextets vs := (Forall (λ v, v < 64) vs).

Lemma b64_chars_no_equals vs : sextets vs → Forall (λ c, c ≠ equals_sign) (b64_char <$> vs).
Proof. intros Hvs. apply Forall_fmap. eapply Forall_impl; [done|]. intros v Hv. by apply b64_char_not. Qed.

Lemma b64_chars_filter vs k :
  sextets vs →
  List.filter (λ c, negb (ascii_whitespace c)) ((b64_char <$> vs) ++ replicate k equals_sign)
  = (b64_char <$> vs) ++ replicate k equals_sign.
Proof.
  intros Hvs. rewrite List.filter_app. f_equal.
  - induction Hvs as [|v vs' Hv _ IH]; [done|]. rewrite fmap_cons. cbn [List.filter].
    destruct (b64_char_not v Hv) as (_ & -> & _). cbn [negb]. by rewrite IH.
  - by induction k as [|k IH]; simpl; rewrite ?IH.
Qed.

Lemma b64_chars_vals vs : sextets vs → mapM b64_val (b64_char <$> vs) = Some vs.
Proof.
  induction 1 as [|v vs' Hv _ IH]; [done|]. rewrite fmap_cons. cbn [mapM].
  rewrite b64_val_char by done. simpl. by rewrite IH.
Qed.

(** [atob] on base64 characters, with the padding that completes the last
    group or with none. *)
Lemma atob_chars vs k :
  sextets vs →
  (length vs mod 4 ≠ 1)%nat → (k = 0 ∨ k ≤ 2 ∧ (length vs + k) mod 4 = 0)%nat →
  atob ((b64_char <$> vs) ++ replicate k equals_sign) = Some (b64_bytes vs).
Proof.
  intros Hvs Hlen Hk. unfold atob.
  rewrite b64_chars_filter, length_app, length_fmap, length_replicate by done.
  assert ((if ((length vs + k) mod 4 =? 0)%nat
           then strip_padding ((b64_char <$> vs) ++ replicate k equals_sign)
           else (b64_char <$> vs) ++ replicate k equals_sign) = b64_char <$> vs) as ->.
  { destruct (Nat.eqb_spec ((length vs + k) mod 4) 0).
    - apply strip_padding_app; [by apply b64_chars_no_equals|lia].
    - assert (k = 0%nat) as -> by lia. by rewrite app_nil_r. }
  rewrite length_fmap. destruct (Nat.eqb_spec (length vs mod 4) 1); [done|].
  by rewrite b64_chars_vals.
Qed.

Lemma b64_padding_replicate n : ∃ k, (k ≤ 2)%nat ∧ b64_padding n = replicate k equals_sign.
Proof. unfold b64_padding. destruct (n mod 3)%nat as [|[|]]; [exists 0%nat|exists 2%nat|exists 1%nat]; (split; [lia|done]). Qed.

Lemma btoa_bytes s : Forall (λ u, u < 256) s → btoa s = Some (b64_chars s ++ b64_padding (length s)).
Proof.
  intros Hs. unfold btoa. assert (forallb (λ u, u <? 256) s = true) as ->; [|done].
  apply forallb_forall. intros u Hu. rewrite Forall_forall in Hs.
  by apply N.ltb_lt, Hs, list_elem_of_In.
Qed.

Lemma btoa_Some s t : btoa s = Some t → Forall (λ u, u < 256) s.
Proof.
  unfold btoa. destruct (forallb _ s) eqn:E; [|done]. intros _.
  rewrite forallb_forall in E. apply Forall_forall. intros u Hu.
  by apply N.ltb_lt, E, list_elem_of_In.
Qed.

(** [atob] undoes base64 encoding, with the padding or without it. *)
Lemma atob_b64_chars s :
  Forall (λ u, u < 256) s → atob (b64_chars s) = Some s.
Proof.
  intros Hs. destruct (b64_sextets_bytes s Hs) as [E F].
  pose proof (atob_chars _ 0 F) as H. rewrite app_nil_r, E in H. apply H; [|by left].
  destruct (b64_sextets_length s) as [-> _]. by destruct (length s mod 3)%nat as [|[|]].
Qed.

Lemma atob_btoa s t : btoa s = Some t → atob t = Some s.
Proof.
  intros H. pose proof (btoa_Some _ _ H) as Hs. rewrite btoa_bytes in H by done. injection H as <-.
  destruct (b64_sextets_bytes s Hs) as [E F].
  destruct (b64_padding_replicate (length s)) as (k & Hk & Ek).
  destruct (b64_sextets_length s) as [L1 L2]. rewrite Ek, length_replicate in L2.
  rewrite <- E at 3. rewrite Ek. unfold b64_chars. apply atob_chars; [done| |].
  - rewrite L1. by destruct (length s mod 3)%nat as [|[|]].
  - right. split; [done|]. lia.
Qed.

(** ** Percent-encoding round trip *)

Lemma text_encode_bytes s :
  wf_str s → well_formed s = true → Forall (λ b, b < 256) (text_encode s).
Proof. intros Hw Hs. apply utf8_bytes. by apply scalars_roundtrip. Qed.

Lemma of_text_encode s :
  wf_str s → well_formed s = true → of_scalars (utf8_decode (text_encode s)) = s.
Proof.
  intros Hw Hs. destruct (scalars_roundtrip s Hw Hs) as [E F].
  unfold text_encode. by rewrite utf8_roundtrip.
Qed.

Lemma hex_digit_spec v :
  v < 16 → hex_val (hex_digit v) = Some v ∧ is_alnum (hex_digit v) = true.
Proof.
  intros Hv.
  pose (P v := bool_decide (hex_val (hex_digit v) = Some v) && is_alnum (hex_digit v)).
  assert (P v = true) as H by by apply (forall_below P 16).
  unfold P in H. by rewrite andb_true_iff, bool_decide_eq_true in H.
Qed.

Lemma percent_decode_byte b s :
  b < 256 → percent_decode (percent_byte b ++ s) = b :: percent_decode s.
Proof.
  intros Hb. simpl.
  destruct (hex_digit_spec (b / 16)) as [-> _]; [lia|].
  destruct (hex_digit_spec (b mod 16)) as [-> _]; [lia|].
  f_equal. lia.
Qed.

Lemma percent_decode_plain c s :
  c ≠ percent → percent_decode (c :: s) = c :: percent_decode s.
Proof. intros Hc. simpl. by destruct (N.eqb_spec c percent). Qed.

Lemma encode_bytes_cons keep b bs :
  encode_bytes keep (b :: bs) = encode_byte keep b ++ encode_bytes keep bs.
Proof. done. Qed.

Lemma percent_decode_encode keep bs :
  keep percent = false → Forall (λ b, b < 256) bs →
  percent_decode (encode_bytes keep bs) = bs.
Proof.
  intros Hk. induction 1 as [|b bs Hb _ IH]; [done|].
  rewrite encode_bytes_cons. unfold encode_byte. destruct (keep b) eqn:E.
  - cbn [app]. rewrite percent_decode_plain, IH; [done|]. intros ->. by rewrite Hk in E.
  - by rewrite percent_decode_byte, IH.
Qed.

Lemma encode_byte_chars (keep P : N → bool) b :
  (∀ c, keep c = true → P c = true) → (∀ c, is_alnum c = true → P c = true) →
  P percent = true → b < 256 → Forall (λ c, P c = true) (encode_byte keep b).
Proof.
  intros H1 H2 H3 Hb. unfold encode_byte, percent_byte. destruct (keep b) eqn:E.
  - auto.
  - constructor; [done|]. constructor; [|constructor; [|done]]; apply H2, hex_digit_spec; lia.
Qed.

(** The characters of a percent-encoded text: [%] and unreserved ones. *)
Definition uri_safe (c : N) : bool := uri_unreserved c || (c =? percent).

Lemma encodeURIComponent_Some s t :
  wf_str s → encodeURIComponent s = Some t →
  well_formed s = true ∧ percent_decode t = text_encode s
  ∧ Forall (λ c, uri_safe c = true) t.
Proof.
  unfold encodeURIComponent. intros Hw. destruct (well_formed s) eqn:Hs; [|done].
  intros [= <-]. pose proof (text_encode_bytes s Hw Hs) as Hb. split; [done|]. split.
  - by apply percent_decode_encode.
  - induction Hb as [|b bs Hb _ IH]; [constructor|].
    rewrite encode_bytes_cons. apply Forall_app. split; [|done].
    apply encode_byte_chars; try done; unfold uri_safe; [by intros c ->|].
    intros c Hc. unfold uri_unreserved. by rewrite Hc.
Qed.

(** ** Form encoding round trip *)

Definition form_safe (c : N) : bool := form_keep c || (c =? percent) || (c =? plus_sign).

Lemma form_safe_ascii c : form_safe c = true → c < 128 ∧ c ≠ ampersand ∧ c ≠ equals_sign.
Proof.
  unfold form_safe, form_keep, is_alnum, percent, plus_sign, ampersand, equals_sign.
  rewrite !orb_true_iff, !andb_true_iff, !N.leb_le, !N.eqb_eq, bool_decide_eq_true.
  rewrite !elem_of_cons, elem_of_nil. lia.
Qed.

Definition good_str (s : jsstr) : Prop := wf_str s ∧ well_formed s = true.

Lemma form_encode_chars s : good_str s → Forall (λ c, form_safe c = true) (form_encode s).
Proof.
  intros [Hw Hs]. unfold form_encode.
  induction (text_encode_bytes s Hw Hs) as [|b bs Hb _ IH]; [constructor|].
  rewrite fmap_cons. cbn [concat]. apply Forall_app. split; [|done].
  unfold form_encode_byte. destruct (b =? space); [repeat constructor|].
  apply encode_byte_chars; try done; unfold form_safe.
  - by intros c ->.
  - intros c Hc. unfold form_keep. by rewrite Hc.
Qed.

Lemma form_decode_byte b s :
  b < 256 →
  percent_decode (plus_to_space <$> form_encode_byte b ++ s)
  = b :: percent_decode (plus_to_space <$> s).
Proof.
  intros Hb. unfold form_encode_byte. destruct (N.eqb_spec b space) as [->|Hsp].
  - by rewrite fmap_app.
  - assert (∀ c, is_alnum c = true → plus_to_space c = c) as Hal.
    { intros c. unfold plus_to_space. by destruct (N.eqb_spec c plus_sign) as [->|]. }
    rewrite fmap_app. unfold encode_byte. destruct (form_keep b) eqn:E.
    + assert (plus_to_space b = b) as Hp.
      { unfold plus_to_space. by destruct (N.eqb_spec b plus_sign) as [->|]. }
      rewrite fmap_cons, Hp. cbn [fmap list_fmap app]. apply percent_decode_plain. by intros ->.
    + rewrite <- percent_decode_byte by done. f_equal. f_equal. unfold percent_byte.
      rewrite !fmap_cons, (Hal (hex_digit (b / 16))), (Hal (hex_digit (b mod 16)));
        [done|apply hex_digit_spec; lia..].
Qed.

Lemma form_decode_encode s : good_str s → form_decode (form_encode s) = s.
Proof.
  intros [Hw Hs]. unfold form_decode. rewrite <- (of_text_encode s Hw Hs) at 2. do 2 f_equal.
  unfold form_encode. induction (text_encode_bytes s Hw Hs) as [|b bs Hb _ IH]; [done|].
  rewrite fmap_cons. cbn [concat]. by rewrite form_decode_byte, IH.
Qed.

Lemma split_on_none d s : Forall (λ c, c ≠ d) s → split_on d s = [s].
Proof.
  induction 1 as [|c s Hc _ IH]; [done|]. simpl.
  destruct (N.eqb_spec c d); [done|]. by rewrite IH.
Qed.

Lemma split_on_app d a b :
  Forall (λ c, c ≠ d) a → split_on d (a ++ d :: b) = a :: split_on d b.
Proof.
  induction 1 as [|c s Hc _ IH]; simpl; [by rewrite N.eqb_refl|].
  destruct (N.eqb_spec c d); [done|]. by rewrite IH.
Qed.

Lemma cut_at_app d a b :
  Forall (λ c, c ≠ d) a → cut_at d (a ++ d :: b) = (a, b).
Proof.
  induction 1 as [|c s Hc _ IH]; simpl; [by rewrite N.eqb_refl|].
  destruct (N.eqb_spec c d); [done|]. by rewrite IH.
Qed.

Lemma text_encode_ascii s : Forall (λ c, c < 128) s → text_encode s = s.
Proof.
  unfold text_encode. induction 1 as [|c s Hc _ IH]; [done|].
  assert (to_scalars (c :: s) = c :: to_scalars s) as ->.
  { simpl. unfold is_high, is_low. split_bools. done. }
  rewrite utf8_encode_cons, IH. unfold utf8_encode1. by split_bools.
Qed.

Definition good_pair (p : jsstr * jsstr) : Prop := good_str p.1 ∧ good_str p.2.

Lemma form_pair_chars p :
  good_pair p → Forall (λ c, c < 128 ∧ c ≠ ampersand) (form_pair p).
Proof.
  intros [H1 H2]. unfold form_pair.
  assert (∀ s, good_str s → Forall (λ c, c < 128 ∧ c ≠ ampersand) (form_encode s)) as Hs.
  { intros s Hs. eapply Forall_impl; [by apply form_encode_chars|].
    intros c Hc. simpl. by destruct (form_safe_ascii c Hc) as (? & ? & _). }
  rewrite !Forall_app. repeat split; auto. by repeat constructor.
Qed.

Lemma form_serialize_ascii ps :
  Forall good_pair ps → Forall (λ c, c < 128) (form_serialize ps).
Proof.
  assert (∀ p, good_pair p → Forall (λ c, c < 128) (form_pair p)) as Hp.
  { intros p Hp. eapply Forall_impl; [by apply form_pair_chars|]. by intros c []. }
  induction 1 as [|p ps H _ IH]; [constructor|].
  destruct ps; [by apply Hp|]. apply Forall_app. split; [by apply Hp|]. by constructor.
Qed.

Lemma form_parse_pair_form p : good_pair p → form_parse_pair (form_pair p) = p.
Proof.
  intros [H1 H2]. unfold form_parse_pair, form_pair.
  assert (cut_at equals_sign (form_encode p.1 ++ [equals_sign] ++ form_encode p.2)
          = (form_encode p.1, form_encode p.2)) as ->.
  { apply cut_at_app. eapply Forall_impl; [by apply form_encode_chars|].
    intros c Hc. by apply form_safe_ascii. }
  rewrite !form_decode_encode by done. by destruct p.
Qed.

Lemma form_pair_truthy p : truthy (form_pair p) = true.
Proof. unfold form_pair. by destruct (form_encode p.1). Qed.

Lemma split_form_serialize ps :
  Forall good_pair ps →
  List.filter truthy (split_on ampersand (form_serialize ps)) = form_pair <$> ps.
Proof.
  induction 1 as [|p ps H Hps IH]; [done|].
  assert (Forall (λ c, c ≠ ampersand) (form_pair p)) as Hc.
  { eapply Forall_impl; [by apply form_pair_chars|]. by intros c []. }
  destruct ps as [|p' ps].
  - simpl. rewrite split_on_none by done. simpl. by rewrite form_pair_truthy.
  - change (form_serialize (p :: p' :: ps))
      with (form_pair p ++ ampersand :: form_serialize (p' :: ps)).
    rewrite split_on_app by done. cbn [List.filter]. rewrite form_pair_truthy.
    by rewrite IH.
Qed.

(** Parsing what [URLSearchParams] serialises gives the same pairs back. *)
Lemma form_parse_serialize ps :
  Forall good_pair ps → form_parse (form_serialize ps) = ps.
Proof.
  intros H. unfold form_parse.
  rewrite text_encode_ascii by by apply form_serialize_ascii.
  rewrite split_form_serialize by done. rewrite <- list_fmap_compose.
  induction H as [|p ps Hp _ IH]; [done|].
  rewrite fmap_cons, IH. f_equal. by apply form_parse_pair_form.
Qed.
