(* ===== verification/JsMap.v ===== *)
(** * [Map] and [Set] of the JavaScript standard library

    A [Map] is its entries in insertion order: setting a present key keeps
    its place, a new key goes last, and a deleted key leaves no trace. A [Set]
    is the list of its elements in insertion order. *)

From S2P Require Import Prelude.

(** ** Definitions *)

Section jsmap.
Context {K V : Type} `{EqDecision K}.

Fixpoint map_get (k : K) (m : list (K * V)) : option V :=
  match m with
  | [] => None
  | (k', v) :: m' => if decide (k' = k) then Some v else map_get k m'
  end.

Fixpoint map_set (k : K) (v : V) (m : list (K * V)) : list (K * V) :=
  match m with
  | [] => [(k, v)]
  | (k', v') :: m' => if decide (k' = k) then (k, v) :: m' else (k', v') :: map_set k v m'
  end.

Fixpoint map_delete (k : K) (m : list (K * V)) : list (K * V) :=
  match m with
  | [] => []
  | (k', v) :: m' => if decide (k' = k) then m' else (k', v) :: map_delete k m'
  end.

Definition map_keys (m : list (K * V)) : list K := m.*1.
Definition map_size (m : list (K * V)) : nat := length m.

(** No key has two entries. *)
Definition map_wf (m : list (K * V)) : Prop := NoDup (map_keys m).
End jsmap.

(** The type of maps, with the empty map as [new Map()]. *)
Abbreviation jsmap K V := (list (K * V)).

Section jsset.
Context {A : Type} `{EqDecision A}.

Definition set_add (x : A) (s : list A) : list A := if decide (x ∈ s) then s else s ++ [x].
Definition set_delete (x : A) (s : list A) : list A := filter (λ y, y ≠ x) s.
End jsset.

(** ** Laws *)

Section laws.
Context {K V : Type} `{EqDecision K}.
Implicit Types (m : list (K * V)) (k : K).

Lemma map_get_set k v m : map_get k (map_set k v m) = Some v.
Proof.
  induction m as [|[k' v'] m IH]; simpl; [by rewrite decide_True|].
  destruct (decide (k' = k)); simpl; [by rewrite decide_True|by rewrite decide_False].
Qed.

Lemma map_get_set_ne k k' v m : k ≠ k' → map_get k' (map_set k v m) = map_get k' m.
Proof.
  intros Hk. induction m as [|[k2 v2] m IH]; simpl; [by rewrite decide_False|].
  destruct (decide (k2 = k)) as [->|]; simpl; [by rewrite !decide_False|by rewrite IH].
Qed.

Lemma map_get_None k m : map_get k m = None ↔ k ∉ map_keys m.
Proof.
  induction m as [|[k' v'] m IH]; simpl; [set_solver|].
  case_decide; rewrite ?elem_of_cons; [naive_solver|]. rewrite IH. naive_solver.
Qed.

Lemma map_get_Some_key k v m : map_get k m = Some v → k ∈ map_keys m.
Proof. intros H. destruct (decide (k ∈ map_keys m)) as [|E]; [done|]. apply map_get_None in E. congruence. Qed.

Lemma map_get_delete_ne k k' m : k ≠ k' → map_get k' (map_delete k m) = map_get k' m.
Proof.
  intros Hk. induction m as [|[k2 v2] m IH]; simpl; [done|].
  destruct (decide (k2 = k)) as [->|]; simpl; [by rewrite decide_False|by rewrite IH].
Qed.

Lemma map_keys_set k v m :
  map_keys (map_set k v m) = if decide (k ∈ map_keys m) then map_keys m else map_keys m ++ [k].
Proof.
  induction m as [|[k' v'] m IH]; simpl; [done|].
  destruct (decide (k' = k)) as [->|]; simpl.
  - rewrite decide_True; [done|]. set_solver.
  - rewrite IH. repeat case_decide; try done; set_solver.
Qed.

Lemma elem_of_map_keys_set k k' v m : k' ∈ map_keys (map_set k v m) ↔ k' = k ∨ k' ∈ map_keys m.
Proof. rewrite map_keys_set. case_decide; set_solver. Qed.

Lemma map_keys_delete_sub k m : map_keys (map_delete k m) `sublist_of` map_keys m.
Proof.
  induction m as [|[k' v'] m IH]; simpl; [done|].
  case_decide; simpl; [by apply sublist_cons|by apply sublist_skip].
Qed.

Lemma map_set_wf k v m : map_wf m → map_wf (map_set k v m).
Proof.
  unfold map_wf. rewrite map_keys_set. case_decide; [done|]. intros H1.
  apply NoDup_app. split_and!; [done|set_solver|apply NoDup_singleton].
Qed.

Lemma map_delete_wf k m : map_wf m → map_wf (map_delete k m).
Proof. intros Hw. eapply sublist_NoDup; [done|apply map_keys_delete_sub]. Qed.

Lemma elem_of_map_keys_delete k k' m :
  map_wf m → k' ∈ map_keys (map_delete k m) ↔ k' ≠ k ∧ k' ∈ map_keys m.
Proof.
  unfold map_wf. induction m as [|[k2 v2] m IH]; simpl; [set_solver|].
  rewrite NoDup_cons. intros [Hn Hw]. case_decide; subst; simpl.
  - rewrite elem_of_cons. set_solver.
  - rewrite !elem_of_cons, IH by done. set_solver.
Qed.

Lemma map_get_delete k m : map_wf m → map_get k (map_delete k m) = None.
Proof. intros Hw. apply map_get_None. rewrite elem_of_map_keys_delete by done. naive_solver. Qed.

Lemma map_size_keys m : map_size m = length (map_keys m).
Proof. unfold map_size, map_keys. by rewrite length_fmap. Qed.

(** Updating the entries of a map while iterating over it, present keys
    only, is a map over the values. *)
Lemma map_get_each (f : K → V → V) k m : map_get k ((λ '(k, v), (k, f k v)) <$> m) = f k <$> map_get k m.
Proof. induction m as [|[k' v] m IH]; simpl; [done|]. by destruct (decide (k' = k)) as [->|]. Qed.

Lemma map_set_each (f : K → V → V) m :
  map_wf m →
  foldl (λ acc '(k, v), map_set k (f k v) acc) m m = (λ '(k, v), (k, f k v)) <$> m.
Proof.
  intros Hw. enough (∀ pre todo, map_wf (pre ++ todo) →
    foldl (λ acc '(k, v), map_set k (f k v) acc)
          (((λ '(k, v), (k, f k v)) <$> pre) ++ todo) todo
    = (λ '(k, v), (k, f k v)) <$> (pre ++ todo)) as H by by apply (H []).
  intros pre todo. revert pre. induction todo as [|[k v] todo IH]; intros pre Hwf.
  { simpl. by rewrite !app_nil_r. }
  simpl. assert (map_set k (f k v) (((λ '(k, v), (k, f k v)) <$> pre) ++ (k, v) :: todo)
    = ((λ '(k, v), (k, f k v)) <$> (pre ++ [(k, v)])) ++ todo) as ->.
  { rewrite fmap_app, <- app_assoc. cbn [app fmap list_fmap].
    unfold map_wf, map_keys in Hwf. rewrite fmap_app, fmap_cons in Hwf.
    apply NoDup_app in Hwf as (_ & Hd & _).
    induction pre as [|[k2 v2] pre IHp]; simpl; [by rewrite decide_True|].
    rewrite decide_False.
    - f_equal. apply IHp. intros x Hx. apply Hd. simpl. set_solver.
    - intros ->. apply (Hd k); simpl; set_solver. }
  rewrite IH by by rewrite <- app_assoc. by rewrite <- app_assoc.
Qed.
End laws.

Section set_laws.
Context {A : Type} `{EqDecision A}.
Implicit Types (s : list A) (x y : A).

Lemma elem_of_set_add x y s : y ∈ set_add x s ↔ y = x ∨ y ∈ s.
Proof. unfold set_add. case_decide; set_solver. Qed.

Lemma elem_of_set_delete x y s : y ∈ set_delete x s ↔ y ≠ x ∧ y ∈ s.
Proof. unfold set_delete. by rewrite list_elem_of_filter. Qed.

Lemma set_add_NoDup x s : NoDup s → NoDup (set_add x s).
Proof.
  unfold set_add. case_decide; [done|]. intros. apply NoDup_app.
  split_and!; [done|set_solver|apply NoDup_singleton].
Qed.

Lemma set_delete_NoDup x s : NoDup s → NoDup (set_delete x s).
Proof. apply NoDup_filter. Qed.
End set_laws.

Create HintDb jsmap.
Create Rewrite HintDb jsmap.
#[export] Hint Resolve map_set_wf map_delete_wf set_add_NoDup set_delete_NoDup : jsmap.
#[export] Hint Rewrite @map_get_set @map_get_set_ne @elem_of_map_keys_set @elem_of_set_add
  @elem_of_set_delete using done : jsmap.
