(* ===== verification/UrlParams.v ===== *)
(** * Relay URLs and join codes ([ts/src/url-params.ts])

    The [?connect=] query parameter, the resolution of a relative relay URL
    against the page, and join codes. URL parsing itself ([new URL]) belongs
    to the platform: [buildConnectUrl] works on the parsed page URL. *)

From S2P Require Import Prelude JsText.
Open Scope N_scope.

(** ** Definitions *)

(** The page the client runs in: [window.location], when there is one. *)
Record Location := mkLocation { protocol : jsstr; loc_host : jsstr }.

(** A URL's parts: everything before its query, the query's pairs and the
    fragment, [#] included. *)
Record Url := mkUrl { url_base : jsstr; searchParams : list (jsstr * jsstr); url_hash : jsstr }.

Definition question_mark : N := 63.
Definition colon : N := 58.

(** [URLSearchParams.get]: the first value under the name. *)
Fixpoint params_get (name : jsstr) (ps : list (jsstr * jsstr)) : option jsstr :=
  match ps with
  | [] => None
  | (n, v) :: ps' => if bool_decide (n = name) then Some v else params_get name ps'
  end.

Definition params_without (name : jsstr) (ps : list (jsstr * jsstr)) : list (jsstr * jsstr) :=
  List.filter (λ p, negb (bool_decide (p.1 = name))) ps.

(** [URLSearchParams.set]: the first pair under the name gets the value and
    the others go; with none, the pair is appended. *)
Fixpoint params_set (name value : jsstr) (ps : list (jsstr * jsstr)) : list (jsstr * jsstr) :=
  match ps with
  | [] => [(name, value)]
  | (n, v) :: ps' =>
      if bool_decide (n = name) then (name, value) :: params_without name ps'
      else (n, v) :: params_set name value ps'
  end.

(** [new URLSearchParams(search)]: one leading [?] is dropped. *)
Definition search_params (search : jsstr) : list (jsstr * jsstr) :=
  form_parse (match search with c :: s => if c =? question_mark then s else search | [] => [] end).

Definition parseConnectParam (search : option jsstr) : option jsstr :=
  match search with
  | None => None
  | Some s =>
      if truthy s then
        match params_get (js "connect") (search_params s) with
        | Some v => if truthy v then Some v else None
        | None => None
        end
      else None
  end.

Definition to_lower (c : N) : N := if (65 <=? c) && (c <=? 90) then c + 32 else c.

Definition starts_with_i (prefix s : jsstr) : bool :=
  bool_decide (to_lower <$> take (length prefix) s = prefix).

(** [/^wss?:\/\//i.test(s)]. *)
Definition is_ws_url (s : jsstr) : bool :=
  starts_with_i (js "ws://") s || starts_with_i (js "wss://") s.

Definition resolveRelayUrl (window : option Location) (relayUrl : jsstr) : jsstr :=
  if is_ws_url relayUrl then relayUrl
  else match window with
       | Some loc =>
           let proto := if bool_decide (protocol loc = js "https:") then js "wss:" else js "ws:" in
           proto ++ js "//" ++ loc_host loc ++ relayUrl
       | None => relayUrl
       end.

(** The [search] and [toString] of a URL whose query was set. *)
Definition url_search (u : Url) : jsstr := question_mark :: form_serialize (searchParams u).
Definition url_toString (u : Url) : jsstr := url_base u ++ url_search u ++ url_hash u.

Definition set_connect (u : Url) (relayUrl : jsstr) : Url :=
  mkUrl (url_base u) (params_set (js "connect") relayUrl (searchParams u)) (url_hash u).

Section parser.
Context (parse_url : jsstr → option Url).

Definition buildConnectUrl (pageUrl relayUrl : jsstr) : option jsstr :=
  match parse_url pageUrl with
  | None => None  (* new URL throws TypeError *)
  | Some url => Some (url_toString (set_connect url relayUrl))
  end.
End parser.

(** [s.replace(/c/g, d)] for single characters, and [s.replace(/=+$/, '')]. *)
Definition replace_char (c d : N) (s : jsstr) : jsstr := (λ x, if x =? c then d else x) <$> s.

Fixpoint drop_while (c : N) (s : jsstr) : jsstr :=
  match s with x :: s' => if x =? c then drop_while c s' else s | [] => [] end.

Definition strip_trailing (c : N) (s : jsstr) : jsstr := reverse (drop_while c (reverse s)).

(** [None] is the InvalidCharacterError of [btoa]. *)
Definition encodeJoinCode (relayUrl sessionId : jsstr) : option jsstr :=
  match btoa relayUrl with
  | None => None
  | Some b =>
      let encoded := strip_trailing equals_sign (replace_char 47 95 (replace_char 43 45 b)) in
      Some (encoded ++ [colon] ++ sessionId)
  end.

Fixpoint index_of (c : N) (s : jsstr) : option nat :=
  match s with
  | [] => None
  | x :: s' => if x =? c then Some 0%nat else S <$> index_of c s'
  end.

Record JoinCode := mkJoinCode { jc_relayUrl : jsstr; jc_sessionId : jsstr }.

Definition decodeJoinCode (code : jsstr) : option JoinCode :=
  match index_of colon code with
  | None => None
  | Some colonIdx =>
      let b64 := take colonIdx code in
      let sessionId := drop (colonIdx + 1) code in
      if truthy sessionId then
        let padded := replace_char 95 47 (replace_char 45 43 b64) in
        match atob padded with
        | Some relayUrl => Some (mkJoinCode relayUrl sessionId)
        | None => None
        end
      else None
  end.

(** ** Lemmas *)

Lemma params_get_set name value ps : params_get name (params_set name value ps) = Some value.
Proof.
  induction ps as [|[n v] ps IH]; simpl; [by rewrite bool_decide_true|].
  case_bool_decide as E; simpl; [by rewrite bool_decide_true|].
  by rewrite bool_decide_false.
Qed.

Lemma params_get_set_ne name name' value ps :
  name ≠ name' → params_get name' (params_set name value ps) = params_get name' ps.
Proof.
  intros Hne. induction ps as [|[n v] ps IH]; simpl; [by rewrite bool_decide_false|].
  case_bool_decide as E; simpl; [|by rewrite IH]. subst n.
  rewrite !(bool_decide_false (name = name')) by done. clear IH.
  induction ps as [|[n v'] ps IH]; [done|]. simpl.
  destruct (decide (n = name)) as [->|Hn].
  - rewrite (bool_decide_true (name = name)), (bool_decide_false (name = name')) by done. done.
  - rewrite (bool_decide_false (n = name)) by done. simpl. by rewrite IH.
Qed.

Lemma params_set_good name value ps :
  good_str name → good_str value → Forall good_pair ps →
  Forall good_pair (params_set name value ps).
Proof.
  intros Hn Hv. induction 1 as [|[n v] ps Hp Hps IH].
  { apply Forall_singleton. by split. }
  simpl. case_bool_decide; [|by constructor]. constructor; [by split|].
  apply Forall_forall. intros p Hin. rewrite Forall_forall in Hps. apply Hps.
  apply list_elem_of_In in Hin. apply filter_In in Hin as [Hin _]. by apply list_elem_of_In.
Qed.

Lemma index_of_app c a b : Forall (λ x, x ≠ c) a → index_of c (a ++ c :: b) = Some (length a).
Proof.
  induction 1 as [|x a Hx _ IH]; simpl; [by rewrite N.eqb_refl|].
  destruct (N.eqb_spec x c); [done|]. by rewrite IH.
Qed.

Lemma drop_while_replicate c k s :
  Forall (λ x, x ≠ c) s → drop_while c (replicate k c ++ s) = s.
Proof.
  intros Hs. induction k as [|k IH]; simpl.
  - destruct Hs as [|x s Hx]; [done|]. simpl. by destruct (N.eqb_spec x c).
  - by rewrite N.eqb_refl.
Qed.

Lemma strip_trailing_replicate c k s :
  Forall (λ x, x ≠ c) s → strip_trailing c (s ++ replicate k c) = s.
Proof.
  intros Hs. unfold strip_trailing. rewrite reverse_app, reverse_replicate.
  rewrite drop_while_replicate, reverse_involutive; [done|]. by apply Forall_reverse.
Qed.

Lemma replace_char_app c d a b : replace_char c d (a ++ b) = replace_char c d a ++ replace_char c d b.
Proof. apply fmap_app. Qed.

Lemma replace_char_ne c d s : Forall (λ x, x ≠ c) s → replace_char c d s = s.
Proof.
  induction 1 as [|x s Hx _ IH]; [done|]. unfold replace_char in *.
  rewrite fmap_cons, IH. by destruct (N.eqb_spec x c).
Qed.

Lemma replace_char_Forall (P : N → Prop) c d s :
  P d → Forall P s → Forall P (replace_char c d s).
Proof.
  intros Hd. induction 1 as [|x s Hx _ IH]; [constructor|].
  unfold replace_char in *. rewrite fmap_cons. constructor; [|done]. by destruct (x =? c).
Qed.

(** The base64 characters of bytes: no [=], [:], [-] or [_]. *)
Lemma b64_chars_safe s :
  Forall (λ u, u < 256) s →
  Forall (λ c, c ≠ equals_sign ∧ c ≠ colon ∧ c ≠ 45 ∧ c ≠ 95) (b64_chars s).
Proof.
  intros Hs. destruct (b64_sextets_bytes s Hs) as [_ F]. apply Forall_fmap.
  eapply Forall_impl; [done|]. intros v Hv.
  destruct (b64_char_not v Hv) as (? & ? & ? & ? & ?). done.
Qed.

Definition url_safe (s : jsstr) : jsstr := replace_char 47 95 (replace_char 43 45 s).

Lemma url_safe_inverse s :
  Forall (λ c, c ≠ 45 ∧ c ≠ 95) s →
  replace_char 95 47 (replace_char 45 43 (url_safe s)) = s.
Proof.
  unfold url_safe, replace_char. induction 1 as [|c s [H1 H2] _ IH]; [done|].
  rewrite !fmap_cons, IH. f_equal.
  destruct (N.eqb_spec c 43) as [->|]; [done|].
  destruct (N.eqb_spec c 47) as [->|]; [done|].
  by destruct (N.eqb_spec c 45), (N.eqb_spec c 95).
Qed.

(** [encodeJoinCode] computed: URL-safe base64 without its padding. *)
Lemma encodeJoinCode_latin1 relayUrl sessionId :
  Forall (λ u, u < 256) relayUrl →
  encodeJoinCode relayUrl sessionId = Some (url_safe (b64_chars relayUrl) ++ colon :: sessionId).
Proof.
  intros Hs. unfold encodeJoinCode. rewrite btoa_bytes by done. do 2 f_equal.
  destruct (b64_padding_replicate (length relayUrl)) as (k & _ & ->).
  rewrite !replace_char_app.
  assert (∀ c d, c ≠ equals_sign → replace_char c d (replicate k equals_sign) = replicate k equals_sign) as Hr.
  { intros c d Hc. apply replace_char_ne. apply Forall_replicate. done. }
  rewrite !Hr by done. rewrite strip_trailing_replicate; [done|].
  do 2 (apply replace_char_Forall; [done|]).
  eapply Forall_impl; [by apply b64_chars_safe|]. by intros c [].
Qed.

Lemma good_js (s : String.string) : well_formed (js s) = true → forallb (λ u, u <? 65536) (js s) = true → good_str (js s).
Proof.
  intros H1 H2. split; [|done]. apply Forall_forall. intros u Hu.
  rewrite forallb_forall in H2. apply N.ltb_lt, H2. by apply list_elem_of_In.
Qed.

Lemma starts_with_i_app p s t :
  starts_with_i p s = true → starts_with_i p (s ++ t) = true.
Proof.
  unfold starts_with_i. rewrite !bool_decide_eq_true. intros H.
  assert (length p ≤ length s)%nat.
  { apply (f_equal length) in H. rewrite length_fmap, length_take in H. lia. }
  by rewrite take_app_le.
Qed.

(** ** Properties *)

(** A join code made from a Latin-1 relay URL and a non-empty session id
    decodes to the same URL and session id, whatever characters they hold
    ([:] in either one, [/], [+] or [=] in the base64 text). *)
Theorem decode_encode_join_code (relayUrl sessionId : jsstr) :
  Forall (λ u, u < 256) relayUrl → sessionId ≠ [] →
  ∃ code, encodeJoinCode relayUrl sessionId = Some code ∧
          decodeJoinCode code = Some (mkJoinCode relayUrl sessionId).
Proof.
  intros Hs Hid. eexists. split; [by apply encodeJoinCode_latin1|].
  pose proof (b64_chars_safe relayUrl Hs) as Hc.
  assert (∀ P : N → Prop, (∀ c, c ≠ equals_sign ∧ c ≠ colon ∧ c ≠ 45 ∧ c ≠ 95 → P c) →
    Forall P (b64_chars relayUrl)) as Hp by (intros P HP; by eapply Forall_impl).
  assert (Forall (λ c, c ≠ colon) (url_safe (b64_chars relayUrl))) as Hcol.
  { do 2 (apply replace_char_Forall; [done|]). apply Hp. tauto. }
  unfold decodeJoinCode. rewrite index_of_app by done.
  rewrite take_app_length, drop_app_ge by lia.
  replace (length (url_safe (b64_chars relayUrl)) + 1 - length (url_safe (b64_chars relayUrl)))%nat
    with 1%nat by lia.
  change (drop 1 (colon :: sessionId)) with sessionId.
  apply truthy_spec in Hid. rewrite Hid, url_safe_inverse by (apply Hp; tauto).
  by rewrite atob_b64_chars.
Qed.

(** A relay URL with a character above U+00FF has no join code: [btoa] throws. *)
Theorem encode_join_code_error (relayUrl sessionId : jsstr) :
  encodeJoinCode relayUrl sessionId = None ↔ ¬ Forall (λ u, u < 256) relayUrl.
Proof.
  destruct (decide (Forall (λ u, u < 256) relayUrl)) as [H|H].
  - by rewrite encodeJoinCode_latin1.
  - split; [done|]. intros _. unfold encodeJoinCode.
    destruct (btoa relayUrl) eqn:E; [|done]. by apply btoa_Some in E.
Qed.

(** The [?connect=] parameter of a URL [buildConnectUrl] made is read back by
    [parseConnectParam], with the page's own parameters untouched. *)
Theorem parse_build_connect_url (parse_url : jsstr → option Url) (page relay : jsstr) (u : Url) :
  parse_url page = Some u →
  Forall good_pair (searchParams u) → good_str relay → relay ≠ [] →
  buildConnectUrl parse_url page relay =
    Some (url_base u ++ url_search (set_connect u relay) ++ url_hash u) ∧
  parseConnectParam (Some (url_search (set_connect u relay))) = Some relay ∧
  ∀ name, name ≠ js "connect" →
    params_get name (search_params (url_search (set_connect u relay)))
    = params_get name (searchParams u).
Proof.
  intros Hu Hg Hr Hne. unfold buildConnectUrl. rewrite Hu. split; [done|].
  assert (search_params (url_search (set_connect u relay))
          = params_set (js "connect") relay (searchParams u)) as E.
  { unfold search_params, url_search. rewrite N.eqb_refl.
    apply form_parse_serialize. apply params_set_good; [by apply good_js|done..]. }
  rewrite E. split.
  - unfold parseConnectParam. cbn [truthy url_search]. fold (url_search (set_connect u relay)).
    rewrite E, params_get_set. apply truthy_spec in Hne. by rewrite Hne.
  - intros name Hn. by apply params_get_set_ne.
Qed.

(** On a page, the resolved relay URL is a WebSocket URL, secure exactly when
    the page is, and resolving again changes nothing. *)
Theorem resolveRelayUrl_spec (loc : Location) (relayUrl : jsstr) :
  let r := resolveRelayUrl (Some loc) relayUrl in
  is_ws_url r = true ∧ resolveRelayUrl (Some loc) r = r ∧
  (is_ws_url relayUrl = true → r = relayUrl) ∧
  (is_ws_url relayUrl = false →
   r = (if bool_decide (protocol loc = js "https:") then js "wss://" else js "ws://")
       ++ loc_host loc ++ relayUrl).
Proof.
  intros r. assert (is_ws_url r = true) as Hr.
  { unfold r, resolveRelayUrl. destruct (is_ws_url relayUrl) eqn:E; [done|].
    unfold is_ws_url. case_bool_decide.
    - apply orb_true_iff. right. by apply (starts_with_i_app _ (js "wss://")).
    - apply orb_true_iff. left. by apply (starts_with_i_app _ (js "ws://")). }
  repeat split; [done| | |].
  - unfold resolveRelayUrl at 1. by rewrite Hr.
  - unfold r, resolveRelayUrl. by intros ->.
  - unfold r, resolveRelayUrl. intros ->. by case_bool_decide.
Qed.

(** ** Witnesses *)

Lemma decode_encode_join_code_witness :
  ∃ code, encodeJoinCode (js "ws://relay.test:8787/a?b") (js "design:abc") = Some code ∧
          decodeJoinCode code = Some (mkJoinCode (js "ws://relay.test:8787/a?b") (js "design:abc")).
Proof.
  apply decode_encode_join_code; [|done].
  apply Forall_forall. intros u Hu. apply N.ltb_lt.
  apply (proj1 (forallb_forall (λ u, u <? 256) (js "ws://relay.test:8787/a?b"))); [done|].
  by apply list_elem_of_In.
Defined.

Lemma parse_build_connect_url_witness :
  let u := mkUrl (js "https://app.test/draw") [(js "tool", js "a b&c")] (js "#x") in
  let relay := js "wss://relay.test/?x=1&y" in
  parseConnectParam (Some (url_search (set_connect u relay))) = Some relay.
Proof.
  intros u relay.
  apply (parse_build_connect_url (λ _, Some u) (js "page") relay u); try done.
  - repeat constructor; by apply good_js.
  - by apply good_js.
Defined.
