(* ===== verification/Crypto.v ===== *)
(** * Payload encryption ([ts/src/crypto.ts])

    Key derivation, AES-GCM payloads in their wire format
    base64(IV || ciphertext || tag), and random passwords. The Web Crypto
    primitives are parameters ([SubtleCrypto]); their laws are hypotheses of
    the theorems that need them. *)

From S2P Require Import Prelude JsText.
Open Scope N_scope.

(** ** The platform's primitives *)

Record Pbkdf2Params := mkPbkdf2 { salt : list N; iterations : N; hash : jsstr }.
Record AesKeyParams := mkAesKey { aes_name : jsstr; aes_length : N }.

Class SubtleCrypto := {
  CryptoKey : Type;
  KeyMaterial : Type;
  (** [importKey('raw', bytes, 'PBKDF2', false, ['deriveKey'])]. *)
  importKey : list N → KeyMaterial;
  subtle_deriveKey : Pbkdf2Params → KeyMaterial → AesKeyParams → CryptoKey;
  (** [encrypt] and [decrypt] with AES-GCM under an IV; decryption rejects
      ([None]) when the tag does not authenticate. *)
  aes_encrypt : CryptoKey → list N → list N → list N;
  aes_decrypt : CryptoKey → list N → list N → option (list N);
}.

Definition is_bytes (bs : list N) : Prop := Forall (λ b, b < 256) bs.

(** What the sources rely on: decryption undoes encryption under the same key
    and IV, and ciphertexts are byte strings. *)
Class AesGcmLaws (C : SubtleCrypto) : Prop := {
  aes_decrypt_encrypt k iv p : is_bytes p → aes_decrypt k iv (aes_encrypt k iv p) = Some p;
  aes_encrypt_bytes k iv p : is_bytes (aes_encrypt k iv p);
}.

(** ** Definitions *)

Definition PBKDF2_ITERATIONS : N := 100000.
Definition IV_LENGTH : nat := 12.
Definition BASE62_CHARS : jsstr := js "0123456789ABCDEFGHIJKLMNOPQRSTUVWXYZabcdefghijklmnopqrstuvwxyz".

(** [array.set(data, offset)] on a Uint8Array with room for the data. *)
Definition u8_set (arr data : list N) (offset : nat) : list N :=
  take offset arr ++ data ++ drop (offset + length data) arr.

(** The loops that turn bytes into a binary string, and [btoa]. *)
Definition uint8ToBase64 (bytes : list N) : option jsstr :=
  btoa (foldl (λ binary b, binary ++ [b]) [] bytes).

Definition base64ToUint8 (base64 : jsstr) : option (list N) :=
  match atob base64 with
  | None => None
  | Some binary =>
      (* bytes[i] = binary.charCodeAt(i), for each i *)
      Some (foldl (λ bytes i, <[ i := default 0 (binary !! i) ]> bytes)
                  (replicate (length binary) 0) (seq 0 (length binary)))
  end.

Section crypto.
Context `{C : SubtleCrypto}.

Definition deriveKey (password salt : jsstr) : CryptoKey :=
  let keyMaterial := importKey (text_encode password) in
  subtle_deriveKey (mkPbkdf2 (text_encode salt) PBKDF2_ITERATIONS (js "SHA-256"))
                   keyMaterial (mkAesKey (js "AES-GCM") 256).

(** [iv] is what [crypto.getRandomValues] put in the 12-byte IV. *)
Definition encryptPayload (key : CryptoKey) (iv : list N) (plaintext : jsstr) : option jsstr :=
  let encoded := text_encode plaintext in
  let ciphertext := aes_encrypt key iv encoded in
  let combined := replicate (length iv + length ciphertext) 0 in
  let combined := u8_set combined iv 0 in
  let combined := u8_set combined ciphertext (length iv) in
  uint8ToBase64 combined.

(** [None] is a rejection: text that is no base64, or a failed tag. *)
Definition decryptPayload (key : CryptoKey) (ciphertext : jsstr) : option jsstr :=
  match base64ToUint8 ciphertext with
  | None => None
  | Some combined =>
      let iv := take IV_LENGTH combined in
      let data := drop IV_LENGTH combined in
      match aes_decrypt key iv data with
      | None => None
      | Some decrypted => Some (text_decode decrypted)
      end
  end.
End crypto.

(** [values] is what [crypto.getRandomValues] put in the array of [length]
    bytes; character [i] is [BASE62_CHARS[values[i] % 62]]. *)
Definition password_char (value : N) : jsstr :=
  match BASE62_CHARS !! N.to_nat (value mod N.of_nat (length BASE62_CHARS)) with
  | Some c => [c]
  | None => js "undefined"
  end.

Definition generatePassword (values : list N) : jsstr :=
  foldl (λ result v, result ++ password_char v) [] values.

(** ** Lemmas *)

Lemma foldl_snoc {A} (l acc : list A) : foldl (λ r b, r ++ [b]) acc l = acc ++ l.
Proof.
  revert acc. induction l as [|x l IH]; intros acc; simpl; [by rewrite app_nil_r|].
  by rewrite IH, <- app_assoc.
Qed.

Lemma foldl_fill (src : list N) (n : nat) :
  (n ≤ length src)%nat →
  foldl (λ bytes i, <[ i := default 0 (src !! i) ]> bytes) (replicate (length src) 0) (seq 0 n)
  = take n src ++ replicate (length src - n) 0.
Proof.
  intros Hn. induction n as [|n IH].
  - simpl. by rewrite Nat.sub_0_r.
  - rewrite seq_S, foldl_app, IH by lia. simpl.
    destruct (lookup_lt_is_Some_2 src n) as [b Hb]; [lia|]. rewrite Hb. simpl.
    replace (length src - n)%nat with (S (length src - S n))%nat by lia.
    rewrite insert_app_r_alt by (rewrite length_take; lia).
    rewrite length_take, Nat.min_l, Nat.sub_diag by lia. simpl.
    rewrite (take_S_r _ _ b) by done. by rewrite <- app_assoc.
Qed.

Lemma base64ToUint8_atob s : base64ToUint8 s = atob s.
Proof.
  unfold base64ToUint8. destruct (atob s) as [b|]; [|done].
  rewrite foldl_fill by lia. rewrite take_ge, Nat.sub_diag by lia. simpl. by rewrite app_nil_r.
Qed.

Lemma uint8ToBase64_btoa s : uint8ToBase64 s = btoa s.
Proof. unfold uint8ToBase64. by rewrite foldl_snoc. Qed.

Lemma combined_app (iv ct : list N) :
  u8_set (u8_set (replicate (length iv + length ct) 0) iv 0) ct (length iv) = iv ++ ct.
Proof.
  unfold u8_set. simpl. rewrite drop_replicate.
  rewrite take_app_length, drop_ge; [by rewrite app_nil_r|].
  rewrite length_app, length_replicate. lia.
Qed.

Lemma to_scalars_scalar s : wf_str s → Forall scalar (to_scalars s).
Proof.
  assert (scalar 0xFFFD) as Hr by (unfold scalar; lia).
  induction s as [|u s IH IH2] using str_pair_ind; [constructor|].
  intros Hwf. apply Forall_cons in Hwf as [Hu Hwf]. unfold wf_unit in Hu. simpl.
  destruct (is_high u) eqn:Eu; [destruct s as [|v s]; [by repeat constructor|]|].
  - destruct (is_low v) eqn:Ev; constructor; auto.
    + unfold is_high, is_low, scalar, join_surrogates in *.
      rewrite andb_true_iff, N.leb_le, N.ltb_lt in Eu, Ev. lia.
    + apply Forall_cons in Hwf as [_ Hwf]. by apply (IH2 v s).
  - destruct (is_low u) eqn:El; constructor; auto.
    unfold scalar, is_high, is_low in *. lia.
Qed.

Section roundtrip.
Context `{C : SubtleCrypto} {L : AesGcmLaws C}.

(** Encryption never fails, and its base64 text decodes to IV || ciphertext. *)
Lemma encryptPayload_wire key iv plaintext :
  is_bytes iv →
  ∃ t, encryptPayload key iv plaintext = Some t ∧
       atob t = Some (iv ++ aes_encrypt key iv (text_encode plaintext)).
Proof.
  intros Hiv. unfold encryptPayload. rewrite uint8ToBase64_btoa, combined_app.
  eexists. split.
  - apply btoa_bytes. apply Forall_app. split; [done|apply aes_encrypt_bytes].
  - apply atob_btoa. apply btoa_bytes. apply Forall_app. split; [done|apply aes_encrypt_bytes].
Qed.

(** What decryption makes of what encryption made, for any string and any
    12-byte IV. *)
Lemma decryptPayload_encrypt key iv p t :
  is_bytes iv → length iv = IV_LENGTH → wf_str p →
  encryptPayload key iv p = Some t →
  decryptPayload key t = Some (of_scalars (drop_bom (to_scalars p))).
Proof.
  intros Hiv Hlen Hp Ht. destruct (encryptPayload_wire key iv p Hiv) as (t' & Ht' & Ha).
  rewrite Ht in Ht'. injection Ht' as <-.
  unfold decryptPayload. rewrite base64ToUint8_atob, Ha, <- Hlen.
  rewrite take_app_length, drop_app_length, aes_decrypt_encrypt.
  - unfold text_decode, text_encode. by rewrite utf8_roundtrip by by apply to_scalars_scalar.
  - by apply utf8_bytes, to_scalars_scalar.
Qed.
End roundtrip.

(** The text a payload comes back as: a leading byte order mark is lost. *)
Definition without_bom (p : jsstr) : jsstr :=
  match p with u :: p' => if u =? 0xFEFF then p' else p | [] => [] end.

Lemma drop_bom_scalars p :
  good_str p → of_scalars (drop_bom (to_scalars p)) = without_bom p.
Proof.
  intros [Hw Hs]. destruct p as [|u p]; [done|].
  destruct (scalars_roundtrip (u :: p) Hw Hs) as [E _].
  destruct (N.eqb_spec u 0xFEFF) as [->|Hu].
  - simpl. apply Forall_cons in Hw as [_ Hw]. by apply scalars_roundtrip.
  - simpl without_bom. destruct (N.eqb_spec u 0xFEFF); [done|]. rewrite <- E at 2. f_equal.
    simpl. destruct (is_high u) eqn:Eu; [destruct p as [|v p]; [done|]|].
    + destruct (is_low v) eqn:Ev; [|done]. simpl.
      unfold is_high, is_low, join_surrogates in *.
      destruct (N.eqb_spec (65536 + (u - 55296) * 1024 + (v - 56320)) 65279); [lia|done].
    + destruct (is_low u); [done|]. simpl. by destruct (N.eqb_spec u 65279).
Qed.

(** A sealed text is never empty, and opens to the payload. *)
Lemma encryptPayload_opens `{C : SubtleCrypto} {L : AesGcmLaws C} key iv p :
  is_bytes iv → length iv = IV_LENGTH → good_str p →
  ∃ t, encryptPayload key iv p = Some t ∧ t ≠ [] ∧ decryptPayload key t = Some (without_bom p).
Proof.
  intros Hiv Hlen Hp. destruct (encryptPayload_wire key iv p Hiv) as (t & Ht & Ha).
  exists t. split_and!; [done| |].
  - intros ->. change (atob []) with (Some ([] : list N)) in Ha. injection Ha as Ha.
    symmetry in Ha. apply app_eq_nil in Ha as [-> _]. done.
  - rewrite (decryptPayload_encrypt key iv p) by (done || apply Hp). by rewrite drop_bom_scalars.
Qed.

Lemma password_char_unit v : ∃ c, password_char v = [c] ∧ c ∈ BASE62_CHARS ∧
  BASE62_CHARS !! N.to_nat (v mod 62) = Some c.
Proof.
  unfold password_char. change (N.of_nat (length BASE62_CHARS)) with 62.
  destruct (BASE62_CHARS !! N.to_nat (v mod 62)) as [c|] eqn:E.
  - exists c. split; [done|]. split; [|done]. by apply list_elem_of_lookup_2 in E.
  - apply lookup_ge_None in E. change (length BASE62_CHARS) with 62%nat in E.
    pose proof (N.mod_lt v 62). lia.
Qed.

Lemma generatePassword_app vs v :
  generatePassword (vs ++ [v]) = generatePassword vs ++ password_char v.
Proof. unfold generatePassword. by rewrite foldl_app. Qed.

(** ** Properties *)

(** C40: Encrypting a payload always gives a base64 text of IV || ciphertext, and
    decrypting it under the same key gives the payload back, without a byte
    order mark it started with. *)
Theorem decrypt_encrypt_payload `{C : SubtleCrypto} (key : CryptoKey) (iv : list N) (p : jsstr) :
  AesGcmLaws C → is_bytes iv → length iv = IV_LENGTH → good_str p →
  ∃ t, encryptPayload key iv p = Some t ∧
       atob t = Some (iv ++ aes_encrypt key iv (text_encode p)) ∧
       decryptPayload key t = Some (without_bom p).
Proof.
  intros L Hiv Hlen Hp. destruct (encryptPayload_wire key iv p Hiv) as (t & Ht & Ha).
  destruct (encryptPayload_opens key iv p Hiv Hlen Hp) as (t' & Ht' & _ & Hd).
  exists t. split_and!; [done..|]. congruence.
Qed.

(** Decryption rejects, and delivers no text, exactly when the input is no
    base64 or the tag over the part after the first 12 bytes does not
    authenticate under the key. *)
Theorem decrypt_rejects `{C : SubtleCrypto} (key : CryptoKey) (t : jsstr) :
  decryptPayload key t = None ↔
  atob t = None ∨
  ∃ b, atob t = Some b ∧ aes_decrypt key (take IV_LENGTH b) (drop IV_LENGTH b) = None.
Proof.
  unfold decryptPayload. rewrite base64ToUint8_atob.
  destruct (atob t) as [b|]; [|split; [by left|done]].
  split.
  - intros H. right. exists b. split; [done|]. by destruct (aes_decrypt _ _ _).
  - intros [?|(b' & [= <-] & ->)]; done.
Qed.

(** A password has one base62 character per random byte, character [i]
    depending on byte [i] alone. *)
Theorem generatePassword_spec (values : list N) :
  length (generatePassword values) = length values ∧
  Forall (λ c, c ∈ BASE62_CHARS) (generatePassword values) ∧
  ∀ i v, values !! i = Some v →
    generatePassword values !! i = BASE62_CHARS !! N.to_nat (v mod 62).
Proof.
  induction values as [|v vs (IHl & IHc & IHn)] using rev_ind; [by repeat split|].
  rewrite generatePassword_app. destruct (password_char_unit v) as (c & -> & Hc & E).
  split_and!.
  - rewrite !length_app, IHl. done.
  - apply Forall_app. split; [done|]. by apply Forall_singleton.
  - intros i w Hi. apply lookup_app_Some in Hi as [Hi|[Hle Hi]].
    + rewrite lookup_app_l; [by apply IHn|]. rewrite IHl. by apply lookup_lt_Some in Hi.
    + apply list_lookup_singleton_Some in Hi as [Hz <-].
      rewrite lookup_app_r by lia. rewrite E, IHl, Hz. done.
Qed.

(** A uniform random byte is not a uniform character: the first 8 of the 62
    characters have 5 bytes each, the others 4. *)
Theorem password_char_bias (j : nat) (c : N) :
  BASE62_CHARS !! j = Some c →
  length (List.filter (λ i, bool_decide (password_char (N.of_nat i) = [c])) (seq 0 256))
  = if (j <? 8)%nat then 5%nat else 4%nat.
Proof.
  intros Hj.
  pose (P j := match BASE62_CHARS !! N.to_nat j with
    | Some c => (length (List.filter (λ i, bool_decide (password_char (N.of_nat i) = [c])) (seq 0 256))
                 =? (if (N.to_nat j <? 8) then 5 else 4))%nat
    | None => true end).
  assert (P (N.of_nat j) = true) as H.
  { apply (forall_below P 62); [by vm_compute|].
    apply lookup_lt_Some in Hj. change (length BASE62_CHARS) with 62%nat in Hj. lia. }
  unfold P in H. rewrite Nat2N.id, Hj in H. by apply Nat.eqb_eq in H.
Qed.

(** ** Witnesses *)

(** A toy cipher that satisfies the laws: the plaintext with a 16-byte tag. *)
Definition toy_crypto : SubtleCrypto := {|
  CryptoKey := unit; KeyMaterial := unit;
  importKey _ := tt; subtle_deriveKey _ _ _ := tt;
  aes_encrypt _ _ p := (λ b, b mod 256) <$> (p ++ replicate 16 7);
  aes_decrypt _ _ ct :=
    if bool_decide (drop (length ct - 16) ct = replicate 16 7)
    then Some (take (length ct - 16) ct) else None
|}.

Lemma toy_laws : AesGcmLaws toy_crypto.
Proof.
  split.
  - intros [] iv p Hp. cbn [aes_encrypt aes_decrypt toy_crypto].
    assert ((λ b, b mod 256) <$> p = p) as E.
    { induction Hp as [|b p Hb _ IH]; [done|]. rewrite fmap_cons, IH.
      by rewrite N.mod_small. }
    rewrite fmap_app, E. change ((λ b, b mod 256) <$> replicate 16 7) with (replicate 16 7).
    rewrite length_app, length_replicate, Nat.add_sub.
    by rewrite drop_app_length, bool_decide_true, take_app_length.
  - intros [] iv p. apply Forall_fmap. apply Forall_forall. intros b _. simpl.
    apply N.mod_lt. done.
Qed.

Lemma decrypt_encrypt_payload_witness :
  ∃ t, encryptPayload (C := toy_crypto) tt (replicate 12 200) (js "scene") = Some t ∧
       decryptPayload (C := toy_crypto) tt t = Some (js "scene").
Proof.
  destruct (decrypt_encrypt_payload (C := toy_crypto) tt (replicate 12 200) (js "scene"))
    as (t & H1 & _ & H2).
  - apply toy_laws.
  - by apply Forall_replicate.
  - done.
  - split; [|done]. repeat constructor; done.
  - by exists t.
Defined.

Lemma password_char_bias_witness :
  length (List.filter (λ i, bool_decide (password_char (N.of_nat i) = js "z")) (seq 0 256)) = 4%nat.
Proof. by apply (password_char_bias 61 122). Defined.
