(* ===== verification/Models.v ===== *)
(** * Protocol messages ([ts/src/gen/massrelay/v1/models/collab_pb.ts])

    The messages of the relay protocol, as the generated TypeScript types
    declare them: the canonical message types, and the JSON types ([...Json])
    whose fields are all optional. A field [f] of a type [T] is [T_f]. An
    object used as a map is the list of its entries in enumeration order. *)

From Stdlib Require Import QArith.
From S2P Require Import Prelude.

(** A JavaScript number that is not known to be an integer. *)
Inductive jsnum :=
  | Finite (q : Q)
  | NaN
  | Infinity
  | MinusInfinity.

(** [google.protobuf.Timestamp]. *)
Record Timestamp := mkTimestamp { seconds : Z; nanos : Z }.

Record JoinRoom := mkJoinRoom {
  JoinRoom_sessionId : jsstr;
  JoinRoom_username : jsstr;
  JoinRoom_metadata : list (jsstr * jsstr);
  JoinRoom_clientType : jsstr;
  JoinRoom_avatarUrl : jsstr;
  JoinRoom_isOwner : bool;
  JoinRoom_browserId : jsstr;
  JoinRoom_clientHint : jsstr;
  JoinRoom_protocolVersion : Z;
  JoinRoom_encrypted : bool;
  JoinRoom_title : jsstr;
  JoinRoom_mustExist : bool
}.

Record LeaveRoom := mkLeaveRoom {
  LeaveRoom_reason : jsstr
}.

Record PresenceUpdate := mkPresenceUpdate {
  PresenceUpdate_isActive : bool;
  PresenceUpdate_username : jsstr
}.

Record ElementUpdate := mkElementUpdate {
  ElementUpdate_id : jsstr;
  ElementUpdate_version : Z;
  ElementUpdate_versionNonce : Z;
  ElementUpdate_data : jsstr;
  ElementUpdate_deleted : bool
}.

#[export] Instance eta_ElementUpdate : Eta ElementUpdate := λ r,
  mkElementUpdate (ElementUpdate_id r) (ElementUpdate_version r) (ElementUpdate_versionNonce r) (ElementUpdate_data r) (ElementUpdate_deleted r).

Record SceneUpdate := mkSceneUpdate {
  SceneUpdate_elements : list ElementUpdate
}.

#[export] Instance eta_SceneUpdate : Eta SceneUpdate := λ r,
  mkSceneUpdate (SceneUpdate_elements r).

Record CursorUpdate := mkCursorUpdate {
  CursorUpdate_x : jsnum;
  CursorUpdate_y : jsnum;
  CursorUpdate_tool : jsstr;
  CursorUpdate_button : jsstr;
  CursorUpdate_selectedElementIds : list (jsstr * bool)
}.

Record TextUpdate := mkTextUpdate {
  TextUpdate_text : jsstr;
  TextUpdate_version : Z;
  TextUpdate_cursorPosition : Z
}.

Record SceneInitRequest := mkSceneInitRequest {}.

Record SceneInitResponse := mkSceneInitResponse {
  SceneInitResponse_payload : jsstr
}.

Record AppMessage := mkAppMessage {
  AppMessage_kind : jsstr;
  AppMessage_payload : list N;
  AppMessage_toClientIds : list jsstr
}.

Record CredentialsChanged := mkCredentialsChanged {
  CredentialsChanged_reason : jsstr
}.

Record TitleChanged := mkTitleChanged {
  TitleChanged_title : jsstr
}.

(** The [action] union of [CollabAction], by its [case]. *)
Inductive CollabAction_action_case :=
  | act_join (value : JoinRoom)
  | act_leave (value : LeaveRoom)
  | act_presence (value : PresenceUpdate)
  | act_sceneUpdate (value : SceneUpdate)
  | act_cursorUpdate (value : CursorUpdate)
  | act_textUpdate (value : TextUpdate)
  | act_sceneInitRequest (value : SceneInitRequest)
  | act_sceneInitResponse (value : SceneInitResponse)
  | act_credentialsChanged (value : CredentialsChanged)
  | act_titleChanged (value : TitleChanged)
  | act_appMessage (value : AppMessage)
  | act_undefined.

Record CollabAction := mkCollabAction {
  CollabAction_actionId : jsstr;
  CollabAction_clientId : jsstr;
  CollabAction_timestamp : Z;
  CollabAction_action : CollabAction_action_case
}.

Record JoinRoomJson := mkJoinRoomJson {
  JoinRoomJson_sessionId : option jsstr;
  JoinRoomJson_username : option jsstr;
  JoinRoomJson_metadata : option (list (jsstr * jsstr));
  JoinRoomJson_clientType : option jsstr;
  JoinRoomJson_avatarUrl : option jsstr;
  JoinRoomJson_isOwner : option bool;
  JoinRoomJson_browserId : option jsstr;
  JoinRoomJson_clientHint : option jsstr;
  JoinRoomJson_protocolVersion : option Z;
  JoinRoomJson_encrypted : option bool;
  JoinRoomJson_title : option jsstr;
  JoinRoomJson_mustExist : option bool
}.

Record LeaveRoomJson := mkLeaveRoomJson {
  LeaveRoomJson_reason : option jsstr
}.

Record PresenceUpdateJson := mkPresenceUpdateJson {
  PresenceUpdateJson_isActive : option bool;
  PresenceUpdateJson_username : option jsstr
}.

Record ElementUpdateJson := mkElementUpdateJson {
  ElementUpdateJson_id : option jsstr;
  ElementUpdateJson_version : option Z;
  ElementUpdateJson_versionNonce : option Z;
  ElementUpdateJson_data : option jsstr;
  ElementUpdateJson_deleted : option bool
}.

Definition emptyElementUpdateJson : ElementUpdateJson :=
  mkElementUpdateJson None None None None None.

#[export] Instance eta_ElementUpdateJson : Eta ElementUpdateJson := λ r,
  mkElementUpdateJson (ElementUpdateJson_id r) (ElementUpdateJson_version r) (ElementUpdateJson_versionNonce r) (ElementUpdateJson_data r) (ElementUpdateJson_deleted r).

Record SceneUpdateJson := mkSceneUpdateJson {
  SceneUpdateJson_elements : option (list ElementUpdateJson)
}.

Record CursorUpdateJson := mkCursorUpdateJson {
  CursorUpdateJson_x : option jsnum;
  CursorUpdateJson_y : option jsnum;
  CursorUpdateJson_tool : option jsstr;
  CursorUpdateJson_button : option jsstr;
  CursorUpdateJson_selectedElementIds : option (list (jsstr * bool))
}.

Record TextUpdateJson := mkTextUpdateJson {
  TextUpdateJson_text : option jsstr;
  TextUpdateJson_version : option Z;
  TextUpdateJson_cursorPosition : option Z
}.

Record SceneInitRequestJson := mkSceneInitRequestJson {}.

Record SceneInitResponseJson := mkSceneInitResponseJson {
  SceneInitResponseJson_payload : option jsstr
}.

Record AppMessageJson := mkAppMessageJson {
  AppMessageJson_kind : option jsstr;
  AppMessageJson_payload : option jsstr;
  AppMessageJson_toClientIds : option (list jsstr)
}.

Definition emptyAppMessageJson : AppMessageJson :=
  mkAppMessageJson None None None.

#[export] Instance eta_AppMessageJson : Eta AppMessageJson := λ r,
  mkAppMessageJson (AppMessageJson_kind r) (AppMessageJson_payload r) (AppMessageJson_toClientIds r).

Record CredentialsChangedJson := mkCredentialsChangedJson {
  CredentialsChangedJson_reason : option jsstr
}.

Record TitleChangedJson := mkTitleChangedJson {
  TitleChangedJson_title : option jsstr
}.

Record CollabActionJson := mkCollabActionJson {
  CollabActionJson_actionId : option jsstr;
  CollabActionJson_clientId : option jsstr;
  CollabActionJson_timestamp : option jsstr;
  CollabActionJson_join : option JoinRoomJson;
  CollabActionJson_leave : option LeaveRoomJson;
  CollabActionJson_presence : option PresenceUpdateJson;
  CollabActionJson_sceneUpdate : option SceneUpdateJson;
  CollabActionJson_cursorUpdate : option CursorUpdateJson;
  CollabActionJson_textUpdate : option TextUpdateJson;
  CollabActionJson_sceneInitRequest : option SceneInitRequestJson;
  CollabActionJson_sceneInitResponse : option SceneInitResponseJson;
  CollabActionJson_credentialsChanged : option CredentialsChangedJson;
  CollabActionJson_titleChanged : option TitleChangedJson;
  CollabActionJson_appMessage : option AppMessageJson
}.

Definition emptyCollabActionJson : CollabActionJson :=
  mkCollabActionJson None None None None None None None None None None None None None None.

#[export] Instance eta_CollabActionJson : Eta CollabActionJson := λ r,
  mkCollabActionJson (CollabActionJson_actionId r) (CollabActionJson_clientId r) (CollabActionJson_timestamp r) (CollabActionJson_join r) (CollabActionJson_leave r) (CollabActionJson_presence r) (CollabActionJson_sceneUpdate r) (CollabActionJson_cursorUpdate r) (CollabActionJson_textUpdate r) (CollabActionJson_sceneInitRequest r) (CollabActionJson_sceneInitResponse r) (CollabActionJson_credentialsChanged r) (CollabActionJson_titleChanged r) (CollabActionJson_appMessage r).

Record PeerIdentity := mkPeerIdentity {
  PeerIdentity_subject : jsstr;
  PeerIdentity_clientId : jsstr
}.

Record PeerInfo := mkPeerInfo {
  PeerInfo_clientId : jsstr;
  PeerInfo_username : jsstr;
  PeerInfo_avatarUrl : jsstr;
  PeerInfo_clientType : jsstr;
  PeerInfo_isActive : bool;
  PeerInfo_isOwner : bool;
  PeerInfo_metadata : list (jsstr * jsstr);
  PeerInfo_identity : option PeerIdentity
}.

Record Room := mkRoom {
  Room_sessionId : jsstr;
  Room_peers : list (jsstr * PeerInfo);
  Room_ownerClientId : jsstr;
  Room_createdAt : option Timestamp;
  Room_metadata : list (jsstr * jsstr);
  Room_encrypted : bool;
  Room_title : jsstr
}.

Record RoomJoined := mkRoomJoined {
  RoomJoined_clientId : jsstr;
  RoomJoined_room : option Room;
  RoomJoined_maxPeers : Z;
  RoomJoined_protocolVersion : Z
}.

Record PeerJoined := mkPeerJoined {
  PeerJoined_peer : option PeerInfo
}.

Record PeerLeft := mkPeerLeft {
  PeerLeft_clientId : jsstr;
  PeerLeft_reason : jsstr;
  PeerLeft_peerCount : Z
}.

Record ErrorEvent := mkErrorEvent {
  ErrorEvent_code : jsstr;
  ErrorEvent_message : jsstr
}.

Record SessionEnded := mkSessionEnded {
  SessionEnded_reason : jsstr
}.

Record OwnerChanged := mkOwnerChanged {
  OwnerChanged_newOwnerClientId : jsstr
}.

(** The [event] union of [CollabEvent], by its [case]. *)
Inductive CollabEvent_event_case :=
  | ev_roomJoined (value : RoomJoined)
  | ev_peerJoined (value : PeerJoined)
  | ev_peerLeft (value : PeerLeft)
  | ev_presence (value : PresenceUpdate)
  | ev_sceneUpdate (value : SceneUpdate)
  | ev_cursorUpdate (value : CursorUpdate)
  | ev_textUpdate (value : TextUpdate)
  | ev_sceneInitResponse (value : SceneInitResponse)
  | ev_error (value : ErrorEvent)
  | ev_sceneInitRequest (value : SceneInitRequest)
  | ev_sessionEnded (value : SessionEnded)
  | ev_ownerChanged (value : OwnerChanged)
  | ev_credentialsChanged (value : CredentialsChanged)
  | ev_titleChanged (value : TitleChanged)
  | ev_appMessage (value : AppMessage)
  | ev_undefined.

Record CollabEvent := mkCollabEvent {
  CollabEvent_eventId : jsstr;
  CollabEvent_fromClientId : jsstr;
  CollabEvent_serverTimestamp : Z;
  CollabEvent_event : CollabEvent_event_case
}.

#[export] Instance eta_CollabEvent : Eta CollabEvent := λ r,
  mkCollabEvent (CollabEvent_eventId r) (CollabEvent_fromClientId r) (CollabEvent_serverTimestamp r) (CollabEvent_event r).

Record PeerIdentityJson := mkPeerIdentityJson {
  PeerIdentityJson_subject : option jsstr;
  PeerIdentityJson_clientId : option jsstr
}.

Record PeerInfoJson := mkPeerInfoJson {
  PeerInfoJson_clientId : option jsstr;
  PeerInfoJson_username : option jsstr;
  PeerInfoJson_avatarUrl : option jsstr;
  PeerInfoJson_clientType : option jsstr;
  PeerInfoJson_isActive : option bool;
  PeerInfoJson_isOwner : option bool;
  PeerInfoJson_metadata : option (list (jsstr * jsstr));
  PeerInfoJson_identity : option PeerIdentityJson
}.

Definition emptyPeerInfoJson : PeerInfoJson :=
  mkPeerInfoJson None None None None None None None None.

#[export] Instance eta_PeerInfoJson : Eta PeerInfoJson := λ r,
  mkPeerInfoJson (PeerInfoJson_clientId r) (PeerInfoJson_username r) (PeerInfoJson_avatarUrl r) (PeerInfoJson_clientType r) (PeerInfoJson_isActive r) (PeerInfoJson_isOwner r) (PeerInfoJson_metadata r) (PeerInfoJson_identity r).

Record RoomJson := mkRoomJson {
  RoomJson_sessionId : option jsstr;
  RoomJson_peers : option (list (jsstr * PeerInfoJson));
  RoomJson_ownerClientId : option jsstr;
  RoomJson_createdAt : option jsstr;
  RoomJson_metadata : option (list (jsstr * jsstr));
  RoomJson_encrypted : option bool;
  RoomJson_title : option jsstr
}.

Record RoomJoinedJson := mkRoomJoinedJson {
  RoomJoinedJson_clientId : option jsstr;
  RoomJoinedJson_room : option RoomJson;
  RoomJoinedJson_maxPeers : option Z;
  RoomJoinedJson_protocolVersion : option Z
}.

Record PeerJoinedJson := mkPeerJoinedJson {
  PeerJoinedJson_peer : option PeerInfoJson
}.

Record PeerLeftJson := mkPeerLeftJson {
  PeerLeftJson_clientId : option jsstr;
  PeerLeftJson_reason : option jsstr;
  PeerLeftJson_peerCount : option Z
}.

Record ErrorEventJson := mkErrorEventJson {
  ErrorEventJson_code : option jsstr;
  ErrorEventJson_message : option jsstr
}.

Record SessionEndedJson := mkSessionEndedJson {
  SessionEndedJson_reason : option jsstr
}.

Record OwnerChangedJson := mkOwnerChangedJson {
  OwnerChangedJson_newOwnerClientId : option jsstr
}.

Record CollabEventJson := mkCollabEventJson {
  CollabEventJson_eventId : option jsstr;
  CollabEventJson_fromClientId : option jsstr;
  CollabEventJson_serverTimestamp : option jsstr;
  CollabEventJson_roomJoined : option RoomJoinedJson;
  CollabEventJson_peerJoined : option PeerJoinedJson;
  CollabEventJson_peerLeft : option PeerLeftJson;
  CollabEventJson_presence : option PresenceUpdateJson;
  CollabEventJson_sceneUpdate : option SceneUpdateJson;
  CollabEventJson_cursorUpdate : option CursorUpdateJson;
  CollabEventJson_textUpdate : option TextUpdateJson;
  CollabEventJson_sceneInitResponse : option SceneInitResponseJson;
  CollabEventJson_error : option ErrorEventJson;
  CollabEventJson_sceneInitRequest : option SceneInitRequestJson;
  CollabEventJson_sessionEnded : option SessionEndedJson;
  CollabEventJson_ownerChanged : option OwnerChangedJson;
  CollabEventJson_credentialsChanged : option CredentialsChangedJson;
  CollabEventJson_titleChanged : option TitleChangedJson;
  CollabEventJson_appMessage : option AppMessageJson
}.

Record GetRoomRequest := mkGetRoomRequest {
  GetRoomRequest_sessionId : jsstr
}.

Record GetRoomRequestJson := mkGetRoomRequestJson {
  GetRoomRequestJson_sessionId : option jsstr
}.

Record GetRoomResponse := mkGetRoomResponse {
  GetRoomResponse_room : option Room
}.

Record GetRoomResponseJson := mkGetRoomResponseJson {
  GetRoomResponseJson_room : option RoomJson
}.

Record ListRoomsRequest := mkListRoomsRequest {}.

Record ListRoomsRequestJson := mkListRoomsRequestJson {}.

Record RoomSummary := mkRoomSummary {
  RoomSummary_sessionId : jsstr;
  RoomSummary_peerCount : Z;
  RoomSummary_createdAt : option Timestamp
}.

Record ListRoomsResponse := mkListRoomsResponse {
  ListRoomsResponse_rooms : list RoomSummary
}.

Record RoomSummaryJson := mkRoomSummaryJson {
  RoomSummaryJson_sessionId : option jsstr;
  RoomSummaryJson_peerCount : option Z;
  RoomSummaryJson_createdAt : option jsstr
}.

Record ListRoomsResponseJson := mkListRoomsResponseJson {
  ListRoomsResponseJson_rooms : option (list RoomSummaryJson)
}.
