(* ===== verification/Wire.v ===== *)
(** * The protobuf wire format and the descriptors of a [.proto] file

    What the base64 literals of the generated code
    ([ts/src/gen/massrelay/v1]) mean: the protobuf encoding (varints, tagged
    fields, length-delimited values) and, in it, the messages of
    [descriptor.proto] that describe a file's messages and services. This is
    the published format, the reference the generated code is compared with;
    the library that reads the literals at run time is not modelled. The
    reader is strict: a field number it does not know is refused, so nothing
    of a literal is ignored but the file's options. *)

From stdpp Require Import strings.
From S2P Require Import Prelude JsText.
#[local] Open Scope N_scope.

#[local] Ltac Zify.zify_post_hook ::= Z.to_euclidean_division_equations.

(** ** Values on the wire *)

Inductive wire_value :=
  | Varint (n : N)
  | Fixed64 (bytes : list N)
  | Delimited (bytes : list N)
  | Fixed32 (bytes : list N).

(** A field number and its value. *)
Abbreviation wire_field := (N * wire_value)%type (only parsing).

Fixpoint read_varint (bs : list N) : option (N * list N) :=
  match bs with
  | [] => None
  | b :: bs' =>
      if b <? 128 then Some (b, bs')
      else '(n, rest) ← read_varint bs'; Some (b - 128 + 128 * n, rest)
  end.

(** The first [n] bytes and the others, when there are that many. *)
Definition split_bytes (n : nat) (bs : list N) : option (list N * list N) :=
  if (n <=? length bs)%nat then Some (take n bs, drop n bs) else None.

Definition read_value (kind : N) (bs : list N) : option (wire_value * list N) :=
  if kind =? 0 then '(n, rest) ← read_varint bs; Some (Varint n, rest)
  else if kind =? 1 then '(v, rest) ← split_bytes 8 bs; Some (Fixed64 v, rest)
  else if kind =? 2 then
    '(n, rest) ← read_varint bs;
    '(v, rest') ← split_bytes (N.to_nat n) rest; Some (Delimited v, rest')
  else if kind =? 5 then '(v, rest) ← split_bytes 4 bs; Some (Fixed32 v, rest)
  else None.

Definition read_field (bs : list N) : option (wire_field * list N) :=
  '(tag, rest) ← read_varint bs;
  if tag / 8 =? 0 then None
  else '(v, rest') ← read_value (tag mod 8) rest; Some ((tag / 8, v), rest').

Fixpoint read_fields_from (fuel : nat) (bs : list N) : option (list wire_field) :=
  match bs, fuel with
  | [], _ => Some []
  | _, O => None
  | _, S fuel' =>
      '(f, rest) ← read_field bs;
      fs ← read_fields_from fuel' rest; Some (f :: fs)
  end.

(** A field takes a byte at least, so there are no more fields than bytes. *)
Definition read_fields (bs : list N) : option (list wire_field) :=
  read_fields_from (length bs) bs.

(** The writer, the reader's specification. *)

Fixpoint write_varint_from (fuel : nat) (n : N) : list N :=
  match fuel with
  | O => [n]
  | S fuel' => if n <? 128 then [n] else (128 + n mod 128) :: write_varint_from fuel' (n / 128)
  end.

(** Seven bits to a byte: ten bytes carry 64 bits. *)
Definition write_varint (n : N) : list N := write_varint_from 9 n.

Definition wire_kind (v : wire_value) : N :=
  match v with Varint _ => 0 | Fixed64 _ => 1 | Delimited _ => 2 | Fixed32 _ => 5 end.

Definition write_value (v : wire_value) : list N :=
  match v with
  | Varint n => write_varint n
  | Delimited bs => write_varint (N.of_nat (length bs)) ++ bs
  | Fixed64 bs | Fixed32 bs => bs
  end.

Definition write_field (f : wire_field) : list N :=
  write_varint (8 * f.1 + wire_kind f.2) ++ write_value f.2.

Definition write_fields (fs : list wire_field) : list N := concat (write_field <$> fs).

(** The fields the format can carry: varints of 64 bits, field numbers of 29. *)
Definition wf_value (v : wire_value) : Prop :=
  match v with
  | Varint n => n < 2 ^ 64
  | Fixed64 bs => length bs = 8%nat
  | Delimited bs => N.of_nat (length bs) < 2 ^ 64
  | Fixed32 bs => length bs = 4%nat
  end.

Definition wf_field (f : wire_field) : Prop := 0 < f.1 < 2 ^ 29 ∧ wf_value f.2.

(** ** Descriptors

    The messages of [descriptor.proto], with the fields that shape a
    declaration. *)

Record FieldDescriptorProto := mkFieldDescriptorProto {
  field_name : string;
  field_number : N;
  field_label : N;
  field_type : N;
  field_type_name : string;
  field_oneof_index : option N
}.

(** A message declared inside another; the entry type of a [map] field is
    one. One that declares a message in turn is refused by the reader. *)
Record NestedProto := mkNestedProto {
  nested_name : string;
  nested_fields : list FieldDescriptorProto;
  map_entry : bool
}.

Record DescriptorProto := mkDescriptorProto {
  message_name : string;
  message_fields : list FieldDescriptorProto;
  nested_types : list NestedProto;
  oneof_decls : list string
}.

Record MethodDescriptorProto := mkMethodDescriptorProto {
  method_name : string;
  input_type : string;
  output_type : string;
  streams_in : bool;
  streams_out : bool
}.

Record ServiceDescriptorProto := mkServiceDescriptorProto {
  service_name : string;
  service_methods : list MethodDescriptorProto
}.

Record FileDescriptorProto := mkFileDescriptorProto {
  file_name : string;
  file_package : string;
  file_messages : list DescriptorProto;
  file_services : list ServiceDescriptorProto;
  file_syntax : string
}.

(** ** Reading a descriptor *)

Definition to_string (bs : list N) : string := String.string_of_list_ascii (Ascii.ascii_of_N <$> bs).

(** The values of a field, in order; the last one counts where the field is
    not repeated. *)
Definition values (num : N) (fs : list wire_field) : list wire_value :=
  snd <$> filter (λ f, f.1 = num) fs.

Definition delimited (v : wire_value) : option (list N) :=
  match v with Delimited bs => Some bs | _ => None end.

Definition varint (v : wire_value) : option N :=
  match v with Varint n => Some n | _ => None end.

Definition string_field (num : N) (fs : list wire_field) : option string :=
  match last (values num fs) with None => Some "" | Some v => to_string <$> delimited v end.

Definition strings_field (num : N) (fs : list wire_field) : option (list string) :=
  fmap to_string <$> mapM delimited (values num fs).

Definition int_field (num : N) (fs : list wire_field) : option N :=
  match last (values num fs) with None => Some 0 | Some v => varint v end.

Definition bool_field (num : N) (fs : list wire_field) : option bool :=
  (λ n, negb (n =? 0)) <$> int_field num fs.

Definition optional_int (num : N) (fs : list wire_field) : option (option N) :=
  match last (values num fs) with None => Some None | Some v => Some <$> varint v end.

Definition messages_field {A} (read : list N → option A) (num : N) (fs : list wire_field) : option (list A) :=
  vs ← mapM delimited (values num fs); mapM read vs.

(** The fields of an encoded message whose field numbers are all [known]. *)
Definition fields_among (known : list N) (bs : list N) : option (list wire_field) :=
  fs ← read_fields bs;
  if forallb (λ f, bool_decide (f.1 ∈ known)) fs then Some fs else None.

Definition read_FieldDescriptorProto (bs : list N) : option FieldDescriptorProto :=
  fs ← fields_among [1; 3; 4; 5; 6; 9] bs;
  name ← string_field 1 fs; number ← int_field 3 fs; label ← int_field 4 fs;
  type ← int_field 5 fs; type_name ← string_field 6 fs; oneof_index ← optional_int 9 fs;
  Some (mkFieldDescriptorProto name number label type type_name oneof_index).

Definition read_OneofDescriptorProto (bs : list N) : option string :=
  fs ← fields_among [1] bs; string_field 1 fs.

(** [MessageOptions]: only [map_entry]. *)
Definition read_MessageOptions (bs : list N) : option bool :=
  fs ← fields_among [7] bs; bool_field 7 fs.

Definition read_NestedProto (bs : list N) : option NestedProto :=
  fs ← fields_among [1; 2; 7] bs;
  name ← string_field 1 fs; fields ← messages_field read_FieldDescriptorProto 2 fs;
  options ← messages_field read_MessageOptions 7 fs;
  Some (mkNestedProto name fields (existsb id options)).

Definition read_DescriptorProto (bs : list N) : option DescriptorProto :=
  fs ← fields_among [1; 2; 3; 8] bs;
  name ← string_field 1 fs; fields ← messages_field read_FieldDescriptorProto 2 fs;
  nested ← messages_field read_NestedProto 3 fs;
  oneofs ← messages_field read_OneofDescriptorProto 8 fs;
  Some (mkDescriptorProto name fields nested oneofs).

Definition read_MethodDescriptorProto (bs : list N) : option MethodDescriptorProto :=
  fs ← fields_among [1; 2; 3; 5; 6] bs;
  name ← string_field 1 fs; input ← string_field 2 fs; output ← string_field 3 fs;
  client ← bool_field 5 fs; server ← bool_field 6 fs;
  Some (mkMethodDescriptorProto name input output client server).

Definition read_ServiceDescriptorProto (bs : list N) : option ServiceDescriptorProto :=
  fs ← fields_among [1; 2] bs;
  name ← string_field 1 fs; methods ← messages_field read_MethodDescriptorProto 2 fs;
  Some (mkServiceDescriptorProto name methods).

(** The file's options (field 8), the names other languages have for its
    package, are passed over. *)
Definition read_FileDescriptorProto (bs : list N) : option FileDescriptorProto :=
  fs ← fields_among [1; 2; 4; 6; 8; 12] bs;
  name ← string_field 1 fs; package ← string_field 2 fs;
  messages ← messages_field read_DescriptorProto 4 fs;
  services ← messages_field read_ServiceDescriptorProto 6 fs;
  syntax ← string_field 12 fs;
  Some (mkFileDescriptorProto name package messages services syntax).

(** ** The reader reads what the writer writes *)

Lemma read_varint_written fuel n rest :
  n < 128 ^ N.of_nat (S fuel) →
  read_varint (write_varint_from fuel n ++ rest) = Some (n, rest).
Proof.
  revert n. induction fuel as [|fuel IH]; intros n Hn; simpl.
  - destruct (N.ltb_spec n 128); [done|]. simpl in *. lia.
  - destruct (N.ltb_spec n 128) as [Hlt|Hge]; simpl.
    { by destruct (N.ltb_spec n 128); [|lia]. }
    destruct (N.ltb_spec (128 + n mod 128) 128); [lia|].
    rewrite IH; simpl.
    + f_equal. f_equal. lia.
    + rewrite Nat2N.inj_succ, N.pow_succ_r' in Hn. apply N.Div0.div_lt_upper_bound. lia.
Qed.

Lemma read_write_varint n rest : n < 2 ^ 64 → read_varint (write_varint n ++ rest) = Some (n, rest).
Proof. intros Hn. apply read_varint_written. etrans; [done|]. by vm_compute. Qed.

Lemma split_bytes_app n bs rest : length bs = n → split_bytes n (bs ++ rest) = Some (bs, rest).
Proof.
  intros <-. unfold split_bytes. rewrite length_app.
  destruct (Nat.leb_spec (length bs) (length bs + length rest)); [|lia].
  by rewrite take_app_length, drop_app_length.
Qed.

Lemma read_write_value v rest :
  wf_value v → read_value (wire_kind v) (write_value v ++ rest) = Some (v, rest).
Proof.
  destruct v as [n|bs|bs|bs]; intros Hv; unfold read_value; simpl in *.
  - by rewrite read_write_varint.
  - by rewrite (split_bytes_app 8).
  - rewrite <-app_assoc, read_write_varint by done. simpl. rewrite Nat2N.id.
    by rewrite split_bytes_app.
  - by rewrite (split_bytes_app 4).
Qed.

Lemma read_write_field f rest : wf_field f → read_field (write_field f ++ rest) = Some (f, rest).
Proof.
  destruct f as [num v]. intros [Hnum Hv]. unfold read_field, write_field. simpl in *.
  assert (wire_kind v < 8) by (by destruct v).
  rewrite <-app_assoc, read_write_varint by lia. simpl.
  replace ((8 * num + wire_kind v) / 8) with num by lia.
  replace ((8 * num + wire_kind v) mod 8) with (wire_kind v) by lia.
  destruct (N.eqb_spec num 0); [lia|]. by rewrite read_write_value.
Qed.

Lemma write_varint_cons n : ∃ b bs, write_varint n = b :: bs.
Proof. unfold write_varint. simpl. destruct (n <? 128); eauto. Qed.

Lemma write_field_cons f : ∃ b bs, write_field f = b :: bs.
Proof.
  unfold write_field. destruct (write_varint_cons (8 * f.1 + wire_kind f.2)) as (b & bs & ->).
  simpl. eauto.
Qed.

Lemma read_fields_from_written fuel fs :
  Forall wf_field fs → (length (write_fields fs) <= fuel)%nat →
  read_fields_from fuel (write_fields fs) = Some fs.
Proof.
  intros Hfs. revert fuel. induction Hfs as [|f fs Hf Hfs IH]; intros fuel Hfuel.
  { by destruct fuel. }
  change (write_fields (f :: fs)) with (write_field f ++ write_fields fs) in *.
  pose proof (read_write_field f (write_fields fs) Hf) as Hread.
  destruct (write_field_cons f) as (b & bs & Hbs).
  rewrite length_app, Hbs in Hfuel. simpl in Hfuel.
  destruct fuel as [|fuel]; [lia|]. rewrite Hbs in *. simpl app in *.
  cbn [read_fields_from]. rewrite Hread. simpl. rewrite IH by lia. done.
Qed.

(** Every sequence of fields the format can carry is read back as it was
    written: the reader loses nothing, confuses no two sequences, and its fuel
    is enough. *)
Lemma read_fields_written fs : Forall wf_field fs → read_fields (write_fields fs) = Some fs.
Proof. intros Hfs. by apply read_fields_from_written. Qed.
