(* ===== verification/Descriptors.v ===== *)
(** * The generated code ([ts/src/gen/massrelay/v1/models/collab_pb.ts] and
    [ts/src/gen/massrelay/v1/services/collab_pb.ts])

    The modules protoc-gen-es writes: for each message of the protocol the
    type of the message and the type of its JSON form, as TypeScript declares
    them, and the schema object, which is a place in the file's descriptor;
    the service with its methods; and the two descriptors, base64 literals.
    [fileDesc], [messageDesc] and [serviceDesc] are calls into the protobuf
    library: a file, a schema and a service are here the arguments of theirs.

    Types and descriptor say the same thing twice, in two languages: the
    compiler checks the program against the types, the library serializes by
    the descriptor. [declare_message] and [declare_service] are what a
    descriptor ([Wire]) has the generator declare, and the theorem is that the
    two modules hold exactly the declarations of their descriptors. *)

From stdpp Require Import strings.
From S2P Require Import Prelude JsText Wire.
#[local] Open Scope string_scope.
#[local] Open Scope list_scope.

(** ** Declarations *)

Inductive ts_type :=
  | TString
  | TNumber
  | TNumberJson (** [number | "NaN" | "Infinity" | "-Infinity"] *)
  | TBigint
  | TBoolean
  | TUint8Array
  | TRef (name : string)
  | TArray (elements : ts_type)
  | TDict (entries : ts_type) (** [{ [key: string]: entries }] *).

#[export] Instance ts_type_eq_dec : EqDecision ts_type.
Proof. solve_decision. Defined.

(** A member of an object type: [name: t], [name?: t], or the union of
    [{ value: t; case: c }] over the cases and
    [{ case: undefined; value?: undefined }]. *)
Inductive ts_member :=
  | Required (name : string) (t : ts_type)
  | Optional (name : string) (t : ts_type)
  | Cases (name : string) (cases : list (string * ts_type)).

(** [type name = { members }], [Message<...> & { members }] for a message. *)
Inductive ts_declaration := TypeDecl (name : string) (members : list ts_member).

(** A file descriptor: the literal and the files it imports, one of the
    library's own by its name. *)
#[warnings="-register-all"]
Inductive GenFile :=
  | fileDesc (literal : string) (imports : list GenFile)
  | wellKnown (name : string).

(** What the module exports for a message: the message type and its JSON
    type, and the schema, the message with an index in a file. *)
Record GenMessage := {
  typeName : string;
  messageType : ts_declaration;
  jsonType : ts_declaration;
  descFile : GenFile;
  descIndex : N
}.

Inductive method_kind := unary | server_streaming | client_streaming | bidi_streaming.

Record GenMethod := {
  localName : string;
  methodKind : method_kind;
  input : GenMessage;
  output : GenMessage
}.

Record GenService := {
  methods : list GenMethod;
  serviceFile : GenFile;
  serviceIndex : N
}.

(** ** [models/collab_pb.ts] *)

Definition file_google_protobuf_timestamp : GenFile := wellKnown "google/protobuf/timestamp.proto".

Definition file_massrelay_v1_models_collab : GenFile :=
  fileDesc "CiBtYXNzcmVsYXkvdjEvbW9kZWxzL2NvbGxhYi5wcm90bxITbWFzc3JlbGF5LnYxLm1vZGVscyLgBQoMQ29sbGFiQWN0aW9uEhEKCWFjdGlvbl9pZBgBIAEoCRIRCgljbGllbnRfaWQYAiABKAkSEQoJdGltZXN0YW1wGAMgASgDEi0KBGpvaW4YCiABKAsyHS5tYXNzcmVsYXkudjEubW9kZWxzLkpvaW5Sb29tSAASLwoFbGVhdmUYCyABKAsyHi5tYXNzcmVsYXkudjEubW9kZWxzLkxlYXZlUm9vbUgAEjcKCHByZXNlbmNlGAwgASgLMiMubWFzc3JlbGF5LnYxLm1vZGVscy5QcmVzZW5jZVVwZGF0ZUgAEjgKDHNjZW5lX3VwZGF0ZRgNIAEoCzIgLm1hc3NyZWxheS52MS5tb2RlbHMuU2NlbmVVcGRhdGVIABI6Cg1jdXJzb3JfdXBkYXRlGA4gASgLMiEubWFzc3JlbGF5LnYxLm1vZGVscy5DdXJzb3JVcGRhdGVIABI2Cgt0ZXh0X3VwZGF0ZRgPIAEoCzIfLm1hc3NyZWxheS52MS5tb2RlbHMuVGV4dFVwZGF0ZUgAEkMKEnNjZW5lX2luaXRfcmVxdWVzdBgQIAEoCzIlLm1hc3NyZWxheS52MS5tb2RlbHMuU2NlbmVJbml0UmVxdWVzdEgAEkUKE3NjZW5lX2luaXRfcmVzcG9uc2UYESABKAsyJi5tYXNzcmVsYXkudjEubW9kZWxzLlNjZW5lSW5pdFJlc3BvbnNlSAASRgoTY3JlZGVudGlhbHNfY2hhbmdlZBgSIAEoCzInLm1hc3NyZWxheS52MS5tb2RlbHMuQ3JlZGVudGlhbHNDaGFuZ2VkSAASOgoNdGl0bGVfY2hhbmdlZBgTIAEoCzIhLm1hc3NyZWxheS52MS5tb2RlbHMuVGl0bGVDaGFuZ2VkSAASNgoLYXBwX21lc3NhZ2UYFCABKAsyHy5tYXNzcmVsYXkudjEubW9kZWxzLkFwcE1lc3NhZ2VIAEIICgZhY3Rpb24i1AIKCEpvaW5Sb29tEhIKCnNlc3Npb25faWQYASABKAkSEAoIdXNlcm5hbWUYAiABKAkSPQoIbWV0YWRhdGEYAyADKAsyKy5tYXNzcmVsYXkudjEubW9kZWxzLkpvaW5Sb29tLk1ldGFkYXRhRW50cnkSEwoLY2xpZW50X3R5cGUYBCABKAkSEgoKYXZhdGFyX3VybBgFIAEoCRIQCghpc19vd25lchgGIAEoCBISCgpicm93c2VyX2lkGAcgASgJEhMKC2NsaWVudF9oaW50GAggASgJEhgKEHByb3RvY29sX3ZlcnNpb24YCSABKAUSEQoJZW5jcnlwdGVkGAogASgIEg0KBXRpdGxlGAsgASgJEhIKCm11c3RfZXhpc3QYDCABKAgaLwoNTWV0YWRhdGFFbnRyeRILCgNrZXkYASABKAkSDQoFdmFsdWUYAiABKAk6AjgBIhsKCUxlYXZlUm9vbRIOCgZyZWFzb24YASABKAkiNQoOUHJlc2VuY2VVcGRhdGUSEQoJaXNfYWN0aXZlGAEgASgIEhAKCHVzZXJuYW1lGAIgASgJIkMKC1NjZW5lVXBkYXRlEjQKCGVsZW1lbnRzGAEgAygLMiIubWFzc3JlbGF5LnYxLm1vZGVscy5FbGVtZW50VXBkYXRlImIKDUVsZW1lbnRVcGRhdGUSCgoCaWQYASABKAkSDwoHdmVyc2lvbhgCIAEoBRIVCg12ZXJzaW9uX25vbmNlGAMgASgFEgwKBGRhdGEYBCABKAkSDwoHZGVsZXRlZBgFIAEoCCLWAQoMQ3Vyc29yVXBkYXRlEgkKAXgYASABKAISCQoBeRgCIAEoAhIMCgR0b29sGAMgASgJEg4KBmJ1dHRvbhgEIAEoCRJXChRzZWxlY3RlZF9lbGVtZW50X2lkcxgFIAMoCzI5Lm1hc3NyZWxheS52MS5tb2RlbHMuQ3Vyc29yVXBkYXRlLlNlbGVjdGVkRWxlbWVudElkc0VudHJ5GjkKF1NlbGVjdGVkRWxlbWVudElkc0VudHJ5EgsKA2tleRgBIAEoCRINCgV2YWx1ZRgCIAEoCDoCOAEiRAoKVGV4dFVwZGF0ZRIMCgR0ZXh0GAEgASgJEg8KB3ZlcnNpb24YAiABKAUSFwoPY3Vyc29yX3Bvc2l0aW9uGAMgASgFIhIKEFNjZW5lSW5pdFJlcXVlc3QiJAoRU2NlbmVJbml0UmVzcG9uc2USDwoHcGF5bG9hZBgBIAEoCSJCCgpBcHBNZXNzYWdlEgwKBGtpbmQYASABKAkSDwoHcGF5bG9hZBgCIAEoDBIVCg10b19jbGllbnRfaWRzGAMgAygJItcHCgtDb2xsYWJFdmVudBIQCghldmVudF9pZBgBIAEoCRIWCg5mcm9tX2NsaWVudF9pZBgCIAEoCRIYChBzZXJ2ZXJfdGltZXN0YW1wGAMgASgDEjYKC3Jvb21fam9pbmVkGAogASgLMh8ubWFzc3JlbGF5LnYxLm1vZGVscy5Sb29tSm9pbmVkSAASNgoLcGVlcl9qb2luZWQYCyABKAsyHy5tYXNzcmVsYXkudjEubW9kZWxzLlBlZXJKb2luZWRIABIyCglwZWVyX2xlZnQYDCABKAsyHS5tYXNzcmVsYXkudjEubW9kZWxzLlBlZXJMZWZ0SAASNwoIcHJlc2VuY2UYDSABKAsyIy5tYXNzcmVsYXkudjEubW9kZWxzLlByZXNlbmNlVXBkYXRlSAASOAoMc2NlbmVfdXBkYXRlGA4gASgLMiAubWFzc3JlbGF5LnYxLm1vZGVscy5TY2VuZVVwZGF0ZUgAEjoKDWN1cnNvcl91cGRhdGUYDyABKAsyIS5tYXNzcmVsYXkudjEubW9kZWxzLkN1cnNvclVwZGF0ZUgAEjYKC3RleHRfdXBkYXRlGBAgASgLMh8ubWFzc3JlbGF5LnYxLm1vZGVscy5UZXh0VXBkYXRlSAASRQoTc2NlbmVfaW5pdF9yZXNwb25zZRgRIAEoCzImLm1hc3NyZWxheS52MS5tb2RlbHMuU2NlbmVJbml0UmVzcG9uc2VIABIwCgVlcnJvchgSIAEoCzIfLm1hc3NyZWxheS52MS5tb2RlbHMuRXJyb3JFdmVudEgAEkMKEnNjZW5lX2luaXRfcmVxdWVzdBgTIAEoCzIlLm1hc3NyZWxheS52MS5tb2RlbHMuU2NlbmVJbml0UmVxdWVzdEgAEjoKDXNlc3Npb25fZW5kZWQYFCABKAsyIS5tYXNzcmVsYXkudjEubW9kZWxzLlNlc3Npb25FbmRlZEgAEjoKDW93bmVyX2NoYW5nZWQYFSABKAsyIS5tYXNzcmVsYXkudjEubW9kZWxzLk93bmVyQ2hhbmdlZEgAEkYKE2NyZWRlbnRpYWxzX2NoYW5nZWQYFiABKAsyJy5tYXNzcmVsYXkudjEubW9kZWxzLkNyZWRlbnRpYWxzQ2hhbmdlZEgAEjoKDXRpdGxlX2NoYW5nZWQYFyABKAsyIS5tYXNzcmVsYXkudjEubW9kZWxzLlRpdGxlQ2hhbmdlZEgAEjYKC2FwcF9tZXNzYWdlGBggASgLMh8ubWFzc3JlbGF5LnYxLm1vZGVscy5BcHBNZXNzYWdlSABCBwoFZXZlbnQi8wIKBFJvb20SEgoKc2Vzc2lvbl9pZBgBIAEoCRIzCgVwZWVycxgCIAMoCzIkLm1hc3NyZWxheS52MS5tb2RlbHMuUm9vbS5QZWVyc0VudHJ5EhcKD293bmVyX2NsaWVudF9pZBgDIAEoCRIuCgpjcmVhdGVkX2F0GAQgASgLMhouZ29vZ2xlLnByb3RvYnVmLlRpbWVzdGFtcBI5CghtZXRhZGF0YRgFIAMoCzInLm1hc3NyZWxheS52MS5tb2RlbHMuUm9vbS5NZXRhZGF0YUVudHJ5EhEKCWVuY3J5cHRlZBgGIAEoCBINCgV0aXRsZRgHIAEoCRpLCgpQZWVyc0VudHJ5EgsKA2tleRgBIAEoCRIsCgV2YWx1ZRgCIAEoCzIdLm1hc3NyZWxheS52MS5tb2RlbHMuUGVlckluZm86AjgBGi8KDU1ldGFkYXRhRW50cnkSCwoDa2V5GAEgASgJEg0KBXZhbHVlGAIgASgJOgI4ASJ1CgpSb29tSm9pbmVkEhEKCWNsaWVudF9pZBgBIAEoCRInCgRyb29tGAIgASgLMhkubWFzc3JlbGF5LnYxLm1vZGVscy5Sb29tEhEKCW1heF9wZWVycxgFIAEoBRIYChBwcm90b2NvbF92ZXJzaW9uGAcgASgFIqICCghQZWVySW5mbxIRCgljbGllbnRfaWQYASABKAkSEAoIdXNlcm5hbWUYAiABKAkSEgoKYXZhdGFyX3VybBgDIAEoCRITCgtjbGllbnRfdHlwZRgEIAEoCRIRCglpc19hY3RpdmUYBSABKAgSEAoIaXNfb3duZXIYBiABKAgSPQoIbWV0YWRhdGEYByADKAsyKy5tYXNzcmVsYXkudjEubW9kZWxzLlBlZXJJbmZvLk1ldGFkYXRhRW50cnkSMwoIaWRlbnRpdHkYCCABKAsyIS5tYXNzcmVsYXkudjEubW9kZWxzLlBlZXJJZGVudGl0eRovCg1NZXRhZGF0YUVudHJ5EgsKA2tleRgBIAEoCRINCgV2YWx1ZRgCIAEoCToCOAEiMgoMUGVlcklkZW50aXR5Eg8KB3N1YmplY3QYASABKAkSEQoJY2xpZW50X2lkGAIgASgJIjkKClBlZXJKb2luZWQSKwoEcGVlchgBIAEoCzIdLm1hc3NyZWxheS52MS5tb2RlbHMuUGVlckluZm8iQQoIUGVlckxlZnQSEQoJY2xpZW50X2lkGAEgASgJEg4KBnJlYXNvbhgCIAEoCRISCgpwZWVyX2NvdW50GAMgASgFIisKCkVycm9yRXZlbnQSDAoEY29kZRgBIAEoCRIPCgdtZXNzYWdlGAIgASgJIh4KDFNlc3Npb25FbmRlZBIOCgZyZWFzb24YASABKAkiKwoMT3duZXJDaGFuZ2VkEhsKE25ld19vd25lcl9jbGllbnRfaWQYASABKAkiJAoSQ3JlZGVudGlhbHNDaGFuZ2VkEg4KBnJlYXNvbhgBIAEoCSIdCgxUaXRsZUNoYW5nZWQSDQoFdGl0bGUYASABKAkiJAoOR2V0Um9vbVJlcXVlc3QSEgoKc2Vzc2lvbl9pZBgBIAEoCSI6Cg9HZXRSb29tUmVzcG9uc2USJwoEcm9vbRgBIAEoCzIZLm1hc3NyZWxheS52MS5tb2RlbHMuUm9vbSISChBMaXN0Um9vbXNSZXF1ZXN0IkQKEUxpc3RSb29tc1Jlc3BvbnNlEi8KBXJvb21zGAEgAygLMiAubWFzc3JlbGF5LnYxLm1vZGVscy5Sb29tU3VtbWFyeSJlCgtSb29tU3VtbWFyeRISCgpzZXNzaW9uX2lkGAEgASgJEhIKCnBlZXJfY291bnQYAiABKAUSLgoKY3JlYXRlZF9hdBgDIAEoCzIaLmdvb2dsZS5wcm90b2J1Zi5UaW1lc3RhbXBCzAEKF2NvbS5tYXNzcmVsYXkudjEubW9kZWxzQgtDb2xsYWJQcm90b1ABWjZnaXRodWIuY29tL3BhbnlhbS9tYXNzcmVsYXkvZ2VuL2dvL21hc3NyZWxheS92MS9tb2RlbHOiAgNNVk2qAhNNYXNzcmVsYXkuVjEuTW9kZWxzygITTWFzc3JlbGF5XFYxXE1vZGVsc+ICH01hc3NyZWxheVxWMVxNb2RlbHNcR1BCTWV0YWRhdGHqAhVNYXNzcmVsYXk6OlYxOjpNb2RlbHNiBnByb3RvMw"
    [file_google_protobuf_timestamp].

Definition CollabActionSchema : GenMessage :=
  {| typeName := "massrelay.v1.models.CollabAction";
     messageType := TypeDecl "CollabAction"
       [Required "actionId" TString;
        Required "clientId" TString;
        Required "timestamp" TBigint;
        Cases "action" [
          ("join", TRef "JoinRoom");
          ("leave", TRef "LeaveRoom");
          ("presence", TRef "PresenceUpdate");
          ("sceneUpdate", TRef "SceneUpdate");
          ("cursorUpdate", TRef "CursorUpdate");
          ("textUpdate", TRef "TextUpdate");
          ("sceneInitRequest", TRef "SceneInitRequest");
          ("sceneInitResponse", TRef "SceneInitResponse");
          ("credentialsChanged", TRef "CredentialsChanged");
          ("titleChanged", TRef "TitleChanged");
          ("appMessage", TRef "AppMessage")]];
     jsonType := TypeDecl "CollabActionJson"
       [Optional "actionId" TString;
        Optional "clientId" TString;
        Optional "timestamp" TString;
        Optional "join" (TRef "JoinRoomJson");
        Optional "leave" (TRef "LeaveRoomJson");
        Optional "presence" (TRef "PresenceUpdateJson");
        Optional "sceneUpdate" (TRef "SceneUpdateJson");
        Optional "cursorUpdate" (TRef "CursorUpdateJson");
        Optional "textUpdate" (TRef "TextUpdateJson");
        Optional "sceneInitRequest" (TRef "SceneInitRequestJson");
        Optional "sceneInitResponse" (TRef "SceneInitResponseJson");
        Optional "credentialsChanged" (TRef "CredentialsChangedJson");
        Optional "titleChanged" (TRef "TitleChangedJson");
        Optional "appMessage" (TRef "AppMessageJson")];
     descFile := file_massrelay_v1_models_collab; descIndex := 0 |}.

Definition JoinRoomSchema : GenMessage :=
  {| typeName := "massrelay.v1.models.JoinRoom";
     messageType := TypeDecl "JoinRoom"
       [Required "sessionId" TString;
        Required "username" TString;
        Required "metadata" (TDict TString);
        Required "clientType" TString;
        Required "avatarUrl" TString;
        Required "isOwner" TBoolean;
        Required "browserId" TString;
        Required "clientHint" TString;
        Required "protocolVersion" TNumber;
        Required "encrypted" TBoolean;
        Required "title" TString;
        Required "mustExist" TBoolean];
     jsonType := TypeDecl "JoinRoomJson"
       [Optional "sessionId" TString;
        Optional "username" TString;
        Optional "metadata" (TDict TString);
        Optional "clientType" TString;
        Optional "avatarUrl" TString;
        Optional "isOwner" TBoolean;
        Optional "browserId" TString;
        Optional "clientHint" TString;
        Optional "protocolVersion" TNumber;
        Optional "encrypted" TBoolean;
        Optional "title" TString;
        Optional "mustExist" TBoolean];
     descFile := file_massrelay_v1_models_collab; descIndex := 1 |}.

Definition LeaveRoomSchema : GenMessage :=
  {| typeName := "massrelay.v1.models.LeaveRoom";
     messageType := TypeDecl "LeaveRoom"
       [Required "reason" TString];
     jsonType := TypeDecl "LeaveRoomJson"
       [Optional "reason" TString];
     descFile := file_massrelay_v1_models_collab; descIndex := 2 |}.

Definition PresenceUpdateSchema : GenMessage :=
  {| typeName := "massrelay.v1.models.PresenceUpdate";
     messageType := TypeDecl "PresenceUpdate"
       [Required "isActive" TBoolean;
        Required "username" TString];
     jsonType := TypeDecl "PresenceUpdateJson"
       [Optional "isActive" TBoolean;
        Optional "username" TString];
     descFile := file_massrelay_v1_models_collab; descIndex := 3 |}.

Definition SceneUpdateSchema : GenMessage :=
  {| typeName := "massrelay.v1.models.SceneUpdate";
     messageType := TypeDecl "SceneUpdate"
       [Required "elements" (TArray (TRef "ElementUpdate"))];
     jsonType := TypeDecl "SceneUpdateJson"
       [Optional "elements" (TArray (TRef "ElementUpdateJson"))];
     descFile := file_massrelay_v1_models_collab; descIndex := 4 |}.

Definition ElementUpdateSchema : GenMessage :=
  {| typeName := "massrelay.v1.models.ElementUpdate";
     messageType := TypeDecl "ElementUpdate"
       [Required "id" TString;
        Required "version" TNumber;
        Required "versionNonce" TNumber;
        Required "data" TString;
        Required "deleted" TBoolean];
     jsonType := TypeDecl "ElementUpdateJson"
       [Optional "id" TString;
        Optional "version" TNumber;
        Optional "versionNonce" TNumber;
        Optional "data" TString;
        Optional "deleted" TBoolean];
     descFile := file_massrelay_v1_models_collab; descIndex := 5 |}.

Definition CursorUpdateSchema : GenMessage :=
  {| typeName := "massrelay.v1.models.CursorUpdate";
     messageType := TypeDecl "CursorUpdate"
       [Required "x" TNumber;
        Required "y" TNumber;
        Required "tool" TString;
        Required "button" TString;
        Required "selectedElementIds" (TDict TBoolean)];
     jsonType := TypeDecl "CursorUpdateJson"
       [Optional "x" TNumberJson;
        Optional "y" TNumberJson;
        Optional "tool" TString;
        Optional "button" TString;
        Optional "selectedElementIds" (TDict TBoolean)];
     descFile := file_massrelay_v1_models_collab; descIndex := 6 |}.

Definition TextUpdateSchema : GenMessage :=
  {| typeName := "massrelay.v1.models.TextUpdate";
     messageType := TypeDecl "TextUpdate"
       [Required "text" TString;
        Required "version" TNumber;
        Required "cursorPosition" TNumber];
     jsonType := TypeDecl "TextUpdateJson"
       [Optional "text" TString;
        Optional "version" TNumber;
        Optional "cursorPosition" TNumber];
     descFile := file_massrelay_v1_models_collab; descIndex := 7 |}.

Definition SceneInitRequestSchema : GenMessage :=
  {| typeName := "massrelay.v1.models.SceneInitRequest";
     messageType := TypeDecl "SceneInitRequest"
       [];
     jsonType := TypeDecl "SceneInitRequestJson"
       [];
     descFile := file_massrelay_v1_models_collab; descIndex := 8 |}.

Definition SceneInitResponseSchema : GenMessage :=
  {| typeName := "massrelay.v1.models.SceneInitResponse";
     messageType := TypeDecl "SceneInitResponse"
       [Required "payload" TString];
     jsonType := TypeDecl "SceneInitResponseJson"
       [Optional "payload" TString];
     descFile := file_massrelay_v1_models_collab; descIndex := 9 |}.

Definition AppMessageSchema : GenMessage :=
  {| typeName := "massrelay.v1.models.AppMessage";
     messageType := TypeDecl "AppMessage"
       [Required "kind" TString;
        Required "payload" TUint8Array;
        Required "toClientIds" (TArray TString)];
     jsonType := TypeDecl "AppMessageJson"
       [Optional "kind" TString;
        Optional "payload" TString;
        Optional "toClientIds" (TArray TString)];
     descFile := file_massrelay_v1_models_collab; descIndex := 10 |}.

Definition CollabEventSchema : GenMessage :=
  {| typeName := "massrelay.v1.models.CollabEvent";
     messageType := TypeDecl "CollabEvent"
       [Required "eventId" TString;
        Required "fromClientId" TString;
        Required "serverTimestamp" TBigint;
        Cases "event" [
          ("roomJoined", TRef "RoomJoined");
          ("peerJoined", TRef "PeerJoined");
          ("peerLeft", TRef "PeerLeft");
          ("presence", TRef "PresenceUpdate");
          ("sceneUpdate", TRef "SceneUpdate");
          ("cursorUpdate", TRef "CursorUpdate");
          ("textUpdate", TRef "TextUpdate");
          ("sceneInitResponse", TRef "SceneInitResponse");
          ("error", TRef "ErrorEvent");
          ("sceneInitRequest", TRef "SceneInitRequest");
          ("sessionEnded", TRef "SessionEnded");
          ("ownerChanged", TRef "OwnerChanged");
          ("credentialsChanged", TRef "CredentialsChanged");
          ("titleChanged", TRef "TitleChanged");
          ("appMessage", TRef "AppMessage")]];
     jsonType := TypeDecl "CollabEventJson"
       [Optional "eventId" TString;
        Optional "fromClientId" TString;
        Optional "serverTimestamp" TString;
        Optional "roomJoined" (TRef "RoomJoinedJson");
        Optional "peerJoined" (TRef "PeerJoinedJson");
        Optional "peerLeft" (TRef "PeerLeftJson");
        Optional "presence" (TRef "PresenceUpdateJson");
        Optional "sceneUpdate" (TRef "SceneUpdateJson");
        Optional "cursorUpdate" (TRef "CursorUpdateJson");
        Optional "textUpdate" (TRef "TextUpdateJson");
        Optional "sceneInitResponse" (TRef "SceneInitResponseJson");
        Optional "error" (TRef "ErrorEventJson");
        Optional "sceneInitRequest" (TRef "SceneInitRequestJson");
        Optional "sessionEnded" (TRef "SessionEndedJson");
        Optional "ownerChanged" (TRef "OwnerChangedJson");
        Optional "credentialsChanged" (TRef "CredentialsChangedJson");
        Optional "titleChanged" (TRef "TitleChangedJson");
        Optional "appMessage" (TRef "AppMessageJson")];
     descFile := file_massrelay_v1_models_collab; descIndex := 11 |}.

Definition RoomSchema : GenMessage :=
  {| typeName := "massrelay.v1.models.Room";
     messageType := TypeDecl "Room"
       [Required "sessionId" TString;
        Required "peers" (TDict (TRef "PeerInfo"));
        Required "ownerClientId" TString;
        Optional "createdAt" (TRef "Timestamp");
        Required "metadata" (TDict TString);
        Required "encrypted" TBoolean;
        Required "title" TString];
     jsonType := TypeDecl "RoomJson"
       [Optional "sessionId" TString;
        Optional "peers" (TDict (TRef "PeerInfoJson"));
        Optional "ownerClientId" TString;
        Optional "createdAt" (TRef "TimestampJson");
        Optional "metadata" (TDict TString);
        Optional "encrypted" TBoolean;
        Optional "title" TString];
     descFile := file_massrelay_v1_models_collab; descIndex := 12 |}.

Definition RoomJoinedSchema : GenMessage :=
  {| typeName := "massrelay.v1.models.RoomJoined";
     messageType := TypeDecl "RoomJoined"
       [Required "clientId" TString;
        Optional "room" (TRef "Room");
        Required "maxPeers" TNumber;
        Required "protocolVersion" TNumber];
     jsonType := TypeDecl "RoomJoinedJson"
       [Optional "clientId" TString;
        Optional "room" (TRef "RoomJson");
        Optional "maxPeers" TNumber;
        Optional "protocolVersion" TNumber];
     descFile := file_massrelay_v1_models_collab; descIndex := 13 |}.

Definition PeerInfoSchema : GenMessage :=
  {| typeName := "massrelay.v1.models.PeerInfo";
     messageType := TypeDecl "PeerInfo"
       [Required "clientId" TString;
        Required "username" TString;
        Required "avatarUrl" TString;
        Required "clientType" TString;
        Required "isActive" TBoolean;
        Required "isOwner" TBoolean;
        Required "metadata" (TDict TString);
        Optional "identity" (TRef "PeerIdentity")];
     jsonType := TypeDecl "PeerInfoJson"
       [Optional "clientId" TString;
        Optional "username" TString;
        Optional "avatarUrl" TString;
        Optional "clientType" TString;
        Optional "isActive" TBoolean;
        Optional "isOwner" TBoolean;
        Optional "metadata" (TDict TString);
        Optional "identity" (TRef "PeerIdentityJson")];
     descFile := file_massrelay_v1_models_collab; descIndex := 14 |}.

Definition PeerIdentitySchema : GenMessage :=
  {| typeName := "massrelay.v1.models.PeerIdentity";
     messageType := TypeDecl "PeerIdentity"
       [Required "subject" TString;
        Required "clientId" TString];
     jsonType := TypeDecl "PeerIdentityJson"
       [Optional "subject" TString;
        Optional "clientId" TString];
     descFile := file_massrelay_v1_models_collab; descIndex := 15 |}.

Definition PeerJoinedSchema : GenMessage :=
  {| typeName := "massrelay.v1.models.PeerJoined";
     messageType := TypeDecl "PeerJoined"
       [Optional "peer" (TRef "PeerInfo")];
     jsonType := TypeDecl "PeerJoinedJson"
       [Optional "peer" (TRef "PeerInfoJson")];
     descFile := file_massrelay_v1_models_collab; descIndex := 16 |}.

Definition PeerLeftSchema : GenMessage :=
  {| typeName := "massrelay.v1.models.PeerLeft";
     messageType := TypeDecl "PeerLeft"
       [Required "clientId" TString;
        Required "reason" TString;
        Required "peerCount" TNumber];
     jsonType := TypeDecl "PeerLeftJson"
       [Optional "clientId" TString;
        Optional "reason" TString;
        Optional "peerCount" TNumber];
     descFile := file_massrelay_v1_models_collab; descIndex := 17 |}.

Definition ErrorEventSchema : GenMessage :=
  {| typeName := "massrelay.v1.models.ErrorEvent";
     messageType := TypeDecl "ErrorEvent"
       [Required "code" TString;
        Required "message" TString];
     jsonType := TypeDecl "ErrorEventJson"
       [Optional "code" TString;
        Optional "message" TString];
     descFile := file_massrelay_v1_models_collab; descIndex := 18 |}.

Definition SessionEndedSchema : GenMessage :=
  {| typeName := "massrelay.v1.models.SessionEnded";
     messageType := TypeDecl "SessionEnded"
       [Required "reason" TString];
     jsonType := TypeDecl "SessionEndedJson"
       [Optional "reason" TString];
     descFile := file_massrelay_v1_models_collab; descIndex := 19 |}.

Definition OwnerChangedSchema : GenMessage :=
  {| typeName := "massrelay.v1.models.OwnerChanged";
     messageType := TypeDecl "OwnerChanged"
       [Required "newOwnerClientId" TString];
     jsonType := TypeDecl "OwnerChangedJson"
       [Optional "newOwnerClientId" TString];
     descFile := file_massrelay_v1_models_collab; descIndex := 20 |}.

Definition CredentialsChangedSchema : GenMessage :=
  {| typeName := "massrelay.v1.models.CredentialsChanged";
     messageType := TypeDecl "CredentialsChanged"
       [Required "reason" TString];
     jsonType := TypeDecl "CredentialsChangedJson"
       [Optional "reason" TString];
     descFile := file_massrelay_v1_models_collab; descIndex := 21 |}.

Definition TitleChangedSchema : GenMessage :=
  {| typeName := "massrelay.v1.models.TitleChanged";
     messageType := TypeDecl "TitleChanged"
       [Required "title" TString];
     jsonType := TypeDecl "TitleChangedJson"
       [Optional "title" TString];
     descFile := file_massrelay_v1_models_collab; descIndex := 22 |}.

Definition GetRoomRequestSchema : GenMessage :=
  {| typeName := "massrelay.v1.models.GetRoomRequest";
     messageType := TypeDecl "GetRoomRequest"
       [Required "sessionId" TString];
     jsonType := TypeDecl "GetRoomRequestJson"
       [Optional "sessionId" TString];
     descFile := file_massrelay_v1_models_collab; descIndex := 23 |}.

Definition GetRoomResponseSchema : GenMessage :=
  {| typeName := "massrelay.v1.models.GetRoomResponse";
     messageType := TypeDecl "GetRoomResponse"
       [Optional "room" (TRef "Room")];
     jsonType := TypeDecl "GetRoomResponseJson"
       [Optional "room" (TRef "RoomJson")];
     descFile := file_massrelay_v1_models_collab; descIndex := 24 |}.

Definition ListRoomsRequestSchema : GenMessage :=
  {| typeName := "massrelay.v1.models.ListRoomsRequest";
     messageType := TypeDecl "ListRoomsRequest"
       [];
     jsonType := TypeDecl "ListRoomsRequestJson"
       [];
     descFile := file_massrelay_v1_models_collab; descIndex := 25 |}.

Definition ListRoomsResponseSchema : GenMessage :=
  {| typeName := "massrelay.v1.models.ListRoomsResponse";
     messageType := TypeDecl "ListRoomsResponse"
       [Required "rooms" (TArray (TRef "RoomSummary"))];
     jsonType := TypeDecl "ListRoomsResponseJson"
       [Optional "rooms" (TArray (TRef "RoomSummaryJson"))];
     descFile := file_massrelay_v1_models_collab; descIndex := 26 |}.

Definition RoomSummarySchema : GenMessage :=
  {| typeName := "massrelay.v1.models.RoomSummary";
     messageType := TypeDecl "RoomSummary"
       [Required "sessionId" TString;
        Required "peerCount" TNumber;
        Optional "createdAt" (TRef "Timestamp")];
     jsonType := TypeDecl "RoomSummaryJson"
       [Optional "sessionId" TString;
        Optional "peerCount" TNumber;
        Optional "createdAt" (TRef "TimestampJson")];
     descFile := file_massrelay_v1_models_collab; descIndex := 27 |}.

(** The schemas, in the order of the module. *)
Definition generated_messages : list GenMessage :=
  [CollabActionSchema;
   JoinRoomSchema;
   LeaveRoomSchema;
   PresenceUpdateSchema;
   SceneUpdateSchema;
   ElementUpdateSchema;
   CursorUpdateSchema;
   TextUpdateSchema;
   SceneInitRequestSchema;
   SceneInitResponseSchema;
   AppMessageSchema;
   CollabEventSchema;
   RoomSchema;
   RoomJoinedSchema;
   PeerInfoSchema;
   PeerIdentitySchema;
   PeerJoinedSchema;
   PeerLeftSchema;
   ErrorEventSchema;
   SessionEndedSchema;
   OwnerChangedSchema;
   CredentialsChangedSchema;
   TitleChangedSchema;
   GetRoomRequestSchema;
   GetRoomResponseSchema;
   ListRoomsRequestSchema;
   ListRoomsResponseSchema;
   RoomSummarySchema].

(** ** [services/collab_pb.ts] *)

Definition file_massrelay_v1_services_collab : GenFile :=
  fileDesc "CiJtYXNzcmVsYXkvdjEvc2VydmljZXMvY29sbGFiLnByb3RvEhVtYXNzcmVsYXkudjEuc2VydmljZXMykgIKDUNvbGxhYlNlcnZpY2USTwoEU3luYxIhLm1hc3NyZWxheS52MS5tb2RlbHMuQ29sbGFiQWN0aW9uGiAubWFzc3JlbGF5LnYxLm1vZGVscy5Db2xsYWJFdmVudCgBMAESVAoHR2V0Um9vbRIjLm1hc3NyZWxheS52MS5tb2RlbHMuR2V0Um9vbVJlcXVlc3QaJC5tYXNzcmVsYXkudjEubW9kZWxzLkdldFJvb21SZXNwb25zZRJaCglMaXN0Um9vbXMSJS5tYXNzcmVsYXkudjEubW9kZWxzLkxpc3RSb29tc1JlcXVlc3QaJi5tYXNzcmVsYXkudjEubW9kZWxzLkxpc3RSb29tc1Jlc3BvbnNlQtgBChljb20ubWFzc3JlbGF5LnYxLnNlcnZpY2VzQgtDb2xsYWJQcm90b1ABWjhnaXRodWIuY29tL3BhbnlhbS9tYXNzcmVsYXkvZ2VuL2dvL21hc3NyZWxheS92MS9zZXJ2aWNlc6ICA01WU6oCFU1hc3NyZWxheS5WMS5TZXJ2aWNlc8oCFU1hc3NyZWxheVxWMVxTZXJ2aWNlc+ICIU1hc3NyZWxheVxWMVxTZXJ2aWNlc1xHUEJNZXRhZGF0YeoCF01hc3NyZWxheTo6VjE6OlNlcnZpY2VzYgZwcm90bzM"
    [file_massrelay_v1_models_collab].

Definition CollabService : GenService :=
  {| methods :=
       [{| localName := "sync"; methodKind := bidi_streaming;
           input := CollabActionSchema; output := CollabEventSchema |};
        {| localName := "getRoom"; methodKind := unary;
           input := GetRoomRequestSchema; output := GetRoomResponseSchema |};
        {| localName := "listRooms"; methodKind := unary;
           input := ListRoomsRequestSchema; output := ListRoomsResponseSchema |}];
     serviceFile := file_massrelay_v1_services_collab;
     serviceIndex := 0 |}.

(** ** What a descriptor declares

    The mapping of protobuf to TypeScript that the generator documents:
    scalars by their kind, 64-bit integers as [bigint] (as strings in JSON),
    [bytes] as [Uint8Array] (base64 in JSON), [repeated] as an array, a [map]
    with string keys as an object, a [oneof] as a union of its cases (as
    separate members in JSON), a member of message type optional, every JSON
    member optional, names in lower camel case. *)

Definition underscore : Ascii.ascii := Ascii.ascii_of_N 95.

Definition upper (c : Ascii.ascii) : Ascii.ascii :=
  let n := Ascii.N_of_ascii c in
  if ((97 <=? n) && (n <=? 122))%N then Ascii.ascii_of_N (n - 32) else c.

Definition lower (c : Ascii.ascii) : Ascii.ascii :=
  let n := Ascii.N_of_ascii c in
  if ((65 <=? n) && (n <=? 90))%N then Ascii.ascii_of_N (n + 32) else c.

Fixpoint camel_from (capital : bool) (s : string) : string :=
  match s with
  | "" => ""
  | String.String c s' =>
      if bool_decide (c = underscore) then camel_from true s'
      else String.String (if capital then upper c else c) (camel_from false s')
  end.

Definition camel (s : string) : string := camel_from false s.

Definition uncapitalized (s : string) : string :=
  match s with "" => "" | String.String c s' => String.String (lower c) s' end.

Fixpoint strip_prefix (p s : string) : option string :=
  match p, s with
  | "", _ => Some s
  | String.String a p', String.String b s' => if bool_decide (a = b) then strip_prefix p' s' else None
  | _, _ => None
  end.

(** The kinds of a field ([FieldDescriptorProto.Type]). *)
Definition scalar_type (kind : N) : option ts_type :=
  if bool_decide (kind ∈ [1; 2; 5; 7; 13; 15; 17])%N then Some TNumber
  else if bool_decide (kind ∈ [3; 4; 6; 16; 18])%N then Some TBigint
  else if bool_decide (kind = 8)%N then Some TBoolean
  else if bool_decide (kind = 9)%N then Some TString
  else if bool_decide (kind = 12)%N then Some TUint8Array
  else None.

Definition json_scalar_type (kind : N) : option ts_type :=
  if bool_decide (kind ∈ [1; 2])%N then Some TNumberJson
  else if bool_decide (kind ∈ [5; 7; 13; 15; 17])%N then Some TNumber
  else if bool_decide (kind ∈ [3; 4; 6; 16; 18; 9; 12])%N then Some TString
  else if bool_decide (kind = 8)%N then Some TBoolean
  else None.

Definition is_message (f : FieldDescriptorProto) : bool := bool_decide (field_type f = 11)%N.
Definition is_repeated (f : FieldDescriptorProto) : bool := bool_decide (field_label f = 3)%N.

Section declarations.
(** The package of the file and the packages it imports. *)
Variables (package : string) (imported : list string).

(** A fully qualified name, as the module that declares or imports the type
    knows it. *)
Definition local_type (q : string) : option string :=
  head (omap (λ p, strip_prefix ("." +:+ p +:+ ".") q) (package :: imported)).

Section message.
Variables (m : DescriptorProto).

(** The entry type of a [map] field. *)
Definition entry_type (f : FieldDescriptorProto) : option NestedProto :=
  if is_message f then
    find (λ e, map_entry e && bool_decide
            (field_type_name f = "." +:+ package +:+ "." +:+ message_name m +:+ "." +:+ nested_name e))
         (nested_types m)
  else None.

Definition value_type (json : bool) (f : FieldDescriptorProto) : option ts_type :=
  if is_message f then
    n ← local_type (field_type_name f); Some (TRef (if json then n +:+ "Json" else n))
  else if json then json_scalar_type (field_type f) else scalar_type (field_type f).

(** The entries of a map with string keys. *)
Definition dict_type (json : bool) (e : NestedProto) : option ts_type :=
  match nested_fields e with
  | [k; v] =>
      if bool_decide (field_type k = 9%N ∧ field_number k = 1%N ∧ field_number v = 2%N)
      then TDict <$> value_type json v else None
  | _ => None
  end.

Definition declared_type (json : bool) (f : FieldDescriptorProto) : option ts_type :=
  match entry_type f with
  | Some e => if is_repeated f then dict_type json e else None
  | None => (if is_repeated f then TArray else id) <$> value_type json f
  end.

Definition plain_member (f : FieldDescriptorProto) : option ts_member :=
  t ← declared_type false f;
  Some ((if is_message f && negb (is_repeated f) then Optional else Required) (camel (field_name f)) t).

Definition case_of (f : FieldDescriptorProto) : option (string * ts_type) :=
  t ← declared_type false f; Some (camel (field_name f), t).

Definition union_member (i : N) : option ts_member :=
  name ← oneof_decls m !! N.to_nat i;
  cases ← mapM case_of (filter (λ f, field_oneof_index f = Some i) (message_fields m));
  Some (Cases (camel name) cases).

(** A [oneof] stands where its first field does. *)
Fixpoint members_from (seen : list N) (fs : list FieldDescriptorProto) : option (list ts_member) :=
  match fs with
  | [] => Some []
  | f :: fs' =>
      match field_oneof_index f with
      | None => a ← plain_member f; r ← members_from seen fs'; Some (a :: r)
      | Some i =>
          if bool_decide (i ∈ seen) then members_from seen fs'
          else a ← union_member i; r ← members_from (i :: seen) fs'; Some (a :: r)
      end
  end.

Definition json_member (f : FieldDescriptorProto) : option ts_member :=
  t ← declared_type true f; Some (Optional (camel (field_name f)) t).

Definition declare_message (file : GenFile) (i : N) : option GenMessage :=
  members ← members_from [] (message_fields m);
  json_members ← mapM json_member (message_fields m);
  Some {| typeName := package +:+ "." +:+ message_name m;
          messageType := TypeDecl (message_name m) members;
          jsonType := TypeDecl (message_name m +:+ "Json") json_members;
          descFile := file; descIndex := i |}.
End message.

Definition kind_of (d : MethodDescriptorProto) : method_kind :=
  match streams_in d, streams_out d with
  | false, false => unary
  | false, true => server_streaming
  | true, false => client_streaming
  | true, true => bidi_streaming
  end.

(** The message of a fully qualified name. *)
Definition schema_of (schemas : list GenMessage) (q : string) : option GenMessage :=
  find (λ s, bool_decide ("." +:+ typeName s = q)) schemas.

Definition declare_method (schemas : list GenMessage) (d : MethodDescriptorProto) : option GenMethod :=
  i ← schema_of schemas (input_type d); o ← schema_of schemas (output_type d);
  Some {| localName := uncapitalized (method_name d); methodKind := kind_of d; input := i; output := o |}.

Definition declare_service (schemas : list GenMessage) (file : GenFile) (i : N)
    (d : ServiceDescriptorProto) : option GenService :=
  ms ← mapM (declare_method schemas) (service_methods d);
  Some {| methods := ms; serviceFile := file; serviceIndex := i |}.
End declarations.

(** The descriptor a file's literal encodes. *)
Definition descriptor (file : GenFile) : option FileDescriptorProto :=
  match file with
  | fileDesc literal _ => bytes ← atob (js literal); read_FileDescriptorProto bytes
  | wellKnown _ => None
  end.

Definition indexed {A} (l : list A) : list (N * A) := imap (λ i a, (N.of_nat i, a)) l.

(** The declarations of a proto3 file, by the package it is in, given the packages
    it imports and their schemas. *)
Definition declarations (imported : list string) (schemas : list GenMessage) (file : GenFile) :
    option (string * list GenMessage * list GenService) :=
  d ← descriptor file;
  guard (file_syntax d = "proto3");;
  ms ← mapM (λ '(i, m), declare_message (file_package d) imported m file i) (indexed (file_messages d));
  ss ← mapM (λ '(i, s), declare_service (schemas ++ ms) file i s) (indexed (file_services d));
  Some (file_package d, ms, ss).

(** The type names a declaration uses. *)
Fixpoint references (t : ts_type) : list string :=
  match t with
  | TRef n => [n]
  | TArray t' | TDict t' => references t'
  | _ => []
  end.

Definition member_references (m : ts_member) : list string :=
  match m with
  | Required _ t | Optional _ t => references t
  | Cases _ cs => cs ≫= (λ c, references c.2)
  end.

Definition declared_name (d : ts_declaration) : string := let '(TypeDecl n _) := d in n.

Definition declaration_references (d : ts_declaration) : list string :=
  let '(TypeDecl _ ms) := d in ms ≫= member_references.

Definition exported_types (gs : list GenMessage) : list ts_declaration :=
  (messageType <$> gs) ++ (jsonType <$> gs).

