(* ===== verification/CollabClient.v ===== *)
(** * The relay client ([ts/src/CollabClient.ts])

    The client's fields, its public operations and its event handlers, as
    programs over a [World]: the client, the page's environment it acts on
    (sockets, timers, pending promises, page listeners), the application that
    receives its callbacks, and the log of what it did, latest first.

    [options.onX] is [call (OnX ...)], which logs the callback and runs the
    application's [cb]. The application's own state has type [H], so the same
    client runs under a passive observer or under [CollabEngine]. *)

From S2P Require Import Prelude JsText JsMap UrlParams Models.
Open Scope Z_scope.

(** ** Data *)

(** The non-callback options. [getToken] says whether the option is set. *)
Record CollabClientOptions := mkOptions {
  reconnect : option bool;
  opt_maxRetries : option Z;
  retryDelayMs : option Z;
  token : option jsstr;
  getToken : bool
}.

Definition default_options : CollabClientOptions := mkOptions None None None None false.

(** The callbacks of [CollabClientOptions], with their arguments. *)
Inductive Callback :=
  | OnEvent (event : CollabEvent)
  | OnPeerJoined (peer : PeerInfoJson)
  | OnPeerLeft (clientId : jsstr)
  | OnError (message : jsstr)
  | OnConnect (clientId : jsstr)
  | OnDisconnect
  | OnSessionEnded (reason : jsstr)
  | OnOwnerChanged (newOwnerClientId : jsstr)
  | OnCredentialsChanged (reason : jsstr)
  | OnTitleChanged (title : jsstr)
  | OnAppMessage (kind : jsstr) (payload : list N) (fromClientId toClientId : jsstr)
  | OnErrorEvent (code message : jsstr)
  | OnReconnecting (attempt : Z).

Record CollabClient := mkClient {
  grpc : option nat;
  _clientId : jsstr;
  _isConnected : bool;
  _isConnecting : bool;
  _isOwner : bool;
  _browserId : jsstr;
  _clientHint : jsstr;
  _relayUrl : jsstr;
  _sessionId : jsstr;
  _username : jsstr;
  _metadata : list (jsstr * jsstr);
  _title : jsstr;
  _encrypted : bool;
  _maxPeers : Z;
  _roomEncrypted : bool;
  peers : jsmap jsstr PeerInfoJson;
  options : CollabClientOptions;
  retryCount : Z;
  retryTimer : option nat;
  explicitDisconnect : bool;
  hasJoined : bool;
  joinAsOwner : bool;
  maxRetries : Z;
  boundBeforeUnload : option nat
}.

#[export] Instance eta_CollabClient : Eta CollabClient := λ c,
  mkClient (grpc c) (_clientId c) (_isConnected c) (_isConnecting c) (_isOwner c)
    (_browserId c) (_clientHint c) (_relayUrl c) (_sessionId c) (_username c) (_metadata c)
    (_title c) (_encrypted c) (_maxPeers c) (_roomEncrypted c) (peers c) (options c)
    (retryCount c) (retryTimer c) (explicitDisconnect c) (hasJoined c) (joinAsOwner c)
    (maxRetries c) (boundBeforeUnload c).

(** [new CollabClient(options)]. *)
Definition new_client (o : CollabClientOptions) : CollabClient :=
  mkClient None [] false false false [] [] [] [] [] [] [] false 0 false [] o
    0 None false false false (default 5 (opt_maxRetries o)) None.

(** The arguments of [connect], and their defaults. *)
Record ConnectArgs := mkConnectArgs {
  arg_relayUrl : jsstr;
  arg_sessionId : jsstr;
  arg_username : jsstr;
  arg_metadata : list (jsstr * jsstr);
  arg_isOwner : bool;
  arg_browserId : jsstr;
  arg_clientHint : jsstr;
  arg_encrypted : bool;
  arg_title : jsstr
}.

Definition connect_args (relayUrl sessionId username : jsstr) (metadata : list (jsstr * jsstr)) : ConnectArgs :=
  mkConnectArgs relayUrl sessionId username metadata false [] [] false [].

(** ** The environment *)

(** A socket the client made: its connection attempt pending, open (and
    whether the relay's [roomJoined] came over it), or closed. *)
Inductive SockStatus :=
  | Connecting
  | Open (joined : bool)
  | Closed.

#[export] Instance SockStatus_eq_dec : EqDecision SockStatus.
Proof. solve_decision. Defined.

Inductive Effect :=
  | ENewSocket (s : nat) (url : jsstr)
  | ESend (s : nat) (action : CollabActionJson)
  | EClose (s : nat)
  | ESetTimeout (t : nat) (delay : Z)
  | EClearTimeout (t : nat)
  | EGetToken
  | EFetch (url : jsstr)
  | EAddListener (l : nat)
  | ERemoveListener (l : nat).

Inductive Entry :=
  | Cb (c : Callback)
  | Eff (e : Effect).

(** [joinTurns]: sockets whose [connect(url).then(...)] continuation is still
    to run. [tokenCalls] and [tokenWaits]: [getToken] chains before and after
    [getToken] is called. [fetches]: room checks in flight. *)
Record Env := mkEnv {
  sockets : gmap nat SockStatus;
  joinTurns : gset nat;
  timers : gset nat;
  tokenCalls : nat;
  tokenWaits : nat;
  fetches : nat;
  unloadListeners : list nat;
  nextId : nat
}.

#[export] Instance eta_Env : Eta Env := λ e,
  mkEnv (sockets e) (joinTurns e) (timers e) (tokenCalls e) (tokenWaits e) (fetches e)
    (unloadListeners e) (nextId e).

Record World (H : Type) := mkWorld {
  client : CollabClient;
  env : Env;
  app : H;
  log : list Entry
}.
Arguments mkWorld {H}.
Arguments client {H}.
Arguments env {H}.
Arguments app {H}.
Arguments log {H}.

#[export] Instance eta_World H : Eta (World H) := λ w, mkWorld (client w) (env w) (app w) (log w).

(** What the client uses of code outside the repository: the page it runs in
    ([Some None] is a [window] without a [location]), [base64Encode] of
    protobuf-es, and when [GRPCWSClient.send] throws. *)
Class Platform := {
  window : option (option Location);
  base64Encode : list N → jsstr;
  grpc_send_error : SockStatus → CollabActionJson → option jserror
}.

(** ** Operations *)

Section client.
Context `{P : Platform} {H : Type}.
(** The application: what its handler of a callback does. *)
Context (cb : Callback → M (World H) unit).

Abbreviation C := (M (World H)).

Definition get : C CollabClient := gets client.
Definition modc (f : CollabClient → CollabClient) : C unit :=
  modify (λ w, w <| client := f (client w) |>).
Definition mode (f : Env → Env) : C unit := modify (λ w, w <| env := f (env w) |>).
Definition record (x : Entry) : C unit := modify (λ w, w <| log := x :: log w |>).

(** [this.options.onX?.(...)]. *)
Definition call (c : Callback) : C unit := record (Cb c) ;; cb c.

Definition fresh : C nat :=
  e ← gets env; mode (λ e, e <| nextId := S (nextId e) |>) ;; mret (nextId e).

(** *** The platform's operations *)

(** [_grpcFactory()] or [new GRPCWSClient()], and its [connect(url)]. *)
Definition new_socket (url : jsstr) : C nat :=
  s ← fresh;
  mode (λ e, e <| sockets := <[ s := Connecting ]> (sockets e) |>) ;;
  record (Eff (ENewSocket s url)) ;; mret s.

Definition socket_send (s : nat) (action : CollabActionJson) : C unit :=
  e ← gets env;
  match grpc_send_error (default Closed (sockets e !! s)) action with
  | Some err => throw err
  | None => record (Eff (ESend s action))
  end.

Definition socket_close (s : nat) : C unit :=
  mode (λ e, e <| sockets := <[ s := Closed ]> (sockets e) |>) ;; record (Eff (EClose s)).

Definition set_timeout (delay : Z) : C nat :=
  t ← fresh;
  mode (λ e, e <| timers := {[ t ]} ∪ timers e |>) ;;
  record (Eff (ESetTimeout t delay)) ;; mret t.

Definition clear_timeout (t : nat) : C unit :=
  mode (λ e, e <| timers := timers e ∖ {[ t ]} |>) ;; record (Eff (EClearTimeout t)).

(** *** Small helpers of the class *)

(** [s.replace(/^ws/i, 'http')]. *)
Definition ws_to_http (s : jsstr) : jsstr :=
  if starts_with_i (js "ws") s then js "http" ++ drop 2 s else s.

Definition resolved_url (c : CollabClient) : jsstr := resolveRelayUrl (mjoin window) (_relayUrl c).

Definition reconnectEnabled (c : CollabClient) : bool := default true (reconnect (options c)).

Definition resetState : C unit :=
  modc (λ c, c <| _isConnected := false |> <| _isConnecting := false |> <| _clientId := [] |>
               <| _isOwner := false |> <| peers := [] |> <| grpc := None |>).

Definition addPeer (peer : PeerInfoJson) : C unit :=
  match PeerInfoJson_clientId peer with
  | Some id => when (truthy id) (modc (λ c, c <| peers := map_set id peer (peers c) |>))
  | None => mret tt
  end ;;
  call (OnPeerJoined peer).

Definition peerToJson (peer : PeerInfo) : PeerInfoJson :=
  mkPeerInfoJson (Some (PeerInfo_clientId peer)) (Some (PeerInfo_username peer))
    (Some (PeerInfo_avatarUrl peer)) (Some (PeerInfo_clientType peer))
    (Some (PeerInfo_isActive peer)) (Some (PeerInfo_isOwner peer))
    (Some (PeerInfo_metadata peer))
    (match PeerInfo_identity peer with
     | Some i => Some (mkPeerIdentityJson (Some (PeerIdentity_subject i)) (Some (PeerIdentity_clientId i)))
     | None => None
     end).

(** The entry for this client itself in its own roster. *)
Definition selfPeer (c : CollabClient) : PeerInfoJson :=
  mkPeerInfoJson (Some (_clientId c)) (Some (_username c)) (Some []) (Some (js "browser"))
    (Some true) None (Some (_metadata c)) None.

Definition endSession (reason : jsstr) : C unit :=
  modc (λ c, c <| explicitDisconnect := true |> <| _isConnecting := false |>) ;;
  call (OnSessionEnded reason).

Definition closeFromRelay : C unit :=
  c ← get;
  modc (λ c, c <| explicitDisconnect := true |>) ;;
  resetState ;;
  match grpc c with Some s => socket_close s | None => mret tt end ;;
  when (_isConnected c) (call OnDisconnect).

Definition reconnect_delay (c : CollabClient) (attempt : Z) : Z :=
  Z.min (default 1000 (retryDelayMs (options c)) * 2 ^ (attempt - 1)) 30000.

Definition scheduleReconnect : C unit :=
  c ← get;
  if maxRetries c <=? retryCount c then endSession (js "reconnect_failed")
  else
    let attempt := retryCount c + 1 in
    modc (λ c, c <| retryCount := attempt |> <| _isConnecting := true |>) ;;
    call (OnReconnecting attempt) ;;
    c ← get;
    t ← set_timeout (reconnect_delay c attempt);
    modc (λ c, c <| retryTimer := Some t |>).

Definition dropAndReconnect : C unit :=
  c ← get;
  resetState ;;
  match grpc c with Some s => socket_close s | None => mret tt end ;;
  when (_isConnected c) (call OnDisconnect) ;;
  scheduleReconnect.

Definition handleConnectionClosed : C unit :=
  c ← get;
  resetState ;;
  when (_isConnected c) (call OnDisconnect) ;;
  c ← get;
  when (negb (explicitDisconnect c) && hasJoined c && reconnectEnabled c) scheduleReconnect.

(** *** Opening a connection *)

Definition sync_url (c : CollabClient) (tok : option jsstr) : option jsstr :=
  let wsSessionId := str_or (_sessionId c) (js "_new") in
  match encodeURIComponent wsSessionId with
  | None => None
  | Some enc =>
      let url := resolved_url c ++ js "/ws/v1/" ++ enc ++ js "/sync" in
      match tok with
      | Some t =>
          if truthy t then (λ e, url ++ js "?token=" ++ e) <$> encodeURIComponent t
          else Some url
      | None => Some url
      end
  end.

Definition openWebSocket (tok : option jsstr) : C unit :=
  c ← get;
  url ← or_throw (sync_url c tok) URIError;
  s ← new_socket url;
  modc (λ c, c <| grpc := Some s |>).

Definition openWithToken : C unit :=
  c ← get;
  if getToken (options c) then mode (λ e, e <| tokenCalls := S (tokenCalls e) |>)
  else openWebSocket (token (options c)).

(** The continuations of [Promise.resolve().then(getToken).then(...)]. *)
Definition tokenFulfilled (tok : jsstr) : C unit :=
  c ← get; when (negb (explicitDisconnect c)) (openWebSocket (Some tok)).

Definition tokenRejected (message : jsstr) : C unit :=
  call (OnError message) ;;
  c ← get;
  if explicitDisconnect c then mret tt
  else if hasJoined c then scheduleReconnect
  else modc (λ c, c <| _isConnecting := false |>).

Definition joinAction (c : CollabClient) : CollabActionJson :=
  emptyCollabActionJson <| CollabActionJson_join := Some
    (mkJoinRoomJson (Some (_sessionId c)) (Some (_username c)) (Some (_metadata c))
      (Some (js "browser")) None (Some (joinAsOwner c)) (Some (_browserId c))
      (Some (_clientHint c)) (Some 2) (Some (_encrypted c)) (Some (_title c))
      (Some (hasJoined c))) |>.

(** The continuation of [grpc.connect(url)]: its exceptions are swallowed. *)
Definition connectResolved : C unit :=
  swallow (c ← get;
           match grpc c with Some s => socket_send s (joinAction c) | None => mret tt end).

(** *** Public operations *)

(** The fields a [connect] sets. *)
Definition start_connect (a : ConnectArgs) (rnd : jsstr) (c : CollabClient) : CollabClient :=
  c <| _relayUrl := arg_relayUrl a |>
    <| _sessionId := arg_sessionId a |>
    <| _username := str_or (arg_username a) (js "Anon-" ++ rnd) |>
    <| _metadata := arg_metadata a |>
    <| _title := arg_title a |>
    <| _isOwner := arg_isOwner a |>
    <| joinAsOwner := arg_isOwner a |>
    <| _browserId := arg_browserId a |>
    <| _clientHint := arg_clientHint a |>
    <| _encrypted := arg_encrypted a |>
    <| _isConnecting := true |>
    <| explicitDisconnect := false |>
    <| hasJoined := false |>
    <| retryCount := 0 |>.

Definition connect (a : ConnectArgs) (rnd : jsstr) : C unit :=
  c ← get;
  if _isConnected c then throw (Error (js "Already connected")) else
  modc (start_connect a rnd) ;;
  match window with
  | Some _ =>
      l ← fresh;
      modc (λ c, c <| boundBeforeUnload := Some l |>) ;;
      mode (λ e, e <| unloadListeners := unloadListeners e ++ [l] |>) ;;
      record (Eff (EAddListener l))
  | None => mret tt
  end ;;
  openWithToken.

Definition leaveAction : CollabActionJson :=
  emptyCollabActionJson <| CollabActionJson_leave :=
    Some (mkLeaveRoomJson (Some (js "user disconnected"))) |>.

(** The three parts of [disconnect()]: the page listener, the retry timer,
    and the connection. *)
Definition removeUnloadListener : C unit :=
  c ← get;
  match boundBeforeUnload c, window with
  | Some l, Some _ =>
      mode (λ e, e <| unloadListeners := set_delete l (unloadListeners e) |>) ;;
      record (Eff (ERemoveListener l)) ;;
      modc (λ c, c <| boundBeforeUnload := None |>)
  | _, _ => mret tt
  end.

Definition clearRetryTimer : C unit :=
  c ← get;
  match retryTimer c with
  | Some t => clear_timeout t ;; modc (λ c, c <| retryTimer := None |>)
  | None => mret tt
  end.

Definition leaveAndClose : C unit :=
  c ← get;
  match grpc c with
  | None => mret tt
  | Some s =>
      when (_isConnected c) (socket_send s leaveAction) ;;
      resetState ;;
      socket_close s ;;
      when (_isConnected c) (call OnDisconnect)
  end.

Definition disconnect : C unit :=
  modc (λ c, c <| explicitDisconnect := true |>) ;;
  removeUnloadListener ;;
  clearRetryTimer ;;
  modc (λ c, c <| _isConnecting := false |>) ;;
  leaveAndClose.

(** [now] is [Date.now()]. *)
Definition send (action : CollabActionJson) (now : N) : C unit :=
  c ← get;
  match grpc c with
  | Some s =>
      if _isConnected c then
        socket_send s (action <| CollabActionJson_clientId := Some (_clientId c) |>
                              <| CollabActionJson_timestamp := Some (js_number now) |>)
      else throw (Error (js "Not connected"))
  | None => throw (Error (js "Not connected"))
  end.

(** [opts.to]: absent, one id, or several. *)
Inductive SendTo :=
  | ToRoom
  | ToOne (id : jsstr)
  | ToMany (ids : list jsstr).

Definition send_targets (to : SendTo) : list jsstr :=
  match to with ToRoom => [] | ToOne id => [id] | ToMany ids => ids end.

Definition app_message (kind : jsstr) (payload : list N) (to : SendTo) : CollabActionJson :=
  let ids := send_targets to in
  emptyCollabActionJson <| CollabActionJson_appMessage := Some
    (mkAppMessageJson (Some kind) (Some (base64Encode payload))
       (match ids with [] => None | _ => Some ids end)) |>.

Definition sendAppMessage (kind : jsstr) (payload : list N) (to : SendTo) (now : N) : C unit :=
  send (app_message kind payload to) now.

(** *** Relay events *)

Definition reconnectable (c : CollabClient) (reason : jsstr) : bool :=
  bool_decide (reason = js "slow_consumer")
  || (bool_decide (reason = js "token_expired") && getToken (options c)).

Definition handleRoomJoined (rj : RoomJoined) : C unit :=
  let room := RoomJoined_room rj in
  modc (λ c, c <| _clientId := RoomJoined_clientId rj |>) ;;
  match room with
  | Some r => when (truthy (Room_sessionId r)) (modc (λ c, c <| _sessionId := Room_sessionId r |>))
  | None => mret tt
  end ;;
  modc (λ c,
    c <| _maxPeers := RoomJoined_maxPeers rj |>
      <| _roomEncrypted := match room with Some r => Room_encrypted r | None => false end |>
      <| _title := match room with Some r => Room_title r | None => [] end |>
      <| _isConnected := true |>
      <| _isConnecting := false |>
      <| hasJoined := true |>
      <| retryCount := 0 |>) ;;
  c ← get;
  call (OnConnect (_clientId c)) ;;
  modc (λ c, c <| peers := [] |>) ;;
  c ← get;
  addPeer (selfPeer c) ;;
  match room with
  | Some r => for_each (λ '(_, peer), addPeer (peerToJson peer)) (Room_peers r)
  | None => mret tt
  end.

Definition setOwner (newOwnerId id : jsstr) (p : PeerInfoJson) : PeerInfoJson :=
  p <| PeerInfoJson_isOwner := Some (bool_decide (id = newOwnerId)) |>.

Definition handleOwnerChanged (newOwnerId : jsstr) : C unit :=
  modc (λ c, c <| _isOwner := bool_decide (newOwnerId = _clientId c) |>) ;;
  modc (λ c, c <| peers := foldl (λ m '(id, p), map_set id (setOwner newOwnerId id p) m)
                                 (peers c) (peers c) |>) ;;
  call (OnOwnerChanged newOwnerId).

Definition handleError (err : ErrorEvent) : C unit :=
  call (OnErrorEvent (ErrorEvent_code err) (ErrorEvent_message err)) ;;
  c ← get;
  when (negb (_isConnected c))
    (closeFromRelay ;;
     c ← get;
     when (bool_decide (ErrorEvent_code err = js "ROOM_NOT_FOUND") && hasJoined c)
       (call (OnSessionEnded (js "session_gone")))).

Definition handleSessionEnded (reason : jsstr) : C unit :=
  c ← get;
  if reconnectable c reason && reconnectEnabled c then dropAndReconnect
  else closeFromRelay ;; call (OnSessionEnded reason).

Definition handleEvent (event : CollabEvent) : C unit :=
  call (OnEvent event) ;;
  match CollabEvent_event event with
  | ev_error err => handleError err
  | ev_roomJoined rj => handleRoomJoined rj
  | ev_peerJoined pj =>
      match PeerJoined_peer pj with
      | Some peer => addPeer (peerToJson peer)
      | None => call (OnPeerJoined emptyPeerInfoJson)
      end
  | ev_peerLeft pl =>
      modc (λ c, c <| peers := map_delete (PeerLeft_clientId pl) (peers c) |>) ;;
      call (OnPeerLeft (PeerLeft_clientId pl))
  | ev_sessionEnded se => handleSessionEnded (SessionEnded_reason se)
  | ev_ownerChanged oc => handleOwnerChanged (OwnerChanged_newOwnerClientId oc)
  | ev_credentialsChanged cc => call (OnCredentialsChanged (CredentialsChanged_reason cc))
  | ev_titleChanged tc =>
      modc (λ c, c <| _title := TitleChanged_title tc |>) ;;
      c ← get; call (OnTitleChanged (_title c))
  | ev_appMessage am =>
      call (OnAppMessage (AppMessage_kind am) (AppMessage_payload am)
              (CollabEvent_fromClientId event) (default [] (AppMessage_toClientIds am !! 0%nat)))
  | _ => mret tt
  end.

(** *** The reconnect loop *)

(** The rest of [rejoinIfRoomExists] once [status] is known; 0 stands for a
    request that failed. *)
Definition afterRoomCheck (status : Z) : C unit :=
  c ← get;
  if explicitDisconnect c then mret tt
  else if status =? 404 then endSession (js "session_gone")
  else if status =? 200 then openWithToken
  else scheduleReconnect.

Definition room_check_url (c : CollabClient) : option jsstr :=
  (λ enc, ws_to_http (resolved_url c) ++ js "/api/v1/rooms/" ++ enc)
    <$> encodeURIComponent (_sessionId c).

Definition rejoinIfRoomExists : C unit :=
  c ← get;
  match room_check_url c with
  | Some url =>
      record (Eff (EFetch url)) ;; mode (λ e, e <| fetches := S (fetches e) |>)
  | None => afterRoomCheck 0
  end.

Definition retryTimerFired : C unit :=
  modc (λ c, c <| retryTimer := None |>) ;; rejoinIfRoomExists.

(** *** Getters *)

Definition getPeer (c : CollabClient) (clientId : jsstr) : option PeerInfoJson :=
  map_get clientId (peers c).

(** ** The event loop

    One [Input] is one turn: a call by the application, a browser event, or
    a promise continuation. [exec] runs it to completion. *)

Inductive Input :=
  | IConnect (a : ConnectArgs) (rnd : jsstr)
  | IDisconnect
  | ISend (action : CollabActionJson) (now : N)
  | ISendAppMessage (kind : jsstr) (payload : list N) (to : SendTo) (now : N)
  | IBeforeUnload
  | IOpened (s : nat)
  | IConnectResolved (s : nat)
  | IMessage (s : nat) (event : CollabEvent)
  | IError (s : nat) (message : jsstr)
  | IClose (s : nat)
  | ICallGetToken
  | ITokenFulfilled (tok : jsstr)
  | ITokenRejected (message : jsstr)
  | ITimer (t : nat)
  | IRoomCheck (status : option Z).

Definition set_status (s : nat) (st : SockStatus) : C unit :=
  mode (λ e, e <| sockets := <[ s := st ]> (sockets e) |>).

Definition is_roomJoined (ev : CollabEvent) : bool :=
  match CollabEvent_event ev with ev_roomJoined _ => true | _ => false end.

(** [this.grpc.onMessage], after [fromJson]: it does not look at which
    socket is current. *)
Definition onMessage (s : nat) (ev : CollabEvent) : C unit :=
  when (is_roomJoined ev) (set_status s (Open true)) ;; handleEvent ev.

(** [this.grpc.onClose]: only the current socket's close counts. *)
Definition onClose (s : nat) : C unit :=
  set_status s Closed ;;
  c ← get;
  when (bool_decide (grpc c = Some s)) handleConnectionClosed.

Definition exec (i : Input) : C unit :=
  match i with
  | IConnect a rnd => connect a rnd
  | IDisconnect => disconnect
  | ISend action now => send action now
  | ISendAppMessage kind payload to now => sendAppMessage kind payload to now
  | IBeforeUnload =>
      e ← gets env; for_each (λ _ : nat, swallow disconnect) (unloadListeners e)
  | IOpened s =>
      set_status s (Open false) ;; mode (λ e, e <| joinTurns := {[ s ]} ∪ joinTurns e |>)
  | IConnectResolved s =>
      mode (λ e, e <| joinTurns := joinTurns e ∖ {[ s ]} |>) ;; connectResolved
  | IMessage s ev => onMessage s ev
  | IError s message => call (OnError message)
  | IClose s => onClose s
  | ICallGetToken =>
      mode (λ e, e <| tokenCalls := pred (tokenCalls e) |> <| tokenWaits := S (tokenWaits e) |>) ;;
      record (Eff EGetToken)
  | ITokenFulfilled tok =>
      mode (λ e, e <| tokenWaits := pred (tokenWaits e) |>) ;; tokenFulfilled tok
  | ITokenRejected message =>
      mode (λ e, e <| tokenWaits := pred (tokenWaits e) |>) ;; tokenRejected message
  | ITimer t =>
      mode (λ e, e <| timers := timers e ∖ {[ t ]} |>) ;; retryTimerFired
  | IRoomCheck status =>
      mode (λ e, e <| fetches := pred (fetches e) |>) ;; afterRoomCheck (default 0 status)
  end.

(** When an input can happen. The environment's part is what the platform
    and the relay guarantee: messages arrive over open sockets, a relay sends
    [roomJoined] once per connection and everything but errors after it,
    and a promise or timer fires only when pending. The application's calls
    are always possible. *)
Definition enabled (e : Env) (i : Input) : bool :=
  match i with
  | IOpened s => bool_decide (sockets e !! s = Some Connecting)
  | IConnectResolved s => bool_decide (s ∈ joinTurns e)
  | IMessage s ev =>
      match sockets e !! s, CollabEvent_event ev with
      | Some (Open false), (ev_roomJoined _ | ev_error _) => true
      | Some (Open true), ev_roomJoined _ => false
      | Some (Open true), _ => true
      | _, _ => false
      end
  | IClose s => match sockets e !! s with Some _ => true | None => false end
  | ICallGetToken => (0 <? tokenCalls e)%nat
  | ITokenFulfilled _ | ITokenRejected _ => (0 <? tokenWaits e)%nat
  | ITimer t => bool_decide (t ∈ timers e)
  | IRoomCheck _ => (0 <? fetches e)%nat
  | _ => true
  end.

Definition run1 (i : Input) (w : World H) : World H := (exec i w).2.
Definition run (ins : list Input) (w : World H) : World H := foldl (λ w i, run1 i w) w ins.
End client.

Definition empty_env : Env := mkEnv ∅ ∅ ∅ 0 0 0 [] 0.

Definition new_world {H} (o : CollabClientOptions) (h : H) : World H :=
  mkWorld (new_client o) empty_env h [].

(** An application that only watches. *)
Definition passive {H} (_ : Callback) : M (World H) unit := mret tt.
