(* ===== verification/ClientInvariants.v ===== *)
(** * Invariants of the relay client ([ts/src/CollabClient.ts])

    Symbolic execution rules for the client's programs, and the invariant that
    ties the client's fields to its sockets, timers and pending promises,
    preserved by every turn of the event loop under any application whose
    callbacks do not call back into the client's state. *)

From S2P Require Import Prelude JsText JsMap UrlParams Models CollabClient.
Open Scope Z_scope.

(** ** Applications *)

Definition is_send (x : Entry) : Prop := match x with Eff (ESend _ _) => True | _ => False end.

(** The contract of an application: a callback may change the application's
    own state, send over the current socket, and throw; it starts no other
    operation of the client. *)
Class Observer {H} (cb : Callback → M (World H) unit) : Prop :=
  observes c w : ∃ l, client (cb c w).2 = client w ∧ env (cb c w).2 = env w ∧
                      log (cb c w).2 = l ++ log w ∧ Forall is_send l.

(** An application whose callbacks never throw. *)
Definition total {H} (cb : Callback → M (World H) unit) : Prop := ∀ c w, (cb c w).1 = Ok tt.

#[export] Instance passive_observer H : Observer (H := H) passive.
Proof. intros c w. by exists []. Qed.

Lemma passive_total {H} : total (H := H) passive.
Proof. done. Qed.

(** ** Symbolic execution *)

Section wp.
Context `{P : Platform} {H : Type} (cb : Callback → M (World H) unit).
Implicit Types (c : CollabClient) (e : Env) (h : H) (l : list Entry).

Lemma wp_get Q c e h l : Q (Ok c) (mkWorld c e h l) → wp get Q (mkWorld c e h l).
Proof. done. Qed.

Lemma wp_gets_env Q c e h l : Q (Ok e) (mkWorld c e h l) → wp (gets env) Q (mkWorld c e h l).
Proof. done. Qed.

Lemma wp_modc f Q c e h l : Q (Ok tt) (mkWorld (f c) e h l) → wp (modc f) Q (mkWorld c e h l).
Proof. done. Qed.

Lemma wp_mode f Q c e h l : Q (Ok tt) (mkWorld c (f e) h l) → wp (mode f) Q (mkWorld c e h l).
Proof. done. Qed.

Lemma wp_record x Q c e h l : Q (Ok tt) (mkWorld c e h (x :: l)) → wp (record x) Q (mkWorld c e h l).
Proof. done. Qed.

Lemma wp_fresh Q c e h l :
  Q (Ok (nextId e)) (mkWorld c (e <| nextId := S (nextId e) |>) h l) → wp fresh Q (mkWorld c e h l).
Proof. done. Qed.

Lemma wp_call `{!Observer cb} x Q c e h l :
  (∀ r h' l', (total cb → r = Ok tt) → Forall is_send l' →
     Q r (mkWorld c e h' (l' ++ Cb x :: l))) →
  wp (call cb x) Q (mkWorld c e h l).
Proof.
  intros HQ. apply wp_bind, wp_record. unfold wp.
  set (w := mkWorld c e h (Cb x :: l)).
  destruct (observes x w) as (l' & Ec & Ee & El & Hs).
  destruct (cb x w) as [r [c' e' h' l'']] eqn:E. simpl in *. subst.
  apply HQ; [|done]. intros Ht. specialize (Ht x w). by rewrite E in Ht.
Qed.

Lemma wp_send s a Q c e h l :
  (∀ err, grpc_send_error (default Closed (sockets e !! s)) a = Some err →
     Q (Throw err) (mkWorld c e h l)) →
  (grpc_send_error (default Closed (sockets e !! s)) a = None →
     Q (Ok tt) (mkWorld c e h (Eff (ESend s a) :: l))) →
  wp (socket_send s a) Q (mkWorld c e h l).
Proof.
  intros H1 H2. apply wp_bind, wp_gets_env.
  destruct (grpc_send_error _ _) as [err|] eqn:E; [by apply H1|by apply H2].
Qed.

Lemma wp_or_throw {A} (o : option A) err (Q : outcome A → World H → Prop) w :
  (∀ a, o = Some a → Q (Ok a) w) → (o = None → Q (Throw err) w) → wp (or_throw o err) Q w.
Proof. intros H1 H2. destruct o; [by apply H1|by apply H2]. Qed.

(** What [resetState] makes of the client. *)
Definition reset_client (c : CollabClient) : CollabClient :=
  c <| _isConnected := false |> <| _isConnecting := false |> <| _clientId := [] |>
    <| _isOwner := false |> <| peers := [] |> <| grpc := None |>.

Lemma wp_resetState Q c e h l :
  Q (Ok tt) (mkWorld (reset_client c) e h l) → wp resetState Q (mkWorld c e h l).
Proof. done. Qed.

(** A loop keeps an assertion that its body keeps. *)
Lemma wp_for_each {A} (body : A → M (World H) unit) (l : list A) (I : World H → Prop) w :
  I w → (∀ x w, I w → wp (body x) (λ _ w', I w') w) → wp (for_each body l) (λ _ w', I w') w.
Proof.
  intros HI Hb. revert w HI. induction l as [|x l IH]; intros w HI; [by apply wp_ret|].
  apply wp_bind. eapply wp_mono; [by apply Hb|]. intros [[]|err] w' HI'; [by apply IH|done].
Qed.
End wp.

(** One step of symbolic execution. *)
Ltac wp_step :=
  lazymatch goal with
  | |- wp (mbind _ _) _ _ => apply wp_bind
  | |- wp (mret _) _ _ => apply wp_ret
  | |- wp (throw _) _ _ => apply wp_throw
  | |- wp get _ _ => apply wp_get
  | |- wp (gets env) _ _ => apply wp_gets_env
  | |- wp (modc _) _ _ => apply wp_modc
  | |- wp (mode _) _ _ => apply wp_mode
  | |- wp (record _) _ _ => apply wp_record
  | |- wp fresh _ _ => apply wp_fresh
  | |- wp resetState _ _ => apply wp_resetState
  | |- wp (swallow _) _ _ => apply wp_swallow
  | |- wp (call _ _) _ _ =>
      let r := fresh "r" in let h := fresh "h" in let l := fresh "l" in
      let Hr := fresh "Hr" in let Hl := fresh "Hl" in
      apply wp_call; [apply _|intros r h l Hr Hl]
  | |- wp (when _ _) _ _ => apply wp_when; let E := fresh "E" in intros E
  | |- wp (socket_send _ _) _ _ => apply wp_send; [intros ? ?|intros ?]
  | |- wp (or_throw _ _) _ _ => apply wp_or_throw; [intros ? ?|intros ?]
  | |- wp (match ?y with _ => _ end) _ _ =>
      first [ match goal with E : y = _ |- _ => rewrite E end
            | match goal with
              | E : ?x = Some _ |- _ => change y with x; rewrite E
              | E : ?x = None |- _ => change y with x; rewrite E
              | E : ?x = true |- _ => change y with x; rewrite E
              | E : ?x = false |- _ => change y with x; rewrite E
              end
            | destruct y eqn:? ]
  | |- context [match ?r with Ok _ => _ | Throw _ => _ end] => is_var r; destruct r as [[]|]
  | |- wp ?m _ _ => let m' := eval cbv beta in m in progress change m with m'
  end; cbn [client env app log].

#[export] Hint Extern 0 (keeps _ get) => (apply keeps_gets) : keeps.

(** ** The invariant *)

(** The connection state the callbacks announced: each [OnConnect] needs a
    disconnected client, each [OnDisconnect] a connected one; [None] when a
    callback came out of turn. *)
Fixpoint conn_state (l : list Entry) : option bool :=
  match l with
  | [] => Some false
  | Cb (OnConnect _) :: l' => match conn_state l' with Some false => Some true | _ => None end
  | Cb OnDisconnect :: l' => match conn_state l' with Some true => Some false | _ => None end
  | _ :: l' => conn_state l'
  end.

Lemma conn_state_sends l' l : Forall is_send l' → conn_state (l' ++ l) = conn_state l.
Proof. induction 1 as [|[?|[]] l' Hx _ IH]; [done|done|..]; by destruct Hx || done. Qed.

Definition b2n (b : bool) : nat := if b then 1%nat else 0%nat.

(** How many activities could make the client act on its own: a live socket,
    a token chain, a retry timer, a room check. *)
Definition activities (c : CollabClient) (e : Env) : nat :=
  b2n (bool_decide (is_Some (grpc c))) + tokenCalls e + tokenWaits e + size (timers e) + fetches e.

Definition idle (c : CollabClient) (e : Env) : Prop := activities c e = 0%nat.

Section invariant.
Context `{P : Platform} {H : Type} (cb : Callback → M (World H) unit).

(** [send] over an open socket does not throw. *)
Definition send_total : Prop := ∀ j a, grpc_send_error (Open j) a = None.

Record Inv (c : CollabClient) (e : Env) (l : list Entry) : Prop := {
  (** Every socket that is not closed is the current one, and the current one is not closed. *)
  inv_live s st : sockets e !! s = Some st → st ≠ Closed → grpc c = Some s;
  inv_grpc s : grpc c = Some s → ∃ st, sockets e !! s = Some st ∧ st ≠ Closed;
  (** A connected client has an open socket that the relay's [RoomJoined] came
      over, remembers that it joined and counts no retries. *)
  inv_conn : _isConnected c = true → ∃ s, grpc c = Some s ∧ sockets e !! s = Some (Open true);
  inv_count : _isConnected c = true → hasJoined c = true ∧ retryCount c = 0;
  (** At most one activity is under way. *)
  inv_one : (activities c e ≤ 1)%nat;
  inv_timer : timers e = match retryTimer c with Some t => {[ t ]} | None => ∅ end;
  inv_fresh s : is_Some (sockets e !! s) → (s < nextId e)%nat;
  inv_pairs : conn_state l = Some (_isConnected c);
  (** A client told to stop has no socket and no timer. *)
  inv_stopped : send_total → explicitDisconnect c = true → grpc c = None ∧ timers e = ∅;
  (** Under an application that never throws: joined means connected, and
      the roster is empty while not connected. *)
  inv_joined s : total cb → sockets e !! s = Some (Open true) → _isConnected c = true;
  inv_roster : total cb → _isConnected c = false → peers c = [];
  inv_roster_wf : map_wf (peers c)
}.

Definition invariant (w : World H) : Prop := Inv (client w) (env w) (log w).

(** When the application may call [connect]: while connected, which throws,
    or with nothing under way. *)
Definition connect_ready (c : CollabClient) (e : Env) : Prop := _isConnected c = true ∨ idle c e.

Definition orderly (w : World H) (i : Input) : Prop :=
  enabled (env w) i = true ∧
  match i with IConnect _ _ => connect_ready (client w) (env w) | _ => True end.
End invariant.

Lemma idle_no_socket c e : idle c e → grpc c = None.
Proof. unfold idle, activities, b2n. case_bool_decide as E; [lia|]. intros _. by apply eq_None_not_Some. Qed.

Lemma idle_counts c e :
  idle c e → tokenCalls e = 0%nat ∧ tokenWaits e = 0%nat ∧ timers e = ∅ ∧ fetches e = 0%nat.
Proof.
  unfold idle, activities. intros Hi. split_and!; try lia.
  apply leibniz_equiv, size_empty_inv. lia.
Qed.

Lemma activities_socket c e s :
  grpc c = Some s → (activities c e ≤ 1)%nat →
  tokenCalls e = 0%nat ∧ tokenWaits e = 0%nat ∧ timers e = ∅ ∧ fetches e = 0%nat.
Proof.
  unfold activities. intros ->. simpl. intros Ha. split_and!; try lia.
  apply leibniz_equiv, size_empty_inv. lia.
Qed.

Section steps.
Context `{P : Platform} {H : Type} (cb : Callback → M (World H) unit) `{!Observer cb}.
Implicit Types (c : CollabClient) (e : Env) (h : H) (l : list Entry).
Abbreviation INV := (Inv cb).

(** The invariant does not see logged effects or callbacks other than
    connection changes. *)
Definition neutral (x : Entry) : bool :=
  match x with Cb (OnConnect _) | Cb OnDisconnect => false | _ => true end.

Lemma conn_state_neutral x l : neutral x = true → conn_state (x :: l) = conn_state l.
Proof. by destruct x as [[]|]. Qed.

Lemma Inv_log c e l l' : conn_state l' = conn_state l → INV c e l → INV c e l'.
Proof. intros E []. split; try done. by rewrite E. Qed.

Lemma Inv_call c e l l' x :
  neutral x = true → Forall is_send l' → INV c e l → INV c e (l' ++ x :: l).
Proof. intros Hx Hl. apply Inv_log. by rewrite conn_state_sends, conn_state_neutral. Qed.

(** Fields the invariant does not mention can change freely. *)
Lemma Inv_client c c' e l :
  grpc c' = grpc c → _isConnected c' = _isConnected c → retryTimer c' = retryTimer c →
  explicitDisconnect c' = explicitDisconnect c → peers c' = peers c →
  hasJoined c' = hasJoined c → retryCount c' = retryCount c →
  INV c e l → INV c' e l.
Proof.
  intros E1 E2 E3 E4 E5 E6 E7 [].
  split; unfold activities; rewrite ?E1, ?E2, ?E3, ?E4, ?E5, ?E6, ?E7; done.
Qed.

Lemma idle_not_connected c e l : INV c e l → idle c e → _isConnected c = false.
Proof.
  intros HI Hi. destruct (_isConnected c) eqn:E; [|done].
  destruct (inv_conn _ _ _ _ HI E) as (s & Hs & _). by rewrite (idle_no_socket c e Hi) in Hs.
Qed.

Lemma wp_scheduleReconnect c e h l :
  INV c e l → idle c e → (send_total → explicitDisconnect c = false) →
  wp (scheduleReconnect cb) (λ _ w, invariant cb w) (mkWorld c e h l).
Proof.
  intros HI Hi Hs. unfold scheduleReconnect, endSession, set_timeout.
  pose proof (idle_no_socket c e Hi) as Hg. destruct (idle_counts c e Hi) as (E1 & E2 & E3 & E4).
  pose proof (idle_not_connected c e l HI Hi) as Hc.
  repeat wp_step.
  - apply Inv_call; [done..|]. by destruct HI; split.
  - destruct HI. split; cbn; try done; unfold activities in *; cbn in *.
    + by rewrite Hc.
    + rewrite E3, union_empty_r_L, size_singleton, Hg, E1, E2, E4. simpl. lia.
    + by rewrite E3, union_empty_r_L.
    + intros s ?. by apply Nat.lt_lt_succ_r, inv_fresh0.
    + rewrite conn_state_sends by done. done.
    + intros ? ?. rewrite Hs in * by done. done.
  - apply Inv_call; [done..|]. destruct HI. split; try done. by cbn; rewrite Hc.
Qed.

Lemma wp_openWebSocket tok c e h l :
  INV c e l → idle c e → explicitDisconnect c = false →
  wp (openWebSocket tok) (λ _ w, invariant cb w) (mkWorld c e h l).
Proof.
  intros HI Hi Hs. unfold openWebSocket, new_socket.
  pose proof (idle_no_socket c e Hi) as Hg. destruct (idle_counts c e Hi) as (E1 & E2 & E3 & E4).
  pose proof (idle_not_connected c e l HI Hi) as Hc.
  repeat wp_step; [|done].
  destruct HI. split; cbn; try done; unfold activities in *; cbn in *.
  - intros s st. rewrite lookup_insert_Some. intros [[<- _]|[_ Hst]] Hn; [done|].
    rewrite (inv_live0 s st Hst Hn) in Hg. done.
  - intros s [= <-]. exists Connecting. by rewrite lookup_insert_eq.
  - by rewrite Hc.
  - rewrite E1, E2, E3, E4, size_empty. simpl. lia.
  - intros s. rewrite lookup_insert_is_Some. intros [<-|[_ Hs']]; [lia|].
    by apply Nat.lt_lt_succ_r, inv_fresh0.
  - by rewrite Hs.
  - intros s Ht. rewrite lookup_insert_Some. intros [[<- [=]]|[_ Hst]]. by apply (inv_joined0 s).
Qed.

Lemma wp_openWithToken c e h l :
  INV c e l → idle c e → explicitDisconnect c = false →
  wp openWithToken (λ _ w, invariant cb w) (mkWorld c e h l).
Proof.
  intros HI Hi Hs. unfold openWithToken. do 3 wp_step; [|by apply wp_openWebSocket].
  wp_step. destruct HI. split; try done.
  unfold idle, activities in *. cbn. lia.
Qed.

(** Closing the current socket leaves nothing under way. *)
Lemma idle_reset c c' e s l st :
  INV c e l → grpc c = Some s → grpc c' = None →
  idle c' (e <| sockets := <[ s := st ]> (sockets e) |>).
Proof.
  intros HI Hg Hg'.
  destruct (activities_socket c e s Hg (inv_one _ _ _ _ HI)) as (E1 & E2 & E3 & E4).
  unfold idle, activities. cbn. by rewrite Hg', E1, E2, E3, E4, size_empty.
Qed.

Lemma Inv_reset c c' e s l l' :
  INV c e l → grpc c = Some s → grpc c' = None → _isConnected c' = false →
  retryTimer c' = retryTimer c → peers c' = [] → conn_state l' = Some false →
  INV c' (e <| sockets := <[ s := Closed ]> (sockets e) |>) l'.
Proof.
  intros HI Hg Hg' Hc' Ht' Hp' Hl'.
  pose proof (idle_reset c c' e s l Closed HI Hg Hg') as Hi.
  destruct (activities_socket c e s Hg (inv_one _ _ _ _ HI)) as (E1 & E2 & E3 & E4).
  destruct HI. split; cbn; try done.
  - intros s' st. rewrite lookup_insert_Some. intros [[_ <-]|[Hne Hst]] Hn; [done|].
    rewrite (inv_live0 s' st Hst Hn) in Hg. congruence.
  - by rewrite Hg'.
  - by rewrite Hc'.
  - by rewrite Hc'.
  - unfold idle in Hi. cbn in Hi. lia.
  - by rewrite Ht'.
  - intros s'. rewrite lookup_insert_is_Some. intros [<-|[_ Hs']]; [|by apply inv_fresh0].
    destruct (inv_grpc0 s Hg) as (st & Hst & _). apply inv_fresh0. by exists st.
  - by rewrite Hc'.
  - intros s' Ht. rewrite lookup_insert_Some. intros [[<- [=]]|[Hne Hst]].
    rewrite (inv_live0 s' _ Hst) in Hg by done. congruence.
  - rewrite Hp'. constructor.
Qed.

(** The log after a closed connection, with [OnDisconnect] if it was connected. *)
Ltac solve_pairs HI :=
  cbn; rewrite ?conn_state_sends by done; cbn; rewrite (inv_pairs _ _ _ _ HI);
  match goal with E : _isConnected _ = _ |- _ => by rewrite E end.

Definition stopped_after (w : World H) : Prop :=
  invariant cb w ∧ idle (client w) (env w).

Lemma wp_closeFromRelay c e h l s :
  INV c e l → grpc c = Some s →
  wp (closeFromRelay cb)
     (λ _ w, stopped_after w ∧ explicitDisconnect (client w) = true ∧ hasJoined (client w) = hasJoined c)
     (mkWorld c e h l).
Proof.
  intros HI Hg. unfold closeFromRelay, socket_close. repeat wp_step.
  - split; [|done]. split; [eapply Inv_reset; try done; solve_pairs HI|by eapply idle_reset].
  - split; [|done]. split; [eapply Inv_reset; try done; solve_pairs HI|by eapply idle_reset].
Qed.

Lemma wp_dropAndReconnect c e h l s :
  INV c e l → grpc c = Some s →
  wp (dropAndReconnect cb) (λ _ w, invariant cb w) (mkWorld c e h l).
Proof.
  intros HI Hg. unfold dropAndReconnect, socket_close.
  assert (send_total → explicitDisconnect c = false) as Hs.
  { intros Hs. destruct (explicitDisconnect c) eqn:E; [|done].
    destruct (inv_stopped _ _ _ _ HI Hs E). congruence. }
  repeat wp_step.
  - apply wp_scheduleReconnect; [eapply Inv_reset; try done; solve_pairs HI|by eapply idle_reset|done].
  - eapply Inv_reset; try done; solve_pairs HI.
  - apply wp_scheduleReconnect; [eapply Inv_reset; try done; solve_pairs HI|by eapply idle_reset|done].
Qed.

Lemma wp_onClose s st c e h l :
  INV c e l → sockets e !! s = Some st →
  wp (onClose cb s) (λ _ w, invariant cb w) (mkWorld c e h l).
Proof.
  intros HI Hst. unfold onClose, set_status, handleConnectionClosed. repeat wp_step.
  all: try (apply bool_decide_eq_true in E as Hg).
  all: try match goal with E : _ && _ && _ = true |- _ =>
    apply andb_prop in E as [E ?]; apply andb_prop in E as [E%negb_true_iff ?] end.
  - apply wp_scheduleReconnect; [eapply Inv_reset; try done; solve_pairs HI|by eapply idle_reset|done].
  - eapply Inv_reset; try done; solve_pairs HI.
  - eapply Inv_reset; try done; solve_pairs HI.
  - apply wp_scheduleReconnect; [eapply Inv_reset; try done; solve_pairs HI|by eapply idle_reset|done].
  - eapply Inv_reset; try done; solve_pairs HI.
  - (* a socket that is not the current one is closed already *)
    apply bool_decide_eq_false in E. destruct (decide (st = Closed)) as [->|Hn].
    + rewrite insert_id by done. by destruct e.
    + by rewrite (inv_live _ _ _ _ HI s st Hst Hn) in E.
Qed.

(** *** The public operations and the continuations *)

(** While [disconnect] runs, the invariant holds but for its clause on
    stopped clients. *)
Definition stopping (w : World H) : Prop :=
  INV ((client w) <| explicitDisconnect := false |>) (env w) (log w) ∧
  explicitDisconnect (client w) = true.

Lemma Inv_stopping c e h l :
  INV c e l → stopping (mkWorld (c <| explicitDisconnect := true |>) e h l).
Proof. by intros []. Qed.

Lemma wp_removeUnloadListener c e h l :
  stopping (mkWorld c e h l) →
  wp removeUnloadListener (λ r w, r = Ok tt ∧ stopping w) (mkWorld c e h l).
Proof.
  intros [HI Hx]. unfold removeUnloadListener. repeat wp_step; try done.
  split; [done|]. split; [|done]. by destruct HI.
Qed.

Lemma wp_clearRetryTimer c e h l :
  stopping (mkWorld c e h l) →
  wp clearRetryTimer (λ r w, r = Ok tt ∧ stopping w ∧ timers (env w) = ∅) (mkWorld c e h l).
Proof.
  intros [HI Hx]. unfold clearRetryTimer, clear_timeout. repeat wp_step; cbn in *.
  - pose proof (inv_timer _ _ _ _ HI) as Ht. cbn in Ht. rewrite Heqo in Ht.
    assert (timers e ∖ {[n]} = ∅) as E by (rewrite Ht; set_solver).
    split_and!; [done| |done]. split; [|done]. destruct HI.
    split; unfold activities in *; cbn in *; rewrite ?E; try done.
    rewrite size_empty. lia.
  - pose proof (inv_timer _ _ _ _ HI) as Ht. cbn in Ht. rewrite Heqo in Ht. done.
Qed.

Lemma wp_leaveAndClose c e h l :
  stopping (mkWorld c e h l) → timers e = ∅ →
  wp (leaveAndClose cb) (λ _ w, invariant cb w) (mkWorld c e h l).
Proof.
  intros [HI Hx] Ht. unfold leaveAndClose, socket_close. repeat wp_step; cbn in *.
  - (* the farewell threw *)
    assert (send_total → False) as Hs.
    { intros Hs. destruct (inv_conn _ _ _ _ HI E) as (s & Hg & Hst). cbn in Hg.
      rewrite Heqo in Hg. injection Hg as <-. rewrite Hst in *. cbn in *. congruence. }
    destruct HI. split; try done.
  - eapply Inv_reset; try done; solve_pairs HI.
  - eapply Inv_reset; try done; solve_pairs HI.
  - eapply Inv_reset; try done; solve_pairs HI.
  - eapply Inv_reset; try done; solve_pairs HI.
  - destruct HI. cbn in *. split; cbn; try done; congruence.
Qed.

Lemma wp_disconnect c e h l :
  INV c e l → wp (disconnect cb) (λ _ w, invariant cb w) (mkWorld c e h l).
Proof.
  intros HI. unfold disconnect. do 2 wp_step. wp_step.
  eapply wp_mono; [by apply wp_removeUnloadListener, Inv_stopping|].
  intros ? [c1 e1 h1 l1] [-> Hs1]. wp_step.
  eapply wp_mono; [by apply wp_clearRetryTimer|].
  intros ? [c2 e2 h2 l2] (-> & Hs2 & Ht). do 2 wp_step.
  apply wp_leaveAndClose; [|done]. by destruct Hs2 as [[] ?].
Qed.

(** Changes of the environment the invariant does not look at. *)
Lemma Inv_env c e e' l :
  sockets e' = sockets e → timers e' = timers e → tokenCalls e' = tokenCalls e →
  tokenWaits e' = tokenWaits e → fetches e' = fetches e → (nextId e ≤ nextId e')%nat →
  INV c e l → INV c e' l.
Proof.
  intros E1 E2 E3 E4 E5 E6 []. split; unfold activities in *; rewrite ?E1, ?E2, ?E3, ?E4, ?E5; try done.
  intros s ?. eapply Nat.lt_le_trans; [by apply inv_fresh0|done].
Qed.

(** A pending promise that is taken up leaves nothing under way. *)
Lemma Inv_take c e e' l :
  sockets e' = sockets e → timers e' = timers e → nextId e' = nextId e →
  (tokenCalls e' + tokenWaits e' + fetches e' < tokenCalls e + tokenWaits e + fetches e)%nat →
  INV c e l → INV c e' l ∧ idle c e'.
Proof.
  intros E1 E2 E3 Hlt HI. assert (idle c e') as Hi.
  { pose proof (inv_one _ _ _ _ HI). unfold idle, activities in *. rewrite E2. lia. }
  split; [|done]. destruct HI. split; rewrite ?E1, ?E2, ?E3; try done. rewrite Hi. lia.
Qed.

Lemma Inv_opened c e l s :
  INV c e l → sockets e !! s = Some Connecting →
  INV c (e <| sockets := <[ s := Open false ]> (sockets e) |>) l.
Proof.
  intros HI Hs. assert (grpc c = Some s) as Hg by (by eapply (inv_live _ _ _ _ HI)).
  destruct HI. split; cbn; try done.
  - intros s' st. rewrite lookup_insert_Some. intros [[<- _]|[_ Hst]] Hn; [done|by eapply inv_live0].
  - intros s'. rewrite Hg. intros [= <-]. exists (Open false). by rewrite lookup_insert_eq.
  - intros Hc. destruct (inv_conn0 Hc) as (s' & Hg' & Hst). congruence.
  - intros s'. rewrite lookup_insert_is_Some. intros [<-|[_ Hs']]; apply inv_fresh0; by eauto.
  - intros s' Ht. rewrite lookup_insert_Some. intros [[_ [=]]|[_ Hst]]. by eapply inv_joined0.
Qed.

(** The client once the relay's [roomJoined] arrived: connected, or under an
    application that threw before the client could note it. *)
Lemma Inv_join c c' e l l' s :
  INV c e l → sockets e !! s = Some (Open false) →
  grpc c' = grpc c → retryTimer c' = retryTimer c → explicitDisconnect c' = explicitDisconnect c →
  map_wf (peers c') → conn_state l' = Some (_isConnected c') →
  (_isConnected c' = true ∨ ¬ total cb) →
  (_isConnected c' = true → hasJoined c' = true ∧ retryCount c' = 0) →
  INV c' (e <| sockets := <[ s := Open true ]> (sockets e) |>) l'.
Proof.
  intros HI Hs E1 E2 E3 Hp Hl Hc Hjn. assert (grpc c = Some s) as Hg by (by eapply (inv_live _ _ _ _ HI)).
  destruct HI. split; cbn; rewrite ?E1, ?E2, ?E3; try done.
  - intros s' st. rewrite lookup_insert_Some. intros [[<- _]|[_ Hst]] Hn; [done|by eapply inv_live0].
  - intros s'. rewrite Hg. intros [= <-]. exists (Open true). by rewrite lookup_insert_eq.
  - intros _. exists s. by rewrite lookup_insert_eq.
  - unfold activities in *. cbn. by rewrite E1.
  - intros s'. rewrite lookup_insert_is_Some. intros [<-|[_ Hs']]; apply inv_fresh0; by eauto.
  - intros s' Ht _. by destruct Hc.
  - intros Ht ?. destruct Hc; [congruence|done].
Qed.

(** *** The roster *)

Definition with_roster (w : World H) : Prop :=
  invariant cb w ∧ (total cb → _isConnected (client w) = true).

Lemma Inv_peers c e l m :
  INV c e l → map_wf m → (total cb → _isConnected c = false → m = []) →
  INV (c <| peers := m |>) e l.
Proof. intros [] Hm He. by split. Qed.

Lemma wp_addPeer p w :
  with_roster w → wp (addPeer cb p) (λ _ w', with_roster w') w.
Proof.
  destruct w as [c e h l]. intros [HI Hc]. unfold addPeer. cbn in *. repeat wp_step.
  - split; [|done]. apply Inv_call; [done..|].
    apply Inv_peers; [done|apply map_set_wf, (inv_roster_wf _ _ _ _ HI)|].
    intros ? E2. by rewrite Hc in E2.
  - split; [|done]. by apply Inv_call.
  - split; [|done]. by apply Inv_call.
Qed.

Lemma set_owner_wf id (m : jsmap jsstr PeerInfoJson) ps :
  map_wf m →
  map_wf (foldl (λ m '(i, p), map_set i (setOwner id i p) m) m ps).
Proof. revert m. induction ps as [|[i p] ps IH]; intros m Hm; [done|]. by apply IH, map_set_wf. Qed.

(** *** Turns of the event loop *)

Lemma wp_connect a rnd c e h l :
  INV c e l → connect_ready c e →
  wp (connect a rnd) (λ _ w, invariant cb w) (mkWorld c e h l).
Proof.
  intros HI Hr. unfold connect. wp_step. wp_step. destruct (_isConnected c) eqn:Hc; [by wp_step|].
  destruct Hr as [|Hi]; [congruence|].
  pose proof (idle_no_socket c e Hi) as Hg. destruct (idle_counts c e Hi) as (E1 & E2 & E3 & E4).
  assert (∀ c' e', grpc c' = None → _isConnected c' = false → retryTimer c' = retryTimer c →
            explicitDisconnect c' = false → peers c' = peers c →
            sockets e' = sockets e → timers e' = ∅ → tokenCalls e' = 0%nat →
            tokenWaits e' = 0%nat → fetches e' = 0%nat → (nextId e ≤ nextId e')%nat →
            ∀ h' l', conn_state l' = conn_state l →
            wp openWithToken (λ _ w, invariant cb w) (mkWorld c' e' h' l')) as Hopen.
  { intros c' e' F1 F2 F3 F4 F5 F6 F7 F8 F9 F10 F11 h' l' F12. apply wp_openWithToken; [|..|done].
    - apply Inv_log with l; [done|]. apply Inv_env with e; [congruence..|done|].
      assert (activities c' e = activities c e) as Ea by (unfold activities; by rewrite F1, Hg).
      destruct HI. rewrite Hg, Hc in *. split; rewrite ?F1, ?F2, ?F3, ?F4, ?F5, ?Ea; try done.
    - unfold idle, activities. by rewrite F1, F7, F8, F9, F10, size_empty. }
  repeat wp_step; apply Hopen; try done; cbn; lia.
Qed.

Lemma wp_send_action a now c e h l :
  INV c e l → wp (send a now) (λ _ w, invariant cb w) (mkWorld c e h l).
Proof. intros HI. unfold send. repeat wp_step; try done. by eapply Inv_log; [|done]. Qed.

Lemma wp_connectResolved c e h l :
  INV c e l → wp connectResolved (λ _ w, invariant cb w) (mkWorld c e h l).
Proof. intros HI. unfold connectResolved. repeat wp_step; try done. by eapply Inv_log; [|done]. Qed.

Lemma wp_tokenFulfilled tok c e h l :
  INV c e l → idle c e → wp (tokenFulfilled tok) (λ _ w, invariant cb w) (mkWorld c e h l).
Proof.
  intros HI Hi. unfold tokenFulfilled. repeat wp_step; [|done].
  apply wp_openWebSocket; [done..|by apply negb_true_iff].
Qed.

Lemma wp_tokenRejected m c e h l :
  INV c e l → idle c e → wp (tokenRejected cb m) (λ _ w, invariant cb w) (mkWorld c e h l).
Proof.
  intros HI Hi. unfold tokenRejected. repeat wp_step; try by apply Inv_call.
  - apply wp_scheduleReconnect; [by apply Inv_call|done..].
  - eapply Inv_client; [..|by apply Inv_call]; done.
Qed.

Lemma wp_afterRoomCheck status c e h l :
  INV c e l → idle c e → wp (afterRoomCheck cb status) (λ _ w, invariant cb w) (mkWorld c e h l).
Proof.
  intros HI Hi. unfold afterRoomCheck, endSession. do 2 wp_step.
  destruct (explicitDisconnect c) eqn:Hx; [by wp_step|].
  destruct (status =? 404); [|destruct (status =? 200)].
  - repeat wp_step. apply Inv_call; [done..|].
    pose proof (idle_no_socket c e Hi). destruct (idle_counts c e Hi) as (E1 & E2 & E3 & E4).
    destruct HI. by split.
  - by apply wp_openWithToken.
  - by apply wp_scheduleReconnect.
Qed.

Lemma wp_retryTimerFired t c e h l :
  INV c e l → t ∈ timers e →
  wp (retryTimerFired cb) (λ _ w, invariant cb w)
     (mkWorld c (e <| timers := timers e ∖ {[ t ]} |>) h l).
Proof.
  intros HI Ht. unfold retryTimerFired, rejoinIfRoomExists.
  pose proof (inv_timer _ _ _ _ HI) as Hts. destruct (retryTimer c) as [t'|] eqn:Hr; [|set_solver].
  assert (t' = t) as -> by set_solver.
  assert (timers e ∖ {[ t ]} = ∅) as E by (rewrite Hts; set_solver).
  set (c' := c <| retryTimer := None |>). set (e' := e <| timers := timers e ∖ {[ t ]} |>).
  assert (idle c' e') as Hi.
  { pose proof (inv_one _ _ _ _ HI) as H1. unfold idle, activities in *. cbn.
    rewrite E, size_empty. rewrite Hts, size_singleton in H1. lia. }
  assert (INV c' e' l) as HI'.
  { destruct HI. split; cbn; try done.
    - unfold idle in Hi. lia.
    - intros Hs Hx. destruct (inv_stopped0 Hs Hx). split; [done|exact E]. }
  repeat wp_step; [|by apply (wp_afterRoomCheck 0 c' e')].
  apply (Inv_log c' _ l); [done|]. destruct HI'. split; try done.
  subst c' e'. unfold idle, activities in *. cbn in *. lia.
Qed.

(** The sockets' statuses and the connection flag agree. *)
Lemma Inv_open_joined c e l s b :
  INV c e l → sockets e !! s = Some (Open b) → total cb → _isConnected c = b.
Proof.
  intros HI Hs Ht. destruct b; [by apply (inv_joined _ _ _ _ HI s)|].
  destruct (_isConnected c) eqn:Hc; [|done].
  destruct (inv_conn _ _ _ _ HI Hc) as (s' & Hg & Hs').
  assert (grpc c = Some s) by (by eapply (inv_live _ _ _ _ HI)). congruence.
Qed.

Lemma Inv_open_not_connected c e l s :
  INV c e l → sockets e !! s = Some (Open false) → _isConnected c = false.
Proof.
  intros HI Hs. destruct (_isConnected c) eqn:Hc; [|done].
  destruct (inv_conn _ _ _ _ HI Hc) as (s' & Hg & Hs').
  assert (grpc c = Some s) by (by eapply (inv_live _ _ _ _ HI)). congruence.
Qed.

Lemma wp_handleRoomJoined rj c c0 e l0 h l s :
  INV c0 e l0 → sockets e !! s = Some (Open false) → conn_state l = conn_state l0 → c = c0 →
  wp (handleRoomJoined cb rj) (λ _ w, invariant cb w)
     (mkWorld c (e <| sockets := <[ s := Open true ]> (sockets e) |>) h l).
Proof.
  intros HI Hs Hl ->. unfold handleRoomJoined.
  pose proof (Inv_open_not_connected _ _ _ _ HI Hs) as Hc.
  assert (∀ c' x l', grpc c' = grpc c0 → retryTimer c' = retryTimer c0 →
            explicitDisconnect c' = explicitDisconnect c0 → map_wf (peers c') →
            _isConnected c' = true → hasJoined c' = true → retryCount c' = 0 → Forall is_send l' →
            INV c' (e <| sockets := <[ s := Open true ]> (sockets e) |>) (l' ++ Cb (OnConnect x) :: l)) as Hjoin.
  { intros c' x l' F1 F2 F3 F4 F5 F6 F7 F8. eapply Inv_join; try done; [|by left].
    rewrite conn_state_sends by done. cbn. rewrite Hl, (inv_pairs _ _ _ _ HI), Hc, F5. done. }
  pose proof (inv_roster_wf _ _ _ _ HI) as Hwf.
  repeat first
    [ wp_step
    | match goal with |- invariant cb _ => by apply Hjoin end
    | match goal with |- wp (addPeer _ _) _ _ =>
        eapply wp_mono;
        [ apply wp_addPeer; split; [apply Hjoin; try done; constructor|done]
        | intros [[]|] ? []; cbv beta iota ] end
    | match goal with |- wp (for_each _ _) _ _ =>
        eapply wp_mono;
        [ apply wp_for_each with (I := with_roster); [done|intros [? ?] ? ?; by apply wp_addPeer]
        | by intros ? ? [? ?] ] end
    | done ].
Qed.

(** A client whose current socket is [s]: what [closeFromRelay] and
    [dropAndReconnect] need. *)
Lemma wp_handleSessionEnded reason c e h l s :
  INV c e l → grpc c = Some s →
  wp (handleSessionEnded cb reason) (λ _ w, invariant cb w) (mkWorld c e h l).
Proof.
  intros HI Hg. unfold handleSessionEnded. do 3 wp_step; [by eapply wp_dropAndReconnect|].
  wp_step. eapply wp_mono; [by eapply wp_closeFromRelay|].
  intros [[]|] [c' e' h' l'] [[HI' _] _]; [|done]. repeat wp_step. by apply Inv_call.
Qed.

Lemma wp_handleError err c e h l s :
  INV c e l → grpc c = Some s →
  wp (handleError cb err) (λ _ w, invariant cb w) (mkWorld c e h l).
Proof.
  intros HI Hg. unfold handleError.
  assert (∀ x h' l', Forall is_send l' → neutral x = true →
            wp (closeFromRelay cb ;;
                c ← get;
                when (bool_decide (ErrorEvent_code err = js "ROOM_NOT_FOUND") && hasJoined c)
                  (call cb (OnSessionEnded (js "session_gone"))))
               (λ _ w, invariant cb w) (mkWorld c e h' (l' ++ x :: l))) as Hclose.
  { intros x h' l' Hl' Hx. wp_step.
    eapply wp_mono; [eapply wp_closeFromRelay; [by apply Inv_call|done]|].
    intros [[]|] [c' e' h2 l2] [[HI' _] _]; [|done]. repeat wp_step; [by apply Inv_call|done]. }
  do 3 wp_step; [|by apply Inv_call]. do 2 wp_step. wp_step; [by apply Hclose|by apply Inv_call].
Qed.

(** A message over an open socket. *)
Lemma wp_handleEvent ev b c e h l s :
  INV c e l → sockets e !! s = Some (Open b) →
  match b, CollabEvent_event ev with
  | false, ev_error _ => True | true, ev_roomJoined _ => False | true, _ => True | _, _ => False
  end →
  wp (handleEvent cb ev) (λ _ w, invariant cb w) (mkWorld c e h l).
Proof.
  intros HI Hs Hev. assert (grpc c = Some s) as Hg by (by eapply (inv_live _ _ _ _ HI)).
  assert (b = true → total cb → _isConnected c = true) as Hcn.
  { intros -> Ht. by apply (Inv_open_joined c e l s). }
  pose proof (inv_roster_wf _ _ _ _ HI) as Hwf.
  unfold handleEvent. wp_step. wp_step. wp_step; [|by apply Inv_call].
  assert (INV c e (l0 ++ Cb (OnEvent ev) :: l)) as HI' by (by apply Inv_call).
  clear HI. destruct (CollabEvent_event ev) eqn:Ee; try (by wp_step).
  all: try (eapply wp_handleError || eapply wp_handleSessionEnded; by eauto).
  all: destruct b; [specialize (Hcn eq_refl)|done].
  - done.
  - wp_step.
    + eapply wp_mono; [by apply wp_addPeer|]. by intros ? ? [? _].
    + wp_step. by apply Inv_call.
  - repeat wp_step. apply Inv_call; [done..|].
    apply Inv_peers; [done|by apply map_delete_wf|]. intros Ht Hd. by rewrite Hcn in Hd.
  - unfold handleOwnerChanged. repeat wp_step. apply Inv_call; [done..|].
    eapply Inv_client; [..|eapply (Inv_peers c); [done|by apply set_owner_wf|]]; try done.
    intros Ht Hd. by rewrite Hcn in Hd.
  - repeat wp_step. by apply Inv_call.
  - repeat wp_step. apply Inv_call; [done..|]. by eapply Inv_client; [..|done].
  - repeat wp_step. by apply Inv_call.
Qed.

Lemma wp_onMessage s ev c e h l :
  INV c e l → enabled e (IMessage s ev) = true →
  wp (onMessage cb s ev) (λ _ w, invariant cb w) (mkWorld c e h l).
Proof.
  intros HI He. simpl in He. unfold onMessage, set_status. wp_step. wp_step.
  - (* [roomJoined], over a socket that has not joined *)
    unfold is_roomJoined in *. wp_step.
    destruct (CollabEvent_event ev) eqn:Ee; try done.
    assert (sockets e !! s = Some (Open false)) as Hs.
    { by destruct (sockets e !! s) as [[|[]|]|]. }
    unfold handleEvent. rewrite Ee. repeat wp_step.
    + eapply wp_handleRoomJoined; [done..| |done]. by rewrite conn_state_sends.
    + eapply Inv_join; try done; [apply (inv_roster_wf _ _ _ _ HI)| | |apply (inv_count _ _ _ _ HI)].
      * cbn. by rewrite conn_state_sends, conn_state_neutral, (inv_pairs _ _ _ _ HI).
      * right. intros Ht. by specialize (Hr Ht).
  - unfold is_roomJoined in *.
    destruct (sockets e !! s) as [[|b|]|] eqn:Hs; try done.
    eapply wp_handleEvent; [done..|]. by destruct b, (CollabEvent_event ev).
Qed.

Lemma wp_exec i c e h l :
  INV c e l → orderly (mkWorld c e h l) i →
  wp (exec cb i) (λ _ w, invariant cb w) (mkWorld c e h l).
Proof.
  intros HI [He Ho]. destruct i; simpl in *.
  - by apply wp_connect.
  - by apply wp_disconnect.
  - by apply wp_send_action.
  - by apply wp_send_action.
  - repeat wp_step. apply (wp_for_each _ _ (invariant cb)); [done|].
    intros _ [c' e' h' l'] HI'. wp_step. by apply wp_disconnect.
  - apply bool_decide_eq_true in He. unfold set_status. repeat wp_step.
    by eapply Inv_env; [..|by apply Inv_opened].
  - repeat wp_step. apply wp_connectResolved. by eapply Inv_env; [..|done].
  - by apply wp_onMessage.
  - repeat wp_step. by apply Inv_call.
  - destruct (sockets e !! s) eqn:Hs; [by eapply wp_onClose|done].
  - repeat wp_step. eapply Inv_log; [done|]. apply Nat.ltb_lt in He.
    destruct HI. split; try done. unfold activities in *. cbn. lia.
  - wp_step. wp_step. apply Nat.ltb_lt in He.
    edestruct (Inv_take c e) as [HI' Hi]; [..|by apply wp_tokenFulfilled]; try done. cbn. lia.
  - wp_step. wp_step. apply Nat.ltb_lt in He.
    edestruct (Inv_take c e) as [HI' Hi]; [..|by apply wp_tokenRejected]; try done. cbn. lia.
  - apply bool_decide_eq_true in He. wp_step. wp_step. by apply wp_retryTimerFired.
  - wp_step. wp_step. apply Nat.ltb_lt in He.
    edestruct (Inv_take c e) as [HI' Hi]; [..|by apply wp_afterRoomCheck]; try done. cbn. lia.
Qed.

Lemma invariant_step i w :
  invariant cb w → orderly w i → invariant cb (run1 cb i w).
Proof. destruct w as [c e h l]. apply wp_exec. Qed.

Lemma invariant_new o h : invariant cb (new_world o h).
Proof.
  split; simpl; try done; try (by intros ?; rewrite lookup_empty).
  - change (activities _ _) with (0 + size (∅ : gset nat) + 0)%nat. rewrite size_empty. lia.
  - constructor.
Qed.
End steps.

(** ** Reachable worlds *)

(** The worlds orderly turns of the event loop lead to, from a new client. *)
Inductive reachable `{P : Platform} {H} (cb : Callback → M (World H) unit)
    (o : CollabClientOptions) (h : H) : World H → Prop :=
  | reachable_new : reachable cb o h (new_world o h)
  | reachable_turn w i : reachable cb o h w → orderly w i → reachable cb o h (run1 cb i w).

Lemma reachable_invariant `{P : Platform} {H} (cb : Callback → M (World H) unit) `{!Observer cb} o h w :
  reachable cb o h w → invariant cb w.
Proof. induction 1; [apply invariant_new|by apply invariant_step]. Qed.

(** ** A concrete session

    A page that is not in a browser, whose sockets refuse to send unless
    open, and a client that joins room ["r"] of that relay. *)

Definition node_platform : Platform := {|
  window := None;
  base64Encode := λ l, l;
  grpc_send_error := λ st _, match st with Open _ => None | _ => Some (Error (js "not open")) end
|}.

Lemma node_send_total : send_total (P := node_platform).
Proof. done. Qed.

Definition sample_room : Room := mkRoom (js "r") [] [] None [] false (js "Board").

Definition sample_event (e : CollabEvent_event_case) : CollabEvent := mkCollabEvent [] (js "c2") 0 e.

Definition sample_joined : CollabEvent :=
  sample_event (ev_roomJoined (mkRoomJoined (js "c1") (Some sample_room) 8 2)).

Definition joining : list Input :=
  [ IConnect (connect_args (js "ws://relay.example") (js "r") (js "Ada") []) (js "x1");
    IOpened 0; IConnectResolved 0; IMessage 0 sample_joined ].

(** Every turn of [ins], from [w] on, is orderly. *)
Fixpoint orderly_run `{P : Platform} {H} (cb : Callback → M (World H) unit)
    (ins : list Input) (w : World H) : Prop :=
  match ins with
  | [] => True
  | i :: ins' => orderly w i ∧ orderly_run cb ins' (run1 cb i w)
  end.

Lemma reachable_run `{P : Platform} {H} (cb : Callback → M (World H) unit) o h ins w :
  reachable cb o h w → orderly_run cb ins w → reachable cb o h (run cb ins w).
Proof.
  revert w. induction ins as [|i ins IH]; intros w Hw Ho; [done|].
  destruct Ho as [Hi Ho]. by apply (IH (run1 cb i w)); [apply reachable_turn|].
Qed.

Definition sample_world : World unit :=
  run (P := node_platform) passive joining (new_world default_options tt).

Lemma sample_reachable : reachable (P := node_platform) passive default_options tt sample_world.
Proof.
  apply reachable_run; [constructor|]. split_and!; try done.
  split; [done|]. by right.
Qed.

(** Symbolic execution under an application that never throws. *)
Ltac wp_total :=
  repeat (wp_step; try match goal with
    | Ht : total ?cb, Hr : total ?cb → ?r = Ok tt |- _ => specialize (Hr Ht); subst r; cbn [client env app log]
    end).
