(* ===== verification/ClientReconnect.v ===== *)
(** * The reconnect loop of the relay client

    Bounds on the retry attempts and their delays, over every run of the
    client; what a client that was stopped can still do; how a run of failed
    attempts ends; and that a rejoin only enters a room that exists. *)

From S2P Require Import Prelude JsText JsMap UrlParams Models CollabClient ClientInvariants.
Open Scope Z_scope.

(** ** Attempts and delays *)

(** The retry limit and the delay before attempt [n] the options give. *)
Definition retry_limit (o : CollabClientOptions) : Z := default 5 (opt_maxRetries o).
Definition backoff (o : CollabClientOptions) (n : Z) : Z :=
  Z.min (default 1000 (retryDelayMs o) * 2 ^ (n - 1)) 30000.

(** Reconnect announcements and retry timers stay in the options' bounds. *)
Definition entry_ok (o : CollabClientOptions) (x : Entry) : Prop :=
  match x with
  | Cb (OnReconnecting n) => 1 ≤ n ≤ retry_limit o
  | Eff (ESetTimeout _ d) => ∃ n, 1 ≤ n ≤ retry_limit o ∧ d = backoff o n
  | _ => True
  end.

Definition bounded {H} (o : CollabClientOptions) (w : World H) : Prop :=
  options (client w) = o ∧ maxRetries (client w) = retry_limit o ∧ 0 ≤ retryCount (client w) ∧
  Forall (entry_ok o) (log w).

Lemma sends_ok o l : Forall is_send l → Forall (entry_ok o) l.
Proof. intros Hl. eapply Forall_impl; [exact Hl|]. by intros [[]|[]]. Qed.

Section bounded.
Context `{P : Platform} {H : Type} (cb : Callback → M (World H) unit) `{!Observer cb}.
Context (o : CollabClientOptions).
Abbreviation KEEPS := (keeps (bounded (H := H) o)).

Lemma bounded_modc (f : CollabClient → CollabClient) :
  (∀ c, options (f c) = options c ∧ maxRetries (f c) = maxRetries c ∧
        (0 ≤ retryCount c → 0 ≤ retryCount (f c))) →
  KEEPS (modc f).
Proof. intros Hf w (? & ? & ? & ?). destruct (Hf (client w)) as (? & ? & ?). split_and!; cbn; try congruence; auto. Qed.

Lemma bounded_mode f : KEEPS (mode f).
Proof. by intros w. Qed.

Lemma bounded_record x : entry_ok o x → KEEPS (record x).
Proof. intros Hx w (? & ? & ? & ?). split_and!; try done. by constructor. Qed.

Lemma bounded_call x : (∀ n, x ≠ OnReconnecting n) → KEEPS (call cb x).
Proof.
  intros Hx [c e h l] (? & ? & ? & ?). apply (wp_call cb x (λ _ w, bounded o w)).
  intros r h' l' _ Hl. split_and!; try done. apply Forall_app. split; [by apply sends_ok|].
  constructor; [|done]. destruct x; try done. by edestruct Hx.
Qed.

Hint Resolve bounded_mode : keeps.
Hint Extern 1 (keeps _ (modc _)) => (apply bounded_modc; intros ?; cbn; split_and!; (done || lia)) : keeps.
Hint Extern 1 (keeps _ (record _)) => (apply bounded_record; exact I) : keeps.
Hint Extern 1 (keeps _ (call _ _)) => (apply bounded_call; intros ?; discriminate) : keeps.
Ltac go f := unfold f; repeat keeps_step.

Lemma bounded_fresh : KEEPS fresh.
Proof. go @fresh. Qed.
Hint Resolve bounded_fresh : keeps.
Lemma bounded_resetState : KEEPS resetState.
Proof. go @resetState. Qed.
Lemma bounded_socket_send s a : KEEPS (socket_send s a).
Proof. go @socket_send. Qed.
Lemma bounded_socket_close s : KEEPS (socket_close s).
Proof. go @socket_close. Qed.
Lemma bounded_new_socket u : KEEPS (new_socket u).
Proof. go @new_socket. Qed.
Lemma bounded_clear_timeout t : KEEPS (clear_timeout t).
Proof. go @clear_timeout. Qed.
Hint Resolve bounded_resetState bounded_socket_send bounded_socket_close bounded_new_socket
  bounded_clear_timeout : keeps.

Lemma bounded_endSession r : KEEPS (endSession cb r).
Proof. go @endSession. Qed.
Hint Resolve bounded_endSession : keeps.

(** The one place that counts attempts and sets timers. *)
Lemma bounded_scheduleReconnect : KEEPS (scheduleReconnect cb).
Proof.
  intros w. unfold scheduleReconnect, keeps. destruct w as [c e h l]. intros (Ho & Hm & Hc & Hl). cbn in Ho, Hm, Hc, Hl.
  apply (wp_bind get _ (λ _ w, bounded o w)), wp_get. cbn.
  destruct (maxRetries c <=? retryCount c) eqn:Hle.
  { apply (bounded_endSession _ (mkWorld c e h l)). by split_and!. }
  apply Z.leb_gt in Hle. unfold set_timeout.
  assert (1 ≤ retryCount c + 1 ≤ retry_limit o) as Hn by lia.
  repeat wp_step; split_and!; cbn; try done; try lia; repeat constructor; try done.
  - exists (retryCount c + 1). split; [done|]. unfold reconnect_delay, backoff. cbn. by rewrite Ho.
  - apply Forall_app. split; [by apply sends_ok|]. by constructor.
  - apply Forall_app. split; [by apply sends_ok|]. by constructor.
Qed.
Hint Resolve bounded_scheduleReconnect : keeps.

Lemma bounded_closeFromRelay : KEEPS (closeFromRelay cb).
Proof. go @closeFromRelay. Qed.
Lemma bounded_dropAndReconnect : KEEPS (dropAndReconnect cb).
Proof. go @dropAndReconnect. Qed.
Lemma bounded_handleConnectionClosed : KEEPS (handleConnectionClosed cb).
Proof. go @handleConnectionClosed. Qed.
Lemma bounded_openWebSocket tok : KEEPS (openWebSocket tok).
Proof. go @openWebSocket. Qed.
Lemma bounded_addPeer p : KEEPS (addPeer cb p).
Proof. go @addPeer. Qed.
Hint Resolve bounded_closeFromRelay bounded_dropAndReconnect bounded_handleConnectionClosed
  bounded_openWebSocket bounded_addPeer : keeps.
Lemma bounded_openWithToken : KEEPS openWithToken.
Proof. go @openWithToken. Qed.
Hint Resolve bounded_openWithToken : keeps.
Lemma bounded_afterRoomCheck st : KEEPS (afterRoomCheck cb st).
Proof. go @afterRoomCheck. Qed.
Lemma bounded_disconnect : KEEPS (disconnect cb).
Proof.
  unfold disconnect, removeUnloadListener, clearRetryTimer, leaveAndClose. repeat keeps_step.
Qed.
Lemma bounded_send a now : KEEPS (send a now).
Proof. go @send. Qed.
Hint Resolve bounded_afterRoomCheck bounded_disconnect bounded_send : keeps.

Lemma bounded_handleEvent ev : KEEPS (handleEvent cb ev).
Proof.
  unfold handleEvent, handleError, handleRoomJoined, handleSessionEnded, handleOwnerChanged.
  repeat keeps_step.
Qed.
Hint Resolve bounded_handleEvent : keeps.

Lemma bounded_exec i : KEEPS (exec cb i).
Proof.
  destruct i; cbn [exec]; unfold connect, sendAppMessage, connectResolved, onMessage, onClose,
    set_status, tokenFulfilled, tokenRejected, retryTimerFired, rejoinIfRoomExists;
    repeat keeps_step.
Qed.

Lemma bounded_run ins h : bounded o (run cb ins (new_world o h)).
Proof.
  unfold run. assert (bounded o (new_world o h)) as Hb by (by split_and!).
  revert Hb. generalize (new_world o h).
  induction ins as [|i ins IH]; intros w Hw; [done|]. apply IH. by apply bounded_exec.
Qed.
End bounded.

(** ** Stopped clients *)

(** What a client without a connection to open can still log: answers to its
    own calls, and errors of a token chain that was under way. *)
Definition inert (x : Entry) : Prop :=
  match x with
  | Cb (OnError _) => True
  | Cb _ => False
  | Eff (ENewSocket _ _ | ESetTimeout _ _ | EFetch _ | EAddListener _) => False
  | Eff _ => True
  end.

Lemma sends_inert l : Forall is_send l → Forall inert l.
Proof. intros Hl. eapply Forall_impl; [exact Hl|]. by intros [|[]]. Qed.

Definition quiet (c : CollabClient) (e : Env) : Prop :=
  explicitDisconnect c = true ∧ grpc c = None ∧ timers e = ∅.

Definition stays_quiet {H} (l0 : list Entry) (w : World H) : Prop :=
  quiet (client w) (env w) ∧ ∃ l, log w = l ++ l0 ∧ Forall inert l.

Definition is_connect (i : Input) : bool := match i with IConnect _ _ => true | _ => false end.

Section quiet.
Context `{P : Platform} {H : Type} (cb : Callback → M (World H) unit) `{!Observer cb}.

Lemma stays_quiet_log l0 c e h l x l' :
  stays_quiet (H := H) l0 (mkWorld c e h l) → Forall is_send l' → inert x →
  stays_quiet (H := H) l0 (mkWorld c e h (l' ++ x :: l)).
Proof.
  intros [Hq (l1 & Hl & Hi)] Hl' Hx. cbn in *. split; [done|]. exists (l' ++ x :: l1).
  split; [by rewrite Hl, <-app_assoc|]. apply Forall_app. split; [by apply sends_inert|by constructor].
Qed.

(** [disconnect] on a client without a connection only drops its page listener. *)
Lemma quiet_disconnect l0 c e h l :
  invariant cb (mkWorld c e h l) → stays_quiet (H := H) l0 (mkWorld c e h l) →
  wp (disconnect cb) (λ _ w, invariant cb w ∧ stays_quiet l0 w) (mkWorld c e h l).
Proof.
  intros HI Hs. refine (conj (wp_disconnect cb c e h l HI) _).
  change (wp (disconnect cb) (λ _ w, stays_quiet l0 w) (mkWorld c e h l)).
  destruct Hs as [(Hx & Hg & Ht) (l1 & Hl & Hi)]. cbn in *.
  pose proof (inv_timer _ _ _ _ HI) as Hr. cbn in Hr. rewrite Ht in Hr.
  destruct (retryTimer c) as [t|] eqn:Et; [set_solver|].
  unfold disconnect, removeUnloadListener, clearRetryTimer, leaveAndClose.
  repeat wp_step; cbn in *; try congruence.
  all: split; [done|].
  1: eexists (_ :: l1); cbn; rewrite Hl; split; [done|by constructor].
  all: by exists l1.
Qed.

Lemma quiet_step i w l0 :
  invariant cb w → stays_quiet l0 w → orderly w i → is_connect i = false →
  stays_quiet l0 (run1 cb i w).
Proof.
  destruct w as [c e h l]. intros HI Hs [He _] Hc.
  change (wp (exec cb i) (λ _ w, stays_quiet l0 w) (mkWorld c e h l)).
  pose proof Hs as [(Hx & Hg & Ht) (l1 & Hl & Hi)]. cbn in *.
  assert (∀ s b, sockets e !! s ≠ Some (Open b)) as Hopen.
  { intros s b Hst. pose proof (inv_live _ _ _ _ HI s _ Hst ltac:(done)) as Hl'. cbn in Hl'. congruence. }
  destruct i; try done; cbn [exec]; cbn in He.
  - eapply wp_mono; [by apply quiet_disconnect|]. by intros ? ? [_ ?].
  - unfold send. repeat wp_step; congruence || done.
  - unfold sendAppMessage, send. repeat wp_step; congruence || done.
  - repeat wp_step. eapply wp_mono.
    { apply (wp_for_each _ _ (λ w, invariant cb w ∧ stays_quiet l0 w)); [done|].
      intros _ [c' e' h' l'] [HI' Hs']. wp_step. by apply quiet_disconnect. }
    by intros ? ? [_ ?].
  - unfold connectResolved. repeat wp_step; congruence || done.
  - by destruct (sockets e !! s) as [[|[]|]|] eqn:Hst; try done; edestruct Hopen.
  - repeat wp_step. by apply stays_quiet_log.
  - unfold onClose, set_status. repeat wp_step; [|done].
    apply bool_decide_eq_true in E. cbn in E. congruence.
  - repeat wp_step. by apply (stays_quiet_log l0 c _ h l _ []).
  - unfold tokenFulfilled. repeat wp_step; [|done]. cbn in *. by rewrite Hx in E.
  - unfold tokenRejected. repeat wp_step; try congruence; by apply stays_quiet_log.
  - apply bool_decide_eq_true in He. rewrite Ht in He. set_solver.
  - unfold afterRoomCheck. repeat wp_step; congruence || done.
Qed.

Lemma quiet_run ins w l0 :
  invariant cb w → stays_quiet l0 w → orderly_run cb ins w → forallb (negb ∘ is_connect) ins = true →
  stays_quiet l0 (run cb ins w).
Proof.
  revert w. induction ins as [|i ins IH]; intros w HI Hs Ho Hc; [done|].
  destruct Ho as [Hi Ho]. simpl in Hc. apply andb_prop in Hc as [Hc1 Hc2].
  apply negb_true_iff in Hc1.
  apply (IH (run1 cb i w)); [by apply invariant_step|by apply quiet_step|done..].
Qed.
End quiet.

(** ** Rejoins *)

(** Room checks and new sockets aim at the room [c0] is in. *)
Definition aims_at `{P : Platform} (c0 : CollabClient) (x : Entry) : Prop :=
  match x with
  | Eff (EFetch url) => room_check_url c0 = Some url
  | Eff (ENewSocket _ url) => ∃ tok, sync_url c0 tok = Some url
  | _ => True
  end.

Definition in_room `{P : Platform} {H} (c0 : CollabClient) (l0 : list Entry) (w : World H) : Prop :=
  hasJoined (client w) = true ∧ _sessionId (client w) = _sessionId c0 ∧
  _relayUrl (client w) = _relayUrl c0 ∧ ∃ l, log w = l ++ l0 ∧ Forall (aims_at c0) l.

(** Inputs other than a new [connect] and the relay's answer to a join. *)
Definition same_room (i : Input) : bool :=
  match i with
  | IConnect _ _ => false
  | IMessage _ ev => negb (is_roomJoined ev)
  | _ => true
  end.

Section rejoin.
Context `{P : Platform} {H : Type} (cb : Callback → M (World H) unit) `{!Observer cb}.
Context (c0 : CollabClient) (l0 : list Entry).
Abbreviation KEEPS := (keeps (in_room (H := H) c0 l0)).

Lemma in_room_urls (c : CollabClient) :
  _sessionId c = _sessionId c0 → _relayUrl c = _relayUrl c0 →
  room_check_url c = room_check_url c0 ∧ ∀ tok, sync_url c tok = sync_url c0 tok.
Proof. intros E1 E2. unfold room_check_url, sync_url, resolved_url. by rewrite E1, E2. Qed.

Lemma in_room_modc (f : CollabClient → CollabClient) :
  (∀ c, hasJoined (f c) = hasJoined c ∧ _sessionId (f c) = _sessionId c ∧ _relayUrl (f c) = _relayUrl c) →
  KEEPS (modc f).
Proof. intros Hf w (? & ? & ? & ?). destruct (Hf (client w)) as (? & ? & ?). split_and!; cbn; congruence || auto. Qed.

Lemma in_room_mode f : KEEPS (mode f).
Proof. by intros w. Qed.

Lemma in_room_record x : aims_at c0 x → KEEPS (record x).
Proof.
  intros Hx w (? & ? & ? & l & Hl & ?). split_and!; try done.
  exists (x :: l). cbn. rewrite Hl. split; [done|by constructor].
Qed.

Lemma in_room_call x : KEEPS (call cb x).
Proof.
  intros [c e h l] (? & ? & ? & l1 & Hl & ?). apply (wp_call cb x (λ _ w, in_room c0 l0 w)).
  intros r h' l' _ Hs. split_and!; try done. exists (l' ++ Cb x :: l1). cbn in *.
  rewrite Hl, <-app_assoc. split; [done|]. apply Forall_app. split; [|by constructor].
  eapply Forall_impl; [exact Hs|]. by intros [|[]].
Qed.

Hint Resolve in_room_mode in_room_call : keeps.
Hint Extern 1 (keeps _ (modc _)) => (apply in_room_modc; intros ?; done) : keeps.
Hint Extern 1 (keeps _ (record _)) => (apply in_room_record; exact I) : keeps.
Ltac go := repeat keeps_step.

Lemma in_room_openWebSocket tok : KEEPS (openWebSocket tok).
Proof.
  intros [c e h l] (? & E1 & E2 & l1 & Hl & ?). cbn in *.
  change (wp (openWebSocket tok) (λ _ w, in_room c0 l0 w) (mkWorld c e h l)).
  destruct (in_room_urls c E1 E2) as [_ Hu]. unfold openWebSocket, new_socket.
  repeat wp_step; (split_and!; [done..|]); [|by exists l1].
  eexists (_ :: l1). cbn. rewrite Hl. split; [done|]. constructor; [|done].
  exists tok. by rewrite <-Hu.
Qed.
Hint Resolve in_room_openWebSocket : keeps.
Lemma in_room_openWithToken : KEEPS openWithToken.
Proof. unfold openWithToken. go. Qed.
Lemma in_room_scheduleReconnect : KEEPS (scheduleReconnect cb).
Proof. unfold scheduleReconnect, endSession, set_timeout, fresh. go. Qed.
Hint Resolve in_room_openWithToken in_room_scheduleReconnect : keeps.
Lemma in_room_afterRoomCheck st : KEEPS (afterRoomCheck cb st).
Proof. unfold afterRoomCheck, endSession. go. Qed.
Lemma in_room_closeFromRelay : KEEPS (closeFromRelay cb).
Proof. unfold closeFromRelay, socket_close, resetState. go. Qed.
Lemma in_room_disconnect : KEEPS (disconnect cb).
Proof.
  unfold disconnect, removeUnloadListener, clearRetryTimer, clear_timeout, leaveAndClose,
    socket_send, socket_close, resetState. go.
Qed.
Hint Resolve in_room_afterRoomCheck in_room_closeFromRelay in_room_disconnect : keeps.

Lemma in_room_rejoinIfRoomExists : KEEPS (rejoinIfRoomExists cb).
Proof.
  intros [c e h l] Hw. pose proof Hw as (? & E1 & E2 & l1 & Hl & ?). cbn in *.
  change (wp (rejoinIfRoomExists cb) (λ _ w, in_room c0 l0 w) (mkWorld c e h l)).
  destruct (in_room_urls c E1 E2) as [Hu _]. unfold rejoinIfRoomExists. repeat wp_step.
  - split_and!; try done. eexists (_ :: l1). cbn. rewrite Hl. split; [done|].
    constructor; [|done]. cbn. congruence.
  - by apply in_room_afterRoomCheck.
Qed.
Hint Resolve in_room_rejoinIfRoomExists : keeps.

Lemma in_room_exec i : same_room i = true → KEEPS (exec cb i).
Proof.
  destruct i; cbn [exec same_room]; intros Hi; try done.
  all: unfold sendAppMessage, send, connectResolved, onClose, onMessage, handleEvent,
    handleError, handleSessionEnded, handleOwnerChanged, dropAndReconnect, handleConnectionClosed,
    addPeer, resetState, socket_send, socket_close, set_status, tokenFulfilled, tokenRejected,
    retryTimerFired.
  all: try match goal with ev : CollabEvent |- _ =>
    unfold is_roomJoined in Hi; destruct (CollabEvent_event ev) end; try done; go.
Qed.

Lemma in_room_run ins w :
  forallb same_room ins = true → in_room c0 l0 w → in_room c0 l0 (run cb ins w).
Proof.
  revert w. induction ins as [|i ins IH]; intros w Hi Hw; [done|].
  simpl in Hi. apply andb_prop in Hi as [Hi Hins].
  apply (IH (run1 cb i w)); [done|by apply in_room_exec].
Qed.
End rejoin.

(** ** A relay that stays away *)

Definition callbacks (l : list Entry) : list Callback :=
  omap (λ x, match x with Cb c => Some c | _ => None end) l.

Definition delays (l : list Entry) : list Z :=
  omap (λ x, match x with Eff (ESetTimeout _ d) => Some d | _ => None end) l.

(** One failed attempt: the retry timer fires and the room check finds no relay. *)
Definition failed_attempt `{P : Platform} {H} (cb : Callback → M (World H) unit) (w : World H) : World H :=
  match retryTimer (client w) with
  | Some t => run cb [ITimer t; IRoomCheck None] w
  | None => w
  end.

Section exhaust.
Context `{P : Platform} {H : Type} (cb : Callback → M (World H) unit) `{!Observer cb}.

Lemma callbacks_sends l' l : Forall is_send l' → callbacks (l' ++ l) = callbacks l.
Proof. unfold callbacks. induction 1 as [|[?|[]] l' Hx _ IH]; [done|done|..]; by destruct Hx || done. Qed.

Lemma delays_sends l' l : Forall is_send l' → delays (l' ++ l) = delays l.
Proof. unfold delays. induction 1 as [|[?|[]] l' Hx _ IH]; [done|done|..]; by destruct Hx || done. Qed.

(** The client between two attempts. *)
Definition between (c : CollabClient) (e : Env) : Prop :=
  explicitDisconnect c = false ∧ retryTimer c = None ∧ timers e = ∅ ∧ is_Some (room_check_url c).

Definition gave_up (c0 : CollabClient) (n : nat) (l : list Entry) (w : World H) : Prop :=
  callbacks (log w) = OnSessionEnded (js "reconnect_failed")
    :: reverse (OnReconnecting <$> seqZ (retryCount c0 + 1) (Z.of_nat n)) ++ callbacks l ∧
  delays (log w) = reverse (reconnect_delay c0 <$> seqZ (retryCount c0 + 1) (Z.of_nat n)) ++ delays l ∧
  explicitDisconnect (client w) = true ∧ _isConnecting (client w) = false ∧
  retryTimer (client w) = None ∧ timers (env w) = ∅.

Lemma call_result x c e h l :
  total cb → ∃ h' l', call cb x (mkWorld c e h l) = (Ok tt, mkWorld c e h' (l' ++ Cb x :: l)) ∧ Forall is_send l'.
Proof.
  intros Ht. unfold call. destruct (observes x (mkWorld c e h (Cb x :: l))) as (l' & Ec & Ee & El & Hs).
  specialize (Ht x (mkWorld c e h (Cb x :: l))).
  destruct (cb x (mkWorld c e h (Cb x :: l))) as [r [c' e' h' l'']] eqn:E. cbn in *. subst.
  exists h', l'. split; [|done]. unfold mbind, M_bind, record, modify. cbn. by rewrite E.
Qed.

Lemma schedule_last c e h l :
  total cb → maxRetries c ≤ retryCount c →
  ∃ h' l', (scheduleReconnect cb (mkWorld c e h l)).2 =
    mkWorld (c <| explicitDisconnect := true |> <| _isConnecting := false |>) e h'
      (l' ++ Cb (OnSessionEnded (js "reconnect_failed")) :: l) ∧ Forall is_send l'.
Proof.
  intros Ht Hle. apply Z.leb_le in Hle.
  edestruct (call_result (OnSessionEnded (js "reconnect_failed"))) as (h' & l' & E & Hs); [done|].
  exists h', l'. split; [|done]. unfold scheduleReconnect, endSession, get, gets, modc, modify, mbind, M_bind.
  cbn. rewrite Hle. cbn. by rewrite E.
Qed.

Lemma schedule_next c e h l :
  total cb → retryCount c < maxRetries c →
  ∃ h' l', (scheduleReconnect cb (mkWorld c e h l)).2 =
    mkWorld (c <| retryCount := retryCount c + 1 |> <| _isConnecting := true |> <| retryTimer := Some (nextId e) |>)
      (e <| nextId := S (nextId e) |> <| timers := {[ nextId e ]} ∪ timers e |>) h'
      (Eff (ESetTimeout (nextId e) (reconnect_delay c (retryCount c + 1)))
         :: l' ++ Cb (OnReconnecting (retryCount c + 1)) :: l) ∧ Forall is_send l'.
Proof.
  intros Ht Hlt. apply Z.leb_gt in Hlt.
  edestruct (call_result (OnReconnecting (retryCount c + 1))) as (h' & l' & E & Hs); [done|].
  exists h', l'. split; [|done]. unfold scheduleReconnect, get, gets, modc, modify, mbind, M_bind.
  cbn. rewrite Hlt. cbn. by rewrite E.
Qed.

Lemma attempt_fails c e h l t url :
  explicitDisconnect c = false → retryTimer c = Some t → room_check_url c = Some url →
  failed_attempt cb (mkWorld c e h l) =
    (scheduleReconnect cb (mkWorld (c <| retryTimer := None |>)
       (e <| timers := timers e ∖ {[ t ]} |> <| fetches := fetches e |>) h (Eff (EFetch url) :: l))).2.
Proof.
  intros Hx Ht Hu. assert (room_check_url (c <| retryTimer := None |>) = Some url) as Hu' by done.
  unfold failed_attempt, run, run1. cbn [client]. rewrite Ht. cbn [foldl exec].
  unfold retryTimerFired, rejoinIfRoomExists, afterRoomCheck, get, gets, modc, mode, modify, mbind, M_bind.
  cbn -[scheduleReconnect room_check_url]. cbn -[scheduleReconnect room_check_url] in Hu'.
  rewrite Hu'. cbn -[scheduleReconnect room_check_url]. by rewrite Hx.
Qed.

Lemma exhaust n : total cb → ∀ c e h l,
  between c e → maxRetries c = retryCount c + Z.of_nat n ∨ n = 0%nat ∧ maxRetries c ≤ retryCount c →
  gave_up c n l (Nat.iter n (failed_attempt cb) (scheduleReconnect cb (mkWorld c e h l)).2).
Proof.
  intros Ht. induction n as [|n IH]; intros c e h l (Hx & Hr & Hts & [url Hu]) Hn.
  - destruct (schedule_last c e h l Ht) as (h' & l' & E & Hs); [lia|].
    simpl. rewrite E. split_and!; try done; cbn.
    + by rewrite callbacks_sends.
    + by rewrite delays_sends.
  - destruct (schedule_next c e h l Ht) as (h' & l' & E & Hs); [lia|].
    rewrite E, Nat.iter_succ_r. rewrite (attempt_fails _ _ _ _ (nextId e) url) by done.
    match goal with |- context [scheduleReconnect cb (mkWorld ?c1 ?e1 ?h1 ?l1)] =>
      destruct (IH c1 e1 h1 l1) as (I1 & I2 & I3) end.
    + split_and!; [done|done| |by exists url]. cbn. rewrite Hts. set_solver.
    + cbn. lia.
    + unfold gave_up. rewrite seqZ_cons by lia. replace (Z.pred (Z.of_nat (S n))) with (Z.of_nat n) by lia.
      rewrite !fmap_cons, !reverse_cons, <-!app_assoc.
      split; [rewrite I1|split; [rewrite I2|exact I3]]; cbn.
      * by rewrite callbacks_sends, <-Z.add_1_r.
      * by rewrite delays_sends, <-Z.add_1_r.
Qed.
End exhaust.

Lemma reachable_bounded `{P : Platform} {H} (cb : Callback → M (World H) unit) `{!Observer cb} o h w :
  reachable cb o h w → bounded o w.
Proof. induction 1 as [|w i _ IH]; [by split_and!|]. by apply (bounded_exec cb o i). Qed.

(** Closing the current socket of a connected client. *)
Lemma close_connected `{P : Platform} {H} (cb : Callback → M (World H) unit) `{!Observer cb} c e h l s :
  total cb → grpc c = Some s → _isConnected c = true → explicitDisconnect c = false →
  hasJoined c = true → reconnectEnabled c = true →
  ∃ h' l', run1 cb (IClose s) (mkWorld c e h l) =
    (scheduleReconnect cb (mkWorld (reset_client c) (e <| sockets := <[ s := Closed ]> (sockets e) |>)
       h' (l' ++ Cb OnDisconnect :: l))).2 ∧ Forall is_send l'.
Proof.
  intros Ht Hg Hc Hx Hj Hr.
  destruct (call_result cb OnDisconnect (reset_client c) (e <| sockets := <[ s := Closed ]> (sockets e) |>) h l Ht)
    as (h' & l' & E & Hs).
  exists h', l'. split; [|done].
  unfold run1, exec, onClose, set_status, handleConnectionClosed, resetState, reconnectEnabled in *.
  unfold get, gets, modc, mode, modify, mbind, M_bind in *. cbn -[scheduleReconnect] in *.
  rewrite Hg, bool_decide_eq_true_2 by done. cbn -[scheduleReconnect].
  rewrite Hc. cbn -[scheduleReconnect]. unfold reset_client in E. cbn in E. rewrite E.
  cbn -[scheduleReconnect].
  assert (negb (explicitDisconnect c) && hasJoined c && default true (reconnect (options c)) = true) as ->
    by (by rewrite Hx, Hj, Hr).
  done.
Qed.

(** ** Properties *)

(** C34: whatever happens to the client, every [onReconnecting] it fires carries
    an attempt number from 1 to the retry limit, and every timer it sets has
    the backoff delay of such an attempt. *)
Theorem reconnect_attempts_bounded `{P : Platform} {H} (cb : Callback → M (World H) unit)
    `{!Observer cb} (o : CollabClientOptions) (ins : list Input) (h : H) :
  Forall (entry_ok o) (log (run cb ins (new_world o h))).
Proof. apply (bounded_run cb o ins h). Qed.

Lemma reconnect_attempts_bounded_witness :
  let ins := joining ++ [IClose 0; ITimer 1; IRoomCheck None] in
  Forall (entry_ok default_options)
    (log (run (P := node_platform) passive ins (new_world default_options tt))).
Proof. apply (reconnect_attempts_bounded (P := node_platform) passive default_options). Defined.

(** The delays double from the configured one up to 30 s: the first
    attempt waits [retryDelayMs], each later one twice as long as the one
    before, none more than 30 s. *)
Theorem reconnect_delay_doubles (c : CollabClient) (n : Z) :
  1 ≤ n → 0 ≤ default 1000 (retryDelayMs (options c)) →
  reconnect_delay c 1 = Z.min (default 1000 (retryDelayMs (options c))) 30000 ∧
  reconnect_delay c (n + 1) = Z.min (2 * reconnect_delay c n) 30000 ∧
  0 ≤ reconnect_delay c n ≤ reconnect_delay c (n + 1) ∧ reconnect_delay c n ≤ 30000.
Proof.
  intros Hn Hd. unfold reconnect_delay. set (d := default 1000 _) in *.
  replace (n + 1 - 1) with (Z.succ (n - 1)) by lia. rewrite Z.pow_succ_r by lia.
  assert (0 < 2 ^ (n - 1)) by lia. nia.
Qed.

Lemma reconnect_delay_doubles_witness :
  let c := new_client default_options in
  reconnect_delay c 1 = 1000 ∧ reconnect_delay c 5 = 16000 ∧ reconnect_delay c 6 = 30000 ∧
  reconnect_delay c (5 + 1) = Z.min (2 * reconnect_delay c 5) 30000.
Proof.
  split_and!; [done..|]. destruct (reconnect_delay_doubles (new_client default_options) 5) as (_ & E & _); [done..|].
  exact E.
Defined.



(** C20: when the connection of a joined client closes and the relay stays
    unreachable, the client announces exactly the attempts 1 to [maxRetries],
    after one [onDisconnect], with the backoff delays, and then ends the
    session with "reconnect_failed". *)
Theorem reconnect_gives_up `{P : Platform} {H} (cb : Callback → M (World H) unit)
    `{!Observer cb} o (h : H) (w : World H) (s : nat) :
  total cb → send_total → reachable cb o h w →
  _isConnected (client w) = true → grpc (client w) = Some s →
  default true (reconnect o) = true → is_Some (room_check_url (client w)) →
  let n := Z.to_nat (retry_limit o) in
  let w' := Nat.iter n (failed_attempt cb) (run1 cb (IClose s) w) in
  callbacks (log w') = OnSessionEnded (js "reconnect_failed")
    :: reverse (OnReconnecting <$> seqZ 1 (Z.of_nat n)) ++ OnDisconnect :: callbacks (log w) ∧
  delays (log w') = reverse (backoff o <$> seqZ 1 (Z.of_nat n)) ++ delays (log w) ∧
  explicitDisconnect (client w') = true ∧ retryTimer (client w') = None ∧ timers (env w') = ∅.
Proof.
  intros Ht Hs Hw Hc Hg Hr Hu n w'.
  destruct (reachable_bounded cb o h w Hw) as (Ho & Hm & _).
  pose proof (reachable_invariant cb o h w Hw) as HI.
  destruct (inv_count _ _ _ _ HI Hc) as [Hj Hk].
  destruct w as [c e h0 l]. cbn in *.
  assert (explicitDisconnect c = false) as Hx.
  { destruct (explicitDisconnect c) eqn:Hx; [|done]. destruct (inv_stopped _ _ _ _ HI Hs Hx). cbn in *. congruence. }
  destruct (activities_socket c e s Hg (inv_one _ _ _ _ HI)) as (_ & _ & Hts & _).
  assert (retryTimer c = None) as Hrt.
  { pose proof (inv_timer _ _ _ _ HI) as E. cbn in E. rewrite Hts in E. destruct (retryTimer c); [set_solver|done]. }
  destruct (close_connected cb c e h0 l s Ht Hg Hc Hx Hj) as (h' & l' & E & Hl).
  { unfold reconnectEnabled. by rewrite Ho. }
  subst w'. rewrite E. edestruct (exhaust cb n Ht) as (I1 & I2 & I3 & _ & I4 & I5); [..|].
  3: { rewrite I1, I2. cbn. rewrite callbacks_sends, delays_sends, Hk by done.
       split_and!; try done. unfold reconnect_delay, backoff. cbn. by rewrite Ho. }
  - by split_and!.
  - cbn. unfold n. rewrite Hk, Hm. lia.
Qed.

Lemma reconnect_gives_up_witness :
  let n := Z.to_nat (retry_limit default_options) in
  let w' := Nat.iter n (failed_attempt (P := node_platform) passive)
              (run1 (P := node_platform) passive (IClose 0) sample_world) in
  delays (log w') = reverse (backoff default_options <$> seqZ 1 (Z.of_nat n)) ++ delays (log sample_world) ∧
  backoff default_options <$> seqZ 1 (Z.of_nat n) = [1000; 2000; 4000; 8000; 16000].
Proof.
  split; [|vm_compute; reflexivity].
  refine (proj1 (proj2 (reconnect_gives_up (P := node_platform) passive default_options tt sample_world 0
    passive_total node_send_total sample_reachable _ _ _ _))).
  1-3: vm_compute; reflexivity.
  vm_compute. by eexists.
Defined.

(** C32: a client that has joined comes back to the same room: until a new
    [connect] or a new answer to its join, every room check and every socket
    it opens aims at the room it was in, and every join it sends after a
    reconnect carries that session id and [mustExist], so that the relay does
    not recreate the room. *)
Theorem rejoin_same_room `{P : Platform} {H} (cb : Callback → M (World H) unit)
    `{!Observer cb} (w : World H) (ins : list Input) (s : nat) :
  hasJoined (client w) = true → forallb same_room ins = true →
  let w1 := run cb ins w in
  in_room (client w) (log w) w1 ∧
  (log (run1 cb (IConnectResolved s) w1) = log w1 ∨
   ∃ s' a j, log (run1 cb (IConnectResolved s) w1) = Eff (ESend s' a) :: log w1 ∧
     CollabActionJson_join a = Some j ∧ JoinRoomJson_mustExist j = Some true ∧
     JoinRoomJson_sessionId j = Some (_sessionId (client w))).
Proof.
  intros Hj Hi w1.
  assert (in_room (client w) (log w) w1) as Hw1.
  { apply in_room_run; try done. split_and!; try done. by exists []. }
  split; [done|]. destruct w1 as [c e h l]. destruct Hw1 as (Hj1 & Hsid & _). cbn in Hj1, Hsid.
  pose (Q := λ (_ : outcome unit) (w' : World H), log w' = l ∨ ∃ s' a j, log w' = Eff (ESend s' a) :: l ∧
     CollabActionJson_join a = Some j ∧ JoinRoomJson_mustExist j = Some true ∧
     JoinRoomJson_sessionId j = Some (_sessionId (client w))).
  change (wp (exec cb (IConnectResolved s)) Q (mkWorld c e h l)).
  cbn [exec]. unfold connectResolved. repeat wp_step; try by left.
  right. cbn. do 3 eexists. split; [done|]. split; [done|]. cbn. by rewrite Hj1, Hsid.
Qed.

Lemma rejoin_same_room_witness :
  let ins := [IClose 0; ITimer 1; IRoomCheck (Some 200); IOpened 2] in
  in_room (P := node_platform) (client sample_world) (log sample_world)
    (run (P := node_platform) passive ins sample_world).
Proof. by apply (rejoin_same_room (P := node_platform) passive sample_world _ 2). Defined.
