(* ===== verification/ClientSession.v ===== *)
(** * Sessions of the relay client

    What a session looks like to the application: connects and disconnects in
    turn, one activity at a time, the handshake, the roster, the outcome of
    each relay event that ends a session, and the messages and URLs the client
    sends. *)

From S2P Require Import Prelude JsText JsMap UrlParams Models CollabClient ClientInvariants ClientReconnect.
Open Scope Z_scope.

(** ** The roster, abstractly *)

Abbreviation roster := (gmap jsstr PeerInfoJson).

(** The roster a client keeps, as a finite map. *)
Definition roster_of (c : CollabClient) : roster := list_to_map (peers c).

Definition roster_add (p : PeerInfoJson) (R : roster) : roster :=
  match PeerInfoJson_clientId p with
  | Some id => if truthy id then <[ id := p ]> R else R
  | None => R
  end.

(** The entry a client makes for itself when [rj] arrives. *)
Definition joined_self (c : CollabClient) (rj : RoomJoined) : PeerInfoJson :=
  selfPeer (c <| _clientId := RoomJoined_clientId rj |>).

(** What an event does to the roster, as the relay means it. *)
Definition roster_step (c : CollabClient) (ev : CollabEvent) (R : roster) : roster :=
  match CollabEvent_event ev with
  | ev_roomJoined rj =>
      foldl (λ R '(_, p), roster_add (peerToJson p) R) (roster_add (joined_self c rj) ∅)
            (match RoomJoined_room rj with Some r => Room_peers r | None => [] end)
  | ev_peerJoined pj =>
      match PeerJoined_peer pj with Some p => roster_add (peerToJson p) R | None => R end
  | ev_peerLeft pl => delete (PeerLeft_clientId pl) R
  | ev_ownerChanged oc => map_imap (λ id p, Some (setOwner (OwnerChanged_newOwnerClientId oc) id p)) R
  | ev_sessionEnded _ => ∅
  | _ => R
  end.

Section roster.
Implicit Types (m : jsmap jsstr PeerInfoJson).

Lemma list_to_map_get m k : (list_to_map m : roster) !! k = map_get k m.
Proof.
  induction m as [|[k' v] m IH]; simpl; [apply lookup_empty|].
  destruct (decide (k' = k)) as [->|Hk]; [by rewrite lookup_insert_eq|by rewrite lookup_insert_ne].
Qed.

Lemma list_to_map_set k v m : (list_to_map (map_set k v m) : roster) = <[ k := v ]> (list_to_map m).
Proof.
  apply map_eq. intros k'. rewrite list_to_map_get. destruct (decide (k = k')) as [<-|Hk].
  - by rewrite map_get_set, lookup_insert_eq.
  - by rewrite map_get_set_ne, lookup_insert_ne, list_to_map_get.
Qed.

Lemma list_to_map_delete k m :
  map_wf m → (list_to_map (map_delete k m) : roster) = delete k (list_to_map m).
Proof.
  intros Hw. apply map_eq. intros k'. rewrite list_to_map_get. destruct (decide (k = k')) as [<-|Hk].
  - by rewrite map_get_delete, lookup_delete_eq.
  - by rewrite map_get_delete_ne, lookup_delete_ne, list_to_map_get.
Qed.

Lemma list_to_map_each (f : jsstr → PeerInfoJson → PeerInfoJson) m :
  map_wf m →
  (list_to_map (foldl (λ acc '(k, v), map_set k (f k v) acc) m m) : roster)
  = map_imap (λ k v, Some (f k v)) (list_to_map m).
Proof.
  intros Hw. rewrite map_set_each by done. apply map_eq. intros k.
  rewrite list_to_map_get, map_get_each, map_lookup_imap, list_to_map_get.
  by destruct (map_get k m).
Qed.
End roster.

Section refine.
Context `{P : Platform} {H : Type} (cb : Callback → M (World H) unit) `{!Observer cb} (Ht : total cb).

Lemma wp_addPeer_roster p Q c e h l :
  (∀ m h' l', (list_to_map m : roster) = roster_add p (roster_of c) →
     Q (Ok tt) (mkWorld (c <| peers := m |>) e h' l')) →
  wp (addPeer cb p) Q (mkWorld c e h l).
Proof.
  intros HQ. unfold addPeer, roster_add in *. wp_total.
  - apply HQ. rewrite E. apply list_to_map_set.
  - destruct c. apply HQ. by rewrite E.
  - destruct c. by apply HQ.
Qed.

Lemma wp_addPeers_roster (ps : list (jsstr * PeerInfo)) c e h l :
  wp (for_each (λ '(_, p), addPeer cb (peerToJson p)) ps)
     (λ _ w, roster_of (client w) = foldl (λ R '(_, p), roster_add (peerToJson p) R) (roster_of c) ps)
     (mkWorld c e h l).
Proof.
  revert c h l. induction ps as [|[k p] ps IH]; intros c h l; [by apply wp_ret|].
  simpl. wp_step. apply wp_addPeer_roster. intros m h' l' <-. apply IH.
Qed.

Lemma wp_closeFromRelay_roster c e h l :
  wp (closeFromRelay cb) (λ r w, r = Ok tt ∧ roster_of (client w) = ∅) (mkWorld c e h l).
Proof. unfold closeFromRelay, socket_close. by wp_total. Qed.

Lemma wp_handleEvent_roster ev c e h l :
  map_wf (peers c) → (_isConnected c = false → peers c = []) →
  wp (handleEvent cb ev) (λ _ w, roster_of (client w) = roster_step c ev (roster_of c)) (mkWorld c e h l).
Proof.
  intros Hw Hc. unfold handleEvent, roster_step.
  destruct (CollabEvent_event ev) as [rj|[peer]|pl|?|?|?|?|?|err|?|se|oc|?|?|?|].
  all: try (wp_total; done).
  - unfold handleRoomJoined. wp_total; apply wp_addPeer_roster; intros m h' l' Hm; wp_total.
    all: try (eapply wp_mono; [apply wp_addPeers_roster|]; intros _ w ->).
    all: unfold roster_of; cbn; rewrite Hm; unfold joined_self, roster_of; cbn; done.
  - wp_total; [|done]. by apply wp_addPeer_roster.
  - wp_total. by apply list_to_map_delete.
  - unfold handleError. wp_total.
    + eapply wp_mono; [apply wp_closeFromRelay_roster|]. intros r [c' e' h' l'] [-> Hr].
      assert (roster_of c = ∅) as -> by (unfold roster_of; rewrite Hc; [done|by apply negb_true_iff]).
      by wp_total.
    + done.
  - unfold handleSessionEnded, dropAndReconnect, socket_close, scheduleReconnect, endSession, set_timeout. wp_total; try done.
    all: eapply wp_mono; [apply wp_closeFromRelay_roster|]; intros r [c' e' h' l'] [-> Hr]; by wp_total.
  - unfold handleOwnerChanged. wp_total. by apply list_to_map_each.
Qed.
End refine.

(** ** The handshake *)

(** The events a join delivers to the application, in order. *)
Definition joined_callbacks (c : CollabClient) (ev : CollabEvent) (rj : RoomJoined) : list Callback :=
  [OnEvent ev; OnConnect (RoomJoined_clientId rj); OnPeerJoined (joined_self c rj)] ++
  ((λ '(_, p), OnPeerJoined (peerToJson p)) <$>
     match RoomJoined_room rj with Some r => Room_peers r | None => [] end).

Lemma wp_call_passive {H} x (Q : outcome unit → World H → Prop) c e h l :
  Q (Ok tt) (mkWorld c e h (Cb x :: l)) → wp (call passive x) Q (mkWorld c e h l).
Proof. done. Qed.

(** Symbolic execution under the passive application. *)
Ltac wp_passive :=
  repeat lazymatch goal with
         | |- wp (call _ _) _ _ => apply wp_call_passive; cbn [client env app log]
         | _ => wp_step
         end.

Section handshake.
Context `{P : Platform} {H : Type}.
Abbreviation cb := (passive (H := H)).

Lemma wp_addPeer_passive p c e h l :
  wp (addPeer cb p)
     (λ r w, r = Ok tt ∧ ∃ m, w = mkWorld (c <| peers := m |>) e h (Cb (OnPeerJoined p) :: l))
     (mkWorld c e h l).
Proof.
  unfold addPeer. wp_passive; split; try done;
    [by eexists|destruct c; by eexists|destruct c; by eexists].
Qed.

Lemma wp_addPeers_passive (ps : list (jsstr * PeerInfo)) c e h l :
  wp (for_each (λ '(_, p), addPeer cb (peerToJson p)) ps)
     (λ r w, r = Ok tt ∧ ∃ m, w = mkWorld (c <| peers := m |>) e h
        (reverse ((λ '(_, p), Cb (OnPeerJoined (peerToJson p))) <$> ps) ++ l))
     (mkWorld c e h l).
Proof.
  revert c l. induction ps as [|[k p] ps IH]; intros c l.
  - apply wp_ret. split; [done|]. destruct c. by eexists.
  - simpl. wp_step. eapply wp_mono; [apply wp_addPeer_passive|]. intros ? ? [-> [m ->]].
    eapply wp_mono; [apply IH|]. intros ? ? [-> [m' ->]]. split; [done|].
    exists m'. by rewrite reverse_cons, <-app_assoc.
Qed.

Lemma wp_joined ev rj c e h l :
  CollabEvent_event ev = ev_roomJoined rj →
  wp (handleEvent cb ev)
     (λ r w, log w = reverse (Cb <$> joined_callbacks c ev rj) ++ l ∧
        _isConnected (client w) = true ∧ hasJoined (client w) = true ∧ retryCount (client w) = 0 ∧
        _isConnecting (client w) = false ∧ grpc (client w) = grpc c ∧
        _clientId (client w) = RoomJoined_clientId rj ∧
        _sessionId (client w) =
          match RoomJoined_room rj with
          | Some r => str_or (Room_sessionId r) (_sessionId c) | None => _sessionId c end)
     (mkWorld c e h l).
Proof.
  intros Ee. unfold handleEvent, handleRoomJoined, joined_callbacks, str_or. rewrite Ee.
  wp_passive.
  all: eapply wp_mono; [apply wp_addPeer_passive|]; intros ? ? [-> [m ->]]; wp_passive; try done.
  all: eapply wp_mono; [apply wp_addPeers_passive|]; intros ? ? [-> [m' ->]]; cbn [client log].
  all: rewrite E, fmap_app, reverse_app, <-app_assoc, <-list_fmap_compose.
  all: by split_and!; try done; f_equal; f_equal; apply list_fmap_ext; intros ? [].
Qed.
End handshake.

(** The join a client sends for the first time after [connect]. *)
Definition first_join (a : ConnectArgs) (rnd : jsstr) : CollabActionJson :=
  emptyCollabActionJson <| CollabActionJson_join := Some
    (mkJoinRoomJson (Some (arg_sessionId a)) (Some (str_or (arg_username a) (js "Anon-" ++ rnd)))
       (Some (arg_metadata a)) (Some (js "browser")) None (Some (arg_isOwner a)) (Some (arg_browserId a))
       (Some (arg_clientHint a)) (Some 2) (Some (arg_encrypted a)) (Some (arg_title a)) (Some false)) |>.

Lemma connected_facts `{P : Platform} {H} (cb : Callback → M (World H) unit) `{!Observer cb} o h (w : World H) s :
  send_total → reachable cb o h w → _isConnected (client w) = true → grpc (client w) = Some s →
  explicitDisconnect (client w) = false ∧ hasJoined (client w) = true ∧ retryCount (client w) = 0 ∧
  retryTimer (client w) = None ∧ sockets (env w) !! s = Some (Open true).
Proof.
  intros Hs Hw Hc Hg. pose proof (reachable_invariant cb o h w Hw) as HI.
  destruct (inv_count _ _ _ _ HI Hc) as [Hj Hk].
  destruct (activities_socket _ _ s Hg (inv_one _ _ _ _ HI)) as (_ & _ & Hts & _).
  split_and!; [|done|done| |].
  - destruct (explicitDisconnect (client w)) eqn:Hx; [|done].
    destruct (inv_stopped _ _ _ _ HI Hs Hx). congruence.
  - pose proof (inv_timer _ _ _ _ HI) as E. rewrite Hts in E. destruct (retryTimer _); [set_solver|done].
  - destruct (inv_conn _ _ _ _ HI Hc) as (s' & Hg' & Hs'). congruence.
Qed.

Section handshake_steps.
Context `{P : Platform} {H : Type}.

Lemma connect_opens (w : World H) (a : ConnectArgs) (rnd url : jsstr) :
  _isConnected (client w) = false → getToken (options (client w)) = false →
  sync_url (start_connect a rnd (client w)) (token (options (client w))) = Some url →
  let s := match window with Some _ => S (nextId (env w)) | None => nextId (env w) end in
  ∃ i l e',
    run1 passive (IConnect a rnd) w =
      mkWorld (start_connect a rnd (client w) <| boundBeforeUnload := i |> <| grpc := Some s |>)
        e' (app w) (Eff (ENewSocket s url) :: l ++ log w) ∧
    ∀ x, x ∈ l → ∃ i, x = Eff (EAddListener i).
Proof.
  intros Hc Hg Hu s. destruct w as [c e h l]. cbn in Hc, Hg, Hu.
  set (Q := λ (_ : outcome unit) w1, ∃ i l' e',
    w1 = mkWorld (start_connect a rnd c <| boundBeforeUnload := i |> <| grpc := Some s |>)
           e' h (Eff (ENewSocket s url) :: l' ++ l) ∧
    ∀ x, x ∈ l' → ∃ i, x = Eff (EAddListener i)).
  change (wp (connect a rnd) Q (mkWorld c e h l)).
  unfold connect, openWithToken, openWebSocket, new_socket.
  unfold s in Q. cbn [env] in Q. destruct window as [o|]; wp_passive; subst Q.
  all: revert Hu; match goal with E : sync_url ?x ?t = ?v |- _ =>
         intros Hu; assert (Some url = v) as Hv by (rewrite <-Hu; exact E) end; try done.
  all: injection Hv as <-; cbn.
  - eexists _, [_], _. split; [done|]. intros x ->%list_elem_of_singleton. by eexists.
  - eexists (boundBeforeUnload c), [], _. split; [done|]. by intros x ?%elem_of_nil.
Qed.

(** The join is sent when the socket opens. *)
Lemma opened_joins c e h l s :
  send_total → grpc c = Some s →
  ∃ e2, run (passive (H := H)) [IOpened s; IConnectResolved s] (mkWorld c e h l) =
    mkWorld c e2 h (Eff (ESend s (joinAction c)) :: l).
Proof.
  intros Hs Hg.
  set (e1 := e <| sockets := <[ s := Open false ]> (sockets e) |> <| joinTurns := {[ s ]} ∪ joinTurns e |>).
  cut (wp (exec passive (IConnectResolved s))
         (λ _ w, ∃ e2, w = mkWorld c e2 h (Eff (ESend s (joinAction c)) :: l)) (mkWorld c e1 h l)); [exact id|].
  cbn [exec]. unfold connectResolved. wp_passive; simplify_eq; [|by eexists].
  exfalso. revert select (grpc_send_error _ _ = Some _). cbn. rewrite lookup_insert_eq. cbn. by rewrite Hs.
Qed.

Lemma join_connects c e h l s ev rj :
  send_total → grpc c = Some s → CollabEvent_event ev = ev_roomJoined rj →
  let w := run (passive (H := H)) [IOpened s; IConnectResolved s; IMessage s ev] (mkWorld c e h l) in
  log w = reverse (Cb <$> joined_callbacks c ev rj) ++ Eff (ESend s (joinAction c)) :: l ∧
  _isConnected (client w) = true ∧ hasJoined (client w) = true ∧ retryCount (client w) = 0 ∧
  _isConnecting (client w) = false ∧ grpc (client w) = Some s ∧
  _clientId (client w) = RoomJoined_clientId rj ∧
  _sessionId (client w) = match RoomJoined_room rj with
                          | Some r => str_or (Room_sessionId r) (_sessionId c) | None => _sessionId c end.
Proof.
  intros Hs Hg Ee w. destruct (opened_joins c e h l s Hs Hg) as [e2 E2].
  assert (w = run1 passive (IMessage s ev) (mkWorld c e2 h (Eff (ESend s (joinAction c)) :: l))) as ->.
  { rewrite <-E2. done. }
  match goal with |- context [run1 _ (IMessage s ev) ?w0] => set (w0' := w0) end.
  pose (Q := λ (_ : outcome unit) (w : World H),
    log w = reverse (Cb <$> joined_callbacks c ev rj) ++ Eff (ESend s (joinAction c)) :: l ∧
    _isConnected (client w) = true ∧ hasJoined (client w) = true ∧ retryCount (client w) = 0 ∧
    _isConnecting (client w) = false ∧ grpc (client w) = Some s ∧
    _clientId (client w) = RoomJoined_clientId rj ∧
    _sessionId (client w) = match RoomJoined_room rj with
                          | Some r => str_or (Room_sessionId r) (_sessionId c) | None => _sessionId c end).
  cut (wp (exec passive (IMessage s ev)) Q w0'); [exact id|].
  cbn [exec]. unfold w0', onMessage, set_status. wp_step.
  unfold is_roomJoined at 1. rewrite Ee. unfold when. wp_step.
  eapply wp_mono; [by apply wp_joined|]. intros r w' (L1 & L2 & L3 & L4 & L5 & L6 & L7 & L8).
  unfold Q. rewrite L6. by split_and!.
Qed.
End handshake_steps.

(** ** Properties *)



(** C2: in every orderly run at most one thing is under way that could make
    the client act by itself - a live socket, a [getToken] call, a retry
    timer, a room check - and the only socket that is not closed is the
    current one, so no connection or timer leaks. *)
Theorem one_activity `{P : Platform} {H} (cb : Callback → M (World H) unit) `{!Observer cb}
    o (h : H) (w : World H) :
  reachable cb o h w →
  (activities (client w) (env w) ≤ 1)%nat ∧
  (∀ s st, sockets (env w) !! s = Some st → st ≠ Closed → grpc (client w) = Some s) ∧
  (_isConnected (client w) = true → ∃ s, grpc (client w) = Some s ∧ sockets (env w) !! s = Some (Open true)) ∧
  timers (env w) = match retryTimer (client w) with Some t => {[ t ]} | None => ∅ end.
Proof. intros Hw. by destruct (reachable_invariant cb o h w Hw). Qed.

Lemma one_activity_witness :
  let w := run (P := node_platform) passive [IClose 0] sample_world in
  (activities (client w) (env w) ≤ 1)%nat ∧ grpc (client w) = None.
Proof.
  intros w. split; [|done].
  refine (proj1 (one_activity (P := node_platform) passive default_options tt w _)).
  apply reachable_turn; [apply sample_reachable|done].
Defined.


Definition sample_peer : PeerInfo := mkPeerInfo (js "c2") (js "Bob") [] (js "browser") true false [] None.


(** C31: [connect] leads to a connected client when the relay answers. It opens
    one socket to the sync URL of the session; once that is open the client
    sends one join, with the arguments of [connect], which may create the
    room; and the relay's [roomJoined] makes it connected, with the client id
    and session id the relay chose, after telling the application about the
    connection, itself and the peers in the room, in this order. *)
Theorem connect_handshake `{P : Platform} {H} (w : World H) (a : ConnectArgs) (rnd url : jsstr)
    (ev : CollabEvent) (rj : RoomJoined) :
  send_total → _isConnected (client w) = false → getToken (options (client w)) = false →
  sync_url (start_connect a rnd (client w)) (token (options (client w))) = Some url →
  CollabEvent_event ev = ev_roomJoined rj →
  let s := match window with Some _ => S (nextId (env w)) | None => nextId (env w) end in
  let w1 := run1 passive (IConnect a rnd) w in
  let w2 := run passive [IOpened s; IConnectResolved s; IMessage s ev] w1 in
  (∃ l, log w1 = Eff (ENewSocket s url) :: l ++ log w ∧ ∀ x, x ∈ l → ∃ i, x = Eff (EAddListener i)) ∧
  log w2 = reverse (Cb <$> joined_callbacks (start_connect a rnd (client w)) ev rj) ++
           Eff (ESend s (first_join a rnd)) :: log w1 ∧
  _isConnected (client w2) = true ∧ grpc (client w2) = Some s ∧
  _clientId (client w2) = RoomJoined_clientId rj ∧
  _sessionId (client w2) = match RoomJoined_room rj with
                           | Some r => str_or (Room_sessionId r) (arg_sessionId a)
                           | None => arg_sessionId a end.
Proof.
  intros Hs Hc Hg Hu Ee s w1 w2.
  destruct (connect_opens w a rnd url Hc Hg Hu) as (i & l & e' & E1 & Hl). fold s in E1. fold w1 in E1.
  unfold w2. clearbody w1. subst w1. split; [by exists l|].
  set (c1 := start_connect a rnd (client w) <| boundBeforeUnload := i |> <| grpc := Some s |>).
  destruct (join_connects c1 e' (app w) (Eff (ENewSocket s url) :: l ++ log w) s ev rj Hs eq_refl Ee)
    as (L1 & L2 & L3 & L4 & L5 & L6 & L7 & L8).
  by split_and!.
Qed.

Lemma connect_handshake_witness :
  let a := connect_args (js "ws://relay.example") (js "r") (js "Ada") [] in
  let w1 := run1 (P := node_platform) passive (IConnect a (js "x1")) (new_world default_options tt) in
  let w2 := run (P := node_platform) passive [IOpened 0; IConnectResolved 0; IMessage 0 sample_joined] w1 in
  _isConnected (client w2) = true ∧ grpc (client w2) = Some 0%nat.
Proof.
  edestruct (connect_handshake (P := node_platform) (new_world default_options tt)
    (connect_args (js "ws://relay.example") (js "r") (js "Ada") []) (js "x1")
    (js "ws://relay.example/ws/v1/r/sync") sample_joined) as (_ & _ & E1 & E2 & _); try done.
Defined.

(** the end of a session is reported once, and restarts the client only
    when its reason asks for it. Over the socket of a connected client,
    [sessionEnded] closes the socket and fires [onDisconnect]; then, for
    "slow_consumer", and for "token_expired" under [getToken], while
    reconnecting is enabled, the client announces the first attempt and arms
    its timer, or ends the session when no retries are allowed; for any other
    reason the session ends with that reason and the client is stopped. *)
Theorem session_end_outcome `{P : Platform} {H} o (h : H) (w : World H) (s : nat) (ev : CollabEvent)
    (se : SessionEnded) :
  send_total → reachable passive o h w → _isConnected (client w) = true → grpc (client w) = Some s →
  CollabEvent_event ev = ev_sessionEnded se →
  let c := client w in
  let w' := run1 passive (IMessage s ev) w in
  let again := reconnectable c (SessionEnded_reason se) && reconnectEnabled c in
  callbacks (log w') =
    (if again then
       if maxRetries c <=? 0 then OnSessionEnded (js "reconnect_failed") else OnReconnecting 1
     else OnSessionEnded (SessionEnded_reason se))
    :: OnDisconnect :: OnEvent ev :: callbacks (log w) ∧
  sockets (env w') !! s = Some Closed ∧ grpc (client w') = None ∧ _isConnected (client w') = false ∧
  explicitDisconnect (client w') = negb (again && negb (maxRetries c <=? 0)) ∧
  bool_decide (is_Some (retryTimer (client w'))) = again && negb (maxRetries c <=? 0).
Proof.
  intros Hs Hw Hc Hg Ee c w' again. destruct (connected_facts passive o h w s Hs Hw Hc Hg) as (Hx & Hj & Hk & Hr & _).
  destruct w as [c' e h' l]. cbn in c, Hc, Hg, Hx, Hj, Hk, Hr. subst c.
  assert (reconnectable c' (SessionEnded_reason se) && reconnectEnabled c' = again) as Hagain by done.
  clearbody again. unfold w'.
  match goal with |- ?G => let G' := eval pattern (run1 passive (IMessage s ev) (mkWorld c' e h' l)) in G in
    lazymatch G' with ?Q _ => cut (wp (exec passive (IMessage s ev)) (λ _, Q) (mkWorld c' e h' l)); [exact id|] end end.
  clear w'. cbn [exec]. unfold onMessage, set_status, handleEvent, is_roomJoined. rewrite Ee.
  unfold handleSessionEnded, dropAndReconnect, closeFromRelay, scheduleReconnect, endSession, socket_close, set_timeout.
  wp_passive; try congruence; cbn in *.
  all: try match goal with E : (_ <=? _) = _ |- _ => rewrite Hk in E; rewrite E, ?Hk end.
  all: rewrite ?Hg, ?Hx, ?Hr; split_and!; try done; try apply lookup_insert_eq; congruence.
Qed.

Lemma session_end_outcome_witness :
  let ev := sample_event (ev_sessionEnded (mkSessionEnded (js "slow_consumer"))) in
  let w' := run1 (P := node_platform) passive (IMessage 0 ev) sample_world in
  callbacks (log w') = OnReconnecting 1 :: OnDisconnect :: OnEvent ev :: callbacks (log sample_world).
Proof.
  intros ev w'.
  refine (proj1 (session_end_outcome (P := node_platform) default_options tt sample_world 0 ev
    (mkSessionEnded (js "slow_consumer")) node_send_total sample_reachable _ _ _)); done.
Defined.

(** an error event refuses the join or one action. Before the relay
    answered the join it closes the connection for good - no [onDisconnect],
    since nothing was connected - and ends the session with "session_gone"
    when a rejoin found its room gone; once joined it is only reported and
    changes nothing. *)
Theorem error_event_outcome `{P : Platform} {H} o (h : H) (w : World H) (s : nat) (b : bool)
    (ev : CollabEvent) (err : ErrorEvent) :
  reachable passive o h w → sockets (env w) !! s = Some (Open b) → CollabEvent_event ev = ev_error err →
  let c := client w in
  let w' := run1 passive (IMessage s ev) w in
  let reported := OnErrorEvent (ErrorEvent_code err) (ErrorEvent_message err) :: OnEvent ev :: callbacks (log w) in
  if b then
    client w' = c ∧ env w' = env w ∧ callbacks (log w') = reported
  else
    callbacks (log w') =
      (if bool_decide (ErrorEvent_code err = js "ROOM_NOT_FOUND") && hasJoined c
       then [OnSessionEnded (js "session_gone")] else []) ++ reported ∧
    sockets (env w') !! s = Some Closed ∧ grpc (client w') = None ∧ explicitDisconnect (client w') = true.
Proof.
  intros Hw Hst Ee c w'. pose proof (reachable_invariant passive o h w Hw) as HI.
  pose proof (Inv_open_joined passive _ _ _ s b HI Hst passive_total) as Hb.
  assert (grpc (client w) = Some s) as Hg by by eapply (inv_live _ _ _ _ HI).
  destruct w as [c' e h' l]. cbn in c, Hst, Hb, Hg. subst c. unfold w'.
  match goal with |- ?G => let G' := eval pattern (run1 passive (IMessage s ev) (mkWorld c' e h' l)) in G in
    lazymatch G' with ?Q _ => cut (wp (exec passive (IMessage s ev)) (λ _, Q) (mkWorld c' e h' l)); [exact id|] end end.
  clear w'. cbn [exec]. unfold onMessage, set_status, handleEvent, is_roomJoined. rewrite Ee.
  unfold handleError, closeFromRelay, socket_close.
  wp_passive; cbn in *; match goal with E : negb _ = _ |- _ => rewrite Hb in E end; destruct b; try done.
  all: try (by split_and!); rewrite ?Hg; split_and!; try done; try apply lookup_insert_eq.
  all: try congruence; match goal with E : _ && _ = _ |- _ => by rewrite E end.
Qed.

Lemma error_event_outcome_witness :
  let ev := sample_event (ev_error (mkErrorEvent (js "PEER_NOT_FOUND") (js "c9"))) in
  client (run1 (P := node_platform) passive (IMessage 0 ev) sample_world) = client sample_world.
Proof.
  intros ev.
  refine (proj1 (error_event_outcome (P := node_platform) default_options tt sample_world 0 true ev
    (mkErrorEvent (js "PEER_NOT_FOUND") (js "c9")) sample_reachable _ _)); done.
Defined.

(** The sync URL a client opens names its session in one path segment: what
    follows "/ws/v1/" up to "/sync" is free of separators and decodes to the
    UTF-8 bytes of the session id ("_new" stands for an empty one), and a
    token is one query value that decodes to its bytes. *)
Theorem sync_url_session_segment `{P : Platform} (c : CollabClient) (tok : option jsstr) (url : jsstr) :
  wf_str (_sessionId c) → default True (wf_str <$> tok) → sync_url c tok = Some url →
  ∃ seg query, url = resolved_url c ++ js "/ws/v1/" ++ seg ++ js "/sync" ++ query ∧
    Forall (λ u, uri_safe u = true) seg ∧
    percent_decode seg = text_encode (str_or (_sessionId c) (js "_new")) ∧
    match tok with
    | Some t => if truthy t then ∃ v, query = js "?token=" ++ v ∧ Forall (λ u, uri_safe u = true) v ∧
                                      percent_decode v = text_encode t
                else query = []
    | None => query = []
    end.
Proof.
  intros Hw Ht. unfold sync_url.
  assert (wf_str (str_or (_sessionId c) (js "_new"))) as Hw'.
  { unfold str_or. destruct (truthy _); [done|]. by repeat constructor. }
  destruct (encodeURIComponent (str_or _ _)) as [seg|] eqn:E; [|done].
  destruct (encodeURIComponent_Some _ _ Hw' E) as (_ & Hd & Hs).
  assert (∀ q, (resolved_url c ++ js "/ws/v1/" ++ seg ++ js "/sync") ++ q =
          resolved_url c ++ js "/ws/v1/" ++ seg ++ js "/sync" ++ q) as Happ by (intros; by rewrite <-!app_assoc).
  destruct tok as [t|].
  - destruct (truthy t) eqn:Et.
    + destruct (encodeURIComponent t) as [v|] eqn:Ev; [|done]. intros [= <-].
      destruct (encodeURIComponent_Some _ _ Ht Ev) as (_ & Hdv & Hsv).
      exists seg, (js "?token=" ++ v). rewrite Happ. split_and!; try done. by exists v.
    + intros [= <-]. exists seg, []. by rewrite app_nil_r.
  - intros [= <-]. exists seg, []. by rewrite app_nil_r.
Qed.

Lemma sync_url_session_segment_witness :
  ∃ seg query, js "ws://relay.example/ws/v1/a%2Fb/sync" =
      resolved_url (P := node_platform) (start_connect (connect_args (js "ws://relay.example") (js "a/b") [] []) [] (new_client default_options))
        ++ js "/ws/v1/" ++ seg ++ js "/sync" ++ query ∧
    percent_decode seg = js "a/b".
Proof.
  destruct (sync_url_session_segment (P := node_platform)
    (start_connect (connect_args (js "ws://relay.example") (js "a/b") [] []) [] (new_client default_options))
    None (js "ws://relay.example/ws/v1/a%2Fb/sync")) as (seg & query & E & _ & Hd & _).
  - by repeat constructor.
  - done.
  - vm_compute. reflexivity.
  - exists seg, query. split; [exact E|]. rewrite Hd. vm_compute. reflexivity.
Defined.

(** [send] reaches the relay or throws. Not connected, it throws "Not
    connected" and nothing changes; connected, it hands the current socket
    exactly the action with the client's id and the time filled in, or throws
    what the socket throws; [sendAppMessage] sends one app message with the
    payload in base64, whose targets are the ids given, absent when none is. *)
Theorem send_outcome `{P : Platform} {H} (w : World H) (kind : jsstr) (payload : list N) (to : SendTo)
    (action : CollabActionJson) (now : N) :
  let c := client w in
  let stamped a := a <| CollabActionJson_clientId := Some (_clientId c) |>
                     <| CollabActionJson_timestamp := Some (js_number now) |> in
  let sent a := match _isConnected c, grpc c with
    | true, Some s =>
        match grpc_send_error (default Closed (sockets (env w) !! s)) (stamped a) with
        | None => (Ok tt, w <| log := Eff (ESend s (stamped a)) :: log w |>)
        | Some err => (Throw err, w)
        end
    | _, _ => (Throw (Error (js "Not connected")), w)
    end in
  exec passive (ISend action now) w = sent action ∧
  ∃ a m, exec passive (ISendAppMessage kind payload to now) w = sent a ∧
    CollabActionJson_appMessage a = Some m ∧ AppMessageJson_kind m = Some kind ∧
    AppMessageJson_payload m = Some (base64Encode payload) ∧
    AppMessageJson_toClientIds m = match send_targets to with [] => None | ids => Some ids end.
Proof.
  intros c stamped sent. assert (∀ a, send a now w = sent a) as Hsent.
  { intros a. unfold send, sent, stamped, socket_send, get, gets, throw, record, modify, mbind, M_bind.
    destruct w as [c' e h l]. cbn in c. cbn. subst c.
    destruct (grpc c') as [s|], (_isConnected c'); cbn; try done. by destruct (grpc_send_error _ _). }
  split; [apply Hsent|]. exists (app_message kind payload to). eexists. split; [apply Hsent|].
  split; [reflexivity|]. split_and!; try done. cbn. by destruct (send_targets to).
Qed.
