(* ===== verification/ClientRecovery.v ===== *)
(** * Recovery of the relay client ([ts/src/CollabClient.ts])

    A dropped client comes back: as long as the relay answers before the
    attempts run out, the client is in the room again. *)

From S2P Require Import Prelude JsText JsMap UrlParams Models CollabClient ClientInvariants ClientReconnect ClientSession.
Open Scope Z_scope.

(** The client after its [k]th attempt failed: waiting for timer [t]. *)
Definition waiting (c : CollabClient) (k : nat) (t : nat) : CollabClient :=
  c <| retryCount := retryCount c + Z.of_nat k + 1 |> <| _isConnecting := true |> <| retryTimer := Some t |>.

Section recovery.
Context `{P : Platform} {H : Type} (cb : Callback → M (World H) unit) `{!Observer cb}.

(** [k] failed attempts leave a client that waits for the next one. *)
Lemma survive k : total cb → ∀ c e h l,
  between c e → retryCount c + Z.of_nat k < maxRetries c →
  ∃ t e' h' l', Nat.iter k (failed_attempt cb) (scheduleReconnect cb (mkWorld c e h l)).2 = mkWorld (waiting c k t) e' h' l' ∧
    timers e' = {[ t ]} ∧ fetches e' = fetches e ∧
    callbacks l' = reverse (OnReconnecting <$> seqZ (retryCount c + 1) (Z.of_nat (S k))) ++ callbacks l.
Proof.
  intros Ht. induction k as [|k IH]; intros c e h l (Hx & Hr & Hts & [url Hu]) Hk.
  - destruct (schedule_next cb c e h l Ht) as (h' & l' & E & Hs); [lia|].
    eexists _, _, _, _. split; [|split_and!].
    + cbn [Nat.iter nat_rect]. rewrite E. unfold waiting. cbn. do 2 f_equal. lia.
    + cbn. rewrite Hts. set_solver.
    + done.
    + cbn. by rewrite callbacks_sends.
  - destruct (schedule_next cb c e h l Ht) as (h' & l' & E & Hs); [lia|].
    rewrite E, Nat.iter_succ_r. rewrite (attempt_fails cb _ _ _ _ (nextId e) url) by done.
    match goal with |- context [scheduleReconnect cb (mkWorld ?c1 ?e1 ?h1 ?l1)] =>
      destruct (IH c1 e1 h1 l1) as (t & e2 & h2 & l2 & I1 & I2 & I3 & I4) end.
    + split_and!; [done|done| |by exists url]. cbn. rewrite Hts. set_solver.
    + cbn. lia.
    + exists t, e2, h2, l2. rewrite I1. split_and!; [|done|exact I3|].
      * unfold waiting. cbn. do 2 f_equal. lia.
      * rewrite I4, (seqZ_cons (retryCount c + 1)) by lia.
        replace (Z.pred (Z.of_nat (S (S k)))) with (Z.of_nat (S k)) by lia.
        rewrite fmap_cons, reverse_cons, <-app_assoc. cbn. by rewrite callbacks_sends, <-Z.add_1_r.
Qed.
End recovery.

Section rejoin.
Context `{P : Platform} {H : Type}.

(** An attempt that finds the room opens a socket. *)
Lemma attempt_opens c e (h : H) l t url surl :
  explicitDisconnect c = false → retryTimer c = Some t → room_check_url c = Some url →
  getToken (options c) = false → sync_url c (token (options c)) = Some surl →
  ∃ e', run passive [ITimer t; IRoomCheck (Some 200)] (mkWorld c e h l) =
    mkWorld (c <| retryTimer := None |> <| grpc := Some (nextId e) |>) e' h
      (Eff (ENewSocket (nextId e) surl) :: Eff (EFetch url) :: l).
Proof.
  intros Hx Ht Hu Hg Hs.
  set (c1 := c <| retryTimer := None |>).
  set (e1 := e <| timers := timers e ∖ {[ t ]} |>).
  assert (run1 passive (ITimer t) (mkWorld c e h l) =
    mkWorld c1 (e1 <| fetches := S (fetches e) |>) h (Eff (EFetch url) :: l)) as E1.
  { change (wp (exec passive (ITimer t))
      (λ _ w, w = mkWorld c1 (e1 <| fetches := S (fetches e) |>) h (Eff (EFetch url) :: l)) (mkWorld c e h l)).
    cbn [exec]. unfold retryTimerFired, rejoinIfRoomExists. by repeat wp_step. }
  unfold run. cbn [foldl]. rewrite E1.
  match goal with |- ∃ e', run1 _ _ ?w0 = @?R e' =>
    change (wp (exec passive (IRoomCheck (Some 200))) (λ _ w, ∃ e', w = R e') w0) end.
  cbn [exec]. unfold afterRoomCheck, openWithToken, openWebSocket, new_socket. repeat wp_step.
  all: try discriminate.
  all: match goal with E : sync_url _ _ = ?r |- _ => change (sync_url c (token (options c)) = r) in E; rewrite Hs in E end.
  all: simplify_eq; by eexists.
Qed.
End rejoin.

Lemma callbacks_reported l l' : callbacks (reverse (Cb <$> l) ++ l') = reverse l ++ callbacks l'.
Proof.
  unfold callbacks. rewrite omap_app, <-fmap_reverse. f_equal.
  induction (reverse l) as [|x l0 IH]; [done|]. cbn. by rewrite IH.
Qed.

(** ** Properties *)

(** C21: a dropped client comes back. When the connection of a joined client
    closes while reconnecting is enabled, and the relay stays away for fewer
    attempts than the limit, the next attempt rejoins the room: the client
    checks that the room exists, opens one socket to its sync URL, sends the
    join of its session with [mustExist], and on the relay's answer is
    connected again with no retries counted; the application saw one
    [onDisconnect], the attempts in order, and the events of a join. *)
Theorem reconnect_rejoins `{P : Platform} {H} o (h : H) (w : World H) (s k : nat)
    (ev : CollabEvent) (rj : RoomJoined) (url surl : jsstr) :
  send_total → reachable passive o h w → _isConnected (client w) = true → grpc (client w) = Some s →
  default true (reconnect o) = true → getToken o = false →
  room_check_url (client w) = Some url → sync_url (client w) (token o) = Some surl →
  Z.of_nat k < retry_limit o → CollabEvent_event ev = ev_roomJoined rj →
  let w1 := Nat.iter k (failed_attempt passive) (run1 passive (IClose s) w) in
  ∃ t s', retryTimer (client w1) = Some t ∧
    let w2 := run passive [ITimer t; IRoomCheck (Some 200); IOpened s'; IConnectResolved s'; IMessage s' ev] w1 in
    log w2 = reverse (Cb <$> joined_callbacks (client w) ev rj) ++
      Eff (ESend s' (joinAction (client w))) :: Eff (ENewSocket s' surl) :: Eff (EFetch url) :: log w1 ∧
    callbacks (log w2) = reverse (joined_callbacks (client w) ev rj) ++
      reverse (OnReconnecting <$> seqZ 1 (Z.of_nat (S k))) ++ OnDisconnect :: callbacks (log w) ∧
    _isConnected (client w2) = true ∧ grpc (client w2) = Some s' ∧ retryCount (client w2) = 0 ∧
    _isConnecting (client w2) = false ∧
    _sessionId (client w2) = match RoomJoined_room rj with
                             | Some r => str_or (Room_sessionId r) (_sessionId (client w))
                             | None => _sessionId (client w) end.
Proof.
  intros Hs Hw Hc Hg Hr Ht Hu Hsu Hk Ee w1.
  destruct (reachable_bounded passive o h w Hw) as (Ho & Hm & _).
  pose proof (reachable_invariant passive o h w Hw) as HI.
  destruct (connected_facts passive o h w s Hs Hw Hc Hg) as (Hx & Hj & Hn & Hrt & _).
  destruct (activities_socket _ _ s Hg (inv_one _ _ _ _ HI)) as (_ & _ & Hts & _).
  destruct w as [c e h0 l]. cbn beta match delta [client env app log] in *.
  destruct (close_connected passive c e h0 l s passive_total Hg Hc Hx Hj) as (h' & l' & E & Hl).
  { unfold reconnectEnabled. by rewrite Ho. }
  set (c1 := reset_client c). set (e1 := e <| sockets := <[ s := Closed ]> (sockets e) |>) in E.
  destruct (survive (passive (H := H)) k passive_total c1 e1 h' (l' ++ Cb OnDisconnect :: l))
    as (t & e2 & h2 & l2 & E1 & _ & _ & Hcb); [by split_and!; try eexists|cbn; lia|].
  fold c1 in E. rewrite <-E in E1. fold w1 in E1. clearbody w1. subst w1. cbn beta match delta [client log].
  set (c2 := waiting c1 k t). exists t, (nextId e2). split; [done|].
  destruct (attempt_opens c2 e2 h2 l2 t url surl) as [e3 E3]; try done; [by cbn; rewrite Ho..|].
  set (c3 := c2 <| retryTimer := None |> <| grpc := Some (nextId e2) |>) in E3.
  intros w2. assert (w2 = run passive [IOpened (nextId e2); IConnectResolved (nextId e2); IMessage (nextId e2) ev]
    (run passive [ITimer t; IRoomCheck (Some 200)] (mkWorld c2 e2 h2 l2))) as E2 by reflexivity.
  rewrite E3 in E2. clearbody w2. subst w2.
  destruct (join_connects c3 e3 h2 (Eff (ENewSocket (nextId e2) surl) :: Eff (EFetch url) :: l2) (nextId e2) ev rj Hs eq_refl Ee)
    as (L1 & L2 & L3 & L4 & L5 & L6 & L7 & L8).
  split; [exact L1|]. split; [|by split_and!].
  rewrite L1, callbacks_reported. cbn [callbacks omap list_omap]. fold (callbacks l2). rewrite Hcb. f_equal.
  rewrite callbacks_sends by done. subst c1. cbn. by rewrite Hn.
Qed.

(** Two attempts fail before the relay is back. *)
Lemma reconnect_rejoins_witness :
  let w1 := Nat.iter 2 (failed_attempt (P := node_platform) passive)
              (run1 (P := node_platform) passive (IClose 0) sample_world) in
  ∃ t s', let w2 := run (P := node_platform) passive
      [ITimer t; IRoomCheck (Some 200); IOpened s'; IConnectResolved s'; IMessage s' sample_joined] w1 in
    _isConnected (client w2) = true ∧ grpc (client w2) = Some s' ∧ retryCount (client w2) = 0.
Proof.
  intros w1.
  edestruct (reconnect_rejoins (P := node_platform) default_options tt sample_world 0 2 sample_joined)
    as (t & s' & _ & _ & _ & E1 & E2 & E3 & _); cycle -1.
  { exists t, s'. exact (conj E1 (conj E2 E3)). }
  all: try exact sample_reachable; vm_compute; reflexivity.
Defined.
