(* ===== verification/Json.v ===== *)
(** * JSON texts

    What the sources use of the JavaScript library: [JSON.stringify] of plain
    data, and a reader of the texts it writes. *)

From Stdlib Require Import Ascii.
From stdpp Require Import strings pretty.
From S2P Require Import Prelude JsText JsMap.
Open Scope N_scope.

(** ** Values

    A JavaScript value of plain data, and the value a JSON text denotes.
    Numbers are the integers a double holds exactly; an object is the list of
    its own properties in the order of their creation, under distinct keys. *)

#[local] Set Warnings "-register-all".

Inductive jsval :=
  | VUndefined
  | VNull
  | VBool (b : bool)
  | VNumber (z : Z)
  | VString (s : jsstr)
  | VArray (vs : list jsval)
  | VObject (ps : list (jsstr * jsval)).

Inductive json :=
  | JNull
  | JBool (b : bool)
  | JNumber (z : Z)
  | JString (s : jsstr)
  | JArray (vs : list json)
  | JObject (ps : list (jsstr * json)).

(** ** The order of properties

    [OrdinaryOwnPropertyKeys]: array indices come first, in ascending order,
    then the other keys as they were created. *)

Definition is_digit (c : N) : bool := (48 <=? c) && (c <=? 57).
Definition digits_value (s : jsstr) : N := foldl (λ acc c, acc * 10 + (c - 48)) 0 s.

Definition array_index (s : jsstr) : option N :=
  if bool_decide (s = js_number (digits_value s)) && (digits_value s <? 2 ^ 32 - 1)
  then Some (digits_value s) else None.

Definition index_le {A} (p q : jsstr * A) : Prop := digits_value p.1 <= digits_value q.1.
#[export] Instance index_le_dec {A} : RelDecision (@index_le A) := λ p q, N.le_dec _ _.

Definition own_properties {A} (ps : list (jsstr * A)) : list (jsstr * A) :=
  merge_sort index_le (filter (λ p, is_Some (array_index p.1)) ps) ++
  filter (λ p, ¬ is_Some (array_index p.1)) ps.

(** ** Writing *)

Definition dquote : N := 34.
Definition backslash : N := 92.

Definition hex_lower (v : N) : N := if v <? 10 then 48 + v else 97 + (v - 10).

(** [UnicodeEscape] of a code unit. *)
Definition unicode_escape (u : N) : jsstr :=
  [backslash; 117; hex_lower (u / 4096); hex_lower (u / 256 mod 16); hex_lower (u / 16 mod 16); hex_lower (u mod 16)].

Definition short_escape (c : N) : option N :=
  if c =? 8 then Some 98 else if c =? 9 then Some 116 else if c =? 10 then Some 110
  else if c =? 12 then Some 102 else if c =? 13 then Some 114
  else if c =? dquote then Some dquote else if c =? backslash then Some backslash else None.

Definition quote_unit (c : N) : jsstr :=
  match short_escape c with
  | Some e => [backslash; e]
  | None => if c <? 32 then unicode_escape c else [c]
  end.

(** [QuoteJSONString] without its quotes: lone surrogates are escaped. *)
Fixpoint quote_units (s : jsstr) : jsstr :=
  match s with
  | [] => []
  | u :: s' =>
      if is_high u then
        match s' with
        | v :: s'' => if is_low v then u :: v :: quote_units s'' else unicode_escape u ++ quote_units s'
        | [] => unicode_escape u
        end
      else (if is_low u then unicode_escape u else quote_unit u) ++ quote_units s'
  end.

Definition quote (s : jsstr) : jsstr := dquote :: quote_units s ++ [dquote].

Definition print_number (z : Z) : jsstr := (if (z <? 0)%Z then [45] else []) ++ js_number (Z.abs_N z).

Fixpoint commas (ts : list jsstr) : jsstr :=
  match ts with [] => [] | [t] => t | t :: ts' => t ++ 44 :: commas ts' end.

Fixpoint print (v : json) : jsstr :=
  match v with
  | JNull => js "null"
  | JBool b => if b then js "true" else js "false"
  | JNumber z => print_number z
  | JString s => quote s
  | JArray vs => 91 :: commas (print <$> vs) ++ [93]
  | JObject ps => 123 :: commas ((λ '(k, v), quote k ++ 58 :: print v) <$> ps) ++ [125]
  end.

(** The JSON value of a JavaScript value: [undefined] has none; an array
    holds [null] in its place and an object leaves the property out. *)
Fixpoint to_json (v : jsval) : option json :=
  match v with
  | VUndefined => None
  | VNull => Some JNull
  | VBool b => Some (JBool b)
  | VNumber z => Some (JNumber z)
  | VString s => Some (JString s)
  | VArray vs => Some (JArray ((λ v, default JNull (to_json v)) <$> vs))
  | VObject ps =>
      Some (JObject (omap (λ '(k, o), pair k <$> o) (own_properties ((λ '(k, v), (k, to_json v)) <$> ps))))
  end.

Definition stringify (v : jsval) : option jsstr := print <$> to_json v.

(** ** Reading

    A reader of the JSON texts without white space whose numbers are integers,
    which [stringify] writes. It keeps an object's members in their order. *)

Definition unescape (c : N) : option N :=
  if c =? 98 then Some 8 else if c =? 116 then Some 9 else if c =? 110 then Some 10
  else if c =? 102 then Some 12 else if c =? 114 then Some 13
  else if c =? dquote then Some dquote else if c =? backslash then Some backslash
  else if c =? 47 then Some 47 else None.

Definition hex_unit (a b c d : N) : option N :=
  match hex_val a, hex_val b, hex_val c, hex_val d with
  | Some a, Some b, Some c, Some d => Some (a * 4096 + b * 256 + c * 16 + d)
  | _, _, _, _ => None
  end.

(** The rest of a string, after its opening quote. *)
Fixpoint parse_string (s : jsstr) : option (jsstr * jsstr) :=
  match s with
  | [] => None
  | c :: s' =>
      if c =? dquote then Some ([], s')
      else if c =? backslash then
        match s' with
        | 117 :: h1 :: h2 :: h3 :: h4 :: r =>
            u ← hex_unit h1 h2 h3 h4; '(t, r') ← parse_string r; Some (u :: t, r')
        | e :: r => u ← unescape e; '(t, r') ← parse_string r; Some (u :: t, r')
        | [] => None
        end
      else if c <? 32 then None
      else '(t, r') ← parse_string s'; Some (c :: t, r')
  end.

Fixpoint span_digits (s : jsstr) : jsstr * jsstr :=
  match s with
  | c :: s' => if is_digit c then let '(a, b) := span_digits s' in (c :: a, b) else ([], s)
  | [] => ([], [])
  end.

Definition parse_number (s : jsstr) : option (Z * jsstr) :=
  let '(neg, s') := match s with c :: s' => if c =? 45 then (true, s') else (false, s) | [] => (false, s) end in
  match span_digits s' with
  | ([], _) => None
  | (ds, r) => Some ((if neg then - Z.of_N (digits_value ds) else Z.of_N (digits_value ds))%Z, r)
  end.

Definition strip_prefix (p s : jsstr) : option jsstr :=
  if bool_decide (take (length p) s = p) then Some (drop (length p) s) else None.

Definition expect (c : N) (s : jsstr) : option jsstr :=
  match s with x :: s' => if x =? c then Some s' else None | [] => None end.

(** A member's key and the colon behind it. *)
Definition parse_key (s : jsstr) : option (jsstr * jsstr) :=
  s ← expect dquote s; '(k, r) ← parse_string s; r ← expect 58 r; Some (k, r).

Fixpoint parse_value (n : nat) (s : jsstr) : option (json * jsstr) :=
  match n, s with
  | S n, c :: s' =>
      if c =? dquote then '(t, r) ← parse_string s'; Some (JString t, r)
      else if c =? 91 then
        match expect 93 s' with
        | Some r => Some (JArray [], r)
        | None => '(vs, r) ← parse_elements n s'; Some (JArray vs, r)
        end
      else if c =? 123 then
        match expect 125 s' with
        | Some r => Some (JObject [], r)
        | None => '(ps, r) ← parse_members n s'; Some (JObject ps, r)
        end
      else if c =? 110 then r ← strip_prefix (js "null") s; Some (JNull, r)
      else if c =? 116 then r ← strip_prefix (js "true") s; Some (JBool true, r)
      else if c =? 102 then r ← strip_prefix (js "false") s; Some (JBool false, r)
      else '(z, r) ← parse_number s; Some (JNumber z, r)
  | _, _ => None
  end
with parse_elements (n : nat) (s : jsstr) : option (list json * jsstr) :=
  match n with
  | O => None
  | S n =>
      '(v, r) ← parse_value n s;
      match expect 93 r with
      | Some r => Some ([v], r)
      | None => r ← expect 44 r; '(vs, r) ← parse_elements n r; Some (v :: vs, r)
      end
  end
with parse_members (n : nat) (s : jsstr) : option (list (jsstr * json) * jsstr) :=
  match n with
  | O => None
  | S n =>
      '(k, r) ← parse_key s; '(v, r) ← parse_value n r;
      match expect 125 r with
      | Some r => Some ([(k, v)], r)
      | None => r ← expect 44 r; '(ps, r) ← parse_members n r; Some ((k, v) :: ps, r)
      end
  end.

(** Twice the length of a text is fuel enough: a step reads a character or
    goes down from a list to its first element. *)
Definition parse (s : jsstr) : option json :=
  match parse_value (2 * length s)%nat s with Some (v, []) => Some v | _ => None end.

(** ** Well-formed values *)

Fixpoint wf_json (v : json) : Prop :=
  match v with
  | JString s => wf_str s
  | JArray vs => foldr (λ v P, wf_json v ∧ P) True vs
  | JObject ps => foldr (λ '(k, v) P, wf_str k ∧ wf_json v ∧ P) True ps
  | _ => True
  end.

Lemma wf_json_array vs : wf_json (JArray vs) ↔ Forall wf_json vs.
Proof. induction vs as [|v vs IH]; [done|]. rewrite Forall_cons, <-IH. done. Qed.

Lemma wf_json_object ps : wf_json (JObject ps) ↔ Forall (λ p, wf_str p.1 ∧ wf_json p.2) ps.
Proof. induction ps as [|[k v] ps IH]; [done|]. rewrite Forall_cons, <-IH. simpl. tauto. Qed.

Section json_ind.
Context (P : json → Prop).
Context (Pnull : P JNull) (Pbool : ∀ b, P (JBool b)) (Pnumber : ∀ z, P (JNumber z)) (Pstring : ∀ s, P (JString s)).
Context (Parray : ∀ vs, Forall P vs → P (JArray vs)).
Context (Pobject : ∀ ps, Forall (λ p, P p.2) ps → P (JObject ps)).

(** Induction that reaches into arrays and objects. *)
Fixpoint json_nested (v : json) : P v :=
  match v with
  | JNull => Pnull
  | JBool b => Pbool b
  | JNumber z => Pnumber z
  | JString s => Pstring s
  | JArray vs => Parray vs ((fix go vs : Forall P vs :=
      match vs with [] => List.Forall_nil _ | v :: vs => @List.Forall_cons _ _ v vs (json_nested v) (go vs) end) vs)
  | JObject ps => Pobject ps ((fix go ps : Forall (λ p, P p.2) ps :=
      match ps with [] => List.Forall_nil _ | (k, v) :: ps => @List.Forall_cons _ _ (k, v) ps (json_nested v) (go ps) end) ps)
  end.
End json_ind.

(** ** Numbers *)

Lemma js_cons a s : js (String a s) = N_of_ascii a :: js s.
Proof. done. Qed.

Lemma pretty_char x : x < 10 → N_of_ascii (pretty_N_char x) = 48 + x.
Proof.
  intros Hx. apply N.eqb_eq. revert x Hx.
  apply (forall_below (λ x, N_of_ascii (pretty_N_char x) =? 48 + x) 10). reflexivity.
Qed.

Lemma digits_value_snoc ds c : digits_value (ds ++ [c]) = digits_value ds * 10 + (c - 48).
Proof. unfold digits_value. by rewrite foldl_app. Qed.

Lemma pretty_go x s :
  ∃ ds, js (pretty_N_go x s) = ds ++ js s ∧ Forall (λ c, is_digit c = true) ds ∧ digits_value ds = x ∧
    (0 < x → ds ≠ []).
Proof.
  revert s. induction (N.lt_wf_0 x) as [x _ IH]; intros s.
  destruct (N.eq_dec x 0) as [->|Hx]; [by exists []|].
  assert (0 < x) as Hpos by lia.
  rewrite pretty_N_go_step by done.
  destruct (IH (x / 10) ltac:(by apply N.div_lt) (String (pretty_N_char (x mod 10)) s)) as (ds & E & Hd & Hv & _).
  assert (x mod 10 < 10) as Hm by lia.
  exists (ds ++ [48 + x mod 10]). rewrite E, js_cons, pretty_char, <-app_assoc by done.
  split; [done|]. split; [|split].
  - apply Forall_app. split; [done|]. constructor; [|done]. unfold is_digit. lia.
  - rewrite digits_value_snoc, Hv. lia.
  - intros _. by destruct ds.
Qed.

Lemma js_number_digits n :
  Forall (λ c, is_digit c = true) (js_number n) ∧ digits_value (js_number n) = n ∧ js_number n ≠ [].
Proof.
  unfold js_number, pretty, pretty_N. destruct (decide (n = 0)) as [->|Hn]; [by repeat constructor|].
  destruct (pretty_go n "") as (ds & E & Hd & Hv & Hne). change (js "") with (@nil N) in E.
  rewrite app_nil_r in E. rewrite E. split_and!; [done..|]. apply Hne. lia.
Qed.

Lemma span_digits_app ds r :
  Forall (λ c, is_digit c = true) ds → (∀ c r', r = c :: r' → is_digit c = false) → span_digits (ds ++ r) = (ds, r).
Proof.
  intros Hd Hr. induction Hd as [|c ds Hc _ IH]; simpl.
  - destruct r as [|c r']; [done|]. simpl. by rewrite (Hr c r').
  - by rewrite Hc, IH.
Qed.

(** A text after which a number ends. *)
Definition no_digit (r : jsstr) : Prop := ∀ c r', r = c :: r' → is_digit c = false.

Lemma parse_print_number z r : no_digit r → parse_number (print_number z ++ r) = Some (z, r).
Proof.
  intros Hr. destruct (js_number_digits (Z.abs_N z)) as (Hd & Hv & Hne).
  unfold parse_number, print_number.
  destruct (Z.ltb_spec z 0) as [Hz|Hz]; cbn [app].
  - rewrite N.eqb_refl, span_digits_app by done. destruct (js_number _) as [|d ds] eqn:E; [done|].
    rewrite Hv. do 2 f_equal. lia.
  - destruct (js_number (Z.abs_N z)) as [|d ds] eqn:E; [done|]. cbn [app].
    destruct (N.eqb_spec d 45) as [->|_]; [by apply Forall_cons in Hd as [? _]|].
    change (d :: ds ++ r) with ((d :: ds) ++ r). rewrite span_digits_app, Hv by done. do 2 f_equal. lia.
Qed.

(** ** Strings *)

Lemma hex_val_lower v : v < 16 → hex_val (hex_lower v) = Some v.
Proof.
  intros Hv. apply (forall_below (λ v, bool_decide (hex_val (hex_lower v) = Some v)) 16) in Hv; [|reflexivity].
  by apply bool_decide_eq_true in Hv.
Qed.

Lemma parse_escape u r : u < 65536 →
  parse_string (unicode_escape u ++ r) = '(t, r') ← parse_string r; Some (u :: t, r').
Proof.
  intros Hu. assert (hex_unit (hex_lower (u / 4096)) (hex_lower (u / 256 mod 16)) (hex_lower (u / 16 mod 16))
    (hex_lower (u mod 16)) = Some u) as E.
  { unfold hex_unit. rewrite !hex_val_lower by lia. f_equal. lia. }
  unfold unicode_escape. cbn [app]. simpl parse_string. by rewrite E.
Qed.

Lemma parse_plain c r : c ≠ dquote → c ≠ backslash → 32 <= c →
  parse_string (c :: r) = '(t, r') ← parse_string r; Some (c :: t, r').
Proof.
  intros H1 H2 H3. cbn [parse_string]. apply N.eqb_neq in H1 as ->, H2 as ->.
  by apply N.ltb_ge in H3 as ->.
Qed.

Lemma parse_quote_unit c r : c < 65536 →
  parse_string (quote_unit c ++ r) = '(t, r') ← parse_string r; Some (c :: t, r').
Proof.
  intros Hc. unfold quote_unit, short_escape.
  repeat match goal with |- context [if c =? ?k then Some _ else _] => destruct (N.eqb_spec c k) as [->|?] end;
    [reflexivity..|].
  destruct (N.ltb_spec c 32); [by apply parse_escape|by apply parse_plain].
Qed.

Lemma parse_quote_units s r : wf_str s → parse_string (quote_units s ++ dquote :: r) = Some (s, r).
Proof.
  induction s as [|u s IH IH2] using str_pair_ind; [done|].
  intros [Hu Hs]%Forall_cons. unfold wf_unit in Hu. specialize (IH Hs). cbn [quote_units].
  destruct (is_high u) eqn:Eu; [|destruct (is_low u); rewrite <-app_assoc, ?parse_escape, ?parse_quote_unit, IH by done; done].
  destruct s as [|v s].
  - by rewrite parse_escape.
  - apply Forall_cons in Hs as [Hv Hs]. destruct (is_low v) eqn:Ev.
    + unfold is_high, is_low in *. cbn [app].
      rewrite !parse_plain by (unfold dquote, backslash; lia). by rewrite (IH2 v s).
    + by rewrite <-app_assoc, parse_escape, IH.
Qed.

(** ** Round trip *)

Definition reads (v : json) : Prop :=
  ∀ n r, (2 * length (print v) ≤ n)%nat → no_digit r → parse_value n (print v ++ r) = Some (v, r).

Lemma no_digit_cons c r : is_digit c = false → no_digit (c :: r).
Proof. by intros Hc ? ? [= <- _]. Qed.

(** The text of a value does not start like the end of an array. *)
Lemma print_head v : ∃ c t, print v = c :: t ∧ c ≠ 93.
Proof.
  destruct v as [|[]|z|s|vs|ps]; try (by do 2 eexists).
  simpl. unfold print_number. destruct (z <? 0)%Z; [by do 2 eexists|].
  destruct (js_number_digits (Z.abs_N z)) as (Hd & _ & Hne). destruct (js_number _) as [|d ds]; [done|].
  exists d, ds. split; [done|]. apply Forall_cons in Hd as [Hd _]. intros ->. done.
Qed.

Lemma print_nonempty v : (0 < length (print v))%nat.
Proof. destruct (print_head v) as (c & t & -> & _). simpl. lia. Qed.

Lemma reads_number z : reads (JNumber z).
Proof.
  intros n r Hn Hr. pose proof (print_nonempty (JNumber z)) as Hp. destruct n as [|n]; [simpl in *; lia|].
  pose proof (parse_print_number z r Hr) as E. cbn [print].
  assert (∃ c t, print_number z = c :: t ∧ (c = 45 ∨ is_digit c = true)) as (c & t & Et & Hc).
  { unfold print_number. destruct (z <? 0)%Z; [by do 2 eexists; split; [done|left]|].
    destruct (js_number_digits (Z.abs_N z)) as (Hd & _ & Hne). destruct (js_number _) as [|d ds]; [done|].
    exists d, ds. split; [done|]. right. by apply Forall_cons in Hd as [? _]. }
  rewrite Et in *. cbn [app] in *. cbn [parse_value]. rewrite E.
  unfold dquote, is_digit in *.
  repeat match goal with |- context [c =? ?k] => destruct (N.eqb_spec c k) as [->|_]; [destruct Hc; done || lia|] end.
  done.
Qed.

(** The texts of two elements and more. *)
Lemma commas_cons {A} (f : A → jsstr) x y l : commas (f <$> x :: y :: l) = f x ++ 44 :: commas (f <$> y :: l).
Proof. done. Qed.

Lemma read_elements vs : Forall reads vs → vs ≠ [] → ∀ n r,
  (2 * S (length (commas (print <$> vs))) ≤ n)%nat →
  parse_elements n (commas (print <$> vs) ++ 93 :: r) = Some (vs, r).
Proof.
  induction 1 as [|v vs Hv _ IH]; [done|]. intros _ [|n] r Hn; [lia|]. cbn [parse_elements].
  destruct vs as [|v' vs].
  - simpl in *. rewrite Hv by (lia || by apply no_digit_cons). done.
  - rewrite commas_cons in *. rewrite length_app in Hn. cbn [length] in Hn. pose proof (print_nonempty v).
    specialize (IH ltac:(done) n r). set (t := commas (print <$> v' :: vs)) in *. clearbody t.
    rewrite <-app_assoc, Hv by (lia || by apply no_digit_cons). cbn. by rewrite IH by lia.
Qed.

Definition member (p : jsstr * json) : jsstr := let '(k, v) := p in quote k ++ 58 :: print v.

Lemma parse_key_quote k r : wf_str k → parse_key (quote k ++ 58 :: r) = Some (k, r).
Proof.
  intros Hk. unfold parse_key, quote. cbn [app expect]. rewrite N.eqb_refl. cbn [mbind option_bind].
  rewrite <-app_assoc. cbn [app]. by rewrite parse_quote_units.
Qed.

Lemma read_members ps : Forall (λ p, wf_str p.1 ∧ reads p.2) ps → ps ≠ [] → ∀ n r,
  (2 * S (length (commas (member <$> ps))) ≤ n)%nat →
  parse_members n (commas (member <$> ps) ++ 125 :: r) = Some (ps, r).
Proof.
  induction 1 as [|[k v] ps [Hk Hv] _ IH]; [done|]. intros _ [|n] r Hn; [lia|]. cbn [parse_members fst snd] in *.
  destruct ps as [|p ps].
  - cbn [fmap list_fmap commas member] in *. rewrite length_app in Hn. cbn [length] in Hn.
    rewrite <-app_assoc. cbn [app]. rewrite parse_key_quote by done. cbn [mbind option_bind].
    by rewrite Hv by (lia || by apply no_digit_cons).
  - rewrite commas_cons in *. unfold member at 1 in Hn. unfold member at 1. rewrite !length_app in Hn. cbn [length] in Hn.
    specialize (IH ltac:(done) n r). set (t := commas (member <$> p :: ps)) in *. clearbody t.
    rewrite <-!app_assoc. cbn [app]. rewrite parse_key_quote by done. cbn [mbind option_bind].
    rewrite Hv by (lia || by apply no_digit_cons). cbn. by rewrite IH by lia.
Qed.

Lemma reads_wf v : wf_json v → reads v.
Proof.
  induction v as [|b|z|s|vs IH|ps IH] using json_nested; intros Hw.
  - intros n r Hn _. simpl in Hn. destruct n; [lia|done].
  - intros n r Hn _. destruct b; simpl in Hn; (destruct n; [lia|done]).
  - apply reads_number.
  - intros n r Hn _. simpl in Hn. destruct n; [lia|]. cbn [print quote app parse_value]. rewrite N.eqb_refl, <-app_assoc.
    cbn [app]. by rewrite parse_quote_units.
  - apply wf_json_array in Hw. intros n r Hn _. destruct vs as [|v vs]; [simpl in Hn; destruct n; [lia|done]|].
    cbn [print length] in Hn. rewrite length_app in Hn. destruct n as [|n]; [lia|].
    pose proof (read_elements (v :: vs)) as Hr. destruct (print_head v) as (c & t & E & Hc).
    assert (∃ t', commas (print <$> v :: vs) = c :: t') as [t' Et].
    { destruct vs; [by exists t|]. rewrite commas_cons, E. by eexists. }
    cbn [print app]. cbn [parse_value]. change (91 =? dquote) with false. rewrite N.eqb_refl, <-app_assoc. cbv iota.
    assert (expect 93 (commas (print <$> v :: vs) ++ [93] ++ r) = None) as ->.
    { rewrite Et. cbn. by apply N.eqb_neq in Hc as ->. }
    cbn [app]. rewrite Hr; [done| |done|cbn [length] in Hn; lia].
    eapply Forall_impl; [apply Forall_and; split; [exact IH|exact Hw]|]. cbn. tauto.
  - apply wf_json_object in Hw. intros n r Hn _. destruct ps as [|[k v] ps]; [simpl in Hn; destruct n; [lia|done]|].
    cbn [print length] in Hn. rewrite length_app in Hn. destruct n as [|n]; [lia|].
    pose proof (read_members ((k, v) :: ps)) as Hr.
    assert (∃ t', commas (member <$> (k, v) :: ps) = dquote :: t') as [t' Et].
    { destruct ps; [by eexists|]. rewrite commas_cons. by eexists. }
    cbn [print app]. cbn [parse_value]. change (123 =? dquote) with false. change (123 =? 91) with false.
    rewrite N.eqb_refl, <-app_assoc. cbv iota. fold member.
    assert (expect 125 (commas (member <$> (k, v) :: ps) ++ [125] ++ r) = None) as -> by by rewrite Et.
    cbn [app]. rewrite Hr; [done| |done|cbn [length] in Hn; fold member in Hn; lia].
    eapply Forall_impl; [apply Forall_and; split; [exact IH|exact Hw]|]. cbn. tauto.
Qed.

(** Reading gives back what was written. *)
Lemma parse_print v : wf_json v → parse (print v) = Some v.
Proof.
  intros Hw. unfold parse. pose proof (reads_wf v Hw (2 * length (print v))%nat [] ltac:(lia) ltac:(done)) as E.
  rewrite app_nil_r in E. by rewrite E.
Qed.

(** ** The texts are sequences of characters *)

Lemma well_formed_app s t : well_formed s = true → well_formed t = true → well_formed (s ++ t) = true.
Proof.
  induction s as [|u s IH IH2] using str_pair_ind; [done|]. intros Hs Ht. cbn [app well_formed] in *.
  destruct (is_high u).
  - destruct s as [|v s]; [done|]. cbn [app]. apply andb_prop in Hs as [-> Hs]. by apply (IH2 v).
  - apply andb_prop in Hs as [-> Hs]. by apply IH.
Qed.

Lemma good_app s t : good_str s → good_str t → good_str (s ++ t).
Proof. intros [Hs Hs'] [Ht Ht']. split; [by apply Forall_app|by apply well_formed_app]. Qed.

Lemma good_ascii s : Forall (λ c, c < 128) s → good_str s.
Proof.
  intros Hs. split.
  - eapply Forall_impl; [exact Hs|]. unfold wf_unit. intros c Hc. cbn in *. lia.
  - induction Hs as [|c s Hc _ IH]; [done|]. cbn [well_formed]. unfold is_high, is_low in *.
    destruct (N.leb_spec 0xD800 c); [lia|]. destruct (N.leb_spec 0xDC00 c); [lia|]. done.
Qed.

Ltac ascii := apply good_ascii; repeat constructor; lia.

Lemma good_escape u : u < 65536 → good_str (unicode_escape u).
Proof.
  intros Hu. apply good_ascii. unfold unicode_escape, hex_lower, backslash.
  repeat match goal with |- context [if ?a <? 10 then _ else _] => destruct (N.ltb_spec a 10) end;
    repeat constructor; lia.
Qed.

Lemma good_quote_unit c : c < 65536 → is_high c = false → is_low c = false → good_str (quote_unit c).
Proof.
  intros Hc Hh Hl. unfold quote_unit, short_escape, dquote, backslash.
  repeat match goal with |- context [if c =? ?k then Some _ else _] => destruct (c =? k); [ascii|] end.
  destruct (c <? 32); [by apply good_escape|]. split; [by constructor|]. cbn. by rewrite Hh, Hl.
Qed.

Lemma good_quote_units s : wf_str s → good_str (quote_units s).
Proof.
  induction s as [|u s IH IH2] using str_pair_ind; [done|].
  intros [Hu Hs]%Forall_cons. specialize (IH Hs). cbn [quote_units]. destruct (is_high u) eqn:Eh.
  - destruct s as [|v s]; [by apply good_escape|]. apply Forall_cons in Hs as [Hv Hs].
    destruct (is_low v) eqn:El; [|apply good_app; [by apply good_escape|done]].
    destruct (IH2 v s eq_refl Hs) as [H1 H2]. split; [|cbn; by rewrite Eh, El].
    by do 2 (constructor; [done|]).
  - apply good_app; [|done]. destruct (is_low u) eqn:El; [by apply good_escape|by apply good_quote_unit].
Qed.

Lemma good_quote s : wf_str s → good_str (quote s).
Proof.
  intros Hs. unfold quote. apply (good_app [dquote]); [ascii|].
  apply good_app; [by apply good_quote_units|ascii].
Qed.

Lemma good_commas ts : Forall good_str ts → good_str (commas ts).
Proof.
  induction 1 as [|t ts Ht Hts IH]; [split; [constructor|done]|]. cbn [commas]. destruct ts; [done|].
  apply good_app; [done|]. apply (good_app [44]); [ascii|done].
Qed.

Lemma good_print v : wf_json v → good_str (print v).
Proof.
  induction v as [|b|z|s|vs IH|ps IH] using json_nested; intros Hw.
  - ascii.
  - destruct b; ascii.
  - cbn [print]. unfold print_number. apply good_app; [destruct (z <? 0)%Z; ascii|].
    apply good_ascii. destruct (js_number_digits (Z.abs_N z)) as (Hd & _).
    eapply Forall_impl; [exact Hd|]. unfold is_digit. intros c Hc. cbn in Hc. lia.
  - by apply good_quote.
  - apply wf_json_array in Hw. cbn [print]. apply (good_app [91]); [ascii|]. apply good_app; [|ascii].
    apply good_commas, Forall_fmap. eapply Forall_impl; [apply Forall_and; split; [exact IH|exact Hw]|]. cbn. tauto.
  - apply wf_json_object in Hw. cbn [print]. apply (good_app [123]); [ascii|]. apply good_app; [|ascii].
    apply good_commas, Forall_fmap. eapply Forall_impl; [apply Forall_and; split; [exact IH|exact Hw]|].
    intros [k v] [Hv [Hk Hwv]]. cbn [fst snd] in *. apply good_app; [by apply good_quote|]. apply (good_app [58]); [ascii|by apply Hv].
Qed.

(** ** Properties of an object *)

Lemma own_properties_perm {A} (ps : list (jsstr * A)) : own_properties ps ≡ₚ ps.
Proof.
  unfold own_properties. rewrite merge_sort_Permutation. apply filter_app_complement.
Qed.

Lemma map_get_elem {A} (ps : list (jsstr * A)) k v : NoDup ps.*1 → map_get k ps = Some v ↔ (k, v) ∈ ps.
Proof.
  induction ps as [|[k' v'] ps IH]; cbn; intros Hn; [split; [done|by intros ?%elem_of_nil]|].
  apply NoDup_cons in Hn as [Hk Hn]. rewrite elem_of_cons, <-IH by done.
  destruct (decide _) as [->|Hne]; [|naive_solver].
  split; [intros [= ->]; by left|]. intros [[= ->]|Hg]; [done|].
  apply IH in Hg; [|done]. exfalso. apply Hk, list_elem_of_fmap. by exists (k, v).
Qed.

Lemma map_get_perm {A} (ps qs : list (jsstr * A)) k : NoDup ps.*1 → ps ≡ₚ qs → map_get k ps = map_get k qs.
Proof.
  intros Hn Hp. assert (NoDup qs.*1) as Hn' by by rewrite <-Hp.
  apply option_eq. intros v. by rewrite !map_get_elem, Hp.
Qed.

Lemma map_get_fmap {A B} (f : A → B) (ps : list (jsstr * A)) k :
  map_get k ((λ '(k, v), (k, f v)) <$> ps) = f <$> map_get k ps.
Proof. induction ps as [|[k' v] ps IH]; [done|]. cbn. by destruct (decide _). Qed.

Lemma keys_fmap {A B} (f : A → B) (ps : list (jsstr * A)) : ((λ '(k, v), (k, f v)) <$> ps).*1 = ps.*1.
Proof. induction ps as [|[k v] ps IH]; [done|]. cbn. by f_equal. Qed.

Lemma map_get_omap {A} (ps : list (jsstr * option A)) k :
  NoDup ps.*1 → map_get k (omap (λ '(k, o), pair k <$> o) ps) = mjoin (map_get k ps).
Proof.
  induction ps as [|[k' o] ps IH]; [done|]. cbn. intros [Hk Hn]%NoDup_cons. destruct o as [v|]; cbn.
  - by destruct (decide _); [|apply IH].
  - rewrite IH by done. destruct (decide _) as [->|]; [|done]. by apply map_get_None in Hk as ->.
Qed.

(** The members of an object's text, by their keys. *)
Lemma to_json_object ps :
  NoDup ps.*1 →
  ∃ ms, to_json (VObject ps) = Some (JObject ms) ∧ ∀ k, map_get k ms = map_get k ps ≫= to_json.
Proof.
  intros Hn. exists (omap (λ '(k, o), pair k <$> o) (own_properties ((λ '(k, v), (k, to_json v)) <$> ps))).
  split; [done|]. intros k.
  assert (NoDup (own_properties ((λ '(k, v), (k, to_json v)) <$> ps)).*1) as Hn'.
  { rewrite own_properties_perm, keys_fmap. done. }
  rewrite map_get_omap, (map_get_perm _ _ k Hn' (own_properties_perm _)), map_get_fmap by done.
  by destruct (map_get k ps).
Qed.
