(* ===== verification/Jwt.v ===== *)
(** * Test tokens ([ts/interop/jwt.ts])

    The signing key of a test relay, as the key file it loads, and the access
    tokens signed with it; and a reader of such tokens, as RFC 7519 has it,
    to say what a token carries. The file system is a map of directories, a
    directory a map from names to contents. [createHmac] and the join of two
    path components belong to Node. *)

From S2P Require Import Prelude JsText JsMap UrlParams Models CollabClient ClientInvariants Json.
Open Scope Z_scope.

Abbreviation files := (gmap jsstr (gmap jsstr jsstr)).

(** ** Definitions *)

Class Node := {
  (** The digest of HMAC-SHA256 for a key and a message. *)
  hmac_sha256 : list N → list N → list N;
  path_join : jsstr → jsstr → jsstr
}.

Section jwt.
Context `{ND : Node}.

(** [dir] and [secret] are what the methods of a key close over. *)
Record TestKey := mkTestKey {
  key_clientId : jsstr;
  key_issuer : jsstr;
  key_env : list (jsstr * jsstr);
  key_dir : jsstr;
  key_secret : jsstr
}.

(** [Buffer.toString('base64url')]: the URL alphabet, without padding. *)
Definition base64url (bs : list N) : jsstr := replace_char 47 95 (replace_char 43 45 (b64_chars bs)).

Definition b64url (s : jsstr) : jsstr := base64url (text_encode s).

Definition keys_json (clientId secret : jsstr) : jsval :=
  VArray [VObject [(js "client_id", VString clientId); (js "alg", VString (js "HS256")); (js "key", VString secret)]].

(** [dir] is what [mkdtempSync] made; [stringify] of an array is defined. *)
Definition testKey (dir clientId issuer : jsstr) (fs : files) : TestKey * files :=
  let secret := clientId ++ js "-secret-at-least-32-bytes-long" in
  let keysFile := path_join dir (js "keys.json") in
  (mkTestKey clientId issuer
     [(js "RELAY_AUTH_REQUIRED", js "true"); (js "RELAY_AUTH_KEYS_FILE", keysFile); (js "RELAY_AUTH_ISSUER", issuer)]
     dir secret,
   <[dir := {[ js "keys.json" := default [] (stringify (keys_json clientId secret)) ]}]> fs).

Definition defaultClientId : jsstr := js "interop-app".
Definition defaultIssuer : jsstr := js "interop-issuer".

Definition jwt_header : jsval := VObject [(js "alg", VString (js "HS256")); (js "typ", VString (js "JWT"))].

Definition base_claims (key : TestKey) (subject : jsstr) (now ttlSeconds : Z) : list (jsstr * jsval) :=
  [(js "sub", VString subject); (js "client_id", VString (key_clientId key)); (js "type", VString (js "access"));
   (js "iss", VString (key_issuer key)); (js "iat", VNumber now); (js "exp", VNumber (now + ttlSeconds))].

(** [{ ...base, ...extra }]: the properties of [extra], in the order of its
    keys, replace or follow those of [base]. *)
Definition spread (base extra : list (jsstr * jsval)) : list (jsstr * jsval) :=
  foldl (λ m '(k, v), map_set k v m) base (own_properties extra).

(** [millis] is [Date.now()]. *)
Definition sign (key : TestKey) (millis : Z) (subject : jsstr) (ttlSeconds : Z) (extra : list (jsstr * jsval)) : jsstr :=
  let now := millis / 1000 in
  let head := b64url (default [] (stringify jwt_header)) in
  let body := b64url (default [] (stringify (VObject (spread (base_claims key subject now ttlSeconds) extra)))) in
  let sig := base64url (hmac_sha256 (text_encode (key_secret key)) (text_encode (head ++ js "." ++ body))) in
  head ++ js "." ++ body ++ js "." ++ sig.

Definition remove (key : TestKey) (fs : files) : files := delete (key_dir key) fs.
End jwt.

(** ** Reading tokens *)

Definition dot : N := 46.

Definition from_base64url (s : jsstr) : option (list N) := atob (replace_char 45 43 (replace_char 95 47 s)).

Definition read_segment (s : jsstr) : option json :=
  bs ← from_base64url s; parse (of_scalars (utf8_decode bs)).

(** The header and the claims of a token whose signature is the secret's. *)
Definition read_token `{ND : Node} (secret tok : jsstr) : option (json * json) :=
  match split_on dot tok with
  | [h; b; s] =>
      sig ← from_base64url s;
      if decide (sig = hmac_sha256 (text_encode secret) (text_encode (h ++ dot :: b)))
      then header ← read_segment h; claims ← read_segment b; Some (header, claims)
      else None
  | _ => None
  end.

(** The secret a key file lists for a client. *)
Definition listed_secret (clientId text : jsstr) : option jsstr :=
  match parse text with
  | Some (JArray [JObject ms]) =>
      match map_get (js "client_id") ms, map_get (js "key") ms with
      | Some (JString c), Some (JString k) => if decide (c = clientId) then Some k else None
      | _, _ => None
      end
  | _ => None
  end.

Definition header_json : json := JObject [(js "alg", JString (js "HS256")); (js "typ", JString (js "JWT"))].

(** ** Base64url *)

Open Scope N_scope.

(** A character that stands for itself in a URL's query. *)
Definition url_plain (c : N) : bool := uri_unreserved c && form_keep c.

Lemma replace_char_fmap c d s : replace_char c d s = (λ x, if x =? c then d else x) <$> s.
Proof. done. Qed.

(** A base64url character, and the base64 character it stands for. *)
Lemma url_char v : v < 64 →
  let u := (λ x, if x =? 47 then 95 else x) ((λ x, if x =? 43 then 45 else x) (b64_char v)) in
  (λ x, if x =? 45 then 43 else x) ((λ x, if x =? 95 then 47 else x) u) = b64_char v ∧
  url_plain u = true ∧ u ≠ dot ∧ u < 128.
Proof.
  intros Hv u. cut (bool_decide ((λ x, if x =? 45 then 43 else x) ((λ x, if x =? 95 then 47 else x) u) = b64_char v ∧
    url_plain u = true ∧ u ≠ dot ∧ u < 128) = true); [by intros ?%bool_decide_eq_true|].
  revert v Hv u. apply (forall_below (λ v,
    let u := (λ x, if x =? 47 then 95 else x) ((λ x, if x =? 43 then 45 else x) (b64_char v)) in
    bool_decide ((λ x, if x =? 45 then 43 else x) ((λ x, if x =? 95 then 47 else x) u) = b64_char v ∧
    url_plain u = true ∧ u ≠ dot ∧ u < 128)) 64). vm_compute. reflexivity.
Qed.

Abbreviation bytes bs := (Forall (λ b, b < 256) bs).

Lemma base64url_chars bs :
  bytes bs → Forall (λ c, url_plain c = true ∧ c ≠ dot ∧ c < 128) (base64url bs).
Proof.
  intros Hb. destruct (b64_sextets_bytes bs Hb) as [_ Hs]. unfold base64url, b64_chars, replace_char.
  rewrite <-!list_fmap_compose. apply Forall_fmap. eapply Forall_impl; [exact Hs|].
  intros v Hv. exact (proj2 (url_char v Hv)).
Qed.

Lemma from_to_base64url bs : bytes bs → from_base64url (base64url bs) = Some bs.
Proof.
  intros Hb. destruct (b64_sextets_bytes bs Hb) as [_ Hs]. unfold from_base64url.
  rewrite <-(atob_b64_chars bs Hb). f_equal. unfold base64url, b64_chars, replace_char.
  rewrite <-!list_fmap_compose. apply list_fmap_ext. intros i v Hi.
  exact (proj1 (url_char v (Forall_lookup_1 _ _ _ _ Hs Hi))).
Qed.

Section plain.
Context (s : jsstr) (Hs : Forall (λ c, url_plain c = true ∧ c < 128) s).

Lemma plain_ascii : Forall (λ c, c < 128) s.
Proof. eapply Forall_impl; [exact Hs|]. by intros c []. Qed.

Lemma encodeURIComponent_plain : encodeURIComponent s = Some s.
Proof.
  unfold encodeURIComponent. destruct (good_ascii s plain_ascii) as [_ ->].
  f_equal. rewrite text_encode_ascii by apply plain_ascii.
  induction Hs as [|c s' [Hc _] Hs' IH]; [done|]. apply andb_prop in Hc as [Hc _].
  rewrite encode_bytes_cons, IH by done. unfold encode_byte. by rewrite Hc.
Qed.

Lemma form_encode_plain : form_encode s = s.
Proof.
  unfold form_encode. rewrite text_encode_ascii by apply plain_ascii.
  induction Hs as [|c s' [Hc _] Hs' IH]; [done|]. rewrite fmap_cons. cbn [concat]. rewrite IH by done.
  apply andb_prop in Hc as [_ Hc]. unfold form_encode_byte, encode_byte. rewrite Hc.
  destruct (N.eqb_spec c space) as [->|]; [vm_compute in Hc; discriminate|done].
Qed.

(** A server finds such a text as it was in the query. *)
Lemma query_plain name :
  good_str name → form_encode name = name → search_params (question_mark :: name ++ equals_sign :: s) = [(name, s)].
Proof.
  intros Hn En. unfold search_params. rewrite N.eqb_refl.
  assert (name ++ equals_sign :: s = form_serialize [(name, s)]) as ->.
  { cbn [form_serialize]. unfold form_pair. cbn [fst snd]. by rewrite En, form_encode_plain. }
  apply form_parse_serialize. repeat constructor; cbn; try apply Hn; apply (good_ascii s plain_ascii).
Qed.
End plain.

(** ** The segments of a token *)

Lemma read_segment_b64url v : wf_json v → read_segment (b64url (print v)) = Some v.
Proof.
  intros Hw. destruct (good_print v Hw) as [H1 H2]. unfold read_segment, b64url.
  rewrite from_to_base64url by by apply text_encode_bytes.
  cbn [mbind option_bind]. by rewrite of_text_encode, parse_print.
Qed.

Lemma b64url_chars v :
  wf_json v → Forall (λ c, url_plain c = true ∧ c ≠ dot ∧ c < 128) (b64url (print v)).
Proof.
  intros Hw. destruct (good_print v Hw) as [H1 H2]. apply base64url_chars. by apply text_encode_bytes.
Qed.

(** ** Claims *)

Definition wf_entry (p : jsstr * jsval) : Prop :=
  wf_str p.1 ∧ ∀ j, to_json p.2 = Some j → wf_json j.

Lemma spread_keys base l :
  NoDup base.*1 → NoDup (foldl (λ m '(k, v), map_set k v m) base l : list (jsstr * jsval)).*1.
Proof.
  revert base. induction l as [|[k v] l IH]; intros base Hb; [done|]. apply IH. by apply map_set_wf.
Qed.

Lemma spread_get base l k :
  NoDup l.*1 →
  map_get k (foldl (λ m '(k, v), map_set k v m) base l : list (jsstr * jsval)) =
    match map_get k l with Some v => Some v | None => map_get k base end.
Proof.
  revert base. induction l as [|[k' v] l IH]; intros base Hn; [done|]. cbn in Hn |- *.
  apply NoDup_cons in Hn as [Hk Hn]. rewrite IH by done. destruct (decide (k' = k)) as [->|Hne].
  - rewrite (proj2 (map_get_None k l)) by done. apply map_get_set.
  - by rewrite map_get_set_ne.
Qed.

Lemma wf_spread base l :
  Forall wf_entry base → Forall wf_entry l → Forall wf_entry (foldl (λ m '(k, v), map_set k v m) base l).
Proof.
  intros Hb Hl. revert base Hb. induction Hl as [|[k v] l Hk _ IH]; intros base Hb; [done|].
  apply IH. induction Hb as [|[k' v'] base Hk' Hb IHb]; cbn.
  - constructor; [done|constructor].
  - destruct (decide _); by constructor.
Qed.

Lemma wf_to_json_object ps j : Forall wf_entry ps → to_json (VObject ps) = Some j → wf_json j.
Proof.
  intros Hp [= <-]. apply wf_json_object, Forall_forall. intros [k v] Hin.
  apply list_elem_of_omap in Hin as ([k' o] & Hin & Ho). destruct o as [j|]; [|done].
  cbn in Ho. injection Ho as -> ->. rewrite own_properties_perm in Hin.
  apply list_elem_of_fmap in Hin as ([k' v'] & E & Hin). injection E as -> E.
  rewrite Forall_forall in Hp. destruct (Hp _ Hin) as [Hk Hj]. split; [done|]. by apply Hj.
Qed.

Lemma wf_header : wf_json header_json.
Proof. repeat split; repeat constructor. Qed.

Section token.
Context `{ND : Node}.
Context (hmac_bytes : ∀ k m, bytes (hmac_sha256 k m)).

(** The claims of a token, as a JSON object. *)
Lemma claims_text key subject now ttl extra :
  wf_str (key_clientId key) → wf_str (key_issuer key) → wf_str subject →
  NoDup extra.*1 → Forall wf_entry extra →
  ∃ claims, stringify (VObject (spread (base_claims key subject now ttl) extra)) = Some (print (JObject claims)) ∧
    wf_json (JObject claims) ∧
    ∀ k, map_get k claims = match map_get k extra with
                            | Some v => to_json v
                            | None => map_get k (base_claims key subject now ttl) ≫= to_json
                            end.
Proof.
  intros Hc Hi Hs Hn Hw. set (base := base_claims key subject now ttl).
  assert (NoDup base.*1) as Hb by (apply (proj1 (bool_decide_eq_true _)); vm_compute; reflexivity).
  assert (Forall wf_entry base) as Hwb.
  { repeat constructor; cbn; try done; (by intros j [= <-]) || (intros j [= <-]; repeat constructor). }
  assert (NoDup (own_properties extra).*1) as Hn' by by rewrite own_properties_perm.
  destruct (to_json_object (spread base extra)) as (ms & E & Hms); [by apply spread_keys|].
  exists ms. unfold stringify. rewrite E. split; [done|]. split.
  - apply (wf_to_json_object (spread base extra)); [|done]. apply wf_spread; [done|]. by rewrite own_properties_perm.
  - intros k. unfold spread in Hms. rewrite Hms, spread_get by done.
    rewrite (map_get_perm _ _ k Hn' (own_properties_perm extra)). by destruct (map_get k extra).
Qed.

(** A token's segments, none of which holds a dot or needs an escape. *)
Lemma sign_segments key millis subject ttl extra :
  wf_str (key_clientId key) → wf_str (key_issuer key) → wf_str subject →
  NoDup extra.*1 → Forall wf_entry extra →
  ∃ claims h b s, sign key millis subject ttl extra = h ++ dot :: b ++ dot :: s ∧
    h = b64url (print header_json) ∧ b = b64url (print (JObject claims)) ∧ wf_json (JObject claims) ∧
    s = base64url (hmac_sha256 (text_encode (key_secret key)) (text_encode (h ++ dot :: b))) ∧
    (∀ k, map_get k claims = match map_get k extra with
                             | Some v => to_json v
                             | None => map_get k (base_claims key subject (millis / 1000)%Z ttl) ≫= to_json
                             end) ∧
    Forall (λ c, url_plain c = true ∧ c ≠ dot ∧ c < 128) (h ++ b ++ s).
Proof.
  intros Hc Hi Hs Hn Hw.
  destruct (claims_text key subject (millis / 1000)%Z ttl extra) as (claims & Eb & Hb & Hg); try done.
  set (h := b64url (print header_json)). set (b := b64url (print (JObject claims))).
  exists claims, h, b, (base64url (hmac_sha256 (text_encode (key_secret key)) (text_encode (h ++ dot :: b)))).
  split; [|split_and!; try done].
  - unfold sign. cbv zeta. rewrite Eb. reflexivity.
  - pose proof wf_header. repeat (apply Forall_app; split); by apply b64url_chars || apply base64url_chars.
Qed.

(** The key file lists the secret. *)
Lemma listed_secret_keys clientId secret :
  wf_str clientId → wf_str secret →
  listed_secret clientId (default [] (stringify (keys_json clientId secret))) = Some secret.
Proof.
  intros Hc Hs.
  set (ms := [(js "client_id", JString clientId); (js "alg", JString (js "HS256")); (js "key", JString secret)]).
  assert (stringify (keys_json clientId secret) = Some (print (JArray [JObject ms]))) as -> by reflexivity.
  change (default [] (Some (print (JArray [JObject ms])))) with (print (JArray [JObject ms])). unfold listed_secret.
  rewrite parse_print by (repeat split; try done; repeat constructor).
  assert (map_get (js "client_id") ms = Some (JString clientId)) as -> by reflexivity.
  assert (map_get (js "key") ms = Some (JString secret)) as -> by reflexivity.
  by rewrite decide_True.
Qed.
End token.

(** ** Properties *)


(** HMAC as a function of both its arguments, and paths joined by a slash. *)
Definition sample_node : Node := {|
  hmac_sha256 := λ k m, (λ b, b mod 256) <$> (rev k ++ m);
  path_join := λ a b, a ++ 47 :: b
|}.

Lemma sample_node_bytes k m : bytes (hmac_sha256 (Node := sample_node) k m).
Proof. apply Forall_fmap, Forall_true. intros b. cbn. lia. Qed.

Definition room_claim : list (jsstr * jsval) := [(js "rooms", VArray [VString (js "room-*")])].


(** a client's socket URL carries a signed token as it is. The URL of a
    client with such a token is the URL without one and a query in which the
    token needs no escapes, and a server that parses the query finds the
    token under its name, unchanged. *)
Theorem token_in_sync_url `{ND : Node} `{P : Platform} (c : CollabClient) (key : TestKey) (millis : Z)
    (subject : jsstr) (ttl : Z) (extra : list (jsstr * jsval)) :
  (∀ k m, bytes (hmac_sha256 k m)) →
  wf_str (key_clientId key) → wf_str (key_issuer key) → wf_str subject →
  NoDup extra.*1 → Forall wf_entry extra →
  let tok := sign key millis subject ttl extra in
  let query := question_mark :: js "token=" ++ tok in
  sync_url c (Some tok) = (λ url, url ++ query) <$> sync_url c None ∧
  params_get (js "token") (search_params query) = Some tok.
Proof.
  intros Hh Hc Hi Hs Hn Hw tok query.
  destruct (sign_segments Hh key millis subject ttl extra)
    as (claims & h & b & s & Et & _ & _ & _ & _ & _ & Hch); [done..|].
  assert (Forall (λ c, url_plain c = true ∧ c < 128) tok) as Hp.
  { assert (∀ t, Forall (λ c, url_plain c = true ∧ c ≠ dot ∧ c < 128) t → Forall (λ c, url_plain c = true ∧ c < 128) t) as Hd
      by (intros t Ht; eapply Forall_impl; [exact Ht|]; intros x; cbn; tauto).
    rewrite !Forall_app in Hch. destruct Hch as (H1 & H2 & H3). unfold tok. rewrite Et.
    repeat (apply Forall_app_2; [by apply Hd|]; apply Forall_cons_2; [done|]). by apply Hd. }
  split.
  - assert (truthy tok = true) as Ht by (apply truthy_spec; unfold tok; rewrite Et; by destruct h).
    unfold sync_url. destruct (encodeURIComponent (str_or _ _)); [|done].
    rewrite Ht, (encodeURIComponent_plain tok Hp). cbn. by rewrite <-!app_assoc.
  - unfold query. change (js "token=" ++ tok) with (js "token" ++ equals_sign :: tok).
    rewrite (query_plain tok Hp); [reflexivity|apply good_ascii; repeat constructor|reflexivity].
Qed.

Lemma token_in_sync_url_witness :
  let key := (testKey (ND := sample_node) (js "/tmp/k") (js "app") (js "me") ∅).1 in
  let tok := sign (ND := sample_node) key 5999 (js "alice") 3600 room_claim in
  sync_url (P := node_platform) (client sample_world) (Some tok) =
    Some (js "ws://relay.example/ws/v1/r/sync?token=" ++ tok).
Proof.
  intros key tok.
  edestruct (token_in_sync_url (ND := sample_node) (P := node_platform) (client sample_world) key 5999 (js "alice") 3600
    room_claim sample_node_bytes) as [E _].
  1-3: repeat constructor.
  { apply NoDup_singleton. }
  { repeat constructor. intros j [= <-]. repeat constructor. }
  fold tok in E. rewrite E. reflexivity.
Defined.
