(* ===== verification/EventEmitter.v ===== *)
(** * The event emitter ([ts/src/EventEmitter.ts])

    A map from event names to [Set]s of functions. The sets are objects that
    an emission in progress keeps a reference to, so the model has a store of
    them; iterating a [Set] follows ECMAScript: the set's entries are a list in
    insertion order in which a removal leaves an empty slot, an addition
    appends, and an iteration is a cursor that reads the list as it is at each
    step. Functions are numbers, compared by identity. *)

From S2P Require Import Prelude JsMap.

(** ** Sets *)

(** [[SetData]]: the entries of a [Set], removed ones empty. *)
Abbreviation slots := (list (option nat)).

Definition live (s : slots) : list nat := omap id s.

(** [set.add(fn)] and [set.delete(fn)]. *)
Definition slots_add (fn : nat) (s : slots) : slots :=
  if decide (fn ∈ live s) then s else s ++ [Some fn].
Definition slots_delete (fn : nat) (s : slots) : slots :=
  (λ x, if decide (x = Some fn) then None else x) <$> s.

(** ** Emitters *)

Record Emitter (K : Type) := mkEmitter {
  listeners : jsmap K nat;
  store : list slots
}.
Arguments mkEmitter {K}.
Arguments listeners {K}.
Arguments store {K}.

#[export] Instance eta_Emitter K : Eta (Emitter K) := λ e, mkEmitter (listeners e) (store e).

Definition new_emitter {K} : Emitter K := mkEmitter [] [].

(** The set at a location; every location an emitter holds is allocated. *)
Definition slots_at {K} (l : nat) (e : Emitter K) : slots := default [] (store e !! l).

Section ops.
Context {K : Type} `{EqDecision K}.

Definition on (event : K) (fn : nat) (e : Emitter K) : Emitter K :=
  let '(l, e) :=
    match map_get event (listeners e) with
    | Some l => (l, e)
    | None =>
        let l := length (store e) in
        (l, e <| listeners := map_set event l (listeners e) |> <| store := store e ++ [[]] |>)
    end in
  e <| store := alter (slots_add fn) l (store e) |>.

Definition off (event : K) (fn : nat) (e : Emitter K) : Emitter K :=
  match map_get event (listeners e) with
  | Some l => e <| store := alter (slots_delete fn) l (store e) |>
  | None => e
  end.

Definition removeAllListeners (e : Emitter K) : Emitter K := e <| listeners := [] |>.

(** The functions an emission of [event] would start from. *)
Definition subscribed (event : K) (e : Emitter K) : list nat :=
  match map_get event (listeners e) with Some l => live (slots_at l e) | None => [] end.
End ops.

(** ** Emission

    [emitter] and [set_emitter] locate the emitter in the state of a program;
    [invoke fn] runs a listener, which may do anything to that state. The loop
    takes fuel, and answers whether it came to its end. *)

Section emit.
Context {K : Type} `{EqDecision K} {S : Type}.
Context (emitter : S → Emitter K) (invoke : nat → M S unit).

Fixpoint emit_from (fuel : nat) (l i : nat) : M S bool :=
  match fuel with
  | O => mret false
  | Datatypes.S fuel =>
      s ← gets (λ s, slots_at l (emitter s));
      match s !! i with
      | None => mret true
      | Some None => emit_from fuel l (Datatypes.S i)
      | Some (Some fn) => invoke fn ;; emit_from fuel l (Datatypes.S i)
      end
  end.

Definition emit (fuel : nat) (event : K) : M S bool :=
  e ← gets emitter;
  match map_get event (listeners e) with
  | None => mret true
  | Some l => emit_from fuel l 0
  end.
End emit.

(** ** Well-formed emitters *)

Record emitter_wf {K} (e : Emitter K) : Prop := {
  wf_keys : map_wf (listeners e);
  wf_locs : NoDup (listeners e).*2;
  wf_alloc l : l ∈ (listeners e).*2 → (l < length (store e))%nat;
  wf_slots s : s ∈ store e → NoDup (live s)
}.

Lemma live_app s1 s2 : live (s1 ++ s2) = live s1 ++ live s2.
Proof. apply omap_app. Qed.

Lemma elem_of_live fn s : fn ∈ live s ↔ Some fn ∈ s.
Proof.
  unfold live. rewrite list_elem_of_omap. split; [by intros ([]&?&[= ->])|]. intros. by exists (Some fn).
Qed.

Lemma live_add fn s : live (slots_add fn s) = if decide (fn ∈ live s) then live s else live s ++ [fn].
Proof. unfold slots_add. case_decide; [done|]. by rewrite live_app. Qed.

Lemma live_delete fn s : live (slots_delete fn s) = filter (λ x, x ≠ fn) (live s).
Proof.
  induction s as [|[x|] s IH]; simpl; [done| |done].
  destruct (decide (x = fn)) as [->|Hx].
  - rewrite decide_True by done. simpl. rewrite filter_cons_False by (by intros []). done.
  - rewrite decide_False by congruence. simpl. rewrite filter_cons_True by done. by f_equal.
Qed.

Lemma slots_add_NoDup fn s : NoDup (live s) → NoDup (live (slots_add fn s)).
Proof.
  rewrite live_add. case_decide; [done|]. intros. apply NoDup_app.
  split_and!; [done|set_solver|apply NoDup_singleton].
Qed.

Lemma slots_delete_NoDup fn s : NoDup (live s) → NoDup (live (slots_delete fn s)).
Proof. rewrite live_delete. apply NoDup_filter. Qed.

Section wf.
Context {K : Type} `{EqDecision K}.
Implicit Types (e : Emitter K).

Lemma map_get_value k l (m : jsmap K nat) : map_get k m = Some l → l ∈ m.*2.
Proof.
  induction m as [|[k' v] m IH]; simpl; [done|]. case_decide; [intros [= ->]; set_solver|].
  intros Hm. apply elem_of_cons. right. by apply IH.
Qed.

(** Distinct events have distinct sets. *)
Lemma map_get_inj k k' l (m : jsmap K nat) :
  NoDup m.*2 → map_get k m = Some l → map_get k' m = Some l → k = k'.
Proof.
  induction m as [|[k1 v] m IH]; simpl; [done|]. intros [Hv Hn]%NoDup_cons.
  repeat case_decide; subst; [done|..|by apply IH].
  - intros [= ->] Hk'. by apply map_get_value in Hk'.
  - intros Hk [= ->]. by apply map_get_value in Hk.
Qed.

Lemma slots_at_alter f l l' (e : Emitter K) :
  slots_at l (e <| store := alter f l' (store e) |>) =
  if decide (l = l' ∧ (l < length (store e))%nat) then f (slots_at l e) else slots_at l e.
Proof.
  unfold slots_at. cbn. rewrite list_lookup_alter.
  destruct (decide (l = l' ∧ (l < length (store e))%nat)) as [[-> Hl]|Hl].
  - apply lookup_lt_is_Some in Hl as [s Hs].
    rewrite decide_True, Hs by done. done.
  - destruct (decide (l' = l)) as [->|Hne]; [|done].
    destruct (store e !! l) as [s|] eqn:E; [|done]. apply lookup_lt_Some in E. naive_solver.
Qed.

Lemma wf_alter f l e :
  (∀ s, NoDup (live s) → NoDup (live (f s))) → emitter_wf e →
  emitter_wf (e <| store := alter f l (store e) |>).
Proof.
  intros Hf []. split; cbn; try done.
  - intros l' Hl. rewrite length_alter. by apply wf_alloc0.
  - intros s (i & Hi)%list_elem_of_lookup. rewrite list_lookup_alter in Hi.
    case_decide; [|eapply wf_slots0, list_elem_of_lookup; by eexists].
    apply fmap_Some in Hi as (s' & E & ->).
    apply Hf, wf_slots0, list_elem_of_lookup. by eexists.
Qed.

(** A new set for an event that had none. *)
Definition alloc (event : K) (e : Emitter K) : Emitter K :=
  e <| listeners := map_set event (length (store e)) (listeners e) |> <| store := store e ++ [[]] |>.

Lemma map_set_new k l (m : jsmap K nat) : map_get k m = None → map_set k l m = m ++ [(k, l)].
Proof. induction m as [|[k' v] m IH]; simpl; [done|]. case_decide; [done|]. intros Hm. by rewrite IH. Qed.

Lemma wf_alloc_event event e :
  map_get event (listeners e) = None → emitter_wf e → emitter_wf (alloc event e).
Proof.
  intros Hm []. split; unfold alloc; cbn.
  - by apply map_set_wf.
  - rewrite map_set_new, fmap_app by done. apply NoDup_app. split_and!; [done| |apply NoDup_singleton].
    intros l Hl ->%list_elem_of_singleton. specialize (wf_alloc0 _ Hl). simpl in *. lia.
  - rewrite map_set_new, fmap_app, length_app by done. intros l [Hl| ->%list_elem_of_singleton]%elem_of_app; cbn; [|lia].
    specialize (wf_alloc0 _ Hl). lia.
  - intros s [Hs| ->%list_elem_of_singleton]%elem_of_app; [by apply wf_slots0|constructor].
Qed.

Lemma slots_at_alloc event l e :
  slots_at l (alloc event e) = slots_at l e.
Proof.
  unfold slots_at, alloc. cbn. destruct (decide (l < length (store e))%nat).
  - by rewrite lookup_app_l.
  - rewrite (lookup_ge_None_2 (store e)) by lia. rewrite lookup_app_r by lia.
    by destruct (l - length (store e))%nat as [|[]].
Qed.

Lemma on_alloc event fn e :
  on event fn e =
  let e' := match map_get event (listeners e) with Some _ => e | None => alloc event e end in
  let l := default (length (store e)) (map_get event (listeners e)) in
  e' <| store := alter (slots_add fn) l (store e') |>.
Proof. unfold on, alloc. by destruct (map_get event (listeners e)). Qed.

Lemma subscribed_alter f event l e event' :
  emitter_wf e → map_get event (listeners e) = Some l →
  subscribed event' (e <| store := alter f l (store e) |>) =
  if decide (event' = event) then live (f (slots_at l e)) else subscribed event' e.
Proof.
  intros Hw Hl. unfold subscribed. change (listeners (e <| store := _ |>)) with (listeners e).
  destruct (decide (event' = event)) as [->|He].
  - rewrite Hl, slots_at_alter, decide_True; [done|]. split; [done|].
    by eapply wf_alloc, map_get_value.
  - destruct (map_get event' (listeners e)) as [l'|] eqn:Hl'; [|done].
    rewrite slots_at_alter, decide_False; [done|]. intros [-> _].
    apply He. by eapply map_get_inj; [apply (wf_locs _ Hw)|..].
Qed.

Lemma subscribed_alloc event event' e :
  map_get event (listeners e) = None → subscribed event' (alloc event e) = subscribed event' e.
Proof.
  intros Hm. unfold subscribed. cbn [alloc listeners].
  destruct (decide (event' = event)) as [->|Hne].
  - rewrite Hm. unfold alloc. cbn. rewrite map_get_set. unfold slots_at. cbn.
    by rewrite list_lookup_middle.
  - unfold alloc at 1. cbn. rewrite map_get_set_ne by done.
    destruct (map_get event' (listeners e)) as [l|]; [|done].
    by rewrite (slots_at_alloc event).
Qed.

Lemma on_wf event fn e : emitter_wf e → emitter_wf (on event fn e).
Proof.
  intros Hw. rewrite on_alloc. cbv zeta. apply wf_alter; [by apply slots_add_NoDup|].
  destruct (map_get event (listeners e)) eqn:E; [done|by apply wf_alloc_event].
Qed.

Lemma off_wf event fn e : emitter_wf e → emitter_wf (off event fn e).
Proof.
  intros Hw. unfold off. destruct (map_get _ _); [|done]. apply wf_alter; [by apply slots_delete_NoDup|done].
Qed.

Lemma subscribed_on event fn e event' :
  emitter_wf e →
  subscribed event' (on event fn e) =
  if decide (event' = event)
  then if decide (fn ∈ subscribed event e) then subscribed event e else subscribed event e ++ [fn]
  else subscribed event' e.
Proof.
  intros Hw. rewrite on_alloc. cbv zeta. destruct (map_get event (listeners e)) as [l|] eqn:E; cbn [default].
  - rewrite (subscribed_alter _ event) by done. case_decide; [|done]. rewrite live_add.
    unfold subscribed. by rewrite E.
  - pose proof (wf_alloc_event event e E Hw) as Hw'.
    assert (map_get event (listeners (alloc event e)) = Some (length (store e))) as E'.
    { unfold alloc. cbn. apply map_get_set. }
    rewrite (subscribed_alter _ event _ _ _ Hw' E').
    case_decide; [|by apply subscribed_alloc]. rewrite live_add, slots_at_alloc.
    assert (subscribed event e = []) as Hs by (unfold subscribed; by rewrite E).
    unfold slots_at. rewrite lookup_ge_None_2 by done. by rewrite Hs.
Qed.

Lemma subscribed_off event fn e event' :
  emitter_wf e →
  subscribed event' (off event fn e) =
  if decide (event' = event) then filter (λ x, x ≠ fn) (subscribed event e) else subscribed event' e.
Proof.
  intros Hw. unfold off. destruct (map_get event (listeners e)) as [l|] eqn:E.
  - rewrite (subscribed_alter _ event) by done. case_decide; [|done]. rewrite live_delete.
    unfold subscribed. by rewrite E.
  - case_decide; [|done]. subst. unfold subscribed. by rewrite E.
Qed.

Lemma subscribed_NoDup event e : emitter_wf e → NoDup (subscribed event e).
Proof.
  intros Hw. unfold subscribed, slots_at. destruct (map_get _ _) as [l|]; [|constructor].
  destruct (store e !! l) as [s|] eqn:E; [|constructor]. eapply wf_slots; [done|].
  apply list_elem_of_lookup. by eexists.
Qed.
End wf.

(** ** Emissions whose listeners only remove listeners *)

Definition only_removes (s s' : slots) : Prop := Forall2 (λ x y, y = x ∨ y = None) s s'.

#[export] Instance only_removes_refl : Reflexive only_removes.
Proof. intros s. apply Forall2_same_length_lookup_2; [done|]. intros i x y -> [= ->]. by left. Qed.

#[export] Instance only_removes_trans : Transitive only_removes.
Proof.
  intros s1 s2 s3 H1. revert s3. induction H1 as [|x y s1 s2 Hxy H1 IH]; intros s3 H2; inversion H2; subst; constructor.
  - destruct Hxy as [->| ->]; [done|]. right. by destruct H3 as [->| ->].
  - by apply IH.
Qed.

Lemma only_removes_delete fn s : only_removes s (slots_delete fn s).
Proof.
  induction s as [|x s IH]; simpl; constructor; [|done]. case_decide; [by right|by left].
Qed.

Lemma only_removes_live s s' : only_removes s s' → live s' `sublist_of` live s.
Proof.
  induction 1 as [|x y s s' [->| ->] _ IH]; simpl; [done|by destruct x; [apply sublist_skip|]|].
  destruct x; [by apply sublist_cons|done].
Qed.

Lemma only_removes_drop i s s' : only_removes s s' → only_removes (drop i s) (drop i s').
Proof. apply Forall2_drop. Qed.

Lemma live_drop i s x : s !! i = Some x → live (drop i s) = live [x] ++ live (drop (S i) s).
Proof. intros Hi. rewrite (drop_S _ _ _ Hi). apply (live_app [x]). Qed.

Section removals.
Context {K S : Type} `{EqDecision K} (emitter : S → Emitter K) (invoke : nat → M S unit).
(** What the listeners called so far are. *)
Context (trace : S → list nat) (l : nat).
Context (Hinvoke : ∀ fn s, ∃ s', invoke fn s = (Ok tt, s') ∧ trace s' = trace s ++ [fn] ∧
           only_removes (slots_at l (emitter s)) (slots_at l (emitter s'))).

Lemma emit_from_removals fuel i s :
  (i ≤ length (slots_at l (emitter s)))%nat → (length (slots_at l (emitter s)) < i + fuel)%nat →
  ∃ s' calls, emit_from emitter invoke fuel l i s = (Ok true, s') ∧ trace s' = trace s ++ calls ∧
    only_removes (slots_at l (emitter s)) (slots_at l (emitter s')) ∧
    calls `sublist_of` live (drop i (slots_at l (emitter s))) ∧
    live (drop i (slots_at l (emitter s'))) ⊆ calls.
Proof.
  revert i s. induction fuel as [|fuel IH]; intros i s Hi Hlen; simpl; [lia|].
  unfold mbind at 1, M_bind at 1, gets. destruct (slots_at l (emitter s) !! i) as [[fn|]|] eqn:Ei.
  - destruct (Hinvoke fn s) as (s1 & E1 & Et & Hr).
    unfold mbind, M_bind. rewrite E1.
    apply lookup_lt_Some in Ei as Hlt. pose proof (Forall2_length _ _ _ Hr).
    destruct (IH (Datatypes.S i) s1) as (s' & calls & E & Ht & Hr' & Hsub & Hlive); [lia..|].
    exists s', (fn :: calls). rewrite E, Ht, Et, <-app_assoc. split_and!; [done|done|by etrans| |].
    + rewrite (live_drop _ _ _ Ei). simpl. apply sublist_skip. etrans; [done|].
      by apply only_removes_live, only_removes_drop.
    + destruct (Forall2_lookup_l _ _ _ _ _ (transitivity Hr Hr') Ei) as (y & Ey & Hy).
      rewrite (live_drop _ _ _ Ey). destruct Hy as [->| ->]; set_solver.
  - apply lookup_lt_Some in Ei as Hlt.
    destruct (IH (Datatypes.S i) s) as (s' & calls & E & Ht & Hr' & Hsub & Hlive); [lia..|].
    exists s', calls. rewrite E, Ht. split_and!; try done.
    + by rewrite (live_drop _ _ _ Ei).
    + destruct (Forall2_lookup_l _ _ _ _ _ Hr' Ei) as (y & Ey & Hy).
      rewrite (live_drop _ _ _ Ey). by destruct Hy as [->| ->].
  - exists s, []. apply lookup_ge_None in Ei. rewrite app_nil_r, drop_ge by done. by split_and!.
Qed.
End removals.

(** Listeners that leave the set of their event alone, one of which throws. *)
Section throwing.
Context {K S : Type} `{EqDecision K} (emitter : S → Emitter K) (invoke : nat → M S unit).
Context (trace : S → list nat) (l : nat) (outcome_of : nat → outcome unit).
Context (Hinvoke : ∀ fn s, ∃ s', invoke fn s = (outcome_of fn, s') ∧ trace s' = trace s ++ [fn] ∧
           slots_at l (emitter s') = slots_at l (emitter s)).

(** The listeners up to and including the first that throws, and what it threw. *)
Fixpoint until_throw (fns : list nat) : list nat * outcome bool :=
  match fns with
  | [] => ([], Ok true)
  | fn :: fns' =>
      match outcome_of fn with
      | Throw err => ([fn], Throw err)
      | Ok _ => let '(called, r) := until_throw fns' in (fn :: called, r)
      end
  end.

Lemma emit_from_until_throw fuel i s :
  (i ≤ length (slots_at l (emitter s)))%nat → (length (slots_at l (emitter s)) < i + fuel)%nat →
  let '(called, r) := until_throw (live (drop i (slots_at l (emitter s)))) in
  ∃ s', emit_from emitter invoke fuel l i s = (r, s') ∧ trace s' = trace s ++ called.
Proof.
  revert i s. induction fuel as [|fuel IH]; intros i s Hi Hlen; simpl; [lia|].
  unfold mbind at 1, M_bind at 1, gets. destruct (slots_at l (emitter s) !! i) as [[fn|]|] eqn:Ei.
  - apply lookup_lt_Some in Ei as Hlt. rewrite (live_drop _ _ _ Ei).
    destruct (Hinvoke fn s) as (s1 & E1 & Et & Hs). simpl. unfold mbind, M_bind. rewrite E1.
    destruct (outcome_of fn); [|by exists s1].
    specialize (IH (Datatypes.S i) s1). rewrite Hs in IH.
    destruct (until_throw (live (drop (Datatypes.S i) _))) as [called r].
    destruct IH as (s' & E & Ht); [lia..|]. exists s'. by rewrite E, Ht, Et, <-app_assoc.
  - apply lookup_lt_Some in Ei as Hlt. rewrite (live_drop _ _ _ Ei). apply IH; lia.
  - apply lookup_ge_None in Ei. rewrite drop_ge by done. exists s. by rewrite app_nil_r.
Qed.
End throwing.

(** A program whose state is an emitter and the listeners called, latest first. *)
Definition traced (K : Type) : Type := Emitter K * list nat.
Definition trace_of {K} (s : traced K) : list nat := reverse s.2.
Definition note {K} (fn : nat) : M (traced K) unit := modify (λ '(e, t), (e, fn :: t)).

(** ** Properties *)

(** The subscriptions of an event are a set in insertion order. [on] adds a
    function once, [off] (and the function [on] returns) removes it, both
    leave other events alone, and [removeAllListeners] leaves none. *)
Theorem subscriptions_are_sets {K} `{EqDecision K} (e : Emitter K) (event event' : K) (fn : nat) :
  emitter_wf e →
  (emitter_wf (on event fn e) ∧ emitter_wf (off event fn e) ∧ emitter_wf (removeAllListeners e)) ∧
  NoDup (subscribed event e) ∧
  subscribed event' (on event fn e) =
    (if decide (event' = event)
     then if decide (fn ∈ subscribed event e) then subscribed event e else subscribed event e ++ [fn]
     else subscribed event' e) ∧
  subscribed event' (off event fn e) =
    (if decide (event' = event) then filter (λ x, x ≠ fn) (subscribed event e) else subscribed event' e) ∧
  subscribed event' (removeAllListeners e) = [].
Proof.
  intros Hw. split_and!; [by apply on_wf|by apply off_wf| |by apply subscribed_NoDup|
    by apply subscribed_on|by apply subscribed_off|done].
  destruct Hw. split; cbn; try done; [constructor|constructor|by intros l ?%elem_of_nil].
Qed.

Lemma new_emitter_wf {K} : emitter_wf (new_emitter (K := K)).
Proof. split; cbn; [constructor|constructor|by intros l ?%elem_of_nil|by intros s ?%elem_of_nil]. Qed.

Lemma subscriptions_are_sets_witness :
  let e := on 1%nat 7%nat new_emitter in
  subscribed 1%nat (on 1%nat 7%nat e) = [7%nat] ∧ subscribed 1%nat (off 1%nat 7%nat e) = [].
Proof.
  intros e. destruct (subscriptions_are_sets e 1%nat 1%nat 7%nat) as (_ & _ & E1 & E2 & _).
  - apply on_wf, new_emitter_wf.
  - rewrite E1, E2. by vm_compute.
Defined.

(** an emission survives listeners that unsubscribe while it runs. If the
    listeners return and only remove functions from the set they were called
    from, [emit] comes to its end, calls each function at most once, in
    subscription order, calls no function that was not subscribed at the start,
    and skips none that is still subscribed at the end. *)
Theorem emit_with_removals {K S} `{EqDecision K} (emitter : S → Emitter K) (invoke : nat → M S unit)
    (trace : S → list nat) (event : K) (l fuel : nat) (s : S) :
  (∀ fn s, ∃ s', invoke fn s = (Ok tt, s') ∧ trace s' = trace s ++ [fn] ∧
     only_removes (slots_at l (emitter s)) (slots_at l (emitter s'))) →
  emitter_wf (emitter s) → map_get event (listeners (emitter s)) = Some l →
  (length (slots_at l (emitter s)) < fuel)%nat →
  ∃ s' calls, emit emitter invoke fuel event s = (Ok true, s') ∧ trace s' = trace s ++ calls ∧
    calls `sublist_of` subscribed event (emitter s) ∧ NoDup calls ∧
    (∀ fn, fn ∈ live (slots_at l (emitter s')) → fn ∈ calls).
Proof.
  intros Hi Hw Hl Hf. destruct (emit_from_removals emitter invoke trace l Hi fuel 0 s) as (s' & calls & E & Ht & _ & Hs & Hin); [lia..|].
  exists s', calls. pose proof (subscribed_NoDup event _ Hw) as Hn. unfold subscribed in *. rewrite Hl in *.
  split_and!; try done; [|by eapply sublist_NoDup].
  unfold emit, mbind, M_bind, gets. by rewrite Hl.
Qed.

(** Three listeners, the first of which unsubscribes the second, and the third itself. *)
Definition removing (fn : nat) : M (traced nat) unit :=
  note fn ;; modify (λ '(e, t), (off 0%nat (match fn with 1 => 2 | _ => fn end)%nat e, t)).

Lemma emit_with_removals_witness :
  let e := on 0%nat 3%nat (on 0%nat 2%nat (on 0%nat 1%nat new_emitter)) in
  ∃ s' calls, emit fst removing 4 0%nat (e, []) = (Ok true, s') ∧ trace_of s' = calls ∧
    calls `sublist_of` subscribed 0%nat e ∧ calls = [1%nat; 3%nat].
Proof.
  intros e.
  destruct (emit_with_removals fst removing trace_of 0%nat 0 4 (e, [])) as (s' & calls & E & Ht & Hs & _).
  - intros fn [e' t]. eexists. split; [reflexivity|]. split.
    + unfold trace_of. simpl. by rewrite reverse_cons.
    + simpl. unfold off. destruct (map_get 0%nat (listeners e')) as [l|]; [|done].
      rewrite slots_at_alter. case_decide; [apply only_removes_delete|done].
  - do 3 apply on_wf. apply new_emitter_wf.
  - done.
  - vm_compute. lia.
  - exists s', calls. split_and!; try done. simpl in Ht.
    assert (s' = (emit fst removing 4 0%nat (e, [])).2) as -> by (by rewrite E). rewrite <-Ht. by vm_compute.
Defined.

(** A listener that throws ends the emission: [emit] calls the listeners up
    to and including it, in subscription order, and throws what it threw; when
    none throws, all are called. (The listeners leave their set alone.) *)
Theorem emit_stops_at_throw {K S} `{EqDecision K} (emitter : S → Emitter K) (invoke : nat → M S unit)
    (trace : S → list nat) (outcome_of : nat → outcome unit) (event : K) (l fuel : nat) (s : S) :
  (∀ fn s, ∃ s', invoke fn s = (outcome_of fn, s') ∧ trace s' = trace s ++ [fn] ∧
     slots_at l (emitter s') = slots_at l (emitter s)) →
  map_get event (listeners (emitter s)) = Some l → (length (slots_at l (emitter s)) < fuel)%nat →
  let '(called, r) := until_throw outcome_of (subscribed event (emitter s)) in
  ∃ s', emit emitter invoke fuel event s = (r, s') ∧ trace s' = trace s ++ called.
Proof.
  intros Hi Hl Hf. pose proof (emit_from_until_throw emitter invoke trace l outcome_of Hi fuel 0 s) as Hu.
  unfold subscribed, emit, mbind, M_bind, gets. rewrite Hl. simpl in Hu |- *. apply Hu; lia.
Qed.

Definition second_throws (fn : nat) : outcome unit :=
  if decide (fn = 2%nat) then Throw (HostError []) else Ok tt.

Lemma emit_stops_at_throw_witness :
  let e := on 0%nat 3%nat (on 0%nat 2%nat (on 0%nat 1%nat new_emitter)) in
  ∃ s', emit fst (λ fn s, (second_throws fn, (note fn s).2)) 4 0%nat (e, []) = (Throw (HostError []), s') ∧
        trace_of s' = [1%nat; 2%nat].
Proof.
  intros e.
  pose proof (emit_stops_at_throw fst (λ fn s, (second_throws fn, (note fn s).2)) trace_of second_throws
    0%nat 0 4 (e, [])) as Ht.
  assert (until_throw second_throws (subscribed 0%nat e) = ([1%nat; 2%nat], Throw (HostError []))) as Eu
    by (vm_compute; reflexivity).
  simpl fst in Ht. rewrite Eu in Ht. apply Ht.
  - intros fn [e' t]. eexists. split; [reflexivity|]. unfold trace_of. simpl. by rewrite reverse_cons.
  - done.
  - vm_compute. lia.
Defined.

(** An emission does not end when a listener removes and subscribes itself
    again each time it is called: the set's iteration finds it behind itself,
    and no amount of fuel is enough. *)
Theorem resubscribing_listener_never_ends (event : nat) (fn fuel : nat) :
  let again : nat → M (Emitter nat) unit := λ f, modify (λ e, on event f (off event f e)) in
  (emit (λ e, e) again fuel event (on event fn new_emitter)).1 = Ok false.
Proof.
  intros again. unfold emit, mbind, M_bind, gets. cbn. rewrite decide_True by done.
  assert (∀ i e, map_get event (listeners e) = Some 0%nat → store e = [replicate i None ++ [Some fn]] →
    (emit_from (λ e, e) again fuel 0 i e).1 = Ok false) as Hgen; [|apply (Hgen 0%nat); unfold on; cbn; rewrite ?decide_True by done; done].
  induction fuel as [|fuel IH]; intros i e Hl Hs; [done|].
  simpl. unfold mbind, M_bind, gets, slots_at. rewrite Hs. simpl.
  rewrite list_lookup_middle by (by rewrite length_replicate).
  assert (store (on event fn (off event fn e)) = [replicate (S i) None ++ [Some fn]] ∧
          map_get event (listeners (on event fn (off event fn e))) = Some 0%nat) as [E1 E2].
  { unfold off, on. rewrite Hl. cbn. rewrite Hl. cbn. split; [|done]. rewrite Hs. cbn. f_equal.
    assert (slots_delete fn (replicate i None ++ [Some fn]) = replicate (S i) None) as ->.
    { unfold slots_delete. rewrite fmap_app, fmap_replicate. cbn. rewrite decide_False, decide_True by done.
      symmetry; apply replicate_S_end. }
    unfold slots_add. rewrite decide_False; [done|]. rewrite elem_of_live. intros Hin.
    by apply elem_of_replicate_inv in Hin. }
  by apply IH.
Qed.
