(* ===== verification/SyncAdapter.v ===== *)
(** * Sync adapters ([ts/src/SyncAdapter.ts])

    What an editor tool promises to the sync engine: operations on a state of
    its own, any of which may throw. *)

From S2P Require Import Prelude Models.

Record CursorData := mkCursorData {
  cd_x : jsnum;
  cd_y : jsnum;
  cd_tool : option jsstr;
  cd_button : option jsstr;
  cd_selectedElementIds : option (list (jsstr * bool))
}.

Record PeerCursor := mkPeerCursor {
  pc_clientId : jsstr;
  pc_username : jsstr;
  pc_x : jsnum;
  pc_y : jsnum;
  pc_tool : jsstr;
  pc_button : jsstr;
  pc_selectedElementIds : list (jsstr * bool)
}.

(** [type] and [payload], for the payloads the relay's messages can carry. *)
Inductive OutgoingUpdate :=
  | Out_sceneUpdate (payload : SceneUpdateJson)
  | Out_textUpdate (payload : TextUpdateJson).

(** The payload of [applyRemote], as the engine builds it. *)
Inductive RemotePayload :=
  | Remote_elements (elements : list ElementUpdate)
  | Remote_text (text : jsstr) (version cursorPosition : Z).

Class SyncAdapter (A : Type) := {
  computeOutgoing : M A (option OutgoingUpdate);
  applyRemote : jsstr → RemotePayload → M A unit;
  getSceneSnapshot : M A jsstr;
  applySceneInit : jsstr → M A unit;
  getCursorData : M A (option CursorData);
  applyRemoteCursor : PeerCursor → M A unit;
  removePeerCursor : jsstr → M A unit
}.
