(* ===== verification/CollabEngine.v ===== *)
(** * The sync engine ([ts/src/CollabEngine.ts])

    The engine is the application of a [CollabClient]: its handlers are the
    callbacks it wires into the client's options, and it calls the client's
    operations, all in the same [World], whose application state is a [Host]:
    the engine, the adapters it may be given, the timers and awaited
    encryptions under way, and what its listeners and adapters were told.

    An [async] method runs up to its first [await] at once; the rest is a
    [Task], which the event loop resumes later, in any order. An exception of
    an [async] method rejects its promise, which nobody awaits. The engine's
    listeners only listen. *)

From S2P Require Import Prelude JsMap Models Crypto CollabClient EventEmitter SyncAdapter.
Open Scope Z_scope.

(** ** Data *)

Inductive Phase := disconnected | connecting | connected.

#[export] Instance Phase_eq_dec : EqDecision Phase.
Proof. solve_decision. Defined.

Record CollabEngineState := mkEngineState {
  phase : Phase;
  isInitialized : bool;
  clientId : jsstr;
  sessionId : jsstr;
  isOwner : bool;
  ownerClientId : jsstr;
  st_peers : jsmap jsstr PeerInfoJson;
  error : option jsstr;
  roomEncrypted : bool;
  maxPeers : Z;
  roomTitle : jsstr
}.

#[export] Instance eta_CollabEngineState : Eta CollabEngineState := λ s,
  mkEngineState (phase s) (isInitialized s) (clientId s) (sessionId s) (isOwner s)
    (ownerClientId s) (st_peers s) (error s) (roomEncrypted s) (maxPeers s) (roomTitle s).

Definition INITIAL_STATE : CollabEngineState :=
  mkEngineState disconnected false [] [] false [] [] None false 0 [].

Record ConnectParams := mkConnectParams {
  cp_relayUrl : jsstr;
  cp_sessionId : jsstr;
  cp_username : jsstr;
  cp_metadata : list (jsstr * jsstr);
  cp_isOwner : option bool;
  cp_browserId : option jsstr;
  cp_clientHint : option jsstr;
  cp_encrypted : option bool;
  cp_title : option jsstr
}.

(** [CollabEngineEvents]: the names, and an emission with its arguments. *)
Inductive EventName :=
  | stateChange | peerJoined | peerLeft | sessionEnded | credentialsChanged
  | ownerChanged | titleChanged | error_.

#[export] Instance EventName_eq_dec : EqDecision EventName.
Proof. solve_decision. Defined.

Inductive Emission :=
  | em_stateChange (state : CollabEngineState)
  | em_peerJoined (peer : PeerInfoJson)
  | em_peerLeft (clientId : jsstr)
  | em_sessionEnded (reason : jsstr)
  | em_credentialsChanged (reason : jsstr)
  | em_ownerChanged (newOwnerClientId : jsstr)
  | em_titleChanged (title : jsstr)
  | em_error (code message : jsstr).

Definition event_name (x : Emission) : EventName :=
  match x with
  | em_stateChange _ => stateChange
  | em_peerJoined _ => peerJoined
  | em_peerLeft _ => peerLeft
  | em_sessionEnded _ => sessionEnded
  | em_credentialsChanged _ => credentialsChanged
  | em_ownerChanged _ => ownerChanged
  | em_titleChanged _ => titleChanged
  | em_error _ _ => error_
  end.

Inductive TimerKind := DebounceTimer | CursorTimer.

Inductive AdapterCall :=
  | ac_computeOutgoing
  | ac_applyRemote (fromClientId : jsstr) (payload : RemotePayload)
  | ac_getSceneSnapshot
  | ac_applySceneInit (payload : jsstr)
  | ac_getCursorData
  | ac_applyRemoteCursor (peer : PeerCursor)
  | ac_removePeerCursor (clientId : jsstr).

(** What the engine did outside the client, latest first: a listener was
    told, an adapter was called, a timer was set or cleared. *)
Inductive HostEntry :=
  | Heard (fn : nat) (x : Emission)
  | Called (adapter : nat) (c : AdapterCall)
  | TimerSet (handle : nat) (kind : TimerKind) (ms : Z)
  | TimerCleared (handle : nat).

(** The awaited call of an [async] method and what it still has to do: the
    result is fixed when the call is made, [None] a rejection. *)
Inductive Task :=
  | SceneDecrypting (adapter : nat) (from : jsstr) (ready : list ElementUpdate) (el : ElementUpdate)
      (rest : list ElementUpdate) (result : option jsstr)
  | TextDecrypting (adapter : nat) (from : jsstr) (tu : TextUpdate) (result : option jsstr)
  | InitDecrypting (adapter : nat) (result : option jsstr)
  | SnapshotEncrypting (result : option jsstr)
  | SceneEncrypting (ready : list ElementUpdateJson) (el : ElementUpdateJson)
      (rest : list ElementUpdateJson) (result : option jsstr)
  | TextEncrypting (tu : TextUpdateJson) (result : option jsstr).

Section engine_data.
Context `{C : SubtleCrypto} (A : Type).

Record CollabEngine := mkEngine {
  _state : CollabEngineState;
  _adapter : option nat;
  _encryptionKey : option CryptoKey;
  _debounceMs : Z;
  _cursorThrottleMs : Z;
  _debounceTimer : option nat;
  _cursorTimer : option nat;
  _cursorPending : bool;
  _initRequestSent : bool;
  _disposed : bool;
  _connectParams : option ConnectParams;
  (** The client's callbacks are the engine's handlers, for these parameters. *)
  wired : option ConnectParams;
  (** [TypedEmitter]. *)
  emitter : Emitter EventName
}.

(** [pending]: the timers of the [TimerProvider] that have not fired, by
    handle; the next handle is [nextHandle]. [randoms]: how many times random
    bytes were drawn. [clock]: [Date.now()]. *)
Record Host := mkHost {
  engine : CollabEngine;
  adapters : gmap nat A;
  pending : gmap nat TimerKind;
  nextHandle : nat;
  tasks : gmap nat Task;
  nextTask : nat;
  randoms : nat;
  clock : N;
  told : list HostEntry
}.
End engine_data.

Arguments mkEngine {C}.
Arguments _state {C}.
Arguments _adapter {C}.
Arguments _encryptionKey {C}.
Arguments _debounceMs {C}.
Arguments _cursorThrottleMs {C}.
Arguments _debounceTimer {C}.
Arguments _cursorTimer {C}.
Arguments _cursorPending {C}.
Arguments _initRequestSent {C}.
Arguments _disposed {C}.
Arguments _connectParams {C}.
Arguments wired {C}.
Arguments emitter {C}.
Arguments mkHost {C A}.
Arguments engine {C A}.
Arguments adapters {C A}.
Arguments pending {C A}.
Arguments nextHandle {C A}.
Arguments tasks {C A}.
Arguments nextTask {C A}.
Arguments randoms {C A}.
Arguments clock {C A}.
Arguments told {C A}.

#[export] Instance eta_CollabEngine `{C : SubtleCrypto} : Eta CollabEngine := λ e,
  mkEngine (_state e) (_adapter e) (_encryptionKey e) (_debounceMs e) (_cursorThrottleMs e)
    (_debounceTimer e) (_cursorTimer e) (_cursorPending e) (_initRequestSent e) (_disposed e)
    (_connectParams e) (wired e) (emitter e).

#[export] Instance eta_Host `{C : SubtleCrypto} A : Eta (Host A) := λ h,
  mkHost (engine h) (adapters h) (pending h) (nextHandle h) (tasks h) (nextTask h) (randoms h)
    (clock h) (told h).

(** [new CollabEngine(config)]. *)
Definition new_engine `{C : SubtleCrypto} (adapter : option nat)
    (outgoingDebounceMs cursorThrottleMs : option Z) : CollabEngine :=
  mkEngine INITIAL_STATE adapter None (default 100 outgoingDebounceMs) (default 50 cursorThrottleMs)
    None None false false false None None new_emitter.

(** ** Messages of the engine *)

(** [sessionEndedMessages[reason] ?? '...'], for a [reason] that is not the
    name of a property every object inherits. *)
Definition sessionEndedMessage (reason : jsstr) : jsstr :=
  if bool_decide (reason = js "session_gone") then js "The sharing session no longer exists on the relay"
  else if bool_decide (reason = js "reconnect_failed") then js "Lost the connection to the relay"
  else js "The owner ended the sharing session".

(** The text of the source, in UTF-16. *)
Definition em_dash : N := 0x2014.
Definition credentialsMessage (reason : jsstr) : jsstr :=
  if bool_decide (reason = js "password_removed")
  then js "Encryption was removed " ++ [em_dash] ++ js " please reconnect"
  else js "Password changed " ++ [em_dash] ++ js " please reconnect with the new password".

(** The order of [Array.prototype.sort] on strings: by code units. *)
Fixpoint js_le (a b : jsstr) : bool :=
  match a, b with
  | [], _ => true
  | _, [] => false
  | x :: a', y :: b' => (x <? y)%N || ((x =? y)%N && js_le a' b')
  end.

#[export] Instance js_le_dec : RelDecision (λ a b, Is_true (js_le a b)).
Proof. intros a b. apply _. Defined.

Definition js_sort (l : list jsstr) : list jsstr := merge_sort (λ a b, Is_true (js_le a b)) l.

(** Whether a client in state [s] answers a scene request of [fromClientId]. *)
Definition shouldRespond (s : CollabEngineState) (fromClientId : jsstr) : bool :=
  isOwner s ||
  (let myClientId := clientId s in
   if negb (truthy myClientId) then false
   else
     let candidates := filter (λ id, id ≠ fromClientId) (map_keys (st_peers s)) in
     match js_sort candidates with
     | [] => false
     | first :: _ => bool_decide (first = myClientId)
     end).

(** ** Operations *)

Section engine.
Context `{C : SubtleCrypto} {A : Type} `{!SyncAdapter A} `{P : Platform}.
(** The IVs [crypto.getRandomValues] produces, one after the other. *)
Context (random_iv : nat → list N).

Abbreviation E := (M (World (Host A))).

Definition host : E (Host A) := gets app.
Definition modh (f : Host A → Host A) : E unit := modify (λ w, w <| app := f (app w) |>).
Definition gete : E CollabEngine := gets (λ w, engine (app w)).
Definition mod_e (f : CollabEngine → CollabEngine) : E unit :=
  modh (λ h, h <| engine := f (engine h) |>).
Definition tell (x : HostEntry) : E unit := modh (λ h, h <| told := x :: told h |>).

(** *** The platform's operations *)

(** A call of a method of adapter [a]. *)
Definition adapter_call {X} (a : nat) (c : AdapterCall) (m : M A X) : E X :=
  tell (Called a c) ;;
  h ← host;
  match adapters h !! a with
  | None => throw TypeError
  | Some st =>
      let '(r, st') := m st in
      modh (λ h, h <| adapters := <[ a := st' ]> (adapters h) |>) ;;
      match r with Ok x => mret x | Throw err => throw err end
  end.

Definition setTimeout (kind : TimerKind) (ms : Z) : E nat :=
  h ← host;
  let t := nextHandle h in
  modh (λ h, h <| nextHandle := S t |> <| pending := <[ t := kind ]> (pending h) |>) ;;
  tell (TimerSet t kind ms) ;;
  mret t.

Definition clearTimeout (t : nat) : E unit :=
  modh (λ h, h <| pending := delete t (pending h) |>) ;; tell (TimerCleared t).

(** [await]: the rest of the method becomes a task. *)
Definition await (k : Task) : E unit :=
  modh (λ h, h <| tasks := <[ nextTask h := k ]> (tasks h) |> <| nextTask := S (nextTask h) |>).

(** [encryptPayload] and [decryptPayload] under [this._encryptionKey]; without
    a key the Web Crypto call rejects. *)
Definition decrypt_now (data : jsstr) : E (option jsstr) :=
  e ← gete; mret (match _encryptionKey e with Some key => decryptPayload key data | None => None end).

Definition encrypt_now (data : jsstr) : E (option jsstr) :=
  h ← host;
  modh (λ h, h <| randoms := S (randoms h) |>) ;;
  mret (match _encryptionKey (engine h) with
        | Some key => encryptPayload key (random_iv (randoms h)) data | None => None end).

(** [this._client.send(action)]. *)
Definition client_send (action : CollabActionJson) : E unit := h ← host; send action (clock h).

(** *** State and events *)

(** [this.emit(event, ...)]: fuel for every listener of the event. *)
Definition emit (x : Emission) : E unit :=
  e ← gete;
  EventEmitter.emit (λ w, emitter (engine (app w))) (λ fn, tell (Heard fn x))
    (S (length (slots_at (default 0%nat (map_get (event_name x) (listeners (emitter e)))) (emitter e))))
    (event_name x) ;;
  mret tt.

Definition _updateState (partial : CollabEngineState → CollabEngineState) : E unit :=
  mod_e (λ e, e <| _state := partial (_state e) |>) ;;
  e ← gete; emit (em_stateChange (_state e)).

Definition _clearTimers : E unit :=
  e ← gete;
  (* [if (this._debounceTimer)]: a handle 0 is falsy *)
  match _debounceTimer e with
  | Some (S _ as t) => clearTimeout t ;; mod_e (λ e, e <| _debounceTimer := None |>)
  | _ => mret tt
  end ;;
  e ← gete;
  match _cursorTimer e with
  | Some (S _ as t) => clearTimeout t ;; mod_e (λ e, e <| _cursorTimer := None |>)
  | _ => mret tt
  end.

Definition _resetState : E unit :=
  _clearTimers ;;
  mod_e (λ e, e <| _initRequestSent := false |>) ;;
  _updateState (λ s,
    s <| phase := disconnected |> <| isInitialized := false |> <| clientId := [] |>
      <| sessionId := [] |> <| isOwner := false |> <| ownerClientId := [] |> <| st_peers := [] |>
      <| roomEncrypted := false |> <| maxPeers := 0 |> <| roomTitle := [] |>).

Definition _triggerSceneInit : E unit :=
  e ← gete;
  if (map_size (st_peers (_state e)) <=? 1)%nat then _updateState (λ s, s <| isInitialized := true |>)
  else
    client_send (emptyCollabActionJson <| CollabActionJson_sceneInitRequest := Some mkSceneInitRequestJson |>) ;;
    mod_e (λ e, e <| _initRequestSent := true |>).

(** *** Sync events *)

(** The loop over [su.elements] and what follows it. *)
Fixpoint scene_decrypt (a : nat) (from : jsstr) (ready rest : list ElementUpdate) : E unit :=
  match rest with
  | [] => adapter_call a (ac_applyRemote from (Remote_elements ready)) (applyRemote from (Remote_elements ready))
  | el :: rest' =>
      if truthy (ElementUpdate_data el) then
        result ← decrypt_now (ElementUpdate_data el);
        await (SceneDecrypting a from ready el rest' result)
      else scene_decrypt a from (ready ++ [el]) rest'
  end.

Definition apply_text (a : nat) (from : jsstr) (tu : TextUpdate) (text : jsstr) : E unit :=
  let payload := Remote_text text (TextUpdate_version tu) (TextUpdate_cursorPosition tu) in
  adapter_call a (ac_applyRemote from payload) (applyRemote from payload).

Definition apply_init (a : nat) (payload : jsstr) : E unit :=
  adapter_call a (ac_applySceneInit payload) (applySceneInit payload) ;;
  _updateState (λ s, s <| isInitialized := true |>).

Definition send_snapshot (snapshot : jsstr) : E unit :=
  client_send (emptyCollabActionJson <| CollabActionJson_sceneInitResponse :=
                 Some (mkSceneInitResponseJson (Some snapshot)) |>).

(** [peer?.username || event.fromClientId.slice(0, 6)]. *)
Definition cursor_username (s : CollabEngineState) (from : jsstr) : jsstr :=
  match map_get from (st_peers s) with
  | Some peer => str_or (default [] (PeerInfoJson_username peer)) (take 6 from)
  | None => take 6 from
  end.

(** The body of [_handleSyncEvent], up to its first [await]. *)
Definition handleSyncEvent (event : CollabEvent) : E unit :=
  e ← gete;
  let from := CollabEvent_fromClientId event in
  match _adapter e, CollabEvent_event event with
  | Some a, ev_sceneUpdate su =>
      match _encryptionKey e with
      | Some _ => scene_decrypt a from [] (SceneUpdate_elements su)
      | None => adapter_call a (ac_applyRemote from (Remote_elements (SceneUpdate_elements su)))
                  (applyRemote from (Remote_elements (SceneUpdate_elements su)))
      end
  | Some a, ev_textUpdate tu =>
      match _encryptionKey e with
      | Some _ => result ← decrypt_now (TextUpdate_text tu); await (TextDecrypting a from tu result)
      | None => apply_text a from tu (TextUpdate_text tu)
      end
  | Some a, ev_cursorUpdate cu =>
      when (truthy from)
        (let peer := mkPeerCursor from (cursor_username (_state e) from) (CursorUpdate_x cu) (CursorUpdate_y cu)
                       (CursorUpdate_tool cu) (CursorUpdate_button cu) (CursorUpdate_selectedElementIds cu) in
         adapter_call a (ac_applyRemoteCursor peer) (applyRemoteCursor peer))
  | Some a, ev_sceneInitResponse sr =>
      let payload := str_or (SceneInitResponse_payload sr) (js "{}") in
      match _encryptionKey e with
      | Some _ =>
          if bool_decide (payload = js "{}") then apply_init a payload
          else result ← decrypt_now payload; await (InitDecrypting a result)
      | None => apply_init a payload
      end
  | Some a, ev_sceneInitRequest _ =>
      when (truthy from && shouldRespond (_state e) from)
        (snapshot ← adapter_call a ac_getSceneSnapshot getSceneSnapshot;
         e ← gete;
         match _encryptionKey e with
         | Some _ => result ← encrypt_now snapshot; await (SnapshotEncrypting result)
         | None => send_snapshot snapshot
         end)
  | _, _ => mret tt
  end.

(** [_handleSyncEvent(event)]: an exception rejects the promise it returns. *)
Definition _handleSyncEvent (event : CollabEvent) : E unit := swallow (handleSyncEvent event).

(** *** Outgoing updates *)

Definition send_scene (payload : SceneUpdateJson) : E unit :=
  client_send (emptyCollabActionJson <| CollabActionJson_sceneUpdate := Some payload |>).
Definition send_text (payload : TextUpdateJson) : E unit :=
  client_send (emptyCollabActionJson <| CollabActionJson_textUpdate := Some payload |>).

(** The loop over [payload.elements] and what follows it. *)
Fixpoint scene_encrypt (ready rest : list ElementUpdateJson) : E unit :=
  match rest with
  | [] => send_scene (mkSceneUpdateJson (Some ready))
  | el :: rest' =>
      if otruthy (ElementUpdateJson_data el) then
        result ← encrypt_now (default [] (ElementUpdateJson_data el));
        await (SceneEncrypting ready el rest' result)
      else scene_encrypt (ready ++ [el]) rest'
  end.

(** The body of [_flushOutgoing], up to its first [await]. *)
Definition flushOutgoing : E unit :=
  e ← gete;
  match _adapter e with
  | Some a =>
      if bool_decide (phase (_state e) = connected) then
        update ← adapter_call a ac_computeOutgoing computeOutgoing;
        e ← gete;
        match update, _encryptionKey e with
        | None, _ => mret tt
        | Some (Out_sceneUpdate payload), Some _ =>
            match SceneUpdateJson_elements payload with
            | Some elements => scene_encrypt [] elements
            | None => send_scene payload
            end
        | Some (Out_sceneUpdate payload), None => send_scene payload
        | Some (Out_textUpdate payload), Some _ =>
            match TextUpdateJson_text payload with
            | Some text => result ← encrypt_now text; await (TextEncrypting payload result)
            | None => send_text payload
            end
        | Some (Out_textUpdate payload), None => send_text payload
        end
      else mret tt
  | None => mret tt
  end.

Definition _flushOutgoing : E unit := swallow flushOutgoing.

(** An awaited call settled: the rest of its method. A rejection ends it. *)
Definition resume (k : Task) : E unit :=
  swallow
    match k with
    | SceneDecrypting a from ready el rest (Some data) =>
        scene_decrypt a from (ready ++ [el <| ElementUpdate_data := data |>]) rest
    | TextDecrypting a from tu (Some text) => apply_text a from tu text
    | InitDecrypting a (Some payload) => apply_init a payload
    | SnapshotEncrypting (Some snapshot) => send_snapshot snapshot
    | SceneEncrypting ready el rest (Some data) =>
        scene_encrypt (ready ++ [el <| ElementUpdateJson_data := Some data |>]) rest
    | TextEncrypting tu (Some text) =>
        send_text (mkTextUpdateJson (Some text) (TextUpdateJson_version tu) (TextUpdateJson_cursorPosition tu))
    | _ => mret tt
    end.

(** *** The client's callbacks *)

Definition onRoomJoined (params : ConnectParams) (rj : RoomJoined) : E unit :=
  let room := RoomJoined_room rj in
  let ownerClientId' := match room with Some r => Room_ownerClientId r | None => [] end in
  let returnedSessionId :=
    str_or (match room with Some r => Room_sessionId r | None => [] end) (cp_sessionId params) in
  _updateState (λ s,
    s <| sessionId := returnedSessionId |>
      <| ownerClientId := ownerClientId' |>
      <| isOwner := bool_decide (clientId s = ownerClientId') || default false (cp_isOwner params) |>
      <| roomEncrypted := match room with Some r => Room_encrypted r | None => false end |>
      <| maxPeers := RoomJoined_maxPeers rj |>
      <| roomTitle := match room with Some r => Room_title r | None => [] end |>).

Definition onEvent (params : ConnectParams) (event : CollabEvent) : E unit :=
  match CollabEvent_event event with
  | ev_roomJoined rj =>
      onRoomJoined params rj ;;
      e ← gete;
      when (negb (isInitialized (_state e)) && negb (_initRequestSent e) && bool_decide (is_Some (_adapter e)))
        _triggerSceneInit
  | _ => mret tt
  end ;;
  _handleSyncEvent event.

Definition onPeerJoined (peer : PeerInfoJson) : E unit :=
  let id := default [] (PeerInfoJson_clientId peer) in
  when (truthy id)
    (_updateState (λ s, s <| st_peers := map_set id peer (st_peers s) |>) ;; emit (em_peerJoined peer)).

Definition onPeerLeft (id : jsstr) : E unit :=
  _updateState (λ s, s <| st_peers := map_delete id (st_peers s) |>) ;;
  e ← gete;
  match _adapter e with
  | Some a => adapter_call a (ac_removePeerCursor id) (removePeerCursor id)
  | None => mret tt
  end ;;
  emit (em_peerLeft id).

Definition onErrorEvent (code message : jsstr) : E unit :=
  c ← get;
  when (negb (_isConnected c))
    (_updateState (λ s, s <| error := Some (code ++ js ": " ++ message) |> <| phase := disconnected |>)) ;;
  emit (em_error code message).

Definition onCredentialsChanged (reason : jsstr) : E unit :=
  _resetState ;;
  _updateState (λ s, s <| error := Some (credentialsMessage reason) |>) ;;
  emit (em_credentialsChanged reason).

Definition onSessionEnded (reason : jsstr) : E unit :=
  _resetState ;;
  _updateState (λ s, s <| error := Some (sessionEndedMessage reason) |>) ;;
  emit (em_sessionEnded (str_or reason (sessionEndedMessage reason))).

Definition onOwnerChanged (newOwnerClientId : jsstr) : E unit :=
  _updateState (λ s, s <| ownerClientId := newOwnerClientId |>
                       <| isOwner := bool_decide (clientId s = newOwnerClientId) |>) ;;
  emit (em_ownerChanged newOwnerClientId).

(** The client's options once [_wireClient] ran; before it, they are unset. *)
Definition engine_cb (c : Callback) : E unit :=
  e ← gete;
  match wired e with
  | None => mret tt
  | Some params =>
      match c with
      | OnConnect id =>
          _updateState (λ s, s <| phase := connected |> <| clientId := id |> <| error := None |>)
      | OnPeerJoined peer => onPeerJoined peer
      | OnPeerLeft id => onPeerLeft id
      | OnError message => _updateState (λ s, s <| error := Some message |>)
      | OnErrorEvent code message => onErrorEvent code message
      | OnCredentialsChanged reason => onCredentialsChanged reason
      | OnTitleChanged title => _updateState (λ s, s <| roomTitle := title |>) ;; emit (em_titleChanged title)
      | OnDisconnect => _resetState
      | OnSessionEnded reason => onSessionEnded reason
      | OnOwnerChanged id => onOwnerChanged id
      | OnEvent event => onEvent params event
      | _ => mret tt
      end
  end.

(** *** Public operations *)

Definition setAdapter (adapter : option nat) : E unit :=
  mod_e (λ e, e <| _adapter := adapter |>) ;;
  e ← gete;
  when (bool_decide (is_Some adapter) && bool_decide (phase (_state e) = connected)
        && negb (isInitialized (_state e)) && negb (_initRequestSent e))
    _triggerSceneInit.

Definition setEncryptionKey (key : option CryptoKey) : E unit :=
  mod_e (λ e, e <| _encryptionKey := key |>).

Definition _wireClient : E unit := mod_e (λ e, e <| wired := _connectParams e |>).

Definition client_args (params : ConnectParams) : ConnectArgs :=
  mkConnectArgs (cp_relayUrl params) (cp_sessionId params) (cp_username params) (cp_metadata params)
    (default false (cp_isOwner params)) (default [] (cp_browserId params))
    (default [] (cp_clientHint params)) (default false (cp_encrypted params)) (default [] (cp_title params)).

Definition connect (params : ConnectParams) (rnd : jsstr) : E unit :=
  mod_e (λ e, e <| _connectParams := Some params |>) ;;
  _updateState (λ s, s <| phase := connecting |> <| error := None |>) ;;
  _wireClient ;;
  CollabClient.connect (client_args params) rnd.

Definition disconnect : E unit := CollabClient.disconnect engine_cb.

Definition dispose : E unit :=
  mod_e (λ e, e <| _disposed := true |>) ;;
  e ← gete;
  when (negb (bool_decide (phase (_state e) = disconnected))) disconnect ;;
  _clearTimers ;;
  mod_e (λ e, e <| emitter := removeAllListeners (emitter e) |>).

Definition notifyLocalChange : E unit :=
  e ← gete;
  match _debounceTimer e with Some t => clearTimeout t | None => mret tt end ;;
  t ← setTimeout DebounceTimer (_debounceMs e);
  mod_e (λ e, e <| _debounceTimer := Some t |>).

Definition notifyCursorMove : E unit :=
  e ← gete;
  if negb (bool_decide (is_Some (_adapter e)) && bool_decide (phase (_state e) = connected)) then mret tt
  else if _cursorPending e then mret tt
  else
    mod_e (λ e, e <| _cursorPending := true |>) ;;
    t ← setTimeout CursorTimer (_cursorThrottleMs e);
    mod_e (λ e, e <| _cursorTimer := Some t |>).

Definition cursor_update (cursor : CursorData) : CollabActionJson :=
  emptyCollabActionJson <| CollabActionJson_cursorUpdate :=
    Some (mkCursorUpdateJson (Some (cd_x cursor)) (Some (cd_y cursor)) (cd_tool cursor) (cd_button cursor)
            (cd_selectedElementIds cursor)) |>.

Definition cursorTimerFired : E unit :=
  mod_e (λ e, e <| _cursorPending := false |>) ;;
  e ← gete;
  match _adapter e with
  | Some a =>
      cursor ← adapter_call a ac_getCursorData getCursorData;
      match cursor with Some c => client_send (cursor_update c) | None => mret tt end
  | None => mret tt
  end.

Definition notifyCredentialsChanged (reason : jsstr) : E unit :=
  client_send (emptyCollabActionJson <| CollabActionJson_credentialsChanged :=
                 Some (mkCredentialsChangedJson (Some reason)) |>).

Definition notifyTitleChanged (title : jsstr) : E unit :=
  client_send (emptyCollabActionJson <| CollabActionJson_titleChanged :=
                 Some (mkTitleChangedJson (Some title)) |>).

(** ** The event loop

    Turns of the engine and of the client under it. [ETick] is time passing;
    an application that uses an engine reaches the client through it. *)

Inductive EngineInput :=
  | EClient (i : Input)
  | EConnect (params : ConnectParams) (rnd : jsstr)
  | EDisconnect
  | EDispose
  | ESetAdapter (adapter : option nat)
  | ESetEncryptionKey (key : option CryptoKey)
  | ENotifyLocalChange
  | ENotifyCursorMove
  | ENotifyCredentialsChanged (reason : jsstr)
  | ENotifyTitleChanged (title : jsstr)
  | EOn (event : EventName) (fn : nat)
  | EOff (event : EventName) (fn : nat)
  | ETimer (t : nat)
  | ETask (k : nat)
  | ETick (now : N).

Definition timerFired (t : nat) : E unit :=
  h ← host;
  modh (λ h, h <| pending := delete t (pending h) |>) ;;
  match pending h !! t with
  | Some DebounceTimer => _flushOutgoing
  | Some CursorTimer => cursorTimerFired
  | None => mret tt
  end.

Definition taskSettled (k : nat) : E unit :=
  h ← host;
  modh (λ h, h <| tasks := delete k (tasks h) |>) ;;
  match tasks h !! k with Some t => resume t | None => mret tt end.

Definition engine_exec (i : EngineInput) : E unit :=
  match i with
  | EClient i => exec engine_cb i
  | EConnect params rnd => connect params rnd
  | EDisconnect => disconnect
  | EDispose => dispose
  | ESetAdapter adapter => setAdapter adapter
  | ESetEncryptionKey key => setEncryptionKey key
  | ENotifyLocalChange => notifyLocalChange
  | ENotifyCursorMove => notifyCursorMove
  | ENotifyCredentialsChanged reason => notifyCredentialsChanged reason
  | ENotifyTitleChanged title => notifyTitleChanged title
  | EOn event fn => mod_e (λ e, e <| emitter := on event fn (emitter e) |>)
  | EOff event fn => mod_e (λ e, e <| emitter := off event fn (emitter e) |>)
  | ETimer t => timerFired t
  | ETask k => taskSettled k
  | ETick now => modh (λ h, h <| clock := now |>)
  end.

Definition engine_run1 (i : EngineInput) (w : World (Host A)) : World (Host A) := (engine_exec i w).2.
Definition engine_run (ins : list EngineInput) (w : World (Host A)) : World (Host A) :=
  foldl (λ w i, engine_run1 i w) w ins.
End engine.
