(* ===== verification/EngineLaws.v ===== *)
(** * What programs of the sync engine keep ([ts/src/CollabEngine.ts])

    The engine's programs are built from a few changes of the world: a change
    of the host that a view of it does not show, a call of an adapter, a
    message sent, a change of the state, an emission, a change of timers. The
    classes of this file name the laws an assertion has to meet for these, and
    the lemmas conclude that the engine's handlers and turns keep it. *)

From S2P Require Import Prelude JsMap Models Crypto CollabClient EventEmitter SyncAdapter CollabEngine.
Open Scope Z_scope.

(** ** Emissions *)

Lemma keeps_emit {K S} `{EqDecision K} (emitter : S → Emitter K) (invoke : nat → M S unit)
    (I : S → Prop) fuel event :
  (∀ fn, keeps I (invoke fn)) → keeps I (EventEmitter.emit emitter invoke fuel event).
Proof.
  intros Hi. assert (∀ l i, keeps I (emit_from emitter invoke fuel l i)) as Hf.
  { intros l. induction fuel as [|fuel IH]; intros i; simpl; repeat keeps_step. }
  unfold EventEmitter.emit. repeat keeps_step.
Qed.

(** An emission to listeners that return ends by returning. *)
Lemma emit_returns {K S} `{EqDecision K} (emitter : S → Emitter K) (invoke : nat → M S unit) fuel event s :
  (∀ fn s, (invoke fn s).1 = Ok tt) → ∃ b, (EventEmitter.emit emitter invoke fuel event s).1 = Ok b.
Proof.
  intros Hi. assert (∀ l i s, ∃ b, (emit_from emitter invoke fuel l i s).1 = Ok b) as Hf.
  { intros l. induction fuel as [|fuel IH]; intros i s'; simpl; [by eexists|].
    unfold mbind, M_bind, gets. destruct (_ !! i) as [[fn|]|]; [|apply IH|by eexists].
    specialize (Hi fn s'). destruct (invoke fn s') as [r s'']. simpl in Hi. subst. apply IH. }
  unfold EventEmitter.emit, mbind, M_bind, gets. destruct (map_get _ _); [apply Hf|by eexists].
Qed.

(** ** Views of the host *)

Definition is_heard (x : HostEntry) : bool := match x with Heard _ _ => true | _ => false end.

(** Timers, listeners and what was told. *)
Definition timer_view `{C : SubtleCrypto} {A} (h : Host A) :=
  (pending h, nextHandle h, _debounceTimer (engine h), _cursorTimer (engine h), _cursorPending (engine h),
   emitter (engine h), told h).

(** The same, and the calls awaited. *)
Definition loop_view `{C : SubtleCrypto} {A} (h : Host A) := (timer_view h, tasks h, nextTask h).

(** The same, and what the application and the client's options say. *)
Definition full_view `{C : SubtleCrypto} {A} (h : Host A) := (loop_view h, _state (engine h), wired (engine h)).

(** What listeners see: neither timers nor calls awaited. *)
Definition quiet_view `{C : SubtleCrypto} {A} (h : Host A) :=
  (_state (engine h), wired (engine h), emitter (engine h), told h).

(** No task waits at [n] or later. *)
Definition no_tasks_from `{C : SubtleCrypto} {A} (n : nat) (h : Host A) : Prop :=
  ∀ i, (n ≤ i)%nat → tasks h !! i = None.

(** ** The changes of the state a handler makes *)

Definition initialized_update (s : CollabEngineState) : CollabEngineState := s <| isInitialized := true |>.

Definition reset_update (s : CollabEngineState) : CollabEngineState :=
  s <| phase := disconnected |> <| isInitialized := false |> <| clientId := [] |>
    <| sessionId := [] |> <| isOwner := false |> <| ownerClientId := [] |> <| st_peers := [] |>
    <| roomEncrypted := false |> <| maxPeers := 0 |> <| roomTitle := [] |>.

Definition room_update (params : ConnectParams) (rj : RoomJoined) (s : CollabEngineState) : CollabEngineState :=
  let room := RoomJoined_room rj in
  let ownerClientId' := match room with Some r => Room_ownerClientId r | None => [] end in
  s <| sessionId := str_or (match room with Some r => Room_sessionId r | None => [] end) (cp_sessionId params) |>
    <| ownerClientId := ownerClientId' |>
    <| isOwner := bool_decide (clientId s = ownerClientId') || default false (cp_isOwner params) |>
    <| roomEncrypted := match room with Some r => Room_encrypted r | None => false end |>
    <| maxPeers := RoomJoined_maxPeers rj |>
    <| roomTitle := match room with Some r => Room_title r | None => [] end |>.

Definition handler_updates (params : ConnectParams) (c : Callback) : list (CollabEngineState → CollabEngineState) :=
  match c with
  | OnConnect id => [λ s, s <| phase := connected |> <| clientId := id |> <| error := None |>]
  | OnPeerJoined peer =>
      let id := default [] (PeerInfoJson_clientId peer) in
      if truthy id then [λ s, s <| st_peers := map_set id peer (st_peers s) |>] else []
  | OnPeerLeft id => [λ s, s <| st_peers := map_delete id (st_peers s) |>]
  | OnError message => [λ s, s <| error := Some message |>]
  | OnErrorEvent code message => [λ s, s <| error := Some (code ++ js ": " ++ message) |> <| phase := disconnected |>]
  | OnCredentialsChanged reason => [reset_update; λ s, s <| error := Some (credentialsMessage reason) |>]
  | OnTitleChanged title => [λ s, s <| roomTitle := title |>]
  | OnDisconnect => [reset_update]
  | OnSessionEnded reason => [reset_update; λ s, s <| error := Some (sessionEndedMessage reason) |>]
  | OnOwnerChanged id =>
      [λ s, s <| ownerClientId := id |> <| isOwner := bool_decide (clientId s = id) |>]
  | OnEvent event =>
      initialized_update ::
      match CollabEvent_event event with ev_roomJoined rj => [room_update params rj] | _ => [] end
  | _ => []
  end.

(** ** Laws *)

Section laws.
Context `{C : SubtleCrypto} {A : Type} `{!SyncAdapter A} `{P : Platform} (random_iv : nat → list N).
Implicit Types (I : World (Host A) → Prop) (G : (CollabEngineState → CollabEngineState) → Prop).

(** What handlers and awaited calls are made of; [G]: changes of the state. *)
Class Handlers I G : Prop := {
  law_frame f : (∀ h, full_view (f h) = full_view h) → keeps I (modh f);
  law_called a c : c ≠ ac_getCursorData → keeps I (tell (Called a c));
  law_await k : keeps I (await k);
  law_send a now : keeps I (send a now);
  law_update f : G f → keeps I (_updateState f);
  law_emit x : event_name x ≠ stateChange → keeps I (emit x);
  law_clear : keeps I _clearTimers
}.

Section handlers.
Context I G `{!Handlers I G}.
Abbreviation KEEPS := (keeps I).

Lemma laws_host : KEEPS host.
Proof. apply keeps_gets. Qed.
Lemma laws_gete : KEEPS gete.
Proof. apply keeps_gets. Qed.
Lemma laws_get : KEEPS CollabClient.get.
Proof. apply keeps_gets. Qed.
Hint Resolve laws_host laws_gete laws_get law_await law_send law_clear : keeps.
Hint Extern 1 (keeps _ (modh _)) => (apply law_frame; intros ?; reflexivity) : keeps.
Hint Extern 1 (keeps _ (mod_e _)) => (apply law_frame; intros ?; reflexivity) : keeps.
Hint Extern 1 (keeps _ (emit _)) => (apply law_emit; discriminate) : keeps.
Ltac go := repeat keeps_step.

Lemma laws_adapter_call {X} a c (m : M A X) : c ≠ ac_getCursorData → KEEPS (adapter_call a c m).
Proof. intros Hc. unfold adapter_call. apply keeps_bind; [by apply law_called|intros ?]. go. Qed.
Hint Extern 1 (keeps _ (adapter_call _ _ _)) => (apply laws_adapter_call; discriminate) : keeps.
Lemma laws_client_send a : KEEPS (client_send a).
Proof. unfold client_send. go. Qed.
Lemma laws_decrypt_now d : KEEPS (decrypt_now d).
Proof. unfold decrypt_now. go. Qed.
Lemma laws_encrypt_now d : KEEPS (encrypt_now random_iv d).
Proof. unfold encrypt_now. go. Qed.
Hint Resolve laws_client_send laws_decrypt_now laws_encrypt_now : keeps.

Lemma laws_resetState : G reset_update → KEEPS _resetState.
Proof.
  intros Hr. unfold _resetState. apply keeps_bind; [go|intros ?]. apply keeps_bind; [go|intros ?]. by apply law_update.
Qed.
Lemma laws_scene_decrypt a from ready rest : KEEPS (scene_decrypt a from ready rest).
Proof. revert ready. induction rest as [|el rest IH]; intros ready; simpl; go. Qed.
Lemma laws_scene_encrypt ready rest : KEEPS (scene_encrypt random_iv ready rest).
Proof. revert ready. induction rest as [|el rest IH]; intros ready; simpl; unfold send_scene; go. Qed.
Hint Resolve laws_scene_decrypt laws_scene_encrypt : keeps.

(** Outgoing updates. *)
Lemma laws_flushOutgoing : KEEPS (_flushOutgoing random_iv).
Proof. unfold _flushOutgoing, flushOutgoing, send_scene, send_text. go. Qed.

Section initialized.
Context (Hinit : G initialized_update).
Hint Extern 1 (keeps _ (_updateState _)) => (apply law_update; exact Hinit) : keeps.

Lemma laws_triggerSceneInit : KEEPS _triggerSceneInit.
Proof. unfold _triggerSceneInit. go. Qed.
Lemma laws_handleSyncEvent ev : KEEPS (handleSyncEvent random_iv ev).
Proof. unfold handleSyncEvent, apply_text, apply_init, send_snapshot. go. Qed.
Lemma laws_resume k : KEEPS (resume random_iv k).
Proof. unfold resume, apply_text, apply_init, send_snapshot, send_text. go. Qed.
End initialized.

(** A handler keeps what its changes of the state keep. *)
Lemma laws_engine_cb c : (∀ params, Forall G (handler_updates params c)) → KEEPS (engine_cb random_iv c).
Proof.
  intros HG. unfold engine_cb. apply keeps_bind; [go|intros e]. destruct (wired e) as [params|]; [|go].
  specialize (HG params). destruct c; cbn [handler_updates] in HG; try (apply Forall_cons in HG as [H1 HG]); try solve [go].
  { (* onEvent *)
    assert (KEEPS (_handleSyncEvent random_iv event)) as Hsync by by apply laws_handleSyncEvent.
    unfold onEvent. apply keeps_bind; [|by intros ?]. destruct (CollabEvent_event event); try solve [go].
    apply Forall_cons in HG as [H2 _]. unfold onRoomJoined.
    apply keeps_bind; [by apply law_update|intros ?]. apply keeps_bind; [go|intros ?].
    apply keeps_when. by apply laws_triggerSceneInit. }
  all: unfold onPeerJoined, onPeerLeft, onErrorEvent, onCredentialsChanged, onSessionEnded, onOwnerChanged.
  all: repeat match goal with
    | HG : Forall G (if ?b then _ else _) |- _ => destruct b; cbn [when]
    | HG : Forall G (_ :: _) |- _ => apply Forall_cons in HG as [? HG]
    | |- keeps _ (_updateState _) => by apply law_update
    | |- keeps _ _resetState => by apply laws_resetState
    | |- _ => keeps_step
    end.
Qed.
End handlers.

(** *** Assertions that see neither timers nor calls awaited *)

Class Blind I G : Prop := {
  blind_frame f : (∀ h, quiet_view (f h) = quiet_view h) → keeps I (modh f);
  blind_tell x : is_heard x = false → keeps I (tell x);
  blind_send a now : keeps I (send a now);
  blind_update f : G f → keeps I (_updateState f);
  blind_emit x : event_name x ≠ stateChange → keeps I (emit x)
}.

(** Inputs that do not reach the client but to send. *)
Definition own_turn (i : EngineInput (C := C)) : bool :=
  match i with EClient _ | EConnect _ _ | EDisconnect | EDispose => false | _ => true end.

(** Subscriptions of listeners. *)
Definition subscribes (i : EngineInput (C := C)) : bool :=
  match i with EOn _ _ | EOff _ _ => true | _ => false end.

Section blind.
Context I G `{!Blind I G}.
Abbreviation KEEPS := (keeps I).

Hint Extern 1 (keeps _ gete) => (apply keeps_gets) : keeps.
Hint Extern 1 (keeps _ host) => (apply keeps_gets) : keeps.
Hint Extern 1 (keeps _ (modh _)) => (apply blind_frame; intros ?; reflexivity) : keeps.
Hint Extern 1 (keeps _ (mod_e _)) => (apply blind_frame; intros ?; reflexivity) : keeps.
Hint Extern 1 (keeps _ (await _)) => (apply blind_frame; intros ?; reflexivity) : keeps.
Hint Extern 1 (keeps _ (tell _)) => (apply blind_tell; reflexivity) : keeps.
Ltac go := repeat keeps_step.

Lemma blind_clearTimers : KEEPS _clearTimers.
Proof. unfold _clearTimers, clearTimeout. go. Qed.

#[export] Instance blind_handlers : Handlers I G.
Proof.
  split.
  - intros f Hf. apply blind_frame. intros h. specialize (Hf h). unfold full_view, loop_view, timer_view in Hf.
    unfold quiet_view. by injection Hf as ? ? ? ? ? -> -> ? ? -> ->.
  - intros a c _. by apply blind_tell.
  - intros k. go.
  - apply blind_send.
  - apply blind_update.
  - apply blind_emit.
  - apply blind_clearTimers.
Qed.

Lemma blind_own_turn i :
  G initialized_update → own_turn i = true → (subscribes i = true → KEEPS (engine_exec random_iv i)) →
  KEEPS (engine_exec random_iv i).
Proof.
  intros Hinit Hi Hsub.
  pose proof (laws_client_send I G) as Hsend. pose proof (laws_flushOutgoing I G) as Hflush.
  pose proof (laws_resume I G Hinit) as Hresume. pose proof (laws_triggerSceneInit I G Hinit) as Htrigger.
  destruct i; try done; try (by apply Hsub); cbn [engine_exec]; unfold setAdapter, setEncryptionKey, notifyLocalChange,
    notifyCursorMove, notifyCredentialsChanged, notifyTitleChanged, timerFired, cursorTimerFired, taskSettled,
    clearTimeout, setTimeout, adapter_call; go.
Qed.
End blind.

(** *** Assertions on the host that no change of the state breaks *)

Class HostTurns (J : Host A → Prop) : Prop := {
  turns_frame h h' : loop_view h' = loop_view h → J h → J h';
  turns_called a c h : c ≠ ac_getCursorData → J h → J (h <| told := Called a c :: told h |>);
  turns_await k : keeps (λ w : World (Host A), J (app w)) (await k);
  turns_settle k h : J h → J (h <| tasks := delete k (tasks h) |>);
  turns_emit x : keeps (λ w : World (Host A), J (app w)) (emit x);
  turns_clear : keeps (λ w : World (Host A), J (app w)) _clearTimers;
  turns_local : keeps (λ w : World (Host A), J (app w)) notifyLocalChange;
  turns_cursor : keeps (λ w : World (Host A), J (app w)) notifyCursorMove;
  turns_fire t (w : World (Host A)) : J (app w) → pending (app w) !! t = Some CursorTimer →
    J (app (cursorTimerFired (w <| app := (app w) <| pending := delete t (pending (app w)) |> |>)).2);
  turns_delete t h : J h → pending h !! t ≠ Some CursorTimer → J (h <| pending := delete t (pending h) |>);
  turns_dispose : keeps (λ w : World (Host A), J (app w)) (mod_e (λ e, e <| emitter := removeAllListeners (emitter e) |>))
}.

Lemma host_send (J : Host A → Prop) a now : keeps (λ w : World (Host A), J (app w)) (send a now).
Proof.
  intros w Hw. unfold send, socket_send, get, gets, record, throw, modify, mbind, M_bind.
  destruct (grpc (client w)) as [s|]; [|done]. destruct (_isConnected (client w)); [|done].
  by destruct (grpc_send_error _ _).
Qed.

Lemma host_client_send (J : Host A → Prop) a : keeps (λ w : World (Host A), J (app w)) (client_send a).
Proof. unfold client_send. apply keeps_bind; [apply keeps_gets|intros ?]. apply host_send. Qed.

Section host_turns.
Context (J : Host A → Prop) `{!HostTurns J}.
Abbreviation KEEPS := (keeps (λ w : World (Host A), J (app w))).

Lemma turns_modh f : (∀ h, loop_view (f h) = loop_view h) → KEEPS (modh f).
Proof. intros Hf w Hw. apply (turns_frame (app w)); [apply Hf|exact Hw]. Qed.

#[export] Instance host_turns_handlers : Handlers (λ w, J (app w)) (λ _, True).
Proof.
  split.
  - intros f Hf. apply turns_modh. intros h. exact (f_equal (λ x, x.1.1) (Hf h)).
  - intros a c Hc w. by apply turns_called.
  - apply turns_await.
  - intros a now. apply host_send.
  - intros f _. unfold _updateState. apply keeps_bind; [by apply turns_modh|intros ?].
    apply keeps_bind; [apply keeps_gets|intros ?]. apply turns_emit.
  - intros x _. apply turns_emit.
  - apply turns_clear.
Qed.

Lemma turns_timerFired t : KEEPS (timerFired random_iv t).
Proof.
  intros w Hw. unfold timerFired, host, modh, gets, modify, mbind, M_bind.
  destruct (pending (app w) !! t) as [[|]|] eqn:E; cbv beta iota.
  - apply (laws_flushOutgoing (λ w : World (Host A), J (app w)) (λ _, True)). cbn. apply turns_delete; [done|]. by rewrite E.
  - by apply turns_fire.
  - cbn. apply turns_delete; [done|]. by rewrite E.
Qed.

Lemma turns_taskSettled k : KEEPS (taskSettled random_iv k).
Proof.
  intros w Hw. unfold taskSettled, host, modh, gets, modify, mbind, M_bind.
  apply (turns_settle k) in Hw. destruct (tasks (app w) !! k) as [t|]; [|exact Hw].
  by apply (laws_resume (λ w : World (Host A), J (app w)) (λ _, True)).
Qed.
End host_turns.
End laws.
