(* ===== verification/EngineInvariants.v ===== *)
(** * Invariants of the sync engine ([ts/src/CollabEngine.ts])

    The engine is an application the client's theorems hold for, and what it
    keeps true of itself and of the client under it, over every run. *)

From S2P Require Import Prelude JsMap Models Crypto CollabClient ClientInvariants EventEmitter SyncAdapter CollabEngine EngineLaws.
Open Scope Z_scope.

(** ** What an emission does *)

Section emissions.
Context `{C : SubtleCrypto} {A : Type} `{!SyncAdapter A} `{P : Platform}.
Implicit Types (w : World (Host A)).

(** A world in which the host has been told more. *)
Definition telling (t : list HostEntry) (w : World (Host A)) : World (Host A) :=
  w <| app := (app w) <| told := t ++ told (app w) |> |>.

Definition heard (x : Emission) (fns : list nat) : list HostEntry := reverse ((λ fn, Heard fn x) <$> fns).

Lemma telling_app t t' w : telling t (telling t' w) = telling (t ++ t') w.
Proof. unfold telling. cbn. by rewrite app_assoc. Qed.

Lemma telling_nil w : telling [] w = w.
Proof. by destruct w as [c e [] l]. Qed.

Lemma emit_from_tells x fuel l i w :
  let s := slots_at l (emitter (engine (app w))) in
  (i ≤ length s)%nat → (length s < i + fuel)%nat →
  emit_from (λ w, emitter (engine (app w))) (λ fn, tell (Heard fn x)) fuel l i w =
    (Ok true, telling (heard x (live (drop i s))) w).
Proof.
  revert i w. induction fuel as [|fuel IH]; intros i w s Hi Hf; [lia|].
  simpl. unfold mbind, M_bind, gets. fold s. destruct (s !! i) as [[fn|]|] eqn:Ei.
  - apply lookup_lt_Some in Ei as Hlt. cbn. change (mkWorld _ _ _ _) with (telling [Heard fn x] w).
    assert (slots_at l (emitter (engine (app (telling [Heard fn x] w)))) = s) as Es by done.
    specialize (IH (S i) (telling [Heard fn x] w)). cbv zeta in IH. rewrite Es in IH.
    rewrite IH, telling_app by lia. do 2 f_equal.
    rewrite (live_drop _ _ _ Ei). unfold heard. rewrite fmap_app, reverse_app. done.
  - apply lookup_lt_Some in Ei as Hlt. rewrite IH by (fold s; lia). by rewrite (live_drop _ _ _ Ei).
  - apply lookup_ge_None in Ei. by rewrite drop_ge, telling_nil.
Qed.

(** An emission returns, and tells every listener of its event, in order. *)
Lemma emit_tells x w :
  emit x w = (Ok tt, telling (heard x (subscribed (event_name x) (emitter (engine (app w))))) w).
Proof.
  unfold emit, EventEmitter.emit, gete, subscribed, mbind, M_bind, gets. cbv beta iota.
  destruct (map_get _ _) as [l|]; [|by rewrite telling_nil]. change (default 0%nat (Some l)) with l.
  rewrite (emit_from_tells x _ l 0 w) by lia. done.
Qed.

(** The host with the engine's state replaced. *)
Definition with_state (s : CollabEngineState) (w : World (Host A)) : World (Host A) :=
  w <| app := (app w) <| engine := (engine (app w)) <| _state := s |> |> |>.

Lemma updateState_tells f w :
  let s := f (_state (engine (app w))) in
  _updateState f w =
    (Ok tt, telling (heard (em_stateChange s) (subscribed stateChange (emitter (engine (app w))))) (with_state s w)).
Proof.
  intros s. unfold _updateState, mod_e, modh, gete, gets, modify, mbind, M_bind. by rewrite emit_tells.
Qed.
End emissions.

Section engine.
Context `{C : SubtleCrypto} {A : Type} `{!SyncAdapter A} `{P : Platform} (random_iv : nat → list N).
Abbreviation E := (M (World (Host A))).
Abbreviation ecb := (engine_cb random_iv (A := A)).

(** ** Programs that leave the client alone *)

Definition since (w0 w : World (Host A)) : Prop :=
  client w = client w0 ∧ env w = env w0 ∧ ∃ l, log w = l ++ log w0 ∧ Forall is_send l.

Section observes.
Context (w0 : World (Host A)).
Abbreviation KEEPS := (keeps (since w0)).

Lemma since_send a now : KEEPS (send a now).
Proof.
  intros w (Ec & Ee & l & El & Hl). unfold send, socket_send, get, gets, record, throw, modify, mbind, M_bind.
  destruct (grpc (client w)) as [s|]; [|by split_and!; [..|exists l]].
  destruct (_isConnected (client w)); [|by split_and!; [..|exists l]].
  destruct (grpc_send_error _ _); cbn; [by split_and!; [..|exists l]|].
  split_and!; [done..|]. eexists (_ :: l). rewrite El. split; [done|]. by constructor.
Qed.

#[export] Instance since_blind : Blind (since w0) (λ _, True).
Proof.
  split.
  - intros f _ w Hw. exact Hw.
  - intros x _ w Hw. exact Hw.
  - apply since_send.
  - intros f _ w Hw. by rewrite updateState_tells.
  - intros x _ w Hw. by rewrite emit_tells.
Qed.

Lemma since_clear : KEEPS _clearTimers.
Proof. apply law_clear. Qed.

(** The turns of the engine that do not reach the client. *)
Lemma since_own_turn i : own_turn i = true → KEEPS (engine_exec random_iv i).
Proof. intros Hi. apply (blind_own_turn random_iv (since w0) (λ _, True)); [done..|]. destruct i; try done; intros _ w Hw; exact Hw. Qed.

Lemma since_engine_cb c : KEEPS (ecb c).
Proof. apply (laws_engine_cb random_iv (since w0) (λ _, True)). intros params. by apply Forall_forall. Qed.
End observes.

#[export] Instance engine_observes : Observer ecb.
Proof.
  intros c w. destruct (since_engine_cb w c w) as (Ec & Ee & l & El & Hl); [|by exists l].
  split_and!; try done. by exists [].
Qed.
End engine.

(** ** What the client's turns keep of its application

    The client touches its application only through the callbacks. *)

Section app_invariant.
Context `{P : Platform} {H : Type} (cb : Callback → M (World H) unit) (J : H → Prop).
Abbreviation KEEPS := (keeps (λ w : World H, J (app w))).
Context (Hcb : ∀ c, KEEPS (cb c)).

Lemma app_modc f : KEEPS (modc f).
Proof. intros w Hw. exact Hw. Qed.
Lemma app_mode f : KEEPS (mode f).
Proof. intros w Hw. exact Hw. Qed.
Lemma app_record x : KEEPS (record x).
Proof. intros w Hw. exact Hw. Qed.
Hint Resolve app_modc app_mode app_record Hcb : keeps.
Ltac go := repeat keeps_step.

Lemma app_call c : KEEPS (call cb c).
Proof. unfold call. go. Qed.
Lemma app_fresh : KEEPS fresh.
Proof. unfold fresh. go. Qed.
Lemma app_socket_send s a : KEEPS (socket_send s a).
Proof. unfold socket_send. go. Qed.
Lemma app_socket_close s : KEEPS (socket_close s).
Proof. unfold socket_close. go. Qed.
Lemma app_resetState : KEEPS resetState.
Proof. unfold resetState. go. Qed.
Hint Resolve app_call app_fresh app_socket_send app_socket_close app_resetState : keeps.
Lemma app_openWebSocket tok : KEEPS (openWebSocket tok).
Proof. unfold openWebSocket, new_socket. go. Qed.
Hint Resolve app_openWebSocket : keeps.
Lemma app_openWithToken : KEEPS openWithToken.
Proof. unfold openWithToken. go. Qed.
Lemma app_scheduleReconnect : KEEPS (scheduleReconnect cb).
Proof. unfold scheduleReconnect, endSession, set_timeout. go. Qed.
Lemma app_disconnect : KEEPS (CollabClient.disconnect cb).
Proof. unfold CollabClient.disconnect, removeUnloadListener, clearRetryTimer, clear_timeout, leaveAndClose. go. Qed.
Lemma app_closeFromRelay : KEEPS (closeFromRelay cb).
Proof. unfold closeFromRelay. go. Qed.
Lemma app_addPeer p : KEEPS (addPeer cb p).
Proof. unfold addPeer. go. Qed.
Hint Resolve app_openWithToken app_scheduleReconnect app_disconnect app_closeFromRelay app_addPeer : keeps.
Lemma app_afterRoomCheck st : KEEPS (afterRoomCheck cb st).
Proof. unfold afterRoomCheck, endSession. go. Qed.
Lemma app_handleEvent ev : KEEPS (handleEvent cb ev).
Proof.
  unfold handleEvent, handleError, handleRoomJoined, handleSessionEnded, dropAndReconnect, handleOwnerChanged. go.
Qed.
Lemma app_connect a rnd : KEEPS (CollabClient.connect a rnd).
Proof. unfold CollabClient.connect. go. Qed.
Lemma app_send a now : KEEPS (send a now).
Proof. unfold send. go. Qed.
Hint Resolve app_afterRoomCheck app_handleEvent app_connect app_send : keeps.

Lemma app_exec i : KEEPS (exec cb i).
Proof.
  destruct i; cbn [exec]; unfold sendAppMessage, connectResolved, onMessage, onClose, handleConnectionClosed,
    set_status, tokenFulfilled, tokenRejected, retryTimerFired, rejoinIfRoomExists; go.
Qed.
End app_invariant.

(** ** What the engine's turns keep of its host *)

Section host_invariant.
Context `{C : SubtleCrypto} {A : Type} `{!SyncAdapter A} `{P : Platform} (random_iv : nat → list N).
Context (J : Host A → Prop) `{HT : !HostTurns J}.
Abbreviation KEEPS := (keeps (λ w : World (Host A), J (app w))).
Abbreviation ANY := (λ _ : CollabEngineState → CollabEngineState, True).

Lemma host_engine_cb c : KEEPS (engine_cb random_iv c).
Proof. apply (laws_engine_cb random_iv _ ANY). intros params. by apply Forall_forall. Qed.
Lemma host_disconnect : KEEPS (disconnect random_iv).
Proof. apply app_disconnect. apply host_engine_cb. Qed.
Lemma host_client_connect a rnd : KEEPS (CollabClient.connect a rnd).
Proof. exact (app_connect J a rnd). Qed.
Lemma host_updateState f : KEEPS (_updateState f).
Proof. by apply (law_update (G := ANY)). Qed.
Lemma host_triggerSceneInit : KEEPS _triggerSceneInit.
Proof. by apply (laws_triggerSceneInit _ ANY). Qed.

Hint Resolve host_disconnect host_client_connect host_updateState host_triggerSceneInit host_client_send : keeps.
Hint Resolve turns_timerFired turns_taskSettled turns_clear turns_local turns_cursor turns_dispose : keeps.
Hint Extern 1 (keeps _ gete) => (apply keeps_gets) : keeps.
Hint Extern 1 (keeps _ (modh _)) => (apply (turns_modh J); intros ?; reflexivity) : keeps.
Hint Extern 1 (keeps _ (mod_e _)) => (apply (turns_modh J); intros ?; reflexivity) : keeps.

(** Inputs other than subscriptions. *)
Lemma host_engine_exec i :
  (subscribes i = true → KEEPS (engine_exec random_iv i)) → KEEPS (engine_exec random_iv i).
Proof.
  intros Hi. destruct i; try (by apply Hi); cbn [engine_exec]; unfold connect, _wireClient, dispose, setAdapter, setEncryptionKey,
    notifyCredentialsChanged, notifyTitleChanged; repeat keeps_step.
  apply app_exec. apply host_engine_cb.
Qed.

Lemma host_engine_run ins w :
  Forall (λ i, subscribes i = true → KEEPS (engine_exec random_iv i)) ins →
  J (app w) → J (app (engine_run random_iv ins w)).
Proof.
  intros Hi. revert w. induction Hi as [|i ins Hi _ IH]; intros w Hw; [done|].
  apply (IH (engine_run1 random_iv i w)). by apply host_engine_exec.
Qed.
End host_invariant.

(** The same for what sees neither timers nor calls awaited. *)
Section blind_invariant.
Context `{C : SubtleCrypto} {A : Type} `{!SyncAdapter A} `{P : Platform} (random_iv : nat → list N).
Context (J : Host A → Prop) (G : (CollabEngineState → CollabEngineState) → Prop).
Context `{HB : !Blind (λ w : World (Host A), J (app w)) G}.
Abbreviation KEEPS := (keeps (λ w : World (Host A), J (app w))).
Context (Hcb : ∀ c params, Forall G (handler_updates params c)).
Context (Hconnect : G (λ s, s <| phase := connecting |> <| error := None |>)).
Context (Hwire : KEEPS _wireClient).

Lemma blind_engine_exec i :
  (subscribes i = true ∨ i = EDispose → KEEPS (engine_exec random_iv i)) → KEEPS (engine_exec random_iv i).
Proof.
  intros Hi. assert (∀ c, KEEPS (engine_cb random_iv c)) as Hk by (intros c; by apply (laws_engine_cb random_iv _ G)).
  destruct (own_turn i) eqn:Ho.
  { apply (blind_own_turn random_iv _ G); [|done|auto].
    pose proof (Hcb (OnEvent (mkCollabEvent [] [] 0 ev_undefined)) (mkConnectParams [] [] [] [] None None None None None)) as H0.
    by apply Forall_cons in H0 as [? _]. }
  destruct i; try done; cbn [engine_exec].
  - by apply app_exec.
  - unfold connect. apply keeps_bind; [by apply blind_frame|intros _].
    apply keeps_bind; [by apply blind_update|intros _]. apply keeps_bind; [exact Hwire|intros _].
    exact (app_connect J _ _).
  - by apply app_disconnect.
  - apply Hi. by right.
Qed.
End blind_invariant.

(** ** Resets *)

Section resets.
Context `{C : SubtleCrypto} {A : Type} `{!SyncAdapter A} `{P : Platform}.
Implicit Types (w : World (Host A)).

(** The parts of a world that clearing timers leaves alone. *)
Definition same_but_timers (w w' : World (Host A)) : Prop :=
  client w' = client w ∧ env w' = env w ∧ log w' = log w ∧
  adapters (app w') = adapters (app w) ∧ tasks (app w') = tasks (app w) ∧
  let e := engine (app w) in let e' := engine (app w') in
  _adapter e' = _adapter e ∧ _encryptionKey e' = _encryptionKey e ∧ wired e' = wired e ∧
  _connectParams e' = _connectParams e ∧ emitter e' = emitter e ∧ _cursorPending e' = _cursorPending e.

Lemma clearTimers_result w :
  (_clearTimers w).1 = Ok tt ∧ same_but_timers w (_clearTimers w).2 ∧
  _state (engine (app (_clearTimers w).2)) = _state (engine (app w)) ∧
  ∃ t, told (app (_clearTimers w).2) = t ++ told (app w) ∧ Forall (λ x, ∃ h, x = TimerCleared h) t.
Proof.
  unfold _clearTimers, clearTimeout, tell, mod_e, modh, gete, gets, modify, mbind, M_bind, mret, M_ret.
  destruct (_debounceTimer (engine (app w))) as [[|d]|] eqn:Ed, (_cursorTimer (engine (app w))) as [[|c]|] eqn:Ec; cbn.
  all: rewrite ?Ed, ?Ec; cbn; rewrite ?Ed, ?Ec; cbn.
  all: split_and!; try done.
  all: first [ by exists [] | eexists [_]; cbn; split; [reflexivity|]; repeat constructor; by eexists
             | eexists [_; _]; cbn; split; [reflexivity|]; repeat constructor; by eexists ].
Qed.

(** [_resetState] returns; it leaves the initial state, but for the last error. *)
Lemma resetState_result w :
  (_resetState w).1 = Ok tt ∧ same_but_timers w (_resetState w).2 ∧
  _state (engine (app (_resetState w).2)) = INITIAL_STATE <| error := error (_state (engine (app w))) |>.
Proof.
  pose proof (clearTimers_result w) as (E1 & Hs & Est & _).
  unfold _resetState, mod_e, modh, modify, mbind, M_bind.
  destruct (_clearTimers w) as [r w1]. cbn in E1, Hs, Est. subst r.
  rewrite !updateState_tells. unfold telling, with_state. cbn.
  split; [done|]. split; [|by rewrite Est].
  destruct Hs as (?&?&?&?&?&?&?&?&?&?&?). by split_and!.
Qed.
End resets.
