(* ===== verification/EngineProperties.v ===== *)
(** * Properties of the sync engine ([ts/src/CollabEngine.ts])

    The engine over its client: which of the client's guarantees it inherits,
    how its phase follows the connection, its timers, and its disposal; and a
    concrete page, on which the theorems about engines have their witnesses. *)

From S2P Require Import Prelude.
From S2P Require Import JsText.
From S2P Require Import JsMap.
From S2P Require Import Models.
From S2P Require Import Crypto.
From S2P Require Import CollabClient.
From S2P Require Import ClientInvariants.
From S2P Require Import ClientReconnect.
From S2P Require Import EventEmitter.
From S2P Require Import SyncAdapter.
From S2P Require Import CollabEngine.
From S2P Require Import EngineLaws.
From S2P Require Import EngineInvariants.
Open Scope Z_scope.

(** Unfolds the engine's straight-line programs. *)
Ltac eunfold :=
  unfold _clearTimers, clearTimeout, setTimeout, tell, mod_e, modh, gete, host,
    gets, modify, throw, swallow, when, mbind, M_bind, mret, M_ret in *.

(** ** Timers *)

(** Every pending timer is the one the engine holds the handle of. *)
Record timers_ok `{C : SubtleCrypto} {A} (h : Host A) : Prop := {
  tm_handles t : is_Some (pending h !! t) → (0 < t < nextHandle h)%nat;
  tm_next : (0 < nextHandle h)%nat;
  tm_debounce t : pending h !! t = Some DebounceTimer → _debounceTimer (engine h) = Some t;
  tm_cursor t : pending h !! t = Some CursorTimer →
    _cursorTimer (engine h) = Some t ∧ _cursorPending (engine h) = true
}.

Section timers.
Context `{C : SubtleCrypto} {A : Type} `{!SyncAdapter A} `{P : Platform} (random_iv : nat → list N).
Abbreviation TIMERS := (keeps (λ w : World (Host A), timers_ok (app w))).

Lemma timers_frame (h h' : Host A) : loop_view h' = loop_view h → timers_ok h → timers_ok h'.
Proof. unfold loop_view, timer_view. intros [= E1 E2 E3 E4 E5 _ _ _ _] []. split; rewrite ?E1, ?E2, ?E3, ?E4, ?E5; done. Qed.

Lemma timers_delete t (h : Host A) : timers_ok h → timers_ok (h <| pending := delete t (pending h) |>).
Proof.
  intros []. split; cbn; try done.
  - intros t' [k [_ Hk]%lookup_delete_Some]. by apply tm_handles0.
  - intros t' [_ Hk]%lookup_delete_Some. by apply tm_debounce0.
  - intros t' [_ Hk]%lookup_delete_Some. by apply tm_cursor0.
Qed.

Lemma timers_clear : TIMERS _clearTimers.
Proof.
  intros w []. eunfold.
  destruct (_debounceTimer (engine (app w))) as [[|d]|] eqn:Ed, (_cursorTimer (engine (app w))) as [[|c]|] eqn:Ec; cbn.
  all: rewrite ?Ed, ?Ec; cbn; rewrite ?Ed, ?Ec; cbn.
  all: split; cbn; try done; intros t Ht.
  all: rewrite ?lookup_delete_is_Some, ?lookup_delete_Some in Ht; destruct_and?.
  all: try (by apply tm_handles0).
  all: match goal with
       | Ht : _ = Some DebounceTimer |- _ => apply tm_debounce0 in Ht as Hx; congruence
       | Ht : _ = Some CursorTimer |- _ => apply tm_cursor0 in Ht as [Hx ?]; split; congruence
       end.
Qed.

Lemma timers_local : TIMERS notifyLocalChange.
Proof.
  intros w []. unfold notifyLocalChange. eunfold.
  destruct (_debounceTimer (engine (app w))) as [d|] eqn:Ed; cbn.
  all: split; cbn; try lia; intros t Ht.
  all: rewrite ?lookup_insert_is_Some, ?lookup_insert_Some, ?lookup_delete_is_Some, ?lookup_delete_Some in Ht.
  - destruct Ht as [<-|[_ [_ Ht]]]; [lia|]. specialize (tm_handles0 t Ht). lia.
  - destruct Ht as [[<- _]|[_ [Hn Ht]]]; [done|]. apply tm_debounce0 in Ht. congruence.
  - destruct Ht as [[_ [=]]|[_ [_ Ht]]]. by apply tm_cursor0.
  - destruct Ht as [<-|[_ Ht]]; [lia|]. specialize (tm_handles0 t Ht). lia.
  - destruct Ht as [[<- _]|[_ Ht]]; [done|]. apply tm_debounce0 in Ht. congruence.
  - destruct Ht as [[_ [=]]|[_ Ht]]. by apply tm_cursor0.
Qed.

Lemma timers_cursor_move : TIMERS notifyCursorMove.
Proof.
  intros w Hw. unfold notifyCursorMove. eunfold. pose proof Hw as [].
  destruct (negb _); [done|]. destruct (_cursorPending (engine (app w))) eqn:Ep; [done|]. cbn.
  split; cbn; try lia; intros t Ht; rewrite ?lookup_insert_is_Some, ?lookup_insert_Some in Ht.
  - destruct Ht as [<-|[_ Ht]]; [lia|]. specialize (tm_handles0 t Ht). lia.
  - destruct Ht as [[_ [=]]|[_ Ht]]. by apply tm_debounce0.
  - destruct Ht as [[<- _]|[_ Ht]]; [done|]. apply tm_cursor0 in Ht as [_ Ht]. congruence.
Qed.

Lemma timers_told f (h : Host A) : timers_ok h → timers_ok (h <| told := f (told h) |>).
Proof. by intros []. Qed.

Lemma timers_emit x : TIMERS (emit x).
Proof. intros w Hw. rewrite emit_tells. by apply (timers_told (λ t, _ ++ t)). Qed.

Lemma timers_emitter f : TIMERS (mod_e (λ e, e <| emitter := f (emitter e) |>)).
Proof. by intros w []. Qed.

Lemma timers_fire t (w : World (Host A)) :
  timers_ok (app w) → pending (app w) !! t = Some CursorTimer →
  timers_ok (app (cursorTimerFired (w <| app := (app w) <| pending := delete t (pending (app w)) |> |>)).2).
Proof.
  intros Hw Ht. pose proof (timers_delete t _ Hw) as Hd. unfold cursorTimerFired.
  match goal with |- timers_ok (app ((_ ≫= ?k) ?w0).2) => set (w1 := (mod_e (λ e, e <| _cursorPending := false |>) w0).2);
    change (timers_ok (app (k tt w1).2)) end.
  assert (timers_ok (app w1)) as H1.
  { destruct Hd as [D1 D2 D3 D4]. split; cbn in *; try done. intros t' Ht'. exfalso.
    apply lookup_delete_Some in Ht' as [Hne Ht']. destruct Hw as [_ _ _ W].
    destruct (W t Ht) as [E1 _], (W t' Ht') as [E2 _]. congruence. }
  clearbody w1. revert H1.
  generalize w1. clear w1. intros w1 H1. cbv beta.
  match goal with |- timers_ok (app (?m w1).2) => cut (TIMERS m); [intros Hm; by apply Hm|] end.
  assert (∀ x, TIMERS (tell x)) as Htell by (intros x w2 Hw2; by apply (timers_told (λ t, x :: t))).
  assert (∀ f, (∀ h, loop_view (f h) = loop_view h) → TIMERS (modh f)) as Hmod.
  { intros f Hf w2. apply timers_frame, Hf. }
  unfold adapter_call.
  repeat first [keeps_step | apply keeps_gets | apply host_client_send | apply Htell | apply Hmod; intros ?; reflexivity].
Qed.

#[export] Instance timers_turns : HostTurns timers_ok.
Proof.
  split.
  - apply timers_frame.
  - intros a c h _. apply (timers_told (λ t, _ :: t)).
  - by intros k w [].
  - by intros k h [].
  - apply timers_emit.
  - apply timers_clear.
  - apply timers_local.
  - apply timers_cursor_move.
  - apply timers_fire.
  - intros t h Hh _. by apply timers_delete.
  - apply (timers_emitter removeAllListeners).
Qed.

Lemma timers_run ins (w : World (Host A)) :
  timers_ok (app w) → timers_ok (app (engine_run random_iv ins w)).
Proof.
  apply (host_engine_run random_iv timers_ok).
  apply Forall_forall. intros i _ Hi. destruct i; try done; apply timers_emitter.
Qed.
End timers.

(** ** The phase follows the connection *)

Section phase.
Context `{C : SubtleCrypto} {A : Type} `{!SyncAdapter A} `{P : Platform} (random_iv : nat → list N).
Abbreviation ecb := (engine_cb random_iv (A := A)).
Implicit Types (w : World (Host A)) (h : Host A).

Abbreviation phase_of h := (phase (_state (engine h))).
Abbreviation id_of h := (clientId (_state (engine h))).

(** The engine is wired, and in phase [connected] only with the client id of
    a moment ago. *)
Definition calm h0 w : Prop :=
  wired (engine (app w)) = wired (engine h0) ∧
  (phase_of (app w) = connected → phase_of h0 = connected ∧ id_of (app w) = id_of h0).

Section calm.
Context (h0 : Host A).
Abbreviation KEEPS := (keeps (calm h0)).

Lemma calm_modh f :
  (∀ h, wired (engine (f h)) = wired (engine h) ∧
        (phase_of (f h) = connected → phase_of h = connected ∧ id_of (f h) = id_of h)) →
  KEEPS (modh f).
Proof.
  intros Hf w [Hw Hp]. destruct (Hf (app w)) as [F1 F2]. split; cbn; [congruence|].
  intros Hc. destruct (F2 Hc) as [F3 F4]. destruct (Hp F3). split; [done|congruence].
Qed.

Lemma calm_send a now : KEEPS (send a now).
Proof.
  intros w Hw. destruct (since_send w a now w) as (_ & _ & _); [by split_and!; [..|exists []]|].
  revert Hw. unfold send, socket_send, get, gets, record, throw, modify, mbind, M_bind.
  destruct (grpc (client w)) as [s|]; [|done]. destruct (_isConnected (client w)); [|done].
  by destruct (grpc_send_error _ _).
Qed.
(** A change of the state that does not make it [connected]. *)
Definition gentle (f : CollabEngineState → CollabEngineState) : Prop :=
  ∀ s, phase (f s) = connected → phase s = connected ∧ clientId (f s) = clientId s.

#[export] Instance calm_blind : Blind (calm h0) gentle.
Proof.
  split.
  - intros f Hf. apply calm_modh. intros h. specialize (Hf h). unfold quiet_view in Hf. by injection Hf as -> -> _ _.
  - intros x _. by apply calm_modh.
  - apply calm_send.
  - intros f Hf. unfold _updateState. apply keeps_bind; [|intros ?].
    + apply calm_modh. intros h. split; [done|]. apply Hf.
    + apply keeps_bind; [apply keeps_gets|intros ?]. intros w Hw. by rewrite emit_tells.
  - intros x _ w Hw. by rewrite emit_tells.
Qed.

Lemma calm_own_turn i : own_turn i = true → KEEPS (engine_exec random_iv i).
Proof.
  intros Hi. apply (blind_own_turn random_iv (calm h0) gentle); [done..|].
  destruct i; try done; intros _; by apply calm_modh.
Qed.

Lemma calm_engine_cb c : (∀ id, c ≠ OnConnect id) → KEEPS (ecb c).
Proof.
  intros Hc. apply (laws_engine_cb random_iv (calm h0) gentle). intros params.
  destruct c; try (by edestruct Hc); cbn [handler_updates]; repeat case_match;
    repeat apply Forall_cons_2; try apply Forall_nil_2; by intros s.
Qed.
End calm.

(** The engine says [connected] only while the client is, under the same id. *)
Definition agree w : Prop :=
  phase_of (app w) = connected →
  is_Some (wired (engine (app w))) ∧ _isConnected (client w) = true ∧ id_of (app w) = _clientId (client w).

(** Between the client noting a lost connection and [onDisconnect]. *)
Definition losing w : Prop := phase_of (app w) = connected → is_Some (wired (engine (app w))).

Abbreviation AGREE := (keeps agree).

Lemma agree_call c : (∀ id, c ≠ OnConnect id) → AGREE (call ecb c).
Proof.
  intros Hc w Hw. set (w1 := w <| log := Cb c :: log w |>). change (agree (ecb c w1).2).
  destruct (calm_engine_cb (app w) c Hc w1) as [E1 E2]; [by split|].
  destruct (since_engine_cb random_iv w1 c w1) as (Ec & _); [split_and!; [done..|by exists []]|].
  intros Hp. destruct (E2 Hp) as [Hp0 Hid]. destruct (Hw Hp0) as (? & ? & ?).
  rewrite E1, Ec, Hid. by split_and!.
Qed.

Lemma agree_modc f :
  (∀ c, _isConnected (f c) = _isConnected c ∧ _clientId (f c) = _clientId c) → AGREE (modc f).
Proof. intros Hf w Hw Hp. destruct (Hf (client w)) as [F1 F2]. cbn. rewrite F1, F2. by apply Hw. Qed.

Lemma agree_mode f : AGREE (mode f).
Proof. by intros w Hw. Qed.
Lemma agree_record x : AGREE (record x).
Proof. by intros w Hw. Qed.

(** [onDisconnect] leaves the engine disconnected. *)
Lemma wp_call_OnDisconnect Q w :
  losing w → (∀ w', client w' = client w → phase_of (app w') ≠ connected → Q (Ok tt) w') →
  wp (call ecb OnDisconnect) Q w.
Proof.
  intros Hl HQ. unfold call. apply wp_bind. unfold record, wp at 1, modify. cbn -[engine_cb].
  set (w1 := mkWorld _ _ _ _). unfold wp.
  destruct (since_engine_cb random_iv w1 OnDisconnect w1) as (Ec & _); [split_and!; [done..|by exists []]|].
  unfold engine_cb, gete, gets, mbind, M_bind in *. cbn -[_resetState] in *.
  destruct (wired (engine (app w))) eqn:Ew.
  - destruct (resetState_result w1) as (E1 & _ & E3). rewrite E1. apply HQ; [exact Ec|]. by rewrite E3.
  - apply HQ; [done|]. intros Hp. destruct (Hl Hp) as [? Hx]. by rewrite Ew in Hx.
Qed.

Lemma agree_not_connected w : phase_of (app w) ≠ connected → agree w.
Proof. intros Hp Hp'. done. Qed.

Hint Extern 1 (keeps _ (call _ _)) => (apply agree_call; intros ?; discriminate) : keeps.
Hint Extern 1 (keeps _ (modc _)) => (apply agree_modc; intros ?; cbn; done) : keeps.
Hint Resolve agree_mode agree_record : keeps.
Ltac go := repeat keeps_step.

Lemma wp_when_OnDisconnect b Q w :
  losing w → (b = false → agree w) → (∀ w', agree w' → Q (Ok tt) w') →
  wp (when b (call ecb OnDisconnect)) Q w.
Proof.
  intros Hl Ha HQ. apply wp_when; intros Hb; [|by apply HQ, Ha].
  apply wp_call_OnDisconnect; [done|]. intros w' _ Hp. by apply HQ, agree_not_connected.
Qed.

(** A client without a connection, under an application that has not heard yet. *)
Lemma agree_losing w h : agree w → app w = h → phase_of h = connected → is_Some (wired (engine h)).
Proof. intros Hw <- Hp. by destruct (Hw Hp). Qed.

Lemma agree_lost w w' : agree w → app w' = app w → _isConnected (client w) = false → agree w'.
Proof. intros Hw E Hc Hp. rewrite E in Hp. destruct (Hw Hp) as (_ & Hc' & _). congruence. Qed.

(** Symbolic execution up to the report of a lost connection. *)
Ltac drop_step Hw :=
  repeat lazymatch goal with
         | |- wp (when _ (call _ OnDisconnect)) _ _ =>
             apply wp_when_OnDisconnect;
             [ intros Hp; by eapply agree_losing
             | intros Hb; by eapply agree_lost
             | intros [? ? ? ?] ? ]
         | |- wp (socket_send _ _) _ _ => apply wp_send; intros ?
         | _ => wp_step
         end.

Lemma agree_closeFromRelay : AGREE (closeFromRelay ecb).
Proof.
  intros [c e h l] Hw. change (wp (closeFromRelay ecb) (λ _ w, agree w) (mkWorld c e h l)).
  unfold closeFromRelay, socket_close. drop_step Hw; done.
Qed.

Lemma agree_endSession r : AGREE (endSession ecb r).
Proof. unfold endSession. go. Qed.
Lemma agree_fresh : AGREE fresh.
Proof. unfold fresh. go. Qed.
Lemma agree_socket_send s a : AGREE (socket_send s a).
Proof. unfold socket_send. go. Qed.
Hint Resolve agree_endSession agree_fresh agree_closeFromRelay agree_socket_send : keeps.
Lemma agree_scheduleReconnect : AGREE (scheduleReconnect ecb).
Proof. unfold scheduleReconnect, set_timeout. go. Qed.
Hint Resolve agree_scheduleReconnect : keeps.

Lemma agree_dropAndReconnect : AGREE (dropAndReconnect ecb).
Proof.
  intros [c e h l] Hw. change (wp (dropAndReconnect ecb) (λ _ w, agree w) (mkWorld c e h l)).
  unfold dropAndReconnect, socket_close. drop_step Hw; by apply agree_scheduleReconnect.
Qed.

Lemma agree_handleConnectionClosed : AGREE (handleConnectionClosed ecb).
Proof.
  intros [c e h l] Hw. change (wp (handleConnectionClosed ecb) (λ _ w, agree w) (mkWorld c e h l)).
  unfold handleConnectionClosed. drop_step Hw; [by apply agree_scheduleReconnect|done].
Qed.

Lemma agree_leaveAndClose : AGREE (leaveAndClose ecb).
Proof.
  intros [c e h l] Hw. change (wp (leaveAndClose ecb) (λ _ w, agree w) (mkWorld c e h l)).
  unfold leaveAndClose, socket_close. drop_step Hw; done.
Qed.
Hint Resolve agree_dropAndReconnect agree_handleConnectionClosed agree_leaveAndClose : keeps.

Lemma agree_disconnect : AGREE (disconnect random_iv).
Proof. unfold disconnect, CollabClient.disconnect, removeUnloadListener, clearRetryTimer, clear_timeout. go. Qed.

Lemma agree_addPeer p : AGREE (addPeer ecb p).
Proof. unfold addPeer. go. Qed.
Hint Resolve agree_disconnect agree_addPeer : keeps.

(** [onConnect] comes when the client has its id. *)
Lemma wp_call_OnConnect Q w :
  losing w → _isConnected (client w) = true →
  (∀ w', client w' = client w → agree w' → Q (Ok tt) w') →
  wp (call ecb (OnConnect (_clientId (client w)))) Q w.
Proof.
  intros Hl Hc HQ. unfold call. apply wp_bind. unfold record, wp at 1, modify. cbn -[engine_cb].
  set (w1 := mkWorld _ _ _ _). unfold wp, engine_cb, gete, gets, mbind, M_bind. cbn -[_updateState].
  destruct (wired (engine (app w))) as [ps|] eqn:Ew; cbn -[_updateState].
  - rewrite updateState_tells. apply HQ; [done|]. intros _. cbn. rewrite Ew. by split_and!.
  - apply HQ; [done|]. intros Hp. destruct (Hl Hp) as [? Hx]. by rewrite Ew in Hx.
Qed.

Lemma agree_handleRoomJoined rj : AGREE (handleRoomJoined ecb rj).
Proof.
  intros [c e h l] Hw. change (wp (handleRoomJoined ecb rj) (λ _ w, agree w) (mkWorld c e h l)).
  assert (phase_of h = connected → is_Some (wired (engine h))) as Hl.
  { intros Hp. by destruct (Hw Hp). }
  unfold handleRoomJoined.
  repeat lazymatch goal with
         | |- wp (call _ (OnConnect _)) _ _ => fail
         | _ => wp_step
         end.
  all: match goal with |- wp (call _ _) ?Q ?w' => apply (wp_call_OnConnect Q w'); [exact Hl|done|] end.
  all: intros w1 _ Hw1.
  all: eapply keeps_bind with (I := agree); [go|intros ?; go|exact Hw1].
Qed.
Hint Resolve agree_handleRoomJoined : keeps.

Lemma agree_client_connect a rnd : AGREE (CollabClient.connect a rnd).
Proof. unfold CollabClient.connect, openWithToken, openWebSocket, new_socket, start_connect. go. Qed.

Lemma agree_exec i : AGREE (exec ecb i).
Proof.
  pose proof agree_client_connect. pose proof agree_disconnect.
  destruct i; cbn [exec]; try done;
    unfold sendAppMessage, send, connectResolved, onMessage, handleEvent, handleError, handleSessionEnded,
      handleOwnerChanged, onClose, set_status, tokenFulfilled, tokenRejected, retryTimerFired,
      rejoinIfRoomExists, afterRoomCheck, openWithToken, openWebSocket, new_socket; go.
Qed.

(** A program of the engine that is calm and leaves the client alone. *)
Lemma agree_calm {X} (m : M (World (Host A)) X) :
  (∀ h0, keeps (calm h0) m) → (∀ w0, keeps (since w0) m) → AGREE m.
Proof.
  intros Hc Hs w Hw. destruct (Hc (app w) w) as [E1 E2]; [by split|].
  destruct (Hs w w) as (Ec & _); [split_and!; [done..|by exists []]|].
  intros Hp. destruct (E2 Hp) as [Hp0 Hid]. destruct (Hw Hp0) as (? & ? & ?).
  rewrite E1, Ec, Hid. by split_and!.
Qed.

Lemma agree_host {X} (m : M (World (Host A)) X) :
  (∀ w, client (m w).2 = client w ∧ wired (engine (app (m w).2)) = wired (engine (app w)) ∧
        _state (engine (app (m w).2)) = _state (engine (app w))) → AGREE m.
Proof. intros Hm w Hw Hp. destruct (Hm w) as (E1 & E2 & E3). rewrite E3 in Hp |- *. rewrite E1, E2. by apply Hw. Qed.

Lemma agree_connect params rnd : AGREE (connect params rnd).
Proof.
  intros w _. unfold connect, _wireClient, mod_e, modh, modify. unfold mbind, M_bind.
  rewrite updateState_tells. cbn -[CollabClient.connect]. apply agree_client_connect.
  by apply agree_not_connected.
Qed.

Lemma agree_dispose : AGREE (dispose random_iv).
Proof.
  unfold dispose. repeat first [keeps_step | apply keeps_gets | apply agree_disconnect | by apply agree_host].
  apply agree_host. intros w. destruct (clearTimers_result w) as (_ & (Ec & _ & _ & _ & _ & _ & _ & Ew & _) & Es & _).
  by split_and!.
Qed.

Lemma agree_engine_exec i : AGREE (engine_exec random_iv i).
Proof.
  destruct i; try (apply agree_calm; intros ?; [by apply calm_own_turn|by apply since_own_turn]); cbn [engine_exec].
  - apply agree_exec.
  - apply agree_connect.
  - apply agree_disconnect.
  - apply agree_dispose.
Qed.

Lemma agree_run ins w : agree w → agree (engine_run random_iv ins w).
Proof.
  revert w. induction ins as [|i ins IH]; intros w Hw; [done|].
  apply (IH (engine_run1 random_iv i w)). by apply agree_engine_exec.
Qed.
End phase.

(** ** A cursor timer cleared under way *)

(** Entries that have nothing to do with cursor timers. *)
Definition harmless (x : HostEntry) : bool :=
  match x with
  | Called _ ac_getCursorData => false
  | TimerSet _ CursorTimer _ => false
  | _ => true
  end.

(** The engine believes a cursor update is under way, and none is. *)
Definition frozen `{C : SubtleCrypto} {A} (told0 : list HostEntry) (h : Host A) : Prop :=
  _cursorPending (engine h) = true ∧ (∀ t, pending h !! t ≠ Some CursorTimer) ∧
  ∃ t, told h = t ++ told0 ∧ Forall (λ x, harmless x = true) t.

Section frozen.
Context `{C : SubtleCrypto} {A : Type} `{!SyncAdapter A} `{P : Platform} (random_iv : nat → list N).
Context (told0 : list HostEntry).
Abbreviation FROZEN := (keeps (λ w : World (Host A), frozen told0 (app w))).

Lemma frozen_frame (h h' : Host A) : loop_view h' = loop_view h → frozen told0 h → frozen told0 h'.
Proof. unfold loop_view, timer_view, frozen. intros [= E1 E2 E3 E4 E5 _ E6 _ _]. by rewrite E1, E5, E6. Qed.

Lemma frozen_told x (h : Host A) :
  harmless x = true → frozen told0 h → frozen told0 (h <| told := x :: told h |>).
Proof.
  intros Hx (Hp & Hn & t & Ht & Hl). split_and!; try done. exists (x :: t). cbn. rewrite Ht.
  split; [done|by constructor].
Qed.

Lemma frozen_delete t (h : Host A) : frozen told0 h → frozen told0 (h <| pending := delete t (pending h) |>).
Proof. intros (Hp & Hn & Ht). split_and!; try done. cbn. intros t' [_ Hk]%lookup_delete_Some. by edestruct Hn. Qed.

Lemma frozen_clear : FROZEN _clearTimers.
Proof.
  intros w (Hp & Hn & t & Ht & Hl). destruct (clearTimers_result w) as (_ & Hs & _ & t' & Ht' & Hl').
  destruct Hs as (_ & _ & _ & _ & _ & _ & _ & _ & _ & _ & Ec). rewrite <-Ec in Hp. split; [done|]. split.
  - intros t0 H0. apply (Hn t0). revert H0. eunfold.
    destruct (_debounceTimer (engine (app w))) as [[|d]|] eqn:Ed, (_cursorTimer (engine (app w))) as [[|c]|] eqn:Ecu; cbn.
    all: rewrite ?Ed, ?Ecu; cbn; rewrite ?Ed, ?Ecu; cbn; rewrite ?lookup_delete_Some; tauto.
  - exists (t' ++ t). rewrite Ht', Ht, app_assoc. split; [done|]. apply Forall_app. split; [|done].
    eapply Forall_impl; [exact Hl'|]. by intros ? [? ->].
Qed.

Lemma frozen_local : FROZEN notifyLocalChange.
Proof.
  intros w Hw. unfold notifyLocalChange. eunfold.
  destruct (_debounceTimer (engine (app w))) as [d|]; cbn.
  - destruct (frozen_delete d _ Hw) as (Hp & Hn & t & Ht & Hl). split_and!; cbn in *; try done.
    + intros t'. rewrite lookup_insert_Some. intros [[_ [=]]|[_ Hk]]. by edestruct Hn.
    + eexists (_ :: _ :: t). rewrite Ht. split; [done|]. by repeat constructor.
  - destruct Hw as (Hp & Hn & t & Ht & Hl). split_and!; cbn in *; try done.
    + intros t'. rewrite lookup_insert_Some. intros [[_ [=]]|[_ Hk]]. by edestruct Hn.
    + eexists (_ :: t). rewrite Ht. split; [done|]. by constructor.
Qed.

Lemma frozen_cursor_move : FROZEN notifyCursorMove.
Proof.
  intros w Hw. unfold notifyCursorMove. eunfold. destruct (negb _); [done|].
  destruct Hw as (Hp & Hw). by rewrite Hp.
Qed.

Lemma frozen_emit x : FROZEN (emit x).
Proof.
  intros w (Hp & Hn & t & Ht & Hl). rewrite emit_tells. split_and!; try done.
  eexists (_ ++ t). cbn. rewrite Ht, app_assoc. split; [done|]. apply Forall_app. split; [|done].
  apply Forall_forall. intros y Hy. unfold heard in Hy. rewrite elem_of_reverse in Hy.
  by apply list_elem_of_fmap in Hy as (fn & -> & _).
Qed.

Lemma frozen_emitter f : FROZEN (mod_e (λ e, e <| emitter := f (emitter e) |>)).
Proof. intros w Hw. exact Hw. Qed.

#[export] Instance frozen_turns : HostTurns (frozen told0).
Proof.
  split.
  - apply frozen_frame.
  - intros a c h Hc. apply frozen_told. by destruct c.
  - intros k w Hw. exact Hw.
  - intros k h Hh. exact Hh.
  - apply frozen_emit.
  - apply frozen_clear.
  - apply frozen_local.
  - apply frozen_cursor_move.
  - intros t w' (_ & Hn & _) Ht. by edestruct Hn.
  - intros t h Hh _. by apply frozen_delete.
  - apply (frozen_emitter removeAllListeners).
Qed.

Lemma frozen_run ins (w : World (Host A)) :
  frozen told0 (app w) → frozen told0 (app (engine_run random_iv ins w)).
Proof.
  apply (host_engine_run random_iv (frozen told0)).
  apply Forall_forall. intros i _ Hi. destruct i; try done; apply frozen_emitter.
Qed.
End frozen.

Section freeze.
Context `{C : SubtleCrypto} {A : Type} `{!SyncAdapter A} `{P : Platform} (random_iv : nat → list N).

(** Clearing the timers of an engine with a cursor timer under way. *)
Lemma clear_freezes (w : World (Host A)) :
  timers_ok (app w) → _cursorPending (engine (app w)) = true →
  frozen (told (app w)) (app (_clearTimers w).2).
Proof.
  intros Hw Hp. destruct (clearTimers_result w) as (_ & Hs & _ & t' & Ht' & Hl').
  destruct Hs as (_ & _ & _ & _ & _ & _ & _ & _ & _ & _ & Ec). split; [congruence|]. split.
  - intros t Ht. destruct (timers_clear w Hw) as [Hh _ _ Hcur].
    specialize (Hh t (mk_is_Some _ _ Ht)). destruct (Hcur t Ht) as [Hcur' _].
    assert (_cursorTimer (engine (app (_clearTimers w).2)) = None ∨
            _cursorTimer (engine (app (_clearTimers w).2)) = Some 0%nat) as [E|E]; [|congruence|].
    + eunfold. destruct (_debounceTimer (engine (app w))) as [[|d]|] eqn:Ed,
        (_cursorTimer (engine (app w))) as [[|c]|] eqn:Ecu; cbn.
      all: rewrite ?Ed, ?Ecu; cbn; rewrite ?Ed, ?Ecu; cbn; auto.
    + rewrite E in Hcur'. injection Hcur' as <-. lia.
  - exists t'. rewrite Ht'. split; [done|]. eapply Forall_impl; [exact Hl'|]. by intros ? [? ->].
Qed.
End freeze.

Section freeze_on_close.
Context `{C : SubtleCrypto} {A : Type} `{!SyncAdapter A} `{P : Platform} (random_iv : nat → list N).
Abbreviation ecb := (engine_cb random_iv (A := A)).

Lemma reset_freezes (w : World (Host A)) :
  timers_ok (app w) → _cursorPending (engine (app w)) = true →
  frozen (told (app w)) (app (_resetState w).2).
Proof.
  intros Hw Hp. pose proof (clear_freezes w Hw Hp) as Hf. destruct (clearTimers_result w) as (E1 & _).
  unfold _resetState, mbind, M_bind. destruct (_clearTimers w) as [r w1]. cbn in E1, Hf. subst r.
  unfold mod_e, modh, modify. rewrite updateState_tells.
  destruct Hf as (Hp' & Hn & t & Ht & Hl). split_and!; try done.
  eexists (_ ++ t). cbn. rewrite Ht, app_assoc. split; [done|]. apply Forall_app. split; [|done].
  apply Forall_forall. intros y Hy. unfold heard in Hy. rewrite elem_of_reverse in Hy.
  by apply list_elem_of_fmap in Hy as (fn & -> & _).
Qed.

Lemma close_freezes c e h l s ps :
  timers_ok h → _cursorPending (engine h) = true → wired (engine h) = Some ps →
  grpc c = Some s → _isConnected c = true →
  frozen (told h) (app (exec ecb (IClose s) (mkWorld c e h l)).2).
Proof.
  intros Hh Hp Hw Hg Hc.
  change (wp (onClose ecb s) (λ _ w, frozen (told h) (app w)) (mkWorld c e h l)).
  unfold onClose, set_status, handleConnectionClosed. do 4 wp_step.
  apply wp_when; intros E; [|by apply bool_decide_eq_false in E].
  do 5 wp_step. apply wp_when; intros E'; [|congruence].
  unfold call. do 2 wp_step. unfold wp, engine_cb, gete, gets, mbind, M_bind. cbn -[_resetState scheduleReconnect].
  rewrite Hw. match goal with |- context [_resetState ?w0] =>
    pose proof (reset_freezes w0 Hh Hp) as Hf; destruct (resetState_result w0) as (E1 & _);
    destruct (_resetState w0) as [r w1] end.
  cbn in E1, Hf. subst r. cbn -[scheduleReconnect].
  match goal with |- frozen _ (app (?m ?w0).2) =>
    cut (keeps (λ w : World (Host A), frozen (told h) (app w)) m); [intros Hk; by apply Hk|] end.
  apply keeps_when. apply app_scheduleReconnect. intros x. by apply host_engine_cb, frozen_turns.
Qed.
End freeze_on_close.

(** ** An engine without listeners *)

Definition silent `{C : SubtleCrypto} {A} (told0 : list HostEntry) (h : Host A) : Prop :=
  listeners (emitter (engine h)) = [] ∧
  ∃ t, told h = t ++ told0 ∧ Forall (λ x, is_heard x = false) t.

Section silent.
Context `{C : SubtleCrypto} {A : Type} `{!SyncAdapter A} `{P : Platform} (random_iv : nat → list N).
Context (told0 : list HostEntry).
Abbreviation SILENT := (keeps (λ w : World (Host A), silent told0 (app w))).

Lemma silent_frame (h h' : Host A) : loop_view h' = loop_view h → silent told0 h → silent told0 h'.
Proof. unfold loop_view, timer_view, silent. intros [= E1 E2 E3 E4 E5 E6 E7 _ _]. by rewrite E6, E7. Qed.

Lemma silent_tell x : is_heard x = false → SILENT (tell x).
Proof.
  intros Hx w (Hl & t & Ht & Hf). split; [done|]. exists (x :: t). cbn. rewrite Ht.
  split; [done|by constructor].
Qed.

(** Changes of the host that leave listeners and what was told alone. *)
Lemma silent_modh (f : Host A → Host A) :
  (∀ h, listeners (emitter (engine (f h))) = listeners (emitter (engine h)) ∧ told (f h) = told h) →
  SILENT (modh f).
Proof. intros Hf w [Hl Ht]. destruct (Hf (app w)) as [E1 E2]. split; cbn; [by rewrite E1|by rewrite E2]. Qed.

Lemma silent_emit x : SILENT (emit x).
Proof.
  intros w [Hl Ht]. rewrite emit_tells. unfold subscribed. rewrite Hl. cbn. by split.
Qed.

Hint Resolve silent_emit : keeps.
Hint Extern 1 (keeps _ gete) => (apply keeps_gets) : keeps.
Hint Extern 1 (keeps _ host) => (apply keeps_gets) : keeps.
Hint Extern 1 (keeps _ (modh _)) => (apply silent_modh; intros ?; done) : keeps.
Hint Extern 1 (keeps _ (mod_e _)) => (apply silent_modh; intros ?; done) : keeps.
Hint Extern 1 (keeps _ (tell _)) => (apply silent_tell; done) : keeps.
Ltac go := repeat keeps_step.

Lemma silent_clear : SILENT _clearTimers.
Proof. unfold _clearTimers, clearTimeout. go. Qed.
Lemma silent_local : SILENT notifyLocalChange.
Proof. unfold notifyLocalChange, clearTimeout, setTimeout. go. Qed.
Lemma silent_cursor_move : SILENT notifyCursorMove.
Proof. unfold notifyCursorMove, setTimeout. go. Qed.
Lemma silent_fire : SILENT cursorTimerFired.
Proof.
  unfold cursorTimerFired, adapter_call. repeat (keeps_step || apply host_client_send).
Qed.

Lemma silent_off event fn : SILENT (mod_e (λ e, e <| emitter := off event fn (emitter e) |>)).
Proof.
  apply silent_modh. intros h. split; [|done]. cbn. unfold off. by destruct (map_get _ _).
Qed.

(** The last step of a [dispose]. *)
Lemma removeAll_silences (w : World (Host A)) :
  listeners (emitter (engine (app (mod_e (λ e, e <| emitter := removeAllListeners (emitter e) |>) w).2))) = [].
Proof. done. Qed.

Definition is_on (i : EngineInput (C := C)) : bool := match i with EOn _ _ => true | _ => false end.

#[export] Instance silent_turns : HostTurns (silent told0).
Proof.
  split.
  - apply silent_frame.
  - intros a c h _. apply (silent_tell (Called a c) eq_refl (mkWorld (new_client default_options) empty_env h [])).
  - intros k w Hw. exact Hw.
  - intros k h Hh. exact Hh.
  - apply silent_emit.
  - apply silent_clear.
  - apply silent_local.
  - apply silent_cursor_move.
  - intros t w' Hw' _. by apply silent_fire.
  - intros t h Hh _. exact Hh.
  - intros w' [_ Hw']. by split.
Qed.

Lemma silent_run ins (w : World (Host A)) :
  forallb (negb ∘ is_on) ins = true → silent told0 (app w) → silent told0 (app (engine_run random_iv ins w)).
Proof.
  intros Hins. apply (host_engine_run random_iv (silent told0)).
  apply Forall_forall. intros i Hi. rewrite forallb_forall in Hins.
  specialize (Hins i). rewrite <-list_elem_of_In in Hins. specialize (Hins Hi).
  destruct i; try done. intros _. apply silent_off.
Qed.
End silent.

(** ** The engine over its client *)

(** When the application may call the engine: as for the client, [connect]
    while connected (which throws) or with nothing under way. *)
Definition engine_orderly `{C : SubtleCrypto} `{P : Platform} {A} (w : World (Host A)) (i : EngineInput (C := C)) : Prop :=
  match i with
  | EClient i => orderly w i
  | EConnect _ _ => connect_ready (client w) (env w)
  | _ => True
  end.

(** A page with a client and an engine, and adapters in state. *)
Definition new_host `{C : SubtleCrypto} {A} (e : CollabEngine) (adapters : gmap nat A) : Host A :=
  mkHost e adapters ∅ 1 ∅ 0 0 0 [].

Inductive engine_reachable `{C : SubtleCrypto} `{P : Platform} {A} `{!SyncAdapter A} (random_iv : nat → list N)
    (o : CollabClientOptions) (h : Host A) : World (Host A) → Prop :=
  | engine_start : engine_reachable random_iv o h (new_world o h)
  | engine_turn w i : engine_reachable random_iv o h w → engine_orderly w i →
      engine_reachable random_iv o h (engine_run1 random_iv i w).

Section over_client.
Context `{C : SubtleCrypto} {A : Type} `{!SyncAdapter A} `{P : Platform} (random_iv : nat → list N).
Abbreviation ecb := (engine_cb random_iv (A := A)).
Abbreviation INV := (keeps (invariant (H := Host A) ecb)).

(** The invariant does not look at the host. *)
Lemma inv_modh f : INV (modh f).
Proof. by intros w Hw. Qed.

Lemma inv_own {X} (m : M (World (Host A)) X) : (∀ w0, keeps (since w0) m) → INV m.
Proof.
  intros Hm w Hw. destruct (Hm w w) as (Ec & Ee & l & El & Hl); [split_and!; [done..|by exists []]|].
  unfold invariant. rewrite Ec, Ee, El. eapply Inv_log; [|done]. by rewrite conn_state_sends.
Qed.

Lemma inv_disconnect : INV (disconnect random_iv).
Proof. intros [c e h l] Hw. by apply (wp_disconnect ecb). Qed.

Lemma inv_engine_exec i w :
  invariant ecb w → engine_orderly w i → invariant ecb (engine_exec random_iv i w).2.
Proof.
  intros Hw Ho. destruct (own_turn i) eqn:Hi.
  { by apply (inv_own _ (λ w0, since_own_turn random_iv w0 i Hi)). }
  destruct i; try done; cbn [engine_exec].
  - exact (invariant_step ecb i w Hw Ho).
  - unfold connect, _wireClient, mod_e, modh, modify. unfold mbind, M_bind. rewrite updateState_tells.
    destruct w as [c e h l]. by apply (wp_connect ecb).
  - by apply inv_disconnect.
  - assert (INV (dispose random_iv)) as Hd; [|by apply Hd].
    unfold dispose. repeat first [keeps_step | apply keeps_gets | apply inv_disconnect | apply inv_modh].
    apply inv_own. apply since_clear.
Qed.

Lemma engine_reachable_invariant o h w :
  engine_reachable random_iv o h w → invariant ecb w.
Proof. induction 1 as [|w i _ IH Ho]; [apply invariant_new|by apply inv_engine_exec]. Qed.
End over_client.

(** ** A concrete page

    A notepad edited on a page with one engine: the toy cipher, sockets that
    refuse to send unless open, and a listener, function 7, of state changes. *)

#[export] Instance notepad : SyncAdapter jsstr := {|
  computeOutgoing := s ← gets id; mret (Some (Out_textUpdate (mkTextUpdateJson (Some s) (Some 1) (Some 0))));
  applyRemote _ p := match p with Remote_text text _ _ => modify (λ _, text) | Remote_elements _ => mret tt end;
  getSceneSnapshot := gets id;
  applySceneInit payload := modify (λ _, payload);
  getCursorData := mret (Some (mkCursorData NaN Infinity None None None));
  applyRemoteCursor _ := mret tt;
  removePeerCursor _ := mret tt
|}.

Definition sample_iv (_ : nat) : list N := replicate 12 9%N.

Definition sample_params : ConnectParams :=
  mkConnectParams (js "ws://relay.example") (js "r") (js "Ada") [] None None None None None.

Abbreviation sample_host :=
  (new_host (C := toy_crypto) (A := jsstr) (new_engine (Some 0%nat) None None) {[ 0%nat := js "abc" ]}).

Definition engine_joining : list (EngineInput (C := toy_crypto)) :=
  [ EOn stateChange 7; EConnect sample_params (js "x1"); EClient (IOpened 0); EClient (IConnectResolved 0);
    EClient (IMessage 0 sample_joined) ].

Abbreviation sample_page ins :=
  (engine_run (P := node_platform) (C := toy_crypto) sample_iv ins (new_world default_options sample_host)).

(** Every turn of [ins], from [w] on, is orderly. *)
Fixpoint engine_orderly_run `{C : SubtleCrypto} `{P : Platform} {A} `{!SyncAdapter A} (random_iv : nat → list N)
    (ins : list EngineInput) (w : World (Host A)) : Prop :=
  match ins with
  | [] => True
  | i :: ins' => engine_orderly w i ∧ engine_orderly_run random_iv ins' (engine_run1 random_iv i w)
  end.

Lemma engine_reachable_run `{C : SubtleCrypto} `{P : Platform} {A} `{!SyncAdapter A} (random_iv : nat → list N) o h ins w :
  engine_reachable random_iv o h w → engine_orderly_run random_iv ins w →
  engine_reachable random_iv o h (engine_run random_iv ins w).
Proof.
  revert w. induction ins as [|i ins IH]; intros w Hw Ho; [done|].
  destruct Ho as [Hi Ho]. by apply (IH (engine_run1 random_iv i w)); [apply engine_turn|].
Qed.

Lemma sample_engine_reachable :
  engine_reachable (P := node_platform) sample_iv default_options sample_host (sample_page engine_joining).
Proof.
  apply engine_reachable_run; [constructor|]. repeat (split; [first [done | by right | by vm_compute]|]). done.
Qed.

(** ** Properties *)

(** the client keeps its promises under the engine: in every orderly run of
    an engine over its client, whatever adapters and listeners do, connects
    and disconnects come in turn, at most one thing is under way, and a
    connected client has an open socket. *)
Theorem engine_inherits_client `{C : SubtleCrypto} {A : Type} `{!SyncAdapter A} `{P : Platform}
    (random_iv : nat → list N) (o : CollabClientOptions) (h : Host A) (w : World (Host A)) :
  engine_reachable random_iv o h w →
  conn_state (log w) = Some (_isConnected (client w)) ∧ (activities (client w) (env w) ≤ 1)%nat ∧
  (_isConnected (client w) = true → ∃ s, grpc (client w) = Some s ∧ sockets (env w) !! s = Some (Open true)).
Proof. intros Hw. by destruct (engine_reachable_invariant random_iv o h w Hw). Qed.

(** C3: the engine follows its client. In every run, orderly or not, the
    engine is in phase [connected] only while the client is connected, and
    then its [clientId] is the client's. *)
Theorem phase_follows_connection `{C : SubtleCrypto} {A : Type} `{!SyncAdapter A} `{P : Platform}
    (random_iv : nat → list N) (o : CollabClientOptions) (adapter : option nat) (d t : option Z)
    (adapters : gmap nat A) (ins : list EngineInput) :
  let w := engine_run random_iv ins (new_world o (new_host (new_engine adapter d t) adapters)) in
  phase (_state (engine (app w))) = connected →
  _isConnected (client w) = true ∧ clientId (_state (engine (app w))) = _clientId (client w).
Proof.
  intros w Hp. assert (agree w) as Hw; [|by destruct (Hw Hp)].
  apply agree_run. by apply agree_not_connected.
Qed.

(** timers coalesce. In every run of an engine at most one debounce timer
    and at most one cursor timer are pending, so a burst of local changes
    sends one update; and after [notifyLocalChange] exactly one debounce timer
    is, the one just set. *)
Theorem timers_coalesce `{C : SubtleCrypto} {A : Type} `{!SyncAdapter A} `{P : Platform}
    (random_iv : nat → list N) (o : CollabClientOptions) (adapter : option nat) (d t : option Z)
    (adapters : gmap nat A) (ins : list EngineInput) :
  let w := engine_run random_iv ins (new_world o (new_host (new_engine adapter d t) adapters)) in
  let w' := engine_run1 random_iv ENotifyLocalChange w in
  (∀ k t t', pending (app w) !! t = Some k → pending (app w) !! t' = Some k → t = t') ∧
  (∀ t, pending (app w') !! t = Some DebounceTimer ↔ t = nextHandle (app w)).
Proof.
  intros w w'. assert (timers_ok (app w)) as Hw.
  { apply timers_run. split; cbn; try lia; intros t'; rewrite lookup_empty; [by intros []|done..]. }
  assert (timers_ok (app w')) as [_ _ Hd' _] by by apply timers_local.
  assert (_debounceTimer (engine (app w')) = Some (nextHandle (app w)) ∧
          pending (app w') !! nextHandle (app w) = Some DebounceTimer) as [E1 E2].
  { unfold w', engine_run1, engine_exec, notifyLocalChange. eunfold.
    destruct (_debounceTimer (engine (app w))); cbn; by rewrite lookup_insert_eq. }
  split.
  - destruct Hw as [_ _ Hd Hc]. intros [] t1 t2 H1 H2.
    + apply Hd in H1, H2. congruence.
    + destruct (Hc _ H1), (Hc _ H2). congruence.
  - intros t'. split; [|by intros ->]. intros Ht'. apply Hd' in Ht'. congruence.
Qed.

(** cursor sharing does not survive a connection that drops at the wrong
    moment: if it closes while a cursor timer is under way, the engine never
    again reads a cursor from an adapter or sets a cursor timer, whatever
    happens later, reconnects included. *)
Theorem cursor_updates_freeze `{C : SubtleCrypto} {A : Type} `{!SyncAdapter A} `{P : Platform}
    (random_iv : nat → list N) (o : CollabClientOptions) (adapter : option nat) (d t : option Z)
    (adapters : gmap nat A) (before after : list EngineInput) (timer s : nat) (ps : ConnectParams) :
  let w := engine_run random_iv before (new_world o (new_host (new_engine adapter d t) adapters)) in
  pending (app w) !! timer = Some CursorTimer → wired (engine (app w)) = Some ps →
  grpc (client w) = Some s → _isConnected (client w) = true →
  frozen (told (app w)) (app (engine_run random_iv (EClient (IClose s) :: after) w)).
Proof.
  intros w Ht Hps Hg Hc. assert (timers_ok (app w)) as Hw.
  { apply timers_run. split; cbn; try lia; intros t'; rewrite lookup_empty; [by intros []|done..]. }
  destruct (tm_cursor _ Hw timer Ht) as [_ Hp]. clearbody w. destruct w as [c e h l].
  apply (frozen_run random_iv (told h) after). by eapply close_freezes.
Qed.

(** [dispose] silences an engine: once it returned, and until someone
    subscribes again, no listener is told anything, whatever happens. *)
Theorem dispose_silences `{C : SubtleCrypto} {A : Type} `{!SyncAdapter A} `{P : Platform}
    (random_iv : nat → list N) (w : World (Host A)) (ins : list EngineInput) :
  (engine_exec random_iv EDispose w).1 = Ok tt → forallb (negb ∘ is_on) ins = true →
  let w' := engine_run1 random_iv EDispose w in
  silent (told (app w')) (app (engine_run random_iv ins w')).
Proof.
  intros Hok Hins w'. apply silent_run; [done|]. split; [|by exists []].
  unfold w', engine_run1. revert Hok. cbn [engine_exec]. unfold dispose.
  intros Hok.
  do 4 (apply bind_returns in Hok as (? & _ & Hok & ->)). apply removeAll_silences.
Qed.

(** ** Witnesses *)

Lemma engine_inherits_client_witness :
  conn_state (log (sample_page engine_joining)) = Some true.
Proof.
  destruct (engine_inherits_client (P := node_platform) sample_iv default_options sample_host
              (sample_page engine_joining) sample_engine_reachable) as [E _].
  rewrite E. by vm_compute.
Defined.

Lemma phase_follows_connection_witness :
  phase (_state (engine (app (sample_page engine_joining)))) = connected ∧
  _isConnected (client (sample_page engine_joining)) = true.
Proof.
  assert (phase (_state (engine (app (sample_page engine_joining)))) = connected) as Hp by by vm_compute.
  split; [exact Hp|].
  refine (proj1 _). apply (phase_follows_connection (P := node_platform) (C := toy_crypto) sample_iv default_options (Some 0%nat) None None
           {[ 0%nat := js "abc" ]} engine_joining Hp).
Defined.

Lemma cursor_updates_freeze_witness :
  let before := engine_joining ++ [ENotifyCursorMove] in
  frozen (told (app (sample_page before)))
    (app (engine_run (P := node_platform) sample_iv [EClient (IClose 0); EConnect sample_params (js "x2")]
            (sample_page before))).
Proof.
  apply (cursor_updates_freeze (P := node_platform) (C := toy_crypto) sample_iv default_options (Some 0%nat) None None
           {[ 0%nat := js "abc" ]} (engine_joining ++ [ENotifyCursorMove]) [EConnect sample_params (js "x2")]
           1 0 sample_params); by vm_compute.
Defined.

Lemma dispose_silences_witness :
  let w' := engine_run1 (P := node_platform) sample_iv EDispose (sample_page engine_joining) in
  silent (told (app w')) (app (engine_run (P := node_platform) sample_iv [EConnect sample_params (js "x2")] w')).
Proof. apply (dispose_silences (P := node_platform)); by vm_compute. Defined.
