(* ===== verification/EngineSync.v ===== *)
(** * Synchronisation between engines ([ts/src/CollabEngine.ts])

    What the engine's handlers make of its state, who answers a request for
    the scene, what encryption carries from one engine to another, and what
    goes wrong when a room is joined, when credentials change and when an
    engine is disposed while its client waits to reconnect. *)

From S2P Require Import Prelude.
From S2P Require Import JsText.
From S2P Require Import JsMap.
From S2P Require Import Models.
From S2P Require Import Crypto.
From S2P Require Import CollabClient.
From S2P Require Import ClientInvariants.
From S2P Require Import EventEmitter.
From S2P Require Import SyncAdapter.
From S2P Require Import CollabEngine.
From S2P Require Import EngineInvariants.
From S2P Require Import EngineProperties.
Open Scope Z_scope.

(** ** The order of client ids *)

Lemma js_le_refl a : js_le a a = true.
Proof. induction a as [|x a IH]; [done|]. simpl. by rewrite N.eqb_refl, IH, orb_true_r. Qed.

Lemma js_le_cons x a y b :
  js_le (x :: a) (y :: b) = true ↔ (x < y)%N ∨ x = y ∧ js_le a b = true.
Proof. simpl. rewrite orb_true_iff, andb_true_iff, N.ltb_lt, N.eqb_eq. done. Qed.

Lemma js_le_trans a b c : js_le a b = true → js_le b c = true → js_le a c = true.
Proof.
  revert b c. induction a as [|x a IH]; intros [|y b] [|z c]; try done.
  rewrite !js_le_cons. intros [?|[-> ?]] [?|[-> ?]]; [left; lia|by left..|right; split; [done|by eapply IH]].
Qed.

Lemma js_le_antisymm a b : js_le a b = true → js_le b a = true → a = b.
Proof.
  revert b. induction a as [|x a IH]; intros [|y b]; try done.
  rewrite !js_le_cons. intros [?|[-> ?]] [?|[E ?]]; try lia. f_equal. by apply IH.
Qed.

Lemma js_le_total a b : js_le a b = true ∨ js_le b a = true.
Proof.
  revert b. induction a as [|x a IH]; intros [|y b]; [by left..|by right|].
  rewrite !js_le_cons. destruct (N.lt_trichotomy x y) as [?|[->|?]]; [by left; left| |by right; left].
  destruct (IH b); [left|right]; by right.
Qed.

Abbreviation JS_LE := (λ a b, Is_true (js_le a b)).

#[export] Instance js_le_Transitive : Transitive JS_LE.
Proof. intros a b c ?%Is_true_true ?%Is_true_true. apply Is_true_true. by eapply js_le_trans. Qed.

#[export] Instance js_le_Total : Total JS_LE.
Proof. intros a b. destruct (js_le_total a b) as [H|H]; [left|right]; by rewrite H. Qed.

(** The first of the sorted ids is the least of them. *)
Lemma js_sort_first l a l' :
  js_sort l = a :: l' → a ∈ l ∧ ∀ b, b ∈ l → js_le a b = true.
Proof.
  intros E. pose proof (merge_sort_Permutation JS_LE l) as Hp.
  pose proof (StronglySorted_merge_sort JS_LE l) as Hs.
  change (merge_sort _ l) with (js_sort l) in Hp, Hs. rewrite E in Hp, Hs.
  split; [rewrite <-Hp; by left|]. intros b. rewrite <-Hp, elem_of_cons.
  apply StronglySorted_inv in Hs as [_ Ha]. rewrite Forall_forall in Ha.
  intros [->|Hb]; [by apply js_le_refl|]. by apply Is_true_true, Ha.
Qed.

Lemma js_sort_nil l : js_sort l = [] → l = [].
Proof.
  intros E. pose proof (merge_sort_Permutation JS_LE l) as Hp. change (merge_sort _ l) with (js_sort l) in Hp.
  rewrite E in Hp. symmetry. by apply Permutation_nil_l.
Qed.

(** ** Who answers a scene request *)

(** An engine that does not own the room answers exactly when its own id is
    the least in its roster, the requester's aside. *)
Lemma shouldRespond_least s from :
  shouldRespond s from = true ↔
  isOwner s = true ∨
  (clientId s ≠ [] ∧ clientId s ≠ from ∧ clientId s ∈ map_keys (st_peers s) ∧
   ∀ id, id ∈ map_keys (st_peers s) → id ≠ from → js_le (clientId s) id = true).
Proof.
  unfold shouldRespond. rewrite orb_true_iff. apply or_iff_compat_l.
  destruct (truthy (clientId s)) eqn:Et; simpl.
  2: { split; [done|]. intros [Hn%truthy_spec _]. congruence. }
  apply truthy_spec in Et.
  destruct (js_sort _) as [|a l'] eqn:Es.
  - apply js_sort_nil in Es. split; [done|]. intros (_ & Hf & Hi & _). exfalso.
    eapply (not_elem_of_nil (clientId s)). rewrite <-Es. by apply list_elem_of_filter.
  - apply js_sort_first in Es as [Ha Hl]. apply list_elem_of_filter in Ha as [Ha1 Ha2].
    rewrite bool_decide_eq_true. split.
    + intros ->. split_and!; [done..|]. intros id Hi Hn. by apply Hl, list_elem_of_filter.
    + intros (_ & Hf & Hi & Hmin). apply js_le_antisymm; [|by apply Hmin].
      by apply Hl, list_elem_of_filter.
Qed.

(** The least of some ids, not counting one. *)
Lemma least_exists (l : list jsstr) (from a : jsstr) :
  a ∈ l → a ≠ from →
  ∃ m, m ∈ l ∧ m ≠ from ∧ ∀ id, id ∈ l → id ≠ from → js_le m id = true.
Proof.
  intros Ha Hn. destruct (js_sort (filter (λ id, id ≠ from) l)) as [|m l'] eqn:E.
  - apply js_sort_nil in E. exfalso. apply (not_elem_of_nil a). rewrite <-E. by apply list_elem_of_filter.
  - apply js_sort_first in E as [[Hm1 Hm2]%list_elem_of_filter Hmin]. exists m. split_and!; [done..|].
    intros id Hi Hf. by apply Hmin, list_elem_of_filter.
Qed.

(** ** Properties *)

(** in a room whose engines agree on who is in it, some engine other than
    the requester's is chosen, and exactly that one and the owner's answer a
    request for the scene. *)
Theorem scene_request_responders (room : list CollabEngineState) (from : jsstr) (s0 : CollabEngineState) :
  NoDup (clientId <$> room) →
  (∀ s, s ∈ room → clientId s ≠ [] ∧ ∀ id, id ∈ map_keys (st_peers s) ↔ id ∈ clientId <$> room) →
  s0 ∈ room → clientId s0 ≠ from →
  ∃ s1, s1 ∈ room ∧ clientId s1 ≠ from ∧
        ∀ s, s ∈ room → (shouldRespond s from = true ↔ isOwner s = true ∨ s = s1).
Proof.
  intros Hnd Hroom H0 Hn. destruct (least_exists (clientId <$> room) from (clientId s0)) as (m & Hm & Hf & Hmin).
  { by apply list_elem_of_fmap_2. }
  { done. }
  apply list_elem_of_fmap in Hm as (s1 & -> & H1). exists s1. split_and!; [done..|].
  intros s Hs. rewrite shouldRespond_least. apply or_iff_compat_l.
  destruct (Hroom s Hs) as [Hid Hpeers]. split.
  - intros (_ & Hsf & _ & Hsmin).
    apply (inj_on_NoDup clientId room s s1 Hnd Hs H1), js_le_antisymm.
    + apply Hsmin; [|done]. apply Hpeers. by apply list_elem_of_fmap_2.
    + apply Hmin; [|done]. by apply list_elem_of_fmap_2.
  - intros ->. split_and!; [done..| |].
    + apply Hpeers. by apply list_elem_of_fmap_2.
    + intros id Hi. apply Hmin. by apply Hpeers.
Qed.

Section joining.
Context `{C : SubtleCrypto} {A : Type} `{!SyncAdapter A} `{P : Platform} (random_iv : nat → list N).
Abbreviation ecb := (engine_cb random_iv (A := A)).
Context (log0 : list Entry).

(** An engine that takes its scene for complete, and sent nothing for it. *)
Definition settled (w : World (Host A)) : Prop :=
  isInitialized (_state (engine (app w))) = true ∧
  ∃ l, log w = l ++ log0 ∧ Forall (λ x, ¬ is_send x) l.

Abbreviation SETTLED := (keeps settled).

Lemma settled_modc f : SETTLED (modc f).
Proof. by intros w Hw. Qed.
Lemma settled_updateState f : (∀ s, isInitialized s = true → isInitialized (f s) = true) → SETTLED (_updateState f).
Proof. intros Hf w [Hi Hl]. rewrite updateState_tells. split; [by apply Hf|exact Hl]. Qed.
Lemma settled_emit x : SETTLED (emit x).
Proof. intros w Hw. by rewrite emit_tells. Qed.
Lemma settled_gete : SETTLED gete.
Proof. apply keeps_gets. Qed.
Lemma settled_record c : SETTLED (record (Cb c)).
Proof.
  intros w (Hi & l & Hl & Hq). split; [done|]. exists (Cb c :: l). cbn. rewrite Hl. split; [done|].
  by constructor; [intros []|].
Qed.
Hint Resolve settled_modc settled_emit settled_gete settled_record : keeps.
Hint Extern 1 (keeps _ (_updateState _)) => (apply settled_updateState; intros ?; done) : keeps.

Lemma settled_handleRoomJoined rj : SETTLED (handleRoomJoined ecb rj).
Proof. unfold handleRoomJoined, addPeer, call, engine_cb, onPeerJoined. repeat keeps_step. Qed.

(** The event comes before anyone is in the roster. *)
Lemma settled_onEvent ev rj params a (w : World (Host A)) :
  CollabEvent_event ev = ev_roomJoined rj → wired (engine (app w)) = Some params →
  _adapter (engine (app w)) = Some a → (map_size (st_peers (_state (engine (app w)))) ≤ 1)%nat →
  _initRequestSent (engine (app w)) = false →
  (∃ l, log w = l ++ log0 ∧ Forall (λ x, ¬ is_send x) l) →
  (ecb (OnEvent ev) w).1 = Ok tt ∧ settled (ecb (OnEvent ev) w).2.
Proof.
  intros He Hw Ha Hp Hr Hl. unfold engine_cb, onEvent, onRoomJoined. unfold gete at 1, gets at 1, mbind, M_bind.
  cbn -[_updateState _triggerSceneInit _handleSyncEvent]. rewrite Hw, He, updateState_tells.
  cbn -[_updateState _triggerSceneInit _handleSyncEvent]. rewrite Ha, Hr, bool_decide_true by by eexists.
  rewrite andb_true_r. unfold _handleSyncEvent, handleSyncEvent, swallow, gete, gets, mbind, M_bind.
  destruct (isInitialized (_state (engine (app w)))) eqn:Ei; cbn -[_updateState _triggerSceneInit].
  - rewrite Ha, He. done.
  - unfold _triggerSceneInit, gete, gets, mbind, M_bind. cbn -[_updateState map_size].
    rewrite (proj2 (Nat.leb_le _ _) Hp), updateState_tells. cbn. rewrite Ha, He. done.
Qed.
End joining.

(** C33: joining skips the scene. When the relay's [roomJoined] arrives at an
    engine with an adapter and no roster yet, the engine takes itself for
    alone and its scene for complete, and asks nobody for it: however many
    peers the room has, [isInitialized] is set and nothing is sent. *)
Theorem joining_skips_scene_request `{C : SubtleCrypto} {A : Type} `{!SyncAdapter A} `{P : Platform}
    (random_iv : nat → list N) (w : World (Host A)) (s a : nat) (ev : CollabEvent) (rj : RoomJoined)
    (params : ConnectParams) :
  CollabEvent_event ev = ev_roomJoined rj → wired (engine (app w)) = Some params →
  _adapter (engine (app w)) = Some a → st_peers (_state (engine (app w))) = [] →
  _initRequestSent (engine (app w)) = false →
  let w' := engine_run1 random_iv (EClient (IMessage s ev)) w in
  isInitialized (_state (engine (app w'))) = true ∧
  ∃ l, log w' = l ++ log w ∧ Forall (λ x, ¬ is_send x) l.
Proof.
  intros He Hw Ha Hp Hr w'. change (settled (log w) w').
  unfold w', engine_run1. cbn [engine_exec exec]. unfold onMessage, is_roomJoined, handleEvent, set_status, call.
  rewrite He. cbn [when]. unfold mode, modify, record. unfold mbind, M_bind.
  set (w1 := w <| env := (env w) <| sockets := <[ s := Open true ]> (sockets (env w)) |> |>
               <| log := Cb (OnEvent ev) :: log w |>).
  destruct (settled_onEvent random_iv (log w) ev rj params a w1) as [E Hs]; try done.
  { unfold w1. cbn. rewrite Hp. cbn. lia. }
  { exists [Cb (OnEvent ev)]. split; [done|]. by constructor; [intros []|]. }
  change (settled (log w) (match engine_cb random_iv (OnEvent ev) w1 with
    | (Ok _, s') => handleRoomJoined (engine_cb random_iv) rj s' | (Throw e, s') => (Throw e, s') end).2).
  destruct (engine_cb random_iv (OnEvent ev) w1) as [r w2]. cbn in E, Hs. subst r.
  by apply (settled_handleRoomJoined random_iv (log w) rj).
Qed.

(** a change of credentials strands the engine. It reports itself
    disconnected, and asks to reconnect, while its client stays connected; a
    [connect] then throws ["Already connected"] and leaves it [connecting]. *)
Theorem credentials_change_strands `{C : SubtleCrypto} {A : Type} `{!SyncAdapter A} `{P : Platform}
    (random_iv : nat → list N) (w : World (Host A)) (s : nat) (ev : CollabEvent) (cc : CredentialsChanged)
    (params params' : ConnectParams) (rnd : jsstr) :
  CollabEvent_event ev = ev_credentialsChanged cc → wired (engine (app w)) = Some params →
  _isConnected (client w) = true →
  let w1 := engine_run1 random_iv (EClient (IMessage s ev)) w in
  let w2 := engine_exec random_iv (EConnect params' rnd) w1 in
  client w1 = client w ∧
  _state (engine (app w1)) = INITIAL_STATE <| error := Some (credentialsMessage (CredentialsChanged_reason cc)) |> ∧
  w2.1 = Throw (Error (js "Already connected")) ∧ client w2.2 = client w ∧
  phase (_state (engine (app w2.2))) = connecting.
Proof.
  intros He Hw Hc. cbv zeta. set (w1 := engine_run1 _ _ _).
  assert (client w1 = client w ∧
    _state (engine (app w1)) = INITIAL_STATE <| error := Some (credentialsMessage (CredentialsChanged_reason cc)) |>)
    as [E1 E2].
  { unfold w1, engine_run1. cbn [engine_exec exec]. unfold onMessage, is_roomJoined, handleEvent, call. rewrite He.
    cbn [when]. unfold engine_cb, onEvent, _handleSyncEvent, handleSyncEvent, swallow, record, gete, gets, modify, mbind, M_bind.
    cbn -[onCredentialsChanged]. rewrite Hw, He. cbn -[onCredentialsChanged].
    replace (match _adapter (engine (app w)) with Some _ | _ => mret tt end) with (mret tt : M (World (Host A)) unit)
      by (by destruct (_adapter _)).
    cbn -[onCredentialsChanged]. rewrite Hw. unfold onCredentialsChanged, mbind, M_bind.
    match goal with |- context [_resetState ?w0] => destruct (resetState_result w0) as (R1 & R2 & R3);
      destruct (_resetState w0) as [r w2] end.
    cbn in R1, R2, R3. subst r. rewrite updateState_tells, emit_tells. cbn.
    destruct R2 as (-> & _). by rewrite R3. }
  clearbody w1. cbn [engine_exec]. unfold connect, _wireClient, mod_e, modh, modify, mbind, M_bind.
  rewrite updateState_tells. cbn -[CollabClient.connect]. unfold CollabClient.connect, get, gets, mbind, M_bind.
  cbn. rewrite E1, Hc. done.
Qed.

(** [dispose] does not stop a client that waits to reconnect: the engine
    of a client whose connection dropped is disconnected, and then its client,
    its timers and its sockets stay as they were, so the client reconnects. *)
Theorem dispose_leaves_reconnect `{C : SubtleCrypto} {A : Type} `{!SyncAdapter A} `{P : Platform}
    (random_iv : nat → list N) (w : World (Host A)) :
  phase (_state (engine (app w))) = disconnected →
  let w' := engine_run1 random_iv EDispose w in
  client w' = client w ∧ env w' = env w ∧ log w' = log w ∧
  listeners (emitter (engine (app w'))) = [].
Proof.
  intros Hp w'. unfold w', engine_run1. cbn [engine_exec].
  unfold dispose, mod_e, modh, modify, gete, gets, mbind, M_bind. cbn -[_clearTimers].
  rewrite bool_decide_true by exact Hp. cbn -[_clearTimers].
  match goal with |- context [_clearTimers ?w0] => destruct (clearTimers_result w0) as (R1 & (R2 & R3 & R4 & _) & _);
    destruct (_clearTimers w0) as [r w2] end.
  cbn in R1, R2, R3, R4. subst r. by cbn.
Qed.

(** ** The engine's state as a machine *)

(** What a callback of the client, other than [onEvent], makes of the
    engine's state; [up]: whether the client is connected. *)
Definition engine_next (up : bool) (c : Callback) (s : CollabEngineState) : CollabEngineState :=
  match c with
  | OnConnect id => s <| phase := connected |> <| clientId := id |> <| error := None |>
  | OnDisconnect => INITIAL_STATE <| error := error s |>
  | OnCredentialsChanged reason => INITIAL_STATE <| error := Some (credentialsMessage reason) |>
  | OnSessionEnded reason => INITIAL_STATE <| error := Some (sessionEndedMessage reason) |>
  | OnError message => s <| error := Some message |>
  | OnErrorEvent code message =>
      if up then s else s <| error := Some (code ++ js ": " ++ message) |> <| phase := disconnected |>
  | OnPeerJoined peer =>
      match PeerInfoJson_clientId peer with
      | None | Some [] => s
      | Some id => s <| st_peers := map_set id peer (st_peers s) |>
      end
  | OnPeerLeft id => s <| st_peers := map_delete id (st_peers s) |>
  | OnOwnerChanged id => s <| ownerClientId := id |> <| isOwner := bool_decide (clientId s = id) |>
  | OnTitleChanged title => s <| roomTitle := title |>
  | OnEvent _ | OnAppMessage _ _ _ _ | OnReconnecting _ => s
  end.

(** Runs an engine's handler on its state. *)
Ltac handler_step :=
  first
    [ rewrite updateState_tells | rewrite emit_tells
    | match goal with |- context [_resetState ?w0] =>
        let R1 := fresh in let R2 := fresh in let R3 := fresh in
        destruct (resetState_result w0) as (R1 & (R2 & _) & R3);
        destruct (_resetState w0) as [? ?]; cbn in R1, R2, R3; subst end ];
  cbn -[_resetState _updateState emit].

Lemma adapter_call_state `{C : SubtleCrypto} {A : Type} {X} a c (m : M A X) (w : World (Host A)) :
  _state (engine (app (adapter_call a c m w).2)) = _state (engine (app w)).
Proof.
  unfold adapter_call, tell, host, modh, gets, modify, throw, mret, mbind, M_bind, M_ret. cbn.
  destruct (adapters (app w) !! a) as [st|]; [|done]. by destruct (m st) as [[] ?].
Qed.

Lemma engine_cb_state `{C : SubtleCrypto} {A : Type} `{!SyncAdapter A} `{P : Platform}
    (random_iv : nat → list N) (w : World (Host A)) (c : Callback) (params : ConnectParams) :
  wired (engine (app w)) = Some params → (∀ ev, c ≠ OnEvent ev) →
  _state (engine (app (engine_cb random_iv c w).2)) =
    engine_next (_isConnected (client w)) c (_state (engine (app w))).
Proof.
  intros Hw Hc. unfold engine_cb, gete, gets, mbind, M_bind. cbn. rewrite Hw.
  destruct c; cbn -[_resetState _updateState emit]; try done; [by edestruct Hc|..].
  - unfold onPeerJoined, mbind, M_bind. destruct (PeerInfoJson_clientId peer) as [[|u id]|]; [done| |done].
    cbn -[_resetState _updateState emit]. by repeat handler_step.
  - unfold onPeerLeft, gete, gets, mbind, M_bind. handler_step.
    destruct (_adapter (engine (app w))) as [a|]; [|cbn -[_updateState emit]; by handler_step].
    match goal with |- context [adapter_call a ?c0 ?m ?w0] =>
      pose proof (adapter_call_state a c0 m w0) as Ha; destruct (adapter_call a c0 m w0) as [[]w1]; [|exact Ha] end.
    cbn in Ha. handler_step. exact Ha.
  - by handler_step.
  - by handler_step.
  - by repeat handler_step.
  - unfold onSessionEnded, mbind, M_bind. repeat handler_step. by rewrite H1.
  - by unfold onOwnerChanged, mbind, M_bind; repeat handler_step.
  - unfold onCredentialsChanged, mbind, M_bind. repeat handler_step. by rewrite H1.
  - by repeat handler_step.
  - unfold onErrorEvent, get, gets, mbind, M_bind. cbn -[_updateState emit].
    destruct (_isConnected (client w)); cbn -[_updateState emit]; by repeat handler_step.
Qed.

(** C29: the engine is a state machine over the client's callbacks: but for
    [onEvent], which also depends on the adapter, each takes the engine's
    state to the one [engine_next] says, whatever listeners and adapters do. *)
Theorem engine_handlers_refine `{C : SubtleCrypto} {A : Type} `{!SyncAdapter A} `{P : Platform}
    (random_iv : nat → list N) (w : World (Host A)) (c : Callback) (params : ConnectParams) :
  wired (engine (app w)) = Some params → (∀ ev, c ≠ OnEvent ev) →
  _state (engine (app (engine_cb random_iv c w).2)) =
    engine_next (_isConnected (client w)) c (_state (engine (app w))).
Proof. apply engine_cb_state. Qed.

(** ** Witnesses *)

(** A room of two engines, ["a"] and ["b"]; ["b"] asks. *)
Definition two_peers : jsmap jsstr PeerInfoJson := [(js "b", emptyPeerInfoJson); (js "a", emptyPeerInfoJson)].
Definition in_room (id : jsstr) : CollabEngineState :=
  INITIAL_STATE <| phase := connected |> <| clientId := id |> <| st_peers := two_peers |>.

Lemma scene_request_responders_witness :
  ∃ s1, s1 ∈ [in_room (js "a"); in_room (js "b")] ∧ clientId s1 ≠ js "b" ∧
    ∀ s, s ∈ [in_room (js "a"); in_room (js "b")] → (shouldRespond s (js "b") = true ↔ isOwner s = true ∨ s = s1).
Proof.
  apply (scene_request_responders [in_room (js "a"); in_room (js "b")] (js "b") (in_room (js "a"))).
  - change (NoDup [js "a"; js "b"]). apply (bool_decide_unpack _). by vm_compute.
  - intros s Hs. rewrite !elem_of_cons, elem_of_nil in Hs. destruct Hs as [->|[->|[]]].
    all: split; [done|]; intros id; cbn; rewrite !elem_of_cons, elem_of_nil; tauto.
  - by left.
  - done.
Defined.

(** The page of [engine_joining] just before the relay answers, the room
    having another member. *)
Definition other_peer : PeerInfo := mkPeerInfo (js "c9") (js "Eve") [] (js "browser") true false [] None.
Definition full_room : CollabEvent :=
  sample_event (ev_roomJoined (mkRoomJoined (js "c1")
    (Some (mkRoom (js "r") [(js "c9", other_peer)] (js "c9") None [] false [])) 8 2)).

Lemma joining_skips_scene_request_witness :
  let w := sample_page (take 4 engine_joining) in
  let w' := engine_run1 (P := node_platform) sample_iv (EClient (IMessage 0 full_room)) w in
  isInitialized (_state (engine (app w'))) = true ∧ ∃ l, log w' = l ++ log w ∧ Forall (λ x, ¬ is_send x) l.
Proof.
  eapply (joining_skips_scene_request (P := node_platform) sample_iv (sample_page (take 4 engine_joining)) 0 0
            full_room); [reflexivity|by vm_compute..].
Defined.

Lemma credentials_change_strands_witness :
  let w := sample_page engine_joining in
  let ev := sample_event (ev_credentialsChanged (mkCredentialsChanged (js "password_changed"))) in
  let w1 := engine_run1 (P := node_platform) sample_iv (EClient (IMessage 0 ev)) w in
  (engine_exec (P := node_platform) sample_iv (EConnect sample_params (js "x2")) w1).1 =
    Throw (Error (js "Already connected")).
Proof.
  cbv zeta.
  destruct (credentials_change_strands (P := node_platform) sample_iv (sample_page engine_joining) 0
    (sample_event (ev_credentialsChanged (mkCredentialsChanged (js "password_changed"))))
    (mkCredentialsChanged (js "password_changed")) sample_params sample_params (js "x2")) as (_ & _ & E & _);
    [reflexivity|by vm_compute..|exact E].
Defined.

(** The connection of [engine_joining] drops, and the client waits to reconnect. *)
Lemma dispose_leaves_reconnect_witness :
  let w := sample_page (engine_joining ++ [EClient (IClose 0)]) in
  let w' := engine_run1 (P := node_platform) sample_iv EDispose w in
  retryTimer (client w) = Some 1%nat ∧ client w' = client w ∧ env w' = env w.
Proof.
  cbv zeta. split; [by vm_compute|].
  destruct (dispose_leaves_reconnect (P := node_platform) sample_iv
              (sample_page (engine_joining ++ [EClient (IClose 0)]))) as (E1 & E2 & _); [by vm_compute|exact (conj E1 E2)].
Defined.

Lemma engine_handlers_refine_witness :
  let w := sample_page engine_joining in
  _state (engine (app (engine_cb (P := node_platform) sample_iv (OnSessionEnded (js "owner_left")) w).2)) =
    INITIAL_STATE <| error := Some (js "The owner ended the sharing session") |>.
Proof.
  intros w. assert (wired (engine (app w)) = Some sample_params) as Hw by by vm_compute.
  assert (∀ ev, OnSessionEnded (js "owner_left") ≠ OnEvent ev) as Hc by done.
  pose proof (engine_handlers_refine (P := node_platform) sample_iv w (OnSessionEnded (js "owner_left")) sample_params Hw Hc)
    as E.
  etransitivity; [exact E|]. vm_compute. reflexivity.
Defined.
