(* ===== verification/EngineRoster.v ===== *)
(** * The engine's roster and its client's ([ts/src/CollabEngine.ts], [ts/src/CollabClient.ts])

    Client and engine each keep a map of the peers in the room, the engine's
    made from the client's callbacks alone. In every orderly run the two
    agree whenever the engine is connected, but for the owner flags, which
    only the client keeps up to date. *)

From S2P Require Import Prelude JsText JsMap Models Crypto CollabClient ClientInvariants ClientReconnect EventEmitter.
From S2P Require Import SyncAdapter CollabEngine EngineLaws EngineInvariants EngineProperties EngineSync.
Open Scope Z_scope.

(** ** Rosters *)

(** A peer but for the owner flag, and rosters that differ in those alone. *)
Definition unowned (p : PeerInfoJson) : PeerInfoJson := p <| PeerInfoJson_isOwner := None |>.

Definition same_roster (m m' : jsmap jsstr PeerInfoJson) : Prop :=
  ∀ id, unowned <$> map_get id m = unowned <$> map_get id m'.

#[export] Instance same_roster_equiv : Equivalence same_roster.
Proof. split; [by intros ? ?|by intros ? ? H ?|]. intros ? ? ? H1 H2 id. by rewrite H1. Qed.

Lemma same_roster_set id p m m' : same_roster m m' → same_roster (map_set id p m) (map_set id p m').
Proof.
  intros H i. destruct (decide (id = i)) as [<-|Hi]; [by rewrite !map_get_set|]. by rewrite !map_get_set_ne.
Qed.

Lemma same_roster_delete id m m' :
  map_wf m → map_wf m' → same_roster m m' → same_roster (map_delete id m) (map_delete id m').
Proof.
  intros Hm Hm' H i. destruct (decide (id = i)) as [<-|Hi]; [by rewrite !map_get_delete|]. by rewrite !map_get_delete_ne.
Qed.

(** What [handleOwnerChanged] does to a roster. *)
Lemma same_roster_owner o m m' :
  map_wf m' → same_roster m m' → same_roster m (foldl (λ m '(id, p), map_set id (setOwner o id p) m) m' m').
Proof.
  intros Hm H i. rewrite map_set_each by done. rewrite map_get_each, H. by destruct (map_get i m').
Qed.

(** ** What a callback does to the engine's state *)

Section heeds.
Context `{C : SubtleCrypto} {A : Type} `{!SyncAdapter A} `{P : Platform} (random_iv : nat → list N).
Abbreviation ecb := (engine_cb random_iv (A := A)).
Abbreviation ST h := (_state (engine h)).

(** Changes that leave the roster alone and do not connect. *)
Definition mild (f : CollabEngineState → CollabEngineState) : Prop :=
  ∀ s, st_peers (f s) = st_peers s ∧ (phase (f s) = connected → phase s = connected).

Definition mildly (h0 : Host A) (w : World (Host A)) : Prop :=
  wired (engine (app w)) = wired (engine h0) ∧ st_peers (ST (app w)) = st_peers (ST h0) ∧
  (phase (ST (app w)) = connected → phase (ST h0) = connected).

#[export] Instance mildly_blind h0 : Blind (mildly h0) mild.
Proof.
  split.
  - intros f Hf w Hw. specialize (Hf (app w)). unfold quiet_view in Hf. injection Hf as E1 E2 _ _.
    unfold mildly. cbn. by rewrite E1, E2.
  - intros x _ w Hw. exact Hw.
  - intros a now w Hw. apply (host_send (λ h, mildly h0 (mkWorld (new_client default_options) empty_env h []))). exact Hw.
  - intros f Hf w (E1 & E2 & E3). rewrite updateState_tells. destruct (Hf (ST (app w))) as [F1 F2].
    unfold mildly. cbn. rewrite F1. split_and!; [done..|]. intros Hp. by apply E3, F2.
  - intros x _ w Hw. by rewrite emit_tells.
Qed.

Lemma mildly_refl (w : World (Host A)) : mildly (app w) w.
Proof. by split_and!. Qed.

(** What callback [x] does, the client connected or not: [up]. *)
Definition heeds (up : bool) (x : Callback) (h h' : Host A) : Prop :=
  wired (engine h') = wired (engine h) ∧
  match wired (engine h), x with
  | None, _ => ST h' = ST h
  | _, OnEvent _ => st_peers (ST h') = st_peers (ST h) ∧ (phase (ST h') = connected → phase (ST h) = connected)
  | _, _ => ST h' = engine_next up x (ST h)
  end.

#[export] Instance wired_blind ps : Blind (λ w : World (Host A), wired (engine (app w)) = ps) (λ _, True).
Proof.
  split.
  - intros f Hf w Hw. specialize (Hf (app w)). unfold quiet_view in Hf. injection Hf as _ E _ _. cbn. by rewrite E.
  - intros x _ w Hw. exact Hw.
  - intros a now. apply (host_send (λ h, wired (engine h) = ps)).
  - intros f _ w Hw. by rewrite updateState_tells.
  - intros x _ w Hw. by rewrite emit_tells.
Qed.

Lemma cb_heeds x w : heeds (_isConnected (client w)) x (app w) (app (ecb x w).2).
Proof.
  unfold heeds. split.
  { assert (keeps (λ w' : World (Host A), wired (engine (app w')) = wired (engine (app w))) (ecb x)) as Hk; [|by apply Hk].
    apply (laws_engine_cb random_iv _ (λ _, True)). intros ps. by apply Forall_forall. }
  destruct (wired (engine (app w))) as [ps|] eqn:Ew.
  - destruct x; try by rewrite (engine_cb_state random_iv w _ ps).
    assert (keeps (mildly (app w)) (ecb (OnEvent event))) as Hk.
    { apply (laws_engine_cb random_iv (mildly (app w)) mild). intros ps'. cbn [handler_updates].
      apply Forall_cons_2; [done|]. case_match; repeat apply Forall_cons_2; by try apply Forall_nil_2. }
    by destruct (Hk w (mildly_refl w)).
  - assert ((ecb x w).2 = w) as ->; [|by destruct x].
    unfold engine_cb, gete, gets, mbind, M_bind. cbv beta iota. by rewrite Ew.
Qed.

(** A program that leaves roster and client alone. *)
Lemma wp_call_heeds x Q c e h l :
  (∀ r h' l', heeds (_isConnected c) x h h' → Forall is_send l' → Q r (mkWorld c e h' (l' ++ Cb x :: l))) →
  wp (call ecb x) Q (mkWorld c e h l).
Proof.
  intros HQ. unfold call. apply wp_bind, wp_record. unfold wp.
  set (w := mkWorld c e h (Cb x :: l)). pose proof (cb_heeds x w) as Hh.
  destruct (observes (Observer := engine_observes random_iv) x w) as (l' & Ec & Ee & El & Hs).
  destruct (ecb x w) as [r [c' e' h' l'']]. cbn in *. subst. by apply HQ.
Qed.

(** ** The coupling *)

Record coupled (w : World (Host A)) : Prop := {
  (** An engine not wired up yet knows of nobody. *)
  cp_unwired : wired (engine (app w)) = None → phase (ST (app w)) ≠ connected ∧ st_peers (ST (app w)) = [];
  (** Without a connection both rosters are empty. *)
  cp_apart : _isConnected (client w) = false → peers (client w) = [] ∧ st_peers (ST (app w)) = [];
  cp_roster : phase (ST (app w)) = connected → same_roster (st_peers (ST (app w))) (peers (client w));
  (** A socket the relay's [roomJoined] came over is the connected client's. *)
  cp_joined s : sockets (env w) !! s = Some (Open true) → _isConnected (client w) = true ∧ grpc (client w) = Some s;
  cp_wf : map_wf (st_peers (ST (app w))) ∧ map_wf (peers (client w))
}.

Abbreviation COUPLED := (keeps coupled).

(** Changes it does not see. *)
Lemma coupled_frame w w' :
  wired (engine (app w')) = wired (engine (app w)) → st_peers (ST (app w')) = st_peers (ST (app w)) →
  (phase (ST (app w')) = connected → phase (ST (app w)) = connected) →
  _isConnected (client w') = _isConnected (client w) → peers (client w') = peers (client w) →
  grpc (client w') = grpc (client w) →
  (∀ s, sockets (env w') !! s = Some (Open true) → sockets (env w) !! s = Some (Open true)) →
  coupled w → coupled w'.
Proof.
  intros E1 E2 E3 E4 E5 E6 E7 []. split; rewrite ?E1, ?E2, ?E4, ?E5, ?E6; auto.
  intros Hn. destruct (cp_unwired0 Hn). split; [|done]. intros Hp. by apply E3 in Hp.
Qed.

Lemma coupled_modc f :
  (∀ c, _isConnected (f c) = _isConnected c ∧ peers (f c) = peers c ∧ grpc (f c) = grpc c) → COUPLED (modc f).
Proof. intros Hf w Hw. destruct (Hf (client w)) as (E1 & E2 & E3). by apply (coupled_frame w). Qed.
Lemma coupled_mode f :
  (∀ e s, sockets (f e) !! s = Some (Open true) → sockets e !! s = Some (Open true)) → COUPLED (mode f).
Proof. intros Hf w Hw. apply (coupled_frame w); try done. apply Hf. Qed.
Lemma coupled_record x : COUPLED (record x).
Proof. intros w Hw. by apply (coupled_frame w). Qed.

(** Callbacks that tell of no peer and no new connection. *)
Definition peerless (x : Callback) : bool :=
  match x with OnConnect _ | OnPeerJoined _ | OnPeerLeft _ => false | _ => true end.

Lemma coupled_heeds x c e h l h' l' :
  peerless x = true → heeds (_isConnected c) x h h' → coupled (mkWorld c e h l) → coupled (mkWorld c e h' l').
Proof.
  intros Hx [E1 E2] Hw. destruct (wired (engine h)) as [ps|] eqn:Ew.
  - assert (st_peers (ST h') = st_peers (ST h) ∧ (phase (ST h') = connected → phase (ST h) = connected) ∨
            st_peers (ST h') = [] ∧ phase (ST h') ≠ connected) as [[F1 F2]|[F1 F2]].
    { destruct x; try done; [by left|..]; rewrite E2; cbn; try case_match; first [by left | by right]. }
    + apply (coupled_frame (mkWorld c e h l)); cbn; try done. congruence.
    + destruct Hw. split; cbn in *; rewrite ?F1; try done; [naive_solver|].
      split; [constructor|naive_solver].
  - apply (coupled_frame (mkWorld c e h l)); cbn; try done; first [congruence | by destruct x; rewrite E2].
Qed.

Lemma coupled_call x : peerless x = true → COUPLED (call ecb x).
Proof.
  intros Hx [c e h l] Hw. change (wp (call ecb x) (λ _ w, coupled w) (mkWorld c e h l)).
  apply wp_call_heeds. intros r h' l' Hh _. by eapply coupled_heeds.
Qed.

(** The connection is gone: the engine hears of it. *)
Lemma wp_when_lost Q c e h l c' e' l' :
  coupled (mkWorld c e h l) → _isConnected c' = false → peers c' = [] →
  (∀ s, sockets e' !! s ≠ Some (Open true)) → (∀ r w, coupled w → Q r w) →
  wp (when (_isConnected c) (call ecb OnDisconnect)) Q (mkWorld c' e' h l').
Proof.
  intros [] Hc Hp Hs HQ. cbn in *.
  assert (∀ h' l2, wired (engine h') = wired (engine h) → st_peers (ST h') = [] →
    (phase (ST h') = connected → phase (ST h) = connected) → coupled (mkWorld c' e' h' l2)) as Hnew.
  { intros h' l2 E1 E2 E4. split; cbn; rewrite ?E2, ?Hp; try done.
    - rewrite E1. intros Hn. destruct (cp_unwired0 Hn). split; [by intros ?%E4|done].
    - intros s Hx. by destruct (Hs s).
    - split; constructor. }
  apply wp_when; intros Ec.
  - apply wp_call_heeds. intros r h' l2 [E1 E2] _. apply HQ. destruct (wired (engine h)) eqn:Ew.
    + apply Hnew; rewrite ?E2; cbn; auto; congruence.
    + destruct (cp_unwired0 eq_refl). apply Hnew; rewrite ?E2; auto; congruence.
  - destruct (cp_apart0 Ec). apply HQ, Hnew; auto.
Qed.

Hint Resolve coupled_record : keeps.
Hint Extern 1 (keeps _ (call _ _)) => (apply coupled_call; reflexivity) : keeps.
Hint Extern 1 (keeps _ (modc _)) => (apply coupled_modc; intros ?; done) : keeps.
Hint Extern 1 (keeps _ (mode _)) => (apply coupled_mode; done) : keeps.
Ltac go := repeat keeps_step.

(** Symbolic execution up to a callback that matters. *)
Ltac to_call :=
  repeat lazymatch goal with
         | |- wp (when _ (call _ OnDisconnect)) _ _ => fail
         | |- wp (call _ _) _ _ => fail
         | _ => wp_step
         end.

(** No socket is open and joined after the current one is closed. *)
Lemma none_joined w s st :
  coupled w → st ≠ Open true → grpc (client w) = Some s →
  ∀ s', <[ s := st ]> (sockets (env w)) !! s' ≠ Some (Open true).
Proof.
  intros Hw Hst Hg s'. rewrite lookup_insert_Some. intros [[_ ->]|[Hne Hs]]; [done|].
  destruct (cp_joined _ Hw s' Hs) as [_ Hg']. congruence.
Qed.

Lemma none_joined_idle w : coupled w → grpc (client w) = None → ∀ s', sockets (env w) !! s' ≠ Some (Open true).
Proof. intros Hw Hg s' Hs. destruct (cp_joined _ Hw s' Hs) as [_ Hg']. congruence. Qed.

Lemma coupled_endSession r : COUPLED (endSession ecb r).
Proof. unfold endSession. go. Qed.
Lemma coupled_fresh : COUPLED fresh.
Proof. unfold fresh. go. Qed.
Lemma coupled_socket_send s a : COUPLED (socket_send s a).
Proof. unfold socket_send. go. Qed.
Hint Resolve coupled_endSession coupled_fresh coupled_socket_send : keeps.
Lemma coupled_scheduleReconnect : COUPLED (scheduleReconnect ecb).
Proof. unfold scheduleReconnect, set_timeout. go. Qed.
Hint Resolve coupled_scheduleReconnect : keeps.

Lemma coupled_closeFromRelay : COUPLED (closeFromRelay ecb).
Proof.
  intros [c e h l] Hw. change (wp (closeFromRelay ecb) (λ _ w, coupled w) (mkWorld c e h l)).
  unfold closeFromRelay, socket_close. to_call; (eapply wp_when_lost; [exact Hw|done..| |done]).
  - by apply (none_joined (mkWorld c e h l)).
  - by apply (none_joined_idle (mkWorld c e h l)).
Qed.

Lemma coupled_dropAndReconnect : COUPLED (dropAndReconnect ecb).
Proof.
  intros [c e h l] Hw. change (wp (dropAndReconnect ecb) (λ _ w, coupled w) (mkWorld c e h l)).
  unfold dropAndReconnect, socket_close. to_call; (eapply wp_when_lost; [exact Hw|done..| |]).
  - by apply (none_joined (mkWorld c e h l)).
  - intros [[]|] w1 Hw1; [by apply coupled_scheduleReconnect|done].
  - by apply (none_joined_idle (mkWorld c e h l)).
  - intros [[]|] w1 Hw1; [by apply coupled_scheduleReconnect|done].
Qed.

Lemma coupled_onClose s : COUPLED (onClose ecb s).
Proof.
  intros [c e h l] Hw. change (wp (onClose ecb s) (λ _ w, coupled w) (mkWorld c e h l)).
  unfold onClose, set_status, handleConnectionClosed. to_call.
  - apply bool_decide_eq_true in E. eapply wp_when_lost; [exact Hw|done..| |].
    + by apply (none_joined (mkWorld c e h l)).
    + intros [[]|] [c1 e1 h1 l1] Hw1; [|done]. wp_step. wp_step. wp_step; [by apply coupled_scheduleReconnect|done].
  - apply (coupled_frame (mkWorld c e h l)); try done. intros s'. cbn. rewrite lookup_insert_Some. by intros [[_ [=]]|[_ ?]].
Qed.

Lemma coupled_leaveAndClose : COUPLED (leaveAndClose ecb).
Proof.
  intros [c e h l] Hw. change (wp (leaveAndClose ecb) (λ _ w, coupled w) (mkWorld c e h l)).
  assert (∀ l', coupled (mkWorld c e h l')) as Hl by (intros l'; by apply (coupled_frame (mkWorld c e h l))).
  unfold leaveAndClose, socket_close. to_call; try by apply Hl.
  all: eapply wp_when_lost; [exact Hw|done..| |done]; by apply (none_joined (mkWorld c e h l)).
Qed.
Hint Resolve coupled_closeFromRelay coupled_dropAndReconnect coupled_onClose coupled_leaveAndClose : keeps.

Lemma coupled_disconnect : COUPLED (disconnect random_iv).
Proof. unfold disconnect, CollabClient.disconnect, removeUnloadListener, clearRetryTimer, clear_timeout. go. Qed.

(** *** Peers *)

Definition in_session (w : World (Host A)) : Prop := coupled w ∧ _isConnected (client w) = true.

(** A change of both rosters while connected. *)
Lemma coupled_rosters c e h h' l l' m :
  coupled (mkWorld c e h l) → _isConnected c = true → wired (engine h') = wired (engine h) →
  phase (ST h') = phase (ST h) → (wired (engine h) = None → st_peers (ST h') = st_peers (ST h)) →
  (phase (ST h) = connected → same_roster (st_peers (ST h)) (peers c) → same_roster (st_peers (ST h')) m) →
  map_wf (st_peers (ST h')) → map_wf m → coupled (mkWorld (c <| peers := m |>) e h' l').
Proof.
  intros [] Hc E1 E2 E3 E4 Hw1 Hw2. split; cbn in *; rewrite ?E1, ?E2; try done; auto.
  - intros Hn. rewrite E3 by done. auto.
  - congruence.
Qed.

(** A peer without an id changes neither roster. *)
Lemma coupled_same c e h h' l l' x :
  coupled (mkWorld c e h l) → engine_next (_isConnected c) x (ST h) = ST h → (∀ ev, x ≠ OnEvent ev) →
  heeds (_isConnected c) x h h' → coupled (mkWorld c e h' l').
Proof.
  intros Hw Hn Hx [E1 E2]. assert (ST h' = ST h) as E.
  { destruct (wired (engine h)); [|done]. destruct x; try (rewrite E2; exact Hn). by edestruct Hx. }
  by apply (coupled_frame (mkWorld c e h l)); cbn; rewrite ?E.
Qed.

Lemma wp_addPeer_coupled p c e h l :
  in_session (mkWorld c e h l) → wp (addPeer ecb p) (λ _ w, in_session w) (mkWorld c e h l).
Proof.
  intros [Hw Hc]. pose proof (cp_wf _ Hw) as [W1 W2]. cbn in W1, W2. unfold addPeer.
  destruct (PeerInfoJson_clientId p) as [[|u id]|] eqn:Ep; cbn [truthy when].
  1, 3: to_call; apply wp_call_heeds; intros r h' l' Hh _; split; [|done].
  1, 2: eapply (coupled_same _ _ _ _ _ _ (OnPeerJoined p)); [exact Hw| |done|exact Hh]; cbn; by rewrite Ep.
  to_call. apply wp_call_heeds. intros r h' l' [E1 E2] _. split; [|done]. cbn in Hc.
  eapply coupled_rosters; [exact Hw|done|done| | | | |by apply map_set_wf].
  all: destruct (wired (engine h)) eqn:Ew; cbn [engine_next] in E2; rewrite ?Ep in E2; rewrite ?E2; try done.
  - intros _. by apply same_roster_set.
  - intros Hp. by destruct (cp_unwired _ Hw Ew).
  - by apply map_set_wf.
Qed.

Lemma wp_peerLeft_coupled id c e h l :
  in_session (mkWorld c e h l) →
  wp (modc (λ c, c <| peers := map_delete id (peers c) |>) ;; call ecb (OnPeerLeft id)) (λ _ w, coupled w) (mkWorld c e h l).
Proof.
  intros [Hw Hc]. pose proof (cp_wf _ Hw) as [W1 W2]. cbn in W1, W2, Hc.
  to_call. apply wp_call_heeds. intros r h' l' [E1 E2] _.
  eapply coupled_rosters; [exact Hw|done|done| | | | |by apply map_delete_wf].
  all: destruct (wired (engine h)) eqn:Ew; cbn [engine_next] in E2; rewrite ?E2; try done.
  - intros _. by apply same_roster_delete.
  - intros Hp. by destruct (cp_unwired _ Hw Ew).
  - by apply map_delete_wf.
Qed.

Lemma wp_ownerChanged_coupled o c e h l :
  coupled (mkWorld c e h l) → wp (handleOwnerChanged ecb o) (λ _ w, coupled w) (mkWorld c e h l).
Proof.
  intros Hw. pose proof (cp_wf _ Hw) as [W1 W2]. cbn in W1, W2. unfold handleOwnerChanged. to_call.
  apply wp_call_heeds. intros r h' l' Hh _. eapply (coupled_heeds (OnOwnerChanged o) _ _ _ l); [done|exact Hh|].
  destruct Hw. split; cbn in *; try done.
  - intros Hc. by destruct (cp_apart0 Hc) as [-> ->].
  - intros Hp. apply same_roster_owner; auto.
  - split; [done|]. by apply set_owner_wf.
Qed.

(** *** Joining *)

Lemma wp_handleRoomJoined_coupled rj c e h l s :
  coupled (mkWorld c e h l) → _isConnected c = false → grpc c = Some s →
  wp (handleRoomJoined ecb rj) (λ _ w, coupled w)
     (mkWorld c (e <| sockets := <[ s := Open true ]> (sockets e) |>) h l).
Proof.
  intros Hw Hc Hg. destruct (cp_apart _ Hw Hc) as [Hp Hs]. cbn in Hp, Hs.
  assert (∀ c' h' l', wired (engine h') = wired (engine h) → st_peers (ST h') = [] →
    (wired (engine h) = None → phase (ST h') = phase (ST h)) → _isConnected c' = true → peers c' = [] →
    grpc c' = Some s → coupled (mkWorld c' (e <| sockets := <[ s := Open true ]> (sockets e) |>) h' l')) as Hin.
  { intros c' h' l' E1 E2 E3 E4 E5 E6. destruct Hw. split; cbn in *; rewrite ?E1, ?E2, ?E4, ?E5, ?E6; try done.
    - intros Hn. rewrite E3 by done. destruct (cp_unwired0 Hn). done.
    - intros s'. rewrite lookup_insert_Some. intros [[<- _]|[_ Hs']]; [done|]. destruct (cp_joined0 s' Hs'). congruence.
    - split; constructor. }
  unfold handleRoomJoined. to_call.
  all: apply wp_call_heeds; intros out h' l' [E1 E2] _.
  all: assert (st_peers (ST h') = [] ∧ (wired (engine h) = None → phase (ST h') = phase (ST h))) as [F1 F2]
         by (destruct (wired (engine h)); cbn in E2; by rewrite E2).
  all: destruct out as [[]|]; [|by apply Hin].
  all: do 4 wp_step; apply wp_bind; eapply wp_mono; [apply wp_addPeer_coupled; split; [by apply Hin|done]|].
  all: intros [[]|] [c1 e1 h1 l1] Hw1; [|apply Hw1]; try (apply wp_ret, Hw1).
  all: eapply wp_mono; [apply wp_for_each with (I := in_session); [exact Hw1|]|by intros ? ? [? ?]].
  all: intros [? p] [c2 e2 h2 l2] H2; by apply wp_addPeer_coupled.
Qed.

Lemma coupled_wp {X} (m : M (World (Host A)) X) w : COUPLED m → coupled w → wp m (λ _ w', coupled w') w.
Proof. intros Hm. apply Hm. Qed.

(** The relay's events. *)
Lemma wp_handleEvent_coupled ev c e h l :
  coupled (mkWorld c e h l) → (_isConnected c = true ∨ ∃ err, CollabEvent_event ev = ev_error err) → is_roomJoined ev = false →
  wp (handleEvent ecb ev) (λ _ w, coupled w) (mkWorld c e h l).
Proof.
  intros Hw Hc Hr. unfold handleEvent. apply wp_bind, wp_call_heeds. intros r h' l' Hh _.
  assert (coupled (mkWorld c e h' (l' ++ Cb (OnEvent ev) :: l))) as Hw' by by eapply (coupled_heeds (OnEvent ev) _ _ h l).
  destruct r as [[]|]; [|done]. unfold is_roomJoined in Hr.
  destruct (CollabEvent_event ev) as [rj|[[peer|]]|pl|?|?|?|?|?|err|?|se|oc|?|?|?|] eqn:He; try done.
  all: try (destruct Hc as [Hc|[? Hx]]; [|discriminate Hx]).
  - eapply wp_mono; [by apply wp_addPeer_coupled|]. by intros ? ? [].
  - apply wp_call_heeds. intros r2 h2 l2 Hh2 _. by eapply (coupled_same _ _ _ _ _ _ (OnPeerJoined emptyPeerInfoJson)).
  - by apply wp_peerLeft_coupled.
  - apply coupled_wp; [unfold handleError; go|done].
  - apply coupled_wp; [unfold handleSessionEnded; go|done].
  - by apply wp_ownerChanged_coupled.
  - by apply coupled_wp; [go|].
  - by apply coupled_wp; [go|].
  - by apply coupled_wp; [go|].
Qed.

(** *** Opening a connection, while there is none *)

Lemma wp_openWebSocket_coupled tok c e h l :
  coupled (mkWorld c e h l) → _isConnected c = false → wp (openWebSocket tok) (λ _ w, coupled w) (mkWorld c e h l).
Proof.
  intros Hw Hc. unfold openWebSocket, new_socket.
  assert (∀ s, sockets e !! s ≠ Some (Open true)) as Hs.
  { intros s Hs. destruct (cp_joined _ Hw s Hs) as [Hc' _]. cbn in Hc'. congruence. }
  repeat wp_step; [|done].
  destruct Hw. split; cbn in *; try done. intros s. rewrite lookup_insert_Some. intros [[_ [=]]|[_ Hx]]. by destruct (Hs s).
Qed.

Lemma wp_openWithToken_coupled c e h l :
  coupled (mkWorld c e h l) → _isConnected c = false → wp openWithToken (λ _ w, coupled w) (mkWorld c e h l).
Proof.
  intros Hw Hc. unfold openWithToken. do 3 wp_step; [|by apply wp_openWebSocket_coupled].
  by apply coupled_wp; [go|].
Qed.

Lemma wp_afterRoomCheck_coupled status c e h l :
  coupled (mkWorld c e h l) → _isConnected c = false → wp (afterRoomCheck ecb status) (λ _ w, coupled w) (mkWorld c e h l).
Proof.
  intros Hw Hc. unfold afterRoomCheck. do 3 wp_step; [by wp_step|]. wp_step; [by apply coupled_wp; [go|]|].
  wp_step; [by apply wp_openWithToken_coupled|by apply coupled_wp; [go|]].
Qed.

Lemma wp_connect_coupled a rnd c e h l :
  coupled (mkWorld c e h l) → wp (CollabClient.connect a rnd) (λ _ w, coupled w) (mkWorld c e h l).
Proof.
  intros Hw. unfold CollabClient.connect. do 3 wp_step; [by wp_step|].
  assert (∀ c' e' l', _isConnected c' = _isConnected c → peers c' = peers c → grpc c' = grpc c →
    sockets e' = sockets e → wp openWithToken (λ _ w, coupled w) (mkWorld c' e' h l')) as Hopen.
  { intros c' e' l' E1 E2 E3 E4. apply wp_openWithToken_coupled; [|congruence].
    apply (coupled_frame (mkWorld c e h l)); cbn; try done. by rewrite E4. }
  repeat wp_step; by apply Hopen.
Qed.

(** The engine hears of an event without throwing, if it knows nobody at a join. *)
Lemma wp_call_OnEvent ev Q c e h l :
  (is_roomJoined ev = true → st_peers (ST h) = []) →
  (∀ h' l', heeds (_isConnected c) (OnEvent ev) h h' → Forall is_send l' → Q (Ok tt) (mkWorld c e h' (l' ++ Cb (OnEvent ev) :: l))) →
  wp (call ecb (OnEvent ev)) Q (mkWorld c e h l).
Proof.
  intros Hj HQ.
  unfold call. apply wp_bind, wp_record. unfold wp. set (w := mkWorld c e h (Cb (OnEvent ev) :: l)).
  assert ((ecb (OnEvent ev) w).1 = Ok tt) as Hok.
  { unfold engine_cb, gete, gets, mbind, M_bind. cbv beta iota. destruct (wired (engine (app w))) as [ps|]; [|done].
    unfold onEvent, onRoomJoined, _handleSyncEvent, swallow, mbind, M_bind. unfold is_roomJoined in Hj.
    destruct (CollabEvent_event ev) as [rj| | | | | | | | | | | | | | |]; try done. rewrite updateState_tells. cbn -[_triggerSceneInit].
    destruct (negb _ && _ && _); [|done]. cbn -[_triggerSceneInit].
    unfold _triggerSceneInit, gete, gets, mbind, M_bind. cbn. rewrite Hj by done. cbn -[_updateState]. by rewrite updateState_tells. }
  pose proof (cb_heeds (OnEvent ev) w) as Hh.
  destruct (observes (Observer := engine_observes random_iv) (OnEvent ev) w) as (l' & Ec & Ee & El & Hs).
  destruct (ecb (OnEvent ev) w) as [r [c' e' h' l'']]. cbn in *. subst. by apply HQ.
Qed.

(** The first message of a connection. *)
Lemma wp_first_message_coupled ev c e h l s :
  Inv ecb c e l → coupled (mkWorld c e h l) → sockets e !! s = Some (Open false) →
  match CollabEvent_event ev with ev_roomJoined _ | ev_error _ => True | _ => False end →
  wp (onMessage ecb s ev) (λ _ w, coupled w) (mkWorld c e h l).
Proof.
  intros HI Hw Hs Hev. pose proof (Inv_open_not_connected ecb _ _ _ _ HI Hs) as Hc.
  assert (grpc c = Some s) as Hg by by eapply (inv_live _ _ _ _ HI).
  destruct (cp_apart _ Hw Hc) as [_ Hp]. cbn in Hp. unfold onMessage, set_status.
  destruct (is_roomJoined ev) eqn:Hr.
  - wp_step. wp_step; [|done]. wp_step. unfold handleEvent. apply wp_bind, wp_call_OnEvent; [done|]. intros h' l' Hh _.
    unfold is_roomJoined in Hr. destruct (CollabEvent_event ev) as [rj| | | | | | | | | | | | | | |]; try done.
    apply wp_handleRoomJoined_coupled; try done.
    eapply (coupled_heeds (OnEvent ev) _ _ h l); done.
  - wp_step. wp_step; [done|]. apply wp_handleEvent_coupled; [done| |done].
    right. unfold is_roomJoined in Hr. destruct (CollabEvent_event ev); try done. by eexists.
Qed.

(** *** Turns *)

Lemma coupled_exec i w :
  invariant ecb w → enabled (env w) i = true → coupled w → coupled (exec ecb i w).2.
Proof.
  destruct w as [c e h l]. intros HI He Hw. cbn in He. unfold invariant in HI. cbn in HI.
  change (wp (exec ecb i) (λ _ w, coupled w) (mkWorld c e h l)).
  assert ((0 < tokenWaits e ∨ timers e ≠ ∅ ∨ 0 < fetches e)%nat → _isConnected c = false) as Hbusy.
  { intros Hb. destruct (_isConnected c) eqn:Hc; [|done]. destruct (inv_conn _ _ _ _ HI Hc) as (s & Hg & _).
    destruct (activities_socket c e s Hg (inv_one _ _ _ _ HI)) as (E1 & E2 & E3 & E4). destruct Hb as [?|[?|?]]; [lia|done|lia]. }
  assert (∀ e', sockets e' = sockets e → coupled (mkWorld c e' h l)) as Henv.
  { intros e' E. apply (coupled_frame (mkWorld c e h l)); cbn; try done. by rewrite E. }
  pose proof coupled_disconnect as Hdisc. destruct i; cbn [exec enabled] in *.
  - by apply wp_connect_coupled.
  - by apply coupled_wp.
  - by apply coupled_wp; [unfold send; go|].
  - by apply coupled_wp; [unfold sendAppMessage, send; go|].
  - by apply coupled_wp; [go|].
  - apply coupled_wp; [|done]. apply keeps_bind; [|intros _; go]. apply coupled_mode. intros e' s'. cbn.
    rewrite lookup_insert_Some. by intros [[_ [=]]|[_ ?]].
  - by apply coupled_wp; [unfold connectResolved; go|].
  - (* a message *)
    unfold onMessage, set_status. destruct (sockets e !! s) as [[|[]|]|] eqn:Hs; try done.
    + assert (is_roomJoined event = false) as Hr by (unfold is_roomJoined; by destruct (CollabEvent_event event)).
      rewrite Hr. wp_step. wp_step; [done|]. apply wp_handleEvent_coupled; [done| |done].
      left. by destruct (cp_joined _ Hw s Hs).
    + apply (wp_first_message_coupled event c e h l s); try done. by destruct (CollabEvent_event event).
  - by apply coupled_wp; [go|].
  - by apply coupled_wp; [go|].
  - by apply coupled_wp; [go|].
  - wp_step. wp_step. unfold tokenFulfilled. repeat wp_step.
    + apply Nat.ltb_lt in He. apply wp_openWebSocket_coupled; [by apply Henv|auto].
    + by apply Henv.
  - by apply coupled_wp; [unfold tokenRejected; go|].
  - apply bool_decide_eq_true in He. wp_step. wp_step. unfold retryTimerFired, rejoinIfRoomExists. repeat wp_step.
    + by apply (coupled_frame (mkWorld c e h l)).
    + apply wp_afterRoomCheck_coupled; [by apply (coupled_frame (mkWorld c e h l))|]. apply Hbusy. right. left. set_solver.
  - apply Nat.ltb_lt in He. wp_step. wp_step. apply wp_afterRoomCheck_coupled; [by apply Henv|auto].
Qed.

(** A program that leaves roster, wiring and client alone. *)
Lemma coupled_mildly {X} (m : M (World (Host A)) X) :
  (∀ h0, keeps (mildly h0) m) → (∀ w0, keeps (since w0) m) → COUPLED m.
Proof.
  intros Hm Hs w Hw. destruct (Hm (app w) w (mildly_refl w)) as (E1 & E2 & E3).
  destruct (Hs w w) as (Ec & Ee & _); [split_and!; [done..|by exists []]|].
  apply (coupled_frame w); rewrite ?Ec, ?Ee; done.
Qed.

Lemma coupled_own_turn i : own_turn i = true → COUPLED (engine_exec random_iv i).
Proof.
  intros Hi. apply coupled_mildly; intros ?; [|by apply since_own_turn].
  apply (blind_own_turn random_iv _ mild); [done..|]. destruct i; try done; intros _ w Hw; exact Hw.
Qed.

Lemma coupled_connect params rnd : COUPLED (connect params rnd).
Proof.
  intros w Hw. unfold connect, _wireClient, mod_e, modh, modify. unfold mbind, M_bind. rewrite updateState_tells.
  cbn -[CollabClient.connect]. apply wp_connect_coupled. destruct w as [c e h l], Hw. by split.
Qed.

Lemma coupled_dispose : COUPLED (dispose random_iv).
Proof.
  pose proof coupled_disconnect. unfold dispose. repeat first [keeps_step | apply keeps_gets].
  - intros w Hw. by apply (coupled_frame w).
  - apply coupled_mildly; intros ?; [apply (law_clear (Handlers := blind_handlers _ mild))|apply since_clear].
  - intros w Hw. by apply (coupled_frame w).
Qed.

Lemma coupled_engine_exec i w :
  invariant ecb w → engine_orderly w i → coupled w → coupled (engine_exec random_iv i w).2.
Proof.
  intros HI Ho Hw. destruct (own_turn i) eqn:Hi; [by apply coupled_own_turn|].
  destruct i; try done; cbn [engine_exec].
  - destruct Ho. by apply coupled_exec.
  - by apply coupled_connect.
  - by apply coupled_disconnect.
  - by apply coupled_dispose.
Qed.

Lemma engine_reachable_coupled o adapter d t adapters w :
  engine_reachable random_iv o (new_host (new_engine adapter d t) adapters) w → coupled w.
Proof.
  induction 1 as [|w i Hr IH Ho].
  - split; cbn; try done. split; constructor.
  - apply coupled_engine_exec; [|done..]. by eapply engine_reachable_invariant.
Qed.
End heeds.

(** ** Properties *)

(** C4: the engine's roster is its client's. In every orderly run of an
    engine over its client, whatever adapters and listeners do, while the
    engine is connected its state lists exactly the peers the client lists,
    with the same data but for the owner flags; and while the client has no
    connection both list nobody. *)
Theorem engine_roster_follows `{C : SubtleCrypto} {A : Type} `{!SyncAdapter A} `{P : Platform}
    (random_iv : nat → list N) (o : CollabClientOptions) (adapter : option nat) (d t : option Z)
    (adapters : gmap nat A) (w : World (Host A)) :
  engine_reachable random_iv o (new_host (new_engine adapter d t) adapters) w →
  (phase (_state (engine (app w))) = connected →
   ∀ id, unowned <$> map_get id (st_peers (_state (engine (app w)))) = unowned <$> getPeer (client w) id) ∧
  (_isConnected (client w) = false → st_peers (_state (engine (app w))) = [] ∧ peers (client w) = []).
Proof.
  intros Hw. apply engine_reachable_coupled in Hw. split.
  - intros Hp. exact (cp_roster _ Hw Hp).
  - intros Hc. by destruct (cp_apart _ Hw Hc).
Qed.

(** owner flags go stale. When the room's owner changes, the client
    updates the flag of every peer it lists, but the engine's state keeps the
    peers as they were: a listed peer's flag then says in the client whether
    it is the new owner, and in the engine what it said before. *)
Theorem owner_flags_go_stale `{C : SubtleCrypto} {A : Type} `{!SyncAdapter A} `{P : Platform}
    (random_iv : nat → list N) (w : World (Host A)) (s : nat) (ev : CollabEvent) (oc : OwnerChanged)
    (params : ConnectParams) :
  CollabEvent_event ev = ev_ownerChanged oc → wired (engine (app w)) = Some params → map_wf (peers (client w)) →
  let w' := engine_run1 random_iv (EClient (IMessage s ev)) w in
  st_peers (_state (engine (app w'))) = st_peers (_state (engine (app w))) ∧
  (∀ id, PeerInfoJson_isOwner <$> getPeer (client w') id =
         (λ _, Some (bool_decide (id = OwnerChanged_newOwnerClientId oc))) <$> getPeer (client w) id) ∧
  ownerClientId (_state (engine (app w'))) = OwnerChanged_newOwnerClientId oc.
Proof.
  intros He Hw Hm w'. destruct w as [c e h l]. cbn in Hw, Hm.
  set (Q := λ w' : World (Host A), st_peers (_state (engine (app w'))) = st_peers (_state (engine h)) ∧
    (∀ id, PeerInfoJson_isOwner <$> getPeer (client w') id =
         (λ _, Some (bool_decide (id = OwnerChanged_newOwnerClientId oc))) <$> getPeer c id) ∧
    ownerClientId (_state (engine (app w'))) = OwnerChanged_newOwnerClientId oc).
  change (wp (onMessage (engine_cb random_iv) s ev) (λ _ w', Q w') (mkWorld c e h l)).
  unfold onMessage, is_roomJoined, handleEvent. rewrite He. wp_step. wp_step; [done|].
  apply wp_bind, wp_call_OnEvent; [unfold is_roomJoined; by rewrite He|]. intros h1 l1 [E1 E2] _. rewrite Hw in E1, E2.
  unfold handleOwnerChanged. do 4 wp_step. apply wp_call_heeds. intros r h2 l2 [F1 F2] _. rewrite E1 in F1, F2.
  unfold Q, getPeer. cbn. rewrite F2. cbn. destruct E2 as [-> _]. split_and!; [done| |done].
  intros id. rewrite map_set_each, map_get_each by done. by destruct (map_get id (peers c)).
Qed.

(** ** Witnesses: a room with one other member, who then becomes its owner *)

Definition shared_room : list (EngineInput (C := toy_crypto)) :=
  take 4 engine_joining ++ [EClient (IMessage 0 full_room)].

Lemma shared_room_reachable :
  engine_reachable (P := node_platform) sample_iv default_options sample_host (sample_page shared_room).
Proof.
  apply engine_reachable_run; [constructor|]. repeat (split; [first [done | by right | by vm_compute]|]). done.
Qed.

Lemma engine_roster_follows_witness :
  phase (_state (engine (app (sample_page shared_room)))) = connected ∧
  unowned <$> map_get (js "c9") (st_peers (_state (engine (app (sample_page shared_room))))) =
    Some (unowned (peerToJson other_peer)).
Proof.
  assert (phase (_state (engine (app (sample_page shared_room)))) = connected) as Hp by by vm_compute.
  split; [exact Hp|].
  destruct (engine_roster_follows (P := node_platform) (C := toy_crypto) sample_iv default_options (Some 0%nat) None None
    {[ 0%nat := js "abc" ]} (sample_page shared_room) shared_room_reachable) as [E _].
  etransitivity; [exact (E Hp (js "c9"))|]. vm_compute. reflexivity.
Defined.

Lemma owner_flags_go_stale_witness :
  let ev := sample_event (ev_ownerChanged (mkOwnerChanged (js "c9"))) in
  let w' := engine_run1 (P := node_platform) sample_iv (EClient (IMessage 0 ev)) (sample_page shared_room) in
  st_peers (_state (engine (app w'))) = st_peers (_state (engine (app (sample_page shared_room)))).
Proof.
  intros ev w'.
  refine (proj1 (owner_flags_go_stale (P := node_platform) sample_iv (sample_page shared_room) 0 ev
    (mkOwnerChanged (js "c9")) sample_params _ _ _)).
  - reflexivity.
  - vm_compute. reflexivity.
  - apply (bool_decide_unpack _). vm_compute. done.
Defined.
