(* ===== verification/EngineListeners.v ===== *)
(** * What listeners of the sync engine know ([ts/src/CollabEngine.ts])

    [stateChange] keeps its promise: whoever listens to it knows the engine's
    state, after every turn. *)

From S2P Require Import Prelude.
From S2P Require Import JsMap.
From S2P Require Import Models.
From S2P Require Import Crypto.
From S2P Require Import CollabClient.
From S2P Require Import ClientInvariants.
From S2P Require Import EventEmitter.
From S2P Require Import SyncAdapter.
From S2P Require Import CollabEngine.
From S2P Require Import EngineLaws.
From S2P Require Import EngineInvariants.
From S2P Require Import EngineProperties.
Open Scope Z_scope.

(** The state listener [fn] was last told, if any. *)
Fixpoint last_heard (fn : nat) (t : list HostEntry) : option CollabEngineState :=
  match t with
  | [] => None
  | Heard fn' (em_stateChange s) :: t' => if decide (fn' = fn) then Some s else last_heard fn t'
  | _ :: t' => last_heard fn t'
  end.

Lemma last_heard_other fn t t' :
  Forall (λ x, ∀ fn s, x ≠ Heard fn (em_stateChange s)) t → last_heard fn (t ++ t') = last_heard fn t'.
Proof.
  induction 1 as [|x t Hx _ IH]; [done|]. simpl. destruct x as [fn' []| | |]; try exact IH. by edestruct Hx.
Qed.

Lemma heard_other x fns : event_name x ≠ stateChange → Forall (λ y, ∀ fn s, y ≠ Heard fn (em_stateChange s)) (heard x fns).
Proof.
  intros Hx. apply Forall_forall. intros y Hy. unfold heard in Hy. rewrite elem_of_reverse in Hy.
  apply list_elem_of_fmap in Hy as (fn & -> & _). intros fn' s [= _ ->]. done.
Qed.

(** Telling a state to [fns], [fn] one of them. *)
Lemma last_heard_heard fn s fns t : fn ∈ fns → last_heard fn (heard (em_stateChange s) fns ++ t) = Some s.
Proof.
  intros Hf. unfold heard. assert (fn ∈ reverse fns) as Hr by by rewrite elem_of_reverse.
  rewrite <-fmap_reverse. revert Hr. generalize (reverse fns) as l. intros l.
  induction l as [|fn' l IH]; [by intros ?%elem_of_nil|]. simpl. intros [->|Hf']%elem_of_cons.
  - by rewrite decide_True.
  - case_decide; [done|by apply IH].
Qed.

(** [fn] listens, and knows the state; [s0] and [told0] are from when it was
    known to listen first. *)
Definition informed `{C : SubtleCrypto} {A} (fn : nat) (s0 : CollabEngineState) (told0 : list HostEntry)
    (h : Host A) : Prop :=
  emitter_wf (emitter (engine h)) ∧ fn ∈ subscribed stateChange (emitter (engine h)) ∧
  ∃ t, told h = t ++ told0 ∧ default s0 (last_heard fn t) = _state (engine h).

(** Inputs that end [fn]'s listening. *)
Definition unsubscribes `{C : SubtleCrypto} (fn : nat) (i : EngineInput (C := C)) : bool :=
  match i with
  | EOff stateChange fn' => bool_decide (fn' = fn)
  | EDispose => true
  | _ => false
  end.

Section informed.
Context `{C : SubtleCrypto} {A : Type} `{!SyncAdapter A} `{P : Platform} (random_iv : nat → list N).
Context (fn : nat) (s0 : CollabEngineState) (told0 : list HostEntry).
Abbreviation KEEPS := (keeps (λ w : World (Host A), informed fn s0 told0 (app w))).

Lemma informed_modh (f : Host A → Host A) :
  (∀ h, emitter (engine (f h)) = emitter (engine h) ∧ _state (engine (f h)) = _state (engine h) ∧ told (f h) = told h) →
  KEEPS (modh f).
Proof.
  intros Hf w (Hw & Hs & Ht). destruct (Hf (app w)) as (E1 & E2 & E3).
  unfold informed. cbn. by rewrite E1, E2, E3.
Qed.

Lemma informed_tell x : (∀ fn s, x ≠ Heard fn (em_stateChange s)) → KEEPS (tell x).
Proof.
  intros Hx w (Hw & Hs & t & Ht & Hl). split_and!; [done..|]. exists ([x] ++ t). rewrite last_heard_other by by constructor.
  cbn. by rewrite Ht.
Qed.

Lemma informed_emit x : event_name x ≠ stateChange → KEEPS (emit x).
Proof.
  intros Hx w (Hw & Hs & t & Ht & Hl). rewrite emit_tells. split_and!; [done..|].
  eexists (_ ++ t). cbn. rewrite Ht, app_assoc. split; [done|]. rewrite last_heard_other; [done|]. by apply heard_other.
Qed.

(** A change of the state is told to [fn]. *)
Lemma informed_updateState f : KEEPS (_updateState f).
Proof.
  intros w (Hw & Hs & t & Ht & Hl). rewrite updateState_tells. split_and!; [done..|].
  eexists (_ ++ t). cbn. rewrite Ht, app_assoc. split; [done|]. by rewrite last_heard_heard.
Qed.

#[export] Instance informed_blind : Blind (λ w : World (Host A), informed fn s0 told0 (app w)) (λ _, True).
Proof.
  split.
  - intros f Hf. apply informed_modh. intros h. specialize (Hf h). unfold quiet_view in Hf. by injection Hf as -> _ -> ->.
  - intros x Hx. apply informed_tell. by intros fn' s ->.
  - intros a now. apply host_send.
  - intros f _. apply informed_updateState.
  - apply informed_emit.
Qed.

Lemma informed_engine_cb c : KEEPS (engine_cb random_iv c).
Proof. apply (laws_engine_cb random_iv _ (λ _, True)). intros params. by apply Forall_forall. Qed.

Lemma informed_on event fn' : KEEPS (mod_e (λ e, e <| emitter := on event fn' (emitter e) |>)).
Proof.
  intros w (Hw & Hs & Ht). split_and!; [by apply on_wf| |exact Ht]. cbn. rewrite subscribed_on by done.
  case_decide as E; [|done]. subst. case_decide; [done|]. apply elem_of_app. by left.
Qed.

Lemma informed_off event fn' :
  unsubscribes fn (EOff event fn') = false →
  KEEPS (mod_e (λ e, e <| emitter := off event fn' (emitter e) |>)).
Proof.
  intros Hu w (Hw & Hs & Ht). split_and!; [by apply off_wf| |exact Ht]. cbn. rewrite subscribed_off by done.
  case_decide as E; [|done]. subst event. apply list_elem_of_filter. split; [|done].
  apply bool_decide_eq_false in Hu. congruence.
Qed.

Lemma informed_exec i : unsubscribes fn i = false → KEEPS (engine_exec random_iv i).
Proof.
  intros Hi. apply (blind_engine_exec random_iv (informed fn s0 told0) (λ _, True)).
  - intros c params. by apply Forall_forall.
  - done.
  - by apply informed_modh.
  - intros [Hs| ->]; [|done]. destruct i; try done; [by apply informed_on|by apply informed_off].
Qed.

Lemma informed_run ins (w : World (Host A)) :
  forallb (negb ∘ unsubscribes fn) ins = true →
  informed fn s0 told0 (app w) → informed fn s0 told0 (app (engine_run random_iv ins w)).
Proof.
  revert w. induction ins as [|i ins IH]; intros w Hi Hw; [done|].
  apply andb_true_iff in Hi as [Hi%negb_true_iff His].
  apply (IH (engine_run1 random_iv i w) His). by apply informed_exec.
Qed.
End informed.

Section wf.
Context `{C : SubtleCrypto} {A : Type} `{!SyncAdapter A} `{P : Platform} (random_iv : nat → list N).
Abbreviation WF := (keeps (λ w : World (Host A), emitter_wf (emitter (engine (app w))))).

Lemma removeAll_wf {K} (e : Emitter K) : emitter_wf e → emitter_wf (removeAllListeners e).
Proof. intros []. split; cbn; try done; [constructor..|]. by intros ? ?%elem_of_nil. Qed.

Lemma wf_same {X} (m : M (World (Host A)) X) :
  (∀ w, emitter (engine (app (m w).2)) = emitter (engine (app w))) → WF m.
Proof. intros Hm w Hw. by rewrite Hm. Qed.

#[export] Instance wf_turns : HostTurns (λ h : Host A, emitter_wf (emitter (engine h))).
Proof.
  split.
  - unfold loop_view, timer_view. by intros h h' [= _ _ _ _ _ -> _ _ _].
  - done.
  - intros k w' Hw'. exact Hw'.
  - done.
  - intros x. apply wf_same. intros w'. by rewrite emit_tells.
  - apply wf_same. intros w'. by destruct (clearTimers_result w') as (_ & (_&_&_&_&_&_&_&_&_&->&_) & _).
  - apply wf_same. intros w'. unfold notifyLocalChange. eunfold. by destruct (_debounceTimer (engine (app w'))).
  - apply wf_same. intros w'. unfold notifyCursorMove. eunfold.
    destruct (negb _); [done|]. by destruct (_cursorPending (engine (app w'))).
  - intros t w' Hw' _. unfold cursorTimerFired, adapter_call.
    match goal with |- emitter_wf (emitter (engine (app (?m ?w1).2))) => cut (WF m); [intros Hm; by apply Hm|] end.
    repeat first [keeps_step | apply keeps_gets | apply (host_client_send (λ h : Host A, emitter_wf (emitter (engine h)))) | by apply wf_same].
  - done.
  - intros w'. apply removeAll_wf.
Qed.

(** The engine's emitter is always in order. *)
Lemma wf_run ins (w : World (Host A)) :
  emitter_wf (emitter (engine (app w))) → emitter_wf (emitter (engine (app (engine_run random_iv ins w)))).
Proof.
  apply (host_engine_run random_iv (λ h : Host A, emitter_wf (emitter (engine h)))).
  apply Forall_forall. intros i _ Hi. destruct i; try done; intros w'; [apply on_wf|apply off_wf].
Qed.
End wf.

(** C30: a listener of [stateChange] knows the engine's state. From when it
    listens, and until it is removed, the engine's state after each turn is
    the state it was last told, or the one from the start when it was told
    none: no change goes unannounced. *)
Theorem listeners_know_the_state `{C : SubtleCrypto} {A : Type} `{!SyncAdapter A} `{P : Platform}
    (random_iv : nat → list N) (o : CollabClientOptions) (adapter : option nat) (d t : option Z)
    (adapters : gmap nat A) (before after : list EngineInput) (fn : nat) :
  let w := engine_run random_iv before (new_world o (new_host (new_engine adapter d t) adapters)) in
  let w' := engine_run random_iv after w in
  fn ∈ subscribed stateChange (emitter (engine (app w))) →
  forallb (negb ∘ unsubscribes fn) after = true →
  ∃ news, told (app w') = news ++ told (app w) ∧
          _state (engine (app w')) = default (_state (engine (app w))) (last_heard fn news).
Proof.
  intros w w' Hs Ha. assert (informed fn (_state (engine (app w))) (told (app w)) (app w')) as (_ & _ & news & E1 & E2).
  { apply informed_run; [done|]. split_and!; [|done|by exists []]. apply wf_run. apply new_emitter_wf. }
  by exists news.
Qed.

Lemma listeners_know_the_state_witness :
  let w := sample_page (take 1 engine_joining) in
  let w' := engine_run (P := node_platform) sample_iv (drop 1 engine_joining) w in
  ∃ news, told (app w') = news ++ told (app w) ∧
          _state (engine (app w')) = default (_state (engine (app w))) (last_heard 7 news).
Proof.
  apply (listeners_know_the_state (P := node_platform) (C := toy_crypto) sample_iv default_options (Some 0%nat) None None
           {[ 0%nat := js "abc" ]} (take 1 engine_joining) (drop 1 engine_joining) 7); [|by vm_compute].
  vm_compute. by left.
Defined.
