(* ===== verification/EngineTypes.v ===== *)
(** * The engine's state is well formed ([ts/src/CollabEngine.ts])

    What the types of the source promise, and what its code relies on without
    saying: in every run, orderly or not, peers are listed under their own
    ids, timer handles are truthy, listener sets are sets, and awaited calls
    are told apart. *)

From S2P Require Import Prelude JsMap Models Crypto CollabClient EventEmitter SyncAdapter CollabEngine.
From S2P Require Import EngineLaws EngineInvariants EngineProperties EngineListeners.
Open Scope Z_scope.

(** ** Peers *)

(** [Map<string, PeerInfoJson>], each peer under its own, non-empty id. *)
Definition peers_ok (m : jsmap jsstr PeerInfoJson) : Prop :=
  map_wf m ∧ ∀ id p, map_get id m = Some p → PeerInfoJson_clientId p = Some id ∧ id ≠ [].

Lemma peers_ok_nil : peers_ok [].
Proof. split; [constructor|done]. Qed.

Lemma peers_ok_set p m :
  truthy (default [] (PeerInfoJson_clientId p)) = true → peers_ok m →
  peers_ok (map_set (default [] (PeerInfoJson_clientId p)) p m).
Proof.
  destruct (PeerInfoJson_clientId p) as [id|] eqn:Ep; [|done]. simpl. intros Ht%truthy_spec [Hw Hm].
  split; [by apply map_set_wf|]. intros i q. destruct (decide (id = i)) as [<-|Hi].
  - rewrite map_get_set. by intros [= <-].
  - rewrite map_get_set_ne by done. apply Hm.
Qed.

Lemma peers_ok_delete id m : peers_ok m → peers_ok (map_delete id m).
Proof.
  intros [Hw Hm]. split; [by apply map_delete_wf|]. intros i q. destruct (decide (id = i)) as [<-|Hi].
  - by rewrite map_get_delete.
  - rewrite map_get_delete_ne by done. apply Hm.
Qed.

Section types.
Context `{C : SubtleCrypto} {A : Type} `{!SyncAdapter A} `{P : Platform} (random_iv : nat → list N).

Definition lists_peers (h : Host A) : Prop := peers_ok (st_peers (_state (engine h))).

(** Changes of the state that keep peers in order. *)
Definition peers_kept (f : CollabEngineState → CollabEngineState) : Prop :=
  ∀ s, peers_ok (st_peers s) → peers_ok (st_peers (f s)).

#[export] Instance lists_peers_blind : Blind (λ w : World (Host A), lists_peers (app w)) peers_kept.
Proof.
  split.
  - intros f Hf w. unfold lists_peers. specialize (Hf (app w)). unfold quiet_view in Hf. injection Hf as E _ _ _. cbn. by rewrite E.
  - intros x _ w Hw. exact Hw.
  - intros a now. apply (host_send lists_peers).
  - intros f Hf w Hw. rewrite updateState_tells. by apply Hf.
  - intros x _ w Hw. by rewrite emit_tells.
Qed.

Lemma handlers_keep_peers c params : Forall peers_kept (handler_updates params c).
Proof.
  destruct c; cbn [handler_updates]; repeat case_match; repeat apply Forall_cons_2; try apply Forall_nil_2; intros s Hs; try done.
  all: first [by apply peers_ok_set | by apply peers_ok_delete | apply peers_ok_nil].
Qed.

Lemma lists_peers_exec i : keeps (λ w : World (Host A), lists_peers (app w)) (engine_exec random_iv i).
Proof.
  apply (blind_engine_exec random_iv lists_peers peers_kept); [apply handlers_keep_peers|by intros s|by intros w|].
  intros Hi w Hw. destruct i; destruct Hi as [Hi|Hi]; try done.
  cbn [engine_exec]. unfold dispose.
  assert (keeps (λ w : World (Host A), lists_peers (app w)) (disconnect random_iv)) as Hd.
  { apply app_disconnect. intros c. apply (laws_engine_cb random_iv _ peers_kept). intros params. apply handlers_keep_peers. }
  revert w Hw. match goal with |- ∀ w, lists_peers (app w) → lists_peers (app (?m w).2) =>
    change (keeps (λ w : World (Host A), lists_peers (app w)) m) end.
  repeat first [keeps_step | apply keeps_gets | apply Hd | apply law_clear | by intros w Hw].
Qed.

Lemma lists_peers_run ins (w : World (Host A)) :
  lists_peers (app w) → lists_peers (app (engine_run random_iv ins w)).
Proof.
  revert w. induction ins as [|i ins IH]; intros w Hw; [done|]. apply (IH (engine_run1 random_iv i w)). by apply lists_peers_exec.
Qed.

(** ** Awaited calls *)

Definition tasks_ok (h : Host A) : Prop := no_tasks_from (nextTask h) h.

(** A program that awaits and settles nothing. *)
Lemma tasks_same {X} (m : M (World (Host A)) X) :
  (∀ w, tasks (app (m w).2) = tasks (app w) ∧ nextTask (app (m w).2) = nextTask (app w)) →
  keeps (λ w : World (Host A), tasks_ok (app w)) m.
Proof. intros Hm w Hw i. destruct (Hm w) as [-> ->]. apply Hw. Qed.

#[export] Instance tasks_turns : HostTurns tasks_ok.
Proof.
  split.
  - unfold loop_view. intros h h' [= _ _ _ _ _ _ _ E1 E2] Hh i. rewrite E1, E2. apply Hh.
  - intros a c h _ Hh. exact Hh.
  - intros k w Hw i Hi. cbn in Hi. unfold await, modh, modify. cbn. rewrite lookup_insert_ne by lia. apply Hw. lia.
  - intros k h Hh i Hi. cbn. apply lookup_delete_None. right. by apply Hh.
  - intros x. apply tasks_same. intros w. by rewrite emit_tells.
  - apply tasks_same. intros w. unfold _clearTimers. eunfold.
    destruct (_debounceTimer (engine (app w))) as [[|d]|] eqn:Ed, (_cursorTimer (engine (app w))) as [[|c]|] eqn:Ec; cbn.
    all: rewrite ?Ed, ?Ec; cbn; by rewrite ?Ed, ?Ec.
  - apply tasks_same. intros w. unfold notifyLocalChange. eunfold. by destruct (_debounceTimer (engine (app w))).
  - apply tasks_same. intros w. unfold notifyCursorMove. eunfold. destruct (negb _); [done|]. by destruct (_cursorPending _).
  - intros t w Hw _. unfold cursorTimerFired, adapter_call.
    match goal with |- tasks_ok (app (?m ?w1).2) => cut (keeps (λ w : World (Host A), tasks_ok (app w)) m); [intros Hm; by apply Hm|] end.
    repeat first [keeps_step | apply keeps_gets | apply host_client_send | by apply tasks_same].
  - intros t h Hh _. exact Hh.
  - intros w Hw. exact Hw.
Qed.

Lemma tasks_run ins (w : World (Host A)) : tasks_ok (app w) → tasks_ok (app (engine_run random_iv ins w)).
Proof.
  apply (host_engine_run random_iv tasks_ok). apply Forall_forall. intros i _ Hi. destruct i; try done; intros w' Hw'; exact Hw'.
Qed.
End types.

(** ** The property *)

Record well_formed_host `{C : SubtleCrypto} {A} (h : Host A) : Prop := {
  wf_peers : peers_ok (st_peers (_state (engine h)));
  (** [if (this._debounceTimer)] holds of every handle, and each pending timer is the one held. *)
  wf_timers : timers_ok h;
  (** [Map<string, Set<Function>>]: no listener twice, no set shared. *)
  wf_listeners : emitter_wf (emitter (engine h));
  (** An awaited call has a number no later one gets. *)
  wf_tasks : tasks_ok h
}.

