(* ===== verification/EngineEncryption.v ===== *)
(** * Encryption between engines ([ts/src/CollabEngine.ts])

    What an engine with a key sends, what an engine with the same key makes
    of it, and that other keys deliver nothing: through the debounce timer,
    the chain of awaited calls on both sides, and the client's [send]. *)

From S2P Require Import Prelude.
From S2P Require Import JsText.
From S2P Require Import JsMap.
From S2P Require Import Models.
From S2P Require Import Crypto.
From S2P Require Import CollabClient.
From S2P Require Import ClientInvariants.
From S2P Require Import EventEmitter.
From S2P Require Import SyncAdapter.
From S2P Require Import CollabEngine.
From S2P Require Import EngineLaws.
From S2P Require Import EngineInvariants.
From S2P Require Import EngineProperties.
Open Scope Z_scope.

(** ** Chains of tasks *)

(** The turns of [m] tasks, from task [n] on. *)
Definition task_turns `{C : SubtleCrypto} (n m : nat) : list (EngineInput (C := C)) := ETask <$> seq n m.

Section tasks.
Context `{C : SubtleCrypto} {A : Type} `{!SyncAdapter A} `{P : Platform} (random_iv : nat → list N).
Implicit Types (w : World (Host A)).
Abbreviation RUN := (engine_run random_iv (A := A)).

Lemma engine_run_cons i ins w : RUN (i :: ins) w = RUN ins (engine_run1 random_iv i w).
Proof. done. Qed.

Lemma task_turns_idle n m w : no_tasks_from n (app w) → RUN (task_turns n m) w = w.
Proof.
  revert n. induction m as [|m IH]; intros n Hn; [done|]. unfold task_turns in *. simpl.
  assert (engine_run1 random_iv (ETask n) w = w) as E.
  { unfold engine_run1, engine_exec, taskSettled, host, modh, gets, modify, mbind, M_bind. cbn.
    rewrite (Hn n) by lia. cbn. rewrite delete_id by (by apply Hn). by destruct w as [c e [] l]. }
  rewrite E. apply IH. intros i Hi. apply Hn. lia.
Qed.

(** A host whose last task is [k], about to be resumed. *)
Lemma task_turn_await k n m w :
  nextTask (app w) = n → no_tasks_from n (app w) →
  RUN (task_turns n (S m)) (await k w).2 =
  RUN (task_turns (S n) m) (resume random_iv k (w <| app := (app w) <| nextTask := S n |> |>)).2.
Proof.
  intros En Hn. unfold task_turns. simpl. f_equal.
  unfold engine_run1, engine_exec, taskSettled, await, host, modh, gets, modify, mbind, M_bind. cbn.
  rewrite En, lookup_insert_eq, delete_insert_eq. cbn. by rewrite delete_id by (by apply Hn).
Qed.
End tasks.

(** ** Sending *)

(** The client of [w] is connected over socket [s], which takes what it sends. *)
Definition sending `{P : Platform} {H} (s : nat) (w : World H) : Prop :=
  grpc (client w) = Some s ∧ _isConnected (client w) = true ∧
  ∀ a, grpc_send_error (default Closed (sockets (env w) !! s)) a = None.

(** The action as the client sends it. *)
Definition stamped (c : CollabClient) (now : N) (a : CollabActionJson) : CollabActionJson :=
  a <| CollabActionJson_clientId := Some (_clientId c) |>
    <| CollabActionJson_timestamp := Some (js_number now) |>.

Definition scene_action (elements : list ElementUpdateJson) : CollabActionJson :=
  emptyCollabActionJson <| CollabActionJson_sceneUpdate := Some (mkSceneUpdateJson (Some elements)) |>.

(** [el'] is [el] with its data sealed under [k], if it has data. *)
Definition sealed `{C : SubtleCrypto} (k : CryptoKey) (el el' : ElementUpdateJson) : Prop :=
  if otruthy (ElementUpdateJson_data el) then
    ∃ t, el' = el <| ElementUpdateJson_data := Some t |> ∧ t ≠ [] ∧
         decryptPayload k t = Some (without_bom (default [] (ElementUpdateJson_data el)))
  else el' = el.

Definition good_ivs (random_iv : nat → list N) : Prop :=
  ∀ n, is_bytes (random_iv n) ∧ length (random_iv n) = IV_LENGTH.

Section sending.
Context `{C : SubtleCrypto} {L : AesGcmLaws C} {A : Type} `{!SyncAdapter A} `{P : Platform}.
Context (random_iv : nat → list N) (Hiv : good_ivs random_iv).
Implicit Types (w : World (Host A)).
Abbreviation RUN := (engine_run random_iv (A := A)).

Lemma client_send_sends a s w :
  sending s w →
  client_send a w = (Ok tt, w <| log := Eff (ESend s (stamped (client w) (clock (app w)) a)) :: log w |>).
Proof.
  intros (Hg & Hc & Hs). unfold client_send, host, send, socket_send, get, gets, mbind, M_bind. rewrite Hg, Hc.
  by rewrite Hs.
Qed.

Lemma encrypt_now_seals k p w :
  _encryptionKey (engine (app w)) = Some k → good_str p →
  ∃ t, encrypt_now random_iv p w = (Ok (Some t), w <| app := (app w) <| randoms := S (randoms (app w)) |> |>) ∧
       t ≠ [] ∧ decryptPayload k t = Some (without_bom p).
Proof.
  intros Hk Hp. destruct (Hiv (randoms (app w))) as [H1 H2].
  destruct (encryptPayload_opens k (random_iv (randoms (app w))) p H1 H2 Hp) as (t & Ht & Hn & Hd).
  exists t. split_and!; [|done..]. unfold encrypt_now, host, modh, gets, modify, mbind, M_bind. cbn.
  by rewrite Hk, Ht.
Qed.

Lemma scene_encrypt_sends k s rest m ready w :
  _encryptionKey (engine (app w)) = Some k → sending s w → no_tasks_from (nextTask (app w)) (app w) →
  Forall (λ el, good_str (default [] (ElementUpdateJson_data el))) rest → (length rest ≤ m)%nat →
  ∃ sent, Forall2 (sealed k) rest sent ∧
    log (RUN (task_turns (nextTask (app w)) m) (scene_encrypt random_iv ready rest w).2) =
      Eff (ESend s (stamped (client w) (clock (app w)) (scene_action (ready ++ sent)))) :: log w.
Proof.
  revert m ready w. induction rest as [|el rest IH]; intros m ready w Hk Hs Hn Hg Hm.
  - exists []. split; [done|]. cbn [scene_encrypt]. unfold send_scene. rewrite (client_send_sends _ s) by done.
    rewrite task_turns_idle by done. by rewrite app_nil_r.
  - apply Forall_cons in Hg as [Hel Hg]. cbn [scene_encrypt].
    destruct (otruthy (ElementUpdateJson_data el)) eqn:Et.
    + destruct (encrypt_now_seals k _ w Hk Hel) as (t & Ee & Ht & Hd).
      unfold mbind at 1, M_bind at 1. rewrite Ee. cbv beta iota.
      destruct m as [|m]; [simpl in Hm; lia|].
      set (w1 := w <| app := (app w) <| randoms := S (randoms (app w)) |> |>).
      change (nextTask (app w)) with (nextTask (app w1)).
      rewrite task_turn_await by done. cbn [resume swallow]. unfold swallow. cbn [snd].
      destruct (IH m (ready ++ [el <| ElementUpdateJson_data := Some t |>])
                  (w1 <| app := (app w1) <| nextTask := S (nextTask (app w1)) |> |>)) as (sent & Hf & Hl); [done|done| |done| |].
      * intros i Hi. cbn in Hi. apply Hn. cbn. lia.
      * simpl in Hm. lia.
      * exists (el <| ElementUpdateJson_data := Some t |> :: sent). split.
        -- constructor; [|done]. unfold sealed. rewrite Et. by exists t.
        -- etransitivity; [exact Hl|]. by rewrite <-app_assoc.
    + destruct (IH m (ready ++ [el]) w) as (sent & Hf & Hl); [done..|simpl in Hm; lia|].
      exists (el :: sent). split; [constructor; [|done]; unfold sealed; by rewrite Et|].
      rewrite Hl. by rewrite <-app_assoc.
Qed.
End sending.

(** ** Receiving *)

(** An element with its data opened under [k], if it has data. *)
Definition open_element `{C : SubtleCrypto} (k : CryptoKey) (el : ElementUpdate) : option ElementUpdate :=
  if truthy (ElementUpdate_data el)
  then (λ t, el <| ElementUpdate_data := t |>) <$> decryptPayload k (ElementUpdate_data el)
  else Some el.

(** All of them, if all open. *)
Fixpoint open_elements `{C : SubtleCrypto} (k : CryptoKey) (els : list ElementUpdate) : option (list ElementUpdate) :=
  match els with
  | [] => Some []
  | el :: els' =>
      match open_element k el, open_elements k els' with
      | Some x, Some xs => Some (x :: xs)
      | _, _ => None
      end
  end.

(** Adapter [a] was given [payload], and nothing else happened outside the engine. *)
Definition delivered `{C : SubtleCrypto} {A} `{!SyncAdapter A} (a : nat) (from : jsstr) (payload : RemotePayload)
    (h h' : Host A) : Prop :=
  told h' = Called a (ac_applyRemote from payload) :: told h ∧
  adapters h' !! a = (λ st, (applyRemote from payload st).2) <$> adapters h !! a.

Definition untouched `{C : SubtleCrypto} {A} (h h' : Host A) : Prop :=
  told h' = told h ∧ adapters h' = adapters h.

(** What becomes of a scene update's elements [rest], after [ready]. *)
Definition scene_outcome `{C : SubtleCrypto} {A} `{!SyncAdapter A} (k : CryptoKey) (a : nat) (from : jsstr)
    (ready rest : list ElementUpdate) (h h' : Host A) : Prop :=
  match open_elements k rest with
  | Some plain => delivered a from (Remote_elements (ready ++ plain)) h h'
  | None => untouched h h'
  end.

(** The events the engine hands to its adapter. *)
Definition is_sync (ev : CollabEvent) : bool :=
  match CollabEvent_event ev with
  | ev_sceneUpdate _ | ev_textUpdate _ | ev_cursorUpdate _ | ev_sceneInitRequest _ | ev_sceneInitResponse _ => true
  | _ => false
  end.

Section receiving.
Context `{C : SubtleCrypto} {A : Type} `{!SyncAdapter A} `{P : Platform} (random_iv : nat → list N).
Implicit Types (w : World (Host A)).
Abbreviation RUN := (engine_run random_iv (A := A)).

Lemma adapter_call_delivers a from payload w :
  let w' := (adapter_call a (ac_applyRemote from payload) (applyRemote from payload) w).2 in
  delivered a from payload (app w) (app w') ∧ tasks (app w') = tasks (app w).
Proof.
  intros w'. unfold w', delivered, adapter_call, tell, host, modh, gets, modify, throw, mret, mbind, M_bind, M_ret. cbn.
  destruct (adapters (app w) !! a) as [st|] eqn:E; cbn; [|by rewrite E].
  destruct (applyRemote from payload st) as [[] st'] eqn:Er; cbn; by rewrite lookup_insert_eq.
Qed.

Lemma scene_outcome_step k a from ready el el' rest (h h' : Host A) :
  open_element k el = Some el' → scene_outcome k a from (ready ++ [el']) rest h h' →
  scene_outcome k a from ready (el :: rest) h h'.
Proof.
  intros He. unfold scene_outcome. cbn [open_elements]. rewrite He.
  destruct (open_elements k rest); [by rewrite <-app_assoc|done].
Qed.

Lemma decrypt_now_opens k d w :
  _encryptionKey (engine (app w)) = Some k → decrypt_now d w = (Ok (decryptPayload k d), w).
Proof. intros Hk. unfold decrypt_now, gete, gets, mbind, M_bind. by rewrite Hk. Qed.

Lemma scene_decrypt_delivers k a from rest m ready w :
  _encryptionKey (engine (app w)) = Some k → no_tasks_from (nextTask (app w)) (app w) → (length rest ≤ m)%nat →
  scene_outcome k a from ready rest (app w)
    (app (RUN (task_turns (nextTask (app w)) m) (scene_decrypt a from ready rest w).2)).
Proof.
  revert m ready w. induction rest as [|el rest IH]; intros m ready w Hk Hn Hm.
  - cbn [scene_decrypt]. unfold scene_outcome. cbn [open_elements]. rewrite app_nil_r.
    destruct (adapter_call_delivers a from (Remote_elements ready) w) as (Hd & Ht).
    rewrite task_turns_idle; [done|]. intros i. rewrite Ht. apply Hn.
  - cbn [scene_decrypt]. destruct (truthy (ElementUpdate_data el)) eqn:Et.
    + unfold mbind at 1, M_bind at 1. rewrite (decrypt_now_opens k) by done. cbv beta iota.
      destruct m as [|m]; [simpl in Hm; lia|]. rewrite task_turn_await by done. cbn [resume].
      set (w1 := w <| app := (app w) <| nextTask := S (nextTask (app w)) |> |>).
      assert (no_tasks_from (S (nextTask (app w))) (app w1)) as Hn1 by (intros i Hi; apply Hn; lia).
      destruct (decryptPayload k (ElementUpdate_data el)) as [t|] eqn:Ed.
      * specialize (IH m (ready ++ [el <| ElementUpdate_data := t |>]) w1 Hk Hn1).
        apply (scene_outcome_step _ _ _ _ _ (el <| ElementUpdate_data := t |>)); [by unfold open_element; rewrite Et, Ed|].
        apply IH. simpl in Hm. lia.
      * unfold scene_outcome, swallow. cbn [open_elements snd]. unfold open_element at 1. rewrite Et, Ed.
        cbn [fmap option_fmap option_map]. change ((mret tt : M (World (Host A)) unit) w1).2 with w1. by rewrite task_turns_idle.
    + apply (scene_outcome_step _ _ _ _ _ el); [by unfold open_element; rewrite Et|].
      apply IH; [done..|]. simpl in Hm. lia.
Qed.

(** A message the engine hands to its adapter. *)
Lemma message_handled s ev params w :
  wired (engine (app w)) = Some params → is_sync ev = true →
  engine_run1 random_iv (EClient (IMessage s ev)) w =
    (handleSyncEvent random_iv ev (w <| log := Cb (OnEvent ev) :: log w |>)).2.
Proof.
  intros Hw He. unfold engine_run1. cbn [engine_exec exec]. unfold onMessage, is_roomJoined, handleEvent, call.
  unfold is_sync in He. destruct (CollabEvent_event ev) eqn:Ee; try done.
  all: unfold engine_cb, onEvent, _handleSyncEvent, swallow, record, gete, gets, modify, mret, mbind, M_bind, M_ret, when.
  all: cbn -[handleSyncEvent]; rewrite Hw; cbn -[handleSyncEvent]; by rewrite Ee.
Qed.
End receiving.

(** A message [ev] reaches the body of [handleSyncEvent] in world [w1], with
    the engine's adapter and key as [Ha] and [Hk] say. *)
Ltac receive s ev params He Ha Hk w1 :=
  rewrite (message_handled _ s ev params) by (done || unfold is_sync; by rewrite He);
  match goal with |- context [handleSyncEvent _ ev ?w0] => set (w1 := w0) end;
  unfold handleSyncEvent, gete, gets, mbind at 1, M_bind at 1; cbn [app]; rewrite He;
  change (_adapter (engine (app w1))) with ltac:(match type of Ha with ?x = _ => exact x end);
  change (_encryptionKey (engine (app w1))) with ltac:(match type of Hk with ?x = _ => exact x end);
  rewrite Ha, Hk.

(** ** From one engine to another *)

(** An engine with adapter [a] and key [k], and no call awaited. *)
Record sharing `{C : SubtleCrypto} {A} (a : nat) (k : CryptoKey) (h : Host A) : Prop := {
  sh_adapter : _adapter (engine h) = Some a;
  sh_key : _encryptionKey (engine h) = Some k;
  sh_tasks : no_tasks_from (nextTask h) h
}.

(** An element without its data. *)
Definition frame_of (el : ElementUpdate) : ElementUpdate := el <| ElementUpdate_data := [] |>.

Section transfer.
Context `{C : SubtleCrypto}.

Lemma open_sealed k els sent rels :
  Forall2 (sealed k) els sent →
  ElementUpdate_data <$> rels = (λ el, default [] (ElementUpdateJson_data el)) <$> sent →
  ∃ plain, open_elements k rels = Some plain ∧
    ElementUpdate_data <$> plain = (λ el, without_bom (default [] (ElementUpdateJson_data el))) <$> els ∧
    frame_of <$> plain = frame_of <$> rels.
Proof.
  intros Hf. revert rels. induction Hf as [|el el' els sent Hel Hf IH]; intros [|rel rels] Hd; try done.
  { by exists []. }
  injection Hd as Hd1 Hd2. destruct (IH rels Hd2) as (plain & E1 & E2 & E3).
  cbn [open_elements]. unfold open_element. rewrite E1, Hd1. unfold sealed in Hel.
  destruct (otruthy (ElementUpdateJson_data el)) eqn:Et.
  - destruct Hel as (t & -> & Hn & Ht). cbn. apply truthy_spec in Hn. rewrite Hn, Ht. cbn.
    eexists (_ :: plain). split_and!; [done|by cbn; f_equal|by cbn; f_equal].
  - subst el'. assert (default [] (ElementUpdateJson_data el) = []) as E.
    { by destruct (ElementUpdateJson_data el) as [[]|]. }
    rewrite E in *. cbn. exists (rel :: plain). split_and!; [done| |by cbn; f_equal].
    cbn. by rewrite Hd1, E2, E.
Qed.

Lemma open_elements_fails k el els :
  el ∈ els → open_element k el = None → open_elements k els = None.
Proof.
  intros Hin He. induction els as [|el' els IH]; [by apply elem_of_nil in Hin|]. cbn [open_elements].
  apply elem_of_cons in Hin as [<-|Hin]; [by rewrite He|].
  rewrite IH by done. by destruct (open_element k el').
Qed.
End transfer.

Section flush.
Context `{C : SubtleCrypto} {A : Type} `{!SyncAdapter A} `{P : Platform} (random_iv : nat → list N).
Implicit Types (w : World (Host A)).

(** The debounce timer fires: the adapter is asked for its update. *)
Lemma timer_flushes_scene t a st st' els w :
  pending (app w) !! t = Some DebounceTimer → _adapter (engine (app w)) = Some a →
  is_Some (_encryptionKey (engine (app w))) → phase (_state (engine (app w))) = connected →
  adapters (app w) !! a = Some st →
  computeOutgoing st = (Ok (Some (Out_sceneUpdate (mkSceneUpdateJson (Some els)))), st') →
  engine_run1 random_iv (ETimer t) w =
  (scene_encrypt random_iv [] els
     (w <| app := (app w) <| pending := delete t (pending (app w)) |>
                          <| told := Called a ac_computeOutgoing :: told (app w) |>
                          <| adapters := <[ a := st' ]> (adapters (app w)) |> |>)).2.
Proof.
  intros Ht Ha [k Hk] Hp Hst Hc. unfold engine_run1. cbn [engine_exec].
  unfold timerFired, _flushOutgoing, flushOutgoing, swallow, adapter_call, tell, host, gete, modh, gets, modify,
    mret, throw, mbind, M_bind, M_ret. cbn -[scene_encrypt]. rewrite Ht. cbn -[scene_encrypt].
  rewrite Ha, bool_decide_true by done. cbn -[scene_encrypt]. rewrite Hst. cbn -[scene_encrypt].
  rewrite Hc. cbn -[scene_encrypt]. by rewrite Hk.
Qed.
End flush.

(** ** Properties *)


(** ** Witness: a board of one element *)

Definition board_element (data : jsstr) : ElementUpdateJson :=
  mkElementUpdateJson (Some (js "e1")) (Some 1) (Some 0) (Some data) None.

Definition board : SyncAdapter jsstr := {|
  computeOutgoing := s ← gets id; mret (Some (Out_sceneUpdate (mkSceneUpdateJson (Some [board_element s]))));
  applyRemote _ p :=
    match p with Remote_elements els => modify (λ s, default s (ElementUpdate_data <$> head els)) | Remote_text _ _ _ => mret tt end;
  getSceneSnapshot := gets id;
  applySceneInit payload := modify (λ _, payload);
  getCursorData := mret None;
  applyRemoteCursor _ := mret tt;
  removePeerCursor _ := mret tt
|}.

Abbreviation sample_sharing :=
  (engine_run (P := node_platform) (C := toy_crypto) (SyncAdapter0 := board) sample_iv
     (engine_joining ++ [ESetEncryptionKey (Some tt : option (CryptoKey (SubtleCrypto := toy_crypto))); ENotifyLocalChange])
     (new_world default_options sample_host)).

