(* ===== verification/EngineExchange.v ===== *)
(** * Texts and scenes between engines ([ts/src/CollabEngine.ts])

    Text updates, and the snapshot of the scene that a room member sends to
    one who asks, from the engine that sends to the adapter of the engine that
    receives: with a key both have, or without one. And what a call that is
    still awaited does when it settles late. *)

From S2P Require Import Prelude JsText JsMap Models Crypto CollabClient ClientInvariants EventEmitter SyncAdapter.
From S2P Require Import CollabEngine EngineLaws EngineInvariants EngineProperties EngineEncryption.
Open Scope Z_scope.

(** ** Sealing and opening *)

(** [x] is what an engine with key [k] sends for [p]; [opened k p] is what
    one with the same key makes of it. *)
Definition seals `{C : SubtleCrypto} (k : option CryptoKey) (p x : jsstr) : Prop :=
  match k with Some key => x ≠ [] ∧ decryptPayload key x = Some (without_bom p) | None => x = p end.

Definition opened `{C : SubtleCrypto} (k : option CryptoKey) (p : jsstr) : jsstr :=
  match k with Some _ => without_bom p | None => p end.

(** An engine with an adapter, a key or none, and no call awaited. *)
Record engaged `{C : SubtleCrypto} {A} (a : nat) (k : option CryptoKey) (h : Host A) : Prop := {
  en_adapter : _adapter (engine h) = Some a;
  en_key : _encryptionKey (engine h) = k;
  en_tasks : no_tasks_from (nextTask h) h
}.

Section exchange.
Context `{C : SubtleCrypto} {A : Type} `{!SyncAdapter A} `{P : Platform} (random_iv : nat → list N).
Implicit Types (w : World (Host A)).
Abbreviation RUN := (engine_run random_iv (A := A)).
Abbreviation E := (M (World (Host A))).

(** [w] with its next task renumbered. *)
Definition renumbered (m : nat) (w : World (Host A)) : World (Host A) := w <| app := (app w) <| nextTask := m |> |>.

Lemma settle_await k w :
  no_tasks_from (nextTask (app w)) (app w) →
  RUN [ETask (nextTask (app w))] (await k w).2 = (resume random_iv k (renumbered (S (nextTask (app w))) w)).2.
Proof. intros Hn. by apply (task_turn_await random_iv k (nextTask (app w)) 0 w). Qed.

Lemma settle_nothing n w : tasks (app w) !! n = None → RUN [ETask n] w = w.
Proof.
  intros Hn. unfold engine_run, engine_run1, engine_exec, taskSettled, host, modh, gets, modify, mbind, M_bind. cbn.
  rewrite Hn. cbn. rewrite delete_id by done. by destruct w as [c e [] l].
Qed.

(** What an engine does with an outgoing text: [encryptPayload] and a message, or a message. *)
Lemma seal_and_send `{L : !AesGcmLaws C} (K : option jsstr → Task) (act : jsstr → CollabActionJson) k p s w :
  good_ivs random_iv → (∀ x, resume random_iv (K (Some x)) = swallow (client_send (act x))) →
  _encryptionKey (engine (app w)) = k → no_tasks_from (nextTask (app w)) (app w) → sending s w → good_str p →
  ∃ x, seals k p x ∧
    log (RUN [ETask (nextTask (app w))]
           ((match k with Some _ => result ← encrypt_now random_iv p; await (K result) | None => client_send (act p) end : E unit) w).2) =
      Eff (ESend s (stamped (client w) (clock (app w)) (act x))) :: log w.
Proof.
  intros Hiv HK Hk Hn Hs Hp. destruct k as [key|].
  - destruct (encrypt_now_seals random_iv Hiv key p w Hk Hp) as (x & Ex & Hx & Hd). exists x. split; [done|].
    unfold mbind at 1, M_bind at 1. rewrite Ex. cbv beta iota.
    set (w1 := w <| app := (app w) <| randoms := S (randoms (app w)) |> |>).
    change (nextTask (app w)) with (nextTask (app w1)). rewrite settle_await by done. rewrite HK. unfold swallow. cbn [snd].
    by rewrite (client_send_sends (act x) s).
  - exists p. split; [done|]. rewrite (client_send_sends (act p) s) by done. cbn [snd]. rewrite settle_nothing by (apply Hn; cbn; lia). done.
Qed.

(** What an engine does with a text that arrives. *)
Lemma open_and_apply (K : option jsstr → Task) (cont : jsstr → E unit) k p x w :
  (∀ t, resume random_iv (K (Some t)) = swallow (cont t)) → (∀ t w, tasks (app (cont t w).2) = tasks (app w)) →
  seals k p x → _encryptionKey (engine (app w)) = k → no_tasks_from (nextTask (app w)) (app w) →
  ∃ m, RUN [ETask (nextTask (app w))]
         ((match k with Some _ => result ← decrypt_now x; await (K result) | None => cont x end : E unit) w).2 =
       (cont (opened k p) (renumbered m w)).2.
Proof.
  intros HK Hc Hx Hk Hn. destruct k as [key|].
  - destruct Hx as [_ Hd]. exists (S (nextTask (app w))). unfold mbind at 1, M_bind at 1.
    rewrite (decrypt_now_opens key) by done. cbv beta iota. by rewrite settle_await, Hd, HK.
  - exists (nextTask (app w)). cbn in Hx. subst x. rewrite settle_nothing by (rewrite Hc; by apply Hn).
    f_equal. f_equal. by destruct w as [c e [] l].
Qed.

(** *** Text updates *)

Definition text_action (tu : TextUpdateJson) : CollabActionJson :=
  emptyCollabActionJson <| CollabActionJson_textUpdate := Some tu |>.

Definition with_text (tu : TextUpdateJson) (x : jsstr) : TextUpdateJson :=
  mkTextUpdateJson (Some x) (TextUpdateJson_version tu) (TextUpdateJson_cursorPosition tu).

(** The debounce timer fires: the adapter is asked for its update. *)
Lemma timer_flushes_text t a st st' tu text w :
  pending (app w) !! t = Some DebounceTimer → _adapter (engine (app w)) = Some a →
  phase (_state (engine (app w))) = connected → adapters (app w) !! a = Some st →
  computeOutgoing st = (Ok (Some (Out_textUpdate tu)), st') → TextUpdateJson_text tu = Some text →
  engine_run1 random_iv (ETimer t) w =
  ((match _encryptionKey (engine (app w)) with
    | Some _ => result ← encrypt_now random_iv text; await (TextEncrypting tu result)
    | None => client_send (text_action (with_text tu text)) end : E unit)
     (w <| app := (app w) <| pending := delete t (pending (app w)) |>
                          <| told := Called a ac_computeOutgoing :: told (app w) |>
                          <| adapters := <[ a := st' ]> (adapters (app w)) |> |>)).2.
Proof.
  intros Ht Ha Hp Hst Hc Htu. unfold engine_run1. cbn [engine_exec].
  unfold timerFired, _flushOutgoing, flushOutgoing, swallow, adapter_call, tell, host, gete, modh, gets, modify,
    mret, throw, mbind, M_bind, M_ret. cbn -[encrypt_now client_send]. rewrite Ht. cbn -[encrypt_now client_send].
  rewrite Ha, bool_decide_true by done. cbn -[encrypt_now client_send]. rewrite Hst. cbn -[encrypt_now client_send].
  rewrite Hc. cbn -[encrypt_now client_send]. rewrite Htu.
  destruct (_encryptionKey (engine (app w))); [done|]. unfold send_text, text_action, with_text. by destruct tu; cbn in *; subst.
Qed.

(** *** The scene *)

Definition scene_response (payload : jsstr) : CollabActionJson :=
  emptyCollabActionJson <| CollabActionJson_sceneInitResponse := Some (mkSceneInitResponseJson (Some payload)) |>.

(** The adapter was given [scene], and the engine is initialized. *)
Definition initialized_with (a : nat) (scene : jsstr) (h h' : Host A) : Prop :=
  adapters h' !! a = (λ st, (applySceneInit scene st).2) <$> adapters h !! a ∧
  (∀ st, adapters h !! a = Some st → (applySceneInit scene st).1 = Ok tt →
     _state (engine h') = (_state (engine h)) <| isInitialized := true |>).

Lemma apply_init_delivers a scene w :
  initialized_with a scene (app w) (app (apply_init a scene w).2) ∧
  tasks (app (apply_init a scene w).2) = tasks (app w).
Proof.
  unfold apply_init, initialized_with, adapter_call, tell, host, modh, gets, modify, throw, mret. unfold mbind, M_bind, M_ret. cbn -[_updateState].
  destruct (adapters (app w) !! a) as [st|] eqn:Ea; cbn -[_updateState]; [|by rewrite Ea].
  destruct (applySceneInit scene st) as [[[]|err] st'] eqn:Er; cbn -[_updateState].
  - rewrite updateState_tells. cbn. rewrite lookup_insert_eq. by split_and!.
  - rewrite lookup_insert_eq. split_and!; [done| |done]. intros ? [= <-]. by rewrite Er.
Qed.

(** A request for the scene, at an engine that answers it. *)
Lemma request_answered ev a st st' scene w :
  CollabEvent_event ev = ev_sceneInitRequest mkSceneInitRequest → CollabEvent_fromClientId ev ≠ [] →
  shouldRespond (_state (engine (app w))) (CollabEvent_fromClientId ev) = true →
  _adapter (engine (app w)) = Some a → adapters (app w) !! a = Some st → getSceneSnapshot st = (Ok scene, st') →
  handleSyncEvent random_iv ev w =
  (match _encryptionKey (engine (app w)) with
   | Some _ => result ← encrypt_now random_iv scene; await (SnapshotEncrypting result)
   | None => client_send (scene_response scene) end : E unit)
    (w <| app := (app w) <| told := Called a ac_getSceneSnapshot :: told (app w) |>
                         <| adapters := <[ a := st' ]> (adapters (app w)) |> |>).
Proof.
  intros He Hf Hr Ha Hst Hsc. apply truthy_spec in Hf. unfold handleSyncEvent. rewrite He.
  unfold adapter_call, tell, host, gete, modh, gets, modify, when, throw, mret, mbind, M_bind, M_ret. cbn -[encrypt_now client_send].
  rewrite Ha, Hf, Hr. cbn -[encrypt_now client_send]. rewrite Hst. cbn -[encrypt_now client_send].
  rewrite Hsc. cbn -[encrypt_now client_send]. by destruct (_encryptionKey (engine (app w))).
Qed.

(** An answer with a payload that some engine sealed. *)
Lemma seals_not_empty_scene k p x : seals (Some k) p x → x ≠ [] ∧ x ≠ js "{}".
Proof. intros [Hx Hd]. split; [done|]. by intros ->. Qed.

(** *** Calls that settle late *)

Lemma engine_run_app ins ins' w : RUN (ins ++ ins') w = RUN ins' (RUN ins w).
Proof. apply foldl_app. Qed.

Lemma task_settles n k w :
  tasks (app w) !! n = Some k →
  engine_run1 random_iv (ETask n) w = (resume random_iv k (w <| app := (app w) <| tasks := delete n (tasks (app w)) |> |>)).2.
Proof.
  intros Hn. unfold engine_run1, engine_exec, taskSettled, host, modh, gets, modify, mbind, M_bind. cbn -[resume]. by rewrite Hn.
Qed.

(** A text that arrives at an engine with a key waits to be decrypted. *)
Lemma text_waits key a s ev x version position text params w :
  _adapter (engine (app w)) = Some a → _encryptionKey (engine (app w)) = Some key → wired (engine (app w)) = Some params →
  CollabEvent_event ev = ev_textUpdate (mkTextUpdate x version position) → decryptPayload key x = Some text →
  engine_run1 random_iv (EClient (IMessage s ev)) w =
  (await (TextDecrypting a (CollabEvent_fromClientId ev) (mkTextUpdate x version position) (Some text))
     (w <| log := Cb (OnEvent ev) :: log w |>)).2.
Proof.
  intros Ha Hk Hw He Hd. receive s ev params He Ha Hk w1.
  unfold mbind, M_bind. rewrite (decrypt_now_opens key) by done. cbn [TextUpdate_text]. by rewrite Hd.
Qed.

Lemma text_settles n a from tu text w :
  tasks (app w) !! n = Some (TextDecrypting a from tu (Some text)) →
  let w' := engine_run1 random_iv (ETask n) w in
  told (app w') = Called a (ac_applyRemote from (Remote_text text (TextUpdate_version tu) (TextUpdate_cursorPosition tu))) :: told (app w) ∧
  tasks (app w') = delete n (tasks (app w)).
Proof.
  intros Hn w'. unfold w'. rewrite (task_settles n _ w Hn).
  set (w0 := w <| app := (app w) <| tasks := delete n (tasks (app w)) |> |>).
  destruct (adapter_call_delivers a from (Remote_text text (TextUpdate_version tu) (TextUpdate_cursorPosition tu)) w0) as [[Et _] Ek].
  split; [exact Et|exact Ek].
Qed.

Lemma adapter_call_engine {X} a c (m : M A X) w : engine (app (adapter_call a c m w).2) = engine (app w).
Proof.
  unfold adapter_call, tell, host, modh, gets, modify, throw, mret, mbind, M_bind, M_ret. cbn.
  destruct (adapters (app w) !! a) as [st|]; [|done]. by destruct (m st) as [[] ?].
Qed.

(** A text that arrives at an engine without a key. *)
Lemma text_applied a s ev x version position params w :
  _adapter (engine (app w)) = Some a → _encryptionKey (engine (app w)) = None → wired (engine (app w)) = Some params →
  CollabEvent_event ev = ev_textUpdate (mkTextUpdate x version position) →
  let w' := engine_run1 random_iv (EClient (IMessage s ev)) w in
  told (app w') = Called a (ac_applyRemote (CollabEvent_fromClientId ev) (Remote_text x version position)) :: told (app w) ∧
  engine (app w') = engine (app w).
Proof.
  intros Ha Hk Hw He w'. set (w1 := w <| log := Cb (OnEvent ev) :: log w |>).
  assert (w' = (apply_text a (CollabEvent_fromClientId ev) (mkTextUpdate x version position) x w1).2) as ->.
  { unfold w'. by receive s ev params He Ha Hk w2. }
  destruct (adapter_call_delivers a (CollabEvent_fromClientId ev) (Remote_text x version position) w1) as [[Et _] _].
  split; [exact Et|]. exact (adapter_call_engine a _ _ w1).
Qed.

(** What an adapter is given for a text. *)
Definition text_call (a : nat) (ev : CollabEvent) (text : jsstr) (version position : Z) : HostEntry :=
  Called a (ac_applyRemote (CollabEvent_fromClientId ev) (Remote_text text version position)).
End exchange.

(** ** Properties *)

(** C7: text updates cross between engines. When the debounce timer of a
    connected engine fires, it sends one message with its adapter's text,
    encrypted if the engine has a key; and any engine with the same key, or
    like the sender without one, that gets it, in a message from whomever,
    gives its adapter the text, the version and the cursor position, the text
    without a leading byte order mark if it was encrypted. *)
Theorem text_update_end_to_end `{C : SubtleCrypto} {A B : Type} `{!SyncAdapter A} `{!SyncAdapter B} `{P : Platform}
    (random_iv : nat → list N) (w : World (Host A)) (a s t : nat) (st st' : A) (k : option CryptoKey)
    (tu : TextUpdateJson) (text : jsstr) :
  AesGcmLaws C → good_ivs random_iv → engaged a k (app w) → sending s w →
  phase (_state (engine (app w))) = connected → pending (app w) !! t = Some DebounceTimer →
  adapters (app w) !! a = Some st → computeOutgoing st = (Ok (Some (Out_textUpdate tu)), st') →
  TextUpdateJson_text tu = Some text → good_str text →
  ∃ x, seals k text x ∧
    log (engine_run random_iv [ETimer t; ETask (nextTask (app w))] w) =
      Eff (ESend s (stamped (client w) (clock (app w)) (text_action (with_text tu x)))) :: log w ∧
    ∀ (v : World (Host B)) (b s' : nat) (params : ConnectParams) (ev : CollabEvent) (version position : Z),
      engaged b k (app v) → wired (engine (app v)) = Some params →
      CollabEvent_event ev = ev_textUpdate (mkTextUpdate x version position) →
      delivered b (CollabEvent_fromClientId ev) (Remote_text (opened k text) version position) (app v)
        (app (engine_run random_iv [EClient (IMessage s' ev); ETask (nextTask (app v))] v)).
Proof.
  intros L Hiv [Ha Hk Hn] Hs Hp Ht Hst Hc Htu Hg. rewrite engine_run_cons.
  rewrite (timer_flushes_text random_iv t a st st' tu text), Hk by done.
  match goal with |- context [engine_run random_iv _ (_ ?w0).2] => set (w1 := w0) end.
  destruct (seal_and_send random_iv (TextEncrypting tu) (λ x, text_action (with_text tu x)) k text s w1)
    as (x & Hx & Hl); [done..|].
  exists x. split; [done|]. split; [exact Hl|]. intros v b s' params ev version position [Hb Hk' Hn'] Hw He.
  rewrite engine_run_cons. receive s' ev params He Hb Hk' v1.
  cbn [TextUpdate_text].
  set (from := CollabEvent_fromClientId ev). set (rtu := mkTextUpdate x version position).
  destruct (open_and_apply random_iv (TextDecrypting b from rtu) (apply_text b from rtu) k text x v1) as [m Hm]; [done| |done..|].
  { intros text' w'. by destruct (adapter_call_delivers b from (Remote_text text' version position) w'). }
  match goal with |- delivered _ _ _ _ (app ?w') => replace w' with (apply_text b from rtu (opened k text) (renumbered m v1)).2 end.
  destruct (adapter_call_delivers b from (Remote_text (opened k text) version position) (renumbered m v1)) as [Hd _].
  exact Hd.
Qed.

(** C8: a scene crosses from the engine that is asked to the one that asks. An
    engine that should respond sends its adapter's snapshot in one message,
    encrypted if it has a key; and any engine with the same key, or like it
    without one, that gets this answer gives its adapter the snapshot, without
    a leading byte order mark if it was encrypted, and unless the adapter
    throws is then initialized, which changes nothing else of its state. *)
Theorem scene_init_exchange `{C : SubtleCrypto} {A B : Type} `{!SyncAdapter A} `{!SyncAdapter B} `{P : Platform}
    (random_iv : nat → list N) (w : World (Host A)) (a s s0 : nat) (st st' : A) (k : option CryptoKey)
    (scene : jsstr) (ev : CollabEvent) (params : ConnectParams) :
  AesGcmLaws C → good_ivs random_iv → engaged a k (app w) → sending s w → wired (engine (app w)) = Some params →
  CollabEvent_event ev = ev_sceneInitRequest mkSceneInitRequest → CollabEvent_fromClientId ev ≠ [] →
  shouldRespond (_state (engine (app w))) (CollabEvent_fromClientId ev) = true →
  adapters (app w) !! a = Some st → getSceneSnapshot st = (Ok scene, st') → good_str scene → scene ≠ [] →
  ∃ x, seals k scene x ∧
    log (engine_run random_iv [EClient (IMessage s0 ev); ETask (nextTask (app w))] w) =
      Eff (ESend s (stamped (client w) (clock (app w)) (scene_response x))) :: Cb (OnEvent ev) :: log w ∧
    ∀ (v : World (Host B)) (b s' : nat) (params' : ConnectParams) (ev' : CollabEvent),
      engaged b k (app v) → wired (engine (app v)) = Some params' →
      CollabEvent_event ev' = ev_sceneInitResponse (mkSceneInitResponse x) →
      initialized_with b (opened k scene) (app v)
        (app (engine_run random_iv [EClient (IMessage s' ev'); ETask (nextTask (app v))] v)).
Proof.
  intros L Hiv [Ha Hk Hn] Hs Hw He Hf Hr Hst Hsc Hg Hne.
  rewrite engine_run_cons, (message_handled random_iv s0 ev params) by (done || unfold is_sync; by rewrite He).
  set (w1 := w <| log := Cb (OnEvent ev) :: log w |>).
  rewrite (request_answered random_iv ev a st st' scene w1) by done.
  change (_encryptionKey (engine (app w1))) with (_encryptionKey (engine (app w))). rewrite Hk.
  match goal with |- context [engine_run random_iv _ (_ ?w0).2] => set (w2 := w0) end.
  destruct (seal_and_send random_iv SnapshotEncrypting scene_response k scene s w2) as (x & Hx & Hl); [done..|].
  exists x. split; [done|]. split; [exact Hl|]. intros v b s' params' ev' [Hb Hk' Hn'] Hw' He'.
  rewrite engine_run_cons. receive s' ev' params' He' Hb Hk' v1.
  cbn [SceneInitResponse_payload].
  destruct (open_and_apply random_iv (InitDecrypting b) (apply_init b) k scene x v1) as [m Hm]; [done| |done..|].
  { intros text w'. apply (apply_init_delivers b text w'). }
  destruct (apply_init_delivers b (opened k scene) (renumbered m v1)) as [Hd _].
  rewrite <-Hm in Hd. destruct k as [key|].
  - destruct (seals_not_empty_scene key scene x Hx) as [H1 H2]. rewrite str_or_truthy, bool_decide_false by done. exact Hd.
  - cbn in Hx. subst x. rewrite str_or_truthy by done. exact Hd.
Qed.

(** encrypted updates lose their order. Of two texts that arrive one after
    the other at an engine with a key, the adapter may be given the second
    first and keep the first: which decryption ends first decides, and nothing
    restores the order. Without a key, texts are applied as they arrive. *)
Theorem encrypted_texts_may_swap `{C : SubtleCrypto} {A : Type} `{!SyncAdapter A} `{P : Platform}
    (random_iv : nat → list N) (w : World (Host A)) (a s : nat) (k : option CryptoKey) (params : ConnectParams)
    (ev1 ev2 : CollabEvent) (x1 x2 p1 p2 : jsstr) (v1 v2 c1 c2 : Z) :
  engaged a k (app w) → wired (engine (app w)) = Some params → seals k p1 x1 → seals k p2 x2 →
  CollabEvent_event ev1 = ev_textUpdate (mkTextUpdate x1 v1 c1) →
  CollabEvent_event ev2 = ev_textUpdate (mkTextUpdate x2 v2 c2) →
  let arrivals := [EClient (IMessage s ev1); EClient (IMessage s ev2)] in
  let n := nextTask (app w) in
  let first := text_call a ev1 (opened k p1) v1 c1 in
  let second := text_call a ev2 (opened k p2) v2 c2 in
  match k with
  | None => told (app (engine_run random_iv arrivals w)) = second :: first :: told (app w)
  | Some _ =>
      told (app (engine_run random_iv (arrivals ++ [ETask n; ETask (S n)]) w)) = second :: first :: told (app w) ∧
      told (app (engine_run random_iv (arrivals ++ [ETask (S n); ETask n]) w)) = first :: second :: told (app w)
  end.
Proof.
  intros [Ha Hk Hn] Hw H1 H2 E1 E2. destruct k as [key|].
  - destruct H1 as [_ D1], H2 as [_ D2]. cbn [app]. cbv zeta.
    assert (∃ w2, engine_run random_iv [EClient (IMessage s ev1); EClient (IMessage s ev2)] w = w2 ∧ told (app w2) = told (app w) ∧
      tasks (app w2) !! nextTask (app w) = Some (TextDecrypting a (CollabEvent_fromClientId ev1) (mkTextUpdate x1 v1 c1) (Some (without_bom p1))) ∧
      tasks (app w2) !! S (nextTask (app w)) = Some (TextDecrypting a (CollabEvent_fromClientId ev2) (mkTextUpdate x2 v2 c2) (Some (without_bom p2))))
      as (w2 & Er & Et & T1 & T2).
    { eexists. split; [done|]. rewrite engine_run_cons, (text_waits random_iv key a s ev1 x1 v1 c1 (without_bom p1) params) by done.
      rewrite engine_run_cons, (text_waits random_iv key a s ev2 x2 v2 c2 (without_bom p2) params) by done.
      unfold await, modh, modify. cbn. rewrite lookup_insert_eq, lookup_insert_ne, lookup_insert_eq by lia. done. }
    rewrite !engine_run_app, Er. unfold engine_run. cbn [foldl]. split.
    + destruct (text_settles random_iv _ _ _ _ _ w2 T1) as [F1 F2].
      destruct (text_settles random_iv (S (nextTask (app w))) _ _ _ _ _ (eq_trans (f_equal (lookup _) F2) (eq_trans (lookup_delete_ne _ _ _ (n_Sn _)) T2))) as [F3 _].
      by rewrite F3, F1, Et.
    + destruct (text_settles random_iv _ _ _ _ _ w2 T2) as [F1 F2].
      destruct (text_settles random_iv (nextTask (app w)) _ _ _ _ _ (eq_trans (f_equal (lookup _) F2) (eq_trans (lookup_delete_ne _ _ _ (not_eq_sym (n_Sn _))) T1))) as [F3 _].
      by rewrite F3, F1, Et.
  - cbn in H1, H2. subst x1 x2. cbv zeta. rewrite !engine_run_cons.
    destruct (text_applied random_iv a s ev1 p1 v1 c1 params w Ha Hk Hw E1) as [F1 F2].
    destruct (text_applied random_iv a s ev2 p2 v2 c2 params (engine_run1 random_iv (EClient (IMessage s ev1)) w)) as [F3 _];
      [by rewrite F2..|done|].
    etransitivity; [exact F3|]. by rewrite F1.
Qed.

(** a scene that is decrypted too late marks a session that is over. An
    answer still being decrypted when the engine is reset is applied to the
    adapter all the same, and leaves the engine initialized while it is
    disconnected. *)
Theorem late_scene_marks_reset_engine `{C : SubtleCrypto} {A : Type} `{!SyncAdapter A} `{P : Platform}
    (random_iv : nat → list N) (w : World (Host A)) (a n : nat) (st : A) (scene : jsstr) :
  tasks (app w) !! n = Some (InitDecrypting a (Some scene)) → phase (_state (engine (app w))) = disconnected →
  adapters (app w) !! a = Some st → (applySceneInit scene st).1 = Ok tt →
  let w' := engine_run1 random_iv (ETask n) w in
  adapters (app w') !! a = Some (applySceneInit scene st).2 ∧
  _state (engine (app w')) = (_state (engine (app w))) <| isInitialized := true |> ∧
  phase (_state (engine (app w'))) = disconnected ∧ isInitialized (_state (engine (app w'))) = true.
Proof.
  intros Hn Hp Hst Hr w'. unfold w'. rewrite (task_settles random_iv n _ w Hn).
  set (w0 := w <| app := (app w) <| tasks := delete n (tasks (app w)) |> |>).
  destruct (apply_init_delivers a scene w0) as [[E1 E2] _].
  change (adapters (app w0)) with (adapters (app w)) in E1, E2. rewrite Hst in E1. specialize (E2 st Hst Hr).
  change (resume random_iv (InitDecrypting a (Some scene)) w0).2 with (apply_init a scene w0).2.
  rewrite E1, E2. by split_and!.
Qed.

(** ** Witnesses *)

Abbreviation toy_key := (Some tt : option (CryptoKey (SubtleCrypto := toy_crypto))).

(** The page of [engine_joining], with a key and a local change. *)
Abbreviation secret_page :=
  (sample_page (engine_joining ++ [ESetEncryptionKey toy_key; ENotifyLocalChange])).

Lemma secret_page_engaged : engaged 0 toy_key (app secret_page).
Proof. split; [by vm_compute..|]. intros i _. vm_compute. by destruct i. Qed.

Lemma sample_iv_good : good_ivs sample_iv.
Proof. intros n. split; [by apply Forall_replicate|done]. Qed.

Lemma sample_text_good : good_str (js "abc").
Proof. split; [repeat constructor; done|done]. Qed.

Lemma text_update_end_to_end_witness :
  ∃ x, log (engine_run (P := node_platform) sample_iv [ETimer 1; ETask 0] secret_page) =
    Eff (ESend 0 (stamped (client secret_page) 0 (text_action (mkTextUpdateJson (Some x) (Some 1) (Some 0))))) :: log secret_page.
Proof.
  destruct (text_update_end_to_end (P := node_platform) (SyncAdapter1 := notepad) sample_iv secret_page 0 0 1 (js "abc") (js "abc")
              toy_key (mkTextUpdateJson (Some (js "abc")) (Some 1) (Some 0)) (js "abc")) as (x & _ & E & _).
  - apply toy_laws.
  - apply sample_iv_good.
  - apply secret_page_engaged.
  - split_and!; by vm_compute.
  - by vm_compute.
  - by vm_compute.
  - by vm_compute.
  - done.
  - done.
  - apply sample_text_good.
  - exists x. exact E.
Defined.

Definition scene_request : CollabEvent := mkCollabEvent (js "e5") (js "zoe") 0 (ev_sceneInitRequest mkSceneInitRequest).

Lemma scene_init_exchange_witness :
  ∃ x, log (engine_run (P := node_platform) sample_iv [EClient (IMessage 0 scene_request); ETask 0] secret_page) =
    Eff (ESend 0 (stamped (client secret_page) 0 (scene_response x))) :: Cb (OnEvent scene_request) :: log secret_page.
Proof.
  destruct (scene_init_exchange (P := node_platform) (SyncAdapter1 := notepad) sample_iv secret_page 0 0 0 (js "abc") (js "abc")
              toy_key (js "abc") scene_request sample_params) as (x & _ & E & _).
  - apply toy_laws.
  - apply sample_iv_good.
  - apply secret_page_engaged.
  - split_and!; by vm_compute.
  - by vm_compute.
  - done.
  - done.
  - by vm_compute.
  - by vm_compute.
  - done.
  - apply sample_text_good.
  - done.
  - exists x. exact E.
Defined.

(** Texts sealed under the page's key. *)
Definition sealed_text (p : jsstr) : jsstr := default [] (encryptPayload (C := toy_crypto) tt (sample_iv 0) p).
Definition text_event (p : jsstr) (version : Z) : CollabEvent :=
  mkCollabEvent (js "e6") (js "zoe") 0 (ev_textUpdate (mkTextUpdate (sealed_text p) version 0)).

Lemma sealed_text_seals p : decryptPayload (C := toy_crypto) tt (sealed_text p) = Some (without_bom p) → seals toy_key p (sealed_text p).
Proof. intros Hd. split; [|exact Hd]. intros E. by rewrite E in Hd. Qed.

Lemma encrypted_texts_may_swap_witness :
  told (app (engine_run (P := node_platform) sample_iv
    [EClient (IMessage 0 (text_event (js "old") 1)); EClient (IMessage 0 (text_event (js "new") 2)); ETask 1; ETask 0] secret_page)) =
  text_call 0 (text_event (js "old") 1) (js "old") 1 0 :: text_call 0 (text_event (js "new") 2) (js "new") 2 0 :: told (app secret_page).
Proof.
  destruct (encrypted_texts_may_swap (P := node_platform) sample_iv secret_page 0 0 toy_key sample_params
    (text_event (js "old") 1) (text_event (js "new") 2) (sealed_text (js "old")) (sealed_text (js "new")) (js "old") (js "new") 1 2 0 0)
    as [_ E].
  - apply secret_page_engaged.
  - by vm_compute.
  - apply sealed_text_seals. vm_compute. reflexivity.
  - apply sealed_text_seals. vm_compute. reflexivity.
  - reflexivity.
  - reflexivity.
  - exact E.
Defined.

(** The answer to a request arrives, the connection drops, the decryption ends. *)
Definition scene_answer : CollabEvent :=
  mkCollabEvent (js "e7") (js "zoe") 0 (ev_sceneInitResponse (mkSceneInitResponse (sealed_text (js "xyz")))).
Abbreviation dropped_page :=
  (sample_page (engine_joining ++ [ESetEncryptionKey toy_key; EClient (IMessage 0 scene_answer); EClient (IClose 0)])).

Lemma late_scene_marks_reset_engine_witness :
  let w' := engine_run1 (P := node_platform) sample_iv (ETask 0) dropped_page in
  adapters (app w') !! 0%nat = Some (js "xyz") ∧ phase (_state (engine (app w'))) = disconnected ∧
  isInitialized (_state (engine (app w'))) = true.
Proof.
  destruct (late_scene_marks_reset_engine (P := node_platform) sample_iv dropped_page 0 0 (js "abc") (js "xyz")) as (E1 & _ & E2 & E3).
  - by vm_compute.
  - by vm_compute.
  - by vm_compute.
  - reflexivity.
  - exact (conj E1 (conj E2 E3)).
Defined.
