(* ===== verification/StallProxy.v ===== *)
(** * The stalling proxy ([ts/interop/stall-proxy.ts])

    A proxy between a client and a relay that can stop reading from the relay,
    and a sniffer that reads the relay's WebSocket close frames off the bytes
    it forwards, however the network cuts them up. Bytes are numbers below
    256; lengths are JavaScript numbers, rounded to doubles where they can
    leave the exact integers. *)

From S2P Require Import Prelude JsText.
Open Scope Z_scope.

(** ** Numbers and buffers of the platform *)

(** The double nearest to an integer from 0 on, ties to even. *)
Definition dbl (z : Z) : Z :=
  if z <? 2 ^ 53 then z
  else
    let e := Z.log2 z - 52 in
    let q := z / 2 ^ e in
    let r := z mod 2 ^ e in
    (if (2 ^ (e - 1) <? r) || ((r =? 2 ^ (e - 1)) && Z.odd q) then q + 1 else q) * 2 ^ e.

(** The integer of some bytes, most significant first. *)
Definition be_combine (bs : list N) : Z := foldl (λ acc b, acc * 256 + Z.of_N b) 0 bs.

(** [buf.subarray(from, from + n)], its parts that exist. *)
Definition bytes_at (from n : nat) (buf : list N) : list N := take n (drop from buf).

Definition zlength (buf : list N) : Z := Z.of_nat (length buf).

(** [buf.toString()]: UTF-8, replacing what is malformed. *)
Definition buffer_toString (bs : list N) : jsstr := of_scalars (utf8_decode bs).

(** [buf.indexOf(pat)]. *)
Fixpoint buffer_indexOf (pat buf : list N) : option nat :=
  if bool_decide (take (length pat) buf = pat) then Some 0%nat
  else match buf with [] => None | _ :: buf' => S <$> buffer_indexOf pat buf' end.

(** ** The sniffer *)

Record CloseFrame := mkCloseFrame { code : Z; reason : jsstr }.

(** The variables of [closeFrameSniffer], and [out]. *)
Record Sniffer := mkSniffer {
  upgraded : bool;
  buffered : list N;
  skip : Z;
  out : list CloseFrame
}.

#[export] Instance eta_Sniffer : Eta Sniffer := λ s,
  mkSniffer (upgraded s) (buffered s) (skip s) (out s).

Definition new_sniffer (closes : list CloseFrame) : Sniffer := mkSniffer false [] 0 closes.

Definition CRLF2 : list N := [13; 10; 13; 10]%N.

(** The opcode, payload length and header length of the frame that starts
    here, once its header is complete. *)
Definition frame_header (p : list N) : option (N * Z * Z) :=
  match p with
  | b0 :: b1 :: _ =>
      let opcode := N.land b0 0x0f in
      let len := Z.of_N (N.land b1 0x7f) in
      if len =? 126 then
        if zlength p <? 4 then None else Some (opcode, be_combine (bytes_at 2 2 p), 4)
      else if len =? 127 then
        if zlength p <? 10 then None else Some (opcode, dbl (be_combine (bytes_at 2 8 p)), 10)
      else Some (opcode, len, 2)
  | _ => None
  end.

(** The close frame with this payload. *)
Definition close_of (len : Z) (body : list N) : CloseFrame :=
  mkCloseFrame (if 2 <=? len then be_combine (take 2 body) else 1005) (buffer_toString (drop 2 body)).

(** The loop over the frames in the buffer. Every round but the last drops
    at least two bytes, so fuel for every byte is enough. *)
Fixpoint sniff_frames (fuel : nat) (s : Sniffer) : Sniffer :=
  match fuel with
  | O => s
  | S fuel =>
      match frame_header (buffered s) with
      | None => s
      | Some (opcode, len, off) =>
          let p := buffered s in
          let total := dbl (off + len) in
          if (opcode =? 8)%N && (zlength p <? total) then s
          else
            let s :=
              if (opcode =? 8)%N
              then s <| out := out s ++ [close_of len (bytes_at (Z.to_nat off) (Z.to_nat len) p)] |> else s in
            if total <=? zlength p then sniff_frames fuel (s <| buffered := drop (Z.to_nat total) p |>)
            else s <| skip := dbl (total - zlength p) |> <| buffered := [] |>
      end
  end.

Definition sniff_buffered (s : Sniffer) : Sniffer := sniff_frames (S (length (buffered s))) s.

(** The function [closeFrameSniffer] returns. *)
Definition sniff (chunk : list N) (s : Sniffer) : Sniffer :=
  if zlength chunk <=? skip s then s <| skip := dbl (skip s - zlength chunk) |>
  else
    let s := s <| buffered := buffered s ++ drop (Z.to_nat (skip s)) chunk |> <| skip := 0 |> in
    if upgraded s then sniff_buffered s
    else
      match buffer_indexOf CRLF2 (buffered s) with
      | None => s
      | Some i => sniff_buffered (s <| buffered := drop (i + 4) (buffered s) |> <| upgraded := true |>)
      end.

(** ** The proxy *)

(** One connection: the client's and the relay's socket. A paused socket
    emits no data; [client_written] and [relay_written] are what was passed to
    their [write], in order. A socket is closed once its [close] event came. *)
Record Conn := mkConn {
  relay_paused : bool;
  relay_closed : bool;
  relay_destroyed : bool;
  client_ended : bool;
  client_closed : bool;
  client_destroyed : bool;
  client_written : list N;
  relay_written : list N
}.

#[export] Instance eta_Conn : Eta Conn := λ c,
  mkConn (relay_paused c) (relay_closed c) (relay_destroyed c) (client_ended c) (client_closed c)
    (client_destroyed c) (client_written c) (relay_written c).

Definition new_conn (paused : bool) : Conn := mkConn paused false false false false false [] [].

(** The variables of [stallProxy]; the connections are its [sockets], in order. *)
Record Proxy := mkProxy {
  sniffer : Sniffer;
  upstream : option nat;
  gone : bool;
  paused : bool;
  discarding : bool;
  conns : list Conn;
  listening : bool
}.

#[export] Instance eta_Proxy : Eta Proxy := λ p,
  mkProxy (sniffer p) (upstream p) (gone p) (paused p) (discarding p) (conns p) (listening p).

Definition new_proxy : Proxy := mkProxy (new_sniffer []) None false false false [] true.

Definition relayCloses (p : Proxy) : list CloseFrame := out (sniffer p).
Definition relayGone (p : Proxy) : bool := gone p.

Definition on_conn (i : nat) (f : Conn → Conn) (p : Proxy) : Proxy := p <| conns := alter f i (conns p) |>.

(** [upstream?.pause()] and [upstream?.resume()]. *)
Definition set_upstream_paused (b : bool) (p : Proxy) : Proxy :=
  match upstream p with Some i => on_conn i (λ c, c <| relay_paused := b |>) p | None => p end.

Definition pause (p : Proxy) : Proxy := set_upstream_paused true (p <| paused := true |>).
Definition resume (p : Proxy) : Proxy := set_upstream_paused false (p <| paused := false |>).
Definition discard (p : Proxy) : Proxy :=
  set_upstream_paused false (p <| discarding := true |> <| paused := false |>).

(** A client connects. *)
Definition accept (p : Proxy) : Proxy :=
  p <| upstream := Some (length (conns p)) |> <| conns := conns p ++ [new_conn (paused p)] |>.

Definition client_data (i : nat) (d : list N) : Proxy → Proxy :=
  on_conn i (λ c, c <| relay_written := relay_written c ++ d |>).

Definition relay_data (i : nat) (d : list N) (p : Proxy) : Proxy :=
  let p := p <| sniffer := sniff d (sniffer p) |> in
  if discarding p then p else on_conn i (λ c, c <| client_written := client_written c ++ d |>) p.

Definition relay_close (i : nat) (p : Proxy) : Proxy :=
  on_conn i (λ c, c <| relay_closed := true |> <| client_ended := true |>) (p <| gone := true |>).
Definition client_close (i : nat) : Proxy → Proxy :=
  on_conn i (λ c, c <| client_closed := true |> <| relay_destroyed := true |>).

Definition stop (p : Proxy) : Proxy :=
  p <| conns := (λ c, c <| client_destroyed := true |> <| relay_destroyed := true |>) <$> conns p |>
    <| listening := false |>.

Inductive ProxyInput :=
  | PAccept
  | PClientData (i : nat) (d : list N)
  | PRelayData (i : nat) (d : list N)
  | PRelayClose (i : nat)
  | PClientClose (i : nat)
  | PPause
  | PResume
  | PDiscard
  | PStop.

Definition proxy_step (x : ProxyInput) (p : Proxy) : Proxy :=
  match x with
  | PAccept => accept p
  | PClientData i d => client_data i d p
  | PRelayData i d => relay_data i d p
  | PRelayClose i => relay_close i p
  | PClientClose i => client_close i p
  | PPause => pause p
  | PResume => resume p
  | PDiscard => discard p
  | PStop => stop p
  end.

Definition proxy_run (xs : list ProxyInput) (p : Proxy) : Proxy := foldl (λ p x, proxy_step x p) p xs.

(** When an event can happen: a socket emits data until it is closed or
    destroyed, and not while paused. *)
Definition proxy_enabled (p : Proxy) (x : ProxyInput) : bool :=
  match x with
  | PAccept => listening p
  | PRelayData i _ =>
      match conns p !! i with
      | Some c => negb (relay_closed c) && negb (relay_destroyed c) && negb (relay_paused c)
      | None => false
      end
  | PClientData i _ =>
      match conns p !! i with Some c => negb (client_closed c) && negb (client_destroyed c) | None => false end
  | PRelayClose i => match conns p !! i with Some c => negb (relay_closed c) | None => false end
  | PClientClose i => match conns p !! i with Some c => negb (client_closed c) | None => false end
  | _ => true
  end.

(** ** Numbers *)

Lemma dbl_exact z : z <= 2 ^ 53 → dbl z = z.
Proof.
  intros Hz. unfold dbl. destruct (Z.ltb_spec z (2 ^ 53)); [done|].
  assert (z = 2 ^ 53) as -> by lia. done.
Qed.

Lemma dbl_large z : 2 ^ 53 <= z → 2 ^ 53 <= dbl z.
Proof.
  intros Hz. unfold dbl. destruct (Z.ltb_spec z (2 ^ 53)); [lia|].
  assert (53 <= Z.log2 z) as He.
  { change 53 with (Z.log2 (2 ^ 53)). by apply Z.log2_le_mono. }
  assert (2 ^ 52 <= z / 2 ^ (Z.log2 z - 52)) as Hq.
  { apply Z.div_le_lower_bound; [lia|]. rewrite <-Z.pow_add_r by lia.
    replace (Z.log2 z - 52 + 52) with (Z.log2 z) by lia. apply Z.log2_spec. lia. }
  assert (2 ^ 1 <= 2 ^ (Z.log2 z - 52)) as H1 by (apply Z.pow_le_mono_r; lia).
  destruct (_ || _); nia.
Qed.

Lemma dbl_ge_2 z : 2 <= z → 2 <= dbl z.
Proof.
  intros Hz. destruct (Z.le_gt_cases z (2 ^ 53)) as [H|H].
  - by rewrite dbl_exact.
  - pose proof (dbl_large z). lia.
Qed.

Lemma be_combine_app l b : be_combine (l ++ [b]) = be_combine l * 256 + Z.of_N b.
Proof. unfold be_combine. by rewrite foldl_app. Qed.

Lemma be_combine_nonneg l : 0 <= be_combine l.
Proof. induction l as [|b l IH] using rev_ind; [done|]. rewrite be_combine_app. lia. Qed.

Lemma zlength_app a b : zlength (a ++ b) = zlength a + zlength b.
Proof. unfold zlength. rewrite length_app. lia. Qed.

Lemma zlength_drop n a : zlength (drop n a) = Z.max 0 (zlength a - Z.of_nat n).
Proof. unfold zlength. rewrite length_drop. lia. Qed.

(** ** Headers *)

Lemma frame_header_bounds p op len off : frame_header p = Some (op, len, off) → 0 <= len ∧ 2 <= off <= zlength p.
Proof.
  unfold frame_header. destruct p as [|b0 [|b1 p]]; [done..|].
  assert (2 <= zlength (b0 :: b1 :: p)) as Hl by (unfold zlength; simpl; lia).
  destruct (Z.eqb_spec (Z.of_N (N.land b1 127)) 126); [|destruct (Z.eqb_spec (Z.of_N (N.land b1 127)) 127)].
  - destruct (Z.ltb_spec (zlength (b0 :: b1 :: p)) 4); [done|]. intros [= <- <- <-].
    split; [apply be_combine_nonneg|lia].
  - destruct (Z.ltb_spec (zlength (b0 :: b1 :: p)) 10); [done|]. intros [= <- <- <-].
    pose proof (be_combine_nonneg (bytes_at 2 8 (b0 :: b1 :: p))) as Hn. revert Hn.
    generalize (be_combine (bytes_at 2 8 (b0 :: b1 :: p))). intros m Hm. split; [|lia].
    destruct (Z.le_gt_cases m (2 ^ 53)); [by rewrite dbl_exact|]. pose proof (dbl_large m). lia.
  - intros [= <- <- <-]. split; lia.
Qed.

Lemma bytes_at_app i n a b : (i + n <= length a)%nat → bytes_at i n (a ++ b) = bytes_at i n a.
Proof.
  intros Hl. unfold bytes_at. rewrite drop_app_le by lia. apply take_app_le. rewrite length_drop. lia.
Qed.

(** A complete header does not change when more bytes arrive. *)
Lemma frame_header_app p c h : frame_header p = Some h → frame_header (p ++ c) = Some h.
Proof.
  unfold frame_header. destruct p as [|b0 [|b1 p]]; [done..|]. cbn [app].
  change (b0 :: b1 :: p ++ c) with ((b0 :: b1 :: p) ++ c). rewrite zlength_app.
  set (q := b0 :: b1 :: p). assert (0 <= zlength c) as Hc by (unfold zlength; lia).
  destruct (_ =? 126); [|destruct (_ =? 127); [|done]].
  - destruct (Z.ltb_spec (zlength q) 4) as [|H]; [done|]. destruct (Z.ltb_spec (zlength q + zlength c) 4); [lia|].
    rewrite bytes_at_app; [done|]. unfold zlength in H. lia.
  - destruct (Z.ltb_spec (zlength q) 10) as [|H]; [done|]. destruct (Z.ltb_spec (zlength q + zlength c) 10); [lia|].
    rewrite bytes_at_app; [done|]. unfold zlength in H. lia.
Qed.

(** ** The loop *)

(** One round of the loop, and the rest of it. *)
Lemma sniff_frames_fuel n m s :
  (length (buffered s) < n)%nat → (length (buffered s) < m)%nat → sniff_frames n s = sniff_frames m s.
Proof.
  revert m s. induction n as [|n IH]; intros [|m] s Hn Hm; try lia. cbn [sniff_frames].
  destruct (frame_header (buffered s)) as [[[op len] off]|] eqn:Eh; [|done].
  apply frame_header_bounds in Eh as (Hl & Ho & Hp).
  destruct (_ && _); [done|]. destruct (Z.leb_spec (dbl (off + len)) (zlength (buffered s))) as [Ht|]; [|by destruct (op =? 8)%N].
  pose proof (dbl_ge_2 (off + len)) as H2.
  apply IH; cbn; rewrite length_drop; destruct (op =? 8)%N; cbn; unfold zlength in *; lia.
Qed.

(** What [out] becomes when a whole frame is at the start of the buffer. *)
Definition note_frame (op : N) (len off : Z) (p : list N) (s : Sniffer) : Sniffer :=
  if (op =? 8)%N
  then s <| out := out s ++ [close_of len (bytes_at (Z.to_nat off) (Z.to_nat len) p)] |> else s.

Lemma sniff_buffered_none s : frame_header (buffered s) = None → sniff_buffered s = s.
Proof. intros Hh. unfold sniff_buffered. cbn [sniff_frames]. by rewrite Hh. Qed.

(** A whole frame. *)
Lemma sniff_buffered_frame op len off s :
  frame_header (buffered s) = Some (op, len, off) → dbl (off + len) <= zlength (buffered s) →
  sniff_buffered s =
  sniff_buffered ((note_frame op len off (buffered s) s) <| buffered := drop (Z.to_nat (dbl (off + len))) (buffered s) |>).
Proof.
  intros Hh Ht. unfold sniff_buffered at 1. cbn [sniff_frames]. rewrite Hh.
  destruct (Z.ltb_spec (zlength (buffered s)) (dbl (off + len))); [lia|]. rewrite andb_false_r.
  destruct (Z.leb_spec (dbl (off + len)) (zlength (buffered s))); [|lia].
  apply frame_header_bounds in Hh as (Hl & Ho & Hp). pose proof (dbl_ge_2 (off + len)) as H2.
  unfold sniff_buffered. apply sniff_frames_fuel; cbn; rewrite ?length_drop; unfold zlength in *; lia.
Qed.

(** A close frame that is not complete, and the start of another frame. *)
Lemma sniff_buffered_wait len off s :
  frame_header (buffered s) = Some (8%N, len, off) → zlength (buffered s) < dbl (off + len) → sniff_buffered s = s.
Proof.
  intros Hh Ht. unfold sniff_buffered. cbn [sniff_frames]. rewrite Hh.
  destruct (Z.ltb_spec (zlength (buffered s)) (dbl (off + len))); [done|lia].
Qed.

Lemma sniff_buffered_partial op len off s :
  frame_header (buffered s) = Some (op, len, off) → zlength (buffered s) < dbl (off + len) → op ≠ 8%N →
  sniff_buffered s = s <| skip := dbl (dbl (off + len) - zlength (buffered s)) |> <| buffered := [] |>.
Proof.
  intros Hh Ht Hop. unfold sniff_buffered. cbn [sniff_frames]. rewrite Hh.
  destruct (N.eqb_spec op 8); [done|]. simpl andb. cbv iota.
  destruct (Z.leb_spec (dbl (off + len)) (zlength (buffered s))); [lia|done].
Qed.

(** ** Exact streams *)

(** No frame that starts in these bytes declares more than 2^53 bytes. *)
Fixpoint frames_exact (fuel : nat) (p : list N) : bool :=
  match fuel with
  | O => true
  | S fuel =>
      match frame_header p with
      | None => true
      | Some (_, len, off) =>
          (off + len <=? 2 ^ 53) &&
          (if off + len <=? zlength p then frames_exact fuel (drop (Z.to_nat (off + len)) p) else true)
      end
  end.

Definition buffer_exact (p : list N) : bool := frames_exact (S (length p)) p.

Lemma frames_exact_fuel n m p : (length p < n)%nat → (length p < m)%nat → frames_exact n p = frames_exact m p.
Proof.
  revert m p. induction n as [|n IH]; intros [|m] p Hn Hm; try lia. cbn [frames_exact].
  destruct (frame_header p) as [[[op len] off]|] eqn:Eh; [|done].
  apply frame_header_bounds in Eh as (Hl & Ho & Hp). f_equal.
  destruct (Z.leb_spec (off + len) (zlength p)); [|done].
  apply IH; rewrite length_drop; unfold zlength in *; lia.
Qed.

Lemma buffer_exact_frame p op len off :
  frame_header p = Some (op, len, off) → buffer_exact p = true →
  off + len <= 2 ^ 53 ∧ (off + len <= zlength p → buffer_exact (drop (Z.to_nat (off + len)) p) = true).
Proof.
  intros Hh He. unfold buffer_exact in He. cbn [frames_exact] in He. rewrite Hh in He.
  apply andb_true_iff in He as [He1%Z.leb_le He2]. split; [done|]. intros Ht.
  destruct (Z.leb_spec (off + len) (zlength p)); [|lia].
  apply frame_header_bounds in Hh as (Hl & Ho & Hp).
  rewrite <-He2. apply frames_exact_fuel; rewrite length_drop; unfold zlength in *; lia.
Qed.

Lemma buffer_exact_prefix p c : buffer_exact (p ++ c) = true → buffer_exact p = true.
Proof.
  induction p as [p IH] using (induction_ltof1 _ length). intros He.
  unfold buffer_exact. cbn [frames_exact]. destruct (frame_header p) as [[[op len] off]|] eqn:Eh; [|done].
  pose proof (frame_header_bounds _ _ _ _ Eh) as (Hl & Ho & Hp).
  destruct (buffer_exact_frame _ _ _ _ (frame_header_app p c _ Eh) He) as [H1 H2].
  apply andb_true_iff. split; [by apply Z.leb_le|].
  destruct (Z.leb_spec (off + len) (zlength p)) as [Ht|]; [|done].
  assert (0 <= zlength c) by (unfold zlength; lia).
  specialize (IH (drop (Z.to_nat (off + len)) p)). unfold ltof in IH. rewrite length_drop in IH.
  specialize (IH ltac:(unfold zlength in *; lia)).
  rewrite zlength_app in H2. specialize (H2 ltac:(lia)).
  rewrite drop_app_le in H2 by (unfold zlength in *; lia). specialize (IH H2).
  rewrite <-IH. apply frames_exact_fuel; rewrite length_drop; unfold zlength in *; lia.
Qed.

(** ** Chunks *)

#[local] Arguments sniff_buffered : simpl never.
#[local] Arguments sniff : simpl never.

Ltac exact_len := first [done | rewrite ?dbl_exact by lia; lia].

Lemma note_frame_fields op len off p s :
  upgraded (note_frame op len off p s) = upgraded s ∧ skip (note_frame op len off p s) = skip s ∧
  buffered (note_frame op len off p s) = buffered s.
Proof. unfold note_frame. by destruct (op =? 8)%N. Qed.

Lemma note_frame_more op len off c q s :
  off + len <= zlength (buffered s) → 0 <= len → 0 <= off →
  (note_frame op len off (buffered s ++ c) (s <| buffered := buffered s ++ c |>)) <| buffered := q |> =
  (note_frame op len off (buffered s) s) <| buffered := q |>.
Proof.
  intros Ht Hl Ho. unfold note_frame. rewrite bytes_at_app; [by destruct (op =? 8)%N|].
  unfold zlength in Ht. lia.
Qed.

(** A chunk for a sniffer that skips nothing. *)
Lemma sniff_upgraded c s :
  upgraded s = true → skip s = 0 → sniff_buffered s = s →
  sniff c s = sniff_buffered (s <| buffered := buffered s ++ c |>).
Proof.
  intros Hu Hs Hd. unfold sniff. rewrite Hs. destruct s as [u p k o]. cbn in *. subst.
  destruct (Z.leb_spec (zlength c) 0) as [Hc|Hc].
  - assert (c = []) as -> by (destruct c; [done|unfold zlength in Hc; simpl in Hc; lia]).
    rewrite app_nil_r. symmetry. exact Hd.
  - done.
Qed.

(** A frame whose payload is still to come. *)
Lemma sniff_skipping c op len off s :
  upgraded s = true → skip s = 0 → frame_header (buffered s) = Some (op, len, off) → op ≠ 8%N →
  zlength (buffered s) < off + len → off + len <= 2 ^ 53 →
  sniff c (s <| skip := off + len - zlength (buffered s) |> <| buffered := [] |>) =
  sniff_buffered (s <| buffered := buffered s ++ c |>).
Proof.
  intros Hu Hs Hh Hop Ht Hx. destruct s as [u p k o]. cbn in *. subst u k.
  pose proof (frame_header_bounds _ _ _ _ Hh) as (Hl & Ho & Hp).
  set (s2 := mkSniffer true (p ++ c) 0 o).
  assert (frame_header (buffered s2) = Some (op, len, off)) as Hh2 by (by apply frame_header_app).
  assert (0 <= zlength c) as Hc by (unfold zlength; lia).
  assert (zlength (buffered s2) = zlength p + zlength c) as El by apply zlength_app.
  assert (note_frame op len off (buffered s2) s2 = s2) as En.
  { unfold note_frame. by destruct (N.eqb_spec op 8). }
  unfold sniff. cbn [skip buffered upgraded].
  destruct (Z.leb_spec (zlength c) (off + len - zlength p)) as [Hcl|Hcl]; cbn.
  - rewrite dbl_exact by lia. destruct (Z.eqb_spec (zlength p + zlength c) (off + len)) as [He|He].
    + rewrite (sniff_buffered_frame op len off) by exact_len.
      rewrite En, dbl_exact by lia. cbn. rewrite drop_ge by (rewrite length_app; unfold zlength in *; lia).
      rewrite sniff_buffered_none by done. f_equal. lia.
    + rewrite (sniff_buffered_partial op len off) by exact_len.
      rewrite El, (dbl_exact (off + len)), dbl_exact by lia. cbn. f_equal. lia.
  - symmetry. rewrite (sniff_buffered_frame op len off) by exact_len.
    rewrite En, dbl_exact by lia. cbn. do 2 f_equal.
    rewrite drop_app_ge by (unfold zlength in *; lia). f_equal. unfold zlength in *. lia.
Qed.

(** More bytes after a drained buffer are as if they had been there before. *)
Lemma sniff_more c s :
  upgraded s = true → skip s = 0 → buffer_exact (buffered s ++ c) = true →
  sniff c (sniff_buffered s) = sniff_buffered (s <| buffered := buffered s ++ c |>).
Proof.
  remember (length (buffered s)) as n eqn:En. revert s En.
  induction n as [n IH] using lt_wf_ind. intros s En Hu Hs He.
  destruct (frame_header (buffered s)) as [[[op len] off]|] eqn:Eh.
  2: { rewrite (sniff_buffered_none s) by done. apply sniff_upgraded; [done..|]. by apply sniff_buffered_none. }
  pose proof (frame_header_bounds _ _ _ _ Eh) as (Hl & Ho & Hp).
  pose proof (frame_header_app _ c _ Eh) as Eh2.
  destruct (buffer_exact_frame _ _ _ _ Eh2 He) as [Hx Hx2]. rewrite zlength_app in Hx2.
  assert (0 <= zlength c) as Hc by (unfold zlength; lia).
  destruct (Z.leb_spec (off + len) (zlength (buffered s))) as [Ht|Ht].
  - rewrite (sniff_buffered_frame op len off s) by exact_len.
    symmetry. rewrite (sniff_buffered_frame op len off); [|done|cbn; rewrite dbl_exact, zlength_app by done; lia].
    symmetry. rewrite !dbl_exact by done. cbn [buffered].
    destruct (note_frame_fields op len off (buffered s) s) as (F1 & F2 & F3).
    change (buffered (s <| buffered := buffered s ++ c |>)) with (buffered s ++ c).
    rewrite note_frame_more, drop_app_le by (unfold zlength in *; lia).
    rewrite drop_app_le in Hx2 by (unfold zlength in *; lia).
    set (s' := (note_frame op len off (buffered s) s) <| buffered := drop (Z.to_nat (off + len)) (buffered s) |>).
    assert (length (buffered s') < n)%nat as Hlt by (cbn; rewrite length_drop; unfold zlength in *; lia).
    apply (IH _ Hlt s' eq_refl (eq_trans F1 Hu) (eq_trans F2 Hs)). apply Hx2. lia.
  - destruct (N.eqb_spec op 8) as [->|Hop].
    + assert (sniff_buffered s = s) as E by (apply (sniff_buffered_wait len off); exact_len).
      rewrite E. by apply sniff_upgraded.
    + rewrite (sniff_buffered_partial op len off s) by exact_len.
      rewrite (dbl_exact (off + len)), dbl_exact by lia. by apply (sniff_skipping c op len off).
Qed.

Lemma buffer_indexOf_app pat a b i :
  buffer_indexOf pat a = Some i → buffer_indexOf pat (a ++ b) = Some i ∧ (i + length pat <= length a)%nat.
Proof.
  revert i. induction a as [|x a IH]; intros i; cbn [buffer_indexOf app]; case_bool_decide as E; try done.
  - intros [= <-]. rewrite take_nil in E. subst pat. split; [by destruct b|done].
  - intros [= <-]. assert (length pat <= length (x :: a))%nat as Hl.
    { apply (f_equal length) in E. rewrite length_take in E. lia. }
    rewrite bool_decide_true; [by split|]. change (x :: a ++ b) with ((x :: a) ++ b). by rewrite take_app_le.
  - intros Hi. destruct (buffer_indexOf pat a) as [j|] eqn:Ej; [|done]. injection Hi as <-.
    destruct (IH j eq_refl) as [E1 E2]. split; [|simpl; lia].
    rewrite bool_decide_false, E1; [done|]. intros E'. apply E.
    change (x :: a ++ b) with ((x :: a) ++ b) in E'. rewrite take_app_le in E'; [done|simpl; lia].
Qed.

(** No frame of this chunk, as the sniffer reads it, is longer than numbers are exact. *)
Definition chunk_exact (s : Sniffer) (c : list N) : bool :=
  if zlength c <=? skip s then true
  else
    let buf := buffered s ++ drop (Z.to_nat (skip s)) c in
    if upgraded s then buffer_exact buf
    else match buffer_indexOf CRLF2 buf with None => true | Some i => buffer_exact (drop (i + 4) buf) end.

Section chunks.
Context (s : Sniffer) (Hskip : 0 <= skip s <= 2 ^ 53).

Lemma sniff_nothing : sniff [] s = s.
Proof.
  unfold sniff. change (zlength []) with 0. destruct (Z.leb_spec 0 (skip s)); [|lia].
  rewrite Z.sub_0_r, dbl_exact by lia. by destruct s.
Qed.

Lemma drop_chunk c1 c2 :
  skip s < zlength c1 → buffered s ++ drop (Z.to_nat (skip s)) (c1 ++ c2) = (buffered s ++ drop (Z.to_nat (skip s)) c1) ++ c2.
Proof. intros Hl. rewrite drop_app_le by (unfold zlength in Hl; lia). by rewrite app_assoc. Qed.

Lemma chunk_exact_prefix c1 c2 : chunk_exact s (c1 ++ c2) = true → chunk_exact s c1 = true.
Proof.
  unfold chunk_exact. rewrite zlength_app. assert (0 <= zlength c2) by (unfold zlength; lia).
  destruct (Z.leb_spec (zlength c1) (skip s)) as [|Hl]; [done|].
  destruct (Z.leb_spec (zlength c1 + zlength c2) (skip s)); [lia|]. rewrite drop_chunk by done.
  destruct (upgraded s); [apply buffer_exact_prefix|].
  destruct (buffer_indexOf CRLF2 (_ ++ drop _ c1)) as [i|] eqn:Ei; [|done].
  destruct (buffer_indexOf_app _ _ c2 _ Ei) as [-> Hi]. change (length CRLF2) with 4%nat in Hi.
  rewrite drop_app_le by lia. apply buffer_exact_prefix.
Qed.

(** Two chunks are as good as one. *)
Lemma sniff_app c1 c2 : chunk_exact s (c1 ++ c2) = true → sniff c2 (sniff c1 s) = sniff (c1 ++ c2) s.
Proof.
  unfold chunk_exact. rewrite zlength_app. intros He. unfold sniff at 2 3. rewrite zlength_app.
  assert (0 <= zlength c1 ∧ 0 <= zlength c2) as [H1 H2] by (unfold zlength; lia).
  destruct (Z.leb_spec (zlength c1) (skip s)) as [Hl|Hl].
  - rewrite dbl_exact by lia. unfold sniff. cbn [skip buffered upgraded].
    destruct (Z.leb_spec (zlength c1 + zlength c2) (skip s)) as [Hl2|Hl2]; cbn.
    + destruct (Z.leb_spec (zlength c2) (skip s - zlength c1)); [|lia]. rewrite !dbl_exact by lia. cbn. f_equal. lia.
    + destruct (Z.leb_spec (zlength c2) (skip s - zlength c1)); [lia|].
      rewrite drop_app_ge by (unfold zlength in *; lia).
      replace (Z.to_nat (skip s) - length c1)%nat with (Z.to_nat (skip s - zlength c1)) by (unfold zlength; lia).
      done.
  - destruct (Z.leb_spec (zlength c1 + zlength c2) (skip s)); [lia|]. rewrite drop_chunk in He |- * by done.
    cbn. destruct (upgraded s) eqn:Hu; cbn.
    + by rewrite sniff_more.
    + destruct (buffer_indexOf CRLF2 (_ ++ drop _ c1)) as [i|] eqn:Ei; cbn.
      * destruct (buffer_indexOf_app _ _ c2 _ Ei) as [E' Hi]. rewrite E' in He |- *.
        change (length CRLF2) with 4%nat in Hi. rewrite (drop_app_le _ c2) in He |- * by lia. by rewrite sniff_more.
      * unfold sniff at 1. cbn. destruct (Z.leb_spec (zlength c2) 0) as [Hz|Hz]; [|done].
        assert (c2 = []) as -> by (destruct c2; [done|unfold zlength in Hz; simpl in Hz; lia]).
        rewrite app_nil_r, Ei, dbl_exact by done. done.
Qed.

Lemma sniff_concat chunks :
  chunk_exact s (concat chunks) = true → foldl (λ s c, sniff c s) s chunks = sniff (concat chunks) s.
Proof.
  induction chunks as [|c chunks IH] using rev_ind; intros He; [symmetry; apply sniff_nothing|].
  rewrite concat_app in He |- *. cbn [concat] in He |- *. rewrite app_nil_r in He |- *. rewrite foldl_app. cbn.
  rewrite IH by by eapply chunk_exact_prefix. by apply sniff_app.
Qed.
End chunks.

(** ** What a relay sends

    The server's side of the protocol, to say what the sniffer is for: frames
    without a mask, their length in the three forms, and close frames with a
    code and a reason. *)

Fixpoint be_split (k : nat) (z : Z) : list N :=
  match k with O => [] | S k => be_split k (z / 256) ++ [Z.to_N (z mod 256)] end.

Definition encode_length (n : Z) : list N :=
  if n <? 126 then [Z.to_N n] else if n <? 65536 then 126%N :: be_split 2 n else 127%N :: be_split 8 n.

(** A frame: its first four bits, its opcode and its payload. *)
Record Frame := mkFrame { high : N; opcode : N; payload : list N }.

Definition encode_frame (f : Frame) : list N :=
  (high f * 16 + opcode f)%N :: encode_length (zlength (payload f)) ++ payload f.

(** What a relay can send: a frame of data or control other than a close, and
    a close frame, with or without a code and a reason. *)
Inductive ServerFrame :=
  | Other (f : Frame)
  | Close (status : option (Z * jsstr)).

Definition server_frame (m : ServerFrame) : Frame :=
  match m with
  | Other f => f
  | Close None => mkFrame 8 8 []
  | Close (Some (code, reason)) => mkFrame 8 8 (be_split 2 code ++ text_encode reason)
  end.

Definition server_frame_ok (m : ServerFrame) : Prop :=
  let f := server_frame m in
  (high f < 16)%N ∧ (opcode f < 16)%N ∧ zlength (payload f) <= 2 ^ 53 - 10 ∧
  match m with
  | Other f => opcode f ≠ 8%N
  | Close None => True
  | Close (Some (code, reason)) => 0 <= code < 65536 ∧ good_str reason
  end.

(** The close frames among them, as the sniffer should record them. *)
Definition closes_of (ms : list ServerFrame) : list CloseFrame :=
  omap (λ m, match m with
             | Other _ => None
             | Close None => Some (mkCloseFrame 1005 [])
             | Close (Some (code, reason)) => Some (mkCloseFrame code reason)
             end) ms.

Definition encode_frames (ms : list ServerFrame) : list N := concat ((λ m, encode_frame (server_frame m)) <$> ms).

Lemma length_be_split k z : length (be_split k z) = k.
Proof. revert z. induction k as [|k IH]; intros z; [done|]. simpl. rewrite length_app, IH. simpl. lia. Qed.

Lemma be_combine_split k z : 0 <= z < 256 ^ Z.of_nat k → be_combine (be_split k z) = z.
Proof.
  revert z. induction k as [|k IH]; intros z Hz; [simpl in Hz; cbn; lia|].
  rewrite Nat2Z.inj_succ, Z.pow_succ_r in Hz by lia. cbn [be_split]. rewrite be_combine_app.
  assert (0 <= z / 256 < 256 ^ Z.of_nat k) as Hd.
  { split; [apply Z.div_pos; lia|apply Z.div_lt_upper_bound; lia]. }
  rewrite IH by done. pose proof (Z.mod_pos_bound z 256). pose proof (Z.div_mod z 256).
  rewrite Z2N.id by lia. lia.
Qed.

Lemma land_low h op : (op < 16)%N → N.land (h * 16 + op) 15 = op.
Proof.
  intros Ho. change 15%N with (N.ones 4). rewrite N.land_ones. change (2 ^ 4)%N with 16%N.
  rewrite N.add_comm, N.Div0.mod_add. by apply N.mod_small.
Qed.

Lemma bytes_at_here n a b : length a = n → bytes_at 0 n (a ++ b) = a.
Proof. intros <-. unfold bytes_at. rewrite drop_0. by rewrite take_app_length. Qed.

(** The header of an encoded frame. *)
Lemma frame_header_encode f rest :
  (opcode f < 16)%N → zlength (payload f) <= 2 ^ 53 - 10 →
  ∃ off, frame_header (encode_frame f ++ rest) = Some (opcode f, zlength (payload f), off) ∧
    off + zlength (payload f) = zlength (encode_frame f) ∧ off <= 10 ∧
    drop (Z.to_nat off) (encode_frame f ++ rest) = payload f ++ rest.
Proof.
  intros Ho Hp. assert (0 <= zlength (payload f)) as H0 by (unfold zlength; lia).
  unfold encode_frame, encode_length. generalize (payload f) Hp H0. clear Hp H0. intros p Hp H0.
  destruct (Z.ltb_spec (zlength p) 126) as [H1|H1]; [|destruct (Z.ltb_spec (zlength p) 65536) as [H2|H2]].
  - exists 2. cbn [app]. split_and!; [|unfold zlength; simpl; lia|done..]. unfold frame_header.
    rewrite land_low by done. change 127%N with (N.ones 7). rewrite N.land_ones. change (2 ^ 7)%N with 128%N.
    rewrite N.mod_small by lia. rewrite Z2N.id by done.
    destruct (Z.eqb_spec (zlength p) 126); [lia|]. destruct (Z.eqb_spec (zlength p) 127); [lia|]. done.
  - exists 4. pose proof (length_be_split 2 (zlength p)) as Hl. pose proof (be_combine_split 2 (zlength p)) as Hc.
    revert Hl Hc. generalize (be_split 2 (zlength p)). intros bs Hl Hc.
    split_and!; [|unfold zlength; simpl; rewrite length_app; lia|done|].
    + unfold frame_header. cbn [app]. rewrite land_low by done. change (Z.of_N (N.land 126 127)) with 126. cbn [Z.eqb Pos.eqb].
      match goal with |- context [zlength ?q <? 4] => destruct (Z.ltb_spec (zlength q) 4) as [Hs|_] end.
      { unfold zlength in Hs. simpl in Hs. rewrite !length_app in Hs. lia. }
      match goal with |- context [bytes_at 2 2 (_ :: _ :: ?X)] => change (bytes_at 2 2 _) with (bytes_at 0 2 X) end.
      rewrite <-app_assoc, bytes_at_here, Hc by (done || simpl; lia). done.
    + change (Z.to_nat 4) with 4%nat. cbn [drop app]. rewrite <-app_assoc. rewrite <-Hl at 1. by rewrite drop_app_length.
  - exists 10. pose proof (length_be_split 8 (zlength p)) as Hl. pose proof (be_combine_split 8 (zlength p)) as Hc.
    revert Hl Hc. generalize (be_split 8 (zlength p)). intros bs Hl Hc.
    split_and!; [|unfold zlength; simpl; rewrite length_app; lia|done|].
    + unfold frame_header. cbn [app]. rewrite land_low by done. change (Z.of_N (N.land 127 127)) with 127. cbn [Z.eqb Pos.eqb].
      match goal with |- context [zlength ?q <? 10] => destruct (Z.ltb_spec (zlength q) 10) as [Hs|_] end.
      { unfold zlength in Hs. simpl in Hs. rewrite !length_app in Hs. lia. }
      match goal with |- context [bytes_at 2 8 (_ :: _ :: ?X)] => change (bytes_at 2 8 _) with (bytes_at 0 8 X) end.
      rewrite <-app_assoc, bytes_at_here, Hc by (done || simpl; lia). by rewrite dbl_exact by lia.
    + change (Z.to_nat 10) with 10%nat. cbn [drop app]. rewrite <-app_assoc. rewrite <-Hl at 1. by rewrite drop_app_length.
Qed.

(** The body of a close frame reads back as its code and reason. *)
Lemma close_of_payload m :
  server_frame_ok m → opcode (server_frame m) = 8%N →
  closes_of [m] = [close_of (zlength (payload (server_frame m))) (payload (server_frame m))].
Proof.
  destruct m as [f|[[c r]|]]; intros (_ & _ & _ & Hm) Ho; [done| |done].
  destruct Hm as [Hc [Hr1 Hr2]]. cbn -[be_split]. unfold close_of. rewrite zlength_app.
  assert (zlength (be_split 2 c) = 2) as E by (unfold zlength; by rewrite length_be_split).
  assert (0 <= zlength (text_encode r)) by (unfold zlength; lia).
  destruct (Z.leb_spec 2 (zlength (be_split 2 c) + zlength (text_encode r))); [|lia].
  rewrite take_app_length', drop_app_length', be_combine_split by (rewrite ?length_be_split; done || simpl; lia).
  unfold buffer_toString. by rewrite of_text_encode.
Qed.

Lemma closes_of_cons m ms : closes_of (m :: ms) = closes_of [m] ++ closes_of ms.
Proof. unfold closes_of. cbn. by destruct m as [f|[[c r]|]]. Qed.

Lemma closes_of_other m : opcode (server_frame m) ≠ 8%N → closes_of [m] = [].
Proof. by destruct m as [f|[[c r]|]]. Qed.

Lemma encode_frames_cons m ms : encode_frames (m :: ms) = encode_frame (server_frame m) ++ encode_frames ms.
Proof. done. Qed.

Section server.
Context (m : ServerFrame) (Hm : server_frame_ok m) (rest : list N).
Let f := server_frame m.

(** The first frame of a stream, whole. *)
Lemma first_frame :
  ∃ len off, frame_header (encode_frame f ++ rest) = Some (opcode f, len, off) ∧
    off + len = zlength (encode_frame f) ∧ off + len <= 2 ^ 53 ∧
    drop (Z.to_nat (off + len)) (encode_frame f ++ rest) = rest ∧
    (∀ s, (note_frame (opcode f) len off (encode_frame f ++ rest) s) <| buffered := rest |> =
          s <| out := out s ++ closes_of [m] |> <| buffered := rest |>).
Proof.
  destruct Hm as (_ & Ho & Hp & _). fold f in Ho, Hp.
  destruct (frame_header_encode f rest Ho Hp) as (off & Eh & El & Hof & Ed).
  exists (zlength (payload f)), off. split_and!; [done..|lia| |].
  - rewrite El. unfold zlength. by rewrite Nat2Z.id, drop_app_length.
  - intros s. unfold note_frame. destruct (N.eqb_spec (opcode f) 8) as [E8|E8].
    + rewrite (close_of_payload m Hm E8). fold f.
      unfold bytes_at. rewrite Ed. unfold zlength at 2. by rewrite Nat2Z.id, take_app_length.
    + rewrite closes_of_other by done. rewrite app_nil_r. by destruct s.
Qed.
End server.

Lemma sniff_encode ms o :
  Forall server_frame_ok ms →
  sniff_buffered (mkSniffer true (encode_frames ms) 0 o) = mkSniffer true [] 0 (o ++ closes_of ms) ∧
  buffer_exact (encode_frames ms) = true.
Proof.
  intros Hms. revert o. induction Hms as [|m ms Hm _ IH]; intros o.
  { by rewrite app_nil_r, sniff_buffered_none. }
  rewrite encode_frames_cons, closes_of_cons.
  destruct (first_frame m Hm (encode_frames ms)) as (len & off & Eh & El & Hx & Ed & Hn).
  assert (off + len <= zlength (encode_frame (server_frame m) ++ encode_frames ms)) as Hl.
  { rewrite zlength_app. unfold zlength at 2. lia. }
  split.
  - rewrite (sniff_buffered_frame (opcode (server_frame m)) len off); [|exact Eh|rewrite dbl_exact by lia; exact Hl].
    rewrite dbl_exact by lia. cbn [buffered]. rewrite Ed, Hn, app_assoc. exact (proj1 (IH (o ++ closes_of [m]))).
  - destruct (IH o) as [_ IHe]. unfold buffer_exact. cbn [frames_exact]. rewrite Eh.
    apply andb_true_iff. split; [by apply Z.leb_le|]. destruct (Z.leb_spec (off + len) (zlength (encode_frame (server_frame m) ++ encode_frames ms))); [|lia].
    rewrite Ed. etransitivity; [|exact IHe]. apply frames_exact_fuel; rewrite ?length_app; [|lia].
    apply frame_header_bounds in Eh as (? & ? & _). unfold zlength in El. lia.
Qed.

(** The whole stream in one chunk, and that it is exact. *)
Lemma sniff_stream head ms closes :
  buffer_indexOf CRLF2 (head ++ CRLF2) = Some (length head) → Forall server_frame_ok ms →
  sniff (head ++ CRLF2 ++ encode_frames ms) (new_sniffer closes) = mkSniffer true [] 0 (closes ++ closes_of ms) ∧
  chunk_exact (new_sniffer closes) (head ++ CRLF2 ++ encode_frames ms) = true.
Proof.
  intros Hh Hms. destruct (sniff_encode ms closes Hms) as [E He].
  destruct (buffer_indexOf_app _ _ (encode_frames ms) _ Hh) as [Hi _]. rewrite <-app_assoc in Hi.
  assert (drop (length head + 4) (head ++ CRLF2 ++ encode_frames ms) = encode_frames ms) as Ed.
  { rewrite app_assoc. apply drop_app_length'. by rewrite length_app. }
  assert (0 < zlength (head ++ CRLF2 ++ encode_frames ms)) as Hl.
  { rewrite !zlength_app. unfold zlength. simpl. lia. }
  set (all := head ++ CRLF2 ++ encode_frames ms) in *.
  split; [unfold sniff|unfold chunk_exact]; cbn [skip new_sniffer buffered upgraded app];
    (destruct (Z.leb_spec (zlength all) 0); [lia|]); rewrite drop_0.
  - cbn. by rewrite Hi, Ed.
  - by rewrite Hi, Ed.
Qed.

(** ** Properties of the sniffer *)

(** the sniffer does not depend on how the network cuts the bytes up:
    chunk by chunk it ends in the same state as on all of them at once, as
    long as no frame declares more bytes than numbers count exactly. *)
Theorem sniffer_ignores_chunking (s : Sniffer) (chunks : list (list N)) :
  0 <= skip s <= 2 ^ 53 → chunk_exact s (concat chunks) = true →
  foldl (λ s c, sniff c s) s chunks = sniff (concat chunks) s.
Proof. intros Hs He. by apply sniff_concat. Qed.

(** C36: the sniffer records exactly the relay's close frames, with their codes
    and reasons, in order, and 1005 for one without: for every response head
    and every sequence of frames a relay sends, in whatever chunks they come. *)
Theorem sniffer_records_closes (head : list N) (ms : list ServerFrame) (chunks : list (list N)) (closes : list CloseFrame) :
  buffer_indexOf CRLF2 (head ++ CRLF2) = Some (length head) → Forall server_frame_ok ms →
  concat chunks = head ++ CRLF2 ++ encode_frames ms →
  foldl (λ s c, sniff c s) (new_sniffer closes) chunks = mkSniffer true [] 0 (closes ++ closes_of ms).
Proof.
  intros Hh Hms Hc. destruct (sniff_stream head ms closes Hh Hms) as [E He].
  rewrite sniff_concat, Hc; [exact E|done|by rewrite Hc].
Qed.

(** ** The proxy's connections *)

Lemma proxy_run_app xs ys p : proxy_run (xs ++ ys) p = proxy_run ys (proxy_run xs p).
Proof. apply foldl_app. Qed.

Lemma set_upstream_paused_sniffer b p : sniffer (set_upstream_paused b p) = sniffer p.
Proof. unfold set_upstream_paused. by destruct (upstream p). Qed.

(** Everything the relay sends goes through the one sniffer, in order. *)
Definition relay_chunk (x : ProxyInput) : option (list N) :=
  match x with PRelayData _ d => Some d | _ => None end.

Lemma proxy_sniffer xs p :
  sniffer (proxy_run xs p) = foldl (λ s c, sniff c s) (sniffer p) (omap relay_chunk xs).
Proof.
  revert p. induction xs as [|x xs IH]; intros p; [done|]. change (proxy_run (x :: xs) p) with (proxy_run xs (proxy_step x p)).
  rewrite IH. destruct x; cbn -[set_upstream_paused]; try done.
  - unfold relay_data. by destruct (discarding (p <| sniffer := _ |>)).
  - unfold pause. by rewrite set_upstream_paused_sniffer.
  - unfold resume. by rewrite set_upstream_paused_sniffer.
  - unfold discard. by rewrite set_upstream_paused_sniffer.
Qed.

Lemma sniff_frames_out n s : ∃ l, out (sniff_frames n s) = out s ++ l.
Proof.
  revert s. induction n as [|n IH]; intros s; [exists []; by rewrite app_nil_r|]. cbn [sniff_frames].
  destruct (frame_header (buffered s)) as [[[op len] off]|]; [|exists []; by rewrite app_nil_r].
  destruct (_ && _); [exists []; by rewrite app_nil_r|]. destruct (_ <=? _).
  - match goal with |- ∃ l, out (sniff_frames n ?s') = _ => destruct (IH s') as [l El] end. rewrite El.
    destruct (op =? 8)%N; cbn; [rewrite <-app_assoc|]; by eexists.
  - destruct (op =? 8)%N; cbn; [by eexists|exists []; by rewrite app_nil_r].
Qed.

(** The bytes of a relay's answer to a second upgrade, taken for a frame. *)
Lemma sniff_response rest o :
  (82 <= length rest)%nat →
  ∃ l, out (sniff (js "HTTP" ++ rest) (mkSniffer true [] 0 o)) =
       o ++ mkCloseFrame 21584 (buffer_toString (take 82 rest)) :: l.
Proof.
  intros Hl. unfold sniff. cbn [skip]. match goal with |- context [zlength ?q <=? 0] => destruct (Z.leb_spec (zlength q) 0) as [Hz|_] end.
  { unfold zlength in Hz. simpl in Hz. lia. }
  cbn [upgraded over]. change (drop (Z.to_nat 0) ?q) with q. cbn [app].
  match goal with |- context [sniff_buffered ?s0] => set (s := s0) end.
  assert (frame_header (buffered s) = Some (8%N, 84, 2)) as Hh by done.
  assert (zlength (buffered s) = 4 + zlength rest) as Ez by (change (buffered s) with (js "HTTP" ++ rest); by rewrite zlength_app).
  rewrite (sniff_buffered_frame 8 84 2 s); [|exact Hh|change (dbl (2 + 84)) with 86; rewrite Ez; unfold zlength; lia].
  change (dbl (2 + 84)) with 86. unfold sniff_buffered at 1.
  match goal with |- context [sniff_frames ?n ?s'] => destruct (sniff_frames_out n s') as [l ->] end.
  exists l. transitivity ((o ++ [mkCloseFrame 21584 (buffer_toString (take 82 rest))]) ++ l); [done|].
  by rewrite <-app_assoc.
Qed.

(** What the proxy wrote on connection [i]: to its client, and to its relay. *)
Definition wrote (i : nat) (p : Proxy) : list N * list N :=
  match conns p !! i with Some c => (client_written c, relay_written c) | None => ([], []) end.

Definition appended (a b : list N * list N) : list N * list N := (a.1 ++ b.1, a.2 ++ b.2).

(** What one input adds, and what a whole run does. *)
Definition writes (i : nat) (discarding : bool) (x : ProxyInput) : list N * list N :=
  match x with
  | PClientData j d => ([], if decide (j = i) then d else [])
  | PRelayData j d => (if decide (j = i) then if discarding then [] else d else [], [])
  | _ => ([], [])
  end.

Definition is_discard (x : ProxyInput) : bool := match x with PDiscard => true | _ => false end.

Fixpoint forwarded (i : nat) (discarding : bool) (xs : list ProxyInput) : list N * list N :=
  match xs with
  | [] => ([], [])
  | x :: xs' => appended (writes i discarding x) (forwarded i (discarding || is_discard x) xs')
  end.

(** A run in which every event happens when it can. *)
Fixpoint proxy_orderly (xs : list ProxyInput) (p : Proxy) : bool :=
  match xs with
  | [] => true
  | x :: xs' => proxy_enabled p x && proxy_orderly xs' (proxy_step x p)
  end.

Lemma appended_nil a : appended a ([], []) = a.
Proof. destruct a. unfold appended. simpl. by rewrite !app_nil_r. Qed.

Lemma appended_assoc a b c : appended (appended a b) c = appended a (appended b c).
Proof. unfold appended. simpl. by rewrite !app_assoc. Qed.

Lemma lookup_on_conn i j f p : conns (on_conn j f p) !! i = (if decide (j = i) then f <$> conns p !! i else conns p !! i).
Proof.
  unfold on_conn. cbn. destruct (decide (j = i)) as [->|E]; [by rewrite list_lookup_alter_eq|].
  by rewrite list_lookup_alter_ne.
Qed.

(** A change of the sockets' states writes nothing. *)
Definition silent (f : Conn → Conn) : Prop :=
  ∀ c, client_written (f c) = client_written c ∧ relay_written (f c) = relay_written c.

Lemma wrote_on_conn i j f p : silent f → wrote i (on_conn j f p) = wrote i p.
Proof.
  intros Hf. unfold wrote. rewrite lookup_on_conn. destruct (decide (j = i)); [|done].
  destruct (conns p !! i) as [c|]; [|done]. simpl. by destruct (Hf c) as [-> ->].
Qed.

Lemma wrote_set_upstream_paused i b p : wrote i (set_upstream_paused b p) = wrote i p.
Proof. unfold set_upstream_paused. destruct (upstream p); [by apply wrote_on_conn|done]. Qed.

Lemma wrote_stop i p : wrote i (stop p) = wrote i p.
Proof. unfold wrote, stop. cbn. rewrite list_lookup_fmap. by destruct (conns p !! i). Qed.

Lemma wrote_accept i p : wrote i (accept p) = wrote i p.
Proof.
  unfold wrote, accept. cbn. destruct (conns p !! i) as [c|] eqn:E; [by rewrite (lookup_app_l_Some _ _ _ _ E)|].
  destruct ((conns p ++ [new_conn (paused p)]) !! i) as [c|] eqn:E'; [|done].
  apply lookup_app_Some in E' as [?|[_ [_ <-]%list_lookup_singleton_Some]]; [congruence|done].
Qed.

(** Data for a connection that is there. *)
Lemma wrote_data i j f w p :
  is_Some (conns p !! j) →
  (∀ c, (client_written (f c), relay_written (f c)) = appended (client_written c, relay_written c) w) →
  wrote i (on_conn j f p) = appended (wrote i p) (if decide (j = i) then w else ([], [])).
Proof.
  intros [c Hc] Hf. unfold wrote. rewrite lookup_on_conn. destruct (decide (j = i)) as [<-|]; [|by rewrite appended_nil].
  rewrite Hc. simpl. apply Hf.
Qed.

Lemma wrote_step i x p :
  proxy_enabled p x = true → wrote i (proxy_step x p) = appended (wrote i p) (writes i (discarding p) x).
Proof.
  intros He. destruct x as [|j d|j d|j|j| | | |]; cbn [proxy_step proxy_enabled writes] in *; rewrite ?appended_nil.
  - apply wrote_accept.
  - unfold client_data. rewrite (wrote_data i j _ ([], d)); [by destruct (decide (j = i))|by destruct (conns p !! j)|].
    intros c. unfold appended. simpl. by rewrite app_nil_r.
  - unfold relay_data. change (discarding (p <| sniffer := sniff d (sniffer p) |>)) with (discarding p).
    destruct (discarding p); [destruct (decide (j = i)); symmetry; apply appended_nil|].
    rewrite (wrote_data i j _ (d, [])); [by destruct (decide (j = i))|cbn; by destruct (conns p !! j)|].
    intros c. unfold appended. simpl. by rewrite app_nil_r.
  - unfold relay_close. by rewrite wrote_on_conn.
  - unfold client_close. by rewrite wrote_on_conn.
  - unfold pause. by rewrite wrote_set_upstream_paused.
  - unfold resume. by rewrite wrote_set_upstream_paused.
  - unfold discard. by rewrite wrote_set_upstream_paused.
  - apply wrote_stop.
Qed.

Lemma discarding_step x p : discarding (proxy_step x p) = discarding p || is_discard x.
Proof.
  assert (∀ b q, discarding (set_upstream_paused b q) = discarding q) as Hu.
  { intros b q. unfold set_upstream_paused. by destruct (upstream q). }
  destruct x; cbn [proxy_step is_discard]; rewrite ?orb_false_r, ?orb_true_r; try done;
    unfold pause, resume, discard; rewrite ?Hu; try done.
  unfold relay_data. by destruct (discarding (p <| sniffer := _ |>)) eqn:E.
Qed.

Lemma wrote_run i xs p :
  proxy_orderly xs p = true → wrote i (proxy_run xs p) = appended (wrote i p) (forwarded i (discarding p) xs).
Proof.
  revert p. induction xs as [|x xs IH]; intros p Ho; [symmetry; apply appended_nil|].
  cbn [proxy_orderly] in Ho. apply andb_true_iff in Ho as [He Ho].
  change (proxy_run (x :: xs) p) with (proxy_run xs (proxy_step x p)).
  by rewrite (IH _ Ho), wrote_step, discarding_step, appended_assoc.
Qed.

(** The relay socket last connected is paused exactly while the controls say so. *)
Definition paused_agrees (p : Proxy) : Prop :=
  ∀ i c, upstream p = Some i → conns p !! i = Some c → relay_paused c = paused p.

Lemma agrees_on_conn i f p : (∀ c, relay_paused (f c) = relay_paused c) → paused_agrees p → paused_agrees (on_conn i f p).
Proof.
  intros Hf Hp j c Hu. rewrite lookup_on_conn. case_decide as E; [|by apply Hp].
  intros (c0 & Hc & ->)%fmap_Some. rewrite Hf. by apply (Hp j).
Qed.

Lemma agrees_set b p : paused p = b → paused_agrees (set_upstream_paused b p).
Proof.
  intros <- j c. unfold set_upstream_paused. destruct (upstream p) as [i|] eqn:Eu; [|congruence].
  intros Hu. cbn in Hu. rewrite lookup_on_conn. rewrite decide_True by congruence.
  by intros (c0 & _ & ->)%fmap_Some.
Qed.

Lemma agrees_step x p : paused_agrees p → paused_agrees (proxy_step x p).
Proof.
  intros Hp. destruct x; cbn [proxy_step].
  - intros j c [= <-]. cbn. rewrite lookup_app_r, Nat.sub_diag by done. by intros [= <-].
  - by apply agrees_on_conn.
  - unfold relay_data. cbn [over discarding]. destruct (discarding p); [exact Hp|]. by apply agrees_on_conn.
  - by apply agrees_on_conn.
  - by apply agrees_on_conn.
  - by apply agrees_set.
  - by apply agrees_set.
  - by apply agrees_set.
  - intros j c Hu. cbn. rewrite list_lookup_fmap. intros (c0 & Hc & ->)%fmap_Some. exact (Hp j c0 Hu Hc).
Qed.

Lemma agrees_run xs p : paused_agrees p → paused_agrees (proxy_run xs p).
Proof. revert p. induction xs as [|x xs IH]; intros p Hp; [done|]. by apply IH, agrees_step. Qed.

(** ** Properties of the proxy *)

(** C37: in every run of the proxy each connection's relay got exactly the bytes
    its own client sent, in order; its client got exactly the bytes its relay
    sent up to the first discard and none after; while the controls hold the
    proxy paused no data of the relay last connected can arrive; and
    [relayCloses] is what the sniffer makes of every relay byte, discarded or
    not. *)
Theorem proxy_forwards (xs : list ProxyInput) :
  proxy_orderly xs new_proxy = true →
  let p := proxy_run xs new_proxy in
  (∀ i, wrote i p = forwarded i false xs) ∧
  (∀ i d, paused p = true → upstream p = Some i → proxy_enabled p (PRelayData i d) = false) ∧
  relayCloses p = out (foldl (λ s c, sniff c s) (new_sniffer []) (omap relay_chunk xs)).
Proof.
  intros Ho p. split_and!.
  - intros i. etransitivity; [exact (wrote_run i xs new_proxy Ho)|].
    change (wrote i new_proxy) with (@nil N, @nil N). unfold appended. simpl. by destruct (forwarded i false xs).
  - intros i d Hp Hu. cbn. destruct (conns p !! i) as [c|] eqn:E; [|done].
    assert (paused_agrees p) as Ha by by apply agrees_run. rewrite (Ha i c Hu E), Hp. by rewrite andb_false_r.
  - unfold relayCloses, p. by rewrite proxy_sniffer.
Qed.

(** A client that comes back through the proxy has its upgrade's answer
    read as frames, for the one sniffer stays in the upgraded state of the
    first connection: behind the close frames of the first connection
    [relayCloses] then holds one the relay never sent, code 21584 (the letters
    of HTTP's third and fourth byte) with the answer's next 82 bytes for
    reason. *)
Theorem second_connection_misread (head : list N) (ms : list ServerFrame) (chunks : list (list N)) (rest : list N) :
  buffer_indexOf CRLF2 (head ++ CRLF2) = Some (length head) → Forall server_frame_ok ms →
  concat chunks = head ++ CRLF2 ++ encode_frames ms → (82 <= length rest)%nat →
  ∃ l, relayCloses (proxy_run ([PAccept] ++ (PRelayData 0 <$> chunks) ++ [PAccept; PRelayData 1 (js "HTTP" ++ rest)]) new_proxy) =
       closes_of ms ++ mkCloseFrame 21584 (buffer_toString (take 82 rest)) :: l.
Proof.
  intros Hh Hms Hc Hl. unfold relayCloses. rewrite proxy_sniffer.
  assert (omap relay_chunk ([PAccept] ++ (PRelayData 0 <$> chunks) ++ [PAccept; PRelayData 1 (js "HTTP" ++ rest)]) =
    chunks ++ [js "HTTP" ++ rest]) as ->.
  { clear Hc. cbn. induction chunks as [|c cs IH]; [done|]. cbn. by f_equal. }
  rewrite foldl_app. change (sniffer new_proxy) with (new_sniffer []).
  destruct (sniff_stream head ms [] Hh Hms) as [E He]. rewrite <-Hc in E, He.
  rewrite (sniff_concat (new_sniffer []) ltac:(done) chunks), E; [by apply sniff_response|done..].
Qed.

(** ** At concrete inputs *)

(** A relay's answer to an upgrade, a text message, and the close it sends a
    slow consumer: with a code and a reason. *)
Abbreviation sample_head := (js "HTTP/1.1 101 Switching Protocols").
Abbreviation sample_frames := [Other (mkFrame 8 1 [104; 105]%N); Close (Some (1013%Z, js "slow"))].
Abbreviation sample_stream := (sample_head ++ CRLF2 ++ encode_frames sample_frames).
Abbreviation sample_chunks := [take 20 sample_stream; take 17 (drop 20 sample_stream); drop 37 sample_stream].

Lemma sample_frames_ok : Forall server_frame_ok sample_frames.
Proof.
  repeat constructor; try (vm_compute; congruence); try lia; vm_compute; repeat constructor; done.
Qed.

Lemma sniffer_ignores_chunking_witness :
  foldl (λ s c, sniff c s) (new_sniffer []) sample_chunks = mkSniffer true [] 0 [mkCloseFrame 1013 (js "slow")].
Proof.
  transitivity (sniff (concat sample_chunks) (new_sniffer [])).
  - apply sniffer_ignores_chunking; [cbn; lia|vm_compute; reflexivity].
  - vm_compute. reflexivity.
Defined.

Lemma sniffer_records_closes_witness :
  foldl (λ s c, sniff c s) (new_sniffer []) sample_chunks = mkSniffer true [] 0 ([] ++ closes_of sample_frames).
Proof.
  apply (sniffer_records_closes sample_head).
  - vm_compute. reflexivity.
  - exact sample_frames_ok.
  - vm_compute. reflexivity.
Defined.

(** Two messages pass, one is held up while paused, then the rest is thrown away. *)
Abbreviation sample_run :=
  [PAccept; PClientData 0 [1; 2]%N; PRelayData 0 [7]%N; PRelayData 0 [8; 9]%N; PPause; PClientData 0 [3]%N; PDiscard;
   PRelayData 0 [10]%N; PRelayClose 0].

Lemma proxy_forwards_witness :
  wrote 0 (proxy_run sample_run new_proxy) = ([7; 8; 9]%N, [1; 2; 3]%N).
Proof.
  transitivity (forwarded 0 false sample_run); [|vm_compute; reflexivity].
  apply (proj1 (proxy_forwards sample_run eq_refl)).
Defined.

Lemma second_connection_misread_witness :
  ∃ l, relayCloses (proxy_run ([PAccept] ++ (PRelayData 0 <$> sample_chunks) ++
         [PAccept; PRelayData 1 (js "HTTP" ++ replicate 90 97%N)]) new_proxy) =
       closes_of sample_frames ++ mkCloseFrame 21584 (buffer_toString (take 82 (replicate 90 97%N))) :: l.
Proof.
  apply (second_connection_misread sample_head).
  - vm_compute. reflexivity.
  - exact sample_frames_ok.
  - vm_compute. reflexivity.
  - vm_compute. lia.
Defined.
