(* ===== verification/Concurrency.v ===== *)
(** * Goroutines over shared memory

    The relay is a Go program: a goroutine runs its code while others run
    theirs, and shares its memory with them. A [proc] is the code of one: a
    sequence of atomic steps on the shared state, each of which may have to
    wait. It can run alone, to its end, or take turns with others under a
    schedule. What every step of every goroutine keeps, every schedule keeps. *)

From S2P Require Import Prelude.

(** ** Processes *)

#[local] Set Warnings "-register-all".

(** [Step f] waits while [f] gives [None] for the state. *)
Inductive proc (S A : Type) :=
  | Done (a : A)
  | Step (f : S → option (S * proc S A)).
Arguments Done {S A} a.
Arguments Step {S A} f.

(** Induction over all a process may come to. *)
Lemma proc_nested {S A} (P : proc S A → Prop) :
  (∀ a, P (Done a)) → (∀ f, (∀ s s' p', f s = Some (s', p') → P p') → P (Step f)) → ∀ p, P p.
Proof.
  intros Hd Hs. fix IH 1. intros [a|f]; [apply Hd|]. apply Hs. intros s.
  generalize (f s). intros [[s1 p1]|] s' p'; [|discriminate].
  intros E. injection E as _ <-. apply IH.
Qed.

#[export] Instance proc_ret {S} : MRet (proc S) := λ A a, Done a.
#[export] Instance proc_bind {S} : MBind (proc S) := λ A B k,
  fix go (p : proc S A) : proc S B :=
    match p with
    | Done a => k a
    | Step f => Step (λ s, match f s with Some (s', p') => Some (s', go p') | None => None end)
    end.

(** One atomic step; one that waits for a condition; one that only reads. *)
Definition atomically {S A} (f : S → S * A) : proc S A := Step (λ s, let '(s', a) := f s in Some (s', Done a)).
Definition once {S A} (ready : S → bool) (f : S → S * A) : proc S A :=
  Step (λ s, if ready s then let '(s', a) := f s in Some (s', Done a) else None).
Definition reads {S A} (f : S → A) : proc S A := atomically (λ s, (s, f s)).
Definition writes {S} (f : S → S) : proc S unit := atomically (λ s, (f s, tt)).

Definition whenp {S} (b : bool) (p : proc S unit) : proc S unit := if b then p else Done tt.

Fixpoint each {S B} (body : B → proc S unit) (l : list B) : proc S unit :=
  match l with [] => Done tt | x :: l' => body x ;; each body l' end.

(** ** Running alone *)

(** [None]: the process waits, for nobody to wake it. *)
Fixpoint alone {S A} (p : proc S A) (s : S) : option (S * A) :=
  match p with
  | Done a => Some (s, a)
  | Step f => match f s with Some (s', p') => alone p' s' | None => None end
  end.

(** ** Taking turns *)

Record threads (S A : Type) := mkThreads { shared : S; pool : list (proc S A) }.
Arguments mkThreads {S A}.
Arguments shared {S A}.
Arguments pool {S A}.

(** Goroutine [i] takes its next step, if it has one and does not wait. *)
Definition turn {S A} (i : nat) (t : threads S A) : threads S A :=
  match pool t !! i with
  | Some (Step f) =>
      match f (shared t) with
      | Some (s', p') => mkThreads s' (<[i := p']> (pool t))
      | None => t
      end
  | _ => t
  end.

Definition schedule {S A} (turns : list nat) (t : threads S A) : threads S A := foldl (λ t i, turn i t) t turns.

(** ** What steps keep

    [holds s n v]: in [s] the token [n] is out (a lock that is held, a name
    that is taken), while which [v] cannot change. A goroutine owns the tokens
    it took, with what it knows of each; a step may rely on its own, and must
    leave the others'. *)

Section safe.
Context {S V : Type} `{Countable K} (I : S → Prop) (holds : S → K → V → Prop).
Implicit Types (T : gmap K V).

Definition owns T (s : S) : Prop := ∀ n v, T !! n = Some v → holds s n v.

(** A step from [s] to [s'] of the owner of [T], who owns [T'] after it. *)
Record moves T (s : S) T' (s' : S) : Prop := {
  moves_owns : owns T' s';
  moves_others n v : T !! n = None → holds s n v → holds s' n v ∧ T' !! n = None
}.

(** Every step [p] can ever take, whatever others do in between, keeps [I]
    and their locks; what it ends with meets [Q]. *)
Fixpoint safe {A} T (p : proc S A) (Q : gmap K V → A → Prop) : Prop :=
  match p with
  | Done a => Q T a
  | Step f => ∀ s, I s → owns T s →
      match f s with
      | Some (s', p') => I s' ∧ ∃ T', moves T s T' s' ∧ safe T' p' Q
      | None => True
      end
  end.

Lemma safe_bind {A B} T (p : proc S A) (k : A → proc S B) Q :
  safe T p (λ T' a, safe T' (k a) Q) → safe T (p ≫= k) Q.
Proof.
  revert T. induction p as [a|f IH] using proc_nested; intros T Hp; [exact Hp|]. intros s Hs Ho. specialize (Hp s Hs Ho).
  specialize (IH s). destruct (f s) as [[s' p']|]; [|done]. destruct Hp as (Hs' & T' & Hm & Hp).
  split; [done|]. exists T'. split; [done|]. by eapply IH.
Qed.

Lemma safe_mono {A} T (p : proc S A) Q Q' : safe T p Q → (∀ T' a, Q T' a → Q' T' a) → safe T p Q'.
Proof.
  intros Hp HQ. revert T Hp. induction p as [a|f IH] using proc_nested; intros T Hp; [by apply HQ|].
  intros s Hs Ho. specialize (Hp s Hs Ho). specialize (IH s). destruct (f s) as [[s' p']|]; [|done].
  destruct Hp as (Hs' & T' & Hm & Hp). split; [done|]. exists T'. split; [done|]. by eapply IH.
Qed.

(** A step that leaves all locks as they are. *)
Lemma safe_once {A} T ready (f : S → S * A) Q :
  (∀ s, ready s = true → I s → owns T s →
     I (f s).1 ∧ (∀ n v, holds s n v → holds (f s).1 n v) ∧ Q T (f s).2) →
  safe T (once ready f) Q.
Proof.
  intros Hf s Hs Ho. cbn. destruct (ready s) eqn:Er; [|done]. destruct (Hf s Er Hs Ho) as (H1 & H2 & H3).
  destruct (f s) as [s' a]. split; [done|]. exists T. split; [|done].
  split; [intros n v Hn; by apply H2, Ho|intros n v Hn Hh; split; [by apply H2|done]].
Qed.

Lemma safe_atomically {A} T (f : S → S * A) Q :
  (∀ s, I s → owns T s → I (f s).1 ∧ (∀ n v, holds s n v → holds (f s).1 n v) ∧ Q T (f s).2) →
  safe T (atomically f) Q.
Proof. intros Hf. apply (safe_once T (λ _, true)). auto. Qed.

Lemma safe_reads {A} T (f : S → A) Q : (∀ s, I s → owns T s → Q T (f s)) → safe T (reads f) Q.
Proof. intros Hf. apply safe_atomically. intros s Hs Ho. by split_and!; [..|apply Hf]. Qed.

Lemma safe_each {B} T (body : B → proc S unit) l :
  (∀ x, x ∈ l → safe T (body x) (λ T' _, T' = T)) → safe T (each body l) (λ T' _, T' = T).
Proof.
  induction l as [|x l IH]; intros Hb; [done|]. apply safe_bind. eapply safe_mono; [apply Hb; by left|].
  intros ? _ ->. apply IH. intros y Hy. apply Hb. by right.
Qed.

(** What is safe is safe alone. *)
Lemma safe_alone {A} T (p : proc S A) Q s s' a :
  safe T p Q → I s → owns T s → alone p s = Some (s', a) → I s' ∧ ∃ T', owns T' s' ∧ Q T' a.
Proof.
  revert T s. induction p as [b|f IH] using proc_nested; intros T s Hp Hs Ho; cbn.
  - intros [= <- <-]. split; [done|by exists T].
  - specialize (Hp s Hs Ho). specialize (IH s). destruct (f s) as [[s1 p1]|]; [|done].
    destruct Hp as (Hs1 & T1 & [Ho1 _] & Hp1). by eapply IH.
Qed.

(** A pool whose goroutines are safe with the tokens each owns, and meet [Q]. *)
Record pool_safe {A} (Q : nat → gmap K V → A → Prop) (Ts : list (gmap K V)) (t : threads S A) : Prop := {
  ps_inv : I (shared t);
  ps_length : length Ts = length (pool t);
  ps_safe i T p : Ts !! i = Some T → pool t !! i = Some p → safe T p (Q i);
  ps_owns i T : Ts !! i = Some T → owns T (shared t);
  ps_apart i j Ti Tj n : Ts !! i = Some Ti → Ts !! j = Some Tj → is_Some (Ti !! n) → is_Some (Tj !! n) → i = j
}.

Lemma turn_safe {A} (Q : nat → gmap K V → A → Prop) i Ts t : pool_safe Q Ts t → ∃ Ts', pool_safe Q Ts' (turn i t).
Proof.
  intros [Hs Hl Hp Ho Ha]. unfold turn. destruct (pool t !! i) as [[a|f]|] eqn:Ei; [by exists Ts| |by exists Ts].
  assert (is_Some (Ts !! i)) as [T HT] by (apply lookup_lt_is_Some; rewrite Hl; by eapply lookup_lt_Some).
  pose proof (Ho _ _ HT) as HoT. pose proof (Hp _ _ _ HT Ei (shared t) Hs HoT) as Hf. cbn in Hf.
  destruct (f (shared t)) as [[s' p']|]; [|by exists Ts]. destruct Hf as (Hs' & T' & [Hm1 Hm2] & Hp').
  assert (∀ j Tj, j ≠ i → Ts !! j = Some Tj → ∀ n v, Tj !! n = Some v → holds s' n v ∧ T' !! n = None) as Hother.
  { intros j Tj Hj HTj n v Hn. apply Hm2; [|by apply (Ho _ _ HTj)].
    apply eq_None_not_Some. intros Hn'. apply Hj. by eapply (Ha j i). }
  assert (i < length Ts) as Hlt by (by eapply lookup_lt_Some).
  assert (∀ j Tj, <[i := T']> Ts !! j = Some Tj → (j = i ∧ Tj = T') ∨ (j ≠ i ∧ Ts !! j = Some Tj)) as Hin.
  { intros j Tj Hj. destruct (decide (j = i)) as [->|Hne]; [left|right; split; [done|]].
    - rewrite list_lookup_insert_eq in Hj by done. by injection Hj as <-.
    - by rewrite list_lookup_insert_ne in Hj. }
  exists (<[i := T']> Ts). split; cbn; [done|by rewrite !length_insert|..].
  - intros j Tj p Hj Hpj. apply Hin in Hj as [[-> ->]|[Hne Hj]].
    + rewrite list_lookup_insert_eq in Hpj by lia. by injection Hpj as <-.
    + rewrite list_lookup_insert_ne in Hpj by done. by apply (Hp j Tj p).
  - intros j Tj Hj. apply Hin in Hj as [[-> ->]|[Hne Hj]]; [done|]. intros n v Hn. by apply (Hother j Tj Hne Hj).
  - assert (∀ j Tj n, j ≠ i → Ts !! j = Some Tj → is_Some (T' !! n) → is_Some (Tj !! n) → False) as Hx.
    { intros j Tj n Hne Hj [v' Hn'] [v Hn]. destruct (Hother j Tj Hne Hj n v Hn) as [_ E]. congruence. }
    intros j k Tj Tk n Hj Hk Hnj Hnk.
    apply Hin in Hj as [[-> ->]|[Hne Hj]], Hk as [[-> ->]|[Hne' Hk]]; [done| | |by apply (Ha j k Tj Tk n)];
      exfalso; by eapply Hx.
Qed.

Lemma schedule_safe {A} (Q : nat → gmap K V → A → Prop) turns Ts t :
  pool_safe Q Ts t → ∃ Ts', pool_safe Q Ts' (schedule turns t).
Proof.
  revert Ts t. induction turns as [|i turns IH]; intros Ts t Ht; [by exists Ts|].
  destruct (turn_safe Q i Ts t Ht) as [Ts' Ht']. by apply (IH Ts').
Qed.

(** Processes that are safe with no tokens keep [I] under every schedule, and
    one that is done has met its postcondition. *)
Lemma safe_schedule_post {A} (Q : nat → gmap K V → A → Prop) turns s (ps : list (proc S A)) :
  I s → (∀ i p, ps !! i = Some p → safe ∅ p (Q i)) →
  let t := schedule turns (mkThreads s ps) in
  I (shared t) ∧ ∀ i a, pool t !! i = Some (Done a) → ∃ T, owns T (shared t) ∧ Q i T a.
Proof.
  intros Hs Hp t. assert (pool_safe Q (replicate (length ps) ∅) (mkThreads s ps)) as Ht.
  { split; cbn; [done|by rewrite length_replicate| | |].
    - intros i T p [-> _]%lookup_replicate. apply Hp.
    - intros i T [-> _]%lookup_replicate n v Hn. by rewrite lookup_empty in Hn.
    - intros i j Ti Tj n [-> _]%lookup_replicate _ Hn. rewrite lookup_empty in Hn. by destruct Hn. }
  destruct (schedule_safe Q turns _ _ Ht) as [Ts [Hs' Hl Hps Ho _]]. fold t in Hs', Hl, Hps, Ho. split; [done|].
  intros i a Hi. assert (is_Some (Ts !! i)) as [T HT] by (apply lookup_lt_is_Some; rewrite Hl; by eapply lookup_lt_Some).
  exists T. split; [by eapply Ho|by apply (Hps i T (Done a))].
Qed.

Lemma safe_schedule {A} turns s (ps : list (proc S A)) :
  I s → Forall (λ p, safe ∅ p (λ _ _, True)) ps → I (shared (schedule turns (mkThreads s ps))).
Proof.
  intros Hs Hp. apply (safe_schedule_post (λ _ _ _, True)); [done|]. intros i p Hi. by apply (Forall_lookup_1 _ _ _ _ Hp Hi).
Qed.
End safe.

(** ** Steps that guarantee something

    Where nobody takes tokens: every step keeps [I], and goes from a state to
    one that [keep] relates it to, however others behave in between, as long
    as they keep [I] too. Steps are only looked at between states that
    [occurs] holds of, which can be taken to be those of one run. *)

Section surely.
Context {S : Type} (occurs I : S → Prop) (keep : S → S → Prop).

Fixpoint surely {A} (p : proc S A) (Q : A → Prop) : Prop :=
  match p with
  | Done a => Q a
  | Step f => ∀ s, occurs s → I s →
      match f s with Some (s', p') => occurs s' → (I s' ∧ keep s s') ∧ surely p' Q | None => True end
  end.

Lemma surely_bind {A B} (p : proc S A) (k : A → proc S B) Q0 Q :
  surely p Q0 → (∀ a, Q0 a → surely (k a) Q) → surely (p ≫= k) Q.
Proof.
  intros Hp Hk. induction p as [a|f IH] using proc_nested; [by apply Hk|]. intros s Ho Hs. cbn. specialize (Hp s Ho Hs). specialize (IH s).
  destruct (f s) as [[s' p']|]; [|done]. intros Ho'. destruct (Hp Ho') as [Hs' Hp']. split; [done|]. by eapply IH.
Qed.

Lemma surely_mono {A} (p : proc S A) (Q Q' : A → Prop) : surely p Q → (∀ a, Q a → Q' a) → surely p Q'.
Proof.
  intros Hp HQ. induction p as [a|f IH] using proc_nested; [by apply HQ|]. intros s Ho Hs. specialize (Hp s Ho Hs). specialize (IH s).
  destruct (f s) as [[s' p']|]; [|done]. intros Ho'. destruct (Hp Ho') as [Hs' Hp']. split; [done|]. by eapply IH.
Qed.

Lemma surely_once {A} ready (f : S → S * A) (Q : A → Prop) :
  (∀ s, occurs s → I s → occurs (f s).1 → (I (f s).1 ∧ keep s (f s).1) ∧ Q (f s).2) → surely (once ready f) Q.
Proof. intros Hf s Ho Hs. specialize (Hf s Ho Hs). destruct (ready s); [|done]. by destruct (f s). Qed.

Lemma surely_atomically {A} (f : S → S * A) (Q : A → Prop) :
  (∀ s, occurs s → I s → occurs (f s).1 → (I (f s).1 ∧ keep s (f s).1) ∧ Q (f s).2) → surely (atomically f) Q.
Proof. apply (surely_once (λ _, true)). Qed.

Lemma surely_each {B} (body : B → proc S unit) l :
  (∀ x, surely (body x) (λ _, True)) → surely (each body l) (λ _, True).
Proof. intros Hb. induction l as [|x l IH]; [done|]. by apply (surely_bind _ _ (λ _, True)). Qed.

Lemma surely_turn {A} i (t : threads S A) :
  occurs (shared t) → occurs (shared (turn i t)) → I (shared t) → Forall (λ p, surely p (λ _, True)) (pool t) →
  (I (shared (turn i t)) ∧ (turn i t = t ∨ keep (shared t) (shared (turn i t)))) ∧ Forall (λ p, surely p (λ _, True)) (pool (turn i t)).
Proof.
  intros Ho. unfold turn. destruct (pool t !! i) as [[a|f]|] eqn:Ei; [by auto| |by auto]. intros Ho' Hs Hp.
  pose proof (Forall_lookup_1 _ _ _ _ Hp Ei (shared t) Ho Hs) as Hf. destruct (f (shared t)) as [[s' p']|]; [|by auto].
  destruct (Hf Ho') as [[Hs' Hk] Hp']. split; [by auto|]. by apply Forall_insert.
Qed.

Lemma surely_schedule {A} turns (t : threads S A) :
  (∀ k, occurs (shared (schedule (take k turns) t))) → I (shared t) → Forall (λ p, surely p (λ _, True)) (pool t) →
  I (shared (schedule turns t)).
Proof.
  revert t. induction turns as [|i turns IH]; intros t Ho Hs Hp; [done|].
  destruct (surely_turn i t (Ho 0%nat) (Ho 1%nat) Hs Hp) as [[Hs' _] Hp']. apply (IH (turn i t)); [|done..]. intros k. apply (Ho (Datatypes.S k)).
Qed.

Lemma surely_lasts {A} turns (t : threads S A) k :
  Reflexive keep → Transitive keep →
  (∀ k, occurs (shared (schedule (take k turns) t))) → I (shared t) → Forall (λ p, surely p (λ _, True)) (pool t) →
  keep (shared (schedule (take k turns) t)) (shared (schedule turns t)).
Proof.
  intros Hrefl Htrans. revert k t. induction turns as [|i turns IH]; intros k t Ho Hs Hp; [by destruct k|].
  destruct (surely_turn i t (Ho 0%nat) (Ho 1%nat) Hs Hp) as [[Hs' Hk] Hp'].
  assert (∀ k, keep (shared (schedule (take k turns) (turn i t))) (shared (schedule turns (turn i t)))) as Hrest.
  { intros k'. apply IH; [|done..]. intros k''. apply (Ho (Datatypes.S k'')). }
  destruct k as [|k]; [|apply Hrest]. cbn. etrans; [|apply (Hrest 0%nat)]. cbn. by destruct Hk as [->|].
Qed.

(** What a process comes to, whatever it finds. *)
Fixpoint yields {A} (Q : A → Prop) (p : proc S A) : Prop :=
  match p with
  | Done a => Q a
  | Step f => ∀ s, match f s with Some (s', p') => occurs s' → yields Q p' | None => True end
  end.

Lemma yields_bind_post {A B} Q0 Q (p : proc S A) (k : A → proc S B) :
  yields Q0 p → (∀ a, Q0 a → yields Q (k a)) → yields Q (p ≫= k).
Proof.
  intros Hp Hk. induction p as [a|f IH] using proc_nested; [by apply Hk|]. intros s. cbn. specialize (Hp s). specialize (IH s).
  destruct (f s) as [[s' p']|]; [|done]. intros Ho. eapply IH; [done|by apply Hp].
Qed.

Lemma yields_any {A} (p : proc S A) : yields (λ _, True) p.
Proof.
  induction p as [a|f IH] using proc_nested; [done|]. intros s. specialize (IH s). destruct (f s) as [[s' p']|]; [|done]. intros _. by eapply IH.
Qed.

Lemma yields_bind {A B} Q (p : proc S A) (k : A → proc S B) : (∀ a, yields Q (k a)) → yields Q (p ≫= k).
Proof. intros Hk. apply (yields_bind_post (λ _, True)); [apply yields_any|auto]. Qed.

Lemma yields_once {A} ready (f : S → S * A) (Q : A → Prop) : (∀ s, occurs (f s).1 → Q (f s).2) → yields Q (once ready f).
Proof. intros Hf s. specialize (Hf s). destruct (ready s); [|done]. by destruct (f s). Qed.

Lemma surely_yields {A} (p : proc S A) Q Q' : surely p Q → yields Q' p → surely p (λ a, Q a ∧ Q' a).
Proof.
  induction p as [a|f IH] using proc_nested; intros Hp Hy; [by split|]. intros s Ho Hs.
  specialize (Hp s Ho Hs). specialize (Hy s). specialize (IH s). destruct (f s) as [[s' p']|]; [|done].
  intros Ho'. destruct (Hp Ho') as [Hs' Hp']. split; [done|]. eapply IH; [done..|by apply Hy].
Qed.
End surely.

(** ** Running a sequence alone *)

Lemma alone_bind {S A B} (p : proc S A) (k : A → proc S B) s :
  alone (p ≫= k) s = match alone p s with Some (s', a) => alone (k a) s' | None => None end.
Proof.
  revert s. induction p as [a|f IH] using proc_nested; intros s; [done|]. cbn. specialize (IH s).
  destruct (f s) as [[s' p']|]; [|done]. by eapply IH.
Qed.

Lemma alone_atomically {S A} (f : S → S * A) s : alone (atomically f) s = Some (f s).
Proof. unfold atomically. cbn. by destruct (f s). Qed.

Lemma alone_once {S A} ready (f : S → S * A) s : ready s = true → alone (once ready f) s = Some (f s).
Proof. unfold once. cbn. intros ->. by destruct (f s). Qed.

Lemma alone_reads {S A} (f : S → A) s : alone (reads f) s = Some (s, f s).
Proof. done. Qed.

Lemma alone_writes {S} (f : S → S) s : alone (writes f) s = Some (f s, tt).
Proof. done. Qed.

Lemma alone_ret {S A} (a : A) (s : S) : alone (mret a) s = Some (s, a).
Proof. done. Qed.

(** A pool of one process runs as the process does alone. *)
Lemma alone_schedule {S A} (p : proc S A) s s' a :
  alone p s = Some (s', a) → ∃ n, schedule (replicate n 0) (mkThreads s [p]) = mkThreads s' [Done a].
Proof.
  revert s. induction p as [b|f IH] using proc_nested; intros s; cbn; [intros [= <- <-]; by exists 0|].
  specialize (IH s). intros E. destruct (f s) as [[s1 p1]|] eqn:Ef; [|done].
  destruct (IH s1 p1 eq_refl s1 E) as [n En]. exists (Datatypes.S n).
  change (schedule (replicate n 0) (turn 0 (mkThreads s [Step f])) = mkThreads s' [Done a]).
  rewrite <-En. f_equal. unfold turn. cbn. by rewrite Ef.
Qed.
