(* ===== verification/Polling.v ===== *)
(** * Waiting with a deadline

    The drivers wait for a condition by looking at it every few milliseconds,
    and give up when time is over ([until] of the suites). A process over any
    state with a clock; what its verdict says, and that there is one. *)

From S2P Require Import Prelude Concurrency.
Open Scope Z_scope.

(** A state in which it is some time, in milliseconds. *)
Class Clock (S : Type) := time : S → Z.

Section polling.
Context {S : Type} `{!Clock S}.
Implicit Types (s : S) (period ms start : Z).

(** [setTimeout(..., ms)], awaited. *)
Definition sleep ms : proc S unit := at_ ← reads (λ s, time s + ms); once (λ s, at_ <=? time s) (λ s, (s, tt)).

(** [tick], for [looks] looks at [cond]: whether it has come to hold in time. *)
Fixpoint tick (looks : nat) period (cond : S → bool) ms start : proc S bool :=
  match looks with
  | O => mret false
  | Datatypes.S looks' =>
      Step (λ s, Some (s,
        if cond s then mret true
        else if ms <? time s - start then mret false
        else sleep period ;; tick looks' period cond ms start))
  end.

(** More looks there cannot be before the time is over. *)
Definition enough_looks period ms : nat := Datatypes.S (Datatypes.S (Z.to_nat (ms / period))).
Definition poll period (cond : S → bool) ms : proc S bool :=
  start ← reads time; tick (enough_looks period ms) period cond ms start.

(** ** A process among others

    [watch p ss]: what [p] has become when its turns found the states [ss]. *)
Definition next {A} (p : proc S A) s : proc S A :=
  match p with Step f => match f s with Some (_, p') => p' | None => p end | Done _ => p end.
Definition watch {A} (p : proc S A) (ss : list S) : proc S A := foldl next p ss.

(** The states that goroutine [i] finds at its turns. *)
Fixpoint found {A} (i : nat) (turns : list nat) (t : threads S A) : list S :=
  match turns with
  | [] => []
  | j :: turns' => if decide (j = i) then shared t :: found i turns' (turn j t) else found i turns' (turn j t)
  end.

Lemma pool_turn {A} i j (t : threads S A) p :
  pool t !! i = Some p → pool (turn j t) !! i = Some (if decide (j = i) then next p (shared t) else p).
Proof.
  intros Hi. unfold turn, next. destruct (decide (j = i)) as [->|Hne].
  - rewrite Hi. destruct p as [a|f]; [done|]. destruct (f (shared t)) as [[s' p']|]; [|done].
    cbn. apply list_lookup_insert_eq. by eapply lookup_lt_Some.
  - destruct (pool t !! j) as [[a|f]|]; [done| |done]. destruct (f (shared t)) as [[s' p']|]; [|done].
    cbn. by rewrite list_lookup_insert_ne.
Qed.

Lemma pool_schedule {A} i turns (t : threads S A) p :
  pool t !! i = Some p → pool (schedule turns t) !! i = Some (watch p (found i turns t)).
Proof.
  revert t p. induction turns as [|j turns IH]; intros t p Hi; [done|].
  change (pool (schedule turns (turn j t)) !! i = Some (watch p (found i (j :: turns) t))).
  rewrite (IH _ _ (pool_turn i j t p Hi)). cbn [found]. by destruct (decide (j = i)).
Qed.

Lemma watch_once {A B} ready (f : S → S * A) (k : A → proc S B) ss b :
  watch (once ready f ≫= k) ss = Done b →
  ∃ ss1 s ss2, ss = ss1 ++ s :: ss2 ∧ ready s = true ∧ watch (k (f s).2) ss2 = Done b.
Proof.
  induction ss as [|s ss IH]; intros Hw; [discriminate|]. destruct (ready s) eqn:Er.
  - exists [], s, ss. split_and!; [done..|]. revert Hw. unfold once. cbn. rewrite Er. by destruct (f s).
  - destruct IH as (ss1 & s' & ss2 & -> & Hr & Hk); [|by exists (s :: ss1), s', ss2].
    revert Hw. unfold once. cbn. by rewrite Er.
Qed.

Definition later s s' : Prop := time s <= time s'.

(** ** The verdict *)

Definition saw (cond : S → bool) ms start ss (b : bool) : Prop :=
  if b then Exists (λ s, cond s = true) ss
  else Exists (λ s, cond s = false ∧ ms < time s - start) ss.

Lemma saw_app cond ms start ss ss' b : saw cond ms start ss' b → saw cond ms start (ss ++ ss') b.
Proof. unfold saw. destruct b; intros H; apply Exists_app; by right. Qed.

Lemma tick_verdict looks period cond ms start low ss b :
  0 < period → (1 <= looks)%nat → ms - (low - start) < (Z.of_nat looks - 1) * period →
  Forall (λ s, low <= time s) ss → StronglySorted later ss →
  watch (tick looks period cond ms start) ss = Done b → saw cond ms start ss b.
Proof.
  intros Hp. revert low ss. induction looks as [|looks IH]; intros low ss Hl Hf Hlow Hss Hw; [lia|].
  destruct ss as [|s ss]; [discriminate|]. cbn in Hw.
  inversion_clear Hlow as [|? ? Hs Hlow']. inversion_clear Hss as [|? ? Hss' Hlater].
  assert (∀ A (a : A) l, watch (Done a) l = Done a) as Hdone by (intros A a l; induction l; done).
  destruct (cond s) eqn:Ec.
  { change (watch (Done true) ss = Done b) in Hw. rewrite Hdone in Hw. injection Hw as <-. by apply Exists_cons_hd. }
  destruct (Z.ltb_spec ms (time s - start)) as [Hms|Hms].
  { change (watch (Done false) ss = Done b) in Hw. rewrite Hdone in Hw. injection Hw as <-. by apply Exists_cons_hd. }
  assert (1 <= looks)%nat as Hl' by (destruct looks; [nia|lia]).
  destruct ss as [|s1 ss]; [discriminate|]. apply (saw_app _ _ _ [s; s1]).
  inversion_clear Hss' as [|? ? Hss1 Hlater1]. inversion_clear Hlater as [|? ? Hs1 _].
  change (watch (once (λ s', time s1 + period <=? time s') (λ s', (s', tt)) ≫= λ _, tick looks period cond ms start) ss = Done b) in Hw.
  apply watch_once in Hw as (ss1 & s2 & ss2 & -> & Hat%Z.leb_le & Hw). apply saw_app, (saw_app _ _ _ [s2]).
  unfold later in *. apply StronglySorted_app in Hss1 as (_ & _ & Hss2).
  inversion_clear Hss2 as [|? ? Hss2' Hlater2].
  apply (IH (low + period)); [done|nia| |done|exact Hw].
  eapply Forall_impl; [exact Hlater2|]. cbn. intros x Hx. lia.
Qed.

(** ** It ends *)

Section ends.
Context (period : Z) (cond : S → bool) (ms start : Z).
Abbreviation awake at_ := (once (λ s, at_ <=? time s) (λ s : S, (s, tt))).
Abbreviation looking looks := (tick looks period cond ms start).

(** What a poll can have become by the time [now]. *)
Inductive stage (now : Z) : proc S bool → Prop :=
  | over b : stage now (Done b)
  | looks_next looks : stage now (looking looks)
  | sleeps_next looks : stage now (sleep period ;; looking looks)
  | asleep looks at_ : at_ <= now + period → stage now (awake at_ ;; looking looks).

Lemma stage_next now p s : stage now p → now <= time s → stage (time s) (next p s).
Proof.
  intros [b|looks|looks|looks at_ Hat] Hs.
  - constructor.
  - destruct looks as [|looks]; [apply over|]. cbn. destruct (cond s); [apply over|].
    destruct (ms <? time s - start); [apply over|apply sleeps_next].
  - change (next (sleep period ;; looking looks) s) with (awake (time s + period) ;; looking looks). apply asleep. lia.
  - cbn. destruct (Z.leb_spec at_ (time s)); [apply looks_next|apply asleep; lia].
Qed.

Lemma stage_watch now p ss :
  stage now p → Forall (λ s, now <= time s) ss → StronglySorted later ss →
  ∃ now', stage now' (watch p ss) ∧ (now' = now ∨ ∃ s, s ∈ ss ∧ now' = time s).
Proof.
  revert now p. induction ss as [|s ss IH]; intros now p Hp Hnow Hss; [by exists now; split; [|left]|].
  inversion_clear Hnow as [|? ? Hs Hnow']. inversion_clear Hss as [|? ? Hss' Hlater].
  destruct (IH (time s) (next p s)) as (now' & Hst & Hor); [by eapply stage_next|exact Hlater|done|].
  exists now'. split; [exact Hst|]. right. destruct Hor as [->|(s' & Hin & ->)]; [exists s|exists s']; set_solver.
Qed.

(** Three turns late enough, and it is over. *)
Lemma stage_ends now p s1 s2 s3 :
  stage now p → now <= time s1 → ms < time s1 - start → time s1 + period <= time s2 → 0 <= period → time s2 <= time s3 →
  ∃ b, watch p [s1; s2; s3] = Done b.
Proof.
  assert (∀ (b : bool) l, watch (Done b) l = Done b) as Hdone by (intros b l; by induction l).
  assert (∀ looks s, ms < time s - start → ∃ b, next (looking looks) s = Done b) as Hlook.
  { intros [|looks] s Hs; [by exists false|]. cbn. destruct (cond s); [by exists true|].
    destruct (Z.ltb_spec ms (time s - start)); [by exists false|lia]. }
  intros [b|looks|looks|looks at_ Hat] H1 H2 H3 H4 H5.
  - exists b. apply Hdone.
  - destruct (Hlook looks s1 H2) as [b Hb]. exists b. unfold watch. cbn [foldl]. by rewrite Hb.
  - assert (next (next (sleep period ;; looking looks) s1) s2 = looking looks) as E.
    { cbn. destruct (Z.leb_spec (time s1 + period) (time s2)); [done|lia]. }
    destruct (Hlook looks s3) as [b Hb]; [lia|]. exists b. unfold watch. cbn [foldl]. by rewrite E.
  - destruct (Z.leb_spec at_ (time s1)) as [Hle|Hgt].
    + assert (next (awake at_ ;; looking looks) s1 = looking looks) as E.
      { cbn. destruct (Z.leb_spec at_ (time s1)); [done|lia]. }
      destruct (Hlook looks s2) as [b Hb]; [lia|]. exists b. unfold watch. cbn [foldl]. rewrite E, Hb. done.
    + assert (next (next (awake at_ ;; looking looks) s1) s2 = looking looks) as E.
      { cbn. destruct (Z.leb_spec at_ (time s1)); [lia|]. cbn. destruct (Z.leb_spec at_ (time s2)); [done|lia]. }
      destruct (Hlook looks s3) as [b Hb]; [lia|]. exists b. unfold watch. cbn [foldl]. by rewrite E.
Qed.
End ends.

(** An awaited [until] is right, whatever runs beside it: it resolves only
    when a look found the condition, and it times out only when a look after
    its time had not; and it is over three turns after its time at the latest.
    So a condition that comes to hold in time, and stays, is found. *)
Theorem until_verdict period cond ms s0 ss :
  0 < period → 0 <= ms → StronglySorted later (s0 :: ss) →
  (∀ b, watch (poll period cond ms) (s0 :: ss) = Done b → saw cond ms (time s0) ss b) ∧
  (∀ s1 s2 s3, Forall (λ s, time s <= time s1) (s0 :: ss) → ms < time s1 - time s0 → time s1 + period <= time s2 →
     time s2 <= time s3 → ∃ b, watch (poll period cond ms) (s0 :: ss ++ [s1; s2; s3]) = Done b).
Proof.
  intros Hp Hms Hss. inversion_clear Hss as [|? ? Hss' Hlater].
  change (watch (poll period cond ms)) with (λ l, watch (poll period cond ms) l). cbn beta.
  assert (∀ l, watch (poll period cond ms) (s0 :: l) = watch (tick (enough_looks period ms) period cond ms (time s0)) l) as E by done.
  split.
  - intros b. rewrite E. apply (tick_verdict _ _ _ _ _ (time s0)); [done|unfold enough_looks; lia| |exact Hlater|done].
    unfold enough_looks. assert (0 <= ms / period) by (apply Z.div_pos; lia).
    pose proof (Z.div_mod ms period). pose proof (Z.mod_pos_bound ms period). nia.
  - intros s1 s2 s3 Hle H1 H2 H3. rewrite E. unfold watch. rewrite foldl_app.
    inversion_clear Hle as [|? ? Hle0 Hle'].
    destruct (stage_watch period cond ms (time s0) (time s0) (tick (enough_looks period ms) period cond ms (time s0)) ss)
      as (now & Hst & Hnow); [apply looks_next|exact Hlater|exact Hss'|].
    eapply (stage_ends period cond ms (time s0) now); [exact Hst| |done..| |done]; [|lia].
    destruct Hnow as [->|(s & Hs & ->)]; [done|]. by apply (proj1 (Forall_forall _ _) Hle').
Qed.
End polling.

(** A clock and nothing else: the condition holds from 25 on. *)
#[local] Instance clock_only : Clock Z := λ s, s.

Lemma until_verdict_witness :
  watch (poll 10 (λ s, 25 <=? s) 30) [0; 0; 1; 11; 12; 13; 23; 26]%Z = Done true ∧
  saw (λ s, 25 <=? s) 30 0 [0; 1; 11; 12; 13; 23; 26]%Z true ∧
  ∃ b, watch (poll 10 (λ s, 99 <=? s) 30) ([0; 0; 1; 11; 12] ++ [40; 50; 50])%Z = Done b.
Proof.
  assert (StronglySorted (later (S := Z)) [0; 0; 1; 11; 12; 13; 23; 26]) as Hs by (repeat constructor; unfold later, time, clock_only; lia).
  assert (StronglySorted (later (S := Z)) [0; 0; 1; 11; 12]) as Hs' by (repeat constructor; unfold later, time, clock_only; lia).
  split_and!; [by vm_compute| |].
  - apply (until_verdict 10 (λ s, 25 <=? s) 30 0 [0; 1; 11; 12; 13; 23; 26] ltac:(lia) ltac:(lia) Hs). by vm_compute.
  - apply (until_verdict 10 (λ s, 99 <=? s) 30 0 [0; 1; 11; 12] ltac:(lia) ltac:(lia) Hs');
      [repeat constructor|..]; unfold time, clock_only; lia.
Defined.
