(* ===== verification/RelayProcess.v ===== *)
(** * The test relay's process ([ts/interop/relay.ts], [ts/interop/relay-setup.ts])

    The drivers build the relay, start it as a child process on a free port,
    wait until it is healthy, restart it, and stop it. The drivers' code as
    processes over the host: its clock, its temporary directories, and its
    children, which become healthy and exit when they please. *)

From S2P Require Import Prelude Concurrency Polling.
Open Scope Z_scope.

(** ** The host *)

(** A relay process: whether [/health] answers, whether it was told to end, and
    what it exited with. *)
Record Child := mkChild { healthy : bool; signalled : bool; exited : option Z }.
#[export] Instance eta_Child : Eta Child := λ c, mkChild (healthy c) (signalled c) (exited c).

(** [made]: how many directories and processes there have been; they are
    numbered. [relay] is the variable of [startRelay]. *)
Record Host := mkHost {
  host_time : Z;
  dirs : gset nat;
  children : gmap nat Child;
  made : nat;
  relay : option nat
}.
#[export] Instance eta_Host : Eta Host := λ h, mkHost (host_time h) (dirs h) (children h) (made h) (relay h).
#[export] Instance host_clock : Clock Host := host_time.

Definition new_host : Host := mkHost 0 ∅ ∅ 0 None.

(** What a promise comes to. *)
Inductive Failure := BuildFailed | NoPort | NotHealthy | ExitedEarly (code : Z).
Inductive Settled (A : Type) := Resolved (a : A) | Rejected (why : Failure).
Arguments Resolved {A}.
Arguments Rejected {A}.

Abbreviation R := (proc Host).
Implicit Types (pid dir : nat) (h : Host).

(** ** The drivers' code *)

Definition serves (c : Child) : bool := healthy c && negb (bool_decide (is_Some (exited c))).
(** [fetch(...)], and whether the answer is ok; nobody else is on the port. *)
Definition answers h : bool := existsb (λ p, serves p.2) (map_to_list (children h)).

(** Rounds of the loop of [waitForHealth]: whether it returns or throws. *)
Fixpoint health_loop (k : nat) (until : Z) : R bool :=
  match k with
  | O => mret false
  | S k' =>
      Step (λ h, Some (h,
        if host_time h <? until then
          ok ← reads answers;
          if ok : bool then mret true else sleep 100 ;; health_loop k' until
        else mret false))
  end.
Definition waitForHealth (deadlineMs : Z) : R bool :=
  until ← reads (λ h, host_time h + deadlineMs);
  health_loop (S (S (Z.to_nat (deadlineMs / 100)))) until.

Definition on_child pid (f : Child → Child) h : Host := h <| children := alter f pid (children h) |>.
Definition exit_of pid h : option Z := children h !! pid ≫= exited.

(** [proc.kill()]; a process that is gone is not told. *)
Definition signal pid : Host → Host :=
  on_child pid (λ c, if exited c is Some _ then c else c <| signalled := true |>).

Definition spawn : R nat :=
  atomically (λ h, (h <| children := <[made h := mkChild false false None]> (children h) |> <| made := S (made h) |>, made h)).

(** [Promise.race] of what [p] comes to and the exit of a process. *)
Fixpoint race {A} (pid : nat) (p : R A) : R (Z + A) :=
  match p with
  | Done a => Done (inr a)
  | Step f => Step (λ h,
      match exit_of pid h with
      | Some code => Some (h, Done (inl code))
      | None => match f h with Some (h', p') => Some (h', race pid p') | None => None end
      end)
  end.

Definition launch : R (Settled nat) :=
  pid ← spawn;
  r ← race pid (waitForHealth 15000);
  match r with
  | inr true => mret (Resolved pid)
  | inr false => writes (signal pid) ;; mret (Rejected NotHealthy)
  | inl code => writes (signal pid) ;; mret (Rejected (ExitedEarly code))
  end.

(** [kill]: resolves once the process is gone. *)
Definition gone pid h : bool := bool_decide (is_Some (exit_of pid h)).
Definition kill pid : R unit :=
  was_gone ← atomically (λ h, if gone pid h then (h, true) else (signal pid h, false));
  if was_gone : bool then mret tt else once (gone pid) (λ h, (h, tt)).

Definition mkdtemp : R nat := atomically (λ h, (h <| dirs := {[made h]} ∪ dirs h |> <| made := S (made h) |>, made h)).
Definition rmSync dir : R unit := writes (λ h, h <| dirs := dirs h ∖ {[dir]} |>).

(** [built]: the build succeeds; [port]: a free port is found. The result is
    the directory that [stop] removes. *)
Definition startRelay (built port : bool) : R (Settled nat) :=
  dir ← mkdtemp;
  if negb built then mret (Rejected BuildFailed)
  else if negb port then mret (Rejected NoPort)
  else
    r ← launch;
    match r with
    | Resolved pid => writes (λ h, h <| relay := Some pid |>) ;; mret (Resolved dir)
    | Rejected why => rmSync dir ;; mret (Rejected why)
    end.

Definition restart : R (Settled unit) :=
  pid ← reads relay;
  match pid with
  | Some pid =>
      kill pid ;;
      r ← launch;
      match r with
      | Resolved pid => writes (λ h, h <| relay := Some pid |>) ;; mret (Resolved tt)
      | Rejected why => mret (Rejected why)
      end
  | None => mret (Resolved tt)
  end.

Definition stop dir : R unit :=
  pid ← reads relay;
  match pid with Some pid => writes (signal pid) | None => mret tt end ;;
  rmSync dir.

(** ** What the host does of itself *)

Inductive Happening := Passes (ms : N) | BecomesHealthy pid | Exits pid (code : Z).
Definition happens (x : Happening) h : Host :=
  match x with
  | Passes ms => h <| host_time := host_time h + Z.of_N ms |>
  | BecomesHealthy pid => on_child pid (λ c, c <| healthy := true |>) h
  | Exits pid code => on_child pid (λ c, if exited c is Some _ then c else c <| exited := Some code |>) h
  end.

(** [setup] of [relay-setup]; its teardown is [stop]. *)
Definition setup (built port : bool) : R (Settled nat) := r ← startRelay built port; mret r.

(** A driver as [relay-setup] and the suites are: it starts the relay, restarts
    it some number of times, whether or not that goes well, and stops it. *)
Definition driver (built port : bool) (restarts : nat) : R unit :=
  r ← setup built port;
  match r with
  | Resolved dir => each (λ _, restart ≫= λ _, mret tt) (replicate restarts ()) ;; stop dir
  | Rejected _ => mret tt
  end.

(** ** One relay at a time *)

(** A process that nobody has told to end, and that has not. *)
Definition running pid h : Prop := ∃ c, children h !! pid = Some c ∧ exited c = None ∧ signalled c = false.

Definition consistent h : Prop :=
  (∀ p q, running p h → running q h → p = q) ∧ ∀ p, is_Some (children h !! p) → (p < made h)%nat.

(** What the driver knows of the host, whatever else happens there. *)
Record Known := mkKnown { live : option nat; its_dirs : gset nat; its_relay : option nat; its_made : nat }.
Definition knows h (_ : unit) (k : Known) : Prop :=
  made h = its_made k ∧ dirs h = its_dirs k ∧ relay h = its_relay k ∧ ∀ p, running p h → live k = Some p.
Abbreviation own k := ({[tt := k]} : gmap unit Known).
Abbreviation safely := (safe consistent knows).

Lemma knows_own h k : owns knows (own k) h → knows h tt k.
Proof. intros Ho. apply Ho. by rewrite lookup_singleton_eq. Qed.

(** A step of the driver, from knowing [k] to knowing [k']. *)
Lemma driver_moves k k' h h' : knows h' tt k' → moves knows (own k) h (own k') h'.
Proof.
  intros Hk. split; [|intros [] v; by rewrite lookup_singleton_eq].
  intros [] v. rewrite lookup_singleton_eq. by intros [= <-].
Qed.

Lemma safely_step {A} k k' (f : Host → Host * A) Q :
  (∀ h, consistent h → knows h tt k → consistent (f h).1 ∧ knows (f h).1 tt k' ∧ Q (own k') (f h).2) →
  safely (own k) (atomically f) Q.
Proof.
  intros Hf h Hh Ho. destruct (Hf h Hh (knows_own _ _ Ho)) as (H1 & H2 & H3). destruct (f h) as [h' a].
  split; [done|]. exists (own k'). split; [by apply driver_moves|done].
Qed.

Lemma safely_write k k' (f : Host → Host) Q :
  (∀ h, consistent h → knows h tt k → consistent (f h) ∧ knows (f h) tt k') → Q (own k') tt → safely (own k) (writes f) Q.
Proof. intros Hf HQ. apply (safely_step k k'). intros h Hh Hk. destruct (Hf h Hh Hk). by split_and!. Qed.

(** Code that only looks at the host. *)
Fixpoint reading {A} (p : R A) : Prop :=
  match p with
  | Done _ => True
  | Step f => ∀ h, match f h with Some (h', p') => h' = h ∧ reading p' | None => True end
  end.

Lemma reading_safe {A} T (p : R A) : reading p → safely T p (λ T' _, T' = T).
Proof.
  induction p as [a|f IH] using proc_nested; intros Hp; [done|]. intros h Hh Ho. specialize (Hp h). specialize (IH h).
  destruct (f h) as [[h' p']|]; [|done]. destruct Hp as [-> Hp]. split; [done|]. exists T. split; [by split|by eapply IH].
Qed.

Lemma reading_bind {A B} (p : R A) (k : A → R B) : reading p → (∀ a, reading (k a)) → reading (p ≫= k).
Proof.
  intros Hp Hk. induction p as [a|f IH] using proc_nested; [apply Hk|]. intros h. cbn. specialize (Hp h). specialize (IH h).
  destruct (f h) as [[h' p']|]; [|done]. destruct Hp as [-> Hp]. split; [done|by eapply IH].
Qed.

Lemma reading_health_loop k until : reading (health_loop k until).
Proof.
  induction k as [|k IH]; [done|]. intros h. split; [done|]. destruct (host_time h <? until); [|done].
  apply reading_bind; [by intros ?|]. intros [|]; [done|]. apply reading_bind; [|done].
  apply (reading_bind (reads _)); [by intros ?|]. intros at_ h'. unfold once. cbn. by destruct (at_ <=? _).
Qed.

Lemma reading_race {A} pid (p : R A) : reading p → reading (race pid p).
Proof.
  intros Hp. induction p as [a|f IH] using proc_nested; [done|]. intros h. cbn. specialize (Hp h). specialize (IH h).
  destruct (exit_of pid h); [done|]. destruct (f h) as [[h' p']|]; [|done]. destruct Hp as [-> Hp]. split; [done|by eapply IH].
Qed.

(** Telling a process to end makes no process run, and stops that one. *)
Lemma running_signal p pid h : running p (signal pid h) → running p h ∧ p ≠ pid.
Proof.
  unfold running, signal. cbn. destruct (decide (p = pid)) as [->|Hne].
  - rewrite lookup_alter_eq. intros (c & Hc & He & Hs). destruct (children h !! pid) as [c'|] eqn:E; [|done].
    injection Hc as <-. destruct (exited c') eqn:E'; cbn in *; congruence.
  - rewrite lookup_alter_ne by done. auto.
Qed.

Lemma running_happens p x h : running p (happens x h) → running p h.
Proof.
  destruct x as [ms|q|q code]; [done|..]; unfold running; cbn; (destruct (decide (q = p)) as [->|Hne];
    [rewrite lookup_alter_eq|by rewrite lookup_alter_ne]); intros (c & Hc & He & Hs);
    destruct (children h !! p) as [c'|]; try done; injection Hc as <-; exists c'; [done|].
  destruct (exited c') eqn:E; cbn in *; congruence.
Qed.

Lemma children_alter pid f h : (∀ p, is_Some (children (on_child pid f h) !! p) → is_Some (children h !! p)).
Proof. intros p. cbn. rewrite lookup_alter_is_Some. done. Qed.

Lemma signal_knows pid k h :
  consistent h → knows h tt k → live k = None ∨ live k = Some pid →
  consistent (signal pid h) ∧ knows (signal pid h) tt (mkKnown None (its_dirs k) (its_relay k) (its_made k)).
Proof.
  intros [Hone Hlt] (Hm & Hd & Hr & Hl) Hlive. split; [split|].
  - intros p q [Hp _]%running_signal [Hq _]%running_signal. by apply Hone.
  - intros p Hp. apply Hlt. by eapply children_alter.
  - split_and!; [done..|]. intros p [Hp Hne]%running_signal. apply Hl in Hp. destruct Hlive; congruence.
Qed.

Lemma happens_keeps x h : consistent h → consistent (happens x h) ∧ ∀ u k, knows h u k → knows (happens x h) u k.
Proof.
  intros [Hone Hlt]. split; [split|].
  - intros p q Hp%running_happens Hq%running_happens. by apply Hone.
  - intros p Hp. destruct x; cbn in *; [by apply Hlt|..]; apply Hlt; by rewrite lookup_alter_is_Some in Hp.
  - intros u k (Hm & Hd & Hr & Hl). split_and!; [by destruct x..|]. intros p Hp%running_happens. by apply Hl.
Qed.

Lemma safely_signal pid k : live k = None ∨ live k = Some pid →
  safely (own k) (writes (signal pid)) (λ T _, T = own (mkKnown None (its_dirs k) (its_relay k) (its_made k))).
Proof. intros Hk. eapply safely_write; [|reflexivity]. intros h Hh Hkn. by apply signal_knows. Qed.

Lemma safely_launch k : live k = None →
  safely (own k) launch (λ T r, ∃ made,
    T = own (mkKnown (match r with Resolved pid => Some pid | Rejected _ => None end) (its_dirs k) (its_relay k) made)).
Proof.
  intros Hk. set (k1 := mkKnown (Some (its_made k)) (its_dirs k) (its_relay k) (S (its_made k))).
  apply safe_bind. eapply safe_mono with (Q := λ T pid, T = own k1 ∧ pid = its_made k).
  { apply (safely_step k k1). intros h [Hone Hlt] (Hm & Hd & Hr & Hl). unfold k1. rewrite <-Hm in *.
    assert (∀ p, ¬ running p h) as Hnone by (intros p Hp%Hl; congruence).
    assert (∀ p, running p (h <| children := <[made h := mkChild false false None]> (children h) |> <| made := S (made h) |>) →
      p = made h) as Hnew.
    { intros p (c & Hc & ?). cbn in Hc. destruct (decide (p = made h)) as [|Hne]; [done|].
      rewrite lookup_insert_ne in Hc by done. exfalso. apply (Hnone p). by exists c. }
    split; [split|].
    - intros p q Hp%Hnew Hq%Hnew. congruence.
    - intros p. cbn. rewrite lookup_insert_is_Some. intros [<-|[_ Hp%Hlt]]; lia.
    - split; [|done]. split_and!; [done..|]. intros p Hp%Hnew. by subst p. }
  intros ? pid [-> ->]. apply safe_bind. eapply safe_mono.
  { apply reading_safe, reading_race. intros h. split; [done|]. apply reading_health_loop. }
  intros ? r ->. destruct r as [code|[]].
  - apply safe_bind. eapply safe_mono; [apply safely_signal; by right|]. intros ? [] ->. by eexists.
  - by eexists.
  - apply safe_bind. eapply safe_mono; [apply safely_signal; by right|]. intros ? [] ->. by eexists.
Qed.

(** [kill]: whichever way it resolves, nobody is left running. *)
Lemma safely_kill pid k : live k = None ∨ live k = Some pid →
  safely (own k) (kill pid) (λ T _, T = own (mkKnown None (its_dirs k) (its_relay k) (its_made k))).
Proof.
  intros Hk. set (k' := mkKnown None (its_dirs k) (its_relay k) (its_made k)).
  apply safe_bind. eapply safe_mono with (Q := λ T _, T = own k').
  { apply (safely_step k k'). intros h Hh Hkn. destruct (gone pid h) eqn:Eg.
    - split_and!; [done| |done]. destruct Hkn as (Hm & Hd & Hr & Hl). split_and!; [done..|]. intros p Hp. change (running p h) in Hp.
      pose proof (Hl p Hp) as Hp'. destruct Hk as [Hk|Hk]; [congruence|]. rewrite Hk in Hp'. injection Hp' as ->.
      unfold gone, exit_of in Eg. apply bool_decide_eq_true in Eg as [code Eg]. destruct Hp as (c & Hc & He & _).
      rewrite Hc in Eg. cbn in Eg. congruence.
    - destruct (signal_knows pid k h Hh Hkn Hk) as [H1 H2]. by split_and!. }
  intros ? [] ->; [done|]. apply safe_once. auto.
Qed.

(** Between the driver's calls: what runs, if anything, is the relay of the
    variable, and the directories are [ds]. *)
Definition between ds (T : gmap unit Known) : Prop :=
  ∃ k, T = own k ∧ its_dirs k = ds ∧ (live k = None ∨ live k = its_relay k).

Lemma safely_set_relay k pid : live k = Some pid →
  safely (own k) (writes (λ h, h <| relay := Some pid |>)) (λ T _, between (its_dirs k) T).
Proof.
  intros Hk. apply (safely_write k (mkKnown (Some pid) (its_dirs k) (Some pid) (its_made k))).
  - intros h Hh (Hm & Hd & Hr & Hl). split; [done|]. split_and!; [done..|]. intros p Hp%Hl. cbn. congruence.
  - eexists. split_and!; [done..|]. by right.
Qed.

Lemma safely_restart ds T : between ds T → safely T restart (λ T' _, between ds T').
Proof.
  intros (k & -> & <- & Hk). apply safe_bind. eapply safe_mono with (Q := λ T r, T = own k ∧ r = its_relay k).
  { apply (safely_step k k). intros h Hh Hkn. split_and!; [done..|]. by destruct Hkn as (_ & _ & -> & _). }
  intros ? [pid|] [-> Hpid]; [|by exists k]. apply safe_bind. eapply safe_mono; [apply (safely_kill pid)|].
  { rewrite <-Hpid in Hk. done. }
  intros ? [] ->. apply safe_bind. eapply safe_mono; [by apply safely_launch|].
  intros ? [new|why] [n ->].
  - apply safe_bind. eapply safe_mono; [by apply safely_set_relay|]. by intros ? [] ?.
  - eexists. split_and!; [done..|]. by left.
Qed.

Lemma safely_rmSync dir k :
  safely (own k) (rmSync dir) (λ T _, T = own (mkKnown (live k) (its_dirs k ∖ {[dir]}) (its_relay k) (its_made k))).
Proof.
  eapply safely_write; [|reflexivity]. intros h Hh (Hm & Hd & Hr & Hl). split; [done|]. split_and!; try done. cbn. by rewrite Hd.
Qed.

(** What the driver leaves behind. *)
Definition nothing ds (T : gmap unit Known) : Prop := ∃ k, T = own k ∧ its_dirs k = ds ∧ live k = None.

Lemma safely_stop dir ds T : between ds T → safely T (stop dir) (λ T' _, nothing (ds ∖ {[dir]}) T').
Proof.
  intros (k & -> & <- & Hk). apply safe_bind. eapply safe_mono with (Q := λ T r, T = own k ∧ r = its_relay k).
  { apply (safely_step k k). intros h Hh Hkn. split_and!; [done..|]. by destruct Hkn as (_ & _ & -> & _). }
  intros ? pid [-> Hpid]. apply safe_bind. eapply safe_mono with (Q := λ T _, nothing (its_dirs k) T).
  { destruct pid as [pid|]; [|exists k; split_and!; [done..|]; rewrite <-Hpid in Hk; by destruct Hk].
    eapply safe_mono; [apply safely_signal; by rewrite <-Hpid in Hk|]. intros ? [] ->. by eexists. }
  intros ? [] (k' & -> & <- & Hk'). eapply safe_mono; [apply safely_rmSync|]. intros ? [] ->. by eexists.
Qed.

Lemma safely_startRelay built port k : live k = None → its_dirs k = ∅ →
  safely (own k) (startRelay built port) (λ T r,
    match r with
    | Resolved dir => built && port = true ∧ between {[dir]} T
    | Rejected _ => nothing (if built && port then ∅ else {[its_made k]}) T
    end).
Proof.
  intros Hk Hds. set (k1 := mkKnown None {[its_made k]} (its_relay k) (S (its_made k))).
  apply safe_bind. eapply safe_mono with (Q := λ T dir, T = own k1 ∧ dir = its_made k).
  { apply (safely_step k k1). intros h [Hone Hlt] (Hm & Hd & Hr & Hl). split; [split|split; [split_and!|]].
    - exact Hone.
    - intros p Hp%Hlt. cbn. lia.
    - cbn. by rewrite Hm.
    - cbn. rewrite Hd, Hds, Hm. set_solver.
    - done.
    - intros p Hp. rewrite Hk in Hl. by apply Hl in Hp.
    - by split. }
  intros ? dir [-> ->]. destruct built; [|by exists k1]. destruct port; [|by exists k1]. cbn [negb andb].
  apply safe_bind. eapply safe_mono; [by apply safely_launch|]. intros ? [pid|why] [n ->].
  - apply safe_bind. eapply safe_mono; [by apply safely_set_relay|]. by intros ? [] ?.
  - apply safe_bind. eapply safe_mono; [apply safely_rmSync|]. intros ? [] ->. eexists. split_and!; [done| |done]. cbn. set_solver.
Qed.

Lemma safely_driver built port restarts k : live k = None → its_dirs k = ∅ →
  safely (own k) (driver built port restarts) (λ T _, nothing (if built && port then ∅ else {[its_made k]}) T).
Proof.
  intros Hk Hds. apply safe_bind. unfold setup. apply safe_bind. eapply safe_mono; [by apply safely_startRelay|].
  intros T [dir|why] HT; [|done]. destruct HT as [-> HT]. apply safe_bind.
  eapply safe_mono with (Q := λ T' _, between {[dir]} T').
  - generalize dependent T. induction restarts as [|n IH]; intros T HT; [done|]. cbn [replicate each].
    apply safe_bind, safe_bind. eapply safe_mono; [by apply safely_restart|]. intros T' ? HT'. exact (IH T' HT').
  - intros T' [] HT'. eapply safe_mono; [by apply safely_stop|]. intros T'' [].
    by replace ({[dir]} ∖ {[dir]} : gset nat) with (∅ : gset nat) by set_solver.
Qed.

Definition host_step (x : Happening) : R unit := writes (happens x).

(** C38: Whatever the host does and whenever, the drivers never leave two relays
    running: of the processes they started, at most one has neither ended nor
    been told to. When a driver is through, however many restarts failed, none
    is; and its directory is gone if the relay could be built and a port found. *)
Theorem one_relay_at_a_time built port restarts xs turns :
  let t := schedule turns (mkThreads new_host (driver built port restarts :: (host_step <$> xs))) in
  (∀ p q, running p (shared t) → running q (shared t) → p = q) ∧
  (pool t !! 0%nat = Some (Done tt) →
     (∀ p, ¬ running p (shared t)) ∧ dirs (shared t) = if built && port then ∅ else {[0%nat]}).
Proof.
  set (ps := driver built port restarts :: (host_step <$> xs)). set (k := mkKnown None ∅ None 0). intros t.
  set (Q := λ (i : nat) (T : gmap unit Known) (_ : unit), i = 0%nat → nothing (if built && port then ∅ else {[0%nat]}) T).
  assert (pool_safe consistent knows Q (own k :: replicate (length xs) ∅) (mkThreads new_host ps)) as Ht.
  { split; cbn.
    - split; [by intros p q (c & Hc & _)|by intros p [c Hc]].
    - by rewrite length_replicate, length_fmap.
    - intros [|i] T p; cbn.
      + intros [= <-] [= <-]. eapply safe_mono; [by apply safely_driver|]. by intros T' [] HT' _.
      + intros [-> _]%lookup_replicate (x & -> & _)%list_lookup_fmap_Some. apply safe_atomically. intros h Hh _.
        destruct (happens_keeps x h Hh) as [H1 H2]. split; [done|]. split; [|done]. intros [] v. apply H2.
    - intros [|i] T; cbn; [intros [= <-] [] v|intros [-> _]%lookup_replicate n v Hn; by rewrite lookup_empty in Hn].
      rewrite lookup_singleton_eq. intros [= <-]. split_and!; [done..|]. by intros p (c & Hc & _).
    - intros [|i] [|j] Ti Tj n Hi Hj Hni Hnj; [done|..]; cbn in Hi, Hj;
        repeat match goal with H : replicate _ _ !! _ = Some _ |- _ => apply lookup_replicate in H as [-> _] end;
        (rewrite lookup_empty in Hni || rewrite lookup_empty in Hnj); [by destruct Hnj|by destruct Hni|by destruct Hni]. }
  destruct (schedule_safe _ _ Q turns _ _ Ht) as [Ts [[Hone _] Hl Hps Ho _]]. fold t in Hone, Hl, Hps, Ho. split; [done|].
  intros Hdone. assert (is_Some (Ts !! 0%nat)) as [T HT] by (apply lookup_lt_is_Some; rewrite Hl; by eapply lookup_lt_Some).
  destruct (Hps 0%nat T _ HT Hdone eq_refl) as (k' & -> & Hds & Hlive).
  destruct (knows_own _ _ (Ho 0%nat _ HT)) as (_ & Hd & _ & Hr). split; [intros p Hp%Hr; congruence|congruence].
Qed.

(** A run in which the first restart finds the relay gone by itself, the second
    one's relay never gets healthy, and the host takes its time. *)
Lemma one_relay_at_a_time_witness :
  let xs := [BecomesHealthy 1; Exits 1 3; BecomesHealthy 2; Exits 2 0; Exits 3 9] in
  let t := schedule (replicate 5 0 ++ [1] ++ replicate 10 0 ++ [2] ++ replicate 9 0 ++ [3] ++ replicate 9 0 ++ [4] ++
                     replicate 9 0 ++ [5] ++ replicate 19 0)%nat
             (mkThreads new_host (driver true true 2 :: (host_step <$> xs))) in
  pool t !! 0%nat = Some (Done tt) ∧ dirs (shared t) = ∅.
Proof.
  intros xs t. assert (pool t !! 0%nat = Some (Done tt)) as Hdone by (vm_compute; reflexivity).
  split; [exact Hdone|]. exact (proj2 (proj2 (one_relay_at_a_time true true 2 xs _) Hdone)).
Defined.

(** ** Waiting for health *)

Lemma health_loop_verdict k until low hs b :
  (1 <= k)%nat → until - low < (Z.of_nat k - 1) * 100 → Forall (λ h, low <= time h) hs → StronglySorted later hs →
  watch (health_loop k until) hs = Done b →
  if b then Exists (λ h, answers h = true) hs else Exists (λ h, until <= time h) hs.
Proof.
  assert (∀ (a : bool) (l : list Host), watch (Done a) l = Done a) as Hdone by (intros a l; by induction l).
  revert low hs. induction k as [|k IH]; intros low hs Hk Hf Hlow Hss Hw; [lia|].
  destruct hs as [|h hs]; [discriminate|]. inversion_clear Hlow as [|? ? Hh Hlow']. inversion_clear Hss as [|? ? Hss' Hlater].
  change (watch (if host_time h <? until
    then reads answers ≫= λ ok : bool, if ok then mret true else sleep 100 ;; health_loop k until
    else mret false) hs = Done b) in Hw.
  change (time h) with (host_time h) in *. destruct (Z.ltb_spec (host_time h) until) as [Hlt|Hge].
  2: { change (watch (Done false) hs = Done b) in Hw. rewrite Hdone in Hw. injection Hw as <-. by apply Exists_cons_hd. }
  assert (1 <= k)%nat as Hk' by (destruct k; [nia|lia]).
  destruct hs as [|h1 hs]; [discriminate|].
  change (watch (if answers h1 then mret true else sleep 100 ;; health_loop k until) hs = Done b) in Hw.
  destruct (answers h1) eqn:Ea.
  { change (watch (Done true) hs = Done b) in Hw. rewrite Hdone in Hw. injection Hw as <-. by apply Exists_cons_tl, Exists_cons_hd. }
  destruct hs as [|h2 hs]; [discriminate|].
  change (watch (once (λ h', time h2 + 100 <=? time h') (λ h', (h', tt)) ≫= λ _, health_loop k until) hs = Done b) in Hw.
  apply watch_once in Hw as (hs1 & h3 & hs2 & -> & Hat%Z.leb_le & Hw).
  assert (Forall (λ h', low + 100 <= time h') hs2 ∧ StronglySorted later hs2) as [Hlow2 Hss2].
  { inversion_clear Hlater as [|? ? _ Hl]. inversion_clear Hl as [|? ? Hl2 _].
    inversion_clear Hss' as [|? ? Hs _]. inversion_clear Hs as [|? ? Hs2 _].
    apply StronglySorted_app in Hs2 as (_ & _ & Hs3). inversion_clear Hs3 as [|? ? Hs4 Hl4]. split; [|done].
    eapply Forall_impl; [exact Hl4|]. unfold later in *. change (time h) with (host_time h) in *. cbn. intros x Hx. lia. }
  specialize (IH (low + 100) hs2 Hk' ltac:(nia) Hlow2 Hss2 Hw).
  destruct b; (do 3 apply Exists_cons_tl; apply Exists_app; right; by apply Exists_cons_tl).
Qed.

(** A relay that is reported healthy has answered, and one that is given
    up has had all its time: [waitForHealth] returns only after a probe was
    answered, and throws only once the deadline has passed. *)
Theorem health_wait_verdict deadlineMs h0 hs b :
  0 <= deadlineMs → StronglySorted later (h0 :: hs) → watch (waitForHealth deadlineMs) (h0 :: hs) = Done b →
  if b then Exists (λ h, answers h = true) hs else Exists (λ h, time h0 + deadlineMs <= time h) hs.
Proof.
  intros Hms Hss Hw. inversion_clear Hss as [|? ? Hss' Hlater].
  change (watch (health_loop (S (S (Z.to_nat (deadlineMs / 100)))) (time h0 + deadlineMs)) hs = Done b) in Hw.
  revert Hw. apply (health_loop_verdict _ _ (time h0)); [lia| |exact Hlater|done].
  pose proof (Z.div_mod deadlineMs 100). pose proof (Z.mod_pos_bound deadlineMs 100).
  assert (0 <= deadlineMs / 100) by (apply Z.div_pos; lia). nia.
Qed.

Definition at_time (ms : Z) (up : bool) : Host := mkHost ms ∅ {[0%nat := mkChild up false None]} 1 None.

Lemma health_wait_verdict_witness :
  Exists (λ h, answers h = true) ((λ x, at_time x.1 x.2) <$> [(0, false); (5, false); (6, false); (120, true); (130, true); (140, true)]) ∧
  Exists (λ h, time (at_time 0 false) + 100 <= time h) ((λ t, at_time t false) <$> [0; 5; 6; 107; 108]).
Proof.
  split; [apply (health_wait_verdict 15000 (at_time 0 false) _ true)|apply (health_wait_verdict 100 (at_time 0 false) _ false)];
    first [lia | by vm_compute | repeat constructor; unfold later, time; cbn; lia].
Defined.

(** ** What goes wrong *)

(** A relay outlives the drivers if [stop] meets a [restart] that has
    begun: [stop] ends the process of the variable, which is the old one, and
    the restart goes on to start another that nobody ends; its binary's
    directory is gone. *)
Theorem stop_during_restart_leaks :
  let start := startRelay true true ≫= λ _, mret tt in
  let again := restart ≫= λ _, mret tt in
  let t := schedule ([0; 0; 3; 0; 0; 0; 0; 0; 1; 1; 4; 1; 1; 2; 2; 2; 5; 1; 1; 1; 1; 1; 1])%nat
    (mkThreads new_host ([start; again; stop 0] ++ (host_step <$> [BecomesHealthy 1; Exits 1 0; BecomesHealthy 2]))) in
  forallb (λ p, match p with Done _ => true | Step _ => false end) (pool t) = true ∧
  relay (shared t) = Some 2%nat ∧ running 2 (shared t) ∧ dirs (shared t) = ∅.
Proof.
  intros start again t. assert (children (shared t) !! 2%nat = Some (mkChild true false None)) as Hc by (vm_compute; reflexivity).
  split; [vm_compute; reflexivity|]. split; [vm_compute; reflexivity|].
  split; [|vm_compute; reflexivity].
  exists (mkChild true false None). split; [exact Hc|split; reflexivity].
Qed.
