(* ===== verification/Relay.v ===== *)
(** * The relay's rooms ([services/*.go])

    The Go server the clients talk to: rooms of clients with bounded queues,
    and the handlers of the clients' actions. Handlers run in goroutines of
    their own; each is a [proc] whose steps are the sections its locks make
    atomic, so that the steps of several can come in any order. What Go keeps
    behind pointers - rooms, clients, the [PeerInfo] that events and snapshots
    share with a client - is in stores, and is referred to by number. *)

From S2P Require Import Prelude JsText JsMap Models Concurrency.
Open Scope Z_scope.

(** ** Principals ([services/identity.go]) *)

Record Principal := mkPrincipal {
  Subject : jsstr;
  ClientID : jsstr;
  Rooms : list jsstr
}.

(** [strings.HasPrefix] and [strings.CutSuffix(r, "*")]. *)
Definition has_prefix (s prefix : jsstr) : bool := bool_decide (take (length prefix) s = prefix).

Definition asterisk : N := 42.
Definition cut_asterisk (r : jsstr) : option jsstr :=
  match reverse r with c :: r' => if (c =? asterisk)%N then Some (reverse r') else None | [] => None end.

Definition AllowsRoom (p : option Principal) (sessionId : jsstr) : bool :=
  match p with
  | None => true
  | Some p =>
      match Rooms p with
      | [] => true
      | rs => truthy sessionId &&
          existsb (λ r, match cut_asterisk r with
                        | Some prefix => has_prefix sessionId prefix
                        | None => bool_decide (r = sessionId)
                        end) rs
      end
  end.

Definition identity (p : option Principal) : option PeerIdentity :=
  match p with
  | Some p => if truthy (Subject p) then Some (mkPeerIdentity (Subject p) (ClientID p)) else None
  | None => None
  end.

(** ** Data *)

(** A room as an event shows it. Its peers are clients of the relay, whose
    [PeerInfo] the receiver gets as it is when the event is written out. *)
Record RoomSnapshot := mkSnapshot {
  snap_sessionId : jsstr;
  snap_peers : list (jsstr * nat);
  snap_owner : jsstr;
  snap_created : Timestamp;
  snap_metadata : list (jsstr * jsstr);
  snap_encrypted : bool;
  snap_title : jsstr
}.

Inductive RelayBody :=
  | rb_roomJoined (clientId : jsstr) (room : RoomSnapshot) (maxPeers protocolVersion : Z)
  | rb_peerJoined (client : nat)
  | rb_event (event : CollabEvent_event_case).

Record RelayEvent := mkRelayEvent { re_eventId : jsstr; re_from : jsstr; re_body : RelayBody }.

(** [SendCh] is a channel of capacity 64. *)
Record RelayClient := mkRelayClient {
  info : PeerInfo;
  client_SessionId : jsstr;
  BrowserId : jsstr;
  SendCh : list RelayEvent;
  SendCh_closed : bool;
  slow : bool
}.

#[export] Instance eta_RelayClient : Eta RelayClient := λ c,
  mkRelayClient (info c) (client_SessionId c) (BrowserId c) (SendCh c) (SendCh_closed c) (slow c).

#[export] Instance eta_PeerInfo : Eta PeerInfo := λ p,
  mkPeerInfo (PeerInfo_clientId p) (PeerInfo_username p) (PeerInfo_avatarUrl p) (PeerInfo_clientType p)
    (PeerInfo_isActive p) (PeerInfo_isOwner p) (PeerInfo_metadata p) (PeerInfo_identity p).

Definition ClientId (c : RelayClient) : jsstr := PeerInfo_clientId (info c).
Definition IsOwner (c : RelayClient) : bool := PeerInfo_isOwner (info c).

(** [readers]: the read locks of the room's mutex that are held, by number. *)
Record CollabRoom := mkCollabRoom {
  SessionId : jsstr;
  Clients : gmap jsstr nat;
  Created : Timestamp;
  OwnerClientId : jsstr;
  OwnerBrowserId : jsstr;
  Metadata : option (list (jsstr * jsstr));
  Title : jsstr;
  Encrypted : bool;
  readers : gset nat
}.

#[export] Instance eta_CollabRoom : Eta CollabRoom := λ r,
  mkCollabRoom (SessionId r) (Clients r) (Created r) (OwnerClientId r) (OwnerBrowserId r) (Metadata r) (Title r)
    (Encrypted r) (readers r).

Definition NewCollabRoom (sessionId : jsstr) (now : Timestamp) : CollabRoom :=
  mkCollabRoom sessionId ∅ now [] [] None [] false ∅.

(** The service and all it points to. [roomsActive] and [peersActive] are the
    gauges its callbacks move; [panicked] says that a goroutine sent on a
    closed channel or closed one twice, which ends the program. *)
Record Relay := mkRelay {
  rooms : gmap jsstr nat;
  hintIndex : gmap jsstr jsstr;
  roomStore : gmap nat CollabRoom;
  clientStore : gmap nat RelayClient;
  nextRef : nat;
  nextLock : nat;
  uuids : nat;
  roomsActive : Z;
  peersActive : Z;
  panicked : bool
}.

#[export] Instance eta_Relay : Eta Relay := λ s,
  mkRelay (rooms s) (hintIndex s) (roomStore s) (clientStore s) (nextRef s) (nextLock s) (uuids s) (roomsActive s) (peersActive s)
    (panicked s).

(** [NewCollabService()]. *)
Definition NewCollabService : Relay := mkRelay ∅ ∅ ∅ ∅ 0 0 0 0 0 false.

Record ServiceConfig := mkServiceConfig { MaxPeersPerRoom : Z; ProtocolVersion : Z }.
Definition default_service : ServiceConfig := mkServiceConfig 10 2.

(** [uuid.New().String()], the [n]th one; the order in which a [range] visits
    a map, which the state's count of UUIDs stands in for choosing; and the
    map field of a message decoded with some entries, [None] for a nil map. *)
Class GoRuntime := {
  uuid : nat → jsstr;
  range : nat → gmap jsstr nat → list (jsstr * nat);
  decoded_map : list (jsstr * jsstr) → option (list (jsstr * jsstr))
}.

(** What Go and the UUID library document of them. *)
Class GoLaws (G : GoRuntime) : Prop := {
  uuid_inj : Inj (=) (=) uuid;
  uuid_truthy n : truthy (uuid n) = true;
  range_all n m : range n m ≡ₚ map_to_list m;
  decoded_entries l : default [] (decoded_map l) = l
}.
#[export] Existing Instance uuid_inj.

(** What a handler returns: an event for the acting client, nothing, or a Go error. *)
Inductive Result :=
  | Reply (event : RelayEvent)
  | NoReply
  | Fail (message : jsstr).

Section relay.
Context `{G : GoRuntime}.
Abbreviation R := (proc Relay).

(** ** Memory *)

Definition set_room (r : nat) (f : CollabRoom → CollabRoom) (s : Relay) : Relay :=
  s <| roomStore := alter f r (roomStore s) |>.
Definition set_client (c : nat) (f : RelayClient → RelayClient) (s : Relay) : Relay :=
  s <| clientStore := alter f c (clientStore s) |>.
Definition of_room {A} (dft : A) (f : CollabRoom → A) (r : nat) (s : Relay) : A := from_option f dft (roomStore s !! r).
Definition of_client {A} (dft : A) (f : RelayClient → A) (c : nat) (s : Relay) : A := from_option f dft (clientStore s !! c).

(** No read lock of the room is held: [Lock] does not wait. A room that was
    never made has no mutex to lock: Go's pointers do not dangle. *)
Definition lockable (r : nat) (s : Relay) : bool := of_room false (λ room, bool_decide (readers room = ∅)) r s.
Definition is_room (r : nat) (s : Relay) : bool := bool_decide (is_Some (roomStore s !! r)).

Definition newUUID : R jsstr := atomically (λ s, (s <| uuids := S (uuids s) |>, uuid (uuids s))).

(** ** Rooms ([services/room.go]) *)

Definition sendCap : nat := 64.

(** [case c.SendCh <- event: default:], and whether the default was taken. *)
Definition try_send (c : nat) (event : RelayEvent) (s : Relay) : Relay * bool :=
  match clientStore s !! c with
  | None => (s, false)
  | Some cl =>
      if SendCh_closed cl then (s <| panicked := true |>, false)
      else if (length (SendCh cl) <? sendCap)%nat then (set_client c (λ cl, cl <| SendCh := SendCh cl ++ [event] |>) s, false)
      else (s, true)
  end.

Definition isSlow (c : nat) : R bool := reads (of_client false slow c).
Definition markSlow (c : nat) : R unit := writes (set_client c (λ cl, cl <| slow := true |>)).

Definition deliver (c : nat) (event : RelayEvent) : R unit :=
  b ← isSlow c;
  if b : bool then mret tt
  else full ← atomically (try_send c event); whenp full (markSlow c).

(** The clients of a room in the order of a [range], with their ids. *)
Definition members (r : nat) (s : Relay) : list (jsstr * nat) :=
  of_room [] (λ room, range (uuids s) (Clients room)) r s.

(** [RLock] for the length of an iteration, with [RUnlock] deferred. *)
Definition rlock {A} (r : nat) (f : Relay → A) : R (nat * A) :=
  once (is_room r) (λ s,
    let n := nextLock s in
    (set_room r (λ room, room <| readers := {[ n ]} ∪ readers room |>) (s <| nextLock := S n |>), (n, f s))).
Definition runlock (r n : nat) : R unit := writes (set_room r (λ room, room <| readers := readers room ∖ {[ n ]} |>)).
Definition rlocked {A B} (r : nat) (f : Relay → A) (body : A → R B) : R B :=
  '(n, a) ← rlock r f; b ← body a; runlock r n ;; mret b.

Definition BroadcastToAll (r : nat) (event : RelayEvent) : R unit :=
  rlocked r (members r) (each (λ p, deliver p.2 event)).

(** The loop compares [c.ClientId], which never changes. *)
Definition BroadcastExcept (r : nat) (event : RelayEvent) (exceptClientId : jsstr) : R unit :=
  rlocked r (λ s, (λ p, (of_client [] ClientId p.2 s, p.2)) <$> members r s)
    (each (λ p, whenp (negb (bool_decide (p.1 = exceptClientId))) (deliver p.2 event))).

(** [strings.Join(ss, sep)]. *)
Fixpoint mjoin_with (sep : jsstr) (ss : list jsstr) : jsstr :=
  match ss with [] => [] | [x] => x | x :: ss' => x ++ sep ++ mjoin_with sep ss' end.

(** The ids not seen before, in order. *)
Fixpoint distinct (seen ids : list jsstr) : list jsstr :=
  match ids with
  | [] => []
  | id :: ids' => if bool_decide (id ∈ seen) then distinct seen ids' else id :: distinct (id :: seen) ids'
  end.

Definition SendEach (r : nat) (clientIds : list jsstr) (build : jsstr → RelayEvent) : R (list jsstr) :=
  rlocked r (of_room ∅ Clients r) (λ cs,
    each (λ id, match cs !! id with Some c => deliver c (build id) | None => mret tt end) (distinct [] clientIds) ;;
    mret (filter (λ id, cs !! id = None) (distinct [] clientIds))).

(** [CloseAllClients]: the channels of all are closed, and all are removed. *)
Definition close_client (s : Relay) (c : nat) : Relay :=
  if of_client false SendCh_closed c s then s <| panicked := true |>
  else set_client c (λ cl, cl <| SendCh_closed := true |>) s.

Definition CloseAllClients (r : nat) : R unit :=
  once (lockable r) (λ s, (set_room r (λ room, room <| Clients := ∅ |>) (foldl close_client s (members r s).*2), tt)).

Definition FindByBrowserId (r : nat) (browserId excludeClientId : jsstr) : R (option nat) :=
  reads (λ s, head (filter (λ c, of_client [] ClientId c s ≠ excludeClientId ∧ of_client [] BrowserId c s = browserId)
                      (members r s).*2)).

(** [&CollabClient{...}] and [AddClient]. *)
Definition AddClient (r : nat) (client : RelayClient) : R nat :=
  once (lockable r) (λ s,
    let c := nextRef s in
    (set_room r (λ room, room <| Clients := <[ClientId client := c]> (Clients room) |>)
       (s <| clientStore := <[c := client]> (clientStore s) |> <| nextRef := S c |>), c)).

Definition RemoveClient (r : nat) (clientId : jsstr) : R unit :=
  once (lockable r) (λ s, (set_room r (λ room, room <| Clients := delete clientId (Clients room) |>) s, tt)).

Definition GetPeerInfo (r : nat) : R (list (jsstr * nat)) := reads (members r).

Definition count (r : nat) (s : Relay) : Z := of_room 0 (λ room, Z.of_nat (size (Clients room))) r s.
Definition ClientCount (r : nat) : R Z := reads (count r).

Definition snapshot (peers : list (jsstr * nat)) (encrypted : bool) (room : CollabRoom) : RoomSnapshot :=
  mkSnapshot (SessionId room) peers (OwnerClientId room) (Created room) (default [] (Metadata room)) encrypted (Title room).

Definition ToProto (r : nat) : R (option RoomSnapshot) :=
  peers ← GetPeerInfo r;
  reads (λ s, (λ room, snapshot peers (Encrypted room) room) <$> roomStore s !! r).

(** [<-client.SendCh], by whoever drains it: [None] once it is closed and empty. *)
Definition receive (c : nat) : R (option RelayEvent) :=
  Step (λ s,
    match clientStore s !! c with
    | Some cl =>
        match SendCh cl with
        | e :: q => Some (set_client c (λ cl, cl <| SendCh := q |>) s, Done (Some e))
        | [] => if SendCh_closed cl then Some (s, Done None) else None
        end
    | None => None
    end).

(** ** The service ([services/collab_service.go]) *)

Definition room_exists (sessionId : jsstr) (s : Relay) : bool := bool_decide (is_Some (rooms s !! sessionId)).

(** The room, and whether it is new. *)
Definition GetOrCreateRoom (sessionId : jsstr) (now : Timestamp) : R (nat * bool) :=
  atomically (λ s,
    match rooms s !! sessionId with
    | Some r => (s, (r, false))
    | None =>
        let r := nextRef s in
        (s <| rooms := <[sessionId := r]> (rooms s) |> <| nextRef := S r |>
           <| roomStore := <[r := NewCollabRoom sessionId now]> (roomStore s) |>, (r, true))
    end).

Definition removeRoom (sessionId : jsstr) : R unit :=
  writes (λ s,
    match rooms s !! sessionId with
    | Some r =>
        if bool_decide (of_room ∅ Clients r s = ∅) then
          s <| rooms := delete sessionId (rooms s) |>
            <| hintIndex := filter (λ p, p.2 ≠ sessionId) (hintIndex s) |> <| roomsActive := roomsActive s - 1 |>
        else s
    | None => s
    end).

(** The room that has the client. No two ever do, so that it does not matter
    that the loop looks into the rooms one after another. *)
Definition room_of (clientId : jsstr) (s : Relay) : option nat :=
  snd <$> head (filter (λ p, is_Some (of_room ∅ Clients p.2 s !! clientId)) (map_to_list (rooms s))).
Definition findRoomForClient (clientId : jsstr) : R (option nat) := reads (room_of clientId).

Definition FindSessionByHint (hint : jsstr) : R jsstr := reads (λ s, default [] (hintIndex s !! hint)).

Definition GetClient (sessionId clientId : jsstr) : R (option nat) :=
  reads (λ s, r ← rooms s !! sessionId; of_room ∅ Clients r s !! clientId).

Definition RoomAndPeerCount : R (Z * Z) :=
  reads (λ s, (Z.of_nat (size (rooms s)), foldr Z.add 0 ((λ p, count p.2 s) <$> map_to_list (rooms s)))).

Definition GetRoom (sessionId : jsstr) : R (option RoomSnapshot) :=
  room ← reads (λ s, rooms s !! sessionId);
  match room : option nat with Some r => ToProto r | None => mret None end.

Definition errorEvent (code message : jsstr) : R RelayEvent :=
  id ← newUUID; mret (mkRelayEvent id [] (rb_event (ev_error (mkErrorEvent code message)))).

Definition refuse (code message : jsstr) : R Result := e ← errorEvent code message; mret (Reply e).

(** *** Joining *)

(** The session of a join without one: the hint's, or a new one. *)
Definition resolve_session (sessionId clientHint : jsstr) : R jsstr :=
  if truthy sessionId then mret sessionId
  else
    hinted ← (if truthy clientHint then FindSessionByHint clientHint else mret []);
    if truthy hinted then mret hinted else newUUID.

Definition index_hint (clientHint sessionId : jsstr) : R unit :=
  whenp (truthy clientHint) (writes (λ s, s <| hintIndex := <[clientHint := sessionId]> (hintIndex s) |>)).

Definition new_client (ctx : option Principal) (join : JoinRoom) (sessionId clientId : jsstr) : RelayClient :=
  mkRelayClient
    (mkPeerInfo clientId (str_or (JoinRoom_username join) (js "Anonymous")) (JoinRoom_avatarUrl join)
       (JoinRoom_clientType join) true (JoinRoom_isOwner join) (JoinRoom_metadata join) (identity ctx))
    sessionId (JoinRoom_browserId join) [] false false.

(** The room's fields a join sets. *)
Definition adopt (join : JoinRoom) (clientId : jsstr) (room : CollabRoom) : CollabRoom :=
  let room := if JoinRoom_isOwner join
              then room <| OwnerClientId := clientId |> <| OwnerBrowserId := JoinRoom_browserId join |> else room in
  let room := match Metadata room with None => room <| Metadata := decoded_map (JoinRoom_metadata join) |> | Some _ => room end in
  match Title room with [] => room <| Title := JoinRoom_title join |> | _ => room end.

(** The join of a client that passed the checks. *)
Definition admit_client (cfg : ServiceConfig) (ctx : option Principal) (join : JoinRoom) (sessionId : jsstr)
    (r : nat) (roomEncrypted : bool) : R Result :=
  existingPeers ← GetPeerInfo r;
  clientId ← newUUID;
  c ← AddClient r (new_client ctx join sessionId clientId);
  writes (λ s, s <| peersActive := peersActive s + 1 |>) ;;
  once (lockable r) (λ s, (set_room r (adopt join clientId) s, tt)) ;;
  eventId ← newUUID;
  BroadcastExcept r (mkRelayEvent eventId clientId (rb_peerJoined c)) clientId ;;
  eventId ← newUUID;
  room ← reads (λ s, roomStore s !! r);
  match room : option CollabRoom with
  | Some room =>
      mret (Reply (mkRelayEvent eventId []
        (rb_roomJoined clientId (snapshot existingPeers roomEncrypted room) (MaxPeersPerRoom cfg) (ProtocolVersion cfg))))
  | None => mret NoReply
  end.

Definition full_message (n max : Z) : jsstr :=
  js "Room is full (" ++ js_number (Z.to_N n) ++ js "/" ++ js_number (Z.to_N max) ++ js ")".

(** [handleJoin] from the room on. *)
Definition join_room (cfg : ServiceConfig) (ctx : option Principal) (join : JoinRoom) (sessionId : jsstr) (r : nat) : R Result :=
  full ← (if 0 <? MaxPeersPerRoom cfg then reads (λ s, MaxPeersPerRoom cfg <=? count r s) else mret false);
  if full : bool then
    eventId ← newUUID;
    n ← ClientCount r;
    mret (Reply (mkRelayEvent eventId []
      (rb_event (ev_error (mkErrorEvent (js "ROOM_FULL") (full_message n (MaxPeersPerRoom cfg)))))))
  else
  taken ← (if JoinRoom_isOwner join then
             once (lockable r) (λ s, (s, of_room false (λ room, truthy (OwnerClientId room) &&
               negb (bool_decide (OwnerBrowserId room = JoinRoom_browserId join))) r s))
           else mret false);
  if taken : bool then mret (Fail (js "room already has an owner from a different browser"))
  else
  whenp (JoinRoom_isOwner join && JoinRoom_encrypted join)
    (once (lockable r) (λ s, (set_room r (λ room, room <| Encrypted := true |>) s, tt))) ;;
  roomEncrypted ← reads (of_room false Encrypted r);
  if roomEncrypted && (JoinRoom_protocolVersion join <? 2) then
    refuse (js "PROTOCOL_VERSION_TOO_OLD") (js "This room requires encryption (protocol version >= 2)")
  else admit_client cfg ctx join sessionId r roomEncrypted.

Definition handleJoin (cfg : ServiceConfig) (ctx : option Principal) (now : Timestamp) (join : JoinRoom) : R Result :=
  if negb (AllowsRoom ctx (JoinRoom_sessionId join)) then
    refuse (js "ROOM_FORBIDDEN") (js "This token may not join this room")
  else
  sessionId ← resolve_session (JoinRoom_sessionId join) (JoinRoom_clientHint join);
  index_hint (JoinRoom_clientHint join) sessionId ;;
  there ← (if JoinRoom_mustExist join then reads (room_exists sessionId) else mret true);
  if negb there then
    refuse (js "ROOM_NOT_FOUND") (js "No room " ++ sessionId ++ js " on this relay")
  else
  '(r, isNew) ← GetOrCreateRoom sessionId now;
  whenp isNew (writes (λ s, s <| roomsActive := roomsActive s + 1 |>)) ;;
  join_room cfg ctx join sessionId r.

(** *** Leaving *)

Definition not_found (clientId : jsstr) : Result := Fail (js "client " ++ clientId ++ js " not found in any room").

Definition peer_left (clientId reason : jsstr) (n : Z) : RelayBody := rb_event (ev_peerLeft (mkPeerLeft clientId reason n)).

(** An event about or from a client, to all of a room. *)
Definition announce (r : nat) (clientId : jsstr) (body : RelayBody) : R unit :=
  eventId ← newUUID; BroadcastToAll r (mkRelayEvent eventId clientId body).

Definition left_reply (clientId : jsstr) (n : Z) : R Result :=
  eventId ← newUUID; mret (Reply (mkRelayEvent eventId [] (peer_left clientId [] n))).

Definition end_room (r : nat) (clientId sessionId : jsstr) : R Result :=
  announce r clientId (rb_event (ev_sessionEnded (mkSessionEnded (js "owner_disconnected")))) ;;
  CloseAllClients r ;;
  removeRoom sessionId ;;
  left_reply clientId 0.

Definition crown (r successor : nat) : R jsstr :=
  once (lockable r) (λ s,
    let id := of_client [] ClientId successor s in
    (set_room r (λ room, room <| OwnerClientId := id |>)
       (set_client successor (λ c, c <| info := (info c) <| PeerInfo_isOwner := true |> |>) s), id)).

Definition transfer (r successor : nat) (clientId : jsstr) : R unit :=
  newOwner ← crown r successor;
  announce r clientId (rb_event (ev_ownerChanged (mkOwnerChanged newOwner))).

(** The end of a leave after which the room goes on, or is empty. *)
Definition stay (r : nat) (clientId reason sessionId : jsstr) (remainingCount : Z) : R Result :=
  announce r clientId (peer_left clientId reason remainingCount) ;;
  whenp (remainingCount =? 0) (removeRoom sessionId) ;;
  left_reply clientId remainingCount.

Definition handleLeave (clientId reason : jsstr) : R Result :=
  room ← findRoomForClient clientId;
  match room : option nat with
  | None => mret (not_found clientId)
  | Some r =>
      leaving ← reads (λ s, of_room ∅ Clients r s !! clientId ≫= λ c, clientStore s !! c);
      let isOwner := from_option IsOwner false leaving in
      let browserId := from_option BrowserId [] leaving in
      RemoveClient r clientId ;;
      writes (λ s, s <| peersActive := peersActive s - 1 |>) ;;
      remainingCount ← ClientCount r;
      sessionId ← reads (of_room [] SessionId r);
      if isOwner && (0 <? remainingCount) then
        successor ← (if truthy browserId then FindByBrowserId r browserId clientId else mret None);
        match successor : option nat with
        | Some c => transfer r c clientId ;; stay r clientId reason sessionId remainingCount
        | None => end_room r clientId sessionId
        end
      else stay r clientId reason sessionId remainingCount
  end.

(** *** Messages *)

Definition deliverAddressed (r : nat) (eventId fromClientId : jsstr) (msg : AppMessage) : R (list jsstr) :=
  SendEach r (AppMessage_toClientIds msg) (λ to,
    mkRelayEvent eventId fromClientId
      (rb_event (ev_appMessage (mkAppMessage (AppMessage_kind msg) (AppMessage_payload msg) [to])))).

Definition peers_missing (missing : list jsstr) : jsstr := js "Not in this room: " ++ mjoin_with (js ", ") missing.

Definition handlePresence (clientId : jsstr) (presence : PresenceUpdate) : R Result :=
  room ← findRoomForClient clientId;
  match room : option nat with
  | None => mret (not_found clientId)
  | Some r =>
      eventId ← newUUID;
      BroadcastExcept r (mkRelayEvent eventId clientId (rb_event (ev_presence presence))) clientId ;;
      mret NoReply
  end.

(** The event of a broadcast action, and what it changes of the room. *)
Definition broadcast_event (a : CollabAction_action_case) : option CollabEvent_event_case :=
  match a with
  | act_sceneUpdate x => Some (ev_sceneUpdate x)
  | act_cursorUpdate x => Some (ev_cursorUpdate x)
  | act_textUpdate x => Some (ev_textUpdate x)
  | act_sceneInitRequest x => Some (ev_sceneInitRequest x)
  | act_sceneInitResponse x => Some (ev_sceneInitResponse x)
  | act_credentialsChanged x => Some (ev_credentialsChanged x)
  | act_titleChanged x => Some (ev_titleChanged x)
  | act_appMessage x => Some (ev_appMessage x)
  | _ => None
  end.

Definition broadcast_effect (r : nat) (a : CollabAction_action_case) : R unit :=
  match a with
  | act_credentialsChanged x =>
      whenp (bool_decide (CredentialsChanged_reason x = js "password_removed"))
        (once (lockable r) (λ s, (set_room r (λ room, room <| Encrypted := false |>) s, tt)))
  | act_titleChanged x =>
      once (lockable r) (λ s, (set_room r (λ room, room <| Title := TitleChanged_title x |>) s, tt))
  | _ => mret tt
  end.

Definition handleBroadcast (clientId : jsstr) (a : CollabAction_action_case) (event : CollabEvent_event_case) : R Result :=
  room ← findRoomForClient clientId;
  match room : option nat with
  | None => mret (not_found clientId)
  | Some r =>
      eventId ← newUUID;
      broadcast_effect r a ;;
      match a with
      | act_appMessage msg =>
          match AppMessage_toClientIds msg with
          | [] => BroadcastExcept r (mkRelayEvent eventId clientId (rb_event event)) clientId ;; mret NoReply
          | _ =>
              missing ← deliverAddressed r eventId clientId msg;
              match missing with
              | [] => mret NoReply
              | _ => refuse (js "PEER_NOT_FOUND") (peers_missing missing)
              end
          end
      | _ => BroadcastExcept r (mkRelayEvent eventId clientId (rb_event event)) clientId ;; mret NoReply
      end
  end.

Definition HandleAction (cfg : ServiceConfig) (ctx : option Principal) (now : Timestamp) (action : CollabAction) : R Result :=
  let clientId := CollabAction_clientId action in
  let a := CollabAction_action action in
  match a with
  | act_join join => handleJoin cfg ctx now join
  | act_leave leave => handleLeave clientId (LeaveRoom_reason leave)
  | act_presence presence => handlePresence clientId presence
  | _ =>
      match broadcast_event a with
      | Some event => handleBroadcast clientId a event
      | None => mret (Fail (js "unknown or empty action type"))
      end
  end.

(** [DeliverAppMessage], of a server that embeds this one: what it fails with. *)
Definition DeliverAppMessage (sessionId fromClientId : jsstr) (msg : AppMessage) : R (option jsstr) :=
  room ← reads (λ s, rooms s !! sessionId);
  match room : option nat with
  | None => mret (Some (js "room not found"))
  | Some r =>
      eventId ← newUUID;
      missing ← match AppMessage_toClientIds msg with
                | [] => BroadcastExcept r (mkRelayEvent eventId fromClientId (rb_event (ev_appMessage msg))) fromClientId ;; mret []
                | _ => deliverAddressed r eventId fromClientId msg
                end;
      match missing with
      | [] => mret None
      | _ => mret (Some (js "peer not found in room: " ++ mjoin_with (js ", ") missing))
      end
  end.

(** *** What leaves the relay *)

(** The peers a snapshot points to. *)
Definition peer_entries (s : Relay) (peers : list (jsstr * nat)) : list (jsstr * PeerInfo) :=
  omap (λ '(id, c), (λ cl, (id, info cl)) <$> clientStore s !! c) peers.

(** The protocol message of an event when it is written to a socket. *)
Definition wire (s : Relay) (e : RelayEvent) : CollabEvent :=
  mkCollabEvent (re_eventId e) (re_from e) 0
    match re_body e with
    | rb_roomJoined clientId room maxPeers version =>
        ev_roomJoined (mkRoomJoined clientId
          (Some (mkRoom (snap_sessionId room) (peer_entries s (snap_peers room)) (snap_owner room) (Some (snap_created room))
             (snap_metadata room) (snap_encrypted room) (snap_title room))) maxPeers version)
    | rb_peerJoined c => ev_peerJoined (mkPeerJoined (info <$> clientStore s !! c))
    | rb_event ev => ev
    end.
End relay.
