(* ===== verification/RelayInvariants.v ===== *)
(** * What every schedule of the relay's handlers keeps

    The relay's invariant: its channels are never misused, its queues are
    bounded, its maps agree with each other. A handler is safe when each of
    its steps keeps the invariant and the read locks others hold; [calm] is
    that of code that holds nothing itself. *)

From S2P Require Import Prelude JsText JsMap Models Concurrency Relay.
Open Scope Z_scope.

Section invariant.
Context {G : GoRuntime} {L : GoLaws G}.
Implicit Types (s : Relay) (r c n : nat) (room : CollabRoom) (cl : RelayClient).

(** ** The invariant *)

Record wf s : Prop := {
  wf_calm : panicked s = false;
  wf_rooms k r : rooms s !! k = Some r → ∃ room, roomStore s !! r = Some room ∧ SessionId room = k;
  wf_member r room id c : roomStore s !! r = Some room → Clients room !! id = Some c →
    ∃ cl, clientStore s !! c = Some cl ∧ ClientId cl = id ∧ SendCh_closed cl = false;
  wf_home r r' room room' id : roomStore s !! r = Some room → roomStore s !! r' = Some room' →
    is_Some (Clients room !! id) → is_Some (Clients room' !! id) → r = r';
  wf_queue c cl : clientStore s !! c = Some cl → (length (SendCh cl) <= sendCap)%nat;
  wf_named c cl : clientStore s !! c = Some cl → ∃ n, (n < uuids s)%nat ∧ ClientId cl = uuid n;
  wf_distinct c c' cl cl' : clientStore s !! c = Some cl → clientStore s !! c' = Some cl' → ClientId cl = ClientId cl' → c = c';
  wf_refs x : (nextRef s <= x)%nat → roomStore s !! x = None ∧ clientStore s !! x = None;
  wf_locks r room n : roomStore s !! r = Some room → n ∈ readers room → (n < nextLock s)%nat
}.

(** A token: a read lock by its number, or a UUID nobody has used yet. *)
Inductive token := lock_of (r : nat) (m : gmap jsstr nat) | fresh.

Definition holds s (k : nat + nat) (v : token) : Prop :=
  match k, v with
  | inl n, lock_of r m => ∃ room, roomStore s !! r = Some room ∧ n ∈ readers room ∧ Clients room = m
  | inr n, fresh => (n < uuids s)%nat ∧ ∀ c cl, clientStore s !! c = Some cl → ClientId cl ≠ uuid n
  | _, _ => False
  end.

(** Steps after which every token is still good. *)
Record frame s s' : Prop := {
  fr_room r room : roomStore s !! r = Some room → readers room ≠ ∅ →
    ∃ room', roomStore s' !! r = Some room' ∧ readers room ⊆ readers room' ∧ Clients room' = Clients room;
  fr_uuids : (uuids s <= uuids s')%nat;
  fr_named c cl : clientStore s' !! c = Some cl → ∃ c' cl', clientStore s !! c' = Some cl' ∧ ClientId cl' = ClientId cl
}.

Lemma frame_holds s s' k v : frame s s' → holds s k v → holds s' k v.
Proof.
  intros [Hr Hu Hn]. destruct k as [n|n], v as [r m|]; cbn; [|done..|].
  - intros (room & Er & Hin & <-). destruct (Hr r room Er) as (room' & Er' & Hsub & Hc); [set_solver|].
    exists room'. split_and!; [done|set_solver|done].
  - intros [Hlt Hun]. split; [lia|]. intros c cl Hc. destruct (Hn c cl Hc) as (c' & cl' & Hc' & <-). eauto.
Qed.

#[export] Instance frame_refl : Reflexive frame.
Proof. intros s. split; [eauto|done|eauto]. Qed.

#[export] Instance frame_trans : Transitive frame.
Proof.
  intros s1 s2 s3 [Hr1 Hu1 Hn1] [Hr2 Hu2 Hn2]. split; [|lia|].
  - intros r room Er Hne. destruct (Hr1 r room Er Hne) as (room2 & Er2 & Hs2 & Hc2).
    destruct (Hr2 r room2 Er2) as (room3 & ? & ? & ?); [set_solver|]. exists room3. split_and!; [done|set_solver|congruence].
  - intros c cl Hc. destruct (Hn2 c cl Hc) as (c2 & cl2 & H2 & E2), (Hn1 c2 cl2 H2) as (c1 & cl1 & H1 & E1).
    exists c1, cl1. split; [done|congruence].
Qed.

(** ** Code that holds nothing *)

Definition calm {A} (p : proc Relay A) : Prop := ∀ T, safe wf holds T p (λ T' _, T' = T).

Lemma calm_ret {A} (a : A) : calm (mret a).
Proof. by intros T. Qed.

Lemma calm_bind {A B} (p : proc Relay A) (k : A → proc Relay B) : calm p → (∀ a, calm (k a)) → calm (p ≫= k).
Proof. intros Hp Hk T. apply safe_bind. eapply safe_mono; [apply Hp|]. intros ? a ->. apply Hk. Qed.

Lemma calm_once {A} ready (f : Relay → Relay * A) :
  (∀ s, ready s = true → wf s → wf (f s).1 ∧ frame s (f s).1) → calm (once ready f).
Proof.
  intros Hf T. apply safe_once. intros s Hr Hs _. destruct (Hf s Hr Hs) as [Hs' Hfr].
  split_and!; [done| |done]. intros k v. by apply frame_holds.
Qed.

Lemma calm_atomically {A} (f : Relay → Relay * A) : (∀ s, wf s → wf (f s).1 ∧ frame s (f s).1) → calm (atomically f).
Proof. intros Hf. apply (calm_once (λ _, true)). auto. Qed.

Lemma calm_writes (f : Relay → Relay) : (∀ s, wf s → wf (f s) ∧ frame s (f s)) → calm (writes f).
Proof. intros Hf. by apply calm_atomically. Qed.

Lemma calm_reads {A} (f : Relay → A) : calm (reads f).
Proof. apply calm_atomically. intros s Hs. by split. Qed.

Lemma calm_once_reads {A} ready (f : Relay → A) : calm (once ready (λ s, (s, f s))).
Proof. apply calm_once. intros s _ Hs. by split. Qed.

Lemma calm_whenp b p : calm p → calm (whenp b p).
Proof. destruct b; [done|intros _; apply calm_ret]. Qed.

(** ** Steps on the memory *)

(** No room has the client. *)
Definition roomless c s : Prop := ∀ r room id, roomStore s !! r = Some room → Clients room !! id ≠ Some c.

(** A step that changes a client without renaming it. *)
Lemma set_client_wf c g s :
  (∀ cl, clientStore s !! c = Some cl → ClientId (g cl) = ClientId cl ∧ (SendCh_closed (g cl) = SendCh_closed cl ∨ roomless c s) ∧
     ((length (SendCh cl) <= sendCap)%nat → (length (SendCh (g cl)) <= sendCap)%nat)) →
  wf s → wf (set_client c g s) ∧ frame s (set_client c g s).
Proof.
  intros Hg [].
  assert (∀ c' cl', alter g c (clientStore s) !! c' = Some cl' → ∃ cl, clientStore s !! c' = Some cl ∧
    ClientId cl' = ClientId cl ∧ (length (SendCh cl') <= sendCap)%nat) as Hall.
  { intros c' cl'. destruct (decide (c' = c)) as [->|]; [rewrite lookup_alter_eq|rewrite lookup_alter_ne by done; by eauto 6].
    destruct (clientStore s !! c) as [cl|] eqn:Ec; [|done]. intros [= <-]. destruct (Hg cl eq_refl) as (?&?&?). by eauto 7. }
  split; split; cbn; try done.
  - intros r room id c' Hr Hc. destruct (wf_member0 r room id c' Hr Hc) as (cl & Hcl & ? & ?).
    destruct (decide (c' = c)) as [->|]; [rewrite lookup_alter_eq|rewrite lookup_alter_ne by done; by eauto].
    destruct (Hg cl Hcl) as (H1 & [H2|Hno] & _); [|by destruct (Hno r room id Hr)]. exists (g cl). by rewrite Hcl, H1, H2.
  - intros c' cl' Hc. by destruct (Hall c' cl' Hc) as (? & ? & ? & ?).
  - intros c' cl' Hc. destruct (Hall c' cl' Hc) as (? & Hc' & -> & _). by eapply wf_named0.
  - intros c1 c2 cl1 cl2 H1 H2. destruct (Hall _ _ H1) as (? & H1' & -> & _), (Hall _ _ H2) as (? & H2' & -> & _). by eapply wf_distinct0.
  - intros x Hx. destruct (wf_refs0 x Hx) as [? Hn]. split; [done|]. destruct (decide (x = c)) as [->|].
    + by rewrite lookup_alter_eq, Hn.
    + by rewrite lookup_alter_ne.
  - eauto.
  - intros c' cl' Hc. destruct (Hall c' cl' Hc) as (? & ? & ? & _). eauto.
Qed.

(** A step that changes a room, and whose clients may go. *)
Lemma set_room_keeps r g s :
  (∀ room, roomStore s !! r = Some room →
     SessionId (g room) = SessionId room ∧ Clients (g room) ⊆ Clients room ∧ ∀ n, n ∈ readers (g room) → (n < nextLock s)%nat) →
  wf s → wf (set_room r g s).
Proof.
  intros Hg [].
  assert (∀ r' room', alter g r (roomStore s) !! r' = Some room' → ∃ room, roomStore s !! r' = Some room ∧
    Clients room' ⊆ Clients room ∧ ∀ n, n ∈ readers room' → (n < nextLock s)%nat) as Hall.
  { intros r' room'. destruct (decide (r' = r)) as [->|]; [rewrite lookup_alter_eq|rewrite lookup_alter_ne by done; by eauto].
    destruct (roomStore s !! r) as [room|] eqn:Er; [|done]. intros [= <-]. destruct (Hg room eq_refl) as (?&?&?). by eauto. }
  split; cbn; try done.
  - intros k r' Hk. destruct (wf_rooms0 k r' Hk) as (room & Er & Es).
    destruct (decide (r' = r)) as [->|]; [|rewrite lookup_alter_ne by done; by eauto].
    rewrite lookup_alter_eq, Er. destruct (Hg room Er) as (H1 & _). exists (g room). by rewrite H1.
  - intros r' room' id c Hr Hc. destruct (Hall _ _ Hr) as (room & Hr' & Hsub & _).
    apply (wf_member0 r' room id c Hr'). exact (lookup_weaken _ _ _ _ Hc Hsub).
  - intros r1 r2 room1 room2 id H1 H2 [c1 Hc1] [c2 Hc2].
    destruct (Hall _ _ H1) as (room1' & H1' & Hs1 & _), (Hall _ _ H2) as (room2' & H2' & Hs2 & _).
    apply (wf_home0 r1 r2 room1' room2' id H1' H2'); [exists c1|exists c2]; eauto using lookup_weaken.
  - intros x Hx. destruct (wf_refs0 x Hx) as [Hn ?]. split; [|done]. destruct (decide (x = r)) as [->|].
    + by rewrite lookup_alter_eq, Hn.
    + by rewrite lookup_alter_ne.
  - intros r' room' n Hr Hn. destruct (Hall _ _ Hr) as (room & Hr' & _ & E). by apply E.
Qed.

Lemma set_room_frame r g s :
  (∀ room, roomStore s !! r = Some room → readers room ≠ ∅ →
     readers room ⊆ readers (g room) ∧ Clients (g room) = Clients room) → frame s (set_room r g s).
Proof.
  intros Hg. split; cbn; [|done|by eauto]. intros r' room Hr Hne.
  destruct (decide (r' = r)) as [->|]; [|rewrite lookup_alter_ne by done; by eauto].
  rewrite lookup_alter_eq, Hr. destruct (Hg room Hr Hne). by exists (g room).
Qed.

(** The service's own maps and counters. *)
Lemma service_wf s s' :
  roomStore s' = roomStore s → clientStore s' = clientStore s → panicked s' = panicked s →
  (nextRef s <= nextRef s')%nat → (nextLock s <= nextLock s')%nat → (uuids s <= uuids s')%nat →
  (∀ k r, rooms s' !! k = Some r → rooms s !! k = Some r) → wf s → wf s' ∧ frame s s'.
Proof.
  intros Er Ec Ep Hn Hl Hu Hr []. split; split; rewrite ?Er, ?Ec, ?Ep; eauto.
  - intros c cl Hc. destruct (wf_named0 c cl Hc) as (n & ? & ?). exists n. split; [lia|done].
  - intros x Hx. apply wf_refs0. lia.
  - intros r room n H1 H2. specialize (wf_locks0 r room n H1 H2). lia.
Qed.

Lemma lockable_spec r s room : lockable r s = true → roomStore s !! r = Some room → readers room = ∅.
Proof. unfold lockable, of_room. intros H E. rewrite E in H. cbn in H. by apply bool_decide_eq_true in H. Qed.

(** ** Safety of the operations *)

Lemma calm_newUUID : calm newUUID.
Proof. apply calm_atomically. intros s. apply service_wf; cbn; auto with lia. Qed.

(** A section under the room's lock that changes the room's fields, or drops clients. *)
Lemma calm_locked {A} r (g : CollabRoom → CollabRoom) (a : Relay → A) :
  (∀ room, SessionId (g room) = SessionId room ∧ readers (g room) = readers room ∧ Clients (g room) ⊆ Clients room) →
  calm (once (lockable r) (λ s, (set_room r g s, a s))).
Proof.
  intros Hg. apply calm_once. intros s Hl Hs. split.
  - apply set_room_keeps; [|done]. intros room Er. destruct (Hg room) as (? & Hn & ?).
    split_and!; [done..|]. intros n. rewrite Hn, (lockable_spec r s room) by done. set_solver.
  - apply set_room_frame. intros room Er. by rewrite (lockable_spec r s room).
Qed.

Lemma safe_deliver T r m n id c e :
  T !! inl n = Some (lock_of r m) → m !! id = Some c → safe wf holds T (deliver c e) (λ T' _, T' = T).
Proof.
  intros HT Hm. apply safe_bind, safe_reads. intros s Hs Ho. destruct (of_client _ _ _ _); [done|].
  apply safe_bind, safe_atomically. intros s' Hs' Ho'. destruct (Ho' _ _ HT) as (room & Er & _ & <-).
  destruct (wf_member s' Hs' _ _ _ _ Er Hm) as (cl & Ec & _ & Hopen). unfold try_send. rewrite Ec, Hopen.
  destruct (Nat.ltb_spec (length (SendCh cl)) sendCap) as [Hlt|]; cbn [fst snd].
  - edestruct (set_client_wf c) as [Hw Hf]; [|exact Hs'|split; [exact Hw|split; [|done]]].
    + rewrite Ec. intros ? [= <-]. split_and!; [done|by left|]. intros _. cbn. rewrite length_app. cbn. lia.
    + intros k v. by apply frame_holds.
  - split_and!; [done..|]. apply calm_writes. intros s2. apply set_client_wf. intros. split_and!; [done|by left|done].
Qed.

(** A new lock is nobody's. *)
Lemma new_lock T s n : wf s → owns holds T s → (nextLock s <= n)%nat → T !! inl n = None.
Proof.
  intros Hs Ho Hn. apply eq_None_not_Some. intros [[r m|] HT]; [|by destruct (Ho _ _ HT)].
  destruct (Ho _ _ HT) as (room & Er & Hin & _). pose proof (wf_locks s Hs _ _ _ Er Hin). lia.
Qed.

Lemma safe_rlock {A} T r (f : Relay → A) :
  safe wf holds T (rlock r f) (λ T' p, T !! inl p.1 = None ∧ ∃ s room, wf s ∧ roomStore s !! r = Some room ∧ p.2 = f s ∧
    T' = <[inl p.1 := lock_of r (Clients room)]> T).
Proof.
  intros s Hs Ho. cbn. unfold is_room. case_bool_decide as Hroom; [|done]. destruct Hroom as [room Er].
  pose proof (new_lock T s (nextLock s) Hs Ho ltac:(lia)) as HT.
  set (s1 := s <| nextLock := S (nextLock s) |>). assert (wf s1 ∧ frame s s1) as [Hs1 Hf1].
  { apply service_wf; cbn; auto with lia. }
  set (g := λ room, room <| readers := {[nextLock s]} ∪ readers room |>). assert (frame s1 (set_room r g s1)) as Hf2.
  { apply set_room_frame. cbn. intros. by split; [set_solver|]. }
  split; [apply set_room_keeps; [|done]; intros room' Er'; split_and!; [done..|]; intros n Hn; cbn in Hn;
    apply elem_of_union in Hn as [->%elem_of_singleton|Hn]; cbn; [lia|pose proof (wf_locks s Hs _ _ _ Er' Hn); lia]|].
  exists (<[inl (nextLock s) := lock_of r (Clients room)]> T). split; [|split; [done|by exists s, room]]. split.
  - intros k v. destruct (decide (k = inl (nextLock s))) as [->|Hne].
    + rewrite lookup_insert_eq. intros [= <-]. exists (g room). cbn. rewrite lookup_alter_eq, Er. set_solver.
    + rewrite lookup_insert_ne by done. intros Hk. by apply (frame_holds s1), (frame_holds s), Ho.
  - intros k v Hk Hh. split; [by apply (frame_holds s1), (frame_holds s)|]. rewrite lookup_insert_ne; [done|].
    intros <-. destruct v as [r' m|]; [|done]. destruct Hh as (room' & Er' & Hin & _). pose proof (wf_locks s Hs _ _ _ Er' Hin). lia.
Qed.

Lemma safe_runlock T r n m :
  T !! inl n = None → safe wf holds (<[inl n := lock_of r m]> T) (runlock r n) (λ T' _, T' = T).
Proof.
  intros HT s Hs Ho. cbn. split.
  { apply set_room_keeps; [|done]. intros room Er. split_and!; [done..|]. cbn. intros n' [Hn' _]%elem_of_difference. by eapply wf_locks. }
  assert (∀ k v, k ≠ inl n → holds s k v → holds (set_room r (λ room, room <| readers := readers room ∖ {[n]} |>) s) k v) as Hk.
  { intros [n'|n'] [r' m'|] Hne; cbn; [|done..]. intros (room & Er & Hin & <-).
    destruct (decide (r' = r)) as [->|]; [rewrite lookup_alter_eq, Er|rewrite lookup_alter_ne by done; by eauto].
    exists (room <| readers := readers room ∖ {[n]} |>). cbn. split_and!; [done|set_solver|done]. }
  exists T. split; [|done]. split.
  - intros k v HTk. assert (k ≠ inl n) as Hne by (intros ->; congruence). apply Hk; [done|]. apply Ho. by rewrite lookup_insert_ne.
  - intros k v HTk Hh. rewrite lookup_insert_None in HTk. split; [apply Hk; [by intros ->; apply HTk|done]|apply HTk].
Qed.

(** The section of a read lock: its body may rely on the room's clients. *)
Lemma calm_rlocked {A B} r (f : Relay → A) (body : A → proc Relay B) :
  (∀ s room, wf s → roomStore s !! r = Some room →
     ∀ T n, T !! inl n = Some (lock_of r (Clients room)) → safe wf holds T (body (f s)) (λ T' _, T' = T)) →
  calm (rlocked r f body).
Proof.
  intros Hb T. apply safe_bind. eapply safe_mono; [apply safe_rlock|]. intros T' [n a] (HT & s & room & Hs & Er & E & ->).
  cbn in HT, E. cbn beta match delta [fst snd]. subst a. apply safe_bind. eapply safe_mono; [eapply (Hb s room Hs Er), lookup_insert_eq|].
  intros ? b ->. apply safe_bind. eapply safe_mono; [by apply safe_runlock|]. by intros ? _ ->.
Qed.

Lemma members_in s r room id c : roomStore s !! r = Some room → (id, c) ∈ members r s → Clients room !! id = Some c.
Proof.
  unfold members, of_room. intros ->. cbn. rewrite range_all. by rewrite elem_of_map_to_list.
Qed.

Lemma calm_BroadcastToAll r e : calm (BroadcastToAll r e).
Proof.
  apply calm_rlocked. intros s room Hs Er T n HT. apply safe_each. intros [id c] Hin.
  eapply safe_deliver; [exact HT|]. by eapply members_in.
Qed.

Lemma calm_BroadcastExcept r e except : calm (BroadcastExcept r e except).
Proof.
  apply calm_rlocked. intros s room Hs Er T n HT. apply safe_each. intros x ([id c] & -> & Hin)%list_elem_of_fmap.
  cbn. destruct (negb _); [|done]. eapply safe_deliver; [exact HT|]. by eapply members_in.
Qed.

Lemma calm_SendEach r ids build : calm (SendEach r ids build).
Proof.
  apply calm_rlocked. intros s room Hs Er T n HT. apply safe_bind. eapply safe_mono.
  - apply safe_each. intros id _. unfold of_room. rewrite Er. cbn. destruct (Clients room !! id) eqn:Ec; [|done].
    by eapply safe_deliver.
  - by intros ? _ ->.
Qed.

(** Closing the channels of clients that have left their room, each once. *)
Lemma close_clients_wf cs s :
  wf s → NoDup cs → (∀ c, c ∈ cs → of_client false (negb ∘ SendCh_closed) c s = true ∧ roomless c s) →
  wf (foldl close_client s cs) ∧ frame s (foldl close_client s cs).
Proof.
  revert s. induction cs as [|c cs IH]; intros s Hs Hnd Hc; [done|]. apply NoDup_cons in Hnd as [Hni Hnd]. cbn.
  destruct (Hc c) as [Ho Hless]; [by left|]. unfold of_client in Ho.
  destruct (clientStore s !! c) as [cl|] eqn:Ec; [|done]. cbn in Ho. apply negb_true_iff in Ho.
  set (g := λ cl, cl <| SendCh_closed := true |>). assert (close_client s c = set_client c g s) as ->.
  { unfold close_client, of_client. rewrite Ec. cbn. by rewrite Ho. }
  destruct (set_client_wf c g s) as [Hs' Hf]; [intros; split_and!; [done|by right|done]|done|].
  destruct (IH (set_client c g s) Hs' Hnd) as [Hw Hf'].
  - intros c' Hin. assert (c' ≠ c) as Hne by (by intros ->). destruct (Hc c') as [Ho' Hl]; [by right|].
    split; [|exact Hl]. unfold of_client in *. cbn. by rewrite lookup_alter_ne.
  - split; [done|]. by etrans.
Qed.

Lemma set_room_close r g cs s : set_room r g (foldl close_client s cs) = foldl close_client (set_room r g s) cs.
Proof.
  revert s. induction cs as [|c cs IH]; intros s; [done|]. cbn. rewrite IH. f_equal. unfold close_client, of_client.
  cbn. by destruct (from_option _ _ _).
Qed.

(** The members of a room are distinct, and their channels are open. *)
Lemma members_open s r room : wf s → roomStore s !! r = Some room →
  NoDup (members r s).*2 ∧ ∀ c, c ∈ (members r s).*2 → of_client false (negb ∘ SendCh_closed) c s = true.
Proof.
  intros Hs Er. assert (∀ id c, (id, c) ∈ members r s → ∃ cl, clientStore s !! c = Some cl ∧ ClientId cl = id ∧ SendCh_closed cl = false) as Hm.
  { intros id c Hin. eapply (wf_member s Hs); [done|]. by eapply members_in. }
  split.
  - apply NoDup_fmap_2_strong; [|unfold members, of_room; rewrite Er; cbn; rewrite range_all; apply NoDup_map_to_list].
    intros [id c] [id' c'] H1 H2 E. cbn in E. subst c'. destruct (Hm _ _ H1) as (? & ? & <- & _), (Hm _ _ H2) as (? & ? & <- & _). congruence.
  - intros c ([id c'] & -> & Hin)%list_elem_of_fmap. destruct (Hm _ _ Hin) as (cl & Ec & _ & Ho). unfold of_client. cbn [snd]. rewrite Ec. cbn. by rewrite Ho.
Qed.

Lemma calm_CloseAllClients r : calm (CloseAllClients r).
Proof.
  apply calm_once. intros s Hl Hs. cbn [fst]. rewrite set_room_close.
  unfold lockable, of_room in Hl. destruct (roomStore s !! r) as [room|] eqn:Er; [|done]. cbn in Hl. apply bool_decide_eq_true in Hl.
  destruct (members_open s r room Hs Er) as [Hnd Ho]. set (g := λ room, room <| Clients := ∅ |>).
  assert (wf (set_room r g s)) as Hs'.
  { apply set_room_keeps; [|done]. intros room' Er'. split_and!; [done|apply map_empty_subseteq|intros n; exact (wf_locks s Hs r room' n Er')]. }
  assert (frame s (set_room r g s)) as Hf by (apply set_room_frame; congruence).
  destruct (close_clients_wf (members r s).*2 (set_room r g s) Hs' Hnd) as [Hw Hf']; [|split; [done|by etrans]].
  intros c Hc. split; [by apply Ho|]. intros r' room' id Er' Hid. cbn in Er'. destruct (decide (r' = r)) as [->|Hne].
  - rewrite lookup_alter_eq, Er in Er'. injection Er' as <-. cbn in Hid; by rewrite lookup_empty in Hid.
  - rewrite lookup_alter_ne in Er' by done. apply list_elem_of_fmap in Hc as ([id' c'] & -> & Hin). cbn in *.
    pose proof (members_in s r room id' c' Er Hin) as Hin'.
    destruct (wf_member s Hs _ _ _ _ Er' Hid) as (cl & Ecl & <- & _), (wf_member s Hs _ _ _ _ Er Hin') as (cl' & Ecl' & <- & _).
    apply Hne. apply (wf_home s Hs r' r room' room (ClientId cl)); [done..|]. by replace cl with cl' by congruence.
Qed.

Lemma calm_RemoveClient r id : calm (RemoveClient r id).
Proof. apply calm_locked. intros room. split_and!; [done..|]. apply delete_subseteq. Qed.

Lemma calm_removeRoom k : calm (removeRoom k).
Proof.
  apply calm_writes. intros s Hs. destruct (rooms s !! k) as [r|]; [|done]. case_bool_decide; [|done].
  apply service_wf; cbn; try done. intros k' r' [_ ?]%lookup_delete_Some. done.
Qed.

Lemma calm_GetOrCreateRoom k now : calm (GetOrCreateRoom k now).
Proof.
  apply calm_atomically. intros s Hs. destruct (rooms s !! k) as [r|] eqn:Ek; [done|]. cbn. pose proof Hs as [].
  destruct (wf_refs0 (nextRef s) ltac:(lia)) as [Hr Hc].
  assert (∀ r room, <[nextRef s:=NewCollabRoom k now]> (roomStore s) !! r = Some room →
    roomStore s !! r = Some room ∨ Clients room = ∅ ∧ readers room = ∅) as Hall.
  { intros r room [[<- <-]|[_ ?]]%lookup_insert_Some; [by right|by left]. }
  split; split; cbn; eauto.
  - intros k' r' [[<- <-]|[Hne Hk]]%lookup_insert_Some; [rewrite lookup_insert_eq; by eauto|].
    destruct (wf_rooms0 _ _ Hk) as (room & Er & ?). exists room. rewrite lookup_insert_ne; [done|congruence].
  - intros r room id c H1 H2. destruct (Hall _ _ H1) as [H1'|[E _]]; [eauto|]. by rewrite E, lookup_empty in H2.
  - intros r r' room room' id H1 H2 H3 H4.
    destruct (Hall _ _ H1) as [H1'|[E _]]; [|rewrite E, lookup_empty in H3; by destruct H3].
    destruct (Hall _ _ H2) as [H2'|[E _]]; [|rewrite E, lookup_empty in H4; by destruct H4]. eauto.
  - intros x Hx. rewrite lookup_insert_ne by lia. apply wf_refs0. lia.
  - intros r room n H1 H2. destruct (Hall _ _ H1) as [H1'|[_ E]]; [eauto|]. rewrite E in H2. set_solver.
  - intros r room Er Hne. exists room. split_and!; [|done..]. rewrite lookup_insert_ne; [done|congruence].
Qed.

(** A UUID is nobody's when it is made, and names at most one client. *)
Lemma safe_fresh T :
  safe wf holds T newUUID (λ T' id, ∃ n, id = uuid n ∧ T !! inr n = None ∧ T' = <[inr n := fresh]> T).
Proof.
  intros s Hs Ho. cbn. set (s' := s <| uuids := S (uuids s) |>).
  assert (wf s' ∧ frame s s') as [Hs' Hf] by (apply service_wf; cbn; auto with lia).
  assert (∀ v, ¬ holds s (inr (uuids s)) v) as Hn by (intros [|]; cbn; [by intros []|lia]).
  assert (T !! inr (uuids s) = None) as HT. { apply eq_None_not_Some. intros [v Hv]. by destruct (Hn v); apply Ho. }
  split; [done|]. exists (<[inr (uuids s) := fresh]> T). split; [|by exists (uuids s)]. split.
  - intros k v. destruct (decide (k = inr (uuids s))) as [->|Hne].
    + rewrite lookup_insert_eq. intros [= <-]. cbn. split; [lia|]. intros c cl Hc E.
      destruct (wf_named s Hs c cl Hc) as (n & Hlt & E'). rewrite E' in E. apply (inj uuid) in E. lia.
    + rewrite lookup_insert_ne by done. intros Hk. by eapply frame_holds, Ho.
  - intros k v Hk Hh. split; [by eapply frame_holds|]. rewrite lookup_insert_ne; [done|]. intros <-. by destruct (Hn v).
Qed.

Lemma add_client_wf s r cl n :
  wf s → lockable r s = true → holds s (inr n) fresh → ClientId cl = uuid n → SendCh_closed cl = false → SendCh cl = [] →
  wf (set_room r (λ room, room <| Clients := <[ClientId cl := nextRef s]> (Clients room) |>)
    (s <| clientStore := <[nextRef s := cl]> (clientStore s) |> <| nextRef := S (nextRef s) |>)).
Proof.
  intros Hs Hl [Hn Hun] Eid Ho Eq. pose proof Hs as [].
  unfold lockable, of_room in Hl. destruct (roomStore s !! r) as [room|] eqn:Er; [|done]. clear Hl.
  set (g := λ room, room <| Clients := <[ClientId cl := nextRef s]> (Clients room) |>).
  assert (∀ r' room' id c, alter g r (roomStore s) !! r' = Some room' → Clients room' !! id = Some c →
    (r' = r ∧ id = ClientId cl ∧ c = nextRef s) ∨ ∃ room0, roomStore s !! r' = Some room0 ∧ Clients room0 !! id = Some c) as Hall.
  { intros r' room' id c. destruct (decide (r' = r)) as [->|]; [rewrite lookup_alter_eq, Er|rewrite lookup_alter_ne by done; by eauto].
    intros [= <-] Hc. cbn in Hc. apply lookup_insert_Some in Hc as [[<- <-]|[_ ?]]; [by left|right; by eauto]. }
  assert (∀ r' room' id c, roomStore s !! r' = Some room' → Clients room' !! id = Some c → id ≠ ClientId cl) as Hother.
  { intros r' room' id c H1 H2 ->. destruct (wf_member0 _ _ _ _ H1 H2) as (cl' & Hc & E & _). apply (Hun c cl' Hc). congruence. }
  assert (∀ c cl', <[nextRef s:=cl]> (clientStore s) !! c = Some cl' →
    c = nextRef s ∧ cl' = cl ∨ clientStore s !! c = Some cl' ∧ ClientId cl' ≠ ClientId cl) as Hcs.
  { intros c cl' [[<- <-]|[_ Hc]]%lookup_insert_Some; [by left|right]. split; [done|]. rewrite Eid. by eapply Hun. }
  destruct (wf_refs0 (nextRef s) ltac:(lia)) as [_ Hnew]. split; cbn; try done.
  - intros k r' Hk. destruct (wf_rooms0 k r' Hk) as (room' & Er' & Es).
    destruct (decide (r' = r)) as [->|]; [rewrite lookup_alter_eq, Er|rewrite lookup_alter_ne by done; by eauto].
    exists (g room). split; [done|]. replace room with room' by congruence. done.
  - intros r' room' id c H1 H2. destruct (Hall _ _ _ _ H1 H2) as [(-> & -> & ->)|(room0 & H3 & H4)].
    + rewrite lookup_insert_eq. by eauto.
    + destruct (wf_member0 _ _ _ _ H3 H4) as (cl' & Hc & ?). rewrite lookup_insert_ne; [by eauto|congruence].
  - intros r1 r2 room1 room2 id H1 H2 [c1 H3] [c2 H4].
    destruct (Hall _ _ _ _ H1 H3) as [(-> & -> & ->)|(room3 & H5 & H6)], (Hall _ _ _ _ H2 H4) as [(-> & E & ->)|(room4 & H7 & H8)]; [done|..|by eauto].
    + by destruct (Hother _ _ _ _ H7 H8).
    + by destruct (Hother _ _ _ _ H5 H6).
  - intros c cl' Hc. destruct (Hcs _ _ Hc) as [[-> ->]|[Hc' _]]; [rewrite Eq; cbn; lia|eauto].
  - intros c cl' Hc. destruct (Hcs _ _ Hc) as [[-> ->]|[Hc' _]]; eauto.
  - intros c1 c2 cl1 cl2 H1 H2 E. destruct (Hcs _ _ H1) as [[-> ->]|[H1' ?]], (Hcs _ _ H2) as [[-> ->]|[H2' ?]]; [done|by rewrite E in *..|eauto].
  - intros x Hx. destruct (wf_refs0 x ltac:(lia)) as [Hx1 Hx2]. rewrite lookup_insert_ne by lia.
    split; [|done]. rewrite lookup_alter_ne; [done|congruence].
  - intros r' room' m Hr Hin. destruct (decide (r' = r)) as [->|]; [|rewrite lookup_alter_ne in Hr by done; by eauto].
    rewrite lookup_alter_eq, Er in Hr. injection Hr as <-. by eapply wf_locks0.
Qed.

Lemma safe_AddClient T r cl n :
  T !! inr n = None → ClientId cl = uuid n → SendCh_closed cl = false → SendCh cl = [] →
  safe wf holds (<[inr n := fresh]> T) (AddClient r cl) (λ T' _, T' = T).
Proof.
  intros HT Eid Ho Eq s Hs Hown. cbn. destruct (lockable r s) eqn:Hl; [|done].
  pose proof (Hown (inr n) fresh (lookup_insert_eq _ _ _)) as Hn.
  split; [by eapply add_client_wf|].
  assert (∀ k v, k ≠ inr n → holds s k v → holds (set_room r (λ room, room <| Clients := <[ClientId cl := nextRef s]> (Clients room) |>)
    (s <| clientStore := <[nextRef s := cl]> (clientStore s) |> <| nextRef := S (nextRef s) |>)) k v) as Hk.
  { intros [m|m] [r' mp|] Hne; cbn; [|done..|].
    - intros (room & Er & Hin & <-). assert (r' ≠ r) as Hr by (intros ->; rewrite (lockable_spec r s room) in Hin by done; set_solver).
      rewrite lookup_alter_ne by done. by eauto.
    - intros [Hlt Hun]. split; [done|]. intros c cl' [[<- <-]|[_ Hc]]%lookup_insert_Some; [|by eapply Hun].
      rewrite Eid. intros E%(inj uuid). congruence. }
  exists T. split; [|done]. split.
  - intros k v HTk. assert (k ≠ inr n) by (intros ->; congruence). apply Hk; [done|]. apply Hown. by rewrite lookup_insert_ne.
  - intros k v HTk Hh. apply lookup_insert_None in HTk as [HTk Hne]. split; [by apply Hk|done].
Qed.

Lemma calm_new_client {A} r (f : jsstr → RelayClient) (k : jsstr → nat → proc Relay A) :
  (∀ id, ClientId (f id) = id ∧ SendCh_closed (f id) = false ∧ SendCh (f id) = []) → (∀ id c, calm (k id c)) →
  calm (id ← newUUID; c ← AddClient r (f id); k id c).
Proof.
  intros Hf Hk T. apply safe_bind. eapply safe_mono; [apply safe_fresh|]. intros T' id (n & -> & HT & ->).
  apply safe_bind. destruct (Hf (uuid n)) as (? & ? & ?). eapply safe_mono; [by apply safe_AddClient|].
  intros ? c ->. apply Hk.
Qed.

Lemma calm_receive c : calm (receive c).
Proof.
  intros T s Hs Ho. cbn. destruct (clientStore s !! c) as [cl|] eqn:Ec; [|done]. destruct (SendCh cl) as [|e q] eqn:Eq.
  - destruct (SendCh_closed cl); [|done]. split; [done|]. exists T. by split.
  - destruct (set_client_wf c (λ cl, cl <| SendCh := q |>) s) as [Hw Hf]; [|done|].
    + rewrite Ec. intros ? [= <-]. split_and!; [done|by left|]. rewrite Eq. cbn. lia.
    + split; [done|]. exists T. split; [|done]. split; [intros k v Hk|intros k v Hk Hh; split; [|done]]; by eapply frame_holds; eauto.
Qed.
End invariant.

(** ** Handlers *)

Create HintDb calm.
#[export] Hint Resolve calm_ret calm_reads calm_newUUID calm_BroadcastToAll calm_BroadcastExcept calm_SendEach
  calm_CloseAllClients calm_RemoveClient calm_removeRoom calm_GetOrCreateRoom calm_receive : calm.

(** Goes through a handler, leaving the steps no hint knows. *)
Ltac calm_step :=
  match goal with
  | |- calm (mbind _ _) => apply calm_bind; [|intros ?]
  | |- calm (whenp _ _) => apply calm_whenp
  | |- calm (match ?x with _ => _ end) => destruct x
  | |- calm (once _ (λ s, (s, _))) => apply calm_once_reads
  | |- calm (once (lockable _) (λ _, (set_room _ _ _, _))) => apply calm_locked; intros ?; by split_and!
  | |- calm (writes _) => apply calm_writes; intros ?; apply service_wf; by cbn
  | |- calm _ => solve [eauto with calm]
  end.
Ltac calm_go := repeat calm_step.

Section handlers.
Context {G : GoRuntime} {L : GoLaws G}.

Lemma calm_announce r id body : calm (announce r id body).
Proof. unfold announce. calm_go. Qed.

Lemma calm_refuse code msg : calm (refuse code msg).
Proof. unfold refuse, errorEvent. calm_go. Qed.

Lemma calm_resolve k hint : calm (resolve_session k hint).
Proof. unfold resolve_session, FindSessionByHint. calm_go. Qed.

Lemma calm_crown r c : calm (crown r c).
Proof.
  apply calm_once. intros s Hl Hs. cbn.
  set (s' := set_client c _ s). assert (wf s' ∧ frame s s') as [Hs' Hf].
  { apply set_client_wf; [|done]. intros. split_and!; [done|by left|done]. }
  split; [apply set_room_keeps; [|done]|etrans; [exact Hf|]; apply set_room_frame; cbn; by intros].
  intros room Er. split_and!; [done..|]. intros n. exact (wf_locks s' Hs' r room n Er).
Qed.

Lemma calm_transfer r c id : calm (transfer r c id).
Proof. apply calm_bind; [apply calm_crown|intros ?; apply calm_announce]. Qed.
#[local] Hint Resolve calm_announce calm_refuse calm_resolve calm_transfer : calm.

Lemma adopt_core join id room :
  SessionId (adopt join id room) = SessionId room ∧ readers (adopt join id room) = readers room ∧
  Clients (adopt join id room) = Clients room.
Proof. unfold adopt. destruct (JoinRoom_isOwner join), (Metadata room) eqn:Em, (Title room) eqn:Et; cbn; rewrite ?Em, ?Et; cbn; rewrite ?Et; by split_and!. Qed.

Lemma calm_adopt r join id : calm (once (lockable r) (λ s, (set_room r (adopt join id) s, tt))).
Proof. apply calm_locked. intros room. destruct (adopt_core join id room) as (-> & -> & ->). by split_and!. Qed.
#[local] Hint Resolve calm_adopt : calm.

Lemma calm_admit cfg ctx join k r enc : calm (admit_client cfg ctx join k r enc).
Proof. unfold admit_client, GetPeerInfo. apply calm_bind; [calm_go|intros peers]. apply calm_new_client; [by intros|intros id c]. calm_go. Qed.
#[local] Hint Resolve calm_admit : calm.

Lemma calm_handleJoin cfg ctx now join : calm (handleJoin cfg ctx now join).
Proof. unfold handleJoin, join_room, index_hint, ClientCount. calm_go. Qed.

Lemma calm_handleLeave id reason : calm (handleLeave id reason).
Proof. unfold handleLeave, stay, findRoomForClient, ClientCount, end_room, left_reply, FindByBrowserId. calm_go. Qed.

Lemma calm_handleBroadcast id a ev : calm (handleBroadcast id a ev).
Proof. unfold handleBroadcast, findRoomForClient, broadcast_effect, deliverAddressed. calm_go. Qed.

Lemma calm_HandleAction cfg ctx now a : calm (HandleAction cfg ctx now a).
Proof.
  unfold HandleAction, handlePresence, findRoomForClient. repeat (calm_step || apply calm_handleJoin || apply calm_handleLeave || apply calm_handleBroadcast).
Qed.

Lemma calm_DeliverAppMessage k from msg : calm (DeliverAppMessage k from msg).
Proof. unfold DeliverAppMessage, deliverAddressed. calm_go. Qed.

(** ** Every schedule *)

(** Who uses the service: connections acting for their clients, a server that
    embeds it, and whoever drains a client's channel. *)
Inductive Request :=
  | Act (ctx : option Principal) (now : Timestamp) (action : CollabAction)
  | Embed (sessionId fromClientId : jsstr) (msg : AppMessage)
  | Drain (client : nat).

Inductive Answer := Acted (r : Result) | Embedded (failure : option jsstr) | Drained (event : option RelayEvent).

Definition goroutine (cfg : ServiceConfig) (q : Request) : proc Relay Answer :=
  match q with
  | Act ctx now action => r ← HandleAction cfg ctx now action; mret (Acted r)
  | Embed k from msg => r ← DeliverAppMessage k from msg; mret (Embedded r)
  | Drain c => e ← receive c; mret (Drained e)
  end.

Definition after (cfg : ServiceConfig) (requests : list Request) (turns : list nat) : Relay :=
  shared (schedule turns (mkThreads NewCollabService (goroutine cfg <$> requests))).

Lemma new_wf : wf NewCollabService.
Proof. by split. Qed.

Lemma calm_goroutine cfg q : calm (goroutine cfg q).
Proof. destruct q; apply calm_bind; eauto using calm_HandleAction, calm_DeliverAppMessage with calm. Qed.

Lemma after_wf cfg requests turns : wf (after cfg requests turns).
Proof.
  unfold after. apply (safe_schedule wf holds); [apply new_wf|]. apply Forall_fmap, Forall_true. intros q.
  eapply safe_mono; [apply calm_goroutine|done].
Qed.
End handlers.
