(* ===== verification/RelayDemo.v ===== *)
(** * Runs of the relay

    A Go runtime to run the relay's handlers on, requests of three peers, and
    the relay after they have met in a room: the examples of the relay's
    theorems. *)

From S2P Require Import Prelude JsText JsMap Models Concurrency Relay RelayInvariants.
Open Scope Z_scope.

#[export] Instance runtime : GoRuntime := {|
  uuid n := [N.of_nat (97 + n)]; range _ m := map_to_list m; decoded_map l := Some l
|}.

#[export] Instance laws : GoLaws runtime.
Proof.
  split; cbn; try done. intros n n' [= E]. lia.
Qed.

Definition epoch : Timestamp := mkTimestamp 0 0.
Definition acts (id : jsstr) (a : CollabAction_action_case) : Request := Act None epoch (mkCollabAction [] id 0 a).
Definition join (name room browser : jsstr) (isOwner encrypted : bool) (version : Z) : JoinRoom :=
  mkJoinRoom room name [] (js "browser") [] isOwner browser [] version encrypted (js "Plan") false.
Definition joins (name room browser : jsstr) (isOwner : bool) : Request := acts [] (act_join (join name room browser isOwner false 2)).
Definition text (id body : jsstr) : Request := acts id (act_textUpdate (mkTextUpdate body 0 0)).
Definition leaves (id : jsstr) : Request := acts id (act_leave (mkLeaveRoom [])).

(** The goroutines of some requests one after the other, each to its end. *)
Definition in_turn (l : list nat) : list nat := l ≫= λ i, replicate 40 i.

(** What the goroutines have come to, and the relay with them. *)
Definition played (cfg : ServiceConfig) (requests : list Request) (turns : list nat) : threads Relay Answer :=
  schedule turns (mkThreads NewCollabService (goroutine cfg <$> requests)).
Definition answer (t : threads Relay Answer) (i : nat) : option Answer :=
  match pool t !! i with Some (Done a) => Some a | _ => None end.

(** ada, bob and cy, as the relay names them when they join in turn. *)
Definition ada : jsstr := [97%N].
Definition bob : jsstr := [100%N].
Definition cy : jsstr := [103%N].
Definition trio : list Request := [joins (js "ada") (js "r") (js "b1") true; joins (js "bob") (js "r") (js "b2") false; joins (js "cy") (js "r") (js "b3") false].
Definition queue (c : nat) (s : Relay) : list RelayEvent := of_client [] SendCh c s.

(** Two tabs of ada's browser, and bob. *)
Definition tabs : list Request :=
  [joins (js "ada") (js "r") (js "b1") true; joins (js "ada") (js "r") (js "b1") false; joins (js "bob") (js "r") (js "b2") false].

(** The relay when all who ask have joined in turn, its first room, and its clients. *)
Definition hall (requests : list Request) : Relay := after default_service requests (in_turn (seq 0 (length requests))).
Definition hall_room (requests : list Request) : CollabRoom := default (NewCollabRoom [] epoch) (roomStore (hall requests) !! 0%nat).
Definition hall_client (requests : list Request) (c : nat) : RelayClient :=
  default (new_client None (join [] [] [] false false 0) [] []) (clientStore (hall requests) !! c).

Lemma hall_wf requests : wf (hall requests).
Proof. apply after_wf. Qed.

Definition quiet (s : Relay) : bool := forallb (λ p, bool_decide (readers p.2 = ∅)) (map_to_list (roomStore s)).

Lemma quiet_spec s : quiet s = true → ∀ r room, roomStore s !! r = Some room → readers room = ∅.
Proof.
  intros Hall r room Hr%elem_of_map_to_list. apply list_elem_of_In in Hr.
  apply (proj1 (forallb_forall _ _) Hall) in Hr. by apply bool_decide_eq_true in Hr.
Qed.
