(* ===== verification/RelayProperties.v ===== *)
(** * What the relay's handlers do

    The outcome of every action when its handler runs undisturbed: who joins
    and who is refused, who is told, what a leave ends. Then what remains of
    it when handlers race. *)

From S2P Require Import Prelude JsText JsMap Models Concurrency Relay RelayInvariants RelayDemo.
Open Scope Z_scope.

Section alone.
Context {G : GoRuntime} {L : GoLaws G}.
Implicit Types (s : Relay) (r c n : nat) (room : CollabRoom) (cl : RelayClient).

(** ** Deliveries *)

(** A client that is sent an event: it gets it, or becomes slow. *)
Definition receives (e : RelayEvent) cl : RelayClient :=
  if slow cl then cl
  else if (length (SendCh cl) <? sendCap)%nat then cl <| SendCh := SendCh cl ++ [e] |> else cl <| slow := true |>.

Lemma ClientId_receives e cl : ClientId (receives e cl) = ClientId cl.
Proof. unfold receives. by destruct (slow cl), (length (SendCh cl) <? sendCap)%nat. Qed.

Definition deliveries (l : list (nat * RelayEvent)) (st : gmap nat RelayClient) : gmap nat RelayClient :=
  foldl (λ st x, alter (receives x.2) x.1 st) st l.

Lemma deliveries_cons c e l st : deliveries ((c, e) :: l) st = deliveries l (alter (receives e) c st).
Proof. done. Qed.

Lemma deliveries_other l st c : c ∉ l.*1 → deliveries l st !! c = st !! c.
Proof.
  revert st. induction l as [|[c' e] l IH]; intros st Hc; [done|]. apply not_elem_of_cons in Hc as [Hne Hc].
  rewrite deliveries_cons, IH by done. by apply lookup_alter_ne.
Qed.

Lemma deliveries_in l st c e : NoDup l.*1 → (c, e) ∈ l → deliveries l st !! c = receives e <$> st !! c.
Proof.
  revert st. induction l as [|[c' e'] l IH]; intros st Hnd Hin; [by apply elem_of_nil in Hin|]. rewrite deliveries_cons.
  apply NoDup_cons in Hnd as [Hni Hnd]. apply elem_of_cons in Hin as [[= -> ->]|Hin].
  - rewrite deliveries_other by done. by rewrite lookup_alter_eq.
  - rewrite IH by done. rewrite lookup_alter_ne; [done|]. intros ->. apply Hni. by apply (list_elem_of_fmap_2' fst _ (c, e)).
Qed.

Definition is_open c s : Prop := ∃ cl, clientStore s !! c = Some cl ∧ SendCh_closed cl = false.

Lemma set_client_ext c g h s : (∀ cl, clientStore s !! c = Some cl → g cl = h cl) → set_client c g s = set_client c h s.
Proof. intros Hg. unfold set_client. by rewrite (alter_ext g h). Qed.

Lemma set_client_id c g s : (∀ cl, clientStore s !! c = Some cl → g cl = cl) → set_client c g s = s.
Proof. intros Hg. unfold set_client. rewrite alter_id by done. by destruct s. Qed.

Lemma alone_deliver c e s : is_open c s → alone (deliver c e) s = Some (set_client c (receives e) s, tt).
Proof.
  intros (cl & Hc & Ho). unfold deliver, isSlow. rewrite alone_bind, alone_reads. unfold of_client. rewrite Hc. cbn [from_option].
  assert (∀ g, g cl = receives e cl → set_client c g s = set_client c (receives e) s) as Hext.
  { intros g Hg. apply set_client_ext. intros ?. by rewrite Hc; intros [= <-]. }
  destruct (slow cl) eqn:Es.
  { cbn. rewrite <-(Hext (λ cl, cl)); [by rewrite set_client_id|]. unfold receives. by rewrite Es. }
  rewrite alone_bind, alone_atomically. unfold try_send. rewrite Hc, Ho.
  destruct (length (SendCh cl) <? sendCap)%nat eqn:El; cbn [alone whenp mret proc_ret].
  - rewrite Hext; [done|]. unfold receives. by rewrite Es, El.
  - unfold markSlow. rewrite alone_writes, Hext; [done|]. unfold receives. by rewrite Es, El.
Qed.

(** A loop of deliveries. *)
Lemma deliveries_open l st c : SendCh_closed <$> deliveries l st !! c = SendCh_closed <$> st !! c.
Proof.
  revert st. induction l as [|[c' e] l IH]; intros st; [done|]. rewrite deliveries_cons, IH.
  destruct (decide (c = c')) as [->|]; [rewrite lookup_alter_eq|by rewrite lookup_alter_ne].
  destruct (st !! c') as [cl|]; [|done]. cbn. unfold receives. by destruct (slow cl), (length (SendCh cl) <? sendCap)%nat.
Qed.

Definition with_clients (st : gmap nat RelayClient) s : Relay := s <| clientStore := st |>.

Lemma alone_each_deliver {B} (body : B → proc Relay unit) (target : B → option (nat * RelayEvent)) l s :
  (∀ x, body x = from_option (λ p, deliver p.1 p.2) (mret tt) (target x)) →
  (∀ c e, (c, e) ∈ omap target l → is_open c s) →
  alone (each body l) s = Some (with_clients (deliveries (omap target l) (clientStore s)) s, tt).
Proof.
  intros Hb. revert s. induction l as [|x l IH]; intros s Ho; [by destruct s|]. cbn [each]. rewrite alone_bind, Hb.
  destruct (target x) as [[c e]|] eqn:Et; cbn [from_option].
  - rewrite alone_deliver.
    2: { apply (Ho c e). cbn. rewrite Et. by left. }
    rewrite IH; [cbn; by rewrite Et|]. intros c' e' Hin.
    destruct (Ho c' e') as (cl & Ecl & Hcl); [cbn; rewrite Et; by right|].
    pose proof (deliveries_open [(c, e)] (clientStore s) c') as E. rewrite Ecl in E. cbn in E.
    unfold is_open. cbn. destruct (alter _ _ _ !! c') as [cl'|]; [|done]. injection E as E. exists cl'. split; [done|congruence].
  - rewrite alone_ret, IH; [cbn; by rewrite Et|]. intros c' e' Hin. apply (Ho c' e'). cbn. by rewrite Et.
Qed.

Lemma targets_NoDup {B} (target : B → option (nat * RelayEvent)) l :
  NoDup l → (∀ x y c e e', x ∈ l → y ∈ l → target x = Some (c, e) → target y = Some (c, e') → x = y) → NoDup (omap target l).*1.
Proof.
  induction l as [|x l IH]; intros Hnd Hinj; [apply NoDup_nil; done|]. apply NoDup_cons in Hnd as [Hni Hnd].
  assert (NoDup (omap target l).*1) as Hnd'. { apply IH; [done|]. intros y z c e e' Hy Hz. apply Hinj; by right. }
  cbn. destruct (target x) as [[c e]|] eqn:Et; [|done]. cbn. apply NoDup_cons. split; [|done].
  intros ([c' e'] & E & (y & Hy & Ety)%list_elem_of_omap)%list_elem_of_fmap. cbn in E. subst c'.
  apply Hni. rewrite (Hinj x y c e e'); [done|by left|by right|done..].
Qed.

(** ** A section of a read lock *)

Lemma alone_rlocked {A B} r (f : Relay → A) (body : A → proc Relay B) s room b st :
  wf s → roomStore s !! r = Some room →
  (∀ s', clientStore s' = clientStore s → alone (body (f s)) s' = Some (with_clients st s', b)) →
  alone (rlocked r f body) s = Some (with_clients st (s <| nextLock := S (nextLock s) |>), b).
Proof.
  intros Hs Er Hb. unfold rlocked, rlock. rewrite alone_bind, alone_once.
  2: { unfold is_room. by rewrite Er. }
  rewrite alone_bind, Hb by done. rewrite alone_bind. unfold runlock. rewrite alone_writes, alone_ret. do 2 f_equal.
  unfold set_room, with_clients. cbn. rewrite alter_alter_eq, alter_id; [done|].
  intros room'. rewrite Er. intros [= <-]. destruct room. unfold compose. cbn. f_equal.
  assert (nextLock s ∉ readers). { intros Hin. pose proof (wf_locks s Hs _ _ _ Er Hin). lia. }
  set_solver.
Qed.

(** ** Who is told

    [f id] is the event for the client [id]. Whatever order a [range] has,
    every client of the room that has one receives it, and nobody else. *)

Definition tell_client room (f : jsstr → option RelayEvent) c cl : RelayClient :=
  if bool_decide (Clients room !! ClientId cl = Some c) then from_option (λ e, receives e cl) cl (f (ClientId cl)) else cl.

Definition tell room (f : jsstr → option RelayEvent) s : Relay :=
  with_clients (map_imap (λ c cl, Some (tell_client room f c cl)) (clientStore s)) (s <| nextLock := S (nextLock s) |>).

Definition to_all (e : RelayEvent) (id : jsstr) : option RelayEvent := Some e.
Definition to_others (except : jsstr) (e : RelayEvent) (id : jsstr) : option RelayEvent :=
  if bool_decide (id = except) then None else Some e.
Definition to_each (ids : list jsstr) (build : jsstr → RelayEvent) (id : jsstr) : option RelayEvent :=
  if bool_decide (id ∈ ids) then Some (build id) else None.

Lemma deliveries_tell s r room f l :
  wf s → roomStore s !! r = Some room → NoDup l.*1 →
  (∀ c e, (c, e) ∈ l ↔ ∃ id, Clients room !! id = Some c ∧ f id = Some e) →
  with_clients (deliveries l (clientStore s)) (s <| nextLock := S (nextLock s) |>) = tell room f s.
Proof.
  intros Hs Er Hnd Hl. unfold tell. f_equal. apply map_eq. intros c. rewrite map_lookup_imap.
  destruct (decide (c ∈ l.*1)) as [Hin|Hni].
  - apply list_elem_of_fmap in Hin as ([c' e] & -> & Hin). cbn [fst]. rewrite (deliveries_in _ _ _ e) by done.
    apply Hl in Hin as (id & Hc & Hf). destruct (wf_member s Hs _ _ _ _ Er Hc) as (cl & Ecl & <- & _). rewrite Ecl. cbn.
    unfold tell_client. by rewrite Hf, bool_decide_eq_true_2.
  - rewrite deliveries_other by done. destruct (clientStore s !! c) as [cl|] eqn:Ec; [|done]. cbn. f_equal. unfold tell_client.
    case_bool_decide as Hc; [|done]. destruct (f (ClientId cl)) as [e|] eqn:Ef; [|done]. destruct Hni.
    apply (list_elem_of_fmap_2' fst _ (c, e)); [|done]. apply Hl. eauto.
Qed.

Lemma tell_lookup room f s c : clientStore (tell room f s) !! c = tell_client room f c <$> clientStore s !! c.
Proof. cbn. rewrite map_lookup_imap. by destruct (clientStore s !! c). Qed.

Lemma members_fst_NoDup r s room : roomStore s !! r = Some room → NoDup (members r s).*1.
Proof. unfold members, of_room. intros ->. cbn. rewrite range_all. apply NoDup_fst_map_to_list. Qed.

Lemma members_spec r s room id c : roomStore s !! r = Some room → (id, c) ∈ members r s ↔ Clients room !! id = Some c.
Proof. unfold members, of_room. intros ->. cbn. rewrite range_all. apply elem_of_map_to_list. Qed.

Lemma member_open s r room id c : wf s → roomStore s !! r = Some room → Clients room !! id = Some c → is_open c s.
Proof. intros Hs Er Hc. destruct (wf_member s Hs _ _ _ _ Er Hc) as (cl & ? & _ & ?). by exists cl. Qed.

(** A loop of deliveries under the room's read lock. *)
Lemma alone_told {A B X} r (f : Relay → A) (loop : A → proc Relay X) s room (tof : jsstr → option RelayEvent)
    (body : B → proc Relay unit) target l (b : X) :
  wf s → roomStore s !! r = Some room →
  (∀ s', alone (loop (f s)) s' = match alone (each body l) s' with Some (s2, _) => Some (s2, b) | None => None end) →
  (∀ x, body x = from_option (λ p, deliver p.1 p.2) (mret tt) (target x)) → NoDup l →
  (∀ x y c e e', x ∈ l → y ∈ l → target x = Some (c, e) → target y = Some (c, e') → x = y) →
  (∀ c e, (c, e) ∈ omap target l ↔ ∃ id, Clients room !! id = Some c ∧ tof id = Some e) →
  alone (rlocked r f loop) s = Some (tell room tof s, b).
Proof.
  intros Hs Er Hloop Hb Hnd Hinj Hl. rewrite <-(deliveries_tell s r room tof (omap target l)); [|done..|by apply targets_NoDup|done].
  apply (alone_rlocked _ _ _ s room); [done..|]. intros s' E. rewrite Hloop, (alone_each_deliver _ target), E; [done..|].
  intros c e (id & Hc & _)%Hl. destruct (member_open s r room id c Hs Er Hc) as (cl & Ecl & ?). exists cl. by rewrite E.
Qed.

Lemma members_NoDup r s room : roomStore s !! r = Some room → NoDup (members r s).
Proof. intros Er. eapply NoDup_fmap_1, members_fst_NoDup, Er. Qed.

(** Two members that are the same client are the same member. *)
Lemma members_inj r s room id id' c : wf s → roomStore s !! r = Some room →
  (id, c) ∈ members r s → (id', c) ∈ members r s → id = id'.
Proof.
  intros Hs Er H1%(members_in s r room) H2%(members_in s r room); [|done..].
  destruct (wf_member s Hs _ _ _ _ Er H1) as (? & ? & <- & _), (wf_member s Hs _ _ _ _ Er H2) as (? & ? & <- & _). congruence.
Qed.

Lemma alone_BroadcastToAll r e s room :
  wf s → roomStore s !! r = Some room → alone (BroadcastToAll r e) s = Some (tell room (to_all e) s, tt).
Proof.
  intros Hs Er. apply (alone_told _ _ _ _ _ _ (λ p, deliver p.2 e) (λ p, Some (p.2, e)) (members r s)); [done..| | | | |].
  - intros s'. by destruct (alone _ s') as [[? []]|].
  - by intros.
  - by eapply members_NoDup.
  - intros [id c] [id' c'] ? ? ? H1 H2 [= -> _] [= -> _]. f_equal. by eapply members_inj.
  - intros c e'. rewrite list_elem_of_omap. setoid_rewrite <-(members_spec r s room); [|done]. unfold to_all. split.
    + intros ([id c'] & Hin & [= -> ->]). eauto.
    + intros (id & Hin & [= ->]). by exists (id, c).
Qed.

Lemma alone_BroadcastExcept r e except s room :
  wf s → roomStore s !! r = Some room → alone (BroadcastExcept r e except) s = Some (tell room (to_others except e) s, tt).
Proof.
  intros Hs Er. set (mark := λ p : jsstr * nat, (of_client [] ClientId p.2 s, p.2)).
  assert (∀ p, p ∈ members r s → mark p = p) as Hmark.
  { intros [id c] Hin. unfold mark. cbn [snd]. destruct (wf_member s Hs r room id c Er) as (cl & Ec & <- & _); [by eapply members_in|].
    unfold of_client. by rewrite Ec. }
  assert (mark <$> members r s = members r s) as Hids.
  { rewrite <-(list_fmap_id (members r s)) at 2. apply list_fmap_ext. intros i p Hp. apply Hmark. by eapply list_elem_of_lookup_2. }
  apply (alone_told _ _ _ _ _ _ (λ p, whenp (negb (bool_decide (p.1 = except))) (deliver p.2 e))
    (λ p, if bool_decide (p.1 = except) then None else Some (p.2, e)) (members r s)); [done..| | | | |].
  - intros s'. fold mark. rewrite Hids. by destruct (alone _ s') as [[? []]|].
  - intros p. by case_bool_decide.
  - by eapply members_NoDup.
  - intros [id c] [id' c'] ? ? ? H1 H2. cbn. do 2 (case_bool_decide; [done|]). intros [= -> _] [= -> _]. f_equal. by eapply members_inj.
  - intros c e'. rewrite list_elem_of_omap. setoid_rewrite <-(members_spec r s room); [|done]. unfold to_others. split.
    + intros ([id c'] & Hin & E). cbn in E. case_bool_decide; [done|]. injection E as -> ->. exists id. by rewrite bool_decide_eq_false_2.
    + intros (id & Hin & E). case_bool_decide; [done|]. injection E as ->. exists (id, c). cbn. by rewrite bool_decide_eq_false_2.
Qed.

Lemma distinct_spec seen ids id : id ∈ distinct seen ids ↔ id ∈ ids ∧ id ∉ seen.
Proof.
  revert seen. induction ids as [|x ids IH]; intros seen; cbn; [set_solver|]. case_bool_decide as Hx.
  - rewrite IH. set_solver.
  - rewrite elem_of_cons, IH. destruct (decide (id = x)) as [->|]; set_solver.
Qed.

Lemma distinct_NoDup seen ids : NoDup (distinct seen ids).
Proof.
  revert seen. induction ids as [|x ids IH]; intros seen; cbn; [by apply NoDup_nil|]. case_bool_decide; [apply IH|].
  apply NoDup_cons. split; [|apply IH]. rewrite distinct_spec. set_solver.
Qed.

Lemma alone_SendEach r ids build s room :
  wf s → roomStore s !! r = Some room →
  alone (SendEach r ids build) s =
    Some (tell room (to_each ids build) s, filter (λ id, Clients room !! id = None) (distinct [] ids)).
Proof.
  intros Hs Er.
  apply (alone_told _ _ _ _ _ _ (λ id, match Clients room !! id with Some c => deliver c (build id) | None => mret tt end)
    (λ id, (λ c, (c, build id)) <$> Clients room !! id) (distinct [] ids)); [done..| | | | |].
  - intros s'. unfold of_room. rewrite Er. cbn [from_option]. rewrite alone_bind. by destruct (alone _ s') as [[? []]|].
  - intros id. by destruct (Clients room !! id).
  - apply distinct_NoDup.
  - intros id id' c e e' _ _. destruct (Clients room !! id) as [c1|] eqn:E1; [|done]. destruct (Clients room !! id') as [c2|] eqn:E2; [|done].
    intros [= -> _] [= -> _]. eapply members_inj; [done..| |]; by eapply members_spec.
  - intros c e. rewrite list_elem_of_omap. setoid_rewrite distinct_spec. unfold to_each. split.
    + intros (id & [Hin _] & E). exists id. destruct (Clients room !! id); [|done]. injection E as -> <-. by rewrite bool_decide_eq_true_2.
    + intros (id & Hc & E). case_bool_decide; [|done]. injection E as <-. exists id. rewrite Hc. split; [|done]. split; [done|apply not_elem_of_nil].
Qed.

(** ** Sequences of steps *)

Lemma alone_newUUID s : alone newUUID s = Some (s <| uuids := S (uuids s) |>, uuid (uuids s)).
Proof. unfold newUUID. by rewrite alone_atomically. Qed.

Lemma alone_locked {A} r (f : Relay → Relay * A) s room :
  roomStore s !! r = Some room → readers room = ∅ → alone (once (lockable r) f) s = Some (f s).
Proof. intros Er Hr. apply alone_once. unfold lockable, of_room. rewrite Er. cbn. by apply bool_decide_eq_true_2. Qed.

Lemma calm_alone {A} (p : proc Relay A) s s' a : calm p → wf s → alone p s = Some (s', a) → wf s'.
Proof. intros Hp Hs E. apply (safe_alone wf holds ∅ p _ s s' a (Hp ∅) Hs); [|exact E]. intros n v. by rewrite lookup_empty. Qed.

(** A client in its room, and no handler reading the room. *)
Record seated s r room (id : jsstr) c cl : Prop := {
  seat_wf : wf s;
  seat_listed : rooms s !! SessionId room = Some r;
  seat_room : roomStore s !! r = Some room;
  seat_free : readers room = ∅;
  seat_member : Clients room !! id = Some c;
  seat_client : clientStore s !! c = Some cl
}.

Lemma alone_findRoom s r room id c cl : seated s r room id c cl → alone (findRoomForClient id) s = Some (s, Some r).
Proof.
  intros []. unfold findRoomForClient. rewrite alone_reads. do 2 f_equal. unfold room_of.
  set (l := filter _ _). assert ((SessionId room, r) ∈ l) as Hin.
  { apply list_elem_of_filter. split; [|by apply elem_of_map_to_list]. unfold of_room. cbn. rewrite seat_room0. cbn. by rewrite seat_member0. }
  destruct l as [|[k r'] l'] eqn:El; [by apply elem_of_nil in Hin|]. cbn. f_equal.
  assert ((k, r') ∈ l) as Hin' by (rewrite El; by left). apply list_elem_of_filter in Hin' as [Hs' Hk]. cbn in Hs'.
  unfold of_room in Hs'. destruct (roomStore s !! r') as [room'|] eqn:Er'; cbn in Hs'; [|by rewrite lookup_empty in Hs'; destruct Hs'].
  apply (wf_home s seat_wf0 r' r room' room id); [done..|eauto].
Qed.

Lemma alone_nobody s id reason : room_of id s = None → alone (handleLeave id reason) s = Some (s, not_found id).
Proof. intros E. unfold handleLeave, findRoomForClient. rewrite alone_bind, alone_reads, E. done. Qed.
End alone.

Definition seated_check (requests : list Request) (id : jsstr) (c : nat) : bool :=
  let s := hall requests in let room := hall_room requests in
  bool_decide (rooms s !! SessionId room = Some 0%nat) && bool_decide (is_Some (roomStore s !! 0%nat)) &&
  bool_decide (readers room = ∅) && bool_decide (Clients room !! id = Some c) && bool_decide (is_Some (clientStore s !! c)).

Lemma hall_seated requests id c :
  seated_check requests id c = true → seated (hall requests) 0 (hall_room requests) id c (hall_client requests c).
Proof.
  unfold seated_check. rewrite !andb_true_iff, !bool_decide_eq_true. intros ((((? & [room Er]) & ?) & ?) & [cl Ec]).
  split; [apply hall_wf|done|unfold hall_room; by rewrite Er|done|done|unfold hall_client; by rewrite Ec].
Qed.

Create Rewrite HintDb alone.
#[export] Hint Rewrite @alone_bind @alone_reads @alone_writes @alone_ret @alone_newUUID @alone_atomically : alone.
Ltac alone_go := autorewrite with alone; cbn beta match.

Section messages.
Context {G : GoRuntime} {L : GoLaws G}.

(** The room's fields a broadcast action sets. *)
Definition room_after (a : CollabAction_action_case) (room : CollabRoom) : CollabRoom :=
  match a with
  | act_credentialsChanged x =>
      if bool_decide (CredentialsChanged_reason x = js "password_removed") then room <| Encrypted := false |> else room
  | act_titleChanged x => room <| Title := TitleChanged_title x |>
  | _ => room
  end.

Definition addressed (a : CollabAction_action_case) : bool :=
  match a with act_appMessage msg => negb (bool_decide (AppMessage_toClientIds msg = [])) | _ => false end.

Lemma set_room_id r g s room : roomStore s !! r = Some room → g room = room → set_room r g s = s.
Proof. intros Er E. unfold set_room. rewrite alter_id; [by destruct s|]. intros ?. rewrite Er. by intros [= <-]. Qed.

Lemma tell_clients room room' f s : Clients room = Clients room' → tell room f s = tell room' f s.
Proof. intros E. unfold tell, tell_client. by rewrite E. Qed.

Lemma room_after_core a room :
  SessionId (room_after a room) = SessionId room ∧ readers (room_after a room) = readers room ∧
  Clients (room_after a room) = Clients room.
Proof. destruct a; cbn; try done. by case_bool_decide. Qed.

Lemma alone_effect r a s room :
  roomStore s !! r = Some room → readers room = ∅ → alone (broadcast_effect r a) s = Some (set_room r (room_after a) s, tt).
Proof.
  intros Er Hr. assert (Some (s, tt) = Some (set_room r (λ room, room) s, tt)) as E by (by rewrite (set_room_id _ _ _ room)).
  destruct a; cbn [broadcast_effect]; try (rewrite alone_ret; exact E).
  - unfold whenp, room_after. destruct (bool_decide _); [by rewrite (alone_locked _ _ _ room)|exact E].
  - by rewrite (alone_locked _ _ _ room).
Qed.

Lemma HandleAction_broadcast cfg ctx now k id t a ev :
  broadcast_event a = Some ev → HandleAction cfg ctx now (mkCollabAction k id t a) = handleBroadcast id a ev.
Proof. intros H. destruct a; first [discriminate H | injection H as <-; reflexivity]. Qed.

(** Up to the fan-out, a broadcast takes an id and has its effect on the room. *)
Lemma handleBroadcast_start {A} s r room id c cl a (k : nat → jsstr → proc Relay A) :
  seated s r room id c cl →
  let s1 := set_room r (room_after a) (s <| uuids := S (uuids s) |>) in
  wf s1 ∧ roomStore s1 !! r = Some (room_after a room) ∧
  alone (eventId ← newUUID; broadcast_effect r a ;; k r eventId) s = alone (k r (uuid (uuids s))) s1.
Proof.
  intros Hseat s1. pose proof Hseat as [].
  assert (alone (newUUID ≫= λ _, broadcast_effect r a) s = Some (s1, tt)) as E.
  { alone_go. by rewrite (alone_effect r a _ room). }
  split_and!.
  - eapply calm_alone; [|exact seat_wf0|exact E]. apply calm_bind; [apply calm_newUUID|intros _]. unfold broadcast_effect. calm_go.
  - cbn. by rewrite lookup_alter_eq, seat_room0.
  - alone_go. by rewrite (alone_effect r a _ room).
Qed.

(** A message for everyone: every other client of the room receives it,
    nobody else does, the sender has no answer, and the room keeps what the
    message says of it (its title; that its password is gone). *)
Theorem broadcast_outcome cfg ctx now k t s r room id c cl a ev :
  seated s r room id c cl → broadcast_event a = Some ev → addressed a = false →
  alone (HandleAction cfg ctx now (mkCollabAction k id t a)) s =
    Some (tell room (to_others id (mkRelayEvent (uuid (uuids s)) id (rb_event ev)))
            (set_room r (room_after a) (s <| uuids := S (uuids s) |>)), NoReply).
Proof.
  intros Hseat Hev Ha. rewrite (HandleAction_broadcast _ _ _ _ _ _ _ ev) by done. unfold handleBroadcast.
  rewrite alone_bind, (alone_findRoom s r room id c cl) by done. cbn beta match.
  destruct (handleBroadcast_start s r room id c cl a (λ r eventId, BroadcastExcept r (mkRelayEvent eventId id (rb_event ev)) id ;; mret NoReply) Hseat)
    as (Hw & Er & E).
  rewrite <-(tell_clients (room_after a room) room) by apply room_after_core.
  etrans; [|etrans; [exact E|]].
  - destruct a as [| | | | | | | | | |msg|]; try reflexivity; cbn in Ha. by destruct (AppMessage_toClientIds msg).
  - cbn beta. by rewrite alone_bind, (alone_BroadcastExcept _ _ _ _ _ Hw Er), alone_ret.
Qed.

End messages.

Section join.
Context {G : GoRuntime} {L : GoLaws G}.
Implicit Types (s : Relay) (r c : nat) (room : CollabRoom).

Definition put_room r room s : Relay := s <| roomStore := <[r := room]> (roomStore s) |>.

Lemma set_room_put r g s room : roomStore s !! r = Some room → set_room r g s = put_room r (g room) s.
Proof.
  intros Er. unfold set_room, put_room. replace (alter g r (roomStore s)) with (<[r := g room]> (roomStore s)); [done|].
  apply map_eq. intros r'. destruct (decide (r' = r)) as [->|].
  - by rewrite lookup_insert_eq, lookup_alter_eq, Er.
  - by rewrite lookup_insert_ne, lookup_alter_ne.
Qed.

(** The relay with a new client [c] in the room, which has adopted what the
    join says of it. *)
Definition with_client ctx join k r room s : Relay :=
  let id := uuid (uuids s) in
  put_room r (adopt join id (room <| Clients := <[id := nextRef s]> (Clients room) |>))
    (s <| uuids := S (uuids s) |> <| clientStore := <[nextRef s := new_client ctx join k id]> (clientStore s) |>
       <| nextRef := S (nextRef s) |> <| peersActive := peersActive s + 1 |>).

Lemma with_client_wf ctx join k r room s :
  wf s → roomStore s !! r = Some room → readers room = ∅ →
  wf (with_client ctx join k r room s) ∧
  alone (id ← newUUID; c ← AddClient r (new_client ctx join k id); writes (λ s, s <| peersActive := peersActive s + 1 |>) ;;
    once (lockable r) (λ s, (set_room r (adopt join id) s, tt)) ;; mret (id, c)) s =
  Some (with_client ctx join k r room s, (uuid (uuids s), nextRef s)).
Proof.
  intros Hs Er Hr. set (p := id ← newUUID; _). assert (alone p s = Some (with_client ctx join k r room s, (uuid (uuids s), nextRef s))) as E.
  { unfold p, AddClient. rewrite alone_bind, alone_newUUID, alone_bind, (alone_locked _ _ _ room) by done. cbn beta match.
    rewrite alone_bind, alone_writes, alone_bind.
    set (room1 := room <| Clients := <[uuid (uuids s) := nextRef s]> (Clients room) |>).
    rewrite (set_room_put _ _ _ room) by done. rewrite (alone_locked _ _ _ room1); [|cbn; by rewrite lookup_insert_eq|done].
    rewrite alone_ret. do 2 f_equal. rewrite (set_room_put _ _ _ room1) by (cbn; by rewrite lookup_insert_eq).
    unfold with_client, put_room. cbn. by rewrite insert_insert_eq. }
  split; [|exact E]. eapply calm_alone; [|exact Hs|exact E]. apply calm_new_client; [by intros|]. intros id c. calm_go.
  apply calm_locked. intros room'. destruct (adopt_core join id room') as (-> & -> & ->). by split_and!.
Qed.

Lemma alone_admit cfg ctx join k r enc s room :
  wf s → roomStore s !! r = Some room → readers room = ∅ →
  let id := uuid (uuids s) in
  let room' := adopt join id (room <| Clients := <[id := nextRef s]> (Clients room) |>) in
  alone (admit_client cfg ctx join k r enc) s =
    Some ((tell room' (to_others id (mkRelayEvent (uuid (S (uuids s))) id (rb_peerJoined (nextRef s))))
             ((with_client ctx join k r room s) <| uuids := S (S (uuids s)) |>)) <| uuids := S (S (S (uuids s))) |>,
          Reply (mkRelayEvent (uuid (S (S (uuids s)))) []
            (rb_roomJoined id (snapshot (members r s) enc room') (MaxPeersPerRoom cfg) (ProtocolVersion cfg)))).
Proof.
  intros Hs Er Hr id room'. destruct (with_client_wf ctx join k r room s Hs Er Hr) as [Hw E].
  set (s1 := (with_client ctx join k r room s) <| uuids := S (S (uuids s)) |>).
  assert (wf s1) as Hs1 by (apply (service_wf (with_client ctx join k r room s)); [..|exact Hw]; cbn; auto with lia).
  assert (roomStore s1 !! r = Some room') as Er1 by (cbn; by rewrite lookup_insert_eq).
  pose (rest := λ q : jsstr * nat, eventId ← newUUID;
    BroadcastExcept r (mkRelayEvent eventId q.1 (rb_peerJoined q.2)) q.1 ;; eventId ← newUUID;
    room ← reads (λ s, roomStore s !! r);
    match room with
    | Some room => mret (Reply (mkRelayEvent eventId [] (rb_roomJoined q.1 (snapshot (members r s) enc room) (MaxPeersPerRoom cfg) (ProtocolVersion cfg))))
    | None => mret NoReply
    end).
  assert (∀ q s2, alone (id ← newUUID; c ← AddClient r (new_client ctx join k id); writes (λ s, s <| peersActive := peersActive s + 1 |>) ;;
    once (lockable r) (λ s, (set_room r (adopt join id) s, tt)) ;; mret (id, c)) s = Some (s2, q) →
    alone (admit_client cfg ctx join k r enc) s = alone (rest q) s2) as Hrest.
  { intros q s2 Eq. unfold admit_client, GetPeerInfo. rewrite alone_bind, alone_reads.
    cbn beta match in Eq |- *. rewrite alone_bind in Eq; rewrite alone_bind. destruct (alone newUUID s) as [[sa ida]|]; [|done].
    cbn beta match in Eq |- *. rewrite alone_bind in Eq; rewrite alone_bind. destruct (alone (AddClient _ _) sa) as [[sb cb]|]; [|done].
    cbn beta match in Eq |- *. rewrite alone_bind in Eq; rewrite alone_bind. rewrite alone_writes in Eq; rewrite alone_writes.
    cbn beta match in Eq |- *. rewrite alone_bind in Eq; rewrite alone_bind. destruct (alone (once (lockable r) _) _) as [[sd []]|]; [|done].
    cbn beta match in Eq |- *. rewrite alone_ret in Eq. injection Eq as <- <-. done. }
  rewrite (Hrest _ _ E). unfold rest. cbn [fst snd]. rewrite alone_bind, alone_newUUID. fold id. cbn beta match.
  change (uuids (with_client ctx join k r room s)) with (S (uuids s)). fold s1.
  rewrite alone_bind, (alone_BroadcastExcept _ _ _ s1 room') by done. cbn beta match.
  rewrite alone_bind, alone_newUUID, alone_bind, alone_reads. cbn beta match.
  set (sT := tell _ _ s1). change (roomStore _ !! r) with (roomStore s1 !! r).
  rewrite Er1. done.
Qed.

(** What the relay's rules say of a join. *)
Inductive Verdict := Admit | Refuse (code : jsstr) | Break (message : jsstr).

Definition clients_at (k : jsstr) s : gmap jsstr nat := from_option (λ r, of_room ∅ Clients r s) ∅ (rooms s !! k).

Definition room_at (k : jsstr) (now : Timestamp) s : CollabRoom :=
  default (NewCollabRoom k now) (r ← rooms s !! k; roomStore s !! r).

Definition room_verdict (cfg : ServiceConfig) (join : JoinRoom) (room : CollabRoom) : Verdict :=
  if (0 <? MaxPeersPerRoom cfg) && (MaxPeersPerRoom cfg <=? Z.of_nat (size (Clients room))) then Refuse (js "ROOM_FULL")
  else if JoinRoom_isOwner join && truthy (OwnerClientId room) && negb (bool_decide (OwnerBrowserId room = JoinRoom_browserId join))
       then Break (js "room already has an owner from a different browser")
  else if (Encrypted room || JoinRoom_isOwner join && JoinRoom_encrypted join) && (JoinRoom_protocolVersion join <? 2)
       then Refuse (js "PROTOCOL_VERSION_TOO_OLD")
  else Admit.

Definition join_verdict (cfg : ServiceConfig) (ctx : option Principal) (now : Timestamp) (join : JoinRoom) s : Verdict :=
  let k := JoinRoom_sessionId join in
  if negb (AllowsRoom ctx k) then Refuse (js "ROOM_FORBIDDEN")
  else if JoinRoom_mustExist join && negb (room_exists k s) then Refuse (js "ROOM_NOT_FOUND")
  else room_verdict cfg join (room_at k now s).

(** Nobody came, went or was told anything. *)
Definition undisturbed s s' : Prop := clientStore s' = clientStore s ∧ ∀ k, clients_at k s' = clients_at k s.

(** The client [c] came into the room [k] as [id]: those who were there have
    been told, and its answer lists them. *)
Definition came_in (cfg : ServiceConfig) (ctx : option Principal) (join : JoinRoom) (k : jsstr) s s' (res : Result) : Prop :=
  ∃ id c told answer snap,
    res = Reply (mkRelayEvent answer [] (rb_roomJoined id snap (MaxPeersPerRoom cfg) (ProtocolVersion cfg))) ∧
    snap_peers snap ≡ₚ map_to_list (clients_at k s) ∧ snap_sessionId snap = k ∧
    clients_at k s !! id = None ∧ clients_at k s' = <[id := c]> (clients_at k s) ∧
    (∀ k', k' ≠ k → clients_at k' s' = clients_at k' s) ∧
    clientStore s !! c = None ∧ clientStore s' !! c = Some (new_client ctx join k id) ∧
    ∀ c' cl, clientStore s !! c' = Some cl → clientStore s' !! c' =
      Some (if bool_decide (clients_at k s !! ClientId cl = Some c') then receives (mkRelayEvent told id (rb_peerJoined c)) cl else cl).

Definition follows (cfg : ServiceConfig) (ctx : option Principal) (join : JoinRoom) (k : jsstr) s s' (res : Result) (v : Verdict) : Prop :=
  match v with
  | Admit => came_in cfg ctx join k s s' res
  | Refuse code => undisturbed s s' ∧ ∃ eventId message, res = Reply (mkRelayEvent eventId [] (rb_event (ev_error (mkErrorEvent code message))))
  | Break message => undisturbed s s' ∧ res = Fail message
  end.

Lemma alone_refuse code msg s :
  alone (refuse code msg) s = Some (s <| uuids := S (uuids s) |>, Reply (mkRelayEvent (uuid (uuids s)) [] (rb_event (ev_error (mkErrorEvent code msg))))).
Proof. unfold refuse, errorEvent. rewrite !alone_bind, alone_newUUID. done. Qed.

Lemma clients_at_set r g s k : (∀ room, Clients (g room) = Clients room) → clients_at k (set_room r g s) = clients_at k s.
Proof.
  intros Hg. unfold clients_at. cbn. destruct (rooms s !! k) as [r'|]; [|done]. cbn. unfold of_room. cbn.
  destruct (decide (r' = r)) as [->|]; [|by rewrite lookup_alter_ne]. rewrite lookup_alter_eq.
  destruct (roomStore s !! r); [apply Hg|done].
Qed.

(** No client is called by a UUID that has not been made. *)
Lemma unnamed s c cl n : wf s → clientStore s !! c = Some cl → (uuids s <= n)%nat → ClientId cl ≠ uuid n.
Proof. intros Hs Hc Hn E. destruct (wf_named s Hs c cl Hc) as (m & Hm & E'). rewrite E' in E. apply (inj uuid) in E. lia. Qed.

Lemma clients_at_room s k r room : rooms s !! k = Some r → roomStore s !! r = Some room → clients_at k s = Clients room.
Proof. unfold clients_at, of_room. intros ->. cbn. by intros ->. Qed.

Lemma admit_came_in cfg ctx join k r enc s room :
  wf s → rooms s !! k = Some r → roomStore s !! r = Some room → readers room = ∅ →
  ∃ s' res, alone (admit_client cfg ctx join k r enc) s = Some (s', res) ∧ came_in cfg ctx join k s s' res.
Proof.
  intros Hs Hk Er Hr. rewrite (alone_admit _ _ _ _ _ _ _ room) by done. do 2 eexists. split; [done|].
  set (id := uuid (uuids s)). set (c := nextRef s). set (room1 := room <| Clients := <[id:=c]> (Clients room) |>).
  destruct (adopt_core join id room1) as (Esess & _ & Ecl). set (room' := adopt join id room1) in *.
  assert (Clients room !! id = None) as Hid.
  { apply eq_None_not_Some. intros [c' Hc']. destruct (wf_member s Hs _ _ _ _ Er Hc') as (cl & Ec & E & _). by apply (unnamed s c' cl (uuids s)). }
  destruct (wf_refs s Hs c) as [_ Hnew]; [lia|].
  exists id, c, (uuid (S (uuids s))), (uuid (S (S (uuids s)))), (snapshot (members r s) enc room').
  rewrite (clients_at_room s k r room) by done. split_and!; [done|..].
  - change (members r s ≡ₚ map_to_list (Clients room)). unfold members, of_room. rewrite Er. apply range_all.
  - cbn. rewrite Esess. cbn. destruct (wf_rooms s Hs k r Hk) as (room2 & Er2 & <-). congruence.
  - done.
  - etrans; [apply (clients_at_room _ k r room'); [exact Hk|apply lookup_insert_eq]|exact Ecl].
  - intros k' Hne. unfold clients_at, of_room. cbn. destruct (rooms s !! k') as [r'|] eqn:Hk'; [|done]. cbn.
    rewrite lookup_insert_ne; [done|]. intros <-. apply Hne.
    destruct (wf_rooms s Hs k r Hk) as (? & ? & <-), (wf_rooms s Hs k' r Hk') as (? & ? & <-). congruence.
  - done.
  - cbn. rewrite map_lookup_imap, lookup_insert_eq. cbn. f_equal. unfold tell_client, to_others. cbn. fold id.
    rewrite (bool_decide_eq_true_2 (id = id)) by done. by case_bool_decide.
  - intros c' cl Hc'. cbn. rewrite map_lookup_imap, lookup_insert_ne by (fold c; congruence). rewrite Hc'. cbn. f_equal.
    unfold tell_client. fold id c room1 room'. rewrite Ecl. cbn. pose proof (unnamed s c' cl (uuids s) Hs Hc' ltac:(lia)) as Hne. fold id in Hne.
    rewrite lookup_insert_ne by done. unfold to_others. by rewrite (bool_decide_eq_false_2 (ClientId cl = id)).
Qed.

(** Only who was where before matters. *)
Lemma follows_from cfg ctx join k s s1 s' res v :
  clientStore s1 = clientStore s → (∀ k, clients_at k s1 = clients_at k s) →
  follows cfg ctx join k s1 s' res v → follows cfg ctx join k s s' res v.
Proof.
  intros Hc Hk. destruct v; cbn.
  - intros (id & c & told & answer & snap & H). rewrite Hk, Hc in H. exists id, c, told, answer, snap.
    destruct H as (? & ? & ? & ? & ? & Hother & H). split_and!; try done; [|apply H..]. intros k' Hne. by rewrite Hother, Hk.
  - intros [[E1 E2] ?]. split; [|done]. split; [congruence|]. intros k'. by rewrite E2.
  - intros [[E1 E2] ?]. split; [|done]. split; [congruence|]. intros k'. by rewrite E2.
Qed.

Lemma alone_join_room cfg ctx join k r s room :
  wf s → rooms s !! k = Some r → roomStore s !! r = Some room → readers room = ∅ →
  ∃ s' res, alone (join_room cfg ctx join k r) s = Some (s', res) ∧ follows cfg ctx join k s s' res (room_verdict cfg join room).
Proof.
  intros Hs Hk Er Hr. unfold join_room, room_verdict.
  assert (alone (if 0 <? MaxPeersPerRoom cfg then reads (λ s, MaxPeersPerRoom cfg <=? count r s) else mret false) s =
    Some (s, (0 <? MaxPeersPerRoom cfg) && (MaxPeersPerRoom cfg <=? Z.of_nat (size (Clients room))))) as E1.
  { destruct (0 <? _); [|done]. rewrite alone_reads. unfold count, of_room. by rewrite Er. }
  rewrite alone_bind, E1. clear E1. cbn beta match. destruct (_ && _) eqn:Efull.
  { rewrite alone_bind, alone_newUUID, alone_bind. unfold ClientCount. rewrite alone_reads, alone_ret. do 2 eexists. split; [done|].
    split; [done|by eauto]. }
  set (ready := λ room, truthy (OwnerClientId room) && negb (bool_decide (OwnerBrowserId room = JoinRoom_browserId join))).
  assert (alone (if JoinRoom_isOwner join then once (lockable r) (λ s, (s, of_room false ready r s)) else mret false) s =
    Some (s, JoinRoom_isOwner join && truthy (OwnerClientId room) && negb (bool_decide (OwnerBrowserId room = JoinRoom_browserId join)))) as E2.
  { destruct (JoinRoom_isOwner join); [|done]. rewrite (alone_locked _ _ _ room) by done. unfold of_room. by rewrite Er. }
  rewrite alone_bind, E2. clear E2. cbn beta match. destruct (_ && negb _) eqn:Etaken.
  { rewrite alone_ret. do 2 eexists. by split. }
  set (enc := Encrypted room || JoinRoom_isOwner join && JoinRoom_encrypted join).
  set (g := λ room, room <| Encrypted := if JoinRoom_isOwner join && JoinRoom_encrypted join then true else Encrypted room |>).
  assert (alone (whenp (JoinRoom_isOwner join && JoinRoom_encrypted join)
    (once (lockable r) (λ s, (set_room r (λ room, room <| Encrypted := true |>) s, tt)))) s = Some (set_room r g s, tt)) as E3.
  { unfold g. destruct (JoinRoom_isOwner join && JoinRoom_encrypted join); cbn [whenp]; [by rewrite (alone_locked _ _ _ room)|].
    rewrite (set_room_id _ _ _ room); [done|done|by destruct room]. }
  set (s1 := set_room r g s) in *. assert (roomStore s1 !! r = Some (g room)) as Er1 by (cbn; by rewrite lookup_alter_eq, Er).
  assert (wf s1) as Hs1. { apply set_room_keeps; [|done]. intros room2 Er2. split_and!; [done..|]. intros n. exact (wf_locks s Hs r room2 n Er2). }
  assert (∀ k, clients_at k s1 = clients_at k s) as Hcl by (intros; by apply clients_at_set).
  assert (Encrypted (g room) = enc) as Eenc by (unfold g, enc; cbn; by destruct (JoinRoom_isOwner join && JoinRoom_encrypted join), (Encrypted room)).
  rewrite alone_bind, E3, alone_bind, alone_reads. cbn beta match.
  replace (of_room false Encrypted r s1) with enc by (unfold of_room; by rewrite Er1).
  destruct (enc && _) eqn:Eold.
  { rewrite alone_refuse. do 2 eexists. split; [done|]. split; [|by eauto]. split; [done|]. intros k'. apply (Hcl k'). }
  destruct (admit_came_in cfg ctx join k r enc s1 (g room)) as (s' & res & E & Hin); [done..|].
  exists s', res. split; [done|]. by apply (follows_from _ _ _ _ s s1).
Qed.

(** The room of a join, old or new. *)
Lemma alone_opened k now s :
  wf s → (∀ r room, roomStore s !! r = Some room → readers room = ∅) →
  ∃ s' r isNew room, alone (GetOrCreateRoom k now) s = Some (s', (r, isNew)) ∧
    wf s' ∧ rooms s' !! k = Some r ∧ roomStore s' !! r = Some room ∧ readers room = ∅ ∧ room_at k now s = room ∧
    clientStore s' = clientStore s ∧ ∀ k', clients_at k' s' = clients_at k' s.
Proof.
  intros Hs Hq. unfold room_at. unfold GetOrCreateRoom. rewrite alone_atomically. destruct (rooms s !! k) as [r|] eqn:Ek.
  - destruct (wf_rooms s Hs k r Ek) as (room & Er & _). exists s, r, false, room. cbn. rewrite Er. cbn. split_and!; eauto.
  - eexists _, _, _, (NewCollabRoom k now). split; [done|]. split_and!; [|apply lookup_insert_eq..|done|done|done|].
    + eapply calm_alone; [apply (calm_GetOrCreateRoom k now)|exact Hs|]. unfold GetOrCreateRoom. by rewrite alone_atomically, Ek.
    + intros k'. unfold clients_at, of_room. cbn. destruct (wf_refs s Hs (nextRef s)) as [Hnew _]; [lia|].
      destruct (decide (k' = k)) as [->|Hne]; [rewrite lookup_insert_eq, Ek; cbn; by rewrite lookup_insert_eq|].
      rewrite lookup_insert_ne by done. destruct (rooms s !! k') as [r'|] eqn:Ek'; [|done]. cbn.
      destruct (wf_rooms s Hs k' r' Ek') as (? & ? & _). rewrite lookup_insert_ne; [done|congruence].
Qed.

End join.

Section leave.
Context {G : GoRuntime} {L : GoLaws G}.
Implicit Types (s : Relay) (r c : nat) (room : CollabRoom) (cl : RelayClient).

(** The relay after the client has been taken out of its room. *)
Definition without r room (id : jsstr) s : Relay :=
  put_room r (room <| Clients := delete id (Clients room) |>) (s <| peersActive := peersActive s - 1 |>).

Lemma without_wf r room id s : wf s → roomStore s !! r = Some room → readers room = ∅ →
  wf (without r room id s) ∧ roomStore (without r room id s) !! r = Some (room <| Clients := delete id (Clients room) |>) ∧
  alone (RemoveClient r id ;; writes (λ s, s <| peersActive := peersActive s - 1 |>)) s = Some (without r room id s, tt).
Proof.
  intros Hs Er Hr. assert (alone (RemoveClient r id ;; writes (λ s, s <| peersActive := peersActive s - 1 |>)) s = Some (without r room id s, tt)) as E.
  { unfold RemoveClient. rewrite alone_bind, (alone_locked _ _ _ room), alone_writes by done. cbn beta match.
    by rewrite (set_room_put _ _ _ room). }
  split_and!; [|apply lookup_insert_eq|done]. eapply calm_alone; [|exact Hs|exact E]. calm_go.
Qed.

(** The leave up to where its ways part. *)
Lemma alone_leave_start s r room id c cl reason :
  seated s r room id c cl →
  let s1 := without r room id s in
  let n := Z.of_nat (size (delete id (Clients room))) in
  alone (handleLeave id reason) s = alone
    (if IsOwner cl && (0 <? n) then
       successor ← (if truthy (BrowserId cl) then FindByBrowserId r (BrowserId cl) id else mret None);
       match successor with
       | Some c => transfer r c id ;; stay r id reason (SessionId room) n
       | None => end_room r id (SessionId room)
       end
     else stay r id reason (SessionId room) n) s1.
Proof.
  intros Hseat s1 n. pose proof Hseat as []. destruct (without_wf r room id s) as (Hs1 & Er1 & E); [done..|].
  unfold handleLeave. rewrite alone_bind, (alone_findRoom s r room id c cl) by done. cbn beta match.
  assert (of_room ∅ Clients r s !! id ≫= (λ c, clientStore s !! c) = Some cl) as Hcl.
  { unfold of_room. rewrite seat_room0. cbn [from_option]. by rewrite seat_member0. }
  rewrite alone_bind, alone_reads, Hcl. cbn [from_option]. cbn beta match zeta.
  rewrite alone_bind in E. rewrite alone_bind. destruct (alone (RemoveClient r id) s) as [[s2 []]|]; [|done]. cbn beta match in E |- *.
  rewrite alone_bind, E. cbn beta match. fold s1. unfold ClientCount. rewrite alone_bind, alone_reads, alone_bind, alone_reads. cbn beta match.
  unfold count, of_room. fold s1 in Er1. rewrite Er1. done.
Qed.

Lemma alone_announce r id body s room :
  wf s → roomStore s !! r = Some room →
  alone (announce r id body) s =
    Some (tell room (to_all (mkRelayEvent (uuid (uuids s)) id body)) (s <| uuids := S (uuids s) |>), tt).
Proof.
  intros Hs Er. unfold announce. rewrite alone_bind, alone_newUUID. cbn beta match.
  rewrite (alone_BroadcastToAll _ _ _ room); [done| |done]. apply (service_wf s); cbn; auto with lia.
Qed.

Definition remove_room (k : jsstr) s : Relay :=
  s <| rooms := delete k (rooms s) |> <| hintIndex := filter (λ p, p.2 ≠ k) (hintIndex s) |> <| roomsActive := roomsActive s - 1 |>.

Lemma alone_removeRoom k r s room :
  rooms s !! k = Some r → roomStore s !! r = Some room →
  alone (removeRoom k) s = Some (if bool_decide (Clients room = ∅) then remove_room k s else s, tt).
Proof.
  intros Hk Er. unfold removeRoom. rewrite alone_writes, Hk. unfold of_room. rewrite Er. cbn [from_option]. by case_bool_decide.
Qed.

Lemma alone_stay r room k id reason s :
  wf s → rooms s !! k = Some r → roomStore s !! r = Some room →
  let n := Z.of_nat (size (Clients room)) in
  let s1 := tell room (to_all (mkRelayEvent (uuid (uuids s)) id (peer_left id reason n))) (s <| uuids := S (uuids s) |>) in
  alone (stay r id reason k n) s =
    Some ((if bool_decide (Clients room = ∅) then remove_room k s1 else s1) <| uuids := S (S (uuids s)) |>,
          Reply (mkRelayEvent (uuid (S (uuids s))) [] (peer_left id [] n))).
Proof.
  intros Hs Hk Er n s1. unfold stay. rewrite alone_bind, (alone_announce _ _ _ _ room) by done. cbn beta match. fold s1.
  assert (alone (whenp (n =? 0) (removeRoom k)) s1 = Some (if bool_decide (Clients room = ∅) then remove_room k s1 else s1, tt)) as E.
  { unfold n. destruct (Z.eqb_spec (Z.of_nat (size (Clients room))) 0) as [E|E]; cbn [whenp].
    - by rewrite (alone_removeRoom k r s1 room).
    - rewrite bool_decide_eq_false_2; [done|]. intros E'. rewrite E', map_size_empty in E. done. }
  rewrite alone_bind, E. cbn beta match. unfold left_reply. rewrite alone_bind, alone_newUUID. cbn beta match. rewrite alone_ret.
  by case_bool_decide.
Qed.

(** What the clients that are still in the room of [s] have been told, one
    event after the other; [s'] is the relay after. *)
Definition told room (es : list RelayEvent) s s' : Prop :=
  ∀ c cl, clientStore s !! c = Some cl → clientStore s' !! c =
    Some (if bool_decide (Clients room !! ClientId cl = Some c) then foldl (λ cl e, receives e cl) cl es else cl).

(** When a client leaves, or the last one does, the others are told how
    many remain, and so is the leaving client; an empty room is gone, with
    the hints that led to it. *)
Theorem leave_outcome s r room id c cl reason :
  seated s r room id c cl → IsOwner cl = false ∨ size (Clients room) = 1%nat →
  let others := delete id (Clients room) in
  let n := Z.of_nat (size others) in
  ∃ s' eventId answer, alone (handleLeave id reason) s = Some (s', Reply (mkRelayEvent answer [] (peer_left id [] n))) ∧
    clients_at (SessionId room) s' = others ∧
    (∀ k, k ≠ SessionId room → clients_at k s' = clients_at k s) ∧
    told (room <| Clients := others |>) [mkRelayEvent eventId id (peer_left id reason n)] s s' ∧
    (n = 0 → rooms s' !! SessionId room = None ∧ ∀ hint, hintIndex s' !! hint ≠ Some (SessionId room)).
Proof.
  intros Hseat Hcase others n. pose proof Hseat as []. destruct (without_wf r room id s) as (Hs1 & Er1 & _); [done..|].
  rewrite (alone_leave_start s r room id c cl) by done. set (s1 := without r room id s) in *. set (room1 := room <| Clients := others |>).
  fold others n. assert (IsOwner cl && (0 <? n) = false) as ->.
  { destruct Hcase as [->|Hone]; [done|]. unfold n, others. rewrite map_size_delete, seat_member0, Hone. by destruct (IsOwner cl). }
  pose proof (alone_stay r room1 (SessionId room) id reason s1 Hs1 seat_listed0 Er1) as E. cbn beta zeta in E.
  change (Clients room1) with others in E. fold n in E. rewrite E. clear E.
  set (s2 := tell room1 _ _). assert (∀ k, clients_at k s2 = if decide (k = SessionId room) then others else clients_at k s) as Hcl.
  { intros k. unfold clients_at, of_room. cbn. destruct (decide (k = SessionId room)) as [->|Hne].
    - rewrite seat_listed0. cbn. by rewrite lookup_insert_eq.
    - destruct (rooms s !! k) as [r'|] eqn:Ek; [|done]. cbn. rewrite lookup_insert_ne; [done|]. intros <-.
      destruct (wf_rooms s seat_wf0 k r Ek) as (? & ? & ?). congruence. }
  do 3 eexists. split; [done|]. split_and!.
  - unfold clients_at in *. cbn. case_bool_decide as He; [cbn; by rewrite lookup_delete_eq|].
    specialize (Hcl (SessionId room)). rewrite decide_True in Hcl by done. exact Hcl.
  - intros k Hne. specialize (Hcl k). rewrite decide_False in Hcl by done. rewrite <-Hcl.
    case_bool_decide; [|done]. unfold clients_at. cbn. by rewrite lookup_delete_ne.
  - intros c' cl' Hc'. replace (clientStore _) with (clientStore s2) by (by case_bool_decide).
    cbn. by rewrite map_lookup_imap, Hc'.
  - intros Hn. assert (others = ∅) as He by (apply map_size_empty_inv; lia). rewrite bool_decide_eq_true_2 by done. cbn.
    split; [apply lookup_delete_eq|]. intros hint [_ ?]%map_lookup_filter_Some. done.
Qed.

(** A member other than [id] that has the browser [b]. *)
Definition heir s room (id b : jsstr) (id2 : jsstr) (c2 : nat) : Prop :=
  Clients room !! id2 = Some c2 ∧ id2 ≠ id ∧ ∃ cl, clientStore s !! c2 = Some cl ∧ BrowserId cl = b.

Lemma no_heir s room id b :
  forallb (λ p, bool_decide (p.1 = id) || negb (bool_decide (of_client [] BrowserId p.2 s = b))) (map_to_list (Clients room)) = true →
  ∀ id2 c2, ¬ heir s room id b id2 c2.
Proof.
  intros Hall id2 c2 (Hc%elem_of_map_to_list & Hne & cl & Ecl & Eb). apply list_elem_of_In in Hc.
  apply (proj1 (forallb_forall _ _) Hall) in Hc. cbn in Hc. rewrite bool_decide_eq_false_2 in Hc by done. cbn in Hc.
  unfold of_client in Hc. rewrite Ecl in Hc. cbn in Hc. by rewrite bool_decide_eq_true_2 in Hc.
Qed.

Lemma alone_FindByBrowserId r b id s room :
  wf s → roomStore s !! r = Some room →
  ∃ o, alone (FindByBrowserId r b id) s = Some (s, o) ∧
    match o with Some c2 => ∃ id2, heir s room id b id2 c2 | None => ∀ id2 c2, ¬ heir s room id b id2 c2 end.
Proof.
  intros Hs Er. unfold FindByBrowserId. rewrite alone_reads. eexists. split; [done|]. set (l := filter _ _).
  assert (∀ c2, c2 ∈ l ↔ ∃ id2, heir s room id b id2 c2) as Hl.
  { intros c2. unfold l. rewrite list_elem_of_filter, list_elem_of_fmap. unfold of_client. split.
    - intros ([Hne Hb] & [id2 c] & -> & Hin). apply (members_spec r s room) in Hin; [|done]. exists id2.
      destruct (wf_member s Hs _ _ _ _ Er Hin) as (cl & Ecl & <- & _). cbn in Hne, Hb. rewrite Ecl in Hne, Hb. unfold heir. eauto.
    - intros (id2 & Hin & Hne & cl & Ecl & Hb). rewrite Ecl. cbn.
      destruct (wf_member s Hs _ _ _ _ Er Hin) as (cl' & Ecl' & E & _). replace cl' with cl in E by congruence. split; [by rewrite E|].
      exists (id2, c2). split; [done|]. by apply (members_spec r s room). }
  destruct l as [|c2 l']; cbn.
  - intros id2 c2 Hh. assert (c2 ∈ []) as Hin by (apply Hl; eauto). by apply elem_of_nil in Hin.
  - apply Hl. by left.
Qed.

(** The new owner, as the others see it from now on. *)
Definition crowned c2 (cl : RelayClient) c : RelayClient :=
  if bool_decide (c = c2) then cl <| info := (info cl) <| PeerInfo_isOwner := true |> |> else cl.

Lemma alone_transfer r room id id2 c2 s :
  wf s → roomStore s !! r = Some room → readers room = ∅ → Clients room !! id2 = Some c2 →
  let s1 := put_room r (room <| OwnerClientId := id2 |>) (set_client c2 (λ cl, cl <| info := (info cl) <| PeerInfo_isOwner := true |> |>) s) in
  wf s1 ∧ alone (transfer r c2 id) s =
    Some (tell room (to_all (mkRelayEvent (uuid (uuids s)) id (rb_event (ev_ownerChanged (mkOwnerChanged id2)))))
      (s1 <| uuids := S (uuids s) |>), tt).
Proof.
  intros Hs Er Hr Hc2 s1. destruct (wf_member s Hs _ _ _ _ Er Hc2) as (cl & Ecl & Eid & _).
  assert (alone (crown r c2) s = Some (s1, id2)) as E.
  { unfold crown. rewrite (alone_locked _ _ _ room) by done. unfold of_client. rewrite Ecl. cbn [from_option]. rewrite Eid.
    by rewrite (set_room_put _ _ _ room). }
  assert (wf s1) as Hs1 by (eapply calm_alone; [apply calm_crown|exact Hs|exact E]).
  unfold transfer.
  split; [done|]. rewrite alone_bind, E. cbn beta match.
  rewrite (alone_announce _ _ _ _ (room <| OwnerClientId := id2 |>)); [|done|apply lookup_insert_eq].
  by rewrite (tell_clients (room <| OwnerClientId := id2 |>) room).
Qed.

(** When the owner leaves while another tab of its browser is in the
    room, such a tab becomes the owner: the others are told so, and then that
    the old one has left. *)
Theorem owner_leave_transfers s r room id c cl reason :
  seated s r room id c cl → IsOwner cl = true → truthy (BrowserId cl) = true →
  let others := delete id (Clients room) in
  let n := Z.of_nat (size others) in
  (∃ id2 c2, heir s room id (BrowserId cl) id2 c2) →
  ∃ s' id2 c2 e1 e2 answer, heir s room id (BrowserId cl) id2 c2 ∧
    alone (handleLeave id reason) s = Some (s', Reply (mkRelayEvent answer [] (peer_left id [] n))) ∧
    clients_at (SessionId room) s' = others ∧
    of_room [] OwnerClientId r s' = id2 ∧
    told (room <| Clients := others |>)
      [mkRelayEvent e1 id (rb_event (ev_ownerChanged (mkOwnerChanged id2))); mkRelayEvent e2 id (peer_left id reason n)]
      (s <| clientStore := map_imap (λ c cl, Some (crowned c2 cl c)) (clientStore s) |>) s'.
Proof.
  intros Hseat Hown Hb others n (hid & hc & Hh). pose proof Hseat as []. destruct (without_wf r room id s) as (Hs1 & Er1 & _); [done..|].
  rewrite (alone_leave_start s r room id c cl) by done. set (s1 := without r room id s) in *. fold others n in Er1 |- *.
  set (room1 := room <| Clients := others |>) in *.
  assert (∀ id2 c2, heir s room id (BrowserId cl) id2 c2 ↔ heir s1 room1 id (BrowserId cl) id2 c2) as Hheir.
  { intros id2 c2. unfold heir. cbn. unfold others. rewrite lookup_delete_Some. naive_solver. }
  assert (others ≠ ∅) as Hne.
  { intros E. apply Hheir in Hh as [Hh _]. cbn in Hh. by rewrite E, lookup_empty in Hh. }
  assert ((0 <? n) = true) as Hn by (apply Z.ltb_lt; unfold n; apply map_size_non_empty_iff in Hne; lia).
  rewrite Hown, Hn, Hb. cbn beta match. destruct (alone_FindByBrowserId r (BrowserId cl) id s1 room1 Hs1 Er1) as (o & E & Ho).
  cbn [andb]. cbn match. rewrite alone_bind, E. cbn beta match. clear E. destruct o as [c2|]; [|by destruct (Ho hid hc); apply Hheir].
  destruct Ho as [id2 Hh2]. pose proof Hh2 as (Hc2 & Hne2 & cl2 & Ecl2 & Eb2).
  destruct (alone_transfer r room1 id id2 c2 s1 Hs1 Er1 seat_free0 Hc2) as [Hs2 E].
  pose proof (calm_alone _ _ _ _ (calm_transfer r c2 id) Hs1 E) as Hs3. rewrite alone_bind, E. cbn beta match. clear E.
  set (s2 := put_room r _ _) in *. set (e1 := mkRelayEvent _ id (rb_event (ev_ownerChanged _))).
  set (s3 := tell room1 (to_all e1) (s2 <| uuids := S (uuids s1) |>)) in *.
  set (room3 := room1 <| OwnerClientId := id2 |>).
  assert (rooms s3 !! SessionId room = Some r) as Hk3 by done.
  assert (roomStore s3 !! r = Some room3) as Er3 by apply lookup_insert_eq.
  pose proof (alone_stay r room3 (SessionId room) id reason s3 Hs3 Hk3 Er3) as E. cbn beta zeta in E.
  change (Clients room3) with others in E. fold n in E. rewrite E. clear E.
  rewrite bool_decide_eq_false_2 by done. set (s4 := tell room3 _ _).
  exists (s4 <| uuids := S (S (uuids s3)) |>), id2, c2, (uuid (uuids s1)), (uuid (uuids s3)), (uuid (S (uuids s3))).
  split; [by apply Hheir|]. split; [done|]. split; [|split].
  - etrans; [apply (clients_at_room _ _ r room3); [exact Hk3|exact Er3]|done].
  - unfold of_room. cbn. by rewrite lookup_insert_eq.
  - intros c' cl' Hc'. cbn in Hc'. rewrite map_lookup_imap in Hc'.
    destruct (clientStore s !! c') as [cl0|] eqn:Ec0; [|done]. cbn in Hc'. injection Hc' as <-.
    assert (clientStore s2 !! c' = Some (crowned c2 cl0 c')) as Es2.
    { unfold crowned. cbn. destruct (decide (c' = c2)) as [->|];
        [by rewrite lookup_alter_eq, Ec0, bool_decide_eq_true_2|by rewrite lookup_alter_ne, Ec0, bool_decide_eq_false_2]. }
    change (clientStore s4 !! c' = Some (if bool_decide (others !! ClientId (crowned c2 cl0 c') = Some c')
      then foldl (λ cl e, receives e cl) (crowned c2 cl0 c') [e1; mkRelayEvent (uuid (uuids s3)) id (peer_left id reason n)]
      else crowned c2 cl0 c')).
    assert (clientStore s3 !! c' = tell_client room1 (to_all e1) c' <$> clientStore s2 !! c') as Es3 by exact (tell_lookup room1 (to_all e1) (s2 <| uuids := S (uuids s1) |>) c').
    etrans; [apply tell_lookup|]. etrans; [apply f_equal, Es3|]. rewrite Es2. cbn [fmap option_fmap option_map]. f_equal. unfold tell_client at 2.
    change (Clients room1) with others. case_bool_decide as Hm; unfold tell_client; change (Clients room3) with others; cbn [to_all from_option].
    + rewrite ClientId_receives. by rewrite bool_decide_eq_true_2.
    + by rewrite bool_decide_eq_false_2.
Qed.

Definition closed cl : RelayClient := cl <| SendCh_closed := true |>.

Lemma close_clients s cs :
  NoDup cs → (∀ c, c ∈ cs → of_client false (negb ∘ SendCh_closed) c s = true) →
  foldl close_client s cs = with_clients (map_imap (λ c cl, Some (if bool_decide (c ∈ cs) then closed cl else cl)) (clientStore s)) s.
Proof.
  revert s. induction cs as [|c cs IH]; intros s Hnd Ho.
  - cbn. unfold with_clients. replace (map_imap _ _) with (clientStore s); [by destruct s|]. apply map_eq. intros c.
    rewrite map_lookup_imap. by destruct (clientStore s !! c).
  - apply NoDup_cons in Hnd as [Hni Hnd]. pose proof (Ho c ltac:(by left)) as Hc. unfold of_client in Hc.
    destruct (clientStore s !! c) as [cl|] eqn:Ec; [|done]. cbn in Hc. apply negb_true_iff in Hc.
    assert (close_client s c = set_client c closed s) as E.
    { unfold close_client, of_client. rewrite Ec. cbn. by rewrite Hc. }
    cbn [foldl]. rewrite E, IH; [|done|].
    + unfold with_clients. cbn. f_equal. apply map_eq. intros c'. rewrite !map_lookup_imap.
      destruct (decide (c' = c)) as [->|Hne].
      * rewrite lookup_alter_eq, Ec. cbn. rewrite bool_decide_eq_false_2 by done. rewrite bool_decide_eq_true_2 by (by left). done.
      * rewrite lookup_alter_ne by done. destruct (clientStore s !! c') as [cl'|]; [|done]. cbn. f_equal.
        rewrite (bool_decide_ext (c' ∈ c :: cs) (c' ∈ cs)); [done|]. rewrite elem_of_cons. naive_solver.
    + intros c' Hin. assert (c' ≠ c) by (by intros ->). specialize (Ho c' ltac:(by right)). unfold of_client in *. cbn. by rewrite lookup_alter_ne.
Qed.

(** When the owner leaves and no other tab of its browser is there, the
    session ends: every other client is told so and has its channel closed,
    and the room is gone. *)
Theorem owner_leave_ends s r room id c cl reason :
  seated s r room id c cl → IsOwner cl = true →
  let others := delete id (Clients room) in
  others ≠ ∅ → (truthy (BrowserId cl) = true → ∀ id2 c2, ¬ heir s room id (BrowserId cl) id2 c2) →
  ∃ s' e answer, alone (handleLeave id reason) s = Some (s', Reply (mkRelayEvent answer [] (peer_left id [] 0))) ∧
    rooms s' = delete (SessionId room) (rooms s) ∧ (∀ hint, hintIndex s' !! hint ≠ Some (SessionId room)) ∧
    (∀ c' cl', clientStore s !! c' = Some cl' → clientStore s' !! c' =
       Some (if bool_decide (others !! ClientId cl' = Some c')
             then closed (receives (mkRelayEvent e id (rb_event (ev_sessionEnded (mkSessionEnded (js "owner_disconnected"))))) cl')
             else cl')).
Proof.
  intros Hseat Hown others Hne Hno. pose proof Hseat as []. destruct (without_wf r room id s) as (Hs1 & Er1 & _); [done..|].
  rewrite (alone_leave_start s r room id c cl) by done. set (s1 := without r room id s) in *. fold others in Er1 |- *.
  set (room1 := room <| Clients := others |>) in *. set (n := Z.of_nat (size others)).
  assert ((0 <? n) = true) as Hn by (apply Z.ltb_lt; unfold n; apply map_size_non_empty_iff in Hne; lia).
  rewrite Hown, Hn. cbn [andb]. cbn match.
  assert (alone (if truthy (BrowserId cl) then FindByBrowserId r (BrowserId cl) id else mret None) s1 = Some (s1, None)) as E.
  { destruct (truthy (BrowserId cl)) eqn:Eb; [|done]. destruct (alone_FindByBrowserId r (BrowserId cl) id s1 room1 Hs1 Er1) as (o & E & Ho).
    rewrite E. destruct o as [c2|]; [|done]. destruct Ho as (id2 & Hin & Hne2 & Hcl). destruct (Hno eq_refl id2 c2).
    split; [|done]. cbn in Hin. unfold others in Hin. by apply lookup_delete_Some in Hin as [_ ?]. }
  rewrite alone_bind, E. cbn beta match. clear E. unfold end_room.
  rewrite alone_bind, (alone_announce _ _ _ _ room1) by done. cbn beta match.
  set (e := mkRelayEvent _ id _). set (s2 := tell room1 _ _).
  assert (wf s2) as Hs2.
  { eapply calm_alone; [apply (calm_announce r id (rb_event (ev_sessionEnded (mkSessionEnded (js "owner_disconnected")))))|exact Hs1|].
    by rewrite (alone_announce _ _ _ _ room1). }
  assert (roomStore s2 !! r = Some room1) as Er2 by done.
  destruct (members_open s2 r room1 Hs2 Er2) as [Hnd Hopen].
  unfold CloseAllClients. rewrite alone_bind, (alone_locked _ _ _ room1) by done. cbn beta match. rewrite close_clients by done.
  set (st := map_imap _ (clientStore s2)). rewrite (set_room_put _ _ _ room1) by done.
  set (s3 := put_room r _ _). set (room3 := room1 <| Clients := ∅ |>).
  rewrite alone_bind, (alone_removeRoom _ r _ room3); [|done|apply lookup_insert_eq]. cbn beta match.
  rewrite bool_decide_eq_true_2 by done. unfold left_reply. rewrite alone_bind, alone_newUUID, alone_ret.
  eexists _, (uuid (uuids s1)), _. split; [done|]. split_and!; [done|by intros hint [_ ?]%map_lookup_filter_Some|].
  intros c' cl' Hc'. change (st !! c' = Some (if bool_decide (others !! ClientId cl' = Some c') then closed (receives e cl') else cl')).
  unfold st. rewrite map_lookup_imap. assert (clientStore s2 !! c' = Some (tell_client room1 (to_all e) c' cl')) as Ec2.
  { etrans; [apply tell_lookup|]. by change (clientStore _ !! c') with (clientStore s !! c'); rewrite Hc'. }
  rewrite Ec2. cbn. f_equal.
  assert (c' ∈ (members r s2).*2 ↔ others !! ClientId cl' = Some c') as Hm.
  { rewrite list_elem_of_fmap. split.
    - intros ([id2 c2] & -> & Hin). apply (members_spec r s2 room1) in Hin; [|done].
      destruct (wf_member s2 Hs2 _ _ _ _ Er2 Hin) as (cl2 & E2 & <- & _). cbn [snd] in *. rewrite Ec2 in E2. injection E2 as <-.
      revert Hin. unfold tell_client. cbn. by case_bool_decide; rewrite ?ClientId_receives.
    - intros Hin. exists (ClientId cl', c'). split; [done|]. by apply (members_spec r s2 room1). }
  rewrite (bool_decide_ext _ _ Hm). unfold tell_client. change (Clients room1) with others. by case_bool_decide.
Qed.
End leave.

(** ** Witnesses *)

Lemma broadcast_outcome_witness :
  seated_check trio ada 1 = true ∧
  ∃ p, alone (HandleAction default_service None epoch (mkCollabAction [] ada 0 (act_textUpdate (mkTextUpdate (js "hi") 1 0)))) (hall trio) = Some p.
Proof.
  assert (seated_check trio ada 1 = true) as H by (vm_compute; reflexivity). split; [exact H|]. eexists.
  exact (broadcast_outcome default_service None epoch [] 0 (hall trio) 0 (hall_room trio) ada 1 (hall_client trio 1)
    (act_textUpdate (mkTextUpdate (js "hi") 1 0)) _ (hall_seated trio ada 1 H) eq_refl eq_refl).
Defined.



Lemma leave_outcome_witness :
  seated_check trio bob 2 = true ∧ ∃ s' answer, alone (handleLeave bob (js "bye")) (hall trio) =
    Some (s', Reply (mkRelayEvent answer [] (peer_left bob [] (Z.of_nat (size (delete bob (Clients (hall_room trio)))))))).
Proof.
  assert (seated_check trio bob 2 = true) as H by (vm_compute; reflexivity). split; [exact H|].
  destruct (leave_outcome (hall trio) 0 (hall_room trio) bob 2 (hall_client trio 2) (js "bye") (hall_seated trio bob 2 H)) as (s' & e & a & E & _).
  - left. vm_compute. reflexivity.
  - exists s', a. exact E.
Defined.

Lemma owner_leave_transfers_witness :
  seated_check tabs ada 1 = true ∧ ∃ s' id2 c2, heir (hall tabs) (hall_room tabs) ada (BrowserId (hall_client tabs 1)) id2 c2 ∧
    of_room [] OwnerClientId 0 s' = id2.
Proof.
  assert (seated_check tabs ada 1 = true) as H by (vm_compute; reflexivity). split; [exact H|].
  assert (IsOwner (hall_client tabs 1) = true) as Hown by (vm_compute; reflexivity).
  assert (truthy (BrowserId (hall_client tabs 1)) = true) as Hb by (vm_compute; reflexivity).
  assert (∃ id2 c2, heir (hall tabs) (hall_room tabs) ada (BrowserId (hall_client tabs 1)) id2 c2) as Hh.
  { exists bob, 2%nat. split; [vm_compute; reflexivity|]. split; [discriminate|]. exists (hall_client tabs 2). split; vm_compute; reflexivity. }
  destruct (owner_leave_transfers (hall tabs) 0 (hall_room tabs) ada 1 (hall_client tabs 1) [] (hall_seated tabs ada 1 H) Hown Hb Hh)
    as (s' & id2 & c2 & _ & _ & _ & Hheir & _ & _ & E & _).
  exists s', id2, c2. exact (conj Hheir E).
Defined.

Lemma owner_leave_ends_witness :
  seated_check trio ada 1 = true ∧ ∃ s', rooms s' = delete (SessionId (hall_room trio)) (rooms (hall trio)).
Proof.
  assert (seated_check trio ada 1 = true) as H by (vm_compute; reflexivity). split; [exact H|].
  assert (IsOwner (hall_client trio 1) = true) as Hown by (vm_compute; reflexivity).
  assert (delete ada (Clients (hall_room trio)) ≠ ∅) as Hne by (vm_compute; discriminate).
  assert (∀ id2 c2, ¬ heir (hall trio) (hall_room trio) ada (BrowserId (hall_client trio 1)) id2 c2) as Hno by
    (apply no_heir; vm_compute; reflexivity).
  destruct (owner_leave_ends (hall trio) 0 (hall_room trio) ada 1 (hall_client trio 1) [] (hall_seated trio ada 1 H) Hown Hne (λ _, Hno))
    as (s' & _ & _ & _ & E & _).
  exists s'. exact E.
Defined.
