(* ===== verification/RelaySafety.v ===== *)
(** * What holds however the relay's goroutines take turns

    Any number of connections, embedding servers and drains act at once. The
    relay's channels are never misused and its queues stay bounded; a peer's
    identity is one its relay was shown a token for; nobody opens a room that
    no token allows. Where one goroutine sends alone, what a client gets is an
    unbroken prefix of what it was sent. *)

From S2P Require Import Prelude JsText JsMap Models Concurrency Relay RelayInvariants RelayDemo.
Open Scope Z_scope.

(** ** Assertions on rooms and clients *)

(** An event that says nothing of who is in a room, unless by pointing to the
    client itself. *)
Definition plain_body (b : RelayBody) : Prop :=
  match b with rb_event (ev_peerJoined _) | rb_event (ev_roomJoined _) => False | _ => True end.
Definition plain (e : RelayEvent) : Prop := plain_body (re_body e).

(** An event that no client worded: nothing an application said. *)
Definition quiet_body (b : RelayBody) : Prop :=
  match b with rb_event (ev_appMessage _) => False | _ => plain_body b end.
Definition quiet (e : RelayEvent) : Prop := quiet_body (re_body e).

(** What is known of all that is queued: of quiet events there is nothing to
    know. *)
Class Tidings := { fine : RelayEvent → Prop; fine_quiet e : quiet e → fine e }.

#[export, refine] Instance plain_tidings : Tidings := {| fine := plain |}.
Proof. intros [x f b]. unfold quiet, plain. cbn. by destruct b as [| |[]]. Defined.

(** What a client says with an action it may say. *)
Definition may_say {T : Tidings} (from : jsstr) (a : CollabAction_action_case) : Prop :=
  match a with
  | act_appMessage msg => ∀ eventId to,
      fine (mkRelayEvent eventId from (rb_event (ev_appMessage (mkAppMessage (AppMessage_kind msg) (AppMessage_payload msg) to))))
  | _ => True
  end.

Lemma plain_may_say from a : may_say from a.
Proof. by destruct a. Qed.

(** What may become of a client once it is in the store. *)
Record same_peer {T : Tidings} (cl cl' : RelayClient) : Prop := {
  same_id : ClientId cl' = ClientId cl;
  same_identity : PeerInfo_identity (info cl') = PeerInfo_identity (info cl);
  same_queue e : e ∈ SendCh cl' → e ∈ SendCh cl ∨ fine e
}.

(** What an assertion has to meet for the relay's steps to keep it, other than
    those that open a room or add a client. *)
Class Settled {T : Tidings} (J : Relay → Prop) : Prop := {
  settled_same s s' : rooms s' = rooms s → clientStore s' = clientStore s → nextRef s' = nextRef s → J s → J s';
  settled_client s c g : (∀ cl, clientStore s !! c = Some cl → same_peer cl (g cl)) → J s → J (set_client c g s);
  settled_remove s s' k :
    rooms s' = delete k (rooms s) → clientStore s' = clientStore s → nextRef s' = nextRef s → J s → J s'
}.

(** What every such assertion survives. *)
Definition settles {T : Tidings} (f : Relay → Relay) : Prop := ∀ J, Settled J → ∀ s, J s → J (f s).

Class Facts {T : Tidings} {V} (K : Relay → V → Prop) : Prop := fact_settled v : Settled (λ s, K s v).
#[export] Existing Instance fact_settled.

(** Besides an assertion [J], facts [K] that last: once one holds, each step
    keeps it. *)
Section settled.
Context {G : GoRuntime} {T : Tidings} (occurs J : Relay → Prop) {HJ : Settled J} {V : Type} (K : Relay → V → Prop) {HK : Facts K}.

Definition lasts (s s' : Relay) : Prop := ∀ v, K s v → K s' v.
Definition steady {A} (p : proc Relay A) : Prop := surely occurs J lasts p (λ _, True).

Lemma steady_ret {A} (a : A) : steady (mret a).
Proof. done. Qed.

Lemma steady_bind {A B} (p : proc Relay A) (k : A → proc Relay B) : steady p → (∀ a, steady (k a)) → steady (p ≫= k).
Proof. intros Hp Hk. apply (surely_bind _ _ _ _ _ (λ _, True)); [done|]. intros a _. apply Hk. Qed.

Lemma steady_step {A} ready (f : Relay → Relay * A) :
  (∀ s, J s → J (f s).1 ∧ ∀ v, K s v → K (f s).1 v) → steady (once ready f).
Proof. intros Hf. apply surely_once. intros s _ Hs _. split; [by apply Hf|done]. Qed.

Lemma steady_once {A} ready (f : Relay → Relay * A) : settles (λ s, (f s).1) → steady (once ready f).
Proof. intros Hf. apply steady_step. intros s Hs. split; [by apply Hf|]. intros v. apply (Hf _ (HK v)). Qed.

Lemma steady_atomically {A} (f : Relay → Relay * A) : settles (λ s, (f s).1) → steady (atomically f).
Proof. intros Hf. by apply (steady_once (λ _, true)). Qed.

Lemma steady_reads {A} (f : Relay → A) : steady (reads f).
Proof. by apply steady_atomically; intros J'. Qed.

Lemma steady_writes (f : Relay → Relay) : settles f → steady (writes f).
Proof. intros Hf. by apply steady_atomically. Qed.

Lemma steady_whenp b p : steady p → steady (whenp b p).
Proof. by destruct b. Qed.

Lemma steady_each {B} (body : B → proc Relay unit) l : (∀ x, steady (body x)) → steady (each body l).
Proof. intros Hb. induction l as [|x l IH]; [done|]. apply steady_bind; [apply Hb|intros _; apply IH]. Qed.

(** A step that moves neither the map of rooms nor the clients. *)
Lemma steady_same {A} ready (f : Relay → Relay * A) :
  (∀ s, rooms (f s).1 = rooms s ∧ clientStore (f s).1 = clientStore s ∧ nextRef (f s).1 = nextRef s) → steady (once ready f).
Proof. intros Hf. apply steady_once. intros J' HJ' s Hs. destruct (Hf s) as (? & ? & ?). by eapply settled_same. Qed.

Lemma steady_same_writes (f : Relay → Relay) :
  (∀ s, rooms (f s) = rooms s ∧ clientStore (f s) = clientStore s ∧ nextRef (f s) = nextRef s) → steady (writes f).
Proof. intros Hf. by apply (steady_same (λ _, true)). Qed.

Lemma steady_newUUID : steady newUUID.
Proof. by apply (steady_same (λ _, true)). Qed.

Lemma steady_deliver c e : fine e → steady (deliver c e).
Proof.
  intros He. apply steady_bind; [apply steady_reads|]. intros [|]; [done|]. apply steady_bind.
  - apply steady_atomically. intros J' HJ' s Hs. unfold try_send. destruct (clientStore s !! c) as [cl|]; [|done].
    destruct (SendCh_closed cl); [by eapply settled_same; [| | |exact Hs]|]. destruct (_ <? _)%nat; [|done].
    apply settled_client; [|done]. intros cl' _. split; [done..|]. cbn. intros e' [?| ->%list_elem_of_singleton]%elem_of_app; auto.
  - intros b. apply steady_whenp, steady_writes. intros J' HJ' s. apply settled_client. split; [done..|]. auto.
Qed.

Lemma steady_rlocked {A B} r (f : Relay → A) (body : A → proc Relay B) : (∀ a, steady (body a)) → steady (rlocked r f body).
Proof.
  intros Hb. apply steady_bind; [by apply steady_same|]. intros [n a]. apply steady_bind; [apply Hb|]. intros b.
  apply steady_bind; [by apply steady_same_writes|done].
Qed.

Lemma steady_BroadcastToAll r e : fine e → steady (BroadcastToAll r e).
Proof. intros He. apply steady_rlocked. intros l. apply steady_each. intros p. by apply steady_deliver. Qed.

Lemma steady_BroadcastExcept r e id : fine e → steady (BroadcastExcept r e id).
Proof. intros He. apply steady_rlocked. intros l. apply steady_each. intros p. by apply steady_whenp, steady_deliver. Qed.

Lemma steady_SendEach r ids build : (∀ id, fine (build id)) → steady (SendEach r ids build).
Proof.
  intros He. apply steady_rlocked. intros cs. apply steady_bind; [|done]. apply steady_each. intros id.
  destruct (cs !! id); [by apply steady_deliver|done].
Qed.

Lemma close_clients_settled cs : settles (λ s, foldl close_client s cs).
Proof.
  intros J' HJ'. induction cs as [|c cs IH]; intros s Hs; [done|]. apply IH. unfold close_client.
  destruct (of_client _ _ _ _); [by eapply settled_same; [| | |exact Hs]|].
  apply settled_client; [|done]. split; [done..|]. auto.
Qed.

Lemma steady_CloseAllClients r : steady (CloseAllClients r).
Proof.
  apply steady_once. intros J' HJ' s Hs. eapply (settled_same (foldl close_client s (members r s).*2)); [done..|].
  by apply (close_clients_settled _ J').
Qed.

Lemma steady_removeRoom k : steady (removeRoom k).
Proof.
  apply steady_writes. intros J' HJ' s Hs. destruct (rooms s !! k); [|done]. case_bool_decide; [|done].
  by eapply settled_remove; [| | |exact Hs].
Qed.

Lemma steady_receive c : steady (receive c).
Proof.
  assert (∀ s s', (∀ J', Settled J' → J' s → J' s') → J s → J s' ∧ lasts s s') as Hstep.
  { intros s s' Hs' Hs. split; [by apply Hs'|]. intros v. apply (Hs' _ (HK v)). }
  intros s _ Hs. cbn. destruct (clientStore s !! c) as [cl|] eqn:Ec; [|done].
  destruct (SendCh cl) as [|e q] eqn:Eq; [destruct (SendCh_closed cl); [|done]|]; intros _; (split; [|done]; apply Hstep; [|done]); [done|].
  intros J' HJ'. apply settled_client. intros cl'. rewrite Ec. intros [= <-]. split; [done..|]. cbn. rewrite Eq. intros e' He'. left. by right.
Qed.
End settled.

Create HintDb steady.
#[export] Hint Extern 1 (fine _) => apply fine_quiet; exact I : steady.
#[export] Hint Extern 1 (quiet_body _) => exact I : steady.
#[export] Hint Resolve steady_ret steady_reads steady_newUUID steady_BroadcastToAll steady_BroadcastExcept steady_SendEach
  steady_CloseAllClients steady_removeRoom steady_receive : steady.

Ltac steady_step :=
  match goal with
  | |- steady _ _ _ (mbind _ _) => apply steady_bind; [|intros ?]
  | |- steady _ _ _ (whenp _ _) => apply steady_whenp
  | |- steady _ _ _ (match ?x with _ => _ end) => destruct x
  | |- steady _ _ _ (once _ _) => apply steady_same; [apply _..|]; by intros ?
  | |- steady _ _ _ (writes _) => apply steady_same_writes; [apply _..|]; by intros ?
  | |- steady _ _ _ _ => solve [eauto with steady]
  end.
Ltac steady_go := repeat steady_step.

Section handlers.
Context {G : GoRuntime} {T : Tidings} (occurs J : Relay → Prop) {HJ : Settled J} {V : Type} (K : Relay → V → Prop) {HK : Facts K}.

Lemma steady_announce r id body : quiet_body body → steady occurs J K (announce r id body).
Proof. intros Hb. apply steady_bind; [eauto with steady|]. intros n. by apply steady_BroadcastToAll, fine_quiet. Qed.

Lemma steady_refuse code msg : steady occurs J K (refuse code msg).
Proof. unfold refuse, errorEvent. steady_go. Qed.
#[local] Hint Resolve steady_announce steady_refuse : steady.

Lemma steady_transfer r c id : steady occurs J K (transfer r c id).
Proof.
  unfold transfer, crown. apply steady_bind; [|intros; by apply steady_announce].
  apply steady_once; [apply _..|]. intros J' HJ' s Hs. apply (settled_same (set_client c (λ cl, cl <| info := (info cl) <| PeerInfo_isOwner := true |> |>) s)); [done..|].
  apply settled_client; [|done]. split; [done..|]. auto.
Qed.
#[local] Hint Resolve steady_transfer : steady.

Lemma steady_handleLeave id reason : steady occurs J K (handleLeave id reason).
Proof. unfold handleLeave, stay, RemoveClient, findRoomForClient, ClientCount, end_room, left_reply, FindByBrowserId. steady_go. Qed.

Lemma steady_handleBroadcast id a ev : broadcast_event a = Some ev → may_say id a → steady occurs J K (handleBroadcast id a ev).
Proof.
  intros Hev Hsay. assert (∀ n, fine (mkRelayEvent n id (rb_event ev))) as Hfine.
  { intros n. destruct a; try discriminate Hev; injection Hev as <-; try (apply fine_quiet; exact I). destruct value. apply Hsay. }
  unfold handleBroadcast, findRoomForClient, broadcast_effect, deliverAddressed. destruct a; try discriminate Hev; steady_go.
Qed.

Lemma steady_DeliverAppMessage k from msg : may_say from (act_appMessage msg) → steady occurs J K (DeliverAppMessage k from msg).
Proof.
  intros Hsay. assert (∀ n, fine (mkRelayEvent n from (rb_event (ev_appMessage msg)))) as Hfine by (intros n; destruct msg; apply Hsay).
  unfold DeliverAppMessage, deliverAddressed. steady_go.
Qed.

(** A join may open rooms the principal is allowed, and add its client. *)
Definition opens (ctx : option Principal) (join : JoinRoom) (k : jsstr) : Prop :=
  AllowsRoom ctx (JoinRoom_sessionId join) = true ∧ (truthy (JoinRoom_sessionId join) = true → k = JoinRoom_sessionId join).

Lemma steady_join_room cfg ctx join k r :
  (∀ id, steady occurs J K (AddClient r (new_client ctx join k id))) → steady occurs J K (join_room cfg ctx join k r).
Proof.
  intros Hadd. unfold join_room, admit_client, ClientCount, GetPeerInfo. repeat (steady_step || apply Hadd).
Qed.

Lemma steady_handleJoin cfg ctx now join :
  (∀ k, opens ctx join k → steady occurs J K (GetOrCreateRoom k now)) →
  (∀ r k id, steady occurs J K (AddClient r (new_client ctx join k id))) → steady occurs J K (handleJoin cfg ctx now join).
Proof.
  intros Hopen Hadd. unfold handleJoin. destruct (AllowsRoom ctx (JoinRoom_sessionId join)) eqn:Ea; cbn [negb]; [|steady_go].
  assert (∀ k, (truthy (JoinRoom_sessionId join) = true → k = JoinRoom_sessionId join) → steady occurs J K (
    index_hint (JoinRoom_clientHint join) k ;;
    there ← (if JoinRoom_mustExist join then reads (room_exists k) else mret true);
    if negb there then refuse (js "ROOM_NOT_FOUND") (js "No room " ++ k ++ js " on this relay")
    else '(r, isNew) ← GetOrCreateRoom k now; whenp isNew (writes (λ s, s <| roomsActive := roomsActive s + 1 |>)) ;;
      join_room cfg ctx join k r)) as Hrest.
  { intros k Hk. unfold index_hint. assert (opens ctx join k) by done.
    repeat (steady_step || by apply Hopen || by apply steady_join_room). }
  unfold resolve_session. destruct (truthy (JoinRoom_sessionId join)) eqn:Et; [by apply Hrest|].
  unfold FindSessionByHint. apply steady_bind; [steady_go|intros k; by apply Hrest].
Qed.

Lemma steady_HandleAction cfg ctx now a :
  (∀ join, CollabAction_action a = act_join join →
     (∀ k, opens ctx join k → steady occurs J K (GetOrCreateRoom k now)) ∧ (∀ r k id, steady occurs J K (AddClient r (new_client ctx join k id)))) →
  may_say (CollabAction_clientId a) (CollabAction_action a) → steady occurs J K (HandleAction cfg ctx now a).
Proof.
  intros Hjoin Hsay. unfold HandleAction. destruct (CollabAction_action a) as [join| | | | | | | | | | |]; cbn [broadcast_event];
    lazymatch goal with
    | |- steady _ _ _ (handleBroadcast _ _ _) => by apply steady_handleBroadcast
    | |- steady _ _ _ (handleLeave _ _) => apply steady_handleLeave
    | |- steady _ _ _ (mret _) => apply steady_ret
    | _ => idtac
    end.
  - destruct (Hjoin join eq_refl). by apply steady_handleJoin.
  - unfold handlePresence, findRoomForClient. steady_go.
Qed.

End handlers.

(** Every schedule keeps what no request's join breaks. *)
Lemma after_settled {G : GoRuntime} J {HJ : Settled J} {V} (K : Relay → V → Prop) {HK : Facts K} cfg requests turns :
  J NewCollabService →
  (∀ ctx now a join, Act ctx now a ∈ requests → CollabAction_action a = act_join join →
     (∀ k, opens ctx join k → steady (λ _, True) J K (GetOrCreateRoom k now)) ∧
     (∀ r k id, steady (λ _, True) J K (AddClient r (new_client ctx join k id)))) →
  J (after cfg requests turns).
Proof.
  intros Hnew Hjoin. apply (surely_schedule (λ _, True) J (lasts K)); [done..|]. apply Forall_fmap, Forall_forall. intros q Hq.
  change (steady (λ _, True) J K (goroutine cfg q)).
  destruct q as [ctx now a|k from msg|c]; apply steady_bind; try by intros.
  - apply steady_HandleAction; [apply _..| |apply plain_may_say]. intros join. by apply Hjoin.
  - apply steady_DeliverAppMessage; [apply _..|apply (plain_may_say from (act_appMessage msg))].
  - by apply steady_receive.
Qed.

(** ** Under every schedule *)

Section schedules.
Context {G : GoRuntime}.

(** No facts. *)
Definition none (_ : Relay) (_ : unit) : Prop := False.
#[local] Instance none_facts : Facts none.
Proof. intros v. by split. Qed.

(** No goroutine that serves the rooms ever sends on a closed channel or closes
    one twice, which would end the program for every room. *)
Theorem relay_never_panics {L : GoLaws G} cfg requests turns : panicked (after cfg requests turns) = false.
Proof. apply wf_calm, after_wf. Qed.

(** C13: At all times the rooms are those their names say; a room's members
    are clients of those ids, with open channels, and in no other room; and
    no client's queue holds more than 64 events. *)
Theorem relay_rooms_consistent {L : GoLaws G} cfg requests turns :
  let s := after cfg requests turns in
  (∀ k r, rooms s !! k = Some r → ∃ room, roomStore s !! r = Some room ∧ SessionId room = k) ∧
  (∀ r room id c, roomStore s !! r = Some room → Clients room !! id = Some c →
     (∃ cl, clientStore s !! c = Some cl ∧ ClientId cl = id ∧ SendCh_closed cl = false) ∧
     ∀ r' room', roomStore s !! r' = Some room' → is_Some (Clients room' !! id) → r' = r) ∧
  (∀ c cl, clientStore s !! c = Some cl → (length (SendCh cl) <= sendCap)%nat).
Proof.
  intros s. pose proof (after_wf cfg requests turns) as Hs. fold s in Hs. split_and!; [apply Hs| |apply Hs].
  intros r room id c Er Hc. split; [by apply (wf_member s Hs r room)|]. intros r' room' Er' Hc'. by apply (wf_home s Hs r' r room' room id).
Qed.

Definition identified (P : option PeerIdentity → Prop) (s : Relay) : Prop :=
  ∀ c cl, clientStore s !! c = Some cl → P (PeerInfo_identity (info cl)).

#[export] Instance identified_settled {T : Tidings} P : Settled (identified P).
Proof.
  split; unfold identified; cbn.
  - by intros s s' _ -> _.
  - intros s c g Hg Hs c' cl. destruct (decide (c' = c)) as [->|]; [rewrite lookup_alter_eq|rewrite lookup_alter_ne by done; apply Hs].
    destruct (clientStore s !! c) as [cl0|] eqn:Ec; [|done]. cbn. intros [= <-]. rewrite (same_identity _ _ (Hg cl0 eq_refl)). by eapply Hs.
  - by intros s s' k _ -> _.
Qed.

(** The identity a room shows for a peer is the one of the token the
    peer's own connection presented, or none where it presented none. *)
Theorem identities_from_tokens cfg requests turns c cl :
  clientStore (after cfg requests turns) !! c = Some cl →
  ∃ ctx now a join, Act ctx now a ∈ requests ∧ CollabAction_action a = act_join join ∧
    PeerInfo_identity (info cl) = identity ctx.
Proof.
  set (P := λ i, ∃ ctx now a join, Act ctx now a ∈ requests ∧ CollabAction_action a = act_join join ∧ i = identity ctx).
  intros Hc. refine (after_settled (identified P) none cfg requests turns _ _ c cl Hc); [intros ? ?; cbn; by rewrite lookup_empty|].
  intros ctx now a join Hin Ha. split.
  - intros k _. apply (steady_step _ _ _ (λ _, true)). intros s Hs. split; [|done]. by destruct (rooms s !! k).
  - intros r k id. apply steady_step. intros s Hs. split; [|done]. intros c' cl' Hc'. cbn in Hc'. apply lookup_insert_Some in Hc' as [[_ <-]|[_ Hc']].
    + exists ctx, now, a, join. done.
    + by eapply Hs.
Qed.

#[export] Instance closed_settled k : Settled (λ s, rooms s !! k = None).
Proof.
  split; cbn.
  - by intros s s' -> _ _.
  - done.
  - intros s s' k' -> _ _ Hs. apply lookup_delete_None. by right.
Qed.

(** C14: A room that no joining connection's token allows is never opened. *)
Theorem forbidden_rooms_stay_closed cfg requests turns k :
  (∀ ctx now a join, Act ctx now a ∈ requests → CollabAction_action a = act_join join → AllowsRoom ctx k = false) →
  rooms (after cfg requests turns) !! k = None.
Proof.
  intros Hk. apply (after_settled (λ s, rooms s !! k = None) none); [done|]. intros ctx now a join Hin Ha. specialize (Hk _ _ _ _ Hin Ha). split.
  - intros k' [Hallow Hk']. assert (k' ≠ k) as Hne.
    { intros ->. destruct (truthy (JoinRoom_sessionId join)) eqn:Et.
      - rewrite <-Hk' in Hallow by done. congruence.
      - destruct (JoinRoom_sessionId join); [|done]. destruct ctx as [p|]; [|done]. unfold AllowsRoom in *. by destruct (Rooms p). }
    apply (steady_step _ _ _ (λ _, true)). intros s Hs. split; [|done]. destruct (rooms s !! k'); [done|]. cbn. by rewrite lookup_insert_ne.
  - intros r k' id. apply steady_step. by split.
Qed.
End schedules.

(** ** Witnesses *)

Lemma relay_never_panics_witness : panicked (hall trio) = false.
Proof. exact (relay_never_panics default_service trio (in_turn (seq 0 (length trio)))). Defined.

Lemma relay_rooms_consistent_witness : (length (SendCh (hall_client trio 2)) <= sendCap)%nat.
Proof.
  assert (clientStore (after default_service trio (in_turn (seq 0 (length trio)))) !! 2%nat = Some (hall_client trio 2)) as H by
    (vm_compute; reflexivity).
  exact (proj2 (proj2 (relay_rooms_consistent default_service trio (in_turn (seq 0 (length trio))))) 2%nat _ H).
Defined.

Lemma identities_from_tokens_witness :
  ∃ ctx now a join, Act ctx now a ∈ trio ∧ CollabAction_action a = act_join join ∧
    PeerInfo_identity (info (hall_client trio 2)) = identity ctx.
Proof.
  assert (clientStore (after default_service trio (in_turn (seq 0 (length trio)))) !! 2%nat = Some (hall_client trio 2)) as H by
    (vm_compute; reflexivity).
  exact (identities_from_tokens default_service trio (in_turn (seq 0 (length trio))) 2%nat _ H).
Defined.

(** A token for the rooms named [docs-...] does not open the room [r]. *)
Lemma forbidden_rooms_stay_closed_witness :
  let p := Some (mkPrincipal (js "alice") [] [js "docs-*"]) in
  let a := mkCollabAction [] [] 0 (act_join (join (js "ada") (js "r") (js "b1") true false 2)) in
  rooms (after default_service [Act p epoch a] (in_turn [0%nat])) !! js "r" = None.
Proof.
  apply forbidden_rooms_stay_closed. intros ctx now a j Hin _. apply list_elem_of_singleton in Hin. injection Hin as -> _ _.
  vm_compute. reflexivity.
Defined.
