(* ===== verification/RelayRaces.v ===== *)
(** * Where the relay's goroutines meet

    One sender at a time keeps a slow client's events an unbroken prefix. Two
    senders do not, and other pairs of handlers meet in the gap between two
    of their steps: what each theorem exhibits is a schedule. *)

From S2P Require Import Prelude JsText JsMap Models Concurrency Relay RelayInvariants RelayDemo RelayProperties RelaySafety.
Open Scope Z_scope.

(** ** One sender *)

Section prefix.
Implicit Types (s : Relay) (c : nat) (cl : RelayClient) (es done rest got : list RelayEvent).

(** Sends events to the client, one after the other; takes up to [n] from it. *)
Fixpoint sender c es : proc Relay (list RelayEvent) :=
  match es with [] => mret [] | e :: es' => deliver c e ;; sender c es' end.

Fixpoint drain c (n : nat) got : proc Relay (list RelayEvent) :=
  match n with
  | O => mret got
  | S n' => e ← receive c; match e with Some e => drain c n' (got ++ [e]) | None => mret got end
  end.

(** Where the sender can be, what it has sent so far, and the client then. *)
Inductive sending c es got cl : proc Relay (list RelayEvent) → Prop :=
  | sending_next done rest :
      es = done ++ rest → (if slow cl then got ++ SendCh cl `prefix_of` done else got ++ SendCh cl = done) →
      sending c es got cl (sender c rest)
  | sending_one done e rest :
      es = done ++ e :: rest → slow cl = false → got ++ SendCh cl = done →
      sending c es got cl ((full ← atomically (try_send c e); whenp full (markSlow c)) ;; sender c rest)
  | sending_mark done rest :
      es = done ++ rest → got ++ SendCh cl `prefix_of` done → sending c es got cl (markSlow c ;; sender c rest).

Lemma sending_prefix c es got cl p : sending c es got cl p → got ++ SendCh cl `prefix_of` es.
Proof.
  intros [done rest -> H|done e rest -> _ ->|done rest -> H].
  - apply prefix_app_r. destruct (slow cl); [done|by rewrite H].
  - by apply prefix_app_r.
  - by apply prefix_app_r.
Qed.

(** A step of the sender. *)
Lemma sending_step c es got cl s f s' p' :
  clientStore s !! c = Some cl → SendCh_closed cl = false → sending c es got cl (Step f) → f s = Some (s', p') →
  ∃ cl', clientStore s' !! c = Some cl' ∧ SendCh_closed cl' = false ∧ sending c es got cl' p'.
Proof.
  intros Hc Ho Hs Hf. inversion Hs as [done rest Hes Hq E|done e rest Hes Hsl Hq E|done rest Hes Hq E].
  - destruct rest as [|e rest]; [done|]. cbn in E. injection E as <-. cbn in Hf. unfold of_client in Hf. rewrite Hc in Hf. cbn in Hf.
    destruct (slow cl) eqn:Es; injection Hf as <- <-; exists cl; (split; [done|split; [done|]]).
    + apply (sending_next _ _ _ _ (done ++ [e])); [by rewrite <-app_assoc|]. rewrite Es. by apply prefix_app_r.
    + by eapply sending_one.
  - subst f. cbn in Hf. unfold try_send in Hf. rewrite Hc, Ho in Hf.
    destruct (length (SendCh cl) <? sendCap)%nat; cbn in Hf; injection Hf as <- <-.
    + eexists. cbn. rewrite lookup_alter_eq, Hc. split; [done|]. split; [done|].
      apply (sending_next _ _ _ _ (done ++ [e])); [by rewrite <-app_assoc|]. cbn. rewrite Hsl, app_assoc. by rewrite Hq.
    + exists cl. split; [done|]. split; [done|]. apply (sending_mark _ _ _ _ (done ++ [e])); [by rewrite <-app_assoc|]. rewrite Hq. by apply prefix_app_r.
  - subst f. cbn in Hf. injection Hf as <- <-. eexists. cbn. rewrite lookup_alter_eq, Hc. split; [done|].
    split; [done|]. by apply (sending_next _ _ _ _ done).
Qed.

(** Taking the first of the queue moves it to what was received. *)
Lemma sending_taken c es got cl e q p :
  sending c es got cl p → SendCh cl = e :: q → sending c es (got ++ [e]) (cl <| SendCh := q |>) p.
Proof.
  intros Hs Eq. assert ((got ++ [e]) ++ q = got ++ SendCh cl) as E by (rewrite <-app_assoc, Eq; done).
  destruct Hs as [done rest Hes H|done e' rest Hes Hsl H|done rest Hes H].
  - eapply sending_next; [done|]. cbn. by rewrite E.
  - eapply sending_one; [done|done|]. cbn. by rewrite E.
  - eapply sending_mark; [done|]. cbn. by rewrite E.
Qed.

(** The two goroutines, and the client between them. *)
Definition between c es (t : threads Relay (list RelayEvent)) : Prop :=
  ∃ cl p n got, clientStore (shared t) !! c = Some cl ∧ SendCh_closed cl = false ∧ sending c es got cl p ∧
    pool t = [p; drain c n got].

Lemma between_turn c es i t : between c es t → between c es (turn i t).
Proof.
  intros (cl & p & n & got & Hc & Ho & Hs & Hp). unfold turn. rewrite Hp.
  assert (between c es t) as Hstay by (by exists cl, p, n, got).
  destruct i as [|[|i]]; cbn [lookup list_lookup]; [| |done].
  - destruct p as [a|f]; [done|]. destruct (f (shared t)) as [[s' p']|] eqn:Ef; [|done].
    destruct (sending_step _ _ _ _ _ _ _ _ Hc Ho Hs Ef) as (cl' & Hc' & Ho' & Hs'). by exists cl', p', n, got.
  - destruct n as [|n]; [done|]. cbn. rewrite Hc. destruct (SendCh cl) as [|e q] eqn:Eq; [by rewrite Ho|].
    exists (cl <| SendCh := q |>), p, n, (got ++ [e]). cbn. rewrite lookup_alter_eq, Hc. cbn. split_and!; [done|done| |done].
    by apply sending_taken.
Qed.

(** C17: While one goroutine alone sends to a client, whoever drains its queue
    and however they take turns, what was taken and what is still queued are
    together an unbroken prefix of what was sent. *)
Theorem single_sender_unbroken c es n turns s cl :
  clientStore s !! c = Some cl → SendCh_closed cl = false → slow cl = false → SendCh cl = [] →
  let t := schedule turns (mkThreads s [sender c es; drain c n []]) in
  ∀ got, pool t !! 1%nat = Some (mret got) →
  ∃ cl', clientStore (shared t) !! c = Some cl' ∧ got ++ SendCh cl' `prefix_of` es.
Proof.
  intros Hc Ho Hsl Hq t. assert (between c es t) as (cl' & p & m & got & Hc' & _ & Hs & Hp).
  { unfold t. assert (between c es (mkThreads s [sender c es; drain c n []])) as H0.
    { exists cl, (sender c es), n, []. split_and!; try done. apply (sending_next _ _ _ _ [] es); [done|]. by rewrite Hsl, Hq. }
    revert H0. generalize (mkThreads s [sender c es; drain c n []]). induction turns as [|i turns IH]; intros t0 H0; [done|].
    apply (IH (turn i t0)). by apply between_turn. }
  intros got'. rewrite Hp. cbn. destruct m as [|m]; cbn; intros [= <-]; exists cl'; (split; [done|]); by eapply sending_prefix.
Qed.
End prefix.

(** Nobody's queue is empty and open for long; bob's is, when he has joined. *)
Lemma single_sender_unbroken_witness :
  let e := mkRelayEvent [] [] (rb_event ev_undefined) in
  let t := schedule [0; 1; 0; 0; 1]%nat (mkThreads (hall trio) [sender 3 [e; e]; drain 3 1 []]) in
  ∃ cl', clientStore (shared t) !! 3%nat = Some cl' ∧ [e] ++ SendCh cl' `prefix_of` [e; e].
Proof.
  apply (single_sender_unbroken 3 _ 1 _ (hall trio) (hall_client trio 3)); vm_compute; reflexivity.
Defined.

(** ** Schedules that show more *)

Definition gap_requests : list Request := trio ++ replicate 64 (text ada (js "fill")) ++ [text bob (js "missed"); text ada (js "later"); Drain 3].
Definition gap_before : list nat := in_turn (seq 0 67) ++ replicate 5 67%nat.
Definition gap_after : list nat := [69%nat] ++ in_turn [68; 67]%nat.

Definition text_event (body : jsstr) (e : RelayEvent) : bool :=
  match re_body e with rb_event (ev_textUpdate t) => bool_decide (TextUpdate_text t = body) | _ => false end.


(** Who is in the room an answer speaks of. *)
Definition joined_with (a : option Answer) : option (jsstr * jsstr * list jsstr) :=
  match a with
  | Some (Acted (Reply e)) =>
      match re_body e with rb_roomJoined id room _ _ => Some (id, snap_sessionId room, (snap_peers room).*1) | _ => None end
  | _ => None
  end.

Definition orphan_requests : list Request :=
  [joins (js "ada") (js "r") (js "b1") true; joins (js "bob") (js "r") (js "b2") false; leaves ada;
   joins (js "cy") (js "r") (js "b3") false; text [102%N] (js "hello")].
Definition orphan_turns : list nat := in_turn [0]%nat ++ replicate 4 1%nat ++ in_turn [2; 1; 3; 4]%nat.


(** Two joins that both pass the check before either is in are over the limit. *)
Theorem joins_exceed_limit :
  let t := played (mkServiceConfig 1 2) (take 2 trio) (replicate 3 0%nat ++ in_turn [1; 0]%nat) in
  is_Some (joined_with (answer t 0)) ∧ is_Some (joined_with (answer t 1)) ∧
  size (clients_at (js "r") (shared t)) = 2%nat.
Proof. vm_compute. split_and!; [by eexists|by eexists|done]. Qed.

(** So do two owners of different browsers. *)
Theorem owners_race :
  let t := played default_service [joins (js "ada") (js "r") (js "b1") true; joins (js "bob") (js "r") (js "b2") true]
             (replicate 4 0%nat ++ in_turn [1; 0]%nat) in
  (λ x, (BrowserId x.2, IsOwner x.2)) <$> map_to_list (clientStore (shared t)) = [(js "b1", true); (js "b2", true)].
Proof. by vm_compute. Qed.

(** The gauge of connected peers is left high when an owner ends a
    session: the guests' later leaves fail, and are not counted. *)
Theorem peer_gauge_drifts :
  let t := played default_service (take 2 trio ++ [leaves ada; leaves bob]) (in_turn [0; 1; 2; 3]%nat) in
  rooms (shared t) = ∅ ∧ answer t 3 = Some (Acted (not_found bob)) ∧ peersActive (shared t) = 1 ∧ roomsActive (shared t) = 0.
Proof. vm_compute. by split_and!. Qed.

Definition refused (a : option Answer) : option jsstr :=
  match a with
  | Some (Acted (Reply e)) => match re_body e with rb_event (ev_error err) => Some (ErrorEvent_code err) | _ => None end
  | _ => None
  end.

(** An owner refused for its old protocol leaves behind the room it asked
    for, empty and encrypted; nothing removes it, and guests of the old
    protocol are refused there. *)
Theorem refused_owner_leaves_room :
  let old isOwner encrypted := acts [] (act_join (join (js "ada") (js "r") (js "b1") isOwner encrypted 1)) in
  let t := played default_service [old true true; old false false] (in_turn [0; 1]%nat) in
  refused (answer t 0) = Some (js "PROTOCOL_VERSION_TOO_OLD") ∧ refused (answer t 1) = Some (js "PROTOCOL_VERSION_TOO_OLD") ∧
  clients_at (js "r") (shared t) = ∅ ∧ ((λ r, of_room false Encrypted r (shared t)) <$> rooms (shared t) !! js "r") = Some true.
Proof. vm_compute. by split_and!. Qed.
