(* ===== verification/RelayStream.v ===== *)
(** * The relay's connections ([web/server/stream.go])

    A connection of the relay: what it does with its client's actions, how a
    bridge carries the client's room events to the socket, and the ways it
    ends: eviction, expiry, a socket that closes. Its goroutines run against
    the service of [Relay] and share the connection's own state. *)

From S2P Require Import Prelude JsText JsMap Models Concurrency Relay.
Open Scope Z_scope.

(** ** Data *)

(** What the stream uses of [RelayClaims] ([middleware/auth.go]): the principal,
    and when the token expires, unless the time is the zero time. *)
Record RelayClaims := mkRelayClaims { bearer : Principal; ExpiresAt : option Z }.

(** [CollabBidiStream]. [endOnce] says that the once has started; it is over
    when [ended] is closed. [bridging]: the client a bridge was started for.
    [expiry]: when its timer goes off. *)
Record CollabBidiStream := mkStream {
  principal : option Principal;
  sendCh : list RelayEvent;
  sendCh_closed : bool;
  cancelled : bool;
  ended : bool;
  endOnce : bool;
  stream_sessionId : jsstr;
  stream_clientId : jsstr;
  bridging : option nat;
  expiry : option Z
}.

#[export] Instance eta_CollabBidiStream : Eta CollabBidiStream := λ c,
  mkStream (principal c) (sendCh c) (sendCh_closed c) (cancelled c) (ended c) (endOnce c) (stream_sessionId c)
    (stream_clientId c) (bridging c) (expiry c).

(** [NewCollabBidiStream], for the claims the request was let in with. *)
Definition NewCollabBidiStream (claims : option RelayClaims) : CollabBidiStream :=
  mkStream (bearer <$> claims) [] false false false false [] [] None (claims ≫= ExpiresAt).

(** The service, its connections, and how many selects have been decided. *)
Record Server := mkServer { service : Relay; streams : gmap nat CollabBidiStream; selects : nat }.

#[export] Instance eta_Server : Eta Server := λ s, mkServer (service s) (streams s) (selects s).

(** How the [k]th select chooses, among however many cases are ready. *)
Class Selector := pick : nat → nat.

(** The service's code, run by a connection. *)
Definition in_service {A} : proc Relay A → proc Server A :=
  fix go p :=
    match p with
    | Done a => Done a
    | Step f => Step (λ s, match f (service s) with Some (r, p') => Some (s <| service := r |>, go p') | None => None end)
    end.

(** What [Send] and [reply] fail with: an action before joining, the context's
    end, or what the service failed with. *)
Inductive StreamError :=
  | NotJoined (action : CollabAction_action_case)
  | ContextDone
  | ServiceError (message : jsstr).

Section stream.
Context {G : GoRuntime} {C : Selector}.
Context (cfg : ServiceConfig) (now : Timestamp).
Abbreviation P := (proc Server).
Implicit Types (i c : nat) (s : Server).

Definition set_stream i (f : CollabBidiStream → CollabBidiStream) s : Server := s <| streams := alter f i (streams s) |>.
Definition of_stream {A} (dft : A) (f : CollabBidiStream → A) i s : A := from_option f dft (streams s !! i).
Definition panic s : Server := s <| service := (service s) <| panicked := true |> |>.

(** A select: the cases that are ready, each with what it does. *)
Definition select {A} (cases : Server → list (Server * P A)) : P A :=
  Step (λ s, let l := cases s in
    (λ x, (x.1 <| selects := S (selects s) |>, x.2)) <$> l !! (pick (selects s) mod length l)%nat).

(** [case s.sendCh <- event]: ready when there is room, or to panic. *)
Definition on_send {A} i (event : RelayEvent) s (k : P A) : list (Server * P A) :=
  match streams s !! i with
  | Some st =>
      if sendCh_closed st then [(panic s, k)]
      else if (length (sendCh st) <? sendCap)%nat then [(set_stream i (λ st, st <| sendCh := sendCh st ++ [event] |>) s, k)]
      else []
  | None => []
  end.

(** [case <-s.ctx.Done()]. *)
Definition on_done {A} i s (k : P A) : list (Server * P A) := if of_stream false cancelled i s then [(s, k)] else [].

(** [case <-slow]. *)
Definition on_slow {A} c s (k : P A) : list (Server * P A) := if of_client false slow c (service s) then [(s, k)] else [].

(** [case event, ok := <-client.SendCh]. *)
Definition on_event {A} c s (k : option RelayEvent → P A) : list (Server * P A) :=
  match clientStore (service s) !! c with
  | Some cl =>
      match SendCh cl with
      | e :: q => [(s <| service := set_client c (λ cl, cl <| SendCh := q |>) (service s) |>, k (Some e))]
      | [] => if SendCh_closed cl then [(s, k None)] else []
      end
  | None => []
  end.

(** Whether the context was cancelled first. *)
Definition reply i (event : RelayEvent) : P (option StreamError) :=
  select (λ s, on_send i event s (mret None) ++ on_done i s (mret (Some ContextDone))).

(** The session and client of the connection, which are cleared. *)
Definition forget i : P (jsstr * jsstr) :=
  atomically (λ s,
    (set_stream i (λ st, st <| stream_sessionId := [] |> <| stream_clientId := [] |>) s,
     of_stream ([], []) (λ st, (stream_sessionId st, stream_clientId st)) i s)).

Definition leave_action (clientId reason : jsstr) : CollabAction :=
  mkCollabAction [] clientId 0 (act_leave (mkLeaveRoom reason)).

Definition leaveAndCleanup i (reason : jsstr) : P unit :=
  '(sessionId, clientId) ← forget i;
  whenp (truthy sessionId && truthy clientId)
    (in_service (HandleAction cfg None now (leave_action clientId reason)) ≫= λ _, mret tt).

Definition end_stream i (reason : jsstr) : P unit :=
  leaveAndCleanup i reason ;;
  id ← in_service newUUID;
  reply i (mkRelayEvent id [] (rb_event (ev_sessionEnded (mkSessionEnded reason)))) ;;
  writes (set_stream i (λ st, st <| ended := true |>)).

(** [s.endOnce.Do(...)]: a second caller waits for the first to be through. *)
Definition endSession i (reason : jsstr) : P unit :=
  Step (λ s,
    match streams s !! i with
    | None => None
    | Some st =>
        if endOnce st then if ended st then Some (s, mret tt) else None
        else Some (set_stream i (λ st, st <| endOnce := true |>) s, end_stream i reason)
    end).

(** What is queued for the client goes on while it fits, [n] events at most;
    the first that does not fit stops it. *)
Fixpoint forward i c (n : nat) (held : option RelayEvent) : P unit :=
  match n with
  | O => mret tt
  | S n' =>
      Step (λ s,
        let send event s :=
          match on_send i event s (forward i c n' None) with
          | x :: _ => Some x
          | [] => Some (s, mret tt)
          end in
        match held with
        | Some event => send event s
        | None =>
            match clientStore (service s) !! c with
            | Some cl =>
                match SendCh cl with
                | e :: q => send e (s <| service := set_client c (λ cl, cl <| SendCh := q |>) (service s) |>)
                | [] => Some (s, mret tt)
                end
            | None => Some (s, mret tt)
            end
        end)
  end.

Definition evictSlow i c (n : nat) (held : option RelayEvent) : P unit :=
  forward i c n held ;; endSession i (js "slow_consumer").

(** [n] turns of the bridge's loop. *)
Fixpoint bridge_loop i c (n : nat) : P unit :=
  match n with
  | O => mret tt
  | S n' =>
      select (λ s,
        on_event c s (λ e,
          match e with
          | None => mret tt
          | Some event =>
              select (λ s,
                on_send i event s (bridge_loop i c n') ++ on_slow c s (evictSlow i c n' (Some event)) ++ on_done i s (mret tt))
          end) ++
        on_slow c s (evictSlow i c n' None) ++ on_done i s (mret tt))
  end.

(** The bridge's goroutine, which is not there until [Send] starts it. *)
Definition bridge i (n : nat) : P unit :=
  Step (λ s, (λ c, (s, bridge_loop i c n)) <$> of_stream None bridging i s).

Definition is_control (a : CollabAction_action_case) : bool :=
  match a with act_join _ | act_leave _ => true | _ => false end.
Definition is_join (a : CollabAction_action_case) : bool := match a with act_join _ => true | _ => false end.

Definition stream_error (code message : jsstr) : P RelayEvent :=
  id ← in_service newUUID; mret (mkRelayEvent id [] (rb_event (ev_error (mkErrorEvent code message)))).

(** What [Send] does with the answer to a join: it stores who the connection
    is, and starts the bridge. *)
Definition started i (resp : Result) : P unit :=
  match resp with
  | Reply (mkRelayEvent _ _ (rb_roomJoined clientId room _ _)) =>
      writes (set_stream i (λ st, st <| stream_sessionId := snap_sessionId room |> <| stream_clientId := clientId |>)) ;;
      client ← in_service (GetClient (snap_sessionId room) clientId);
      match client : option nat with
      | Some c => writes (set_stream i (λ st, st <| bridging := Some c |>))
      | None => mret tt
      end
  | _ => mret tt
  end.

(** [limit]: the text of the answer when the connection's rate limiter does not
    allow the message. The result is the error [Send] returns, if any. *)
Definition Send i (limit : option jsstr) (action : CollabAction) : P (option StreamError) :=
  let a := CollabAction_action action in
  match (if is_control a then None else limit) with
  | Some message => e ← stream_error (js "RATE_LIMITED") message; reply i e
  | None =>
  joinedAs ← reads (of_stream [] stream_clientId i);
  if negb (is_join a) && negb (truthy joinedAs) then mret (Some (NotJoined a))
  else if is_join a && truthy joinedAs then
    e ← stream_error (js "ALREADY_JOINED")
          (js "This connection is already in a room; open another connection to join a second one");
    reply i e
  else
  let clientId := if is_join a then CollabAction_clientId action else joinedAs in
  ctx ← reads (of_stream None principal i);
  resp ← in_service (HandleAction cfg ctx now
           (mkCollabAction (CollabAction_actionId action) clientId (CollabAction_timestamp action) a));
  whenp (is_join a) (started i resp) ;;
  match resp with
  | Reply event => reply i event
  | NoReply => mret None
  | Fail message => mret (Some (ServiceError message))
  end
  end.

(** The next event for the socket: [None] ends it. *)
Definition Recv i : P (option RelayEvent) :=
  let queued s (empty : list (Server * P (option RelayEvent))) :=
    match streams s !! i with
    | Some st =>
        match sendCh st with
        | e :: q => [(set_stream i (λ st, st <| sendCh := q |>) s, mret (Some e))]
        | [] => if sendCh_closed st then [(s, mret None)] else empty
        end
    | None => []
    end in
  select (λ s,
    queued s [] ++
    (if of_stream false ended i s then [(s, Step (λ s, head (queued s [(s, mret None)])))] else []) ++
    on_done i s (mret None)).

(** The timer of the token's expiry. *)
Definition due i (time : Z) s : bool := match of_stream None expiry i s with Some t => t <=? time | None => false end.
Definition expire i : P unit := writes (set_stream i (λ st, st <| expiry := None |>)) ;; endSession i (js "token_expired").

(** The socket is gone: the context is cancelled, and [watchClose] sees it. *)
Definition hang_up i : P unit := writes (set_stream i (λ st, st <| cancelled := true |>)).
Definition watchClose i : P unit :=
  Step (λ s, if of_stream false cancelled i s
    then Some (set_stream i (λ st, st <| expiry := None |>) s, leaveAndCleanup i (js "connection closed"))
    else None).

Definition CloseSend i : P unit :=
  leaveAndCleanup i (js "client closed") ;;
  writes (λ s, if of_stream false sendCh_closed i s then panic s else set_stream i (λ st, st <| sendCh_closed := true |>) s).
End stream.
