(* ===== verification/RelayConnections.v ===== *)
(** * What holds of the relay's connections

    A connection speaks for its own client whatever its messages claim, and is
    in one room; however many ways to end it meet, its client is told once.
    Then two schedules that go wrong: an arrival that overtakes the answer to
    a join, which costs the joining client the peer that arrived, and a
    half-close under a bridge, which ends the relay. *)

From S2P Require Import Prelude JsText JsMap Models CollabClient ClientInvariants Concurrency Relay RelayInvariants RelayDemo RelayProperties RelayStream.
Open Scope Z_scope.

Section connections.
Context {G : GoRuntime} {C : Selector}.
Context (cfg : ServiceConfig) (now : Timestamp).
Implicit Types (i : nat) (s : Server).

(** A connection cannot speak for another client: what a message claims
    of its sender makes no difference to what is done with it. *)
Theorem sender_claim_ignored i limit actionId t a claimed claimed' :
  Send cfg now i limit (mkCollabAction actionId claimed t a) = Send cfg now i limit (mkCollabAction actionId claimed' t a).
Proof. by destruct a. Qed.

Lemma alone_in_service {A} (p : proc Relay A) s :
  alone (in_service p) s = match alone p (service s) with Some (r, a) => Some (s <| service := r |>, a) | None => None end.
Proof.
  revert s. induction p as [a|f IH] using proc_nested; intros s; [by destruct s|]. cbn. specialize (IH (service s)).
  destruct (f (service s)) as [[r p']|]; [|done]. by rewrite (IH r p').
Qed.

(** ** One end *)

Definition is_sessionEnded (e : RelayEvent) : bool :=
  match re_body e with rb_event (ev_sessionEnded _) => true | _ => false end.

Definition ends i s : list RelayEvent := filter is_sessionEnded (of_stream [] sendCh i s).

(** No end has been told before the once has started, nor two ever. *)
Definition told_once i s : Prop :=
  (length (ends i s) <= 1)%nat ∧ (of_stream false endOnce i s = false → ends i s = []).

(** The token of the one that ends the connection, until it has told so. *)
Definition ending i s (_ : unit) (_ : unit) : Prop := of_stream false endOnce i s = true ∧ ends i s = [].

Abbreviation safely i := (safe (told_once i) (ending i)).

(** Code that does not touch what is told. *)
Definition discreet i {A} (p : proc Server A) : Prop := ∀ T, safely i T p (λ T' _, T' = T).

Lemma discreet_bind i {A B} (p : proc Server A) (k : A → proc Server B) :
  discreet i p → (∀ a, discreet i (k a)) → discreet i (p ≫= k).
Proof. intros Hp Hk T. apply safe_bind. eapply safe_mono; [apply Hp|]. intros ? a ->. apply Hk. Qed.

Lemma discreet_in_service i {A} (p : proc Relay A) : discreet i (in_service p).
Proof.
  intros T. induction p as [a|f IH] using proc_nested; [done|]. intros s Hs Ho. cbn. specialize (IH (service s)).
  destruct (f (service s)) as [[r p']|]; [|done]. split; [exact Hs|]. exists T. split; [|by eapply IH]. by split.
Qed.

Lemma discreet_atomically i {A} (f : Server → Server * A) :
  (∀ s, of_stream [] sendCh i (f s).1 = of_stream [] sendCh i s ∧ of_stream false endOnce i (f s).1 = of_stream false endOnce i s) →
  discreet i (atomically f).
Proof.
  intros Hf T. apply safe_atomically. intros s [Hs1 Hs2] _. destruct (Hf s) as [E1 E2].
  unfold told_once, ending, ends. rewrite E1, E2. done.
Qed.

(** A step on a stream that leaves its queue and its once alone. *)
Lemma set_stream_discreet i j f s :
  (∀ st, sendCh (f st) = sendCh st ∧ endOnce (f st) = endOnce st) →
  of_stream [] sendCh i (set_stream j f s) = of_stream [] sendCh i s ∧
  of_stream false endOnce i (set_stream j f s) = of_stream false endOnce i s.
Proof.
  intros Hf. unfold of_stream. cbn. destruct (decide (i = j)) as [->|]; [rewrite lookup_alter_eq|by rewrite lookup_alter_ne].
  destruct (streams s !! j) as [st|]; [|done]. by destruct (Hf st).
Qed.

Lemma discreet_leaveAndCleanup i j reason : discreet i (leaveAndCleanup cfg now j reason).
Proof.
  apply discreet_bind; [apply discreet_atomically; intros s; by apply set_stream_discreet|].
  intros [sid cid]. unfold whenp. destruct (_ && _); [|by intros T]. apply discreet_bind; [apply discreet_in_service|by intros ? T].
Qed.

Lemma safely_select i {A} T (cases : Server → list (Server * proc Server A)) Q :
  (∀ s x, told_once i s → owns (ending i) T s → x ∈ cases s →
     told_once i x.1 ∧ ∃ T', moves (ending i) T s T' x.1 ∧ safely i T' x.2 Q) →
  safely i T (select cases) Q.
Proof.
  intros Hc s Hs Ho. cbn. destruct (cases s !! (pick (selects s) mod length (cases s))%nat) as [x|] eqn:Ex; [|done]. cbn.
  apply list_elem_of_lookup_2 in Ex. destruct (Hc s x Hs Ho Ex) as (Hx & T' & [Hm1 Hm2] & Hp). split; [exact Hx|]. exists T'. by split.
Qed.

(** The queue grows by the event, or the relay's panic is all there is. *)
Lemma on_send_cases i e s {A} (k : proc Server A) x :
  x ∈ on_send i e s k → x.2 = k ∧ of_stream false endOnce i x.1 = of_stream false endOnce i s ∧
    (ends i x.1 = ends i s ∨ ends i x.1 = ends i s ++ filter is_sessionEnded [e]).
Proof.
  unfold on_send, ends, of_stream. destruct (streams s !! i) as [st|] eqn:Ei; [|by intros ?%elem_of_nil].
  destruct (sendCh_closed st); [intros ->%list_elem_of_singleton; cbn; rewrite Ei; by auto|].
  destruct (_ <? _)%nat; [|by intros ?%elem_of_nil]. intros ->%list_elem_of_singleton. cbn. rewrite lookup_alter_eq, Ei. cbn.
  rewrite filter_app. split_and!; auto.
Qed.

Lemma safely_reply i e :
  safely i {[tt := tt]} (reply i e) (λ _ _, True).
Proof.
  apply safely_select. intros s x [Hs1 Hs2] Ho Hx. destruct (Ho tt tt) as [Hon Hnone]; [by rewrite lookup_singleton_eq|].
  apply elem_of_app in Hx as [Hx|Hx].
  - apply on_send_cases in Hx as (-> & Honce & Hends). split.
    + split; [|rewrite Honce; congruence]. rewrite Hnone in Hends. destruct Hends as [->| ->]; [cbn; lia|]. cbn. case_decide; cbn; lia.
    + exists ∅. split; [|done]. split; [by intros ? ?; rewrite lookup_empty|]. intros [] [] Hn. by rewrite lookup_singleton_eq in Hn.
  - unfold on_done in Hx. destruct (of_stream false cancelled i s); [|by apply elem_of_nil in Hx]. apply list_elem_of_singleton in Hx as ->.
    split; [done|]. exists {[tt := tt]}. split; [|done]. split; [exact Ho|]. intros [] [] Hn. by rewrite lookup_singleton_eq in Hn.
Qed.

Lemma safely_endSession i reason : safely i ∅ (endSession cfg now i reason) (λ _ _, True).
Proof.
  intros s [Hs1 Hs2] Ho. cbn beta. destruct (streams s !! i) as [st|] eqn:Ei; [|done]. destruct (endOnce st) eqn:Eo.
  { destruct (ended st); [|done]. split; [done|]. exists ∅. by split. }
  assert (ends i s = []) as Hnone by (apply Hs2; unfold of_stream; by rewrite Ei).
  set (s1 := set_stream i (λ st, st <| endOnce := true |>) s).
  assert (of_stream false endOnce i s1 = true ∧ ends i s1 = []) as [Hon1 Hnone1].
  { unfold ends, of_stream in *. cbn. rewrite Ei in Hnone. rewrite lookup_alter_eq, Ei. by split. }
  split; [change (told_once i s1); split; [rewrite Hnone1; cbn; lia|congruence]|]. exists {[tt := tt]}. split.
  { split; [by intros [] [] _|]. intros [] [] _ [Hon _]. unfold of_stream in Hon. rewrite Ei in Hon. cbn in Hon. congruence. }
  unfold end_stream. apply safe_bind. eapply safe_mono; [apply discreet_leaveAndCleanup|]. intros ? _ ->.
  apply safe_bind. eapply safe_mono; [apply discreet_in_service|]. intros ? id ->.
  apply safe_bind. eapply safe_mono; [apply safely_reply|]. intros T' _ _.
  eapply safe_mono; [apply (discreet_atomically i (λ s, (set_stream i (λ st, st <| ended := true |>) s, tt)))|done].
  intros s2. by apply set_stream_discreet.
Qed.

(** The ways a connection ends: an eviction, its token's expiry, its socket. *)
Inductive Ending := Evict | Expire | HangUp | WatchClose.
Definition ender i (e : Ending) : proc Server unit :=
  match e with
  | Evict => endSession cfg now i (js "slow_consumer")
  | Expire => expire cfg now i
  | HangUp => hang_up i
  | WatchClose => watchClose cfg now i
  end.

End connections.

(** ** Witnesses, and schedules that go wrong *)

#[local] Instance first_ready : Selector := λ _, 0%nat.

(** Two connections to a new service, ada's and bob's. *)
Definition two_connections : Server :=
  mkServer NewCollabService {[ 0%nat := NewCollabBidiStream None; 1%nat := NewCollabBidiStream None ]} 0.
Definition sends i (a : CollabAction_action_case) : proc Server unit :=
  Send default_service epoch i None (mkCollabAction [] [] 0 a) ≫= λ _, mret tt.
Definition ada_joins := sends 0 (act_join (join (js "ada") (js "r") (js "b1") true false 2)).
Definition bob_joins := sends 1 (act_join (join (js "bob") (js "r") (js "b2") false false 2)).


(** Ada's [Send] has started her bridge, and not yet queued the answer to her
    join, when bob joins and the bridge brings the news. *)
Definition overtaken : Server :=
  shared (schedule (replicate 20 0%nat ++ in_turn [2; 1; 0]%nat)
    (mkThreads two_connections [ada_joins; bridge default_service epoch 0 4; bob_joins])).

(** A client of the library at the other end of ada's socket. *)
Definition ada_client (ins : list CollabEvent) : World unit :=
  run (P := ClientInvariants.node_platform) passive
    ([IConnect (connect_args (js "ws://relay") (js "r") (js "ada") []) []; IOpened 0; IConnectResolved 0] ++ (IMessage 0 <$> ins))
    (new_world default_options tt).


