(* ===== verification/RelayStreamSafety.v ===== *)
(** * The relay's invariant under its connections

    The goroutines of connections that are never half-closed keep the relay's
    invariant, as the handlers they run do: no send of theirs, to a queue of
    the service or of a connection, panics. *)

From S2P Require Import Prelude JsText JsMap Models CollabClient Concurrency Relay RelayInvariants RelayStream.
Open Scope Z_scope.

Section streams.
Context {G : GoRuntime} {L : GoLaws G} {C : Selector}.
Context (cfg : ServiceConfig) (now : Timestamp).
Implicit Types (i c k : nat) (s : Server).

(** The service is well formed, and connections are open towards their sockets. *)
Record sane s : Prop := {
  sane_service : wf (service s);
  sane_open i st : streams s !! i = Some st → sendCh_closed st = false
}.
Definition service_holds s : nat + nat → token → Prop := holds (service s).

(** Code that keeps this, whatever locks and names it has; and a step that
    does, and leaves all tokens good. *)
Definition careful {A} (p : proc Server A) : Prop := ∀ T, safe sane service_holds T p (λ _ _, True).
Definition settled s s' : Prop := sane s' ∧ ∀ n v, service_holds s n v → service_holds s' n v.

Lemma settled_same s s' : service s' = service s → streams s' = streams s → sane s → settled s s'.
Proof. intros Es Et [H1 H2]. unfold settled, service_holds. rewrite Es. split; [|done]. split; by rewrite ?Es, ?Et. Qed.

Lemma settled_trans s1 s2 s3 : settled s1 s2 → settled s2 s3 → settled s1 s3.
Proof. intros [_ H1] [H2 H3]. split; [done|]. intros n v Hn. by apply H3, H1. Qed.

Lemma careful_ret {A} (a : A) : careful (mret a).
Proof. done. Qed.

Lemma careful_bind {A B} (p : proc Server A) (f : A → proc Server B) : careful p → (∀ a, careful (f a)) → careful (p ≫= f).
Proof. intros Hp Hf T. apply safe_bind. eapply safe_mono; [apply Hp|]. intros T' a _. apply Hf. Qed.

Lemma careful_step {A} (f : Server → option (Server * proc Server A)) :
  (∀ s, sane s → match f s with Some (s', p') => settled s s' ∧ careful p' | None => True end) → careful (Step f).
Proof.
  intros Hf T s Hs Ho. specialize (Hf s Hs). destruct (f s) as [[s' p']|]; [|done]. destruct Hf as [[Hs' Hh] Hp].
  split; [done|]. exists T. split; [|apply Hp]. split; [intros n v Hn; by apply Hh, Ho|intros n v Hn Hv; by split; [apply Hh|]].
Qed.

Lemma careful_atomically {A} (f : Server → Server * A) : (∀ s, sane s → settled s (f s).1) → careful (atomically f).
Proof.
  intros Hf. apply careful_step. intros s Hs. specialize (Hf s Hs). destruct (f s). split; [exact Hf|apply careful_ret].
Qed.

Lemma careful_reads {A} (f : Server → A) : careful (reads f).
Proof. apply careful_atomically. intros s Hs. by apply settled_same. Qed.

Lemma safe_in_service {A} T (p : proc Relay A) Q : safe wf holds T p Q → safe sane service_holds T (in_service p) Q.
Proof.
  revert T. induction p as [a|f IH] using proc_nested; intros T Hp; [exact Hp|]. intros s [H1 H2] Ho. cbn.
  specialize (Hp (service s) H1 Ho). specialize (IH (service s)). destruct (f (service s)) as [[r p']|]; [|done].
  destruct Hp as (Hr & T' & [Hm1 Hm2] & Hp'). split; [by split|]. exists T'. split; [by split|by eapply IH].
Qed.

Lemma careful_in_service {A} (p : proc Relay A) : calm p → careful (in_service p).
Proof. intros Hp T. apply safe_in_service. eapply safe_mono; [apply Hp|done]. Qed.

(** *** Streams and selects *)

Lemma settled_stream i (f : CollabBidiStream → CollabBidiStream) s :
  (∀ st, sendCh_closed st = false → sendCh_closed (f st) = false) → sane s → settled s (set_stream i f s).
Proof.
  intros Hf [H1 H2]. split; [|done]. split; [exact H1|]. intros j st. cbn.
  destruct (decide (j = i)) as [->|]; [rewrite lookup_alter_eq|rewrite lookup_alter_ne by done; apply H2].
  destruct (streams s !! i) as [st0|] eqn:E; [|done]. cbn. intros [= <-]. by eapply Hf, H2.
Qed.

Lemma careful_set_stream i f : (∀ st, sendCh_closed st = false → sendCh_closed (f st) = false) → careful (writes (set_stream i f)).
Proof. intros Hf. apply careful_atomically. intros s. by apply settled_stream. Qed.

Definition settled_case {A} s (x : Server * proc Server A) : Prop := settled s x.1 ∧ careful x.2.

Lemma careful_select {A} (cases : Server → list (Server * proc Server A)) :
  (∀ s, sane s → Forall (settled_case s) (cases s)) → careful (select cases).
Proof.
  intros Hc. apply careful_step. intros s Hs. specialize (Hc s Hs). cbv zeta.
  destruct (cases s !! (pick (selects s) mod length (cases s))%nat) as [x|] eqn:Ex; [|exact I].
  destruct (Forall_lookup_1 _ _ _ _ Hc Ex) as [Hx Hp]. split; [|exact Hp]. eapply settled_trans; [exact Hx|]. by apply settled_same; [..|apply Hx].
Qed.

Lemma send_case {A} i e s (p : proc Server A) : sane s → careful p → Forall (settled_case s) (on_send i e s p).
Proof.
  intros Hs Hp. unfold on_send. destruct (streams s !! i) as [st|] eqn:Ei; [|constructor].
  rewrite (sane_open s Hs i st Ei). destruct (_ <? _)%nat; [|constructor]. apply Forall_singleton. split; [|done]. by apply settled_stream.
Qed.

Lemma done_case {A} i s (p : proc Server A) : sane s → careful p → Forall (settled_case s) (on_done i s p).
Proof. intros Hs Hp. unfold on_done. destruct (of_stream _ _ _ _); [|constructor]. apply Forall_singleton. split; [by apply settled_same|done]. Qed.

Lemma slow_case {A} c s (p : proc Server A) : sane s → careful p → Forall (settled_case s) (on_slow c s p).
Proof. intros Hs Hp. unfold on_slow. destruct (of_client _ _ _ _); [|constructor]. apply Forall_singleton. split; [by apply settled_same|done]. Qed.

(** Taking an event off a client's queue. *)
Lemma settled_take c cl e q s :
  clientStore (service s) !! c = Some cl → SendCh cl = e :: q → sane s →
  settled s (s <| service := set_client c (λ cl, cl <| SendCh := q |>) (service s) |>).
Proof.
  intros Ec Eq [H1 H2]. destruct (set_client_wf c (λ cl, cl <| SendCh := q |>) (service s)) as [Hw Hf]; [|exact H1|].
  - rewrite Ec. intros ? [= <-]. split_and!; [done|by left|]. rewrite Eq. cbn. lia.
  - split; [by split|]. intros n v. by apply frame_holds.
Qed.

Lemma event_case {A} c s (f : option RelayEvent → proc Server A) : sane s → (∀ e, careful (f e)) → Forall (settled_case s) (on_event c s f).
Proof.
  intros Hs Hf. unfold on_event. destruct (clientStore (service s) !! c) as [cl|] eqn:Ec; [|constructor].
  destruct (SendCh cl) as [|e q] eqn:Eq.
  - destruct (SendCh_closed cl); [|constructor]. apply Forall_singleton. split; [by apply settled_same|apply Hf].
  - apply Forall_singleton. split; [by apply (settled_take c cl e)|apply Hf].
Qed.

(** *** Operations *)

Hint Resolve careful_ret send_case done_case slow_case event_case calm_HandleAction calm_newUUID : core.

Lemma careful_reply i e : careful (reply i e).
Proof. apply careful_select. intros s Hs. apply Forall_app. auto. Qed.
Hint Resolve careful_reply : core.

Lemma careful_leaveAndCleanup i reason : careful (leaveAndCleanup cfg now i reason).
Proof.
  apply careful_bind; [apply careful_atomically; intros s Hs; by apply settled_stream|]. intros [k id]. unfold whenp.
  destruct (_ && _); [|done]. apply careful_bind; [|done]. apply careful_in_service; auto.
Qed.
Hint Resolve careful_leaveAndCleanup : core.

Lemma careful_endSession i reason : careful (RelayStream.endSession cfg now i reason).
Proof.
  apply careful_step. intros s Hs. destruct (streams s !! i) as [st|]; [|done].
  destruct (endOnce st); [destruct (ended st); [|done]; by split; [apply settled_same|]|].
  split; [by apply settled_stream|]. apply careful_bind; [done|intros _]. apply careful_bind; [apply careful_in_service; auto|intros id].
  apply careful_bind; [done|intros _]. by apply careful_set_stream.
Qed.
Hint Resolve careful_endSession : core.

Lemma careful_forward i c k held : careful (forward i c k held).
Proof.
  revert held. induction k as [|k IH]; intros held; [done|]. apply careful_step. intros s Hs.
  assert (∀ e s', settled s s' → match
      match on_send i e s' (forward i c k None) with x :: _ => Some x | [] => Some (s', mret tt) end
    with Some (s', p') => settled s s' ∧ careful p' | None => True end) as Hstep.
  { intros e s' Ho. pose proof (send_case i e s' _ (proj1 Ho) (IH None)) as Hc.
    destruct (on_send i e s' (forward i c k None)) as [|[s2 p2] l]; [by split|]. inversion_clear Hc as [|? ? [Hx Hp] _].
    split; [by eapply settled_trans|done]. }
  destruct held as [e|]; [apply Hstep; by apply settled_same|].
  destruct (clientStore (service s) !! c) as [cl|] eqn:Ec; [|by split; [apply settled_same|]].
  destruct (SendCh cl) as [|e q] eqn:Eq; [by split; [apply settled_same|]|]. apply Hstep. by apply (settled_take c cl e).
Qed.

Lemma careful_evictSlow i c k held : careful (evictSlow cfg now i c k held).
Proof. apply careful_bind; [apply careful_forward|done]. Qed.
Hint Resolve careful_evictSlow : core.

Lemma careful_bridge_loop i c k : careful (bridge_loop cfg now i c k).
Proof.
  induction k as [|k IH]; [done|]. apply careful_select. intros s Hs. rewrite !Forall_app. split_and!; auto.
  apply event_case; [done|]. intros [e|]; [|done]. apply careful_select. intros s' Hs'. rewrite !Forall_app. split_and!; auto.
Qed.

Lemma careful_bridge i k : careful (bridge cfg now i k).
Proof.
  apply careful_step. intros s Hs. destruct (of_stream None bridging i s) as [c|]; [|done]. split; [by apply settled_same|apply careful_bridge_loop].
Qed.

Lemma careful_watchClose i : careful (watchClose cfg now i).
Proof.
  apply careful_step. intros s Hs. destruct (of_stream false cancelled i s); [|done]. split; [by apply settled_stream|done].
Qed.

Lemma careful_expire i : careful (expire cfg now i).
Proof. apply careful_bind; [by apply careful_set_stream|done]. Qed.

Lemma careful_hang_up i : careful (hang_up i).
Proof. by apply careful_set_stream. Qed.

Lemma careful_started i resp : careful (started i resp).
Proof.
  unfold started. destruct resp as [[? ? []]| |]; try done. apply careful_bind; [by apply careful_set_stream|intros _].
  apply careful_bind; [apply careful_in_service, calm_reads|]. intros [c|]; [by apply careful_set_stream|done].
Qed.

Lemma careful_refused i code message : careful (e ← stream_error code message; reply i e).
Proof. apply careful_bind; [|done]. apply careful_bind; [apply careful_in_service; auto|done]. Qed.

Lemma careful_Send i limit a : careful (Send cfg now i limit a).
Proof.
  unfold Send. destruct (if is_control _ then _ else _) as [message|]; [apply careful_refused|].
  apply careful_bind; [apply careful_reads|intros joinedAs].
  destruct (negb (is_join (CollabAction_action a)) && negb (truthy joinedAs)); [done|].
  destruct (is_join (CollabAction_action a) && truthy joinedAs); [apply careful_refused|].
  apply careful_bind; [apply careful_reads|intros ctx]. apply careful_bind; [apply careful_in_service; auto|intros resp].
  apply careful_bind; [unfold whenp; destruct (is_join _); [apply careful_started|done]|intros _]. by destruct resp.
Qed.

Lemma careful_Recv i : careful (Recv i).
Proof.
  assert (∀ s empty, sane s → Forall (settled_case s) empty → Forall (settled_case s)
    (match streams s !! i with
     | Some st => match sendCh st with
                  | e :: q => [(set_stream i (λ st, st <| sendCh := q |>) s, mret (Some e))]
                  | [] => if sendCh_closed st then [(s, mret None)] else empty
                  end
     | None => [] end)) as Hq.
  { intros s empty Hs He. destruct (streams s !! i) as [st|] eqn:Ei; [|constructor]. destruct (sendCh st) as [|e q] eqn:Eq.
    - destruct (sendCh_closed st); [|done]. apply Forall_singleton. by split; [apply settled_same|].
    - apply Forall_singleton. split; [by apply settled_stream|done]. }
  apply careful_select. intros s Hs. rewrite !Forall_app. split_and!; [apply Hq; [done|constructor]| |auto].
  destruct (of_stream false ended i s); [|constructor]. apply Forall_singleton. split; [by apply settled_same|].
  apply careful_step. intros s' Hs'. assert (Forall (settled_case (A := option RelayEvent) s') [(s', mret None)]) as Hone
    by (apply Forall_singleton; split; [by apply settled_same|done]).
  specialize (Hq s' [(s', mret None)] Hs' Hone). match type of Hq with Forall _ ?l =>
    change (match head l with Some (s'', p') => settled s' s'' ∧ careful p' | None => True end); destruct l as [|[s2 p2] l2]
  end; [done|]. inversion_clear Hq as [|? ? [Ho Hp] _]. by split.
Qed.
End streams.
