(* ===== verification/IdentityRoster.v ===== *)
(** * Who a client's peers are, and what they said

    Every identity in a client's roster, and every message its application is
    given, comes from an event of its relay: the client keeps, under any
    application, what holds of the identities and words its relay tells. *)

From S2P Require Import Prelude JsText JsMap Models CollabClient ClientInvariants.
Open Scope Z_scope.

(** The identity of a peer in the client's form. *)
Definition json_identity (i : option PeerIdentity) : option PeerIdentityJson :=
  (λ i, mkPeerIdentityJson (Some (PeerIdentity_subject i)) (Some (PeerIdentity_clientId i))) <$> i.

Section roster.
Context `{P : Platform} {H : Type} (cb : Callback → M (World H) unit) `{!Observer cb}.
(** What is known of a client id and an identity. *)
Context (K : jsstr → PeerIdentityJson → Prop).
(** What is known of a client id, and a message's kind and payload. *)
Context (said : jsstr → jsstr → list N → Prop).

Definition entry_attested (x : jsstr * PeerInfoJson) : Prop := ∀ i, PeerInfoJson_identity x.2 = Some i → K x.1 i.
Definition attested (c : CollabClient) : Prop := Forall entry_attested (peers c).

(** What the application was told that peers said. *)
Definition heard (x : Entry) : Prop := match x with Cb (OnAppMessage kind payload from _) => said from kind payload | _ => True end.

Definition peer_attested (p : PeerInfo) : Prop := ∀ i, json_identity (PeerInfo_identity p) = Some i → K (PeerInfo_clientId p) i.
Definition event_attested (ev : CollabEvent) : Prop :=
  match CollabEvent_event ev with
  | ev_peerJoined pj => match PeerJoined_peer pj with Some p => peer_attested p | None => True end
  | ev_roomJoined rj => match RoomJoined_room rj with Some r => Forall (λ x, peer_attested x.2) (Room_peers r) | None => True end
  | ev_appMessage msg => said (CollabEvent_fromClientId ev) (AppMessage_kind msg) (AppMessage_payload msg)
  | _ => True
  end.

Lemma Forall_map_set (Q : jsstr * PeerInfoJson → Prop) k v m : Forall Q m → Q (k, v) → Forall Q (map_set k v m).
Proof.
  intros Hm Hv. induction m as [|[k' v'] m IH]; cbn; [by constructor|]. inversion_clear Hm as [|? ? Hkv Hm'].
  destruct (decide _) as [->|]; constructor; try done. by apply IH.
Qed.

Lemma Forall_map_delete (Q : jsstr * PeerInfoJson → Prop) k m : Forall Q m → Forall Q (map_delete k m).
Proof.
  intros Hm. induction Hm as [|[k' v'] m Hp Hm IH]; cbn; [done|]. destruct (decide _); [done|by constructor].
Qed.

Abbreviation KEEPS := (keeps (λ w : World H, attested (client w) ∧ Forall heard (log w))).

Lemma attested_modc (f : CollabClient → CollabClient) : (∀ c, attested c → attested (f c)) → KEEPS (modc f).
Proof. intros Hf w [Hw Hl]. split; [by apply Hf|done]. Qed.

Lemma attested_mode f : KEEPS (mode f).
Proof. by intros w. Qed.

Lemma attested_record x : heard x → KEEPS (record x).
Proof. intros Hx w [Hw Hl]. split; [done|by constructor]. Qed.

Lemma attested_call x : heard (Cb x) → KEEPS (call cb x).
Proof.
  intros Hx. apply keeps_bind; [by apply attested_record|]. intros _ w [Hw Hl]. destruct (observes x w) as (l & Ec & _ & El & Hs).
  unfold attested in *. rewrite Ec, El. split; [done|]. apply Forall_app. split; [|done]. eapply Forall_impl; [exact Hs|]. by intros [].
Qed.

Hint Resolve attested_mode attested_record attested_call : keeps.
Hint Extern 1 (heard _) => exact I : keeps.
Hint Extern 1 (keeps _ (modc _)) =>
  (apply attested_modc; intros ? Hatt; first [exact Hatt | apply Forall_nil_2 | by apply Forall_map_delete]) : keeps.
Ltac go f := unfold f; repeat keeps_step.

Lemma attested_fresh : KEEPS fresh.
Proof. go @fresh. Qed.
Hint Resolve attested_fresh : keeps.
Lemma attested_resetState : KEEPS resetState.
Proof. go @resetState. Qed.
Lemma attested_socket_send s a : KEEPS (socket_send s a).
Proof. go @socket_send. Qed.
Lemma attested_socket_close s : KEEPS (socket_close s).
Proof. go @socket_close. Qed.
Lemma attested_new_socket u : KEEPS (new_socket u).
Proof. go @new_socket. Qed.
Lemma attested_clear_timeout t : KEEPS (clear_timeout t).
Proof. go @clear_timeout. Qed.
Lemma attested_endSession r : KEEPS (endSession cb r).
Proof. go @endSession. Qed.
Hint Resolve attested_resetState attested_socket_send attested_socket_close attested_new_socket
  attested_clear_timeout attested_endSession : keeps.
Lemma attested_scheduleReconnect : KEEPS (scheduleReconnect cb).
Proof. unfold scheduleReconnect, set_timeout. repeat keeps_step. Qed.
Hint Resolve attested_scheduleReconnect : keeps.
Lemma attested_closeFromRelay : KEEPS (closeFromRelay cb).
Proof. go @closeFromRelay. Qed.
Lemma attested_dropAndReconnect : KEEPS (dropAndReconnect cb).
Proof. go @dropAndReconnect. Qed.
Lemma attested_handleConnectionClosed : KEEPS (handleConnectionClosed cb).
Proof. go @handleConnectionClosed. Qed.
Lemma attested_openWebSocket tok : KEEPS (openWebSocket tok).
Proof. go @openWebSocket. Qed.
Hint Resolve attested_closeFromRelay attested_dropAndReconnect attested_handleConnectionClosed attested_openWebSocket : keeps.
Lemma attested_openWithToken : KEEPS openWithToken.
Proof. go @openWithToken. Qed.
Hint Resolve attested_openWithToken : keeps.
Lemma attested_afterRoomCheck st : KEEPS (afterRoomCheck cb st).
Proof. go @afterRoomCheck. Qed.
Lemma attested_disconnect : KEEPS (disconnect cb).
Proof. unfold disconnect, removeUnloadListener, clearRetryTimer, leaveAndClose. repeat keeps_step. Qed.
Lemma attested_send a now : KEEPS (send a now).
Proof. go @send. Qed.
Hint Resolve attested_afterRoomCheck attested_disconnect attested_send : keeps.

Lemma attested_addPeer p :
  (∀ id i, PeerInfoJson_clientId p = Some id → PeerInfoJson_identity p = Some i → K id i) → KEEPS (addPeer cb p).
Proof.
  intros Hp. apply keeps_bind; [|eauto with keeps]. destruct (PeerInfoJson_clientId p) as [id|]; [|apply keeps_ret].
  apply keeps_when, attested_modc. intros c Hc. apply Forall_map_set; [done|]. intros i Hi. by apply Hp.
Qed.

Lemma attested_addPeer_json p : peer_attested p → KEEPS (addPeer cb (peerToJson p)).
Proof. intros Hp. apply attested_addPeer. intros id i [= <-] Hi. apply Hp. by destruct p as [? ? ? ? ? ? ? []]. Qed.

Lemma attested_setOwners new (m m' : list (jsstr * PeerInfoJson)) :
  Forall entry_attested m → Forall entry_attested m' →
  Forall entry_attested (foldl (λ m '(id, p), map_set id (setOwner new id p) m) m' m).
Proof.
  intros Hm. revert m'. induction Hm as [|[id p] m Hp Hm IH]; intros m' Hm'; [done|]. apply IH, Forall_map_set; done.
Qed.

Lemma attested_handleOwnerChanged new : KEEPS (handleOwnerChanged cb new).
Proof.
  unfold handleOwnerChanged. keeps_step; [eauto with keeps|]. keeps_step; [|eauto with keeps].
  apply attested_modc. intros c Hc. by apply attested_setOwners.
Qed.

Lemma attested_handleRoomJoined rj :
  match RoomJoined_room rj with Some r => Forall (λ x, peer_attested x.2) (Room_peers r) | None => True end →
  KEEPS (handleRoomJoined cb rj).
Proof.
  intros Hr. unfold handleRoomJoined. do 7 (keeps_step; [repeat keeps_step|]). keeps_step; [by apply attested_addPeer|].
  destruct (RoomJoined_room rj) as [r|]; [|apply keeps_ret]. induction Hr as [|[k p] ps Hp Hps IH]; [by intros w|].
  apply keeps_bind; [by apply attested_addPeer_json|intros []; exact IH].
Qed.
Hint Resolve attested_handleOwnerChanged attested_handleRoomJoined attested_addPeer_json : keeps.

Lemma attested_handleEvent ev : event_attested ev → KEEPS (handleEvent cb ev).
Proof.
  unfold event_attested, handleEvent, handleError, handleSessionEnded. intros Hev. keeps_step; [eauto with keeps|].
  destruct (CollabEvent_event ev) eqn:Ee; cbn in Hev; repeat keeps_step.
Qed.

(** A turn keeps what is known, if it is known of the peers its message names. *)
Lemma attested_exec input : (∀ s ev, input = IMessage s ev → event_attested ev) → KEEPS (exec cb input).
Proof.
  intros Hev. destruct input; cbn [exec]; unfold connect, sendAppMessage, connectResolved, onMessage, onClose, set_status,
    tokenFulfilled, tokenRejected, retryTimerFired, rejoinIfRoomExists, start_connect;
    try (specialize (Hev _ _ eq_refl); keeps_step; [eauto with keeps|by apply attested_handleEvent]); repeat keeps_step.
Qed.

Lemma attested_getPeer c k p i : attested c → getPeer c k = Some p → PeerInfoJson_identity p = Some i → K k i.
Proof.
  unfold attested, getPeer. intros Hc. induction Hc as [|[k' p'] m Hp Hm IH]; [done|]. cbn. destruct (decide (k' = k)) as [->|]; [|exact IH].
  intros [= ->]. by apply Hp.
Qed.
End roster.
