(* ===== verification/IdentityRelay.v ===== *)
(** * Whose words and identities a relay tells

    Under every schedule, the identities a relay shows are those its
    authentication found for its connections, and what it tells as a client's
    words a connection of that client's said: no client can put another into a
    message, or words into another's mouth, and what is known of a client stays
    known. First of the service, then of the connections that use it. *)

From S2P Require Import Prelude JsText JsMap Models CollabClient Concurrency Relay RelayInvariants RelaySafety RelayStream.
From S2P Require Import IdentityRoster.
Open Scope Z_scope.

Section service.
Context {G : GoRuntime}.
(** What holds of the identities that connections are let in with, and of a
    client's id, a message's kind and its payload if the client said it. *)
Context (Found : option PeerIdentity → Prop) (said : jsstr → jsstr → list N → Prop).

Definition worded (e : RelayEvent) : Prop :=
  match re_body e with rb_event (ev_appMessage msg) => said (re_from e) (AppMessage_kind msg) (AppMessage_payload msg) | _ => True end.
#[refine] Instance true_tidings : Tidings := {| fine e := plain e ∧ worded e |}.
Proof. intros [x f b]. unfold quiet, plain, worded. cbn. by destruct b as [| |[]]. Defined.

(** The states of the relay, and that clients in it are known by their ids. *)
Context (occurs : Relay → Prop) (Joined : jsstr → option PeerIdentity → Prop).
Context (Hjoined : ∀ s c cl, occurs s → clientStore s !! c = Some cl → Joined (ClientId cl) (PeerInfo_identity (info cl))).

(** Some client has this id, and this identity or none. *)
Definition vouched (s : Relay) (k : jsstr) (who : option PeerIdentity) : Prop :=
  ∃ c cl, clientStore s !! c = Some cl ∧ ClientId cl = k ∧ PeerInfo_identity (info cl) = who.

(** All that is queued is true, clients are told apart, and their identities
    were found. *)
Record sound (s : Relay) : Prop := {
  sound_queues c cl e : clientStore s !! c = Some cl → e ∈ SendCh cl → fine e;
  sound_refs c : is_Some (clientStore s !! c) → (c < nextRef s)%nat;
  sound_found : identified Found s
}.

Definition voucher (s : Relay) (x : jsstr * option PeerIdentity) : Prop := vouched s x.1 x.2.

#[export] Instance voucher_facts : Facts voucher.
Proof.
  intros [k i]. unfold voucher. split; cbn [fst snd].
  - unfold vouched. by intros s s' _ -> _.
  - intros s c g Hg (c' & cl & Hc & Hk & Hi). unfold vouched. cbn. destruct (decide (c' = c)) as [->|Hne].
    + exists c, (g cl). rewrite lookup_alter_eq, Hc. destruct (Hg cl Hc) as [Ek Ei _]. split; [done|]. by rewrite Ek, Ei.
    + exists c', cl. by rewrite lookup_alter_ne.
  - unfold vouched. by intros s s' k' _ -> _.
Qed.

#[export] Instance sound_settled : Settled sound.
Proof.
  assert (∀ s s', clientStore s' = clientStore s → nextRef s' = nextRef s → sound s → sound s') as Hsame.
  { intros s s' Ec Er [H1 H2 H3]. split; rewrite ?Ec, ?Er; [exact H1|exact H2|]. unfold identified. by rewrite Ec. }
  split.
  - intros s s' _. apply Hsame.
  - intros s c g Hg Hs. pose proof (settled_client (J := identified Found) s c g Hg (sound_found s Hs)) as Hf.
    destruct Hs as [H1 H2 H3]. split; [| |exact Hf].
    + intros c' cl e. cbn. destruct (decide (c' = c)) as [->|]; [rewrite lookup_alter_eq|rewrite lookup_alter_ne by done; apply H1].
      destruct (clientStore s !! c) as [cl0|] eqn:Ec; [|done]. cbn. intros [= <-] He.
      destruct (same_queue _ _ (Hg cl0 eq_refl) e He); [by eapply H1|done].
    + intros c' Hc'. apply H2. cbn in Hc'. by rewrite lookup_alter_is_Some in Hc'.
  - intros s s' k _. apply Hsame.
Qed.

Lemma sound_joins ctx join now :
  Found (identity ctx) →
  (∀ k, opens ctx join k → steady occurs sound voucher (GetOrCreateRoom k now)) ∧
  (∀ r k id, steady occurs sound voucher (AddClient r (new_client ctx join k id))).
Proof.
  intros Hctx. split.
  - intros k _. apply (steady_step _ _ _ (λ _, true)). intros s Hs. destruct (rooms s !! k); [done|].
    split; [|by intros v]. destruct Hs as [H1 H2 H3]. split; cbn; [exact H1| |exact H3]. intros c Hc%H2. lia.
  - intros r k id. apply steady_step. intros s [H1 H2 H3].
    assert (∀ s', clientStore s' = <[nextRef s := new_client ctx join k id]> (clientStore s) → nextRef s' = S (nextRef s) →
      sound s' ∧ ∀ v, voucher s v → voucher s' v) as Hadd; [|by apply Hadd].
    intros s' Ec Er. split; [split|]; unfold identified, voucher, vouched; rewrite ?Ec, ?Er.
    + intros c cl e [[_ <-]|[_ Hc]]%lookup_insert_Some; [by intros ?%elem_of_nil|by eapply H1].
    + intros c. rewrite lookup_insert_is_Some. intros [<-|[_ Hc%H2]]; lia.
    + intros c cl [[_ <-]|[_ Hc]]%lookup_insert_Some; [exact Hctx|by eapply H3].
    + intros v (c & cl & Hc & Hk). exists c, cl. split; [|done].
      rewrite lookup_insert_ne; [done|]. intros <-. specialize (H2 (nextRef s) ltac:(by eexists)). lia.
Qed.

Lemma sound_HandleAction cfg ctx now a :
  (is_join (CollabAction_action a) = true → Found (identity ctx)) → may_say (CollabAction_clientId a) (CollabAction_action a) →
  steady occurs sound voucher (HandleAction cfg ctx now a).
Proof. intros Hctx. apply steady_HandleAction; [apply _..|]. intros join E. apply sound_joins, Hctx. by rewrite E. Qed.

(** ** What handlers answer

    Nothing that a client worded; and a client that was let in is known by the
    id it is told. *)

Definition answers_well (ctx : option Principal) (r : Result) : Prop :=
  match r with
  | Reply e => quiet e ∧ match re_body e with rb_roomJoined id _ _ _ => Joined id (identity ctx) | _ => True end
  | _ => True
  end.
Abbreviation comes_to := (yields occurs).

Ltac yields_step :=
  match goal with
  | |- yields _ _ (match ?x with _ => _ end) => destruct x
  | |- yields _ _ (mbind _ _) => apply yields_bind; intros ?
  | |- yields _ _ (mret _) => solve [exact I | repeat split; exact I]
  | |- yields _ _ _ => assumption
  end.

Definition quiet_event (e : RelayEvent) : Prop := match re_body e with rb_event _ => quiet e | _ => False end.

Lemma answers_refuse ctx code message : comes_to (answers_well ctx) (refuse code message).
Proof.
  apply (yields_bind_post _ quiet_event); [by apply yields_bind|]. intros [x f []]; [done..|]. by intros He.
Qed.

Lemma answers_left ctx id n : comes_to (answers_well ctx) (left_reply id n).
Proof. unfold left_reply. repeat yields_step. Qed.

Lemma answers_admit cfg ctx join k r enc : comes_to (answers_well ctx) (admit_client cfg ctx join k r enc).
Proof.
  unfold admit_client. apply yields_bind; intros peers. apply yields_bind; intros id.
  apply (yields_bind_post _ (λ _, Joined id (identity ctx))).
  { apply yields_once. intros s Ho. apply (Hjoined _ (nextRef s) (new_client ctx join k id) Ho). cbn. by rewrite lookup_insert_eq. }
  intros c Hc. do 5 (apply yields_bind; intros ?). apply yields_bind; intros [room|]; [by split|exact I].
Qed.
#[local] Hint Resolve answers_refuse answers_left answers_admit : core.

Lemma answers_HandleAction cfg ctx now a : comes_to (answers_well ctx) (HandleAction cfg ctx now a).
Proof.
  unfold HandleAction, handleJoin, join_room, handleLeave, stay, end_room, handlePresence, handleBroadcast.
  destruct (CollabAction_action a); cbn [broadcast_event]; repeat (yields_step || eauto).
Qed.
End service.

(** ** Connections *)

(** Whose a connection is, and what it was asked to send. *)
Section streams.
Context {G : GoRuntime} {C : Selector} (Found : option PeerIdentity → Prop).
Context (cfg : ServiceConfig) (now : Timestamp).
Context (occurs : Server → Prop) (Joined : jsstr → option PeerIdentity → Prop) (Comes : nat → option PeerIdentity → Prop).
Context (Asked : nat → jsstr → list N → Prop).
Context (Hjoined : ∀ s c cl, occurs s → clientStore (service s) !! c = Some cl → Joined (ClientId cl) (PeerInfo_identity (info cl))).
Context (Hcomes : ∀ s i, occurs s → Comes i (identity (of_stream None principal i s))).
Implicit Types (i c k : nat) (s : Server).

(** The connection speaks for the client of that id. *)
Definition speaks_for i (id : jsstr) : Prop := ∃ who, Comes i who ∧ Joined id who.
Definition said (id kind : jsstr) (payload : list N) : Prop := ∃ i, speaks_for i id ∧ Asked i kind payload.
#[local] Instance told : Tidings := true_tidings said.

(** The service is sound, what is queued for sockets is true, and the
    connections' principals were found. *)
Record steadfast s : Prop := {
  sf_service : sound Found said (service s);
  sf_queues i st e : streams s !! i = Some st → e ∈ sendCh st → fine e;
  sf_principals i st : streams s !! i = Some st → Found (identity (principal st));
  sf_names i st : streams s !! i = Some st → truthy (stream_clientId st) = true → speaks_for i (stream_clientId st)
}.
Definition vouches s s' : Prop := ∀ x, voucher (service s) x → voucher (service s') x.

(** Code that keeps this and whom the service vouches for, and comes to [Q]. *)
Abbreviation sure := (surely occurs steadfast vouches).
Definition okay s s' : Prop := steadfast s' ∧ vouches s s'.

Lemma sure_ret {A} (a : A) (Q : A → Prop) : Q a → sure (mret a) Q.
Proof. done. Qed.

Lemma sure_step {A} (f : Server → option (Server * proc Server A)) Q :
  (∀ s, steadfast s → match f s with Some (s', p') => okay s s' ∧ sure p' Q | None => True end) → sure (Step f) Q.
Proof. intros Hf s _ Hs. specialize (Hf s Hs). by destruct (f s) as [[s' p']|]. Qed.

Lemma sure_atomically {A} (f : Server → Server * A) (Q : A → Prop) :
  (∀ s, steadfast s → okay s (f s).1 ∧ Q (f s).2) → sure (atomically f) Q.
Proof. intros Hf. apply surely_atomically. intros s _ Hs _. by apply Hf. Qed.

Lemma okay_same s : steadfast s → okay s s.
Proof. intros Hs. split; [exact Hs|by intros x]. Qed.

Lemma sure_reads {A} (f : Server → A) (Q : A → Prop) : (∀ s, steadfast s → Q (f s)) → sure (reads f) Q.
Proof. intros Hf. apply sure_atomically. intros s Hs. split; [by apply okay_same|by apply Hf]. Qed.

(** The service's states are those of the server. *)
Definition serves (r : Relay) : Prop := ∃ s, occurs s ∧ service s = r.

Lemma serves_joined r c cl : serves r → clientStore r !! c = Some cl → Joined (ClientId cl) (PeerInfo_identity (info cl)).
Proof. intros (s & Ho & <-). by apply Hjoined. Qed.

Lemma sure_in_service {A} (p : proc Relay A) Q :
  steady serves (sound Found said) voucher p → yields serves Q p → sure (in_service p) Q.
Proof.
  intros Hp Hy. pose proof (surely_yields _ _ _ _ _ _ Hp Hy) as H. clear Hp Hy.
  induction p as [a|f IH] using proc_nested; [by destruct H|]. intros s Ho [H1 H2 H3 H4]. cbn.
  specialize (H (service s) (ex_intro _ s (conj Ho eq_refl)) H1). specialize (IH (service s)).
  destruct (f (service s)) as [[r p']|]; [|done]. intros Ho'. destruct (H (ex_intro _ _ (conj Ho' eq_refl))) as [[Hr Hv] Hp'].
  split; [|by eapply IH]. split; [by split|exact Hv].
Qed.

(** A change of a stream that queues nothing new and keeps the principal. *)
Record modest (f : CollabBidiStream → CollabBidiStream) : Prop := {
  modest_queue st e : e ∈ sendCh (f st) → e ∈ sendCh st;
  modest_principal st : principal (f st) = principal st;
  modest_name st : truthy (stream_clientId (f st)) = true → stream_clientId (f st) = stream_clientId st
}.

Lemma okay_stream i (f : CollabBidiStream → CollabBidiStream) s :
  (∀ st, streams s !! i = Some st → principal (f st) = principal st ∧ (∀ e, e ∈ sendCh (f st) → e ∈ sendCh st ∨ fine e) ∧
     (truthy (stream_clientId (f st)) = true → stream_clientId (f st) = stream_clientId st ∨ speaks_for i (stream_clientId (f st)))) →
  steadfast s → okay s (set_stream i f s).
Proof.
  intros Hf [H1 H2 H3 H4]. split; [|by intros x]. split; [exact H1|..]; intros j st; cbn;
    (destruct (decide (j = i)) as [->|]; [rewrite lookup_alter_eq|rewrite lookup_alter_ne by done; first [apply H2|apply H3|apply H4]]);
    (destruct (streams s !! i) as [st0|] eqn:E; [cbn; destruct (Hf st0 eq_refl) as (Hp & Hq & Hn)|done]).
  - intros e [= <-] He. destruct (Hq e He); [by eapply H2|done].
  - intros [= <-]. rewrite Hp. by eapply H3.
  - intros [= <-] Ht. destruct (Hn Ht) as [En|]; [rewrite En in *; by eapply H4|done].
Qed.

Lemma okay_modest i f s : modest f → steadfast s → okay s (set_stream i f s).
Proof.
  intros [Hq Hp Hn]. apply okay_stream. intros st _. split_and!; [apply Hp| |]; [intros e He; left; by apply Hq|intros Ht; left; by apply Hn].
Qed.

Lemma sure_modest i f (Q : unit → Prop) : modest f → Q tt → sure (writes (set_stream i f)) Q.
Proof. intros Hf HQ. apply sure_atomically. intros s Hs. split; [by apply okay_modest|done]. Qed.

Lemma okay_service s r : sound Found said r → (∀ x, voucher (service s) x → voucher r x) → steadfast s → okay s (s <| service := r |>).
Proof. intros Hr Hx [H1 H2 H3 H4]. by split. Qed.

Lemma okay_panic s : steadfast s → okay s (panic s).
Proof. intros Hs. apply okay_service; [|by intros x|done]. eapply settled_same; [..|apply (sf_service s Hs)]; done. Qed.

(** *** Selects *)

Definition okay_case {A} s (Q : A → Prop) (x : Server * proc Server A) : Prop := okay s x.1 ∧ sure x.2 Q.

Lemma sure_select {A} (cases : Server → list (Server * proc Server A)) Q :
  (∀ s, steadfast s → Forall (okay_case s Q) (cases s)) → sure (select cases) Q.
Proof.
  intros Hc. apply sure_step. intros s Hs. specialize (Hc s Hs).
  cbv zeta. destruct (cases s !! (pick (selects s) mod length (cases s))%nat) as [x|] eqn:Ex; [|exact I].
  destruct (Forall_lookup_1 _ _ _ _ Hc Ex) as [[[H1 H2 H3 H4] Hx] Hp]. split; [|exact Hp]. split; [|exact Hx]. by split.
Qed.

Lemma case_send {A} i e s (p : proc Server A) Q : steadfast s → fine e → sure p Q → Forall (okay_case s Q) (on_send i e s p).
Proof.
  intros Hs He Hp. unfold on_send. destruct (streams s !! i) as [st|] eqn:Ei; [|constructor].
  destruct (sendCh_closed st); [apply Forall_singleton; split; [by apply okay_panic|done]|].
  destruct (_ <? _)%nat; [|constructor]. apply Forall_singleton. split; [|done]. apply okay_stream; [|done]. intros st' _. split_and!; [done| |by left].
  cbn. intros e' [?| ->%list_elem_of_singleton]%elem_of_app; auto.
Qed.

Lemma case_done {A} i s (p : proc Server A) Q : steadfast s → sure p Q → Forall (okay_case s Q) (on_done i s p).
Proof. intros Hs Hp. unfold on_done. destruct (of_stream _ _ _ _); [|constructor]. apply Forall_singleton. split; [by apply okay_same|done]. Qed.

Lemma case_slow {A} c s (p : proc Server A) Q : steadfast s → sure p Q → Forall (okay_case s Q) (on_slow c s p).
Proof. intros Hs Hp. unfold on_slow. destruct (of_client _ _ _ _); [|constructor]. apply Forall_singleton. split; [by apply okay_same|done]. Qed.

Lemma okay_receive s c cl e q :
  clientStore (service s) !! c = Some cl → SendCh cl = e :: q → steadfast s →
  fine e ∧ okay s (s <| service := set_client c (λ cl, cl <| SendCh := q |>) (service s) |>).
Proof.
  intros Ec Eq Hs. assert (∀ e', e' ∈ SendCh cl → fine e') as Hpl by (intros e'; by apply (sound_queues _ _ _ (sf_service s Hs) c)).
  split; [apply Hpl; rewrite Eq; by left|].
  assert (∀ cl', clientStore (service s) !! c = Some cl' → same_peer cl' (cl' <| SendCh := q |>)) as Hsame.
  { intros cl' E. rewrite Ec in E. injection E as <-. split; [done..|]. cbn. intros e' He'. right. apply Hpl. rewrite Eq. by right. }
  apply okay_service; [by apply (settled_client (J := sound Found said)), Hs| |done].
  intros x Hx. by apply (settled_client (J := λ r, voucher r x)).
Qed.

Lemma case_event {A} c s (f : option RelayEvent → proc Server A) Q :
  steadfast s → (∀ e, match e with Some e => fine e | None => True end → sure (f e) Q) → Forall (okay_case s Q) (on_event c s f).
Proof.
  intros Hs Hf. unfold on_event. destruct (clientStore (service s) !! c) as [cl|] eqn:Ec; [|constructor].
  destruct (SendCh cl) as [|e q] eqn:Eq.
  - destruct (SendCh_closed cl); [|constructor]. apply Forall_singleton. split; [by apply okay_same|by apply Hf].
  - destruct (okay_receive s c cl e q Ec Eq Hs) as [He Ho]. apply Forall_singleton. split; [done|by apply Hf].
Qed.

(** *** Operations *)

Abbreviation any := (λ _ : _, True).

Lemma sure_newUUID : sure (in_service newUUID) any.
Proof. apply sure_in_service; [apply steady_newUUID; apply _|apply yields_any]. Qed.

Lemma sure_reply i e : fine e → sure (reply i e) any.
Proof.
  intros He. apply sure_select. intros s Hs. apply Forall_app. split; [by apply case_send|by apply case_done].
Qed.

Lemma sure_leaveAndCleanup i reason : sure (leaveAndCleanup cfg now i reason) any.
Proof.
  apply (surely_bind _ _ _ _ _ any); [apply sure_atomically; intros s Hs; split; [by apply okay_modest|done]|].
  intros [k id] _. unfold whenp. destruct (_ && _); [|by apply sure_ret].
  apply (surely_bind _ _ _ _ _ any); [|by intros; apply sure_ret]. apply sure_in_service; [by apply sound_HandleAction|apply yields_any].
Qed.

Lemma sure_endSession i reason : sure (RelayStream.endSession cfg now i reason) any.
Proof.
  apply sure_step. intros s Hs. destruct (streams s !! i) as [st|]; [|done].
  destruct (endOnce st); [destruct (ended st); [|done]; split; [by apply okay_same|by apply sure_ret]|].
  split; [by apply okay_modest|]. apply (surely_bind _ _ _ _ _ any); [apply sure_leaveAndCleanup|intros _ _].
  apply (surely_bind _ _ _ _ _ any); [apply sure_newUUID|intros id _]. apply (surely_bind _ _ _ _ _ any); [by apply sure_reply|intros _ _].
  by apply sure_modest.
Qed.

Lemma sure_forward i c k held : match held with Some e => fine e | None => True end → sure (forward i c k held) any.
Proof.
  revert held. induction k as [|k IH]; intros held Hh; [by apply sure_ret|]. apply sure_step. intros s Hs.
  assert (∀ e s', okay s s' → fine e → match on_send i e s' (forward i c k None) with
    | x :: _ => okay s x.1 ∧ sure x.2 any
    | [] => okay s s' ∧ sure (mret tt) any end) as Hsend.
  { intros e s' [Hs' Hv] He. pose proof (case_send i e s' (forward i c k None) any Hs' He (IH None I)) as Hc.
    destruct (on_send i e s' (forward i c k None)) as [|x l]; [by split|]. inversion_clear Hc as [|? ? [[Hx Hxv] Hp] _].
    split; [|done]. split; [done|]. intros y Hy. by apply Hxv, Hv. }
  assert (∀ e s', okay s s' → fine e → match
      match on_send i e s' (forward i c k None) with x :: _ => Some x | [] => Some (s', mret tt) end
    with Some (s', p') => okay s s' ∧ sure p' any | None => True end) as Hstep.
  { intros e s' Ho He. specialize (Hsend e s' Ho He). by destruct (on_send i e s' (forward i c k None)) as [|[] l]. }
  destruct held as [e|]; [apply Hstep; [by apply okay_same|done]|].
  destruct (clientStore (service s) !! c) as [cl|] eqn:Ec; [|split; [by apply okay_same|by apply sure_ret]].
  destruct (SendCh cl) as [|e q] eqn:Eq; [split; [by apply okay_same|by apply sure_ret]|].
  destruct (okay_receive s c cl e q Ec Eq Hs) as [He Ho]. by apply Hstep.
Qed.

Lemma sure_evictSlow i c k held : match held with Some e => fine e | None => True end → sure (evictSlow cfg now i c k held) any.
Proof. intros Hh. apply (surely_bind _ _ _ _ _ any); [by apply sure_forward|intros _ _; apply sure_endSession]. Qed.

Lemma sure_bridge_loop i c k : sure (bridge_loop cfg now i c k) any.
Proof.
  induction k as [|k IH]; [by apply sure_ret|]. apply sure_select. intros s Hs. rewrite !Forall_app. split_and!.
  - apply case_event; [done|]. intros [e|] He; [|by apply sure_ret]. apply sure_select. intros s' Hs'. rewrite !Forall_app. split_and!.
    + by apply case_send.
    + apply case_slow; [done|]. by apply sure_evictSlow.
    + apply case_done; [done|by apply sure_ret].
  - apply case_slow; [done|]. by apply sure_evictSlow.
  - apply case_done; [done|by apply sure_ret].
Qed.

Lemma sure_bridge i k : sure (bridge cfg now i k) any.
Proof.
  apply sure_step. intros s Hs. destruct (of_stream None bridging i s) as [c|]; [|done]. split; [by apply okay_same|apply sure_bridge_loop].
Qed.

Lemma sure_watchClose i : sure (watchClose cfg now i) any.
Proof.
  apply sure_step. intros s Hs. destruct (of_stream false cancelled i s); [|done]. split; [by apply okay_modest|apply sure_leaveAndCleanup].
Qed.

Lemma sure_expire i : sure (expire cfg now i) any.
Proof. apply (surely_bind _ _ _ _ _ any); [by apply sure_modest|intros _ _; apply sure_endSession]. Qed.

Lemma sure_hang_up i : sure (hang_up i) any.
Proof. by apply sure_modest. Qed.

(** The name a connection is given is its client's. *)
Lemma sure_name i sessionId id : speaks_for i id →
  sure (writes (set_stream i (λ st, st <| stream_sessionId := sessionId |> <| stream_clientId := id |>))) any.
Proof.
  intros Hid. apply sure_atomically. intros s Hs. split; [|done]. apply okay_stream; [|done]. intros st _.
  split_and!; [done|by auto|by right].
Qed.

Lemma sure_started i ctx resp : Comes i (identity ctx) → answers_well Joined ctx resp → sure (started i resp) any.
Proof.
  intros Hi Hr. unfold started. destruct resp as [[? ? []]| |]; try by apply sure_ret. destruct Hr as [_ Hr].
  apply (surely_bind _ _ _ _ _ any); [apply sure_name; by exists (identity ctx)|intros _ _].
  apply (surely_bind _ _ _ _ _ any); [|intros [c|] _; [by apply sure_modest|by apply sure_ret]].
  apply sure_in_service; [apply steady_reads; apply _|apply yields_any].
Qed.

Lemma sure_stream_error code message : sure (stream_error code message) quiet.
Proof. apply (surely_bind _ _ _ _ _ any); [apply sure_newUUID|]. intros id _. by apply sure_ret. Qed.

Lemma sure_refused i code message : sure (e ← stream_error code message; reply i e) any.
Proof. apply (surely_bind _ _ _ _ _ quiet); [apply sure_stream_error|]. intros e He. by apply sure_reply, fine_quiet. Qed.

(** What a connection was asked to send. *)
Definition asks i (a : CollabAction_action_case) : Prop :=
  match a with act_appMessage msg => Asked i (AppMessage_kind msg) (AppMessage_payload msg) | _ => True end.

Lemma speaks_may_say i id a : speaks_for i id → asks i a → may_say id a.
Proof. intros Hid Ha. destruct a; try done. intros n to. split; [done|]. by exists i. Qed.

(** A connection's join carries the principal it was let in with. *)
Lemma sure_act i action : Found None → may_say (CollabAction_clientId action) (CollabAction_action action) →
  sure (ctx ← reads (of_stream None principal i);
        resp ← in_service (HandleAction cfg ctx now action);
        whenp (is_join (CollabAction_action action)) (started i resp) ;;
        match resp with Reply event => reply i event | NoReply => mret None | Fail message => mret (Some (ServiceError message)) end) any.
Proof.
  intros Hnone Hsay. apply (surely_bind _ _ _ _ _ (λ ctx, Found (identity ctx) ∧ Comes i (identity ctx))).
  { apply surely_atomically. intros s Ho Hs _. split; [by apply okay_same|]. split; [|by apply Hcomes]. unfold of_stream. cbn.
    destruct (streams s !! i) as [st|] eqn:E; [by apply (sf_principals s Hs i)|done]. }
  intros ctx [Hctx Hcome]. apply (surely_bind _ _ _ _ _ (answers_well Joined ctx)).
  { apply sure_in_service; [by apply sound_HandleAction|apply answers_HandleAction, serves_joined]. }
  intros resp Hresp. apply (surely_bind _ _ _ _ _ any).
  { unfold whenp. destruct (is_join _); [by apply (sure_started i ctx)|by apply sure_ret]. }
  intros _ _. destruct resp; [apply sure_reply, fine_quiet, Hresp|by apply sure_ret..].
Qed.

(** Its messages are its client's. *)
Lemma sure_Send i limit a : Found None → asks i (CollabAction_action a) → sure (Send cfg now i limit a) any.
Proof.
  intros Hnone Hasks. unfold Send. destruct (if is_control _ then _ else _) as [message|]; [apply sure_refused|].
  apply (surely_bind _ _ _ _ _ (λ id, truthy id = true → speaks_for i id)).
  { apply sure_reads. intros s Hs. unfold of_stream. destruct (streams s !! i) as [st|] eqn:E; [by apply (sf_names s Hs i)|done]. }
  intros joinedAs Hname. destruct (negb (is_join (CollabAction_action a)) && negb (truthy joinedAs)) eqn:Ej; [by apply sure_ret|].
  destruct (is_join (CollabAction_action a) && truthy joinedAs); [apply sure_refused|].
  apply (sure_act i (mkCollabAction (CollabAction_actionId a) (if is_join (CollabAction_action a) then CollabAction_clientId a else joinedAs)
    (CollabAction_timestamp a) (CollabAction_action a)) Hnone). cbn.
  destruct (is_join _) eqn:Ei; [by destruct (CollabAction_action a)|]. apply (speaks_may_say i); [|done]. apply Hname. by destruct (truthy joinedAs).
Qed.

(** What goes out to a socket is true. *)
Lemma sure_Recv i : sure (Recv i) (λ e, match e with Some e => fine e | None => True end).
Proof.
  set (Q := λ e : option RelayEvent, match e with Some e => fine e | None => True end).
  assert (∀ s empty, steadfast s → Forall (okay_case s Q) empty → Forall (okay_case s Q)
    (match streams s !! i with
     | Some st => match sendCh st with
                  | e :: q => [(set_stream i (λ st, st <| sendCh := q |>) s, mret (Some e))]
                  | [] => if sendCh_closed st then [(s, mret None)] else empty
                  end
     | None => [] end)) as Hq.
  { intros s empty Hs He. destruct (streams s !! i) as [st|] eqn:Ei; [|constructor]. destruct (sendCh st) as [|e q] eqn:Eq.
    - destruct (sendCh_closed st); [|done]. apply Forall_singleton. split; [by apply okay_same|by apply sure_ret].
    - assert (∀ e', e' ∈ sendCh st → fine e') as Hp by (intros e'; by apply (sf_queues s Hs i)). apply Forall_singleton. split.
      + apply okay_stream; [|done]. intros st' E. rewrite Ei in E. injection E as <-. split_and!; [done| |by left].
        cbn. intros e' He'. right. apply Hp. rewrite Eq. by right.
      + apply sure_ret. apply Hp. rewrite Eq. by left. }
  apply sure_select. intros s Hs. rewrite !Forall_app. split_and!.
  - apply Hq; [done|constructor].
  - destruct (of_stream false ended i s); [|constructor]. apply Forall_singleton. split; [by apply okay_same|].
    apply sure_step. intros s' Hs'. specialize (Hq s' [(s', mret None)] Hs').
    assert (Forall (okay_case s' Q) [(s', mret None)]) as Hone by (apply Forall_singleton; split; [by apply okay_same|by apply sure_ret]).
    specialize (Hq Hone). match type of Hq with Forall _ ?l =>
      change (match head l with Some (s'', p') => okay s' s'' ∧ sure p' Q | None => True end); destruct l as [|[s2 p2] l2]
    end; [done|]. inversion_clear Hq as [|? ? [Ho Hp] _]. by split.
  - apply case_done; [done|by apply sure_ret].
Qed.
End streams.
