(* ===== verification/Network.v ===== *)
(** * Clients and their relay

    Pages with a [CollabClient] each, their sockets, and the relay at the other
    end. A client's effects are carried out in order by its page's runtime;
    what the relay queues for a connection comes out as the client's messages.
    All run as goroutines on one [Net], together with a clock and the scripts
    that drive the pages. Some sockets go through a proxy that can hold back
    what the relay sends. *)

From S2P Require Import Prelude JsText JsMap Models CollabClient Concurrency Polling Relay RelayStream.
From S2P Require StallProxy.
Open Scope Z_scope.

(** ** Data *)

(** A page: its client, with an application of state [H]; how many entries of
    the client's log have been dealt with; when its timers are due, and its
    interval with the period. *)
Record Page (H : Type) := mkPage {
  world : World H;
  done : nat;
  alarms : list (nat * Z);
  interval : option (Z * Z)
}.
Arguments mkPage {H}.
Arguments world {H}.
Arguments done {H}.
Arguments alarms {H}.
Arguments interval {H}.
#[export] Instance eta_Page H : Eta (Page H) := λ p, mkPage (world p) (done p) (alarms p) (interval p).

(** What the proxy does with the bytes of the relay. *)
Inductive Valve := Flowing | Held | Discarding.
#[export] Instance Valve_eq_dec : EqDecision Valve.
Proof. solve_decision. Defined.

(** [up]: the relay runs; [life]: how often it was killed. Stream [c] of the
    relay is socket [dials !! c]: a page, the page's socket, and whether it
    goes through the proxy. [closes], [gone]: what the proxy has seen of the
    relay's end of its sockets. *)
Record Net (H : Type) := mkNet {
  server : Server;
  up : bool;
  life : nat;
  pages : gmap nat (Page H);
  clock : Z;
  dials : list (nat * nat * bool);
  valve : Valve;
  closes : list StallProxy.CloseFrame;
  gone : bool
}.
Arguments mkNet {H}.
Arguments server {H}.
Arguments up {H}.
Arguments life {H}.
Arguments pages {H}.
Arguments clock {H}.
Arguments dials {H}.
Arguments valve {H}.
Arguments closes {H}.
Arguments gone {H}.
#[export] Instance eta_Net H : Eta (Net H) := λ n,
  mkNet (server n) (up n) (life n) (pages n) (clock n) (dials n) (valve n) (closes n) (gone n).

#[export] Instance net_clock H : Clock (Net H) := clock.

Definition new_net {H} : Net H := mkNet (mkServer NewCollabService ∅ 0) true 0 ∅ 0 [] Flowing [] false.

(** What lies between a page and the relay's handlers outside the sources: the
    JSON of an action read as a protocol message; what the relay's
    authentication finds for a socket's URL at a time ([None]: refused); the
    URLs that lead through the proxy; the session a room check asks for; the
    close frame of a stream that is over, and how long a write may take. *)
Class Transport := {
  read_action : CollabActionJson → option CollabAction;
  authenticate : Z → jsstr → option (option RelayClaims);
  proxied : jsstr → bool;
  asked_room : jsstr → option jsstr;
  stream_end : StallProxy.CloseFrame;
  write_timeout : Z
}.

(** ** Goroutines *)

Section network.
Context {G : GoRuntime} {C : Selector} {P : Platform} {T : Transport} {H : Type}.
Context (cfg : ServiceConfig) (now : Timestamp).
(** What the application of page [i] does with a callback, and what its
    [getToken] and its interval do. *)
Context (cb : nat → Callback → M (World H) unit).
Context (issue : nat → proc (Net H) jsstr) (on_interval : nat → proc (Net H) unit).
Implicit Types (i c k : nat) (n : Net H).

Abbreviation N := (proc (Net H)).

(** The relay's code; [None] when the relay is killed while at it. *)
Definition in_server {A} (p : proc Server A) : N (option A) :=
  Step (λ n, Some (n, let l := life n in
    (fix go p :=
      match p with
      | Done a => Done (Some a)
      | Step f => Step (λ n,
          if (life n =? l)%nat then
            match f (server n) with Some (s, p') => Some (n <| server := s |>, go p') | None => None end
          else Some (n, Done None))
      end) p)).
Definition run_server {A} (p : proc Server A) : N unit := in_server p ≫= λ _, mret tt.

Definition set_page i (f : Page H → Page H) n : Net H := n <| pages := alter f i (pages n) |>.
Definition set_app i (f : H → H) : Net H → Net H := set_page i (λ p, p <| world := (world p) <| app := f (app (world p)) |> |>).

(** One turn of the page's event loop, for an input that can come: an event of
    a socket that is gone is no event. *)
Definition can_come (e : Env) (input : Input) : bool :=
  match input with
  | IMessage s _ => match sockets e !! s with Some (Open _) => true | _ => false end
  | _ => enabled e input
  end.
Definition turn_of i (input : Input) n : Net H :=
  set_page i (λ p, if can_come (env (world p)) input then p <| world := run1 (cb i) input (world p) |> else p) n.
Definition page_turn i (input : Input) : N unit := writes (turn_of i input).

(** *** The page's runtime *)

(** The next entry of the client's log. *)
Definition next_entry i n : option Entry :=
  p ← pages n !! i; reverse (log (world p)) !! done p.

(** The relay's stream for a socket. *)
Definition stream_of i (s : nat) n : option nat := fst <$> list_find (λ d, d.1 = (i, s)) (dials n).

(** A new socket: the relay opens a stream for it, or refuses it. *)
Definition dial i (s : nat) (url : jsstr) : N unit :=
  Step (λ n, Some (
    match (if up n then authenticate (clock n) url else None) with
    | Some claims =>
        (n <| server := (server n) <| streams := <[length (dials n) := NewCollabBidiStream claims]> (streams (server n)) |> |>
           <| dials := dials n ++ [(i, s, proxied url)] |>,
         page_turn i (IOpened s) ;; page_turn i (IConnectResolved s))
    | None => (n, page_turn i (IError s (js "Unexpected server response")) ;; page_turn i (IClose s))
    end)).

(** [GET /api/v1/rooms/{session_id}]. *)
Definition room_status (url : jsstr) : N (option Z) :=
  alive ← reads up;
  match (if alive : bool then asked_room url else None) with
  | Some sessionId =>
      room ← in_server (in_service (GetRoom sessionId));
      mret ((λ r : option RoomSnapshot, if r is Some _ then 200 else 404) <$> room)
  | None => mret None
  end.

(** What the client's log asks for, [k] entries at most. *)
Fixpoint effects i k : N unit :=
  match k with
  | O => mret tt
  | S k' =>
      Step (λ n,
        match next_entry i n with
        | None => None
        | Some entry =>
            let n := set_page i (λ p, p <| done := S (done p) |>) n in
            Some (n,
              match entry with
              | Eff (ENewSocket s url) => dial i s url
              | Eff (ESend s action) =>
                  match stream_of i s n, read_action action with
                  | Some c, Some a => if streams (server n) !! c is Some _ then run_server (Send cfg now c None a) else mret tt
                  | _, _ => mret tt
                  end
              | Eff (EClose s) => match stream_of i s n with Some c => run_server (hang_up c) | None => mret tt end
              | Eff (ESetTimeout t delay) => writes (λ n, set_page i (λ p, p <| alarms := alarms p ++ [(t, clock n + delay)] |>) n)
              | Eff (EClearTimeout t) => writes (set_page i (λ p, p <| alarms := filter (λ a, a.1 ≠ t) (alarms p) |>))
              | Eff EGetToken => tok ← issue i; page_turn i (ITokenFulfilled tok)
              | Eff (EFetch url) => status ← room_status url; page_turn i (IRoomCheck status)
              | _ => mret tt
              end ;;
              effects i k')
        end)
  end.

(** Promise continuations, timers and the interval, [k] of each. *)
Fixpoint microtasks i k : N unit :=
  match k with
  | O => mret tt
  | S k' => Step (λ n, p ← pages n !! i;
      if (0 <? tokenCalls (env (world p)))%nat then Some (n, page_turn i ICallGetToken ;; microtasks i k') else None)
  end.

Fixpoint timers_ring i k : N unit :=
  match k with
  | O => mret tt
  | S k' => Step (λ n, p ← pages n !! i;
      '(_, a) ← list_find (λ a : nat * Z, a.2 <= clock n) (alarms p);
      Some (set_page i (λ p, p <| alarms := filter (λ b, b.1 ≠ a.1) (alarms p) |>) n, page_turn i (ITimer a.1) ;; timers_ring i k'))
  end.

Fixpoint interval_rings i k : N unit :=
  match k with
  | O => mret tt
  | S k' => Step (λ n, p ← pages n !! i;
      '(at_, period) ← interval p;
      if at_ <=? clock n
      then Some (set_page i (λ p, p <| interval := Some (clock n + period, period) |>) n, on_interval i ;; interval_rings i k')
      else None)
  end.

(** *** Connections *)

Definition through c n : bool := from_option (λ d, d.2) false (dials n !! c).
Definition flows c n : bool := negb (through c n) || negb (bool_decide (valve n = Held)).

(** The relay's end of socket [c] is gone; the page hears when it can. *)
Definition hears_end c i s : N unit :=
  once (flows c) (λ n, (n, tt)) ;;
  writes (λ n, if through c n then n <| gone := true |> else n) ;;
  page_turn i (IClose s).

(** What comes over socket [c], [k] events at most, as the relay writes it;
    then its end. A write that takes too long is the end as well. *)
Fixpoint socket_in c k : N unit :=
  match k with
  | O => mret tt
  | S k' =>
      Step (λ n,
        match dials n !! c with
        | None => None
        | Some ((i, s), _) => Some (n,
            e ← in_server (Recv c);
            match e : option (option RelayEvent) with
            | Some (Some e) =>
                since ← reads clock;
                Step (λ n,
                  if flows c n then
                    Some ((if through c n && bool_decide (valve n = Discarding) then n
                           else turn_of i (IMessage s (wire (service (server n)) e)) n), socket_in c k')
                  else if since + write_timeout <=? clock n then Some (n, run_server (hang_up c) ;; hears_end c i s)
                  else None)
            | Some None =>
                over ← reads (λ n, of_stream false ended c (server n));
                once (flows c) (λ n, (if over && through c n then n <| closes := closes n ++ [stream_end] |> else n, tt)) ;;
                run_server (hang_up c) ;; hears_end c i s
            | None => hears_end c i s
            end)
        end)
  end.

Definition opened c : N unit := once (λ n, (c <? length (dials n))%nat) (λ n, (n, tt)).

(** The relay's goroutines of a stream: bridge, watcher and expiry. *)
Definition connection c k : list (N unit) :=
  [socket_in c k; opened c ;; run_server (bridge cfg now c k); opened c ;; run_server (watchClose cfg now c);
   once (λ n, due c (clock n) (server n)) (λ n, (n, tt)) ;; run_server (expire cfg now c)].

Definition page_tasks i k : list (N unit) := [effects i k; microtasks i k; timers_ring i k; interval_rings i k].

(** The relay is killed: what it had is gone. Identifiers stay unique. *)
Definition kill_relay n : Net H :=
  n <| up := false |> <| life := S (life n) |>
    <| server := mkServer (NewCollabService <| uuids := uuids (service (server n)) |>) ∅ (selects (server n)) |>.
Definition launch_relay n : Net H := n <| up := true |>.

(** The clock, [k] steps of [step] milliseconds. *)
Fixpoint ticks (step : Z) k : N unit :=
  match k with O => mret tt | S k' => writes (λ n, n <| clock := clock n + step |>) ;; ticks step k' end.

(** ** Scripts *)

(** A test that throws goes no further. *)
Definition throws {A} : N A := Step (λ _, None).
Definition expect (f : Net H → bool) : N unit := Step (λ n, if f n then Some (n, mret tt) else Some (n, throws)).

(** [await until(...)]. *)
Definition until_every (period : Z) (cond : Net H → bool) (ms : Z) : N unit :=
  ok ← poll period cond ms; if ok : bool then mret tt else throws.

Definition get_app {A} (dft : A) (f : H → A) i n : A := from_option (λ p, f (app (world p))) dft (pages n !! i).
Definition get_client {A} (dft : A) (f : CollabClient → A) i n : A := from_option (λ p, f (client (world p))) dft (pages n !! i).

(** [new CollabClient(options)], for an application that starts as [h]. *)
Definition new_page i (o : CollabClientOptions) (h : H) : N unit :=
  writes (λ n, n <| pages := <[i := mkPage (new_world o h) 0 [] None]> (pages n) |>).

(** A script over [count] pages and [conns] connections. *)
Definition network (step : Z) (k : nat) (script : N unit) (count conns : nat) : list (N unit) :=
  script :: ticks step k :: (seq 0 count ≫= λ i, page_tasks i k) ++ (seq 0 conns ≫= λ c, connection c k).

(** Input of a page's own making or its platform's, other than a message. *)
Definition no_message (input : Input) : bool := match input with IMessage _ _ => false | _ => true end.

(** What most scripts are made of: they drive pages, and look; none hands a
    page a message, or takes the relay down. *)
Inductive scripted : ∀ A, N A → Prop :=
  | scripted_ret A (a : A) : scripted A (mret a)
  | scripted_bind A B (p : N A) (f : A → N B) : scripted A p → (∀ a, scripted B (f a)) → scripted B (p ≫= f)
  | scripted_reads A (f : Net H → A) : scripted A (reads f)
  | scripted_turn i input : no_message input = true → scripted unit (page_turn i input)
  | scripted_new_page i o h : scripted unit (new_page i o h)
  | scripted_set_app i f : scripted unit (writes (set_app i f))
  | scripted_sleep ms : scripted unit (sleep ms)
  | scripted_expect f : scripted unit (expect f)
  | scripted_until period cond ms : scripted unit (until_every period cond ms).

(** What became of relay and pages after some turns. *)
Definition net_after (step : Z) (k : nat) (script : N unit) (count conns : nat) (turns : list nat) : Net H :=
  shared (schedule turns (mkThreads new_net (network step k script count conns))).
End network.

Arguments scripted {P H} cb {A}.
Ltac scripted_step :=
  first [ apply scripted_ret | apply scripted_reads | by apply scripted_turn | apply scripted_new_page
        | apply scripted_set_app | apply scripted_sleep | apply scripted_expect | apply scripted_until | apply scripted_bind ]; intros.

(** ** Runs *)

Definition is_done {S A} (p : proc S A) : bool := match p with Done _ => true | Step _ => false end.

(** Rounds of turns, each in its own order, until the script is over. *)
Fixpoint rounds {S} (order : nat → nat → list nat) (k : nat) (t : threads S unit) : threads S unit :=
  match k with
  | O => t
  | Datatypes.S k' =>
      if from_option is_done true (head (pool t)) then t
      else rounds order k' (schedule (order k (length (pool t))) t)
  end.

(** The script got to its end. *)
Definition passes {S} (t : threads S unit) : bool := from_option is_done false (head (pool t)).

(** Everyone's turn in a circle; the circle turned back; and one in which
    round [k] starts with goroutine [k]. *)
Definition in_order (_ n : nat) : list nat := seq 0 n.
Definition reversed (_ n : nat) : list nat := reverse (seq 0 n).
Definition rotated (k n : nat) : list nat := let m := (k mod n)%nat in seq m (n - m) ++ seq 0 m.
