(* ===== verification/NetworkSafety.v ===== *)
(** * The relay under its pages

    However pages, connections, clock and script take their turns, the relay
    they share keeps its invariant: nothing panics, and its clients are told
    apart by their ids. *)

From S2P Require Import Prelude JsText JsMap Models CollabClient Concurrency Polling Relay RelayInvariants RelayStream RelayStreamSafety Network.
Open Scope Z_scope.

Section network.
Context {G : GoRuntime} {L : GoLaws G} {C : Selector} {P : Platform} {T : Transport} {H : Type}.
Context (cfg : ServiceConfig) (now : Timestamp).
Context (cb : nat → Callback → M (World H) unit).
Context (issue : nat → proc (Net H) jsstr) (on_interval : nat → proc (Net H) unit).
Implicit Types (i c k : nat) (n : Net H).

Definition sound_net n : Prop := sane (server n).
Definition net_holds n : nat + nat → token → Prop := service_holds (server n).

(** Code that keeps the relay sane, whatever locks and names it has. *)
Definition minds {A} (p : proc (Net H) A) : Prop := ∀ O, safe sound_net net_holds O p (λ _ _, True).

Lemma minds_ret {A} (a : A) : minds (mret a).
Proof. done. Qed.

Lemma minds_bind {A B} (p : proc (Net H) A) (f : A → proc (Net H) B) : minds p → (∀ a, minds (f a)) → minds (p ≫= f).
Proof. intros Hp Hf O. apply safe_bind. eapply safe_mono; [apply Hp|]. intros O' a _. apply Hf. Qed.

Lemma minds_step {A} (f : Net H → option (Net H * proc (Net H) A)) :
  (∀ n, sound_net n → match f n with Some (n', p') => settled (server n) (server n') ∧ minds p' | None => True end) → minds (Step f).
Proof.
  intros Hf O n Hn Ho. specialize (Hf n Hn). destruct (f n) as [[n' p']|]; [|done]. destruct Hf as [[Hn' Hh] Hp].
  split; [done|]. exists O. split; [|apply Hp]. split; [intros x v Hx; by apply Hh, Ho|intros x v Hx Hv; by split; [apply Hh|]].
Qed.

Lemma settled_local n n' : server n' = server n → sound_net n → settled (server n) (server n').
Proof. intros -> Hn. by apply settled_same. Qed.

(** Steps that leave the server alone. *)
Lemma minds_once {A} ready (f : Net H → Net H * A) : (∀ n, server (f n).1 = server n) → minds (once ready f).
Proof.
  intros Hf. apply minds_step. intros n Hn. specialize (Hf n). destruct (ready n); [|done]. destruct (f n) as [n' a]. cbn in Hf.
  split; [by apply settled_local|apply minds_ret].
Qed.

Lemma minds_atomically {A} (f : Net H → Net H * A) : (∀ n, server (f n).1 = server n) → minds (atomically f).
Proof. apply (minds_once (λ _, true)). Qed.

Lemma minds_reads {A} (f : Net H → A) : minds (reads f).
Proof. by apply minds_atomically. Qed.

Lemma minds_writes (f : Net H → Net H) : (∀ n, server (f n) = server n) → minds (writes f).
Proof. intros Hf. by apply minds_atomically. Qed.

Lemma minds_in_server {A} (p : proc Server A) : careful p → minds (in_server p).
Proof.
  intros Hp. apply minds_step. intros n Hn. split; [by apply settled_local|]. generalize (life n). intros l. clear n Hn.
  intros O. specialize (Hp O). revert O Hp. induction p as [a|f IH] using proc_nested; intros O Hp; [done|].
  intros n Hn Ho. destruct (life n =? l)%nat; [|split; [done|]; exists O; by split].
  specialize (Hp (server n) Hn Ho). specialize (IH (server n)). destruct (f (server n)) as [[s p']|]; [|done].
  destruct Hp as (Hs & O' & [Hm1 Hm2] & Hp'). split; [exact Hs|]. exists O'. split; [by split|by eapply IH].
Qed.

Lemma minds_run_server {A} (p : proc Server A) : careful p → minds (run_server p).
Proof. intros Hp. apply minds_bind; [by apply minds_in_server|done]. Qed.

Hint Resolve minds_ret minds_reads : core.

Lemma minds_page_turn i input : minds (page_turn cb i input).
Proof. by apply minds_writes. Qed.
Hint Resolve minds_page_turn : core.

Lemma minds_dial i s url : minds (dial cb i s url).
Proof.
  assert (∀ input1 input2, minds (page_turn cb i input1 ;; page_turn cb i input2)) as Htwo by (intros; by apply minds_bind).
  apply minds_step. intros n Hn. destruct (if up n then _ else _) as [claims|]; [|by split; [apply settled_local|]].
  split; [|done]. destruct Hn as [H1 H2]. split; [|done]. split; [exact H1|]. intros j st. cbn.
  intros [[_ <-]|[_ Hj]]%lookup_insert_Some; [done|by eapply H2].
Qed.

Lemma minds_room_status url : minds (room_status url).
Proof.
  unfold room_status. apply minds_bind; [done|]. intros alive. destruct (if alive then _ else _) as [k|]; [|done].
  apply minds_bind; [|done]. apply minds_in_server, careful_in_service. unfold GetRoom, ToProto, GetPeerInfo. calm_go.
Qed.

Context (Hissue : ∀ i, minds (issue i)) (Hinterval : ∀ i, minds (on_interval i)).

Lemma minds_effects i k : minds (effects cfg now cb issue i k).
Proof.
  induction k as [|k IH]; [done|]. apply minds_step. intros n Hn. destruct (next_entry i n) as [entry|]; [|done].
  split; [by apply settled_local|]. apply minds_bind; [|done].
  destruct entry as [|[s url|s action|s|t d|t| |url| |]]; try done.
  - apply minds_dial.
  - change (stream_of i s _) with (stream_of i s n). destruct (stream_of i s n) as [c|]; [|done].
    destruct (read_action action) as [a|]; [|done]. case_match; [|done]. apply minds_run_server, careful_Send.
  - destruct (stream_of i s _) as [c|]; [|done]. apply minds_run_server, careful_hang_up.
  - by apply minds_writes.
  - by apply minds_writes.
  - by apply minds_bind.
  - apply minds_bind; [apply minds_room_status|done].
Qed.

Lemma minds_microtasks i k : minds (microtasks cb i k).
Proof.
  induction k as [|k IH]; [done|]. apply minds_step. intros n Hn. destruct (pages n !! i) as [p|]; [|done]. cbn [mbind option_bind].
  destruct (Nat.ltb _ _); [|done]. split; [by apply settled_local|by apply minds_bind].
Qed.

Lemma minds_timers_ring i k : minds (timers_ring cb i k).
Proof.
  induction k as [|k IH]; [done|]. apply minds_step. intros n Hn. destruct (pages n !! i) as [p|]; [|done]. cbn [mbind option_bind].
  destruct (list_find _ _) as [[j a]|]; [|done]. cbn [mbind option_bind]. split; [by apply settled_local|by apply minds_bind].
Qed.

Lemma minds_interval_rings i k : minds (interval_rings on_interval i k).
Proof.
  induction k as [|k IH]; [done|]. apply minds_step. intros n Hn. destruct (pages n !! i) as [p|]; [|done]. cbn [mbind option_bind].
  destruct (interval p) as [[at_ period]|]; [|done]. cbn [mbind option_bind]. destruct (at_ <=? clock n); [|done].
  split; [by apply settled_local|by apply minds_bind].
Qed.

Lemma minds_hears_end c i s : minds (hears_end cb c i s).
Proof.
  apply minds_bind; [by apply minds_once|intros _]. apply minds_bind; [|done]. apply minds_writes. intros n. by destruct (through c n).
Qed.

Lemma minds_hang_up c : minds (run_server (hang_up c)).
Proof. apply minds_run_server, careful_hang_up. Qed.
Hint Resolve minds_hears_end minds_hang_up : core.

Lemma minds_socket_in c k : minds (socket_in cb c k).
Proof.
  induction k as [|k IH]; [done|]. apply minds_step. intros n Hn. destruct (dials n !! c) as [[[i s] via]|]; [|done].
  split; [by apply settled_local|]. apply minds_bind; [apply minds_in_server, careful_Recv|]. intros [[e|]|]; [| |done].
  - apply minds_bind; [done|]. intros since. apply minds_step. intros n' Hn'. destruct (flows c n').
    + split; [|done]. destruct (_ && _); by apply settled_local.
    + destruct (_ <=? _); [|done]. split; [by apply settled_local|by apply minds_bind].
  - apply minds_bind; [done|]. intros over. apply minds_bind; [|intros _; by apply minds_bind].
    apply minds_once. intros n'. cbn. by destruct (_ && _).
Qed.

Lemma minds_connection c k : Forall minds (connection cfg now cb c k).
Proof.
  repeat constructor; [apply minds_socket_in|..]; (apply minds_bind; [by apply minds_once|intros _; apply minds_run_server]).
  - apply careful_bridge.
  - apply careful_watchClose.
  - apply careful_expire.
Qed.

Lemma minds_ticks step k : minds (ticks step k).
Proof. induction k as [|k IH]; [done|]. apply minds_bind; [by apply minds_writes|done]. Qed.

Lemma minds_network step k script count conns :
  minds script → Forall minds (network cfg now cb issue on_interval step k script count conns).
Proof.
  intros Hs. constructor; [exact Hs|]. constructor; [apply minds_ticks|]. apply Forall_app. split; apply Forall_bind, Forall_forall; intros x _.
  - repeat constructor; [apply minds_effects|apply minds_microtasks|apply minds_timers_ring|apply minds_interval_rings].
  - apply minds_connection.
Qed.

Lemma minds_tick k period cond ms start : minds (tick k period cond ms start).
Proof.
  induction k as [|k IH]; [done|]. apply minds_step. intros n Hn. split; [by apply settled_local|]. destruct (cond n); [done|]. destruct (_ <? _); [done|].
  apply minds_bind; [|done]. apply minds_bind; [done|]. intros t. by apply minds_once.
Qed.

Lemma scripted_minds A (p : proc (Net H) A) : scripted cb p → minds p.
Proof.
  induction 1; try done; try (by apply minds_writes).
  - by apply minds_bind.
  - apply minds_bind; [done|]. intros t. by apply minds_once.
  - apply minds_step. intros n Hn. by destruct (f n); (split; [apply settled_local|]).
  - apply minds_bind; [apply minds_bind; [done|]; intros start; apply minds_tick|]. intros [|]; [done|]. by apply minds_step.
Qed.
End network.

Lemma network_wf {G : GoRuntime} {L : GoLaws G} {C : Selector} {P : Platform} {T : Transport} {H}
    (cb : nat → Callback → M (World H) unit) cfg now issue on_interval step k script count conns turns :
  (∀ i, scripted cb (issue i)) → (∀ i, scripted cb (on_interval i)) → scripted cb script →
  wf (service (server (net_after cfg now cb issue on_interval step k script count conns turns))).
Proof.
  intros Hi Ho Hs. apply sane_service, (safe_schedule sound_net net_holds).
  - split; [apply new_wf|]. intros i st. cbn. by rewrite lookup_empty.
  - eapply Forall_impl; [apply minds_network; intros; by apply (scripted_minds cb)|]. intros p Hp. apply Hp.
Qed.

(** C12: However pages, connections, clock and script take their turns, the
    relay under them never panics, a room's members are its clients of those
    ids, with open queues of at most 64 events, and no two of the clients
    there have ever been have the same id. *)
Theorem network_relay_consistent {G : GoRuntime} {L : GoLaws G} {C : Selector} {P : Platform} {T : Transport} {H}
    (cb : nat → Callback → M (World H) unit) cfg now issue on_interval step k script count conns turns :
  (∀ i, scripted cb (issue i)) → (∀ i, scripted cb (on_interval i)) → scripted cb script →
  let s := service (server (net_after cfg now cb issue on_interval step k script count conns turns)) in
  panicked s = false ∧
  (∀ r room id c, roomStore s !! r = Some room → Clients room !! id = Some c →
     ∃ cl, clientStore s !! c = Some cl ∧ ClientId cl = id ∧ SendCh_closed cl = false) ∧
  (∀ c cl, clientStore s !! c = Some cl → (length (SendCh cl) <= sendCap)%nat) ∧
  (∀ c c' cl cl', clientStore s !! c = Some cl → clientStore s !! c' = Some cl' → ClientId cl = ClientId cl' → c = c').
Proof.
  intros Hi Ho Hs s. destruct (network_wf cb cfg now issue on_interval step k script count conns turns Hi Ho Hs). by split_and!.
Qed.
