(* ===== verification/AppMessageSuite.v ===== *)
(** * The app-message suite ([ts/interop/app-message.interop.ts])

    The suite's peers, what their callbacks record, and its tests, as scripts
    over clients and relay. That the model of both ends passes the tests the
    real ones are held to is checked in [SuiteRuns]. *)

From S2P Require Import Prelude JsText JsMap Models CollabClient Concurrency Polling Relay RelayStream Network.
Open Scope Z_scope.

Record Received := mkReceived { kind : jsstr; payload : list N; from : jsstr; to : jsstr }.
#[export] Instance Received_eq_dec : EqDecision Received.
Proof. solve_decision. Defined.

(** The client of a [Peer] is a page of the network; [connected] is [join]'s
    variable. *)
Record Peer := mkPeer { clientId : jsstr; received : list Received; errors : list jsstr; connected : jsstr }.
#[export] Instance eta_Peer : Eta Peer := λ p, mkPeer (clientId p) (received p) (errors p) (connected p).

Definition update (f : Peer → Peer) : M (World Peer) unit := modify (λ w, w <| app := f (app w) |>).

(** The callbacks [join] gives to its client. *)
Definition recorder (_ : nat) (c : Callback) : M (World Peer) unit :=
  match c with
  | OnConnect id => update (λ p, p <| connected := id |>)
  | OnAppMessage kind payload from to => update (λ p, p <| received := received p ++ [mkReceived kind payload from to] |>)
  | OnErrorEvent code _ => update (λ p, p <| errors := errors p ++ [code] |>)
  | _ => mret tt
  end.

Section suite.
Context {P : Platform}.
Context (relayUrl room : jsstr).
Abbreviation script := (proc (Net Peer)).

Definition id_of i : Net Peer → jsstr := get_app [] clientId i.
Definition received_by i : Net Peer → list Received := get_app [] received i.
Definition errors_of i : Net Peer → list jsstr := get_app [] errors i.
Definition from_to (r : Received) : jsstr * jsstr := (from r, to r).

Definition until (cond : Net Peer → bool) : script unit := until_every 10 cond 3000.
Definition settle : script unit := sleep 200.
Definition sends i (kind : jsstr) (payload : list N) (target : SendTo) : script unit :=
  millis ← reads (λ n, Z.to_N (clock n)); page_turn recorder i (ISendAppMessage kind payload target millis).
Definition disconnects i : script unit := page_turn recorder i IDisconnect.

(** [join], up to its [await] and after it. *)
Definition start_join i (sessionId name : jsstr) : script unit :=
  new_page i default_options (mkPeer [] [] [] []) ;;
  page_turn recorder i (IConnect (connect_args relayUrl sessionId name []) []).
Definition finish_join i : script unit :=
  until (λ n, truthy (get_app [] connected i n)) ;; writes (set_app i (λ p, p <| clientId := connected p |>)).
Definition join i (sessionId name : jsstr) : script unit := start_join i sessionId name ;; finish_join i.

Definition got i (n : Net Peer) : bool := (0 <? length (received_by i n))%nat.
Definition is_from_to i (pairs : Net Peer → list (jsstr * jsstr)) (n : Net Peer) : bool :=
  bool_decide (from_to <$> received_by i n = pairs n).

(** The tests. Page 0 is [bridge]; the others follow in the order they join. *)

Definition delivers_to_target_only : script unit :=
  join 0 room (js "bridge") ;; join 1 room (js "page1") ;; join 2 room (js "page2") ;;
  page2 ← reads (id_of 2);
  sends 0 (js "tools/call") [1; 2; 3]%N (ToOne page2) ;;
  until (got 2) ;;
  settle ;;
  expect (λ n, bool_decide (received_by 2 n = [mkReceived (js "tools/call") [1; 2; 3]%N (id_of 0 n) page2])) ;;
  expect (λ n, bool_decide (received_by 1 n = [])) ;;
  expect (λ n, bool_decide (received_by 0 n = [])) ;;
  expect (λ n, bool_decide (errors_of 0 n = [])).

Definition fans_out : script unit :=
  join 0 room (js "bridge") ;; join 1 room (js "page1") ;; join 2 room (js "page2") ;;
  sends 0 (js "roster") [9]%N ToRoom ;;
  until (λ n, got 1 n && got 2 n) ;;
  settle ;;
  expect (is_from_to 1 (λ n, [(id_of 0 n, [])])) ;;
  expect (is_from_to 2 (λ n, [(id_of 0 n, [])])) ;;
  expect (λ n, bool_decide (received_by 0 n = [])).

Definition addresses_several : script unit :=
  join 0 room (js "bridge") ;; join 1 room (js "page1") ;; join 2 room (js "page2") ;; join 3 room (js "page3") ;;
  join 4 room (js "bystander") ;;
  to ← reads (λ n, (λ i, id_of i n) <$> [1; 2; 3]%nat);
  sends 0 (js "tools/call") [4]%N (ToMany to) ;;
  until (λ n, forallb (λ i, got i n) [1; 2; 3]%nat) ;;
  settle ;;
  each (λ i, expect (is_from_to i (λ n, [(id_of 0 n, id_of i n)]))) [1; 2; 3]%nat ;;
  expect (λ n, bool_decide (received_by 4 n = [])) ;;
  expect (λ n, bool_decide (errors_of 0 n = [])).

(** [A${i + 1}] and [B${i}]. *)
Definition numbered (letter : jsstr) (i : nat) : jsstr := letter ++ js_number (N.of_nat i).

Definition keeps_order : script unit :=
  join 0 room (js "bridge") ;;
  each (λ i, start_join i room (numbered (js "page") i)) (seq 1 5) ;;
  each finish_join (seq 1 5) ;;
  to ← reads (λ n, (λ i, id_of i n) <$> seq 1 5);
  each (λ i, id ← reads (id_of i); sends 0 (numbered (js "A") i) [N.of_nat (i - 1)] (ToOne id)) (seq 1 5) ;;
  each (λ i, sends 0 (numbered (js "B") i) [N.of_nat i] (ToMany to)) (seq 1 5) ;;
  until (λ n, forallb (λ i, (length (received_by i n) =? 6)%nat) (seq 1 5)) ;;
  each (λ i, expect (λ n, bool_decide (kind <$> received_by i n =
    numbered (js "A") i :: (numbered (js "B") <$> seq 1 5)))) (seq 1 5) ;;
  expect (λ n, bool_decide (errors_of 0 n = [])).

Definition answers_peer_not_found : script unit :=
  join 0 room (js "bridge") ;; join 1 room (js "page1") ;; join 2 room (js "gone") ;;
  goneId ← reads (id_of 2);
  disconnects 2 ;;
  settle ;;
  sends 0 (js "tools/call") [1]%N (ToOne goneId) ;;
  until (λ n, (0 <? length (errors_of 0 n))%nat) ;;
  settle ;;
  expect (λ n, bool_decide (errors_of 0 n = [js "PEER_NOT_FOUND"])) ;;
  expect (λ n, bool_decide (received_by 1 n = [])) ;;
  page1 ← reads (id_of 1);
  sends 0 (js "tools/call") [3]%N (ToMany [goneId; page1]) ;;
  until (got 1) ;;
  until (λ n, (1 <? length (errors_of 0 n))%nat) ;;
  expect (λ n, bool_decide (errors_of 0 n = [js "PEER_NOT_FOUND"; js "PEER_NOT_FOUND"])) ;;
  writes (set_app 1 (λ p, p <| received := [] |>)) ;;
  expect (get_client false _isConnected 0) ;;
  sends 0 (js "tools/call") [2]%N (ToOne page1) ;;
  until (got 1) ;;
  expect (is_from_to 1 (λ n, [(id_of 0 n, page1)])).

(** The room's id is [room] with [/board.kicad_sch]. *)
Definition room_with_slash : script unit :=
  let room := room ++ js "/board.kicad_sch" in
  join 0 room (js "bridge") ;; join 1 room (js "page") ;;
  expect (λ n, bool_decide (get_client [] _sessionId 0 n = room)) ;;
  sends 0 (js "roster") [7]%N ToRoom ;;
  until (got 1) ;;
  expect (λ n, bool_decide (from <$> received_by 1 n = [id_of 0 n])).

(** What [open] holds after a test of [count] peers is disconnected, the latest first. *)
Definition afterEach (count : nat) : script unit := each disconnects (reverse (seq 0 count)).

Definition suite : list (script unit) :=
  [delivers_to_target_only ;; afterEach 3; fans_out ;; afterEach 3; addresses_several ;; afterEach 5;
   keeps_order ;; afterEach 6; answers_peer_not_found ;; afterEach 3; room_with_slash ;; afterEach 2].
End suite.
