(* ===== verification/IdentitySuite.v ===== *)
(** * The identity suite ([ts/interop/identity.interop.ts])

    A relay that tells its clients who their peers are, from the tokens they
    came with, and a page that answers calls of one subject only: the suite's
    peers, the page's handler, and the tests as scripts. That the model of both
    ends passes them is checked in [SuiteRuns]. *)

From S2P Require Import Prelude JsText JsMap Models CollabClient Jwt Concurrency Polling Relay RelayStream Network.
Open Scope Z_scope.

Record Received := mkReceived { kind : jsstr; body : jsstr; from : jsstr; to : jsstr }.
#[export] Instance Received_eq_dec : EqDecision Received.
Proof. solve_decision. Defined.

#[export] Instance PeerIdentityJson_eq_dec : EqDecision PeerIdentityJson.
Proof. solve_decision. Defined.

(** [trusted]: the subject that [answerCallsFrom] has set the page's handler
    to answer, if it was called. *)
Record Peer := mkPeer {
  clientId : jsstr;
  joined : list PeerInfoJson;
  received : list Received;
  connected : jsstr;
  trusted : option jsstr
}.
#[export] Instance eta_Peer : Eta Peer := λ p, mkPeer (clientId p) (joined p) (received p) (connected p) (trusted p).

Definition text (s : jsstr) : list N := text_encode s.

Definition update (f : Peer → Peer) : M (World Peer) unit := modify (λ w, w <| app := f (app w) |>).
Definition push_received (r : Received) : M (World Peer) unit := update (λ p, p <| received := received p ++ [r] |>).

(** [page.client.getPeer(from)?.identity?.subject]: [None] is undefined. *)
Definition subject_of (c : CollabClient) (from : jsstr) : option jsstr :=
  p ← getPeer c from; i ← PeerInfoJson_identity p; PeerIdentityJson_subject i.

Section callbacks.
Context {P : Platform}.

(** The handler [answerCallsFrom] installs. [now]
    is [Date.now()]. *)
Definition answerCallsFrom (trusted : jsstr) (now : N) (kind : jsstr) (payload : list N) (from : jsstr) : M (World Peer) unit :=
  me ← gets (λ w, clientId (app w));
  push_received (mkReceived kind (text_decode payload) from me) ;;
  c ← gets client;
  if negb (bool_decide (kind = js "call")) || negb (bool_decide (subject_of c from = Some trusted)) then mret tt
  else sendAppMessage (js "reply") (text (js "ran " ++ text_decode payload)) (ToOne from) now.

(** The callbacks [join] gives to its client, and what became of them. *)
Definition callbacks (_ : nat) (c : Callback) : M (World Peer) unit :=
  match c with
  | OnConnect id => update (λ p, p <| connected := id |>)
  | OnPeerJoined peer => update (λ p, p <| joined := joined p ++ [peer] |>)
  | OnAppMessage kind payload from to =>
      page ← gets app;
      match trusted page with
      | Some t => answerCallsFrom t 0 kind payload from
      | None => push_received (mkReceived kind (text_decode payload) from to)
      end
  | _ => mret tt
  end.
End callbacks.

Section suite.
Context {P : Platform}.
Context (relayUrl room : jsstr).
(** The key of the relay, and how it signs tokens at a time. *)
Context (keyClientId : jsstr) (sign : Z → jsstr → jsstr).
Abbreviation script := (proc (Net Peer)).

Definition id_of i : Net Peer → jsstr := get_app [] clientId i.
Definition joined_by i : Net Peer → list PeerInfoJson := get_app [] joined i.
Definition received_by i : Net Peer → list Received := get_app [] received i.
Definition peer_of i (id : jsstr) : Net Peer → option PeerInfoJson := get_client None (λ c, getPeer c id) i.
Definition subject_at i (id : jsstr) : Net Peer → option jsstr := get_client None (λ c, subject_of c id) i.

Definition until (cond : Net Peer → bool) : script unit := until_every 10 cond 3000.
Definition settle : script unit := sleep 200.

Definition join i (name : jsstr) (subject : option jsstr) : script unit :=
  millis ← reads clock;
  new_page i (mkOptions None None None (sign millis <$> subject) false) (mkPeer [] [] [] [] None) ;;
  page_turn callbacks i (IConnect (connect_args relayUrl room name []) []) ;;
  until (λ n, truthy (get_app [] connected i n)) ;;
  writes (set_app i (λ p, p <| clientId := connected p |>)).
Definition answers_calls_from i (subject : jsstr) : script unit := writes (set_app i (λ p, p <| trusted := Some subject |>)).
Definition calls i j : script unit :=
  to ← reads (id_of j); page_turn callbacks i (ISendAppMessage (js "call") (text (js "select_part")) (ToOne to) 0).
Definition afterEach (count : nat) : script unit := each (λ i, page_turn callbacks i IDisconnect) (reverse (seq 0 count)).

Definition names (id : jsstr) (p : PeerInfoJson) : bool := bool_decide (PeerInfoJson_clientId p = Some id).
Definition first_seen (id : jsstr) (peers : list PeerInfoJson) : option PeerInfoJson := head (List.filter (names id) peers).
Definition identity_in (peer : option PeerInfoJson) : option PeerIdentityJson := peer ≫= PeerInfoJson_identity.
Definition identity_of (subject : jsstr) : PeerIdentityJson := mkPeerIdentityJson (Some subject) (Some keyClientId).

(** The tests: pages are numbered in the order they join. *)

Definition later_joiner : script unit :=
  join 0 (js "bob") (Some (js "bob")) ;; join 1 (js "alice") (Some (js "alice")) ;;
  alice ← reads (id_of 1);
  until (λ n, existsb (names alice) (joined_by 0 n)) ;;
  expect (λ n, bool_decide (identity_in (first_seen alice (joined_by 0 n)) =
    Some (identity_of (js "alice")))) ;;
  expect (λ n, bool_decide (identity_in (peer_of 0 alice n) = Some (identity_of (js "alice")))).

Definition roster_of_joiner : script unit :=
  join 0 (js "bob") (Some (js "bob")) ;; join 1 (js "alice") (Some (js "alice")) ;;
  bob ← reads (id_of 0);
  expect (λ n, bool_decide (identity_in (peer_of 1 bob n) = Some (identity_of (js "bob")))) ;;
  expect (λ n, bool_decide ((identity_in (first_seen bob (joined_by 1 n)) ≫= PeerIdentityJson_subject) = Some (js "bob"))).

Definition kinds_from (r : Received) : jsstr * jsstr := (kind r, from r).

Definition answers_own_user : script unit :=
  join 0 (js "page") (Some (js "alice")) ;; answers_calls_from 0 (js "alice") ;;
  join 1 (js "agent") (Some (js "alice")) ;; join 2 (js "bystander") (Some (js "carol")) ;;
  calls 1 0 ;;
  until (λ n, (length (received_by 1 n) =? 1)%nat) ;;
  settle ;;
  expect (λ n, bool_decide (kinds_from <$> received_by 0 n = [(js "call", id_of 1 n)])) ;;
  expect (λ n, bool_decide (received_by 1 n = [mkReceived (js "reply") (js "ran select_part") (id_of 0 n) (id_of 1 n)])) ;;
  expect (λ n, bool_decide (received_by 2 n = [])).

Definition ignores_other_subject : script unit :=
  join 0 (js "page") (Some (js "alice")) ;; answers_calls_from 0 (js "alice") ;;
  join 1 (js "alice") (Some (js "mallory")) ;;
  calls 1 0 ;;
  until (λ n, (length (received_by 0 n) =? 1)%nat) ;;
  settle ;;
  expect (λ n, bool_decide (subject_at 0 (id_of 1 n) n = Some (js "mallory"))) ;;
  expect (λ n, bool_decide (received_by 1 n = [])).

(** With a relay that lets peers in without a token. *)
Definition ignores_no_token : script unit :=
  join 0 (js "page") (Some (js "alice")) ;; answers_calls_from 0 (js "alice") ;;
  join 1 (js "alice") None ;; join 2 (js "agent") (Some (js "alice")) ;;
  expect (λ n, bool_decide (identity_in (peer_of 0 (id_of 1 n) n) = None)) ;;
  expect (λ n, bool_decide (subject_at 0 (id_of 2 n) n = Some (js "alice"))) ;;
  calls 1 0 ;; calls 2 0 ;;
  until (λ n, (length (received_by 2 n) =? 1)%nat) ;;
  settle ;;
  expect (λ n, bool_decide (from <$> received_by 0 n = [id_of 1 n; id_of 2 n])) ;;
  expect (λ n, bool_decide (received_by 1 n = [])).

Definition suite_required : list (script unit) :=
  [later_joiner ;; afterEach 2; roster_of_joiner ;; afterEach 2; answers_own_user ;; afterEach 3; ignores_other_subject ;; afterEach 2].
Definition suite_optional : list (script unit) := [ignores_no_token ;; afterEach 3].
End suite.
