(* ===== verification/TokenExpirySuite.v ===== *)
(** * The token-expiry suite ([ts/interop/token-expiry.interop.ts])

    A relay ends a connection when the token it was opened with expires: a
    client with that token only is told so, one that can get another rejoins.
    What the suite's clients record, and its tests as scripts. *)

From S2P Require Import Prelude JsText JsMap Models CollabClient Concurrency Polling Relay RelayStream Network.
Open Scope Z_scope.

(** What the callbacks of a test's clients close over. *)
Record Peer := mkPeer { ids : list jsstr; ended : list jsstr; steadyJoined : list jsstr; issued : nat }.
#[export] Instance eta_Peer : Eta Peer := λ p, mkPeer (ids p) (ended p) (steadyJoined p) (issued p).

Definition update (f : Peer → Peer) : M (World Peer) unit := modify (λ w, w <| app := f (app w) |>).

Definition callbacks (_ : nat) (c : Callback) : M (World Peer) unit :=
  match c with
  | OnConnect id => update (λ p, p <| ids := ids p ++ [id] |>)
  | OnSessionEnded r => update (λ p, p <| ended := ended p ++ [r] |>)
  | OnPeerJoined peer =>
      let id := default [] (PeerInfoJson_clientId peer) in
      if truthy id then update (λ p, p <| steadyJoined := steadyJoined p ++ [id] |>) else mret tt
  | _ => mret tt
  end.

Section suite.
Context {P : Platform}.
Context (relayUrl room : jsstr).
(** The key's [sign] at a time: a subject, and for how many seconds. *)
Context (sign : Z → jsstr → Z → jsstr).
Abbreviation script := (proc (Net Peer)).

Definition ids_of i : Net Peer → list jsstr := get_app [] ids i.
Definition ended_of i : Net Peer → list jsstr := get_app [] ended i.
Definition until (cond : Net Peer → bool) (ms : Z) : script unit := until_every 20 cond ms.

Definition connects i (sessionId name : jsstr) : script unit :=
  page_turn callbacks i (IConnect (connect_args relayUrl sessionId name []) []).
Definition opens i (o : CollabClientOptions) : script unit := new_page i o (mkPeer [] [] [] 0).

(** [afterAll], for the clients of a test. *)
Definition afterAll (count : nat) : script unit := each (λ i, page_turn callbacks i IDisconnect) (seq 0 count).

Definition static_token_expires : script unit :=
  tok ← reads (λ n, sign (clock n) (js "alice") 2);
  opens 0 (mkOptions None None None (Some tok) false) ;;
  connects 0 room (js "alice") ;;
  until (λ n, (length (ids_of 0 n) =? 1)%nat) 5000 ;;
  until (λ n, (0 <? length (ended_of 0 n))%nat) 5000 ;;
  expect (λ n, bool_decide (ended_of 0 n = [js "token_expired"])) ;;
  expect (λ n, negb (get_client true _isConnected 0 n)) ;;
  expect (λ n, (length (ids_of 0 n) =? 1)%nat).

(** The second test's [getToken]. *)
Definition fresh_token i : script jsstr :=
  k ← atomically (λ n, (set_app i (λ p, p <| issued := S (issued p) |>) n, S (get_app 0%nat issued i n)));
  reads (λ n, sign (clock n) (js "alice") (if (k =? 1)%nat then 2 else 3600)).

(** Page 0 is [steady]. *)
Definition fresh_token_rejoins : script unit :=
  tok ← reads (λ n, sign (clock n) (js "bob") 3600);
  opens 0 (mkOptions None None None (Some tok) false) ;;
  connects 0 room (js "bob") ;;
  until (get_client false _isConnected 0) 5000 ;;
  opens 1 (mkOptions None None (Some 100) None true) ;;
  connects 1 room (js "alice") ;;
  until (λ n, (length (ids_of 1 n) =? 1)%nat) 5000 ;;
  until (λ n, (length (ids_of 1 n) =? 2)%nat && get_client false _isConnected 1 n) 8000 ;;
  expect (λ n, bool_decide (ended_of 1 n = [])) ;;
  expect (λ n, (get_app 0%nat issued 1 n =? 2)%nat) ;;
  expect (λ n, bool_decide (get_client [] _sessionId 1 n = room)) ;;
  until (λ n, bool_decide (default [] (ids_of 1 n !! 1%nat) ∈ get_app [] steadyJoined 0 n)) 3000.

Definition suite : list (script unit) := [static_token_expires ;; afterAll 1; fresh_token_rejoins ;; afterAll 2].
End suite.
