(* ===== verification/SlowConsumerSuite.v ===== *)
(** * The slow-consumer suite ([ts/interop/slow-consumer.interop.ts])

    One client is behind a proxy that stops passing on what the relay sends,
    while three others send to it without pause: the relay evicts it. The
    suite's peers, their intervals, and its tests as scripts. *)

From S2P Require Import Prelude JsText JsMap Models CollabClient Concurrency Polling Relay RelayStream Network.
From S2P Require StallProxy.
Open Scope Z_scope.

(** [n] and [target] belong to the peer's interval of [floodUntilEvicted]. *)
Record Peer := mkPeer {
  clientId : jsstr;
  received : list (jsstr * jsstr);
  left : list jsstr;
  ended : list jsstr;
  disconnected : bool;
  connected : jsstr;
  n : N;
  target : jsstr
}.
#[export] Instance eta_Peer : Eta Peer := λ p,
  mkPeer (clientId p) (received p) (left p) (ended p) (disconnected p) (connected p) (n p) (target p).

Definition update (f : Peer → Peer) : M (World Peer) unit := modify (λ w, w <| app := f (app w) |>).

(** The callbacks [join] gives to its client. *)
Definition callbacks (_ : nat) (c : Callback) : M (World Peer) unit :=
  match c with
  | OnConnect id => update (λ p, p <| connected := id |>)
  | OnAppMessage kind _ from _ => update (λ p, p <| received := received p ++ [(kind, from)] |>)
  | OnPeerLeft id => update (λ p, p <| left := left p ++ [id] |>)
  | OnSessionEnded reason => update (λ p, p <| ended := ended p ++ [reason] |>)
  | OnDisconnect => update (λ p, p <| disconnected := true |>)
  | _ => mret tt
  end.

#[export] Instance CloseFrame_eq_dec : EqDecision StallProxy.CloseFrame.
Proof. solve_decision. Defined.

Section suite.
Context {P : Platform}.
(** The relay, the proxy before it, and what the senders send, which is more
    than the buffers between relay and client hold. *)
Context (relayUrl proxyUrl room : jsstr) (payload : list N).
Abbreviation script := (proc (Net Peer)).

Definition id_of i : Net Peer → jsstr := get_app [] clientId i.
Definition has_left (id : jsstr) i (s : Net Peer) : bool := bool_decide (id ∈ get_app [] left i s).

Definition until (cond : Net Peer → bool) (ms : Z) : script unit := until_every 10 cond ms.

Definition join i (url sessionId name : jsstr) : script unit :=
  new_page i (mkOptions (Some false) None None None false) (mkPeer [] [] [] [] false [] 0 []) ;;
  page_turn callbacks i (IConnect (connect_args url sessionId name []) []) ;;
  until (λ s, truthy (get_app [] connected i s)) 3000 ;;
  writes (set_app i (λ p, p <| clientId := connected p |>)).

(** What [floodUntilEvicted]'s interval does for sender [i]. *)
Definition flood i : script unit :=
  id ← reads (get_app [] target i);
  gone ← reads (has_left id i);
  if gone : bool then mret tt
  else
    k ← atomically (λ s, (set_app i (λ p, p <| n := (n p + 1)%N |>) s, get_app 0%N n i s));
    page_turn callbacks i (ISendAppMessage (js_number k) payload (ToOne id) 0).

Definition set_interval i (id : jsstr) (period : Z) : script unit :=
  writes (λ s, set_page i (λ p, p <| interval := Some (clock s + period, period) |>) (set_app i (λ p, p <| n := 0%N |> <| target := id |>) s)).
Definition clear_interval i : script unit := writes (set_page i (λ p, p <| interval := None |>)).

Definition floodUntilEvicted (senders : list nat) (target : nat) (ms : Z) : script unit :=
  id ← reads (id_of target);
  each (λ i, set_interval i id 40) senders ;;
  until (λ s, forallb (λ i, has_left id i s) senders) ms ;;
  each clear_interval senders.

Definition kinds_from (id : jsstr) (received : list (jsstr * jsstr)) : list jsstr :=
  (List.filter (λ r, bool_decide (r.2 = id)) received).*1.
Definition unbroken (kinds : list jsstr) : bool :=
  bool_decide (kinds = (λ i, js_number (N.of_nat i)) <$> seq 0 (length kinds)).
Definition expectUnbrokenPrefixes i (senders : list nat) : script unit :=
  each (λ j, expect (λ s, unbroken (kinds_from (id_of j s) (get_app [] received i s)))) senders.

Definition set_valve (v : Valve) : script unit := writes (λ s, s <| valve := v |>).

Definition senders : list nat := [1; 2; 3]%nat.
Definition all_join : script unit :=
  join 0 proxyUrl room (js "stuck") ;;
  join 1 relayUrl room (js "s1") ;; join 2 relayUrl room (js "s2") ;; join 3 relayUrl room (js "s3").

Definition catches_up : script unit :=
  all_join ;;
  set_valve Held ;;
  floodUntilEvicted senders 0 15000 ;;
  set_valve Flowing ;;
  until (λ s, get_app false disconnected 0 s && gone s) 5000 ;;
  expect (λ s, bool_decide (get_app [] ended 0 s = [js "slow_consumer"])) ;;
  expect (λ s, bool_decide (head (closes s) = Some (StallProxy.mkCloseFrame 1000 (js "stream_end")))) ;;
  expect (λ s, (0 <? length (get_app [] received 0 s))%nat) ;;
  expectUnbrokenPrefixes 0 senders.

Definition stops_reading : script unit :=
  all_join ;;
  set_valve Held ;;
  floodUntilEvicted senders 0 15000 ;;
  sleep 12000 ;;
  set_valve Discarding ;;
  until gone 1000 ;;
  expect (λ s, bool_decide (closes s = [])) ;;
  until (get_app false disconnected 0) 3000 ;;
  expect (λ s, bool_decide (get_app [] ended 0 s = [])).

(** The clean-ups, the latest first: the senders', the stuck client's. *)
Definition afterEach : script unit := each (λ i, page_turn callbacks i IDisconnect) [3; 2; 1; 0]%nat.

Definition suite : list (script unit) := [catches_up ;; afterEach; stops_reading ;; afterEach].
End suite.
