(* ===== verification/ReconnectExercise.v ===== *)
(** * The reconnect exercise ([ts/exercise/reconnect.exercise.ts])

    A relay drops a client that stalls, which rejoins; then the relay is killed
    and started again, and both clients give the session up: the exercise's
    peers, what it reports of them, and its tests as one script. *)

From S2P Require Import Prelude JsText JsMap Models CollabClient Concurrency Polling Relay RelayStream Network.
Open Scope Z_scope.

(** [target]: whom the flood of the first test goes to. *)
Record Peer := mkPeer {
  name : jsstr;
  ids : list jsstr;
  joinedPeers : list jsstr;
  left : list jsstr;
  ended : list jsstr;
  reconnecting : list Z;
  disconnects : nat;
  target : jsstr
}.
#[export] Instance eta_Peer : Eta Peer := λ p,
  mkPeer (name p) (ids p) (joinedPeers p) (left p) (ended p) (reconnecting p) (disconnects p) (target p).

Definition update (f : Peer → Peer) : M (World Peer) unit := modify (λ w, w <| app := f (app w) |>).

(** The callbacks [peer] gives to its client. *)
Definition callbacks (_ : nat) (c : Callback) : M (World Peer) unit :=
  match c with
  | OnConnect id => update (λ p, p <| ids := ids p ++ [id] |>)
  | OnPeerJoined info =>
      let id := default [] (PeerInfoJson_clientId info) in
      if truthy id then update (λ p, p <| joinedPeers := joinedPeers p ++ [id] |>) else mret tt
  | OnPeerLeft id => update (λ p, p <| left := left p ++ [id] |>)
  | OnSessionEnded reason => update (λ p, p <| ended := ended p ++ [reason] |>)
  | OnReconnecting n => update (λ p, p <| reconnecting := reconnecting p ++ [n] |>)
  | OnDisconnect => update (λ p, p <| disconnects := S (disconnects p) |>)
  | _ => mret tt
  end.

(** [parts.join(sep)] and [s.padEnd(n)]. *)
Fixpoint join_with (sep : jsstr) (ss : list jsstr) : jsstr :=
  match ss with [] => [] | [s] => s | s :: ss' => s ++ sep ++ join_with sep ss' end.
Definition padEnd (k : nat) (s : jsstr) : jsstr := s ++ replicate (k - length s) space.

Definition report (p : Peer) (c : CollabClient) : jsstr :=
  let number k := js_number (N.of_nat k) in
  let parts :=
    [js "joined as " ++ join_with (js " then ") (take 8 <$> ids p)] ++
    (if (disconnects p =? 0)%nat then [] else [js "dropped " ++ number (disconnects p) ++ js "x"]) ++
    (if (length (reconnecting p) =? 0)%nat then [] else [js "reconnect attempts " ++ number (length (reconnecting p))]) ++
    (if (length (ended p) =? 0)%nat then [] else [js "session ended: " ++ join_with (js ",") (ended p)]) ++
    [if _isConnected c then js "in room " ++ _sessionId c else js "not connected"] in
  padEnd 8 (name p) ++ js " " ++ join_with (js "; ") parts.

Section exercise.
Context {P : Platform} {G : GoRuntime} {T : Transport}.
(** The relay's and the proxy's URL, and what the flood sends. *)
Context (relayUrl proxyUrl room : jsstr) (payload : list N).
Abbreviation script := (proc (Net Peer)).

Definition ids_of i : Net Peer → list jsstr := get_app [] ids i.
Definition ended_of i : Net Peer → list jsstr := get_app [] ended i.
Definition until (cond : Net Peer → bool) (ms : Z) : script unit := until_every 20 cond ms.

Definition peer i (name : jsstr) : script unit :=
  new_page i (mkOptions None None (Some 200) None false) (mkPeer name [] [] [] [] [] 0 []).
Definition connects i (url : jsstr) : script unit :=
  name ← reads (get_app [] name i); page_turn callbacks i (IConnect (connect_args url room name []) []).
Definition joined_once i (n : Net Peer) : bool := (length (ids_of i n) =? 1)%nat.

(** Page 0 is [a], page 1 is [b], behind the proxy. *)
Definition beforeAll : script unit :=
  peer 0 (js "steady") ;; peer 1 (js "stalled") ;;
  connects 1 proxyUrl ;; until (joined_once 1) 5000 ;;
  connects 0 relayUrl ;; until (joined_once 0) 5000.

Definition set_valve (v : Valve) : script unit := writes (λ n, n <| valve := v |>).

(** What the flood's interval does. *)
Definition flood i : script unit :=
  id ← reads (get_app [] target i); page_turn callbacks i (ISendAppMessage (js "flood") payload (ToOne id) 0).
Definition set_interval i (id : jsstr) (period : Z) : script unit :=
  writes (λ n, set_page i (λ p, p <| interval := Some (clock n + period, period) |>) (set_app i (λ p, p <| target := id |>) n)).
Definition clear_interval i : script unit := writes (set_page i (λ p, p <| interval := None |>)).

Definition rejoins_after_eviction : script unit :=
  firstId ← reads (λ n, default [] (head (ids_of 1 n)));
  set_valve Held ;;
  set_interval 0 firstId 40 ;;
  until (λ n, bool_decide (firstId ∈ get_app [] left 0 n)) 20000 ;;
  clear_interval 0 ;;
  set_valve Flowing ;;
  until (λ n, (length (ids_of 1 n) =? 2)%nat && get_client false _isConnected 1 n) 10000 ;;
  until (λ n, bool_decide (default [] (ids_of 1 n !! 1%nat) ∈ get_app [] joinedPeers 0 n)) 5000 ;;
  expect (λ n, bool_decide (get_client [] _sessionId 1 n = room)) ;;
  expect (λ n, bool_decide (ended_of 1 n = [])).

(** [relay.restart()], for a relay that takes [boot] to be healthy. *)
Definition restart (boot : Z) : script unit := writes kill_relay ;; sleep boot ;; writes launch_relay.

Definition session_gone_after_restart (boot : Z) : script unit :=
  restart boot ;;
  until (λ n, (0 <? length (ended_of 0 n))%nat && (0 <? length (ended_of 1 n))%nat) 15000 ;;
  status ← room_status (ws_to_http relayUrl ++ js "/api/v1/rooms/" ++ default [] (encodeURIComponent room));
  expect (λ n, bool_decide (ended_of 0 n = [js "session_gone"])) ;;
  expect (λ n, bool_decide (ended_of 1 n = [js "session_gone"])) ;;
  expect (λ _, bool_decide (status = Some 404)).

Definition afterAll : script unit := each (λ i, page_turn callbacks i IDisconnect) [0; 1]%nat.

Definition exercise (boot : Z) : script unit :=
  beforeAll ;; rejoins_after_eviction ;; session_gone_after_restart boot ;; afterAll.
End exercise.
