(* ===== verification/AuthExercise.v ===== *)
(** * The auth exercise ([ts/exercise/auth.exercise.ts])

    A relay that requires tokens lets a client into the rooms its token allows,
    refuses it others, and refuses a connection without a token: an attempt to
    join, what it is reported as, and the tests as scripts. *)

From S2P Require Import Prelude JsText JsMap Models CollabClient Concurrency Polling Relay RelayStream Network.
Open Scope Z_scope.

(** [Outcome]; nothing ever sets its [closed]. *)
Record Outcome := mkOutcome { joined : jsstr; errors : list jsstr; wsErrors : nat; closed : bool }.
#[export] Instance eta_Outcome : Eta Outcome := λ o, mkOutcome (joined o) (errors o) (wsErrors o) (closed o).

Definition update (f : Outcome → Outcome) : M (World Outcome) unit := modify (λ w, w <| app := f (app w) |>).

Definition callbacks (_ : nat) (c : Callback) : M (World Outcome) unit :=
  match c with
  | OnConnect id => update (λ o, o <| joined := id |>)
  | OnErrorEvent code _ => update (λ o, o <| errors := errors o ++ [code] |>)
  | OnError _ => update (λ o, o <| wsErrors := S (wsErrors o) |>)
  | _ => mret tt
  end.

Definition describeOutcome (o : Outcome) : jsstr :=
  if truthy (joined o) then js "RoomJoined (clientId " ++ joined o ++ js ")"
  else if (0 <? length (errors o))%nat then js "join error " ++ mjoin_with (js ",") (errors o)
  else if (0 <? wsErrors o)%nat then js "upgrade failed"
  else js "nothing within 2s".

(** What ends an attempt before its time is up. *)
Definition settled (o : Outcome) : bool := truthy (joined o) || (0 <? length (errors o))%nat || (0 <? wsErrors o)%nat.

Section exercise.
Context {P : Platform} {T : Transport}.
Context (relayUrl : jsstr).
(** The key's token for alice and some rooms, at a time. *)
Context (token : Z → list jsstr → jsstr).
Abbreviation script := (proc (Net Outcome)).

Definition outcome i : Net Outcome → Outcome := get_app (mkOutcome [] [] 0 false) id i.

Definition attempt i (sessionId : jsstr) (tok : option jsstr) (ms : Z) : script Outcome :=
  new_page i (mkOptions None None None tok false) (mkOutcome [] [] 0 false) ;;
  page_turn callbacks i (IConnect (connect_args relayUrl sessionId (js "alice") []) []) ;;
  poll 10 (λ n, settled (outcome i n)) ms ;;
  page_turn callbacks i IDisconnect ;;
  reads (outcome i).

(** The status of an upgrade, which no [WebSocket] tells: 101, or the 401 of
    the relay's middleware. *)
Definition upgradeStatus (path : jsstr) : script Z :=
  reads (λ n, if authenticate (clock n) (relayUrl ++ path) is Some _ then 101 else 401).

Definition no_token : script jsstr :=
  status ← upgradeStatus (js "/ws/v1/room-a/sync");
  o ← attempt 0 (js "room-a") None 2000;
  expect (λ _, status =? 401) ;;
  expect (λ _, negb (truthy (joined o))) ;;
  mret (describeOutcome o).

Definition off_claim_room : script jsstr :=
  tok ← reads (λ n, token (clock n) [js "room-*"]);
  o ← attempt 0 (js "other-room") (Some tok) 2000;
  expect (λ _, bool_decide (errors o = [js "ROOM_FORBIDDEN"])) ;;
  mret (describeOutcome o).

Definition allowed_room : script jsstr :=
  tok ← reads (λ n, token (clock n) [js "room-*"]);
  o ← attempt 0 (js "room-a") (Some tok) 2000;
  expect (λ _, truthy (joined o)) ;;
  mret (describeOutcome o).

Definition exercise : list (script jsstr) := [no_token; off_claim_room; allowed_room].
End exercise.
