(* ===== verification/SuiteRuns.v ===== *)
(** * The interop suites, run on the model

    The scripts of the suites over the model of clients and relay, with every
    goroutine of every page and connection taking its turn in a circle. *)

From S2P Require Import Prelude JsText JsMap Models UrlParams CollabClient ClientInvariants Json Jwt Concurrency Relay RelayInvariants RelayDemo.
From S2P Require Import RelayProperties RelayStream RelayConnections Network.
From S2P Require StallProxy.
From S2P Require AppMessageSuite.
From S2P Require IdentitySuite.
From S2P Require TokenExpirySuite.
From S2P Require SlowConsumerSuite.
From S2P Require ReconnectExercise.
From S2P Require AuthExercise.
Open Scope Z_scope.

(** ** What the sources leave to others *)

#[local] Existing Instance node_platform.
#[local] Existing Instance first_ready.
#[local] Existing Instance sample_node.

(** The actions of the suites, read as the protocol's JSON mapping says: a
    missing field has its type's zero. Bytes are the text [node_platform]
    made of them. *)
Definition read_join (j : JoinRoomJson) : JoinRoom :=
  mkJoinRoom (default [] (JoinRoomJson_sessionId j)) (default [] (JoinRoomJson_username j)) (default [] (JoinRoomJson_metadata j))
    (default [] (JoinRoomJson_clientType j)) (default [] (JoinRoomJson_avatarUrl j)) (default false (JoinRoomJson_isOwner j))
    (default [] (JoinRoomJson_browserId j)) (default [] (JoinRoomJson_clientHint j)) (default 0 (JoinRoomJson_protocolVersion j))
    (default false (JoinRoomJson_encrypted j)) (default [] (JoinRoomJson_title j)) (default false (JoinRoomJson_mustExist j)).

Definition read_app_message (m : AppMessageJson) : AppMessage :=
  mkAppMessage (default [] (AppMessageJson_kind m)) (default [] (AppMessageJson_payload m)) (default [] (AppMessageJson_toClientIds m)).

Definition read_json (a : CollabActionJson) : option CollabAction :=
  let action x := mkCollabAction (default [] (CollabActionJson_actionId a)) (default [] (CollabActionJson_clientId a)) 0 x in
  match CollabActionJson_join a, CollabActionJson_leave a, CollabActionJson_appMessage a with
  | Some j, _, _ => Some (action (act_join (read_join j)))
  | None, Some l, _ => Some (action (act_leave (mkLeaveRoom (default [] (LeaveRoomJson_reason l)))))
  | None, None, Some m => Some (action (act_appMessage (read_app_message m)))
  | None, None, None => None
  end.

(** A relay that asks for no token, and no proxy. *)
#[local] Instance open_relay : Transport := {|
  read_action := read_json;
  authenticate _ _ := Some None;
  proxied _ := false;
  asked_room _ := None;
  stream_end := StallProxy.mkCloseFrame 1000 (js "stream_end");
  write_timeout := 10000
|}.

(** The session of a room check's URL, at the relay or through the proxy. *)
Definition session_of_url (url : jsstr) : option jsstr :=
  let path := match Json.strip_prefix (js "http://relay") url with Some p => Some p | None => Json.strip_prefix (js "http://proxy") url end in
  enc ← path ≫= Json.strip_prefix (js "/api/v1/rooms/");
  Some (text_decode (percent_decode enc)).

(** A relay at [ws://relay] with the proxy at [ws://proxy] before it. *)
#[local] Instance proxied_relay : Transport := {|
  read_action := read_json;
  authenticate _ _ := Some None;
  proxied url := has_prefix url (js "ws://proxy");
  asked_room := session_of_url;
  stream_end := StallProxy.mkCloseFrame 1000 (js "stream_end");
  write_timeout := 10000
|}.

(** A relay with keys, as RFC 7519 and the middleware's claims have it: the
    principal of a token signed with the relay's secret that has not expired. *)
Definition claim_text (name : jsstr) (claims : list (jsstr * json)) : jsstr :=
  match map_get name claims with Some (JString s) => s | _ => [] end.
Definition claim_texts (name : jsstr) (claims : list (jsstr * json)) : list jsstr :=
  match map_get name claims with
  | Some (JArray l) => omap (λ v, match v with JString s => Some s | _ => None end) l
  | _ => []
  end.

Definition claims_of_url (secret : jsstr) (required : bool) (millis : Z) (url : jsstr) : option (option RelayClaims) :=
  match params_get (js "token") (search_params (cut_at question_mark url).2) with
  | Some tok =>
      match read_token secret tok with
      | Some (_, JObject claims) =>
          match map_get (js "exp") claims with
          | Some (JNumber exp) =>
              if millis <? exp * 1000
              then Some (Some (mkRelayClaims
                     (mkPrincipal (claim_text (js "sub") claims) (claim_text (js "client_id") claims) (claim_texts (js "rooms") claims))
                     (Some (exp * 1000))))
              else None
          | _ => None
          end
      | _ => None
      end
  | None => if required then None else Some None
  end.

Definition test_key (clientId issuer : jsstr) : TestKey := (testKey (js "/tmp/k") clientId issuer ∅).1.

Definition auth_relay (key : TestKey) (required : bool) : Transport := {|
  read_action := read_json;
  authenticate := claims_of_url (key_secret key) required;
  proxied _ := false;
  asked_room := session_of_url;
  stream_end := StallProxy.mkCloseFrame 1000 (js "stream_end");
  write_timeout := 10000
|}.

(** ** Runs *)

(** Nobody has a token to issue, or an interval. *)
Definition no_token {H} (_ : nat) : proc (Net H) jsstr := mret [].
Definition no_interval {H} (_ : nat) : proc (Net H) unit := mret tt.

(** The script is over, and the relay has no room left soon after. *)
Definition tidy {H} (test : proc (Net H) unit) : proc (Net H) unit :=
  test ;; until_every 10 (λ n, bool_decide (rooms (service (server n)) = ∅)) 3000.

Definition app_message_run (order : nat → nat → list nat) (test : proc (Net AppMessageSuite.Peer) unit) : bool :=
  passes (rounds order 2000
    (mkThreads new_net (network default_service epoch AppMessageSuite.recorder no_token no_interval 1 2000 (tidy test) 6 6))).

Definition interop_key : TestKey := test_key defaultClientId defaultIssuer.

Definition identity_run (required : bool) (order : nat → nat → list nat) (test : proc (Net IdentitySuite.Peer) unit) : bool :=
  passes (rounds order 2000
    (mkThreads new_net (network (T := auth_relay interop_key required) default_service epoch IdentitySuite.callbacks no_token no_interval
       1 2000 (tidy test) 3 3))).

(** More turns than any of the longer tests takes. *)
Definition turns : nat := Z.to_nat 8000.

Definition expiry_run (order : nat → nat → list nat) (test : proc (Net TokenExpirySuite.Peer) unit) : bool :=
  passes (rounds order turns
    (mkThreads new_net (network (T := auth_relay interop_key true) default_service epoch TokenExpirySuite.callbacks
       (TokenExpirySuite.fresh_token (λ millis subject ttl, sign interop_key millis subject ttl [])) no_interval 5 turns (tidy test) 2 3))).

Definition slow_run (order : nat → nat → list nat) (test : proc (Net SlowConsumerSuite.Peer) unit) : bool :=
  passes (rounds order turns
    (mkThreads new_net (network (T := proxied_relay) default_service epoch SlowConsumerSuite.callbacks no_token
       (SlowConsumerSuite.flood [1]%N) 8 turns (tidy test) 4 4))).

Definition reconnect_run (order : nat → nat → list nat) : bool :=
  passes (rounds order turns
    (mkThreads new_net (network (T := proxied_relay) default_service epoch ReconnectExercise.callbacks no_token
       (ReconnectExercise.flood [1]%N) 10 turns
       (tidy (ReconnectExercise.exercise (T := proxied_relay) (js "ws://relay") (js "ws://proxy") (js "design:x") 300)) 2 6))).

Definition exercise_key : TestKey := test_key (js "exercise-app") (js "exercise-issuer").
Definition alice_token (millis : Z) (rooms : list jsstr) : jsstr :=
  sign exercise_key millis (js "alice") 3600 [(js "rooms", VArray (VString <$> rooms))].

(** An attempt that is reported as [report]. *)
Definition auth_run (order : nat → nat → list nat) (test : proc (Net AuthExercise.Outcome) jsstr) (report : jsstr) : bool :=
  passes (rounds order 2000
    (mkThreads new_net (network (T := auth_relay exercise_key true) default_service epoch AuthExercise.callbacks no_token no_interval 1 2000
       (tidy (o ← test; if bool_decide (o = report) then mret tt else throws)) 1 1))).

(** ** What the runs come to *)

Definition room_name : jsstr := js "design:x".
Definition app_message_tests := AppMessageSuite.suite (js "ws://relay") room_name.
Definition interop_sign (millis : Z) (subject : jsstr) (ttl : Z) : jsstr := sign interop_key millis subject ttl [].
Definition identity_tests :=
  IdentitySuite.suite_required (js "ws://relay") room_name (key_clientId interop_key) (λ millis subject, interop_sign millis subject 3600).
Definition identity_optional_tests :=
  IdentitySuite.suite_optional (js "ws://relay") room_name (λ millis subject, interop_sign millis subject 3600).

Definition expiry_tests := TokenExpirySuite.suite (js "ws://relay") room_name interop_sign.
Definition slow_tests := SlowConsumerSuite.suite (js "ws://relay") (js "ws://proxy") room_name.
Definition auth_tests := AuthExercise.exercise (T := auth_relay exercise_key true) (js "ws://relay") alice_token.
Definition auth_reports : list jsstr := [js "upgrade failed"; js "join error ROOM_FORBIDDEN"; js "RoomJoined (clientId a)"].


