(* ===== verification/IdentityTrust.v ===== *)
(** * Whom a page can trust

    However pages, relay and connections take their turns, an identity in a
    client's roster is one that the relay's authentication found in a token,
    and what a client's application is told that a peer said was sent on a
    connection let in with that peer's identity. So a page that answers the
    calls of one subject, as the identity suite's does, is not talked into
    running another's. *)

From S2P Require Import Prelude JsText JsMap Models CollabClient ClientInvariants Jwt Concurrency Polling Relay RelaySafety RelayStream.
From S2P Require Import RelayInvariants RelayDemo RelayConnections NetworkSafety IdentityRoster IdentityRelay Network.
From S2P Require IdentitySuite.
From S2P Require SuiteRuns.
Open Scope Z_scope.

Section trust.
Context {G : GoRuntime} {C : Selector} {P : Platform} {T : Transport} {H : Type}.
Context (cfg : ServiceConfig) (now : Timestamp).
Context (cb : nat → Callback → M (World H) unit) {Hcb : ∀ i, Observer (cb i)}.
Context (issue : nat → proc (Net H) jsstr) (on_interval : nat → proc (Net H) unit).
Implicit Types (i c k : nat) (n : Net H).

(** An identity that authentication finds in some token, at some time. *)
Definition authenticated (i : option PeerIdentity) : Prop :=
  ∀ j, i = Some j → ∃ t url claims, authenticate t url = Some (Some claims) ∧ identity (Some (bearer claims)) = Some j.

(** The states of the net. In one of them the relay knows a client by an id,
    a connection has a principal, a page has asked for a message to be sent. *)
Context (occurs : Net H → Prop).

Definition joined_as (id : jsstr) (who : option PeerIdentity) : Prop :=
  ∃ n c cl, occurs n ∧ clientStore (service (server n)) !! c = Some cl ∧ ClientId cl = id ∧ PeerInfo_identity (info cl) = who.
Definition comes_as c (who : option PeerIdentity) : Prop :=
  ∃ n, occurs n ∧ identity (of_stream None principal c (server n)) = who.
Definition asked c (kind : jsstr) (payload : list N) : Prop :=
  ∃ n i s page action a msg, occurs n ∧ fst <$> dials n !! c = Some (i, s) ∧ pages n !! i = Some page ∧
    Eff (ESend s action) ∈ log (world page) ∧ read_action action = Some a ∧ CollabAction_action a = act_appMessage msg ∧
    AppMessage_kind msg = kind ∧ AppMessage_payload msg = payload.

Definition of_net (s : Server) : Prop := ∃ n, occurs n ∧ server n = s.
Lemma of_net_joined s c cl : of_net s → clientStore (service s) !! c = Some cl → joined_as (ClientId cl) (PeerInfo_identity (info cl)).
Proof. intros (n & Hn & <-) Hc. by exists n, c, cl. Qed.
Lemma of_net_comes s c : of_net s → comes_as c (identity (of_stream None principal c s)).
Proof. intros (n & Hn & <-). by exists n. Qed.

(** What the relay can vouch for of an identity in a roster. *)
Definition known n (id : jsstr) (j : PeerIdentityJson) : Prop :=
  ∃ who, vouched (service (server n)) id who ∧ json_identity who = Some j.
Abbreviation told := (said joined_as comes_as asked).
#[local] Instance truth : Tidings := true_tidings told.
Abbreviation steadfast := (steadfast authenticated joined_as comes_as asked).

Record trustworthy n : Prop := {
  tw_server : steadfast (server n);
  tw_pages i page : pages n !! i = Some page → attested (known n) (client (world page)) ∧ Forall (heard told) (log (world page))
}.
Definition remembers n n' : Prop := vouches (server n) (server n').

(** Code that keeps the net trustworthy, and comes to [Q]. *)
Abbreviation upright := (surely occurs trustworthy remembers).
Abbreviation any := (λ _ : _, True).
Definition fares n n' : Prop := trustworthy n' ∧ remembers n n'.

Lemma attested_mono (K K' : jsstr → PeerIdentityJson → Prop) (x : CollabClient) :
  (∀ id j, K id j → K' id j) → attested K x → attested K' x.
Proof. intros HK Hc. eapply Forall_impl; [exact Hc|]. intros y Hy j Hj. by apply HK, Hy. Qed.

Lemma upright_step {A} (f : Net H → option (Net H * proc (Net H) A)) Q :
  (∀ n, occurs n → trustworthy n → match f n with Some (n', p') => fares n n' ∧ upright p' Q | None => True end) → upright (Step f) Q.
Proof. intros Hf n Ho Hn. specialize (Hf n Ho Hn). by destruct (f n) as [[n' p']|]. Qed.

Lemma upright_once {A} ready (f : Net H → Net H * A) Q : (∀ n, trustworthy n → fares n (f n).1 ∧ Q (f n).2) → upright (once ready f) Q.
Proof. intros Hf. apply surely_once. intros n _ Hn _. by apply Hf. Qed.

Lemma upright_atomically {A} (f : Net H → Net H * A) Q : (∀ n, trustworthy n → fares n (f n).1 ∧ Q (f n).2) → upright (atomically f) Q.
Proof. intros Hf. apply surely_atomically. intros n _ Hn _. by apply Hf. Qed.

Lemma fares_same n n' : server n' = server n → trustworthy n' → fares n n'.
Proof. intros Es Hn. split; [done|]. unfold remembers. rewrite Es. by intros x. Qed.

Lemma upright_reads {A} (f : Net H → A) Q : (∀ n, Q (f n)) → upright (reads f) Q.
Proof. intros Hf. apply upright_atomically. intros n Hn. split; [by apply fares_same|apply Hf]. Qed.

(** A step that leaves the server alone. *)
Lemma upright_writes (f : Net H → Net H) : (∀ n, server (f n) = server n) → (∀ n, trustworthy n → trustworthy (f n)) → upright (writes f) any.
Proof. intros Es Hf. apply upright_atomically. intros n Hn. split; [|done]. apply fares_same; [apply Es|by apply Hf]. Qed.

Lemma upright_looks {A} (f : Net H → A) : upright (reads f) any.
Proof. by apply upright_reads. Qed.

Lemma upright_waits ready : upright (once ready (λ n, (n, tt))) any.
Proof. apply upright_once. intros n Hn. split; [by apply fares_same|done]. Qed.

Lemma upright_bind {A B} (p : proc (Net H) A) (f : A → proc (Net H) B) Q : upright p any → (∀ a, upright (f a) Q) → upright (p ≫= f) Q.
Proof. intros Hp Hf. apply (surely_bind _ _ _ _ _ any); [exact Hp|intros a _; apply Hf]. Qed.

(** The server and the pages are all that matters. *)
Lemma trustworthy_same n n' : server n' = server n → pages n' = pages n → trustworthy n → trustworthy n'.
Proof. intros Es Ep [H1 H2]. split; [by rewrite Es|]. intros i page. unfold known. rewrite Es, Ep. apply H2. Qed.

Lemma trustworthy_page i f n :
  (∀ page, pages n !! i = Some page → attested (known n) (client (world page)) ∧ Forall (heard told) (log (world page)) →
     attested (known n) (client (world (f page))) ∧ Forall (heard told) (log (world (f page)))) →
  trustworthy n → trustworthy (set_page i f n).
Proof.
  intros Hf [H1 H2]. split; [exact H1|]. intros j page. cbn. destruct (decide (j = i)) as [->|]; [rewrite lookup_alter_eq|rewrite lookup_alter_ne by done; apply H2].
  destruct (pages n !! i) as [page0|] eqn:E; [|done]. cbn. intros [= <-]. apply Hf; [done|by apply (H2 i)].
Qed.

Lemma fares_server n s : okay authenticated joined_as comes_as asked (server n) s → trustworthy n → fares n (n <| server := s |>).
Proof.
  intros [Hs Hv] [H1 H2]. split; [|exact Hv]. split; [exact Hs|]. intros i page Hp. destruct (H2 i page Hp) as [Ha Hl]. split; [|exact Hl].
  eapply attested_mono; [|exact Ha]. intros id j (who & Hk & Hj). exists who. split; [by apply (Hv (id, who))|done].
Qed.

Lemma upright_in_server {A} (p : proc Server A) Q :
  surely of_net steadfast vouches p Q → upright (in_server p) (λ r, ∀ a, r = Some a → Q a).
Proof.
  intros Hp. apply upright_step. intros n _ Hn. split; [by apply fares_same|]. generalize (life n). intros l. clear n Hn.
  induction p as [a|f IH] using proc_nested; [by intros ? [= <-]|]. intros n Ho Hn.
  destruct (life n =? l)%nat; [|intros _; split; [by apply fares_same|by intros a]].
  specialize (Hp (server n) (ex_intro _ n (conj Ho eq_refl)) (tw_server n Hn)). specialize (IH (server n)).
  destruct (f (server n)) as [[s p']|]; [|done]. intros Ho'. destruct (Hp (ex_intro _ _ (conj Ho' eq_refl))) as [Hs Hp'].
  split; [by apply fares_server|by eapply IH].
Qed.

Lemma upright_run_server {A} (p : proc Server A) Q : surely of_net steadfast vouches p Q → upright (run_server p) any.
Proof. intros Hp. apply (surely_bind _ _ _ _ _ _ _ (upright_in_server p Q Hp)). done. Qed.

(** *** Turns of pages *)

Lemma trustworthy_turn i input n :
  (∀ s ev, input = IMessage s ev → event_attested (known n) told ev) → trustworthy n → trustworthy (turn_of cb i input n).
Proof.
  intros Hev. apply trustworthy_page. intros page _ Hp. destruct (can_come _ _); [|done]. by apply (attested_exec (cb i)).
Qed.

Lemma upright_page_turn i input : no_message input = true → upright (page_turn cb i input) any.
Proof. intros Hi. apply upright_writes; [done|]. intros n. apply trustworthy_turn. by intros s ev ->. Qed.

(** A change of a page's own that leaves client and log alone. *)
Lemma upright_set_page i f :
  (∀ page, client (world (f page)) = client (world page) ∧ log (world (f page)) = log (world page)) → upright (writes (set_page i f)) any.
Proof. intros Hf. apply upright_writes; [done|]. intros n. apply trustworthy_page. intros page _. by destruct (Hf page) as [-> ->]. Qed.

Lemma wire_attested n e : fine e → event_attested (known n) told (wire (service (server n)) e).
Proof.
  set (s := service (server n)). assert (∀ c cl, clientStore s !! c = Some cl → peer_attested (known n) (info cl)) as Hcl.
  { intros c cl Hc j Hj. exists (PeerInfo_identity (info cl)). split; [by exists c, cl|done]. }
  intros [Hp Hw]. unfold event_attested, plain, worded, wire in *. destruct (re_body e) as [clientId room m v|c|ev]; cbn.
  - unfold peer_entries. induction (snap_peers room) as [|[id c] l IH]; cbn; [constructor|].
    destruct (clientStore s !! c) as [cl|] eqn:E; cbn; [|done]. constructor; [by apply (Hcl c)|done].
  - destruct (clientStore s !! c) as [cl|] eqn:E; [by apply (Hcl c)|done].
  - by destruct ev.
Qed.

(** *** The page's runtime, and its connections *)

Lemma fares_dial n c via claims : trustworthy n →
  (∀ claims', claims = Some claims' → ∃ t url, authenticate t url = Some (Some claims')) →
  fares n (n <| server := (server n) <| streams := <[c := NewCollabBidiStream claims]> (streams (server n)) |> |> <| dials := via |>).
Proof.
  intros Hn Ha. destruct (tw_server n Hn) as [H1 H2 H3 H4].
  assert (fares n (n <| server := (server n) <| streams := <[c := NewCollabBidiStream claims]> (streams (server n)) |> |>)) as [Hf Hr].
  { apply fares_server; [|done]. split; [split|by intros x]; [exact H1|..]; intros j st; cbn.
    - intros e [[_ <-]|[_ Hj]]%lookup_insert_Some; [by intros ?%elem_of_nil|by eapply H2].
    - intros [[_ <-]|[_ Hj]]%lookup_insert_Some; [|by eapply H3]. cbn. intros j' Hj'. destruct claims as [claims|]; [|done].
      destruct (Ha claims eq_refl) as (t & url & Ht). by exists t, url, claims.
    - intros [[_ <-]|[_ Hj]]%lookup_insert_Some; [done|by eapply H4]. }
  split; [|exact Hr]. eapply trustworthy_same; [| |exact Hf]; done.
Qed.

Lemma upright_dial i s url : upright (dial cb i s url) any.
Proof.
  assert (∀ input1 input2, no_message input1 = true → no_message input2 = true → upright (page_turn cb i input1 ;; page_turn cb i input2) any) as Htwo
    by (intros; apply upright_bind; [by apply upright_page_turn|intros _; by apply upright_page_turn]).
  apply upright_step. intros n _ Hn. destruct (if up n then authenticate (clock n) url else None) as [claims|] eqn:Ea.
  - split; [|by apply Htwo]. apply fares_dial; [done|]. intros claims' ->. destruct (up n); [|done]. by exists (clock n), url.
  - split; [by apply fares_same|by apply Htwo].
Qed.

Lemma upright_room_status url : upright (room_status url) any.
Proof.
  unfold room_status. apply upright_bind; [apply upright_looks|]. intros alive. destruct (if alive then _ else _) as [k|]; [|done].
  apply upright_bind; [|done]. eapply surely_mono; [apply (upright_in_server _ any)|done].
  apply sure_in_service; [|apply yields_any]. unfold GetRoom, ToProto, GetPeerInfo.
  repeat (steady_step || (apply steady_reads; apply _)).
Qed.

Context (Hissue : ∀ i, upright (issue i) (λ _, True)) (Hinterval : ∀ i, upright (on_interval i) (λ _, True)).

Lemma none_found : authenticated (identity None).
Proof. by intros j. Qed.

(** What a page's log asks a connection to send, it was asked to send. *)
Lemma entry_asks n i s action c a :
  occurs n → next_entry i n = Some (Eff (ESend s action)) → stream_of i s n = Some c → read_action action = Some a →
  asks asked c (CollabAction_action a).
Proof.
  intros Ho He Hc Ha. destruct (CollabAction_action a) as [| | | | | | | | | |msg|] eqn:Ea; try exact I.
  unfold next_entry in He. apply bind_Some in He as (page & Hp & Hl).
  apply fmap_Some in Hc as ([c' d] & Hd & ->). apply list_find_Some in Hd as (Hd & Ed & _).
  exists n, i, s, page, action, a, msg. cbn. rewrite Hd. cbn. split_and!; [done|by f_equal|done| |done..].
  apply elem_of_reverse. by eapply list_elem_of_lookup_2.
Qed.

Lemma upright_effects i k : upright (effects cfg now cb issue i k) any.
Proof.
  induction k as [|k IH]; [done|]. apply upright_step. intros n Ho Hn. destruct (next_entry i n) as [entry|] eqn:Een; [|done].
  split; [apply fares_same; [done|by apply trustworthy_page]|]. apply upright_bind; [|intros _; exact IH].
  destruct entry as [|[s url|s action|s|t d|t| |url| |]]; try done.
  - apply upright_dial.
  - change (stream_of i s _) with (stream_of i s n). destruct (stream_of i s n) as [c|] eqn:Ec; [|done].
    destruct (read_action action) as [a|] eqn:Ea; [|done]. case_match; [|done]. eapply upright_run_server.
    apply sure_Send; [apply of_net_joined|apply of_net_comes|exact none_found|by eapply entry_asks].
  - destruct (stream_of i s _) as [c|]; [|done]. eapply upright_run_server. apply sure_hang_up.
  - apply upright_writes; [done|]. intros n' Hn'. by apply trustworthy_page.
  - by apply upright_set_page.
  - apply upright_bind; [apply Hissue|]. intros tok. by apply upright_page_turn.
  - apply upright_bind; [apply upright_room_status|]. intros status. by apply upright_page_turn.
Qed.

Lemma upright_microtasks i k : upright (microtasks cb i k) any.
Proof.
  induction k as [|k IH]; [done|]. apply upright_step. intros n _ Hn. destruct (pages n !! i) as [p|]; [|done]. cbn [mbind option_bind].
  destruct (Nat.ltb _ _); [|done]. split; [by apply fares_same|]. apply upright_bind; [by apply upright_page_turn|intros _; exact IH].
Qed.

Lemma upright_timers_ring i k : upright (timers_ring cb i k) any.
Proof.
  induction k as [|k IH]; [done|]. apply upright_step. intros n _ Hn. destruct (pages n !! i) as [p|]; [|done]. cbn [mbind option_bind].
  destruct (list_find _ _) as [[j a]|]; [|done]. cbn [mbind option_bind]. split; [apply fares_same; [done|by apply trustworthy_page]|].
  apply upright_bind; [by apply upright_page_turn|intros _; exact IH].
Qed.

Lemma upright_interval_rings i k : upright (interval_rings on_interval i k) any.
Proof.
  induction k as [|k IH]; [done|]. apply upright_step. intros n _ Hn. destruct (pages n !! i) as [p|]; [|done]. cbn [mbind option_bind].
  destruct (interval p) as [[at_ period]|]; [|done]. cbn [mbind option_bind]. destruct (at_ <=? clock n); [|done].
  split; [apply fares_same; [done|by apply trustworthy_page]|]. apply upright_bind; [apply Hinterval|intros _; exact IH].
Qed.

Lemma upright_hears_end c i s : upright (hears_end cb c i s) any.
Proof.
  apply upright_bind; [apply upright_waits|intros _]. apply upright_bind; [|intros _; by apply upright_page_turn].
  apply upright_writes; [intros n; by destruct (through c n)|]. intros n Hn. destruct (through c n); [|exact Hn]. by apply (trustworthy_same n).
Qed.

Lemma upright_hang_up c : upright (run_server (hang_up c)) any.
Proof. eapply upright_run_server, sure_hang_up. Qed.
Hint Resolve upright_hears_end upright_hang_up : core.

Lemma upright_socket_in c k : upright (socket_in cb c k) any.
Proof.
  induction k as [|k IH]; [done|]. apply upright_step. intros n _ Hn. destruct (dials n !! c) as [[[i s] via]|]; [|done]. split; [by apply fares_same|].
  apply (surely_bind _ _ _ _ _ _ _ (upright_in_server _ _ (sure_Recv authenticated of_net joined_as comes_as asked c))).
  intros [[e|]|] He; [| |done].
  - specialize (He _ eq_refl). apply upright_bind; [apply upright_looks|]. intros since. apply upright_step. intros n' _ Hn'.
    destruct (flows c n').
    + split; [|exact IH]. destruct (_ && _); [by apply fares_same|]. apply fares_same; [done|]. apply trustworthy_turn; [|done].
      intros ? ? [= _ <-]. by apply wire_attested.
    + destruct (_ <=? _); [|done]. split; [by apply fares_same|]. by apply upright_bind.
  - apply upright_bind; [apply upright_looks|]. intros over. apply upright_bind; [|intros _; by apply upright_bind].
    apply upright_once. intros n' Hn'. split; [|done]. apply fares_same; cbn; destruct (_ && _); try done. by apply (trustworthy_same n').
Qed.

Lemma upright_connection c k : Forall (λ p, upright p any) (connection cfg now cb c k).
Proof.
  repeat constructor; [apply upright_socket_in|..];
    (apply upright_bind; [apply upright_waits|intros _; eapply upright_run_server]).
  - apply sure_bridge.
  - apply sure_watchClose.
  - apply sure_expire.
Qed.

Lemma upright_page_tasks i k : Forall (λ p, upright p any) (page_tasks cfg now cb issue on_interval i k).
Proof.
  repeat constructor; [apply upright_effects|apply upright_microtasks|apply upright_timers_ring|apply upright_interval_rings].
Qed.

Lemma upright_ticks step k : upright (ticks step k) any.
Proof.
  induction k as [|k IH]; [done|]. apply upright_bind; [|intros _; exact IH]. apply upright_writes; [done|]. intros n Hn. by apply (trustworthy_same n).
Qed.

Lemma upright_network step k script count conns :
  upright script any → Forall (λ p, upright p any) (network cfg now cb issue on_interval step k script count conns).
Proof.
  intros Hs. constructor; [exact Hs|]. constructor; [apply upright_ticks|]. apply Forall_app. split; apply Forall_bind, Forall_forall; intros x _.
  - apply upright_page_tasks.
  - apply upright_connection.
Qed.

(** *** Scripts *)

Lemma upright_new_page i o h : upright (new_page i o h) any.
Proof.
  apply upright_writes; [done|]. intros n [H1 H2]. split; [exact H1|]. intros j page. cbn.
  intros [[_ <-]|[_ Hj]]%lookup_insert_Some; [by split; constructor|by apply (H2 j)].
Qed.

Lemma upright_set_app i f : upright (writes (set_app i f)) any.
Proof. by apply upright_set_page. Qed.

Lemma upright_sleep ms : upright (sleep ms) any.
Proof. apply upright_bind; [apply upright_looks|]. intros t. apply upright_waits. Qed.

Lemma upright_expect f : upright (expect f) any.
Proof. apply upright_step. intros n _ Hn. destruct (f n); (split; [by apply fares_same|done]). Qed.

Lemma upright_tick k period cond ms start : upright (tick k period cond ms start) any.
Proof.
  induction k as [|k IH]; [done|]. apply upright_step. intros n _ Hn. split; [by apply fares_same|]. destruct (cond n); [done|]. destruct (_ <? _); [done|].
  apply upright_bind; [apply upright_sleep|intros _; exact IH].
Qed.

Lemma upright_until_every period cond ms : upright (until_every period cond ms) any.
Proof.
  apply upright_bind; [|by intros []]. apply upright_bind; [apply upright_looks|]. intros start. apply upright_tick.
Qed.

Lemma scripted_upright A (p : proc (Net H) A) : scripted cb p → upright p any.
Proof.
  induction 1; [done|by apply upright_bind|apply upright_looks|by apply upright_page_turn|apply upright_new_page|apply upright_set_app
    |apply upright_sleep|apply upright_expect|apply upright_until_every].
Qed.
End trust.

(** ** However everyone takes turns *)

Section schedules.
Context {G : GoRuntime} {C : Selector} {P : Platform} {T : Transport} {H : Type}.
Context (cb : nat → Callback → M (World H) unit) {Hcb : ∀ i, Observer (cb i)}.
Context (cfg : ServiceConfig) (now : Timestamp) (issue : nat → proc (Net H) jsstr) (on_interval : nat → proc (Net H) unit).
Context (step : Z) (k : nat) (script : proc (Net H) unit) (count conns : nat).
Context (Hissue : ∀ i, scripted cb (issue i)) (Hinterval : ∀ i, scripted cb (on_interval i)) (Hscript : scripted cb script).
Implicit Types (turns : list nat).

Abbreviation run := (net_after cfg now cb issue on_interval step k script count conns).

(** The states of a run. *)
Definition during turns (n : Net H) : Prop := ∃ m, n = run (take m turns).

Lemma trustworthy_new occurs : trustworthy occurs (new_net (H := H)).
Proof. split; [split; [split|..]|]; cbn; intros *; try by rewrite lookup_empty. by intros []. Qed.

Lemma pool_upright occurs : Forall (λ p, surely occurs (trustworthy occurs) remembers p (λ _, True))
  (network cfg now cb issue on_interval step k script count conns).
Proof. apply upright_network; [exact Hcb|intros; by apply (scripted_upright cb)..]. Qed.

Lemma run_trustworthy turns : trustworthy (during turns) (run turns).
Proof.
  apply (surely_schedule (during turns) _ remembers); [|apply trustworthy_new|apply pool_upright]. intros m. by exists m.
Qed.

(** What the relay vouches for it vouches for to the end. *)
Lemma run_remembers turns m : remembers (run (take m turns)) (run turns).
Proof.
  apply (surely_lasts (during turns) (trustworthy (during turns)) remembers); [by intros n x| | |apply trustworthy_new|apply pool_upright].
  - intros n1 n2 n3 H1 H2 x Hx. by apply H2, H1.
  - intros m'. by exists m'.
Qed.

Lemma joined_vouched turns id who : joined_as (during turns) id who → vouched (service (server (run turns))) id who.
Proof.
  intros (n & c & cl & [m ->] & Hc & Hid & Hw). apply (run_remembers turns m (id, who)). by exists c, cl.
Qed.
End schedules.

(** Somebody the relay knows as [id] came with claims it found in a token. *)
Definition came_with {T : Transport} {H} (n : Net H) (id : jsstr) (claims : RelayClaims) : Prop :=
  ∃ c cl t url, clientStore (service (server n)) !! c = Some cl ∧ ClientId cl = id ∧
    PeerInfo_identity (info cl) = identity (Some (bearer claims)) ∧ authenticate t url = Some (Some claims).

Section properties.
Context {G : GoRuntime} {C : Selector} {P : Platform} {T : Transport}.

Lemma trustworthy_roster {H} occurs (n : Net H) i page id j :
  trustworthy occurs n → pages n !! i = Some page → getPeer (client (world page)) id ≫= PeerInfoJson_identity = Some j →
  ∃ claims, came_with n id claims ∧ json_identity (identity (Some (bearer claims))) = Some j.
Proof.
  intros [[[_ _ Hf] _ _ _] H2] Hp [p [Hg Hj]]%bind_Some.
  destruct (attested_getPeer _ _ id p j (proj1 (H2 i page Hp)) Hg Hj) as (who & (c & cl & Hc & Hk & Hi) & Hw). subst who.
  destruct (PeerInfo_identity (info cl)) as [x|] eqn:Ex; [|done]. destruct (Hf c cl Hc x Ex) as (t & url & claims & Ha & Hx).
  exists claims. split; [exists c, cl, t, url; by rewrite Hx|by rewrite Hx].
Qed.


(** A page had asked for the message to be sent, on a connection that the relay
    let in with that identity. *)
Definition sent_by {H} (states : Net H → Prop) (who : option PeerIdentity) (kind : jsstr) (payload : list N) : Prop :=
  ∃ c, comes_as states c who ∧ asked states c kind payload.

(** Whoever is told that a peer said something, the relay knows the peer, and
    it was said on a connection let in as that peer was. *)
Lemma heard_from_speaker {H} (cb : nat → Callback → M (World H) unit) {Hcb : ∀ i, Observer (cb i)}
    cfg now issue on_interval step k script count conns turns i page kind payload from to :
  (∀ i, scripted cb (issue i)) → (∀ i, scripted cb (on_interval i)) → scripted cb script →
  let run := net_after cfg now cb issue on_interval step k script count conns in
  pages (run turns) !! i = Some page → Cb (OnAppMessage kind payload from to) ∈ log (world page) →
  ∃ who, vouched (service (server (run turns))) from who ∧ sent_by (λ n, ∃ m, n = run (take m turns)) who kind payload.
Proof.
  intros Hi Ho Hs run Hp Hin. pose proof (run_trustworthy cb cfg now _ _ step k _ count conns Hi Ho Hs turns) as [_ H2].
  destruct (H2 i page Hp) as [_ Hlog]. rewrite Forall_forall in Hlog. destruct (Hlog _ Hin) as (c & (who & Hcome & Hjoin) & Hasked).
  exists who. split; [|by exists c]. exact (joined_vouched cb cfg now _ _ step k _ count conns Hi Ho Hs turns from who Hjoin).
Qed.

Lemma roster_vouched {H} occurs (n : Net H) i page id j :
  trustworthy occurs n → pages n !! i = Some page → getPeer (client (world page)) id ≫= PeerInfoJson_identity = Some j → known n id j.
Proof. intros [_ H2] Hp [p [Hg Hj]]%bind_Some. exact (attested_getPeer _ _ id p j (proj1 (H2 i page Hp)) Hg Hj). Qed.

(** Nobody shares an id. *)
Lemma vouched_unique s id who who' : wf s → vouched s id who → vouched s id who' → who = who'.
Proof.
  intros Hwf (c & cl & Hc & <- & <-) (c' & cl' & Hc' & Hid & <-).
  assert (c' = c) as -> by by apply (wf_distinct s Hwf c' c cl' cl). congruence.
Qed.

(** C9: However relay, pages and connections take their turns, what a page's
    application was told that a peer said was said on a connection which the
    relay had let in with the very identity that the page's roster has for
    the peer: nobody speaks in another's name. *)
Theorem words_are_their_speakers {L : GoLaws G} {H} (cb : nat → Callback → M (World H) unit) {Hcb : ∀ i, Observer (cb i)}
    cfg now issue on_interval step k script count conns turns i page kind payload from to j :
  (∀ i, scripted cb (issue i)) → (∀ i, scripted cb (on_interval i)) → scripted cb script →
  let run := net_after cfg now cb issue on_interval step k script count conns in
  pages (run turns) !! i = Some page → Cb (OnAppMessage kind payload from to) ∈ log (world page) →
  getPeer (client (world page)) from ≫= PeerInfoJson_identity = Some j →
  ∃ who, json_identity who = Some j ∧ sent_by (λ n, ∃ m, n = run (take m turns)) who kind payload.
Proof.
  intros Hi Ho Hs run Hp Hin Hj.
  destruct (heard_from_speaker cb cfg now issue on_interval step k script count conns turns i page kind payload from to Hi Ho Hs Hp Hin)
    as (who & Hv & Hsent).
  destruct (roster_vouched _ _ _ _ _ _ (run_trustworthy cb cfg now _ _ step k _ count conns Hi Ho Hs turns) Hp Hj) as (who' & Hv' & Hj').
  exists who. split; [|done]. by rewrite (vouched_unique _ from who who' (network_wf cb cfg now _ _ step k _ count conns turns Hi Ho Hs) Hv Hv').
Qed.

(** ** The identity suite's page *)

Definition reply_to (from : jsstr) (action : CollabActionJson) : Prop :=
  ∃ payload, CollabActionJson_appMessage action = Some (mkAppMessageJson (Some (js "reply")) (Some payload) (Some [from])).

(** A reply is sent, or an error is thrown. *)
Lemma reply_outcome payload from millis (w : World IdentitySuite.Peer) :
  let w' := (sendAppMessage (js "reply") payload (ToOne from) millis w).2 in
  client w' = client w ∧ env w' = env w ∧
  (log w' = log w ∨ ∃ s action, log w' = Eff (ESend s action) :: log w ∧ reply_to from action).
Proof.
  unfold sendAppMessage, send, socket_send, mbind, M_bind, get, gets. destruct (grpc (client w)) as [s|]; [|by auto].
  destruct (_isConnected (client w)); [|by auto]. destruct (grpc_send_error _ _); [by auto|].
  split_and!; [done..|right]. eexists _, _. split; [done|]. by eexists.
Qed.

(** It leaves client and runtime alone, and sends a reply at most. *)
Lemma answer_outcome trusted millis kind payload from w :
  let w' := (IdentitySuite.answerCallsFrom trusted millis kind payload from w).2 in
  client w' = client w ∧ env w' = env w ∧
  (log w' = log w ∨
   ∃ s action, log w' = Eff (ESend s action) :: log w ∧ reply_to from action ∧ kind = js "call" ∧
     IdentitySuite.subject_of (client w) from = Some trusted).
Proof.
  unfold IdentitySuite.answerCallsFrom, IdentitySuite.push_received, IdentitySuite.update, mbind, M_bind, gets, modify.
  destruct (bool_decide_reflect (kind = js "call")) as [->|]; [|by auto].
  match goal with |- context [bool_decide (IdentitySuite.subject_of ?c from = _)] =>
    destruct (bool_decide_reflect (IdentitySuite.subject_of c from = Some trusted)) as [E|] end; [cbn [negb orb]|by auto].
  match goal with |- context [sendAppMessage _ ?p (ToOne from) _ ?w'] =>
    destruct (reply_outcome p from millis w') as (Hc & He & [Hl|(s & action & Hl & Hr)]) end;
    (split; [exact Hc|split; [exact He|]]); [by left|right].
  by exists s, action.
Qed.

#[export] Instance callbacks_observe i : Observer (IdentitySuite.callbacks i).
Proof.
  intros c w. destruct c; try by exists []. unfold IdentitySuite.callbacks, gets, mbind. cbn.
  destruct (IdentitySuite.trusted (app w)) as [t|]; [|by exists []].
  destruct (answer_outcome t 0%N kind payload fromClientId w) as (Ec & Ee & [El|(s & action & El & _)]).
  - by exists [].
  - exists [Eff (ESend s action)]. split_and!; [done..|]. by repeat constructor.
Qed.

(** C11: A page that answers the calls of one subject, as the identity suite's
    does, runs nobody else's: for a call it was given it sends nothing, or a
    reply to the caller alone, and then the call was sent on a connection that
    the relay had let in for that subject. *)
Theorem page_answers_the_trusted {L : GoLaws G} cfg now issue on_interval step k script count conns turns i page
    trusted millis kind payload from to :
  (∀ i, scripted IdentitySuite.callbacks (issue i)) → (∀ i, scripted IdentitySuite.callbacks (on_interval i)) →
  scripted IdentitySuite.callbacks script →
  let run := net_after cfg now IdentitySuite.callbacks issue on_interval step k script count conns in
  let w := world page in
  let w' := (IdentitySuite.answerCallsFrom trusted millis kind payload from w).2 in
  pages (run turns) !! i = Some page → Cb (OnAppMessage kind payload from to) ∈ log w →
  log w' = log w ∨
  ∃ s action caller, log w' = Eff (ESend s action) :: log w ∧ reply_to from action ∧ kind = js "call" ∧
    sent_by (λ n, ∃ m, n = run (take m turns)) (Some caller) kind payload ∧ PeerIdentity_subject caller = trusted.
Proof.
  intros Hi Ho Hs run w w' Hp Hin. destruct (answer_outcome trusted millis kind payload from w) as (_ & _ & [El|(s & action & El & Hr & Hk & Hsub)]).
  { by left. }
  right. unfold IdentitySuite.subject_of in Hsub. apply bind_Some in Hsub as [p [Hg Hj]]. apply bind_Some in Hj as [j [Hj Ht]].
  destruct (heard_from_speaker IdentitySuite.callbacks cfg now issue on_interval step k script count conns turns i page kind payload from to
    Hi Ho Hs Hp Hin) as (who & Hv & Hsent).
  destruct (roster_vouched _ _ i page from j (run_trustworthy IdentitySuite.callbacks cfg now _ _ step k _ count conns Hi Ho Hs turns) Hp)
    as (who' & Hv' & Hj'); [apply bind_Some; by exists p|].
  rewrite <-(vouched_unique _ from who who' (network_wf IdentitySuite.callbacks cfg now _ _ step k _ count conns turns Hi Ho Hs) Hv Hv') in Hj'.
  destruct who as [caller|]; [|done].
  exists s, action, caller. split_and!; [done..|]. injection Hj' as <-. by injection Ht.
Qed.
End properties.

(** ** Witnesses *)

#[local] Existing Instance node_platform.
#[local] Existing Instance first_ready.
#[local] Existing Instance sample_node.
#[local] Existing Instance IdentitySuite.PeerIdentityJson_eq_dec.
#[local] Instance identity_relay : Transport := SuiteRuns.auth_relay SuiteRuns.interop_key true.

Definition sign_hour (millis : Z) (subject : jsstr) : jsstr := SuiteRuns.interop_sign millis subject 3600.

(** The first of the suite's tests, in a hundred rounds. *)
Definition bob_meets_alice : proc (Net IdentitySuite.Peer) unit :=
  IdentitySuite.later_joiner (js "ws://relay") SuiteRuns.room_name (key_clientId SuiteRuns.interop_key) sign_hour.
Definition hundred_rounds : list nat := concat (replicate 100 (seq 0 20)).
Definition met : Net IdentitySuite.Peer :=
  net_after default_service epoch IdentitySuite.callbacks SuiteRuns.no_token SuiteRuns.no_interval 1 50 bob_meets_alice 2 2 hundred_rounds.
(** Whoever compares such runs does not play them out. *)
#[local] Strategy 1000 [net_after].

Definition alice_id : jsstr := js "d".
Definition alice_identity : PeerIdentityJson := IdentitySuite.identity_of (key_clientId SuiteRuns.interop_key) (js "alice").

Lemma bob_meets_alice_scripted : scripted IdentitySuite.callbacks bob_meets_alice.
Proof. unfold bob_meets_alice, IdentitySuite.later_joiner, IdentitySuite.join, IdentitySuite.until. repeat scripted_step. Qed.

Lemma idle_scripted {H} (cb : nat → Callback → M (World H) unit) :
  (∀ i, scripted cb (SuiteRuns.no_token i)) ∧ (∀ i, scripted cb (SuiteRuns.no_interval i)).
Proof. by split; intros; apply scripted_ret. Qed.


Lemma network_relay_consistent_witness :
  let s := service (server met) in
  size (clientStore s) = 2%nat ∧ panicked s = false ∧
  ∀ c c' cl cl', clientStore s !! c = Some cl → clientStore s !! c' = Some cl' → ClientId cl = ClientId cl' → c = c'.
Proof.
  destruct (idle_scripted IdentitySuite.callbacks) as [Hi Ho]. split; [vm_compute; reflexivity|].
  assert (∀ (P1 P2 P3 P4 : Prop), P1 ∧ P2 ∧ P3 ∧ P4 → P1 ∧ P4) as Hends by tauto.
  eapply Hends. exact (network_relay_consistent IdentitySuite.callbacks default_service epoch SuiteRuns.no_token SuiteRuns.no_interval 1 50
    bob_meets_alice 2 2 hundred_rounds Hi Ho bob_meets_alice_scripted).
Defined.

(** The suite's agent calls the page of its own user. *)
Definition agent_calls : proc (Net IdentitySuite.Peer) unit :=
  IdentitySuite.join (js "ws://relay") SuiteRuns.room_name sign_hour 0 (js "page") (Some (js "alice")) ;;
  IdentitySuite.join (js "ws://relay") SuiteRuns.room_name sign_hour 1 (js "agent") (Some (js "alice")) ;;
  IdentitySuite.calls 1 0 ;;
  IdentitySuite.until (λ n, (length (IdentitySuite.received_by 0 n) =? 1)%nat).
Definition many_rounds : list nat := concat (replicate 200 (seq 0 20)).
Definition called : Net IdentitySuite.Peer :=
  net_after default_service epoch IdentitySuite.callbacks SuiteRuns.no_token SuiteRuns.no_interval 1 100 agent_calls 2 2 many_rounds.

Lemma agent_calls_scripted : scripted IdentitySuite.callbacks agent_calls.
Proof. unfold agent_calls, IdentitySuite.join, IdentitySuite.calls, IdentitySuite.until. repeat scripted_step. Qed.

Definition is_call (x : Entry) : bool :=
  match x with
  | Cb (OnAppMessage kind payload from _) =>
      bool_decide (kind = js "call") && bool_decide (payload = text_encode (js "select_part")) && bool_decide (from = alice_id)
  | _ => false
  end.

Lemma calls_logged l : existsb is_call l = true → ∃ to, Cb (OnAppMessage (js "call") (text_encode (js "select_part")) alice_id to) ∈ l.
Proof.
  intros (x & Hin & Hx)%existsb_exists. destruct x as [[]|]; try discriminate Hx. unfold is_call in Hx.
  apply andb_true_iff in Hx as [[Hk%bool_decide_eq_true Hp%bool_decide_eq_true]%andb_true_iff Hf%bool_decide_eq_true].
  subst. exists toClientId. by apply list_elem_of_In.
Qed.

Lemma words_are_their_speakers_witness :
  ∃ who, json_identity who = Some alice_identity ∧
    sent_by (λ n, ∃ m, n = net_after default_service epoch IdentitySuite.callbacks SuiteRuns.no_token SuiteRuns.no_interval 1 100
      agent_calls 2 2 (take m many_rounds)) who (js "call") (text_encode (js "select_part")).
Proof.
  assert (from_option (λ page, bool_decide (getPeer (client (world page)) alice_id ≫= PeerInfoJson_identity = Some alice_identity) &&
    existsb is_call (log (world page))) false (pages called !! 0%nat) = true) as Hc by (vm_compute; reflexivity).
  destruct (idle_scripted IdentitySuite.callbacks) as [Hi Ho].
  assert (∀ page to, pages called !! 0%nat = Some page →
    Cb (OnAppMessage (js "call") (text_encode (js "select_part")) alice_id to) ∈ log (world page) →
    getPeer (client (world page)) alice_id ≫= PeerInfoJson_identity = Some alice_identity →
    ∃ who, json_identity who = Some alice_identity ∧
      sent_by (λ n, ∃ m, n = net_after default_service epoch IdentitySuite.callbacks SuiteRuns.no_token SuiteRuns.no_interval 1 100
        agent_calls 2 2 (take m many_rounds)) who (js "call") (text_encode (js "select_part"))) as Hwords.
  { intros page to. exact (words_are_their_speakers IdentitySuite.callbacks default_service epoch SuiteRuns.no_token SuiteRuns.no_interval
      1 100 agent_calls 2 2 many_rounds 0 page _ _ alice_id to alice_identity Hi Ho agent_calls_scripted). }
  revert Hc Hwords. generalize called. intros n Hc Hwords. destruct (pages n !! 0%nat) as [page|]; [|discriminate Hc].
  cbn [from_option] in Hc. apply andb_true_iff in Hc as [Hj%bool_decide_eq_true Hl]. apply calls_logged in Hl as [to Hl].
  exact (Hwords page to eq_refl Hl Hj).
Defined.

Lemma page_answers_the_trusted_witness :
  ∃ caller, sent_by (λ n, ∃ m, n = net_after default_service epoch IdentitySuite.callbacks SuiteRuns.no_token SuiteRuns.no_interval 1 100
      agent_calls 2 2 (take m many_rounds)) (Some caller) (js "call") (text_encode (js "select_part")) ∧ PeerIdentity_subject caller = js "alice".
Proof.
  set (answered := λ page : Page IdentitySuite.Peer,
    log (IdentitySuite.answerCallsFrom (js "alice") 0%N (js "call") (text_encode (js "select_part")) alice_id (world page)).2).
  assert (from_option (λ page, negb (length (answered page) =? length (log (world page)))%nat && existsb is_call (log (world page)))
    false (pages called !! 0%nat) = true) as Hc by (vm_compute; reflexivity).
  destruct (idle_scripted IdentitySuite.callbacks) as [Hi Ho].
  assert (∀ page to, pages called !! 0%nat = Some page →
    Cb (OnAppMessage (js "call") (text_encode (js "select_part")) alice_id to) ∈ log (world page) →
    answered page = log (world page) ∨
    ∃ s action caller, answered page = Eff (ESend s action) :: log (world page) ∧ reply_to alice_id action ∧ js "call" = js "call" ∧
      sent_by (λ n, ∃ m, n = net_after default_service epoch IdentitySuite.callbacks SuiteRuns.no_token SuiteRuns.no_interval 1 100
        agent_calls 2 2 (take m many_rounds)) (Some caller) (js "call") (text_encode (js "select_part")) ∧
      PeerIdentity_subject caller = js "alice") as Hanswer.
  { intros page to. exact (page_answers_the_trusted default_service epoch SuiteRuns.no_token SuiteRuns.no_interval 1 100 agent_calls
      2 2 many_rounds 0 page (js "alice") 0%N (js "call") (text_encode (js "select_part")) alice_id to Hi Ho agent_calls_scripted). }
  revert Hc Hanswer. generalize called. intros n Hc Hanswer. destruct (pages n !! 0%nat) as [page|]; [|discriminate Hc].
  cbn [from_option] in Hc. apply andb_true_iff in Hc as [Hne Hl]. apply calls_logged in Hl as [to Hl].
  destruct (Hanswer page to eq_refl Hl) as [E|(s & action & caller & _ & _ & _ & Hsent & Hsub)]; [|by exists caller].
  rewrite E, Nat.eqb_refl in Hne. discriminate Hne.
Defined.
